(* ===== verification/_CoqProject ===== *)
-Q . S2P
Prelude.v
Platform.v
Adler.v
Xtea.v
Rsa.v
InMessage.v
OutMessage.v
MessageTests.v
Connection.v
Protocol.v
Pool.v
Parallel.v
Scheduler.v
SchedulerSpec.v
SchedulerTests.v
Service.v
LoginServer.v
Lambda.v
Mysql.v
Main.v
Hook.v
HookTests.v
Adapter.v
AdapterTests.v
ScriptTasks.v
AmyError.v
Amy.v
AmyConnect.v
AmyRows.v
