(* ===== verification/Prelude.v ===== *)
(** * otservpp: a verification development

    otservpp is a game server in C++11: an asynchronous network layer speaking the
    encrypted protocol of Tibia clients, services on TCP ports, database access by
    threads of their own, scheduled tasks, and hooks and adapters that connect the
    program to Lua scripts. The development translates the program's own code into
    executable definitions and proves what they do. All paths are relative to
    src/otservpp, and those of unit tests to src/otservpptest.

    ** How C++ is modelled

    A piece of code that works on a state [S] is a [prog S A]: it maps a state to an
    outcome and a state. An outcome is a value ([Val]), an exception ([Exc], which
    keeps the changes made before it was thrown) or undefined behaviour ([Fault]: a
    failed assert, an access outside an object, a null or dangling pointer, a loop
    that used up its fuel). [let!] and [;;;] sequence programs, [try_catch] is try
    and catch. Unsigned integers are values of [Z] with their wrap-around written
    out; [Platform] leaves open what the standard does: byte order, the widths of
    [size_t] and of [uint_fast32_t], and whether assert is compiled in. A function
    template is a function on its types that returns [None] where the compiler
    refuses the instantiation.

    Code that runs later (a completion handler, a function posted to a strand, an
    io_service or a thread) is data in the state, and a component is a step relation
    on these states: a step is the completion of any pending operation with any
    result, or a call that the environment may make. Invariants are proved of every
    [reachable] state, so for every order of completions. A handler runs as one
    step, as a strand and a single worker thread guarantee. Where the code is
    not under src (the operating system, asio, OpenSSL, the C client of MySQL, Lua
    and luabind, the hooks a script provides, the account database) it is a class,
    an argument of the definitions that call it; what is proved holds for all of its
    instances, or for those that satisfy the hypotheses in the statement.

    ** Files

    - Prelude (this file): outcomes, programs, their laws and the hints of the
      database [prog] for invariants ([preserves], [safe], [keeps]), [reachable].
    - Platform: machine integers, their bytes ([enc], [dec]), memory as bytes.
    - Adler, Xtea, Rsa: crypto.cpp and crypto.h.
    - InMessage, OutMessage: message/. A [msg] has the buffer, position and size of
      [BasicInMessage], or the buffer and prefix position of [BasicOutMessage];
      Tibia's framing is on top of them.
    - Connection: protocol/connection.hpp. A [world] is a connection, the operations
      and functions asio holds for it, the counts of the pointers to it and to its
      protocol object, and a log of what it was given to send and has written.
      [handle] performs one event. The class [BaseProtocol] is what a connection needs
      of a protocol object; the class [Protocol] states how one may behave,
      and the theorems about the connection hold for each.
    - Protocol: protocol/basicprotocol.hpp, standardprotocol.hpp, the login data and
      the account login protocol, an instance of the interface of Connection.
    - Pool: sql/connectionpool.h and .cpp. Scheduler: scheduler.hpp. A task has its
      timer with the waits on it, the calls of its function with their error codes, and
      whether its owner still holds it. Parallel: the functions the scheduler posts to its
      io_service and to its threads, with their callbacks; the functions are programs of
      single accesses and calls, which may post others. SchedulerSpec: what a task promises, as a timer
      that is armed or not. Service: service/.
    - LoginServer: a service, a connection it accepted and its account login protocol,
      with all the events of the three.
    - Lambda: lambdautil.hpp, the function objects the MySQL service posts.
    - Mysql: sql/mysqltypes.hpp (binding and storing of tuples), sql/mysqlservice.h
      and .cpp (jobs, completions, threads), sql/connection.hpp, sql/error.hpp.
    - Main: otservpp.cpp, the program itself: its handlers on the service of Mysql.
    - Hook: exception.hpp, script/scriptexcep.hpp, script/hook/, hook/.
    - Adapter: script/adapter/, script/adapterset.hpp, script/static_adapter/.
      ScriptTasks: what a script may do with the tasks of Scheduler through them.
    - MessageTests, SchedulerTests, HookTests, AdapterTests: the unit tests of OutMessage,
      Scheduler, Hook and Adapter, statement by statement, and the driver that runs the
      scripts of a directory; a test that passes returns.
    - AmyError, Amy, AmyRows: lib/amy, the connector library the program carries: its
      errors, its service and connector, and the reading of stored rows. AmyConnect: its
      functions with named arguments, its options, and the life of the client library.

    How they interact: Service makes a Connection and its Protocol for each accepted
    socket; Connection reads into an InMessage, gives it to the Protocol and writes
    the OutMessages that the Protocol sends; the messages call Adler, Xtea and Rsa;
    the account login protocol calls the hooks of Hook through their interface.
    LoginServer composes them: its steps are the events of a connection of the service
    and of the crypto service. Main runs operations of Mysql from their own handlers;
    ScriptTasks runs functions of scripts as tasks of Scheduler, which may cancel
    their own task. Pool owns connections of Mysql but treats them as opaque values.

    ** What the theorems show

    - Transport: messages are written in the order they were accepted, one at a time,
      and the queue drains ([writes_in_order], [queue_drains]); the first message
      goes to its own callback and only once ([first_message_first]); a message is
      received in two reads ([receive_message]); stop and the life of the objects
      ([stop_correct], [idle_timeout_destroys_connection] and others).
    - Formats: a header, of a fresh message and of one that is used again
      ([parse_header_fresh], [reused_message_ignores_header]);
      readers implement parsers and writers are read back
      ([readers_implement_parsers], [writers_roundtrip]); framing, checksum and
      encryption are undone by the other end ([frame_roundtrip],
      [session_roundtrip], [xtea_roundtrip], [adler32_rfc1950]); the list of
      characters as sent ([sendCharacterList_correct]); every branch of the
      decryptions and of the checksum.
    - The login server: whatever clients send, it never answers
      ([login_server_is_silent]), because the protocol stops receiving before it reads
      the credentials; what a correct request comes to, step by step
      ([login_request_run]).
    - Resources: where each database connection is ([pool_invariant]), at most one
      wait per interval task ([interval_task_invariant]), which lives on without its owner
      ([interval_task_outlives_owner]) and is no more than a timer that is armed or not
      ([interval_task_refines]), a thread for each MySQL connection
      ([threads_serve_connections]), the client library initialised once and ended once
      ([library_initialised_once]), the map from ports to services.
    - Threads: where every function and callback given to the scheduler is, for every
      interleaving of its threads ([parallel_accounting]), and that all of them run
      ([executors_drain]).
    - The program: it prints every row of its query and then waits
      ([work_prints_passwords]), with one operation at a time and one line about the
      first error ([one_operation_at_a_time]), for every interleaving of its threads.
    - Tests: the unit tests pass, for all random numbers, orders of equal deadlines and
      interpreters that the classes allow ([message_tests_pass], [scheduler_tests_pass],
      [hook_tests_pass], [adapter_tests_pass]); the driver runs every script, in the order
      of their names ([all_scripts_run]).
    - Database: every job posts its handler exactly once ([jobs_complete],
      [handlers_called_once]), also the jobs queued before a cancel or a close; what rows receive ([row_result], [rowset_result]);
      which statements compile ([runPrepared_instantiates]); results in order and
      the end of the loop over them ([store_all_results]); how long stored rows may be
      read ([rows_last_until_next_query]).
    - Scripts: the translation of Lua tables is sound and complete with respect to a
      relation on the types, its errors name the offending path, and a hook throws and logs
      them just when there is no translation ([translate_correct], [translate_error],
      [keyed_hook_call]); the documented use of tasks in scripts
      ([documented_usage], [interval_cancels_itself]).
    - Some theorems state that the code does what it does not mean to, such as
      [login_server_is_silent], [sendAndStop_forgets_to_stop],
      [reused_message_ignores_header], [rowset_result] or [results_iterator].

    ** Fuel

    Loops whose length the library decides take fuel: [fetch_loop] and the loop
    over the rows of a result of Amy (one unit for each row and one for the end), and the
    loops over the results of a statement ([store_all], [all_results]). The theorems
    about them ask only for more fuel than there are rows or results, and then
    prove that the loop ends with a value. The loops of Adler and Xtea compute their
    fuel from the length of the buffer; [adler32_rfc1950] and the theorems on the
    cipher show that it is enough. All other loops are structural.

    ** Not modelled

    - The text of log messages, except where building it can fail or a test can see
      it, and the library that prints it.
    - Threads that interleave inside a handler, except in Parallel, where a step is one
      access or one call. Elsewhere each function object runs as a step; the flags that the connection's functions read outside the strand are
      read and written between steps.
    - In Connection, a dispatch to the strand that asio carries out at once because no
      other function runs in it: a function dispatched from outside is always posted. In
      Pool, a pool is made and connects in its initial state, without the dispatch to its
      strand in between.
    - Memory that runs out, except where the code allocates as much as the MySQL library
      tells it to: the buffers of strings and the rows of a [RowSet] in Mysql.
    - In Hook, the structure an exception describes is the constant that
      [getHumanReadableFormat] returns. The path of an element that is no table ends in the
      last key of the inner tuple, as the code makes it, and not in the element's index.
    - In Adapter and ScriptTasks, how luabind registers and dispatches: the model has the
      names that are registered and what a call of each does.
    - In Main, the text that [std::cout] makes of the values inserted into it, and the end
      of the program, which its [io_service::work] prevents.
    - In Amy and AmyRows, floating-point fields and the tables of constants of mysql.h; in
      AmyConnect, how Boost.Parameter matches names with arguments: a call is the record
      of those it was given.
    - In Connection, the constructor that takes over the socket of a connection of another
      protocol, and in Mysql row sets as input of a statement: nothing uses them and
      neither compiles.
    - The contents of the Lua scripts that the tests run.
    - Classes without behaviour (worldmap, account, gameloginprotocol, script/enviroment,
      script/eventdispatcher), query.h, which the preprocessor removes, and forward
      declarations. *)

From stdpp Require Export prelude gmap strings.
From Stdlib Require Export ZArith Lia.

#[global] Open Scope Z_scope.

(** ** Lists *)

Lemma alter_last {A} (f : A → A) (l : list A) x : alter f (length l) (l ++ [x]) = l ++ [f x].
Proof. induction l as [|y l IH]; [done|]. simpl. unfold alter in *. simpl. by rewrite IH. Qed.

(** ** Outcomes of C++ code *)

(** The exceptions the modelled code throws or catches: [PacketException]
    (basicinmessage.hpp) and any other class derived from [std::exception],
    with its [what()]. *)
Inductive exn : Type :=
  | PacketException
  | StdException (what : string).

(** Behaviours after which the program has no defined continuation: a failed
    [assert], an access outside an object, a null dereference, use of a
    dangling reference; the end of a function without the value it should return.
    [Diverged] marks a loop that ran out of the fuel its model was given. *)
Inductive fault : Type :=
  | AssertionFailed
  | OutOfBounds
  | NullDereference
  | DanglingReference
  | MissingReturn
  | Diverged.

Inductive outcome (A : Type) : Type :=
  | Val (a : A)
  | Exc (e : exn)
  | Fault (f : fault).
Arguments Val {A} a.
Arguments Exc {A} e.
Arguments Fault {A} f.

#[export] Instance exn_eq_dec : EqDecision exn.
Proof. solve_decision. Defined.
#[export] Instance fault_eq_dec : EqDecision fault.
Proof. solve_decision. Defined.
#[export] Instance outcome_eq_dec `{EqDecision A} : EqDecision (outcome A).
Proof. solve_decision. Defined.

(** Code that works on a state [S]: an exception keeps the changes made to the
    state before it was thrown, as in C++. *)
Definition prog (S A : Type) : Type := S → outcome A * S.

Definition ret {S A} (a : A) : prog S A := λ s, (Val a, s).
Definition throw {S A} (e : exn) : prog S A := λ s, (Exc e, s).
Definition fail {S A} (f : fault) : prog S A := λ s, (Fault f, s).
Definition get {S} : prog S S := λ s, (Val s, s).
Definition put {S} (s' : S) : prog S unit := λ _, (Val tt, s').
Definition modify {S} (f : S → S) : prog S unit := λ s, (Val tt, f s).

Definition bind {S A B} (m : prog S A) (k : A → prog S B) : prog S B :=
  λ s, match m s with
       | (Val a, s') => k a s'
       | (Exc e, s') => (Exc e, s')
       | (Fault f, s') => (Fault f, s')
       end.

(** [try m handler]: the handler sees every exception; it rethrows the ones its
    [catch] clause does not name. Faults are not caught. *)
Definition try_catch {S A} (m : prog S A) (h : exn → prog S A) : prog S A :=
  λ s, match m s with
       | (Exc e, s') => h e s'
       | r => r
       end.

(** Running code that yields an outcome on its own. *)
Definition lift {S A} (o : outcome A) : prog S A := λ s, (o, s).

(** Running code on a part of the state, read by [g] and written back by [put']. *)
Definition zoom {S T A} (g : T → S) (put' : S → T → T) (m : prog S A) : prog T A :=
  λ t, let '(r, s) := m (g t) in (r, put' s t).

Declare Scope prog_scope.
Delimit Scope prog_scope with prog.
Notation "'let!' x := m 'in' k" := (bind m (λ x, k))
  (at level 10, x pattern, m at level 100, k at level 200) : prog_scope.
Notation "m ;;; k" := (bind m (λ _, k))
  (at level 100, k at level 200, right associativity) : prog_scope.
#[global] Open Scope prog_scope.

(** Running a list of state changes in order. *)
Fixpoint run_all {S A} (f : A → prog S unit) (l : list A) : prog S unit :=
  match l with
  | [] => ret tt
  | x :: l' => f x ;;; run_all f l'
  end.

(** ** Reasoning about programs *)

Lemma bind_val {S A B} (m : prog S A) (k : A → prog S B) s a s' :
  m s = (Val a, s') → bind m k s = k a s'.
Proof. intros H. unfold bind. by rewrite H. Qed.

Lemma bind_exc {S A B} (m : prog S A) (k : A → prog S B) s e s' :
  m s = (Exc e, s') → bind m k s = (Exc e, s').
Proof. intros H. unfold bind. by rewrite H. Qed.

Lemma bind_fault {S A B} (m : prog S A) (k : A → prog S B) s f s' :
  m s = (Fault f, s') → bind m k s = (Fault f, s').
Proof. intros H. unfold bind. by rewrite H. Qed.

Lemma bind_val_inv {S A B} (m : prog S A) (k : A → prog S B) s b s' :
  bind m k s = (Val b, s') → ∃ a s1, m s = (Val a, s1) ∧ k a s1 = (Val b, s').
Proof. unfold bind. intros H. repeat case_match; simplify_eq; eauto. Qed.

Lemma bind_assoc {S A B C} (m : prog S A) (k : A → prog S B) (l : B → prog S C) s :
  bind (bind m k) l s = bind m (λ a, bind (k a) l) s.
Proof. unfold bind. by destruct (m s) as [[]]. Qed.

Lemma run_all_app {S A} (f : A → prog S unit) l l' s :
  run_all f (l ++ l') s = (run_all f l ;;; run_all f l') s.
Proof.
  revert s. induction l as [|x l IH]; intros s; [done|]. simpl. rewrite bind_assoc.
  unfold bind at 1 2. destruct (f x s) as [[]]; [apply IH|done..].
Qed.

(** A program keeps an invariant whatever its outcome. *)
Definition preserves {S A} (I : S → Prop) (m : prog S A) : Prop :=
  ∀ s, I s → I (m s).2.

(** A program never reaches a fault from states that satisfy [I]. *)
Definition safe {S A} (I : S → Prop) (m : prog S A) : Prop :=
  ∀ s, I s → (∀ f, (m s).1 ≠ Fault f) ∧ I (m s).2.

Create HintDb prog.

Section preserves.
Context {S : Type} (I : S → Prop).

Lemma preserves_ret {A} (a : A) : preserves I (ret a).
Proof. by intros s. Qed.
Lemma preserves_throw {A} e : preserves I (throw (A:=A) e).
Proof. by intros s. Qed.
Lemma preserves_fail {A} f : preserves I (fail (A:=A) f).
Proof. by intros s. Qed.
Lemma preserves_get : preserves I get.
Proof. by intros s. Qed.
Lemma preserves_lift {A} (o : outcome A) : preserves I (lift o).
Proof. by intros s. Qed.
Lemma preserves_modify f : (∀ s, I s → I (f s)) → preserves I (modify f).
Proof. intros H s; apply H. Qed.
Lemma preserves_bind {A B} (m : prog S A) (k : A → prog S B) :
  preserves I m → (∀ a, preserves I (k a)) → preserves I (bind m k).
Proof.
  intros Hm Hk s Hs. unfold bind. specialize (Hm s Hs).
  destruct (m s) as [[] s']; simpl in *; auto. by apply Hk.
Qed.
Lemma preserves_try {A} (m : prog S A) h :
  preserves I m → (∀ e, preserves I (h e)) → preserves I (try_catch m h).
Proof.
  intros Hm Hh s Hs. unfold try_catch. specialize (Hm s Hs).
  destruct (m s) as [[] s']; simpl in *; auto. by apply Hh.
Qed.
Lemma preserves_if {A} (b : bool) (m n : prog S A) :
  preserves I m → preserves I n → preserves I (if b then m else n).
Proof. by destruct b. Qed.
Lemma preserves_run_all {A} (f : A → prog S unit) l :
  (∀ x, preserves I (f x)) → preserves I (run_all f l).
Proof.
  intros Hf. induction l; simpl; [apply preserves_ret|by apply preserves_bind].
Qed.

Lemma safe_ret {A} (a : A) : safe I (ret a).
Proof. by intros s. Qed.
Lemma safe_throw {A} e : safe I (throw (A:=A) e).
Proof. by intros s. Qed.
Lemma safe_get : safe I get.
Proof. by intros s. Qed.
Lemma safe_bind {A B} (m : prog S A) (k : A → prog S B) :
  safe I m → (∀ a, safe I (k a)) → safe I (bind m k).
Proof.
  intros Hm Hk s Hs. unfold bind. destruct (Hm s Hs) as [Hf Hi].
  destruct (m s) as [[] s']; simpl in *; [by apply Hk|done|].
  by destruct (Hf f).
Qed.
End preserves.

(** A program leaves a part of the state as it is, whatever its outcome. *)
Definition keeps {S X A} (f : S → X) (m : prog S A) : Prop := ∀ s, f (m s).2 = f s.

Section keeps.
Context {S X : Type} (f : S → X).

Lemma keeps_ret {A} (a : A) : keeps f (ret a).
Proof. done. Qed.
Lemma keeps_throw {A} e : keeps f (throw (A:=A) e).
Proof. done. Qed.
Lemma keeps_fail {A} x : keeps f (fail (A:=A) x).
Proof. done. Qed.
Lemma keeps_get : keeps f get.
Proof. done. Qed.
Lemma keeps_lift {A} (o : outcome A) : keeps f (lift o).
Proof. done. Qed.
Lemma keeps_modify g : (∀ s, f (g s) = f s) → keeps f (modify g).
Proof. intros H s. apply H. Qed.
Lemma keeps_bind {A B} (m : prog S A) (k : A → prog S B) :
  keeps f m → (∀ a, keeps f (k a)) → keeps f (bind m k).
Proof.
  intros Hm Hk s. unfold bind. specialize (Hm s).
  destruct (m s) as [[] s']; simpl in *; auto. by rewrite Hk.
Qed.
Lemma keeps_try {A} (m : prog S A) h :
  keeps f m → (∀ e, keeps f (h e)) → keeps f (try_catch m h).
Proof.
  intros Hm Hh s. unfold try_catch. specialize (Hm s).
  destruct (m s) as [[] s']; simpl in *; auto. by rewrite Hh.
Qed.
Lemma keeps_if {A} (b : bool) (m n : prog S A) :
  keeps f m → keeps f n → keeps f (if b then m else n).
Proof. by destruct b. Qed.
Lemma keeps_zoom {T A} (g : S → T) put' (m : prog T A) :
  (∀ t s, f (put' t s) = f s) → keeps f (zoom g put' m).
Proof. intros H s. unfold zoom. destruct (m (g s)). apply H. Qed.
(** Keeping a projection keeps every property of it. *)
Lemma keeps_preserves {A} (m : prog S A) (Q : X → Prop) :
  keeps f m → preserves (λ s, Q (f s)) m.
Proof. intros Hm s Hs. by rewrite Hm. Qed.
End keeps.

#[export] Hint Resolve keeps_ret keeps_throw keeps_fail keeps_get keeps_lift keeps_modify
  keeps_bind keeps_try keeps_if keeps_zoom : prog.

#[export] Hint Resolve preserves_ret preserves_throw preserves_fail preserves_get
  preserves_lift preserves_modify preserves_bind preserves_try preserves_if
  preserves_run_all safe_ret safe_throw safe_get safe_bind : prog.

(** ** Programs that return *)

(** From the states of [P] a program returns a value, and [Q] holds of the value and
    of the state then. *)
Definition returns {S A} (P : S → Prop) (m : prog S A) (Q : A → S → Prop) : Prop :=
  ∀ s, P s → ∃ a s', m s = (Val a, s') ∧ Q a s'.

Section returns.
Context {S : Type}.

Lemma returns_ret {A} (P : S → Prop) (a : A) Q : (∀ s, P s → Q a s) → returns P (ret a) Q.
Proof. intros H s Hs. exists a, s. auto. Qed.
Lemma returns_get (P : S → Prop) Q : (∀ s, P s → Q s s) → returns P get Q.
Proof. intros H s Hs. exists s, s. auto. Qed.
Lemma returns_modify (P : S → Prop) f Q : (∀ s, P s → Q tt (f s)) → returns P (modify f) Q.
Proof. intros H s Hs. exists tt, (f s). auto. Qed.
Lemma returns_bind {A B} P (m : prog S A) (k : A → prog S B) R Q :
  returns P m R → (∀ a, returns (R a) (k a) Q) → returns P (bind m k) Q.
Proof.
  intros Hm Hk s Hs. destruct (Hm s Hs) as (a & s1 & E & H1).
  destruct (Hk a s1 H1) as (b & s2 & E2 & H2). exists b, s2. by rewrite (bind_val _ _ _ _ _ E).
Qed.
Lemma returns_conseq {A} (P P' : S → Prop) (m : prog S A) (Q Q' : A → S → Prop) :
  returns P' m Q' → (∀ s, P s → P' s) → (∀ a s, Q' a s → Q a s) → returns P m Q.
Proof. intros Hm HP HQ s Hs. destruct (Hm s (HP s Hs)) as (a & s' & ? & ?). eauto 6. Qed.
Lemma returns_post {A} P (m : prog S A) (Q Q' : A → S → Prop) :
  returns P m Q' → (∀ a s, Q' a s → Q a s) → returns P m Q.
Proof. intros Hm. by apply returns_conseq with (P' := P). Qed.

(** A loop with the invariant [I] of the number of rounds made. *)
Lemma returns_run_all {A} (I : nat → S → Prop) (f : A → prog S unit) l :
  (∀ k x, l !! k = Some x → returns (I k) (f x) (λ _, I (Datatypes.S k))) →
  returns (I 0%nat) (run_all f l) (λ _, I (length l)).
Proof.
  revert I. induction l as [|x l IH]; intros I Hf; simpl; [by apply returns_ret|].
  eapply returns_bind; [by apply (Hf 0%nat)|]. intros [].
  apply (IH (λ k, I (Datatypes.S k))). intros k y Hy. by apply (Hf (Datatypes.S k)).
Qed.
End returns.

(** Unfolds the monad on a goal about a concrete run. *)
Ltac run_simpl := unfold bind, ret, throw, fail, get, put, modify, lift, try_catch in *; simpl in *.

(** Closes a goal whose hypotheses, connectives split, contradict each other. *)
Ltac contra_cases :=
  exfalso;
  repeat match goal with
    | H : _ ∧ _ |- _ => destruct H
    | H : _ ∨ _ |- _ => destruct H
    end; (lia || discriminate || congruence).

(** ** Sequences of steps *)

(** The states a labelled step relation reaches from an initial state. *)
Inductive reachable {S : Type} (init : S → Prop) (step : S → S → Prop) : S → Prop :=
  | reach_init s : init s → reachable init step s
  | reach_step s s' : reachable init step s → step s s' → reachable init step s'.

Lemma reachable_inv {S} (init : S → Prop) (step : S → S → Prop) (I : S → Prop) :
  (∀ s, init s → I s) → (∀ s s', I s → step s s' → I s') →
  ∀ s, reachable init step s → I s.
Proof. intros H0 HS s. induction 1; eauto. Qed.
