(* ===== verification/Platform.v ===== *)
(** * Machine integers, bytes and the platform

    Unsigned integers of the source are values of [Z] kept in range by [wrap];
    memory is a list of bytes. What the C++ implementation leaves to the
    platform is an interface, the class [Platform]: the byte order that
    [reinterpret_cast] between integers and bytes exposes, [sizeof(size_t)], the
    width of [uint_fast32_t], and whether [assert] is compiled in. *)

From S2P Require Import Prelude.

Definition wrap (w x : Z) : Z := x `mod` 2 ^ w.
Definition u8 : Z → Z := wrap 8.
Definition u16 : Z → Z := wrap 16.
Definition u32 : Z → Z := wrap 32.
Definition u64 : Z → Z := wrap 64.

Definition is_byte (b : Z) : Prop := 0 ≤ b < 256.

(** [n] bytes of [v], least significant first, and back. *)
Fixpoint le_enc (n : nat) (v : Z) : list Z :=
  match n with
  | O => []
  | S n' => v `mod` 256 :: le_enc n' (v / 256)
  end.

Fixpoint le_dec (l : list Z) : Z :=
  match l with
  | [] => 0
  | b :: l' => b + 256 * le_dec l'
  end.

Definition be_enc (n : nat) (v : Z) : list Z := rev (le_enc n v).
Definition be_dec (l : list Z) : Z := le_dec (rev l).

(** What the code may rely on of the machine it is compiled for. *)
Class Platform : Type := {
  enc : nat → Z → list Z;
  dec : list Z → Z;
  NDEBUG : bool;
  sizeof_size_t : nat;
  fast32 : Z;
  length_enc n v : length (enc n v) = n;
  enc_bytes n v : Forall is_byte (enc n v);
  dec_enc n v : dec (enc n v) = v `mod` 256 ^ Z.of_nat n;
  enc_dec l : Forall is_byte l → enc (length l) (dec l) = l;
  dec_bound l : Forall is_byte l → 0 ≤ dec l < 256 ^ Z.of_nat (length l);
  enc_1 b : is_byte b → enc 1 b = [b];
  size_t_at_least : (4 ≤ sizeof_size_t)%nat;
  fast32_at_least : 32 ≤ fast32;
}.

(** [assert(c)]: compiled out under [NDEBUG]. *)
Definition assertM `{Platform} {S} (c : bool) : prog S unit :=
  if NDEBUG then ret tt else if c then ret tt else fail AssertionFailed.

(** A [size_t] expression. *)
Definition size_t `{Platform} (x : Z) : Z := wrap (8 * Z.of_nat sizeof_size_t) x.

(** Bytes [off, off+n) of an object; [None] when they are not all inside it. *)
Definition read (l : list Z) (off n : Z) : option (list Z) :=
  if decide (0 ≤ off ∧ 0 ≤ n ∧ off + n ≤ Z.of_nat (length l))
  then Some (take (Z.to_nat n) (drop (Z.to_nat off) l)) else None.

(** Overwrites the bytes of [l] from [off] on with [bs]. *)
Definition write (l : list Z) (off : Z) (bs : list Z) : option (list Z) :=
  if decide (0 ≤ off ∧ off + Z.of_nat (length bs) ≤ Z.of_nat (length l))
  then Some (take (Z.to_nat off) l ++ bs ++ drop (Z.to_nat off + length bs) l) else None.

(** The view of memory through an [uint32_t*]: the words of four bytes from the
    start of the region; trailing bytes that do not fill a word are not in it. *)
Fixpoint words_fuel `{Platform} (fuel : nat) (l : list Z) : list Z :=
  match fuel with
  | O => []
  | S f => if decide (4 ≤ length l)%nat then dec (take 4 l) :: words_fuel f (drop 4 l) else []
  end.
Definition words `{Platform} (l : list Z) : list Z := words_fuel (length l) l.

(** And back: the bytes of the words. *)
Fixpoint unwords `{Platform} (ws : list Z) : list Z :=
  match ws with
  | [] => []
  | w :: ws' => enc 4 w ++ unwords ws'
  end.

(** [uint32_t] code run in place on a byte region, through a cast pointer. *)
Definition on_words `{Platform} (f : list Z → outcome (list Z)) (region : list Z) : outcome (list Z) :=
  match f (words region) with
  | Val ws => Val (unwords ws ++ drop (4 * length ws) region)
  | Exc e => Exc e
  | Fault u => Fault u
  end.

(** An unsigned value converted to [int32_t]. *)
Definition i32 (x : Z) : Z := if u32 x <? 2147483648 then u32 x else u32 x - 4294967296.

(** ** Lemmas *)

Lemma wrap_bound w x : 0 ≤ w → 0 ≤ wrap w x < 2 ^ w.
Proof. intros. apply Z.mod_pos_bound. by apply Z.pow_pos_nonneg. Qed.

Lemma wrap_small w x : 0 ≤ x < 2 ^ w → wrap w x = x.
Proof. apply Z.mod_small. Qed.

Lemma assertM_true `{Platform} {S A} (c : bool) (k : prog S A) s : c = true →
  (assertM c ;;; k) s = k s.
Proof. intros ->. unfold assertM. by destruct NDEBUG. Qed.

Lemma u32_small x : 0 ≤ x < 4294967296 → u32 x = x.
Proof. apply Z.mod_small. Qed.

Lemma u32_bound x : 0 ≤ u32 x < 4294967296.
Proof. by apply (Z.mod_pos_bound x 4294967296). Qed.

Lemma u16_bound x : 0 ≤ u16 x < 65536.
Proof. by apply (Z.mod_pos_bound x 65536). Qed.

Lemma wrap_add_l w x y : wrap w (wrap w x + y) = wrap w (x + y).
Proof. apply Zplus_mod_idemp_l. Qed.

Lemma wrap_sub_l w x y : wrap w (wrap w x - y) = wrap w (x - y).
Proof. apply Zminus_mod_idemp_l. Qed.

(** Unsigned addition and subtraction undo each other. *)
Lemma u32_add_sub v x : 0 ≤ v < 4294967296 → u32 (u32 (v + x) - x) = v.
Proof.
  intros. unfold u32. rewrite wrap_sub_l. replace (v + x - x) with v by lia.
  by apply wrap_small.
Qed.

Lemma u32_sub_add v x : 0 ≤ v < 4294967296 → u32 (u32 (v - x) + x) = v.
Proof.
  intros. unfold u32. rewrite wrap_add_l. replace (v - x + x) with v by lia.
  by apply wrap_small.
Qed.

(** Bit fields that do not overlap add up. *)
Lemma lor_disjoint a b n : 0 ≤ n → 0 ≤ a < 2 ^ n → Z.lor (b * 2 ^ n) a = b * 2 ^ n + a.
Proof.
  intros Hn Ha. rewrite <-Z.shiftl_mul_pow2 by done.
  assert (Z.land (Z.shiftl b n) a = 0) as Hl.
  { apply Z.bits_inj'. intros i Hi. rewrite Z.land_spec, Z.bits_0, Z.shiftl_spec by done.
    destruct (Z.ltb_spec i n).
    - by rewrite (Z.testbit_neg_r _ (i - n)) by lia.
    - rewrite <-(Z.mod_small a (2 ^ n)), Z.mod_pow2_bits_high by lia. by rewrite andb_false_r. }
  rewrite Z.add_nocarry_lxor by done. by rewrite Z.lxor_lor.
Qed.

Lemma length_le_enc n v : length (le_enc n v) = n.
Proof. revert v. induction n; simpl; auto. Qed.

Lemma le_enc_bytes n v : Forall is_byte (le_enc n v).
Proof.
  revert v. induction n; simpl; constructor; auto.
  by apply Z.mod_pos_bound.
Qed.

Lemma le_dec_enc n v : le_dec (le_enc n v) = v `mod` 256 ^ Z.of_nat n.
Proof.
  revert v. induction n as [|n IH]; intros v; simpl.
  - by rewrite Z.mod_1_r.
  - rewrite IH. replace (Z.of_nat (S n)) with (1 + Z.of_nat n) by lia.
    rewrite Z.pow_add_r, Z.pow_1_r by lia.
    rewrite Z.rem_mul_r by (try apply Z.pow_pos_nonneg; lia). lia.
Qed.

Lemma le_enc_dec l : Forall is_byte l → le_enc (length l) (le_dec l) = l.
Proof.
  induction 1 as [|b l Hb Hl IH]; simpl; [done|]. unfold is_byte in Hb.
  f_equal.
  - rewrite (Z.mul_comm 256), Z_mod_plus_full. by apply Z.mod_small.
  - rewrite (Z.mul_comm 256), Z.div_add, (Z.div_small b) by lia. done.
Qed.

Lemma le_dec_bound l : Forall is_byte l → 0 ≤ le_dec l < 256 ^ Z.of_nat (length l).
Proof.
  induction 1 as [|b l Hb Hl IH]; simpl; [lia|]. unfold is_byte in Hb.
  replace (Z.of_nat (S (length l))) with (1 + Z.of_nat (length l)) by lia.
  rewrite Z.pow_add_r by lia. lia.
Qed.

Lemma is_byte_rev l : Forall is_byte l → Forall is_byte (rev l).
Proof. rewrite !Forall_forall. intros H x Hx. apply H. by rewrite list_elem_of_In, in_rev, <-list_elem_of_In. Qed.

(** *** Memory regions *)

Lemma read_inside l off n :
  0 ≤ off → 0 ≤ n → off + n ≤ Z.of_nat (length l) →
  read l off n = Some (take (Z.to_nat n) (drop (Z.to_nat off) l)).
Proof. intros. unfold read. by rewrite decide_True by lia. Qed.

Lemma write_inside l off bs :
  0 ≤ off → off + Z.of_nat (length bs) ≤ Z.of_nat (length l) →
  write l off bs = Some (take (Z.to_nat off) l ++ bs ++ drop (Z.to_nat off + length bs) l).
Proof. intros. unfold write. by rewrite decide_True by lia. Qed.

Section word_view.
Context `{Platform}.

Lemma words_fuel_enough f g l :
  (length l ≤ f)%nat → (length l ≤ g)%nat → words_fuel f l = words_fuel g l.
Proof.
  revert g l. induction f as [|f IH]; intros [|g] l Hf Hg; simpl; try done;
    try (destruct l; simpl in *; [done|lia]).
  case_decide; [|done]. f_equal. apply IH; rewrite length_drop; lia.
Qed.

Lemma words_short l : (length l < 4)%nat → words l = [].
Proof. intros. unfold words. destruct (length l) eqn:E; simpl; [done|]. by rewrite decide_False by lia. Qed.

Lemma words_cons l k : length l = 4%nat → words (l ++ k) = dec l :: words k.
Proof.
  intros Hl. unfold words at 1. rewrite length_app, Hl.
  change (4 + length k)%nat with (S (3 + length k)). cbn [words_fuel].
  rewrite decide_True by (rewrite length_app; lia).
  rewrite take_app_length', drop_app_length' by done. f_equal.
  apply words_fuel_enough; lia.
Qed.

Lemma words_app l k : (length l `mod` 4 = 0)%nat → words (l ++ k) = words l ++ words k.
Proof.
  intros Hl. apply Nat.Lcm0.mod_divide in Hl as [n Hn]. revert l Hn.
  induction n as [|n IH]; intros l Hn.
  - destruct l; [done|simpl in Hn; lia].
  - rewrite <-(take_drop 4 l), <-app_assoc.
    rewrite (words_cons (take 4 l) (drop 4 l ++ k)), (words_cons (take 4 l) (drop 4 l))
      by (rewrite length_take; lia).
    rewrite IH by (rewrite length_drop; lia). done.
Qed.

Lemma length_words l : (length l `mod` 4 = 0)%nat → length l = (4 * length (words l))%nat.
Proof.
  intros Hl. apply Nat.Lcm0.mod_divide in Hl as [n Hn]. revert l Hn.
  induction n as [|n IH]; intros l Hn.
  - destruct l; [done|simpl in Hn; lia].
  - rewrite <-(take_drop 4 l) at 2. rewrite words_cons by (rewrite length_take; lia).
    simpl. specialize (IH (drop 4 l)). rewrite length_drop in IH. lia.
Qed.

Lemma words_bound l : Forall is_byte l → Forall (λ w, 0 ≤ w < 4294967296) (words l).
Proof.
  unfold words. generalize (length l). intros n. revert l.
  induction n as [|n IH]; intros l Hl; simpl; [constructor|].
  case_decide; constructor; [|apply IH; by apply Forall_drop].
  pose proof (dec_bound (take 4 l) (Forall_take _ _ _ Hl)) as Hb.
  rewrite length_take, Nat.min_l in Hb by lia. by change (256 ^ Z.of_nat 4) with 4294967296 in Hb.
Qed.

Lemma unwords_words l : Forall is_byte l → (length l `mod` 4 = 0)%nat → unwords (words l) = l.
Proof.
  intros Hb Hl. apply Nat.Lcm0.mod_divide in Hl as [n Hn]. revert l Hb Hn.
  induction n as [|n IH]; intros l Hb Hn.
  - destruct l; [done|simpl in Hn; lia].
  - rewrite <-(take_drop 4 l). rewrite words_cons by (rewrite length_take; lia).
    simpl. rewrite IH by (auto using Forall_drop || rewrite length_drop; lia).
    f_equal. pose proof (enc_dec (take 4 l) (Forall_take _ _ _ Hb)) as He.
    by rewrite length_take, Nat.min_l in He by lia.
Qed.

(** The bytes behind the last full word are not part of the view. *)
Lemma unwords_words_prefix l :
  Forall is_byte l → unwords (words l) ++ drop (4 * length (words l)) l = l.
Proof.
  intros Hb. set (k := (length l / 4)%nat).
  assert (length l = 4 * k + length l `mod` 4)%nat as Hl by apply Nat.div_mod_eq.
  pose proof (Nat.mod_upper_bound (length l) 4). 
  assert (length (take (4 * k) l) = 4 * k)%nat as Ht by (rewrite length_take; lia).
  assert (length (take (4 * k) l) `mod` 4 = 0)%nat as Hm
    by (rewrite Ht, Nat.mul_comm; apply Nat.Div0.mod_mul).
  assert (words l = words (take (4 * k) l)) as ->.
  { rewrite <-(take_drop (4 * k) l) at 1. rewrite words_app by done.
    rewrite (words_short (drop _ _)) by (rewrite length_drop; lia). apply app_nil_r. }
  rewrite unwords_words by auto using Forall_take.
  rewrite <-length_words, Ht by done. apply take_drop.
Qed.

Lemma length_unwords ws : length (unwords ws) = (4 * length ws)%nat.
Proof.
  induction ws as [|w ws IH]; simpl; [done|].
  rewrite length_app, length_enc, IH. lia.
Qed.

Lemma unwords_bytes ws : Forall is_byte (unwords ws).
Proof.
  induction ws; simpl; [constructor|]. apply Forall_app. split; [apply enc_bytes|done].
Qed.

Lemma words_unwords ws : Forall (λ w, 0 ≤ w < 4294967296) ws → words (unwords ws) = ws.
Proof.
  induction 1 as [|w ws Hw Hws IH]; [done|]. simpl.
  rewrite words_cons by apply length_enc. rewrite IH, dec_enc. f_equal. by apply Z.mod_small.
Qed.

Lemma unwords_app a b : unwords (a ++ b) = unwords a ++ unwords b.
Proof. induction a as [|w a IH]; simpl; [done|]. by rewrite IH, app_assoc. Qed.
End word_view.

(** ** The platforms the code is built for *)

Section instances.
Variables (ndebug : bool) (sz : nat) (fast : Z).
Hypotheses (Hsz : (4 ≤ sz)%nat) (Hfast : 32 ≤ fast).

Program Definition little_endian : Platform := {|
  enc := le_enc; dec := le_dec; NDEBUG := ndebug; sizeof_size_t := sz; fast32 := fast;
  length_enc := length_le_enc; enc_bytes := le_enc_bytes; dec_enc := le_dec_enc;
  enc_dec := le_enc_dec; dec_bound := le_dec_bound
|}.
Next Obligation. intros b Hb. simpl. by rewrite Z.mod_small. Qed.
Next Obligation. done. Qed.
Next Obligation. done. Qed.

Program Definition big_endian : Platform := {|
  enc := be_enc; dec := be_dec; NDEBUG := ndebug; sizeof_size_t := sz; fast32 := fast
|}.
Next Obligation. intros. unfold be_enc. by rewrite length_rev, length_le_enc. Qed.
Next Obligation. intros. unfold be_enc. apply is_byte_rev, le_enc_bytes. Qed.
Next Obligation. intros. unfold be_enc, be_dec. by rewrite rev_involutive, le_dec_enc. Qed.
Next Obligation.
  intros l Hl. unfold be_enc, be_dec. rewrite <-(length_rev l), le_enc_dec by by apply is_byte_rev.
  apply rev_involutive.
Qed.
Next Obligation.
  intros l Hl. unfold be_dec. rewrite <-(length_rev l). apply le_dec_bound. by apply is_byte_rev.
Qed.
Next Obligation. intros b Hb. unfold be_enc. simpl. by rewrite Z.mod_small. Qed.
Next Obligation. done. Qed.
Next Obligation. done. Qed.
End instances.

Lemma at_least_4_8 : (4 ≤ 8)%nat.
Proof. lia. Qed.
Lemma at_least_32_64 : 32 ≤ 64.
Proof. lia. Qed.

(** A 64-bit little-endian platform (x86-64 under the LP64 model), with and
    without assertions. *)
Definition x86_64 (ndebug : bool) : Platform := little_endian ndebug 8 64 at_least_4_8 at_least_32_64.
