(* ===== verification/Adler.v ===== *)
(** * Adler-32 (crypto.cpp, [adler32])

    The checksum as the code computes it: sums in [uint_fast32_t] over chunks of
    5552 bytes, sixteen bytes at a time, reduced modulo 65521 after each chunk;
    and the byte-by-byte definition of RFC 1950 it has to agree with. *)

From S2P Require Import Prelude Platform.

Module Adler.

(** The locals of the function: what [data] still points to, [a] and [b]. *)
Definition state : Type := list Z * Z * Z.

Section code.
Context `{Platform}.

(** [a += *data++; b += a;] *)
Definition tick : prog state unit := λ '(data, a, b),
  match data with
  | d :: data' =>
      let a' := wrap fast32 (a + d) in
      (Val tt, (data', a', wrap fast32 (b + a')))
  | [] => (Fault OutOfBounds, (data, a, b))
  end.

(** The statement repeated [n] times in a row. *)
Fixpoint ticks (n : nat) : prog state unit :=
  match n with
  | O => ret tt
  | S n' => tick ;;; ticks n'
  end.

(** [while(k >= 16){ ...sixteen times...; k -= 16; }], yielding the last [k]. *)
Fixpoint while16 (fuel : nat) (k : Z) : prog state Z :=
  match fuel with
  | O => fail Diverged
  | S f => if 16 <=? k then ticks 16 ;;; while16 f (k - 16) else ret k
  end.

(** [do{ ... } while (--k);] *)
Fixpoint do_while (fuel : nat) (k : Z) : prog state unit :=
  match fuel with
  | O => fail Diverged
  | S f => tick ;;; (if k - 1 =? 0 then ret tt else do_while f (k - 1))
  end.

(** One iteration of the outer loop, on a chunk of [k] bytes. *)
Definition chunk (k : Z) : prog state unit :=
  let! k' := while16 (S (Z.to_nat k)) k in
  (if k' =? 0 then ret tt else do_while (Z.to_nat k') k') ;;;
  modify (λ '(data, a, b), (data, a `mod` 65521, b `mod` 65521)).

(** [while(len > 0)]. *)
Fixpoint outer (fuel : nat) (len : Z) : prog state unit :=
  match fuel with
  | O => fail Diverged
  | S f =>
      if 0 <? len then
        let k := if 5552 <? len then 5552 else len in
        chunk k ;;; outer f (len - k)
      else ret tt
  end.

(** [uint32_t adler32(uint8_t* data, int32_t len)]; [data] is what the
    pointer may access. *)
Definition adler32 (data : list Z) (len : Z) : outcome Z :=
  match (assertM (negb (len =? 0)) ;;; outer (S (Z.to_nat len)) len) (data, 1, 0) with
  | (Val _, (_, a, b)) => Val (u32 (Z.lor (u32 (wrap fast32 (Z.shiftl b 16))) a))
  | (Exc e, _) => Exc e
  | (Fault f, _) => Fault f
  end.
End code.

(** RFC 1950: both sums reduced after every byte. *)
Definition rfc_step (s : Z * Z) (d : Z) : Z * Z :=
  let a := (s.1 + d) `mod` 65521 in (a, (s.2 + a) `mod` 65521).

Definition rfc1950 (data : list Z) : Z :=
  let '(a, b) := fold_left rfc_step data (1, 0) in b * 65536 + a.

(** The same sums never reduced. *)
Definition sum_step (s : Z * Z) (d : Z) : Z * Z := (s.1 + d, s.2 + (s.1 + d)).

(** ** Lemmas *)

Section facts.
Context `{Platform}.

Definition wrap_step (s : Z * Z) (d : Z) : Z * Z :=
  let a := wrap fast32 (s.1 + d) in (a, wrap fast32 (s.2 + a)).

Lemma ticks_app m n s : ticks (m + n) s = (ticks m ;;; ticks n) s.
Proof.
  revert s. induction m as [|m IH]; intros s; simpl; [done|].
  rewrite bind_assoc. unfold bind at 1 2. destruct (tick s) as [[] s']; auto.
Qed.

Lemma ticks_run n data a b :
  (n ≤ length data)%nat →
  ticks n (data, a, b) =
    (Val tt, (drop n data, (fold_left wrap_step (take n data) (a, b)).1,
                           (fold_left wrap_step (take n data) (a, b)).2)).
Proof.
  revert data a b. induction n as [|n IH]; intros [|d data] a b Hn; simpl in *; try done; try lia.
  unfold bind, tick. rewrite IH by lia. done.
Qed.

(** The unrolled loop and the remainder loop together run [k] ticks. *)
Lemma do_while_ticks fuel k s :
  0 < k → (Z.to_nat k ≤ fuel)%nat → do_while fuel k s = ticks (Z.to_nat k) s.
Proof.
  revert k s. induction fuel as [|f IH]; intros k s Hk Hf; simpl; [lia|].
  replace (Z.to_nat k) with (S (Z.to_nat (k - 1))) by lia. simpl.
  unfold bind. destruct (tick s) as [[] s']; try done.
  destruct (Z.eqb_spec (k - 1) 0) as [->|?]; [done|]. apply IH; lia.
Qed.

Lemma while16_ticks fuel k s :
  0 ≤ k → (Z.to_nat k < fuel)%nat →
  (let! k' := while16 fuel k in if k' =? 0 then ret tt else do_while (Z.to_nat k') k') s
  = ticks (Z.to_nat k) s.
Proof.
  revert k s. induction fuel as [|f IH]; intros k s Hk Hf; [lia|].
  cbn [while16]. destruct (Z.leb_spec 16 k).
  - replace (Z.to_nat k) with (16 + Z.to_nat (k - 16))%nat by lia.
    rewrite bind_assoc, ticks_app. unfold bind at 1 3.
    destruct (ticks 16 s) as [[] s']; try done. apply IH; lia.
  - unfold bind, ret. destruct (Z.eqb_spec k 0) as [->|?]; [done|]. apply do_while_ticks; lia.
Qed.

Lemma chunk_run k data a b :
  0 ≤ k → (Z.to_nat k ≤ length data)%nat →
  chunk k (data, a, b) =
    let s := fold_left wrap_step (take (Z.to_nat k) data) (a, b) in
    (Val tt, (drop (Z.to_nat k) data, s.1 `mod` 65521, s.2 `mod` 65521)).
Proof.
  intros Hk Hlen. unfold chunk. rewrite <-bind_assoc.
  erewrite bind_val by (rewrite while16_ticks by lia; by apply ticks_run).
  done.
Qed.
End facts.

Lemma sum_step_mono l s : Forall is_byte l → 0 ≤ s.1 → 0 ≤ s.2 →
  let r := fold_left sum_step l s in
  s.1 ≤ r.1 ≤ s.1 + 255 * Z.of_nat (length l) ∧
  s.2 ≤ r.2 ≤ s.2 + Z.of_nat (length l) * s.1
               + 255 * (Z.of_nat (length l) * (Z.of_nat (length l) + 1) / 2).
Proof.
  intros Hl. revert s. induction Hl as [|d l Hd Hl IH]; intros s H1 H2.
  - cbn [fold_left length]. change (Z.of_nat 0) with 0. change (0 * (0 + 1) / 2) with 0. lia.
  - cbn [fold_left length]. unfold is_byte in Hd.
    destruct (IH (sum_step s d)) as [IHa IHb]; [unfold sum_step; simpl; lia..|].
    unfold sum_step in IHa, IHb |- *. simpl in IHa, IHb |- *. set (n := Z.of_nat (length l)) in *.
    replace (Z.of_nat (S (length l))) with (n + 1) by lia.
    replace ((n + 1) * (n + 1 + 1)) with (n * (n + 1) + (n + 1) * 2) by lia.
    rewrite Z.div_add by lia. set (q := n * (n + 1) / 2) in *.
    assert (n * d ≤ 255 * n) by nia. nia.
Qed.

(** The chunk size: from reduced sums, 5552 bytes overflow no 32-bit register. *)
Lemma no_overflow `{Platform} l a b :
  Forall is_byte l → Z.of_nat (length l) ≤ 5552 → 0 ≤ a < 65521 → 0 ≤ b < 65521 →
  fold_left wrap_step l (a, b) = fold_left sum_step l (a, b).
Proof.
  intros Hl Hlen Ha Hb.
  assert (∀ l1 l2, l = l1 ++ l2 →
    fold_left wrap_step l1 (a, b) = fold_left sum_step l1 (a, b)) as Hpre.
  { induction l1 as [|d l1 IH] using rev_ind; intros l2 ->; [done|].
    rewrite !fold_left_app. rewrite <-app_assoc in *.
    rewrite (IH (d :: l2)) by done. simpl.
    destruct (sum_step_mono (l1 ++ [d]) (a, b)) as [H1 H2]; simpl; [|lia..|].
    { rewrite Forall_app in Hl. destruct Hl as [? Hl]. apply Forall_app. split; [done|].
      inversion Hl; auto. }
    rewrite fold_left_app in H1, H2. cbn in H1, H2.
    rewrite length_app in H1, H2. rewrite !length_app in Hlen. simpl in *.
    set (n := Z.of_nat (length l1 + 1)) in *.
    assert (0 < n ≤ 5552) by lia.
    assert (n * (n + 1) / 2 ≤ 5552 * 5553 / 2) by (apply Z.div_le_mono; nia).
    change (5552 * 5553 / 2) with 15415128 in *.
    assert (2 ^ 32 ≤ 2 ^ fast32) by (apply Z.pow_le_mono_r; [lia|apply fast32_at_least]).
    change (2 ^ 32) with 4294967296 in *.
    assert (n * a ≤ 5552 * 65520) by nia.
    unfold wrap_step, sum_step in *. simpl in *. rewrite !(wrap_small fast32) by lia. done. }
  apply (Hpre l []). by rewrite app_nil_r.
Qed.

Lemma rfc_sum l a b :
  fold_left rfc_step l (a `mod` 65521, b `mod` 65521) =
  ((fold_left sum_step l (a, b)).1 `mod` 65521, (fold_left sum_step l (a, b)).2 `mod` 65521).
Proof.
  revert a b. induction l as [|d l IH]; intros a b; [done|]. simpl.
  change (sum_step (a, b) d) with (a + d, b + (a + d)). rewrite <-IH. f_equal.
  unfold rfc_step. simpl. by rewrite Zplus_mod_idemp_l, <-Zplus_mod.
Qed.

Lemma rfc_sum_reduced l a b : 0 ≤ a < 65521 → 0 ≤ b < 65521 →
  fold_left rfc_step l (a, b) =
  ((fold_left sum_step l (a, b)).1 `mod` 65521, (fold_left sum_step l (a, b)).2 `mod` 65521).
Proof. intros. rewrite <-rfc_sum. by rewrite !Z.mod_small. Qed.

Lemma outer_run `{Platform} fuel len data a b :
  Forall is_byte data → 0 ≤ len ≤ Z.of_nat (length data) → (Z.to_nat len < fuel)%nat →
  0 ≤ a < 65521 → 0 ≤ b < 65521 →
  outer fuel len (data, a, b) =
    let s := fold_left rfc_step (take (Z.to_nat len) data) (a, b) in
    (Val tt, (drop (Z.to_nat len) data, s.1, s.2)).
Proof.
  revert len data a b. induction fuel as [|f IH]; intros len data a b Hd Hlen Hf Ha Hb; [lia|].
  cbn [outer]. destruct (Z.ltb_spec 0 len); [|by replace len with 0 by lia].
  set (k := if 5552 <? len then 5552 else len).
  assert (0 < k ≤ len ∧ k ≤ 5552) as Hk by (unfold k; destruct (Z.ltb_spec 5552 len); lia).
  assert (take (Z.to_nat len) data = take (Z.to_nat k) data ++ take (Z.to_nat (len - k)) (drop (Z.to_nat k) data)) as Hsplit.
  { rewrite take_drop_commute. replace (Z.to_nat k + Z.to_nat (len - k))%nat with (Z.to_nat len) by lia.
    rewrite <-(take_drop (Z.to_nat k) (take (Z.to_nat len) data)) at 1.
    by rewrite take_take, Nat.min_l by lia. }
  erewrite bind_val by (apply chunk_run; lia).
  rewrite no_overflow; [|by apply Forall_take|rewrite length_take; lia|done..].
  rewrite IH; [|by apply Forall_drop|rewrite length_drop; lia|lia|by apply Z.mod_pos_bound..].
  rewrite Hsplit, fold_left_app. cbv zeta.
  rewrite (rfc_sum_reduced _ a b), drop_drop by done.
  by replace (Z.to_nat k + Z.to_nat (len - k))%nat with (Z.to_nat len) by lia.
Qed.

Lemma rfc_bound l s : 0 ≤ s.1 < 65521 → 0 ≤ s.2 < 65521 →
  0 ≤ (fold_left rfc_step l s).1 < 65521 ∧ 0 ≤ (fold_left rfc_step l s).2 < 65521.
Proof.
  revert s. induction l; simpl; [done|]. intros. apply IHl; by apply Z.mod_pos_bound.
Qed.

(** The two halves of the result do not overlap. *)
Lemma pack_halves `{Platform} a b : 0 ≤ a < 65521 → 0 ≤ b < 65521 →
  u32 (Z.lor (u32 (wrap fast32 (Z.shiftl b 16))) a) = b * 65536 + a.
Proof.
  intros Ha Hb. rewrite Z.shiftl_mul_pow2 by lia. change (2 ^ 16) with 65536.
  assert (2 ^ 32 ≤ 2 ^ fast32) by (apply Z.pow_le_mono_r; [lia|apply fast32_at_least]).
  change (2 ^ 32) with 4294967296 in *.
  rewrite (wrap_small fast32), (u32_small (b * 65536)) by lia.
  change 65536 with (2 ^ 16) in *. rewrite lor_disjoint by lia. apply u32_small. lia.
Qed.

Lemma adler32_ok `{Platform} (data : list Z) (len : Z) :
  Forall is_byte data → 0 < len ≤ Z.of_nat (length data) →
  adler32 data len = Val (rfc1950 (take (Z.to_nat len) data)).
Proof.
  intros Hd Hlen. unfold adler32.
  rewrite (bind_val _ _ _ tt (data, 1, 0)).
  2:{ unfold assertM. destruct (Z.eqb_spec len 0); [lia|]. by destruct NDEBUG. }
  rewrite outer_run by (done || lia). cbv zeta. unfold rfc1950.
  destruct (rfc_bound (take (Z.to_nat len) data) (1, 0)) as [Ha Hb]; [done..|].
  destruct (fold_left rfc_step _ _) as [a b]. simpl in *. by rewrite pack_halves.
Qed.

(** ** The checksum is RFC 1950's *)

(** C25. On every buffer of bytes and every positive length inside it, and
    whatever the width (at least 32) of [uint_fast32_t] and the build, the
    chunked, unrolled [adler32] returns the byte-by-byte checksum of RFC 1950:
    no register overflows, no byte outside the buffer is read, the loops end. *)
Theorem adler32_rfc1950 `{Platform} (data : list Z) (len : Z) :
  Forall is_byte data → 0 < len ≤ Z.of_nat (length data) →
  adler32 data len = Val (rfc1950 (take (Z.to_nat len) data)).
Proof. apply adler32_ok. Qed.

Lemma adler32_rfc1950_witness :
  let _ := x86_64 true in
  adler32 [87; 105; 107; 105; 112; 101; 100; 105; 97] 9 = Val 300286872.
Proof.
  intros P. rewrite (adler32_rfc1950 [87; 105; 107; 105; 112; 101; 100; 105; 97] 9).
  - reflexivity.
  - repeat constructor; done.
  - split; reflexivity || discriminate.
Defined.

(** Outside the contract: [assert(len != 0)] stops debug builds, every other
    non-positive length yields the checksum of the empty string. *)
Lemma adler32_nonpositive `{Platform} (data : list Z) (len : Z) :
  len ≤ 0 →
  adler32 data len =
    if negb NDEBUG && (len =? 0) then Fault AssertionFailed else Val (rfc1950 []).
Proof.
  intros Hlen. unfold adler32, assertM. replace (Z.to_nat len) with O by lia.
  cbn [outer]. destruct (Z.ltb_spec 0 len); [lia|].
  assert (∀ a b, 0 ≤ a < 65521 → 0 ≤ b < 65521 →
    u32 (Z.lor (u32 (wrap fast32 (Z.shiftl b 16))) a) = b * 65536 + a) as Hp by apply pack_halves.
  destruct NDEBUG, (len =? 0); simpl; try done; by rewrite Hp.
Qed.

End Adler.
