(* ===== verification/Xtea.v ===== *)
(** * The XTEA cypher (crypto.cpp, [Xtea])

    [encrypt] and [decrypt] on a buffer seen through an [uint32_t*], word by
    word, with the loop counters and the 32-bit arithmetic of the source. *)

From S2P Require Import Prelude Platform.

Module Xtea.

(** [class Xtea { uint32_t key[4]; }]. *)
Record Xtea : Type := mk { key0 : Z; key1 : Z; key2 : Z; key3 : Z }.

#[export] Instance xtea_eq_dec : EqDecision Xtea.
Proof. solve_decision. Defined.

(** [k[i]]; the index is always masked with 3 in the source. *)
Definition key (x : Xtea) (i : Z) : Z :=
  if i =? 0 then key0 x else if i =? 1 then key1 x else if i =? 2 then key2 x else key3 x.

Definition delta : Z := 2654435769. (* 0x9E3779B9 *)

(** [(v << 4 ^ v >> 5) + v] *)
Definition mix (v : Z) : Z := u32 (Z.lxor (u32 (Z.shiftl v 4)) (Z.shiftr v 5) + v).

(** [sum + k[sum & 3]] and [sum + k[sum >> 11 & 3]] *)
Definition sub0 (x : Xtea) (sum : Z) : Z := u32 (sum + key x (Z.land sum 3)).
Definition sub1 (x : Xtea) (sum : Z) : Z := u32 (sum + key x (Z.land (Z.shiftr sum 11) 3)).

(** The locals [v0], [v1], [sum] of both functions. *)
Definition regs : Type := Z * Z * Z.

(** The body of [encrypt]'s inner loop. *)
Definition encrypt_round (x : Xtea) (r : regs) : regs :=
  let '(v0, v1, sum) := r in
  let v0 := u32 (v0 + Z.lxor (mix v1) (sub0 x sum)) in
  let sum := u32 (sum + delta) in
  let v1 := u32 (v1 + Z.lxor (mix v0) (sub1 x sum)) in
  (v0, v1, sum).

(** The body of [decrypt]'s inner loop. *)
Definition decrypt_round (x : Xtea) (r : regs) : regs :=
  let '(v0, v1, sum) := r in
  let v1 := u32 (v1 - Z.lxor (mix v0) (sub1 x sum)) in
  let sum := u32 (sum - delta) in
  let v0 := u32 (v0 - Z.lxor (mix v1) (sub0 x sum)) in
  (v0, v1, sum).

(** [round = 32; while(round-- > 0) ...] on one block. *)
Definition encrypt_block (x : Xtea) (v0 v1 : Z) : Z * Z :=
  let '(v0, v1, _) := Nat.iter 32 (encrypt_round x) (v0, v1, 0) in (v0, v1).

Definition decrypt_block (x : Xtea) (v0 v1 : Z) : Z * Z :=
  let '(v0, v1, _) := Nat.iter 32 (decrypt_round x) (v0, v1, u32 (Z.shiftl delta 5)) in (v0, v1).

(** [while(pos < lenght/4){ ... pos += 2; }] for the block function [f]. [pos]
    is an [uint]: it wraps at 2^32. [buffer] holds the words the pointer may
    access; one outside it is undefined behaviour. *)
Fixpoint blocks (f : Z → Z → Z * Z) (fuel : nat) (n pos : Z) (buffer : list Z) : outcome (list Z) :=
  match fuel with
  | O => Fault Diverged
  | S fuel' =>
      if pos <? n then
        match buffer !! Z.to_nat pos, buffer !! Z.to_nat (u32 (pos + 1)) with
        | Some v0, Some v1 =>
            let '(v0, v1) := f v0 v1 in
            blocks f fuel' n (u32 (pos + 2))
              (<[Z.to_nat (u32 (pos + 1)) := v1]> (<[Z.to_nat pos := v0]> buffer))
        | _, _ => Fault OutOfBounds
        end
      else Val buffer
  end.

(** [void Xtea::encrypt(uint32_t* buffer, std::size_t lenght) const] *)
Definition encrypt (x : Xtea) (buffer : list Z) (lenght : Z) : outcome (list Z) :=
  blocks (encrypt_block x) (S (Z.to_nat (lenght / 4))) (lenght / 4) 0 buffer.

(** [void Xtea::decrypt(uint32_t* buffer, std::size_t lenght) const] *)
Definition decrypt (x : Xtea) (buffer : list Z) (lenght : Z) : outcome (list Z) :=
  blocks (decrypt_block x) (S (Z.to_nat (lenght / 4))) (lenght / 4) 0 buffer.

(** ** Specification: electronic codebook over the blocks *)

Definition is_word (v : Z) : Prop := 0 ≤ v < 4294967296.

(** [f] on every pair of consecutive words. *)
Fixpoint ecb (f : Z → Z → Z * Z) (ws : list Z) : list Z :=
  match ws with
  | v0 :: v1 :: ws' => let '(w0, w1) := f v0 v1 in w0 :: w1 :: ecb f ws'
  | _ => ws
  end.

(** ** Lemmas *)

Lemma decrypt_encrypt_round x v0 v1 sum :
  is_word v0 → is_word v1 → is_word sum →
  decrypt_round x (encrypt_round x (v0, v1, sum)) = (v0, v1, sum).
Proof.
  intros H0 H1 Hs. unfold encrypt_round, decrypt_round. cbv zeta.
  by rewrite !u32_add_sub by done.
Qed.

Lemma encrypt_decrypt_round x v0 v1 sum :
  is_word v0 → is_word v1 → is_word sum →
  encrypt_round x (decrypt_round x (v0, v1, sum)) = (v0, v1, sum).
Proof.
  intros H0 H1 Hs. unfold encrypt_round, decrypt_round. cbv zeta.
  by rewrite !u32_sub_add by done.
Qed.

Lemma is_word_u32 x : is_word (u32 x).
Proof. apply u32_bound. Qed.

Definition regs_ok (r : regs) : Prop := is_word r.1.1 ∧ is_word r.1.2 ∧ is_word r.2.

Lemma regs_ok_start v0 v1 x : is_word v0 → is_word v1 → regs_ok (v0, v1, u32 x).
Proof. intros. split; [done|]. split; [done|]. apply u32_bound. Qed.

Lemma encrypt_round_ok x r : regs_ok (encrypt_round x r).
Proof. destruct r as [[v0 v1] sum]. repeat split; apply u32_bound. Qed.

Lemma decrypt_round_ok x r : regs_ok (decrypt_round x r).
Proof. destruct r as [[v0 v1] sum]. repeat split; apply u32_bound. Qed.

(** [n] rounds of one undo [n] rounds of the other, whichever comes first. *)
Lemma iter_inverse {A} (P : A → Prop) (f g : A → A) n a :
  (∀ a, P a → g (f a) = a) → (∀ a, P (f a)) → P a → Nat.iter n g (Nat.iter n f a) = a.
Proof.
  intros Hgf HP. revert a. induction n as [|n IH]; intros a Ha; [done|].
  rewrite Nat.iter_succ_r. cbn [Nat.iter nat_rect].
  rewrite Hgf; [by apply IH|]. clear IH. induction n; simpl; auto.
Qed.

(** The sum after [n] rounds does not depend on the data. *)
Lemma encrypt_sum x n v0 v1 s :
  (Nat.iter n (encrypt_round x) (v0, v1, u32 s)).2 = u32 (s + Z.of_nat n * delta).
Proof.
  revert v0 v1 s. induction n as [|n IH]; intros v0 v1 s.
  - simpl. f_equal. lia.
  - rewrite Nat.iter_succ_r. cbn [encrypt_round]. rewrite IH. unfold u32.
    rewrite <-Z.add_assoc, wrap_add_l. f_equal. lia.
Qed.

Lemma decrypt_sum x n v0 v1 s :
  (Nat.iter n (decrypt_round x) (v0, v1, u32 s)).2 = u32 (s - Z.of_nat n * delta).
Proof.
  revert v0 v1 s. induction n as [|n IH]; intros v0 v1 s.
  - simpl. f_equal. lia.
  - rewrite Nat.iter_succ_r. cbn [decrypt_round]. rewrite IH. unfold u32.
    unfold Z.sub. rewrite <-Z.add_assoc, wrap_add_l. f_equal. lia.
Qed.

Lemma regs_ok_iter (f : regs → regs) n r :
  (∀ r, regs_ok (f r)) → regs_ok r → regs_ok (Nat.iter n f r).
Proof. intros Hf Hr. induction n; simpl; auto. Qed.

Lemma block_words_encrypt x v0 v1 : is_word v0 → is_word v1 →
  is_word (encrypt_block x v0 v1).1 ∧ is_word (encrypt_block x v0 v1).2.
Proof.
  intros H0 H1. unfold encrypt_block.
  destruct (regs_ok_iter (encrypt_round x) 32 (v0, v1, 0) (encrypt_round_ok x)) as (?&?&?).
  { by apply (regs_ok_start v0 v1 0). }
  by destruct (Nat.iter _ _ _) as [[w0 w1] s].
Qed.

Lemma block_words_decrypt x v0 v1 : is_word v0 → is_word v1 →
  is_word (decrypt_block x v0 v1).1 ∧ is_word (decrypt_block x v0 v1).2.
Proof.
  intros H0 H1. unfold decrypt_block.
  destruct (regs_ok_iter (decrypt_round x) 32 (v0, v1, u32 (Z.shiftl delta 5)) (decrypt_round_ok x))
    as (?&?&?). { by apply regs_ok_start. }
  by destruct (Nat.iter _ _ _) as [[w0 w1] s].
Qed.

(** [sum = delta << 5] is the sum [encrypt] ends with. *)
Lemma decrypt_encrypt_block x v0 v1 : is_word v0 → is_word v1 →
  let '(w0, w1) := encrypt_block x v0 v1 in decrypt_block x w0 w1 = (v0, v1).
Proof.
  intros H0 H1. unfold encrypt_block, decrypt_block.
  pose proof (encrypt_sum x 32 v0 v1 0) as Hs.
  pose proof (iter_inverse regs_ok (encrypt_round x) (decrypt_round x) 32 (v0, v1, 0)) as Hi.
  change (u32 0) with 0 in Hs.
  destruct (Nat.iter 32 (encrypt_round x) (v0, v1, 0)) as [[w0 w1] s]. simpl in Hs. subst s.
  change (u32 (0 + Z.of_nat 32 * delta)) with (u32 (Z.shiftl delta 5)) in Hi.
  rewrite Hi; [done| |by intros; apply encrypt_round_ok|by apply (regs_ok_start v0 v1 0)].
  intros [[a b] c] (?&?&?). by apply decrypt_encrypt_round.
Qed.

Lemma encrypt_decrypt_block x v0 v1 : is_word v0 → is_word v1 →
  let '(w0, w1) := decrypt_block x v0 v1 in encrypt_block x w0 w1 = (v0, v1).
Proof.
  intros H0 H1. unfold encrypt_block, decrypt_block.
  pose proof (decrypt_sum x 32 v0 v1 (Z.shiftl delta 5)) as Hs.
  pose proof (iter_inverse regs_ok (decrypt_round x) (encrypt_round x) 32
    (v0, v1, u32 (Z.shiftl delta 5))) as Hi.
  destruct (Nat.iter 32 (decrypt_round x) (v0, v1, _)) as [[w0 w1] s]. simpl in Hs. subst s.
  change (u32 (Z.shiftl delta 5 - Z.of_nat 32 * delta)) with 0 in Hi.
  rewrite Hi; [done| |by intros; apply decrypt_round_ok|by apply regs_ok_start].
  intros [[a b] c] (?&?&?). by apply encrypt_decrypt_round.
Qed.

(** Induction over a buffer two words at a time. *)
Lemma pairs_ind (P : list Z → Prop) :
  P [] → (∀ a, P [a]) → (∀ a b l, P l → P (a :: b :: l)) → ∀ l, P l.
Proof.
  intros H0 H1 H2 l. enough (P l ∧ ∀ a, P (a :: l)) as [? _] by done.
  induction l as [|x l [IH1 IH2]]; [by auto|]. split; [by apply IH2|].
  intros a. by apply H2.
Qed.

Lemma length_ecb f ws : length (ecb f ws) = length ws.
Proof. induction ws as [| |a b l IH] using pairs_ind; simpl; try done. destruct (f a b). simpl. by rewrite IH. Qed.

Lemma ecb_words f ws :
  (∀ v0 v1, is_word v0 → is_word v1 → is_word (f v0 v1).1 ∧ is_word (f v0 v1).2) →
  Forall is_word ws → Forall is_word (ecb f ws).
Proof.
  intros Hf. induction ws as [| |a b l IH] using pairs_ind; simpl; intros Hw; try done.
  apply Forall_cons in Hw as [Ha Hw]. apply Forall_cons in Hw as [Hb Hw].
  destruct (Hf a b Ha Hb) as [? ?]. destruct (f a b). simpl in *. constructor; [done|]. constructor; [done|by apply IH].
Qed.

Lemma ecb_inverse f g ws :
  (∀ v0 v1, is_word v0 → is_word v1 → let '(w0, w1) := f v0 v1 in g w0 w1 = (v0, v1)) →
  Forall is_word ws → ecb g (ecb f ws) = ws.
Proof.
  intros Hfg. induction ws as [| |a b l IH] using pairs_ind; simpl; intros Hw; try done.
  apply Forall_cons in Hw as [Ha Hw]. apply Forall_cons in Hw as [Hb Hw].
  specialize (Hfg a b Ha Hb). destruct (f a b) as [w0 w1]. simpl. rewrite Hfg. by rewrite IH.
Qed.

(** The loop runs the block function over the first [n] words. *)
Lemma blocks_ecb f fuel (m : nat) pre ws post :
  Z.of_nat (length (pre ++ ws)) < 4294967294 →
  length ws = (2 * m)%nat → (m < fuel)%nat →
  blocks f fuel (Z.of_nat (length (pre ++ ws))) (Z.of_nat (length pre)) (pre ++ ws ++ post)
  = Val (pre ++ ecb f ws ++ post).
Proof.
  revert m pre ws. induction fuel as [|fuel IH]; intros m pre ws Hn Hl Hf; [lia|].
  cbn [blocks]. destruct ws as [|v0 [|v1 ws]]; simpl in Hl; [|lia|].
  - rewrite app_nil_r, Z.ltb_irrefl. done.
  - destruct m as [|m]; [lia|].
    rewrite length_app in *. simpl in Hn |- *. rewrite (proj2 (Z.ltb_lt _ _)) by lia.
    rewrite !u32_small by lia.
    replace (Z.to_nat (Z.of_nat (length pre) + 1)) with (length pre + 1)%nat by lia.
    rewrite Nat2Z.id.
    rewrite (list_lookup_middle pre (v1 :: ws ++ post) v0 (length pre)) by done.
    replace (pre ++ v0 :: v1 :: ws ++ post) with ((pre ++ [v0]) ++ v1 :: ws ++ post) by by rewrite <-app_assoc.
    rewrite (list_lookup_middle (pre ++ [v0]) (ws ++ post) v1) by by rewrite length_app.
    destruct (f v0 v1) as [w0 w1].
    rewrite insert_app_l by (rewrite length_app; simpl; lia).
    rewrite (insert_app_r_alt pre [v0]) by lia. rewrite Nat.sub_diag. cbn [insert list_insert].
    rewrite insert_app_r_alt by (rewrite length_app; simpl; lia). rewrite length_app.
    replace (length pre + 1 - (length pre + length [w0]))%nat with O by (simpl; lia).
    cbn [insert list_insert].
    specialize (IH m (pre ++ [w0; w1]) ws). rewrite !length_app in IH. simpl in IH.
    replace (Z.of_nat (length pre) + 2) with (Z.of_nat (length pre + 2)) by lia.
    replace (Z.of_nat (length pre + S (S (length ws)))) with (Z.of_nat (length pre + 2 + length ws)) by lia.
    rewrite <-!app_assoc in *. simpl in *. rewrite <-?app_assoc. apply IH; lia.
Qed.

Lemma blocks_run f ws post lenght :
  lenght / 4 = Z.of_nat (length ws) → Z.of_nat (length ws) < 4294967294 → Nat.Even (length ws) →
  blocks f (S (Z.to_nat (lenght / 4))) (lenght / 4) 0 (ws ++ post) = Val (ecb f ws ++ post).
Proof.
  intros -> Hb [m Hm]. apply (blocks_ecb f _ m [] ws post); simpl; lia.
Qed.

(** On a buffer of an even number of words, [encrypt] is the codebook over the
    words named by [lenght] and leaves the memory after them alone. *)
Lemma encrypt_run x ws post lenght :
  lenght / 4 = Z.of_nat (length ws) → Z.of_nat (length ws) < 4294967294 → Nat.Even (length ws) →
  encrypt x (ws ++ post) lenght = Val (ecb (encrypt_block x) ws ++ post).
Proof. apply blocks_run. Qed.

Lemma decrypt_run x ws post lenght :
  lenght / 4 = Z.of_nat (length ws) → Z.of_nat (length ws) < 4294967294 → Nat.Even (length ws) →
  decrypt x (ws ++ post) lenght = Val (ecb (decrypt_block x) ws ++ post).
Proof. apply blocks_run. Qed.

(** A last block of one word reads the word behind it. *)
Lemma blocks_odd f fuel (m : nat) pre ws v :
  Z.of_nat (length (pre ++ ws)) < 4294967290 → length ws = (2 * m)%nat → (S m < fuel)%nat →
  blocks f fuel (Z.of_nat (length (pre ++ ws)) + 1) (Z.of_nat (length pre)) (pre ++ ws ++ [v])
  = Fault OutOfBounds.
Proof.
  revert m pre ws. induction fuel as [|fuel IH]; intros m pre ws Hn Hl Hf; [lia|].
  cbn [blocks]. rewrite length_app in *. rewrite (proj2 (Z.ltb_lt _ _)) by lia.
  rewrite !u32_small by lia. rewrite Nat2Z.id.
  replace (Z.to_nat (Z.of_nat (length pre) + 1)) with (length pre + 1)%nat by lia.
  destruct ws as [|v0 [|v1 ws]]; simpl in Hl; [|lia|].
  - simpl. rewrite (list_lookup_middle pre [] v) by done.
    by rewrite (lookup_ge_None_2 (pre ++ [v])) by (rewrite length_app; simpl; lia).
  - destruct m as [|m]; [lia|]. simpl in Hn |- *.
    rewrite (list_lookup_middle pre (v1 :: ws ++ [v]) v0 (length pre)) by done.
    replace (pre ++ v0 :: v1 :: ws ++ [v]) with ((pre ++ [v0]) ++ v1 :: ws ++ [v]) by by rewrite <-app_assoc.
    rewrite (list_lookup_middle (pre ++ [v0]) (ws ++ [v]) v1) by by rewrite length_app.
    destruct (f v0 v1) as [w0 w1].
    rewrite insert_app_l by (rewrite length_app; simpl; lia).
    rewrite (insert_app_r_alt pre [v0]) by lia. rewrite Nat.sub_diag. cbn [insert list_insert].
    rewrite insert_app_r_alt by (rewrite length_app; simpl; lia). rewrite length_app.
    replace (length pre + 1 - (length pre + length [w0]))%nat with O by (simpl; lia).
    cbn [insert list_insert].
    specialize (IH m (pre ++ [w0; w1]) ws). rewrite !length_app in IH. simpl in IH.
    replace (Z.of_nat (length pre) + 2) with (Z.of_nat (length pre + 2)) by lia.
    replace (Z.of_nat (length pre + S (S (length ws)))) with (Z.of_nat (length pre + 2 + length ws)) by lia.
    rewrite <-!app_assoc in *. simpl in *. rewrite <-?app_assoc. apply IH; lia.
Qed.

(** ** Properties *)

(** C26. [decrypt] undoes [encrypt] and [encrypt] undoes [decrypt] under every
    key, on every buffer of whole 8-byte blocks (at most 2^32-3 words, which is
    where the [uint] counter would wrap): both return, in place, and the memory
    behind the buffer is untouched. *)
Theorem xtea_roundtrip (x : Xtea) (ws post : list Z) (lenght : Z) :
  Forall is_word ws → lenght = 4 * Z.of_nat (length ws) →
  Z.of_nat (length ws) < 4294967294 → Nat.Even (length ws) →
  (∃ ws', encrypt x (ws ++ post) lenght = Val (ws' ++ post) ∧
     length ws' = length ws ∧ Forall is_word ws' ∧ decrypt x (ws' ++ post) lenght = Val (ws ++ post)) ∧
  (∃ ws', decrypt x (ws ++ post) lenght = Val (ws' ++ post) ∧
     length ws' = length ws ∧ Forall is_word ws' ∧ encrypt x (ws' ++ post) lenght = Val (ws ++ post)).
Proof.
  intros Hw -> Hb He.
  assert (4 * Z.of_nat (length ws) / 4 = Z.of_nat (length ws)) as Hd.
  { rewrite Z.mul_comm, Z.div_mul; lia. }
  split; [exists (ecb (encrypt_block x) ws)|exists (ecb (decrypt_block x) ws)]; split_and!.
  - apply encrypt_run; auto.
  - apply length_ecb.
  - apply (ecb_words (encrypt_block x)); [apply block_words_encrypt|done].
  - rewrite (decrypt_run x (ecb _ ws)); rewrite ?length_ecb; [|done..].
    by rewrite (ecb_inverse (encrypt_block x) (decrypt_block x) ws (decrypt_encrypt_block x)).
  - apply decrypt_run; auto.
  - apply length_ecb.
  - apply (ecb_words (decrypt_block x)); [apply block_words_decrypt|done].
  - rewrite (encrypt_run x (ecb _ ws)); rewrite ?length_ecb; [|done..].
    by rewrite (ecb_inverse (decrypt_block x) (encrypt_block x) ws (encrypt_decrypt_block x)).
Qed.

Lemma xtea_roundtrip_witness :
  let x := mk 0 0 0 0 in
  encrypt x [0; 0] 8 = Val [3739866328; 4145225433] ∧
  ∃ ws', encrypt x ([0; 0] ++ [7]) 8 = Val (ws' ++ [7]) ∧
     length ws' = 2%nat ∧ Forall is_word ws' ∧ decrypt x (ws' ++ [7]) 8 = Val [0; 0; 7].
Proof.
  intros x. split; [vm_compute; reflexivity|].
  apply (xtea_roundtrip x [0; 0] [7] 8).
  - repeat constructor; done.
  - reflexivity.
  - reflexivity.
  - by exists 1%nat.
Defined.

(** On a buffer whose number of words is odd both functions leave it: the
    last iteration reads [buffer[pos+1]], one word behind the end, whatever the
    key. The callers have to pass a length divisible by 8. *)
Theorem xtea_odd_words_out_of_bounds (x : Xtea) (ws : list Z) (v lenght : Z) :
  lenght / 4 = Z.of_nat (length (ws ++ [v])) → Z.of_nat (length ws) < 4294967290 →
  Nat.Even (length ws) →
  encrypt x (ws ++ [v]) lenght = Fault OutOfBounds ∧ decrypt x (ws ++ [v]) lenght = Fault OutOfBounds.
Proof.
  intros Hl Hb [m Hm]. unfold encrypt, decrypt. rewrite Hl, length_app.
  replace (Z.of_nat (length ws + length [v])) with (Z.of_nat (length ws) + 1) by (simpl; lia).
  split; apply (blocks_odd _ _ m [] ws v); simpl; lia.
Qed.

Lemma xtea_odd_words_out_of_bounds_witness :
  encrypt (mk 1 2 3 4) [1; 2; 3] 12 = Fault OutOfBounds.
Proof.
  apply (xtea_odd_words_out_of_bounds (mk 1 2 3 4) [1; 2] 3 12).
  - reflexivity.
  - reflexivity.
  - by exists 1%nat.
Defined.

End Xtea.
