(* ===== verification/Rsa.v ===== *)
(** * RSA (crypto.cpp and crypto.h, [Rsa])

    The wrapper around OpenSSL's RSA key: construction from five decimal
    strings and in-place private decryption. OpenSSL itself is an interface. *)

From S2P Require Import Prelude Platform.

Module Rsa.

(** The fields of OpenSSL's [RSA] the code sets. *)
Record key (bignum : Type) : Type := mk_key {
  n : option bignum; e : option bignum; d : option bignum; p : option bignum; q : option bignum }.
Arguments mk_key {bignum}.
Arguments n {bignum}. Arguments e {bignum}. Arguments d {bignum}.
Arguments p {bignum}. Arguments q {bignum}.

(** What the code uses of OpenSSL. [BN_dec2bn] returns the number of digits
    parsed (0 on failure) and the number; [RSA_check_key] 1 for a valid key;
    [RSA_private_decrypt] without padding the length of the result (-1 on
    failure) and the new contents of the buffer, which it leaves with as many
    bytes as it had. *)
Class OpenSSL : Type := {
  bignum : Type;
  BN_dec2bn : string → Z * bignum;
  RSA_check_key : key bignum → Z;
  RSA_private_decrypt : key bignum → list Z → Z * list Z;
  ERR_string : string;
  private_decrypt_in_place k l : length (RSA_private_decrypt k l).2 = length l;
  private_decrypt_bytes k l : Forall is_byte l → Forall is_byte (RSA_private_decrypt k l).2;
  private_decrypt_len k l : -1 ≤ (RSA_private_decrypt k l).1 ≤ Z.of_nat (length l);
}.

Section code.
Context `{OpenSSL}.

(** [BN_dec2bn(&rsa->field, str)]: sets the field and yields the count. *)
Definition set_n (str : string) : prog (key bignum) Z := λ k,
  let '(c, b) := BN_dec2bn str in (Val c, mk_key (Some b) (e k) (d k) (p k) (q k)).
Definition set_e (str : string) : prog (key bignum) Z := λ k,
  let '(c, b) := BN_dec2bn str in (Val c, mk_key (n k) (Some b) (d k) (p k) (q k)).
Definition set_d (str : string) : prog (key bignum) Z := λ k,
  let '(c, b) := BN_dec2bn str in (Val c, mk_key (n k) (e k) (Some b) (p k) (q k)).
Definition set_p (str : string) : prog (key bignum) Z := λ k,
  let '(c, b) := BN_dec2bn str in (Val c, mk_key (n k) (e k) (d k) (Some b) (q k)).
Definition set_q (str : string) : prog (key bignum) Z := λ k,
  let '(c, b) := BN_dec2bn str in (Val c, mk_key (n k) (e k) (d k) (p k) (Some b)).

(** [c ? m : 0] on the count of the previous conversion. *)
Definition and_then (c : Z) (m : prog (key bignum) Z) : prog (key bignum) Z :=
  if c =? 0 then ret 0 else m.

(** [Rsa::Rsa]; [RSA_new()] gives a key with no field set. *)
Definition Rsa (n_ e_ d_ p_ q_ : string) : outcome (key bignum) :=
  let m :=
    let! ok :=
      let! c := set_n n_ in and_then c (
      let! c := set_e e_ in and_then c (
      let! c := set_d d_ in and_then c (
      let! c := set_p p_ in and_then c (set_q q_)))) in
    let! rsa := get in
    if (ok =? 0) || (RSA_check_key rsa <? 1) then throw (StdException ERR_string) else ret tt in
  match m (mk_key None None None None None) with
  | (Val _, rsa) => Val rsa
  | (Exc x, _) => Exc x
  | (Fault f, _) => Fault f
  end.

(** [int Rsa::decrypt(buffer, length, e)]: the new contents of the memory
    behind [buffer] and, when no error was set, the new length. *)
Definition decrypt (rsa : key bignum) (length_ : nat) (buffer : list Z) :
    outcome (list Z * option Z) :=
  if decide (length_ ≤ length buffer)%nat then
    let '(newLen, out) := RSA_private_decrypt rsa (take length_ buffer) in
    Val (out ++ drop length_ buffer, if newLen =? -1 then None else Some newLen)
  else Fault OutOfBounds.
End code.

(** ** Properties *)

(** The constructor succeeds exactly when the five strings are numbers and
    OpenSSL accepts the key, which then has all five fields set; otherwise it
    throws, and the chain of conditionals stops at the first bad string. *)
Theorem Rsa_construct `{OpenSSL} n_ e_ d_ p_ q_ :
  let k := mk_key (Some (BN_dec2bn n_).2) (Some (BN_dec2bn e_).2) (Some (BN_dec2bn d_).2)
                  (Some (BN_dec2bn p_).2) (Some (BN_dec2bn q_).2) in
  Rsa n_ e_ d_ p_ q_ =
    if forallb (λ s, negb ((BN_dec2bn s).1 =? 0)) [n_; e_; d_; p_; q_] && (1 <=? RSA_check_key k)
    then Val k else Exc (StdException ERR_string).
Proof.
  intros k. unfold Rsa, set_n, set_e, set_d, set_p, set_q, and_then, k. run_simpl.
  destruct (BN_dec2bn n_) as [c1 b1], (BN_dec2bn e_) as [c2 b2], (BN_dec2bn d_) as [c3 b3],
    (BN_dec2bn p_) as [c4 b4], (BN_dec2bn q_) as [c5 b5]. simpl.
  destruct (c1 =? 0), (c2 =? 0), (c3 =? 0), (c4 =? 0); try done. simpl.
  rewrite andb_true_r, Z.ltb_antisym. by destruct (c5 =? 0), (1 <=? _).
Qed.

(** [decrypt] is in place: the memory keeps its size, what lies behind the
    [length] bytes is untouched, and asking for more than there is is undefined. *)
Lemma decrypt_in_place `{OpenSSL} rsa len buffer :
  (len ≤ length buffer)%nat →
  ∃ out r, decrypt rsa len buffer = Val (out ++ drop len buffer, r) ∧ length out = len ∧
    (Forall is_byte buffer → Forall is_byte out) ∧
    (∀ v, r = Some v → 0 ≤ v ≤ Z.of_nat len).
Proof.
  intros Hl. unfold decrypt. rewrite decide_True by done.
  pose proof (private_decrypt_in_place rsa (take len buffer)) as Hip.
  pose proof (private_decrypt_len rsa (take len buffer)) as Hlen.
  pose proof (private_decrypt_bytes rsa (take len buffer)) as Hb.
  destruct (RSA_private_decrypt rsa (take len buffer)) as [v out]. simpl in *.
  rewrite length_take, Nat.min_l in Hip, Hlen by done.
  eexists out, _. split_and!; [done|done|intros; apply Hb; by apply Forall_take|].
  intros w. destruct (Z.eqb_spec v (-1)); intros; simplify_eq. lia.
Qed.

(** A stand-in for OpenSSL under which the constructor succeeds and decryption
    is the identity: numbers are kept as strings. *)
Definition toy_openssl : OpenSSL.
Proof.
  refine {| bignum := string; BN_dec2bn s := (Z.of_nat (String.length s), s);
            RSA_check_key _ := 1; RSA_private_decrypt _ l := (Z.of_nat (length l), l);
            ERR_string := "error" |}; simpl; auto; intros; lia.
Defined.

End Rsa.
