(* ===== verification/InMessage.v ===== *)
(** * Incoming messages (message/basicinmessage.hpp, standardinmessage.h and
      standarinmessage.cpp)

    The statically sized receive buffer with its read position and size, the
    bounds-checked readers, and the Tibia framing on top of them: header,
    Adler-32 checksum, XTEA and RSA decryption in place. *)

From S2P Require Import Prelude Platform Adler Xtea Rsa.

Module InMessage.

(** [BasicInMessage]: [buffer], [pos] and [size] (both [unsigned int]). *)
Record msg : Type := mk { buffer : list Z; pos : Z; size : Z }.

Definition set_buffer (b : list Z) (m : msg) : msg := mk b (pos m) (size m).
Definition set_pos (p : Z) (m : msg) : msg := mk (buffer m) p (size m).
Definition set_size (n : Z) (m : msg) : msg := mk (buffer m) (pos m) n.

Section basic.
Context `{Platform}.
(** The template parameters. *)
Variables HEADER_SIZE MAX_BODY_SIZE : Z.

(** The constructor leaves the array uninitialised: its bytes are [junk]. *)
Definition new (junk : list Z) : msg := mk junk 0 HEADER_SIZE.

(** A buffer handed to asio: offset and length. *)
Definition getHeaderBuffer : prog msg (Z * Z) := ret (0, HEADER_SIZE).

Definition getBodyBuffer : prog msg (Z * Z) :=
  let! m := get in
  assertM (HEADER_SIZE <? size m) ;;;
  ret (HEADER_SIZE, u32 (size m - HEADER_SIZE)).

Definition getSize : prog msg Z := let! m := get in ret (size m).

Definition getRemainingSize : prog msg Z :=
  let! m := get in
  assertM (pos m <=? size m) ;;;
  ret (u32 (size m - pos m)).

Definition isAvailable (bytesRequired : Z) : prog msg bool :=
  let! m := get in ret (u32 (pos m + bytesRequired) <=? size m).

(** [if((pos+=bytes) > size) throw PacketException();] *)
Definition movePos (bytes : Z) : prog msg unit :=
  modify (λ m, set_pos (u32 (pos m + bytes)) m) ;;;
  let! m := get in
  if size m <? pos m then throw PacketException else ret tt.

(** The pointer returned is an offset into [buffer]. *)
Definition getRawChunckAs (bytes : Z) : prog msg Z :=
  movePos bytes ;;;
  let! m := get in ret (u32 (pos m - bytes)).

(** Reading through such a pointer. *)
Definition load (off n : Z) : prog msg (list Z) :=
  let! m := get in
  match read (buffer m) off n with
  | Some bs => ret bs
  | None => fail OutOfBounds
  end.

Definition getByte : prog msg Z :=
  movePos 1 ;;;
  let! m := get in
  match buffer m !! Z.to_nat (u32 (pos m - 1)) with
  | Some b => ret b
  | None => fail OutOfBounds
  end.

(** [getNumber<T>] for a [T] of [n] bytes. *)
Definition getNumber (n : nat) : prog msg Z :=
  let! off := getRawChunckAs (Z.of_nat n) in
  let! bs := load off (Z.of_nat n) in
  ret (dec bs).

Definition getU16 : prog msg Z := getNumber 2.
Definition getU32 : prog msg Z := getNumber 4.
Definition getU64 : prog msg Z := getNumber 8.

(** The string is copied out of the buffer. *)
Definition getStrChunck (bytes : Z) : prog msg (list Z) :=
  let! off := getRawChunckAs bytes in load off bytes.

Definition getRawChunck (bytes : Z) : prog msg Z := getRawChunckAs bytes.

Definition skipBytes (delta : Z) : prog msg unit := movePos delta.

Definition peekRawChunckAs (bytes : Z) : prog msg Z :=
  let! m := get in
  if size m <? u32 (pos m + bytes) then throw PacketException else ret (pos m).

Definition setRemainingSize (bytes : Z) : prog msg unit :=
  let! m := get in
  assertM (u32 (pos m + bytes) <=? MAX_BODY_SIZE) ;;;
  modify (set_size (u32 (pos m + bytes))).

(** Asio filling a buffer it was handed. *)
Definition fill (off : Z) (bs : list Z) : prog msg unit :=
  let! m := get in
  match write (buffer m) off bs with
  | Some b => modify (set_buffer b)
  | None => fail OutOfBounds
  end.
End basic.

Section standard.
Context `{Platform}.

Definition STANDARD_IN_MESSAGE_HEADER_SIZE : Z := 2.
Definition STANDARD_IN_MESSAGE_MAX_BODY_SIZE : Z := 15340.

Definition parseHeaderAndGetBodyBuffer : prog msg (Z * Z) :=
  let! bodySize := getU16 in
  if (bodySize <? 8) || (STANDARD_IN_MESSAGE_MAX_BODY_SIZE <? bodySize)
  then throw PacketException
  else
    setRemainingSize STANDARD_IN_MESSAGE_MAX_BODY_SIZE bodySize ;;;
    getBodyBuffer STANDARD_IN_MESSAGE_HEADER_SIZE.

Definition getString : prog msg (list Z) :=
  let! n := getU16 in getStrChunck n.

Definition doChecksum : prog msg unit :=
  let! givenChecksum := getU32 in
  let! n := getRemainingSize in
  let! off := peekRawChunckAs n in
  let! m := get in
  let! computed := lift (Adler.adler32 (drop (Z.to_nat off) (buffer m)) (i32 n)) in
  if givenChecksum =? computed then ret tt else throw PacketException.

(** The braced initialiser evaluates its four reads left to right. *)
Definition getXtea : prog msg Xtea.Xtea :=
  let! v0 := getU32 in
  let! v1 := getU32 in
  let! v2 := getU32 in
  let! v3 := getU32 in
  ret (Xtea.mk v0 v1 v2 v3).

Definition xteaDecrypt (xtea : Xtea.Xtea) : prog msg unit :=
  let! n := getRemainingSize in
  if negb (n `mod` 8 =? 0) then throw PacketException
  else
    let! off := peekRawChunckAs n in
    let! m := get in
    let! region := lift (on_words (λ ws, Xtea.decrypt xtea ws n) (drop (Z.to_nat off) (buffer m))) in
    modify (set_buffer (take (Z.to_nat off) (buffer m) ++ region)) ;;;
    let! newSize := getU16 in
    setRemainingSize STANDARD_IN_MESSAGE_MAX_BODY_SIZE newSize.

(** What runs in the crypto service after [rsaDecrypt] has checked the region at
    [off]: the value passed to the handler. [decrypt] is [Rsa::decrypt] on the
    bytes the pointer may access: their new contents, and the new length or no
    value when the error condition was set. *)
Definition rsaDecrypted (decrypt : list Z → outcome (list Z * option Z)) (off : Z) : prog msg bool :=
  let! m := get in
  let! r := lift (decrypt (drop (Z.to_nat off) (buffer m))) in
  modify (set_buffer (take (Z.to_nat off) (buffer m) ++ r.1)) ;;;
  match r.2 with
  | Some newSize =>
      setRemainingSize STANDARD_IN_MESSAGE_MAX_BODY_SIZE newSize ;;;
      let! b := getByte in ret (b =? 0)
  | None => ret false
  end.

(** [rsaDecrypt] when the crypto service runs the decryption at once. *)
Definition rsaDecrypt (decrypt : list Z → outcome (list Z * option Z)) : prog msg bool :=
  let! off := peekRawChunckAs 128 in rsaDecrypted decrypt off.
End standard.

(** ** Abstract specification: a parser of the unread bytes *)

(** The bytes between [pos] and [size]. *)
Definition remaining (m : msg) : list Z :=
  take (Z.to_nat (size m - pos m)) (drop (Z.to_nat (pos m)) (buffer m)).

(** The states a message is in between reads: everything up to [size] is inside
    the buffer, and [pos] has not run past [size]. *)
Record ready (m : msg) : Prop := {
  ready_bytes : Forall is_byte (buffer m);
  ready_pos : 0 ≤ pos m ≤ size m;
  ready_size : size m ≤ Z.of_nat (length (buffer m));
  ready_cap : Z.of_nat (length (buffer m)) < 2147483648;
}.

Definition parser (A : Type) : Type := list Z → option (A * list Z).

Definition p_number `{Platform} (n : nat) : parser Z := λ l,
  if decide (n ≤ length l)%nat then Some (dec (take n l), drop n l) else None.

Definition p_bytes (n : nat) : parser (list Z) := λ l,
  if decide (n ≤ length l)%nat then Some (take n l, drop n l) else None.

Definition p_bind {A B} (p : parser A) (k : A → parser B) : parser B := λ l,
  match p l with Some (a, l') => k a l' | None => None end.

Definition p_ret {A} (a : A) : parser A := λ l, Some (a, l).

Definition p_string `{Platform} : parser (list Z) :=
  p_bind (p_number 2) (λ n, p_bytes (Z.to_nat n)).

Definition p_xtea `{Platform} : parser Xtea.Xtea :=
  p_bind (p_number 4) (λ v0, p_bind (p_number 4) (λ v1,
  p_bind (p_number 4) (λ v2, p_bind (p_number 4) (λ v3, p_ret (Xtea.mk v0 v1 v2 v3))))).

(** A reader implements a parser: on success it returns the parser's value and
    the unread bytes become the parser's rest; when the parser rejects, it
    throws [PacketException]; it never faults, nor writes the buffer. *)
Definition implements {A} (g : prog msg A) (p : parser A) : Prop :=
  ∀ m, ready m →
    match p (remaining m) with
    | Some (a, rest) => ∃ m', g m = (Val a, m') ∧ ready m' ∧ remaining m' = rest ∧
                              buffer m' = buffer m ∧ size m' = size m
    | None => ∃ m', g m = (Exc PacketException, m') ∧ buffer m' = buffer m ∧ size m' = size m
    end.

(** ** Lemmas *)

Lemma length_remaining m : ready m → Z.of_nat (length (remaining m)) = size m - pos m.
Proof. intros [Hb Hp Hs Hc]. unfold remaining. rewrite length_take, length_drop. lia. Qed.

Lemma remaining_bytes m : ready m → Forall is_byte (remaining m).
Proof. intros []. by apply Forall_take, Forall_drop. Qed.

Lemma remaining_advance m n :
  ready m → 0 ≤ n → remaining (set_pos (pos m + n) m) = drop (Z.to_nat n) (remaining m).
Proof.
  intros [Hb Hp Hs Hc] Hn. unfold remaining. simpl.
  rewrite skipn_firstn_comm, drop_drop. f_equal; [lia|]. f_equal. lia.
Qed.

Lemma ready_advance m n : ready m → 0 ≤ n ≤ size m - pos m → ready (set_pos (pos m + n) m).
Proof. intros [Hb Hp Hs Hc] Hn. split; simpl; auto; lia. Qed.

Lemma movePos_run m n :
  ready m → 0 ≤ n < 2147483648 →
  movePos n m =
    (if size m <? pos m + n then Exc PacketException else Val tt, set_pos (pos m + n) m).
Proof.
  intros [Hb Hp Hs Hc] Hn. unfold movePos, bind, modify, get. simpl.
  rewrite u32_small by lia. by destruct (_ <? _).
Qed.

Lemma load_run m off n :
  ready m → 0 ≤ off → 0 ≤ n → off + n ≤ size m →
  load off n m = (Val (take (Z.to_nat n) (drop (Z.to_nat off) (buffer m))), m).
Proof.
  intros [Hb Hp Hs Hc] ???. unfold load, bind, get. rewrite read_inside by lia. done.
Qed.

Lemma take_remaining m n : 0 ≤ n ≤ size m - pos m →
  take (Z.to_nat n) (drop (Z.to_nat (pos m)) (buffer m)) = take (Z.to_nat n) (remaining m).
Proof. intros. unfold remaining. rewrite take_take. f_equal. lia. Qed.

(** Unread bytes further on. *)
Lemma take_drop_remaining m k n :
  0 ≤ pos m → Z.of_nat (k + n) ≤ size m - pos m →
  take n (drop (Z.to_nat (pos m + Z.of_nat k)) (buffer m)) = take n (drop k (remaining m)).
Proof.
  intros Hp Hl. unfold remaining. rewrite skipn_firstn_comm, take_take, drop_drop.
  f_equal; [lia|]. f_equal. lia.
Qed.

Section implements.
Context `{Platform}.

Lemma implements_ret {A} (a : A) : implements (ret a) (p_ret a).
Proof. intros m Hm. exists m. done. Qed.

Lemma implements_bind {A B} (g : prog msg A) p (k : A → prog msg B) q :
  implements g p →
  (∀ a l rest, Forall is_byte l → p l = Some (a, rest) → implements (k a) (q a)) →
  implements (bind g k) (p_bind p q).
Proof.
  intros Hg Hk m Hm. specialize (Hg m Hm). unfold p_bind, bind.
  destruct (p (remaining m)) as [[a rest]|] eqn:Hp.
  - destruct Hg as (m' & -> & Hm' & Hr & Hb & Hs).
    specialize (Hk a _ _ (remaining_bytes m Hm) Hp m' Hm'). rewrite Hr in Hk.
    destruct (q a rest) as [[b rest']|].
    + destruct Hk as (m'' & -> & ? & ? & ? & ?). exists m''. split_and!; congruence.
    + destruct Hk as (m'' & -> & ? & ?). exists m''. split_and!; congruence.
  - destruct Hg as (m' & -> & ?). by exists m'.
Qed.

(** Reading [n] bytes at the position moved over. *)
Lemma raw_chunk_run (n : Z) m :
  ready m → 0 ≤ n < 2147483648 →
  (let! off := getRawChunckAs n in load off n) m =
    if decide (Z.to_nat n ≤ length (remaining m))%nat
    then (Val (take (Z.to_nat n) (remaining m)), set_pos (pos m + n) m)
    else (Exc PacketException, set_pos (pos m + n) m).
Proof.
  intros Hm Hn. pose proof (length_remaining m Hm) as Hl.
  unfold getRawChunckAs. rewrite !bind_assoc. unfold bind at 1. rewrite movePos_run by done.
  destruct (Z.ltb_spec (size m) (pos m + n)); case_decide; try lia; [done|].
  unfold bind at 1 2, get, ret. simpl. destruct Hm as [Hb Hp Hs Hc].
  rewrite u32_small by lia. replace (pos m + n - n) with (pos m) by lia.
  rewrite (load_run (set_pos (pos m + n) m)); simpl; try lia.
  - by rewrite take_remaining by lia.
  - by apply ready_advance; [split|lia].
Qed.

Lemma implements_chunk (n : Z) : 0 ≤ n < 2147483648 →
  implements (getStrChunck n) (p_bytes (Z.to_nat n)).
Proof.
  intros Hn m Hm. unfold getStrChunck, p_bytes. rewrite raw_chunk_run by done.
  pose proof (length_remaining m Hm) as Hl.
  case_decide; eexists; split; try done.
  split_and!; [apply ready_advance; [done|lia]|apply remaining_advance; [done|lia]|done..].
Qed.

Lemma getNumber_run n m :
  ready m → Z.of_nat n < 2147483648 →
  getNumber n m =
    (if decide (n ≤ length (remaining m))%nat
     then Val (dec (take n (remaining m))) else Exc PacketException,
     set_pos (pos m + Z.of_nat n) m).
Proof.
  intros Hm Hn. unfold getNumber. rewrite <-bind_assoc. unfold bind at 1.
  rewrite raw_chunk_run, Nat2Z.id by (done || lia). by case_decide.
Qed.

Lemma implements_number n : Z.of_nat n < 2147483648 → implements (getNumber n) (p_number n).
Proof.
  intros Hn m Hm. rewrite getNumber_run by done. unfold p_number.
  pose proof (length_remaining m Hm) as Hl.
  case_decide; eexists; (split; [done|]); try done.
  split_and!; [apply ready_advance; [done|lia]| |done..].
  rewrite remaining_advance by (done || lia). by rewrite Nat2Z.id.
Qed.

Lemma p_number_bound n l v rest :
  Forall is_byte l → p_number n l = Some (v, rest) → 0 ≤ v < 256 ^ Z.of_nat n.
Proof.
  unfold p_number. intros Hl. case_decide; [|done]. intros [= <- <-].
  pose proof (dec_bound (take n l) (Forall_take _ _ _ Hl)) as Hb.
  by rewrite length_take, Nat.min_l in Hb by done.
Qed.

Lemma implements_getString : implements getString p_string.
Proof.
  apply implements_bind; [by apply implements_number|].
  intros n l rest Hl Hp. apply p_number_bound in Hp; [|done].
  change (256 ^ Z.of_nat 2) with 65536 in Hp. apply implements_chunk. lia.
Qed.

Lemma implements_getXtea : implements getXtea p_xtea.
Proof.
  unfold getXtea, p_xtea, getU32.
  repeat (apply implements_bind; [by apply implements_number|intros]).
  apply implements_ret.
Qed.

Lemma implements_skipBytes n : 0 ≤ n < 2147483648 →
  implements (skipBytes n) (p_bind (p_bytes (Z.to_nat n)) (λ _, p_ret tt)).
Proof.
  intros Hn m Hm. unfold skipBytes, p_bytes, p_bind. rewrite movePos_run by done.
  pose proof (length_remaining m Hm) as Hl.
  case_decide; destruct (Z.ltb_spec (size m) (pos m + n)); try lia; eexists; (split; [done|]); [|done].
  simpl. split_and!; [apply ready_advance; [done|lia]|apply remaining_advance; [done|lia]|done..].
Qed.

Lemma remaining_cons m : ready m → pos m < size m →
  ∃ b, buffer m !! Z.to_nat (pos m) = Some b ∧ is_byte b ∧ take 1 (remaining m) = [b].
Proof.
  intros Hm Hlt. pose proof (length_remaining m Hm) as Hl. destruct Hm as [Hb Hp Hs Hc].
  destruct (lookup_lt_is_Some_2 (buffer m) (Z.to_nat (pos m))) as [b Hlook]; [lia|].
  exists b. split; [done|]. split; [by eapply Forall_lookup_1|].
  unfold remaining. rewrite (drop_S _ b) by done.
  by destruct (Z.to_nat (size m - pos m)) eqn:?; [lia|].
Qed.

Lemma implements_getByte : implements getByte (p_number 1).
Proof.
  intros m Hm. unfold getByte, p_number. unfold bind at 1 3. rewrite movePos_run by done.
  pose proof (length_remaining m Hm) as Hl.
  case_decide; destruct (Z.ltb_spec (size m) (pos m + 1)); try lia; [|by eexists].
  destruct (remaining_cons m Hm) as (b & Hlook & Hb & Htake); [lia|].
  unfold bind, get. simpl. pose proof (ready_pos m Hm). pose proof (ready_size m Hm).
  pose proof (ready_cap m Hm). rewrite u32_small by lia.
  replace (pos m + 1 - 1) with (pos m) by lia. rewrite Hlook. eexists.
  split. { rewrite Htake, <-(enc_1 b) at 1 by done. rewrite dec_enc, Z.mod_small by done. done. }
  split_and!; [apply ready_advance; [done|lia]|apply remaining_advance; [done|lia]|done..].
Qed.
End implements.

#[export] Hint Resolve implements_ret implements_number implements_chunk implements_getByte
  implements_getString implements_getXtea implements_skipBytes : prog.

(** A state just after construction whose array holds [bs] from the start. *)
Lemma ready_new bs : Forall is_byte bs → (2 ≤ length bs)%nat → Z.of_nat (length bs) < 2147483648 →
  ready (new STANDARD_IN_MESSAGE_HEADER_SIZE bs).
Proof. intros. unfold STANDARD_IN_MESSAGE_HEADER_SIZE. split; simpl; auto; lia. Qed.

Lemma getRemainingSize_run `{Platform} m : ready m →
  getRemainingSize m = (Val (size m - pos m), m).
Proof.
  intros [Hb Hp Hs Hc]. unfold getRemainingSize, assertM. run_simpl.
  rewrite (proj2 (Z.leb_le _ _)) by lia. rewrite u32_small by lia. by destruct NDEBUG.
Qed.

Lemma peek_remaining m : ready m → peekRawChunckAs (size m - pos m) m = (Val (pos m), m).
Proof.
  intros [Hb Hp Hs Hc]. unfold peekRawChunckAs. run_simpl. rewrite u32_small by lia.
  by destruct (Z.ltb_spec (size m) (pos m + (size m - pos m))); [lia|].
Qed.

Lemma setRemainingSize_run `{Platform} cap n m :
  0 ≤ pos m + n < 4294967296 →
  setRemainingSize cap n m =
    if NDEBUG || (pos m + n <=? cap) then (Val tt, set_size (pos m + n) m)
    else (Fault AssertionFailed, m).
Proof.
  intros Hn. unfold setRemainingSize, assertM. run_simpl. rewrite u32_small by done.
  by destruct NDEBUG, (_ <=? cap).
Qed.

Lemma getU16_run `{Platform} m : ready m →
  getU16 m =
    (if decide (2 ≤ length (remaining m))%nat
     then Val (dec (take 2 (remaining m))) else Exc PacketException, set_pos (pos m + 2) m).
Proof. intros Hm. by apply (getNumber_run 2). Qed.

Lemma drop_pos m : ready m → size m = Z.of_nat (length (buffer m)) →
  drop (Z.to_nat (pos m)) (buffer m) = remaining m.
Proof.
  intros Hm Hs. unfold remaining. rewrite firstn_all2; [done|]. rewrite length_drop.
  destruct Hm. lia.
Qed.

(** The bytes from [pos] on: the unread ones and the unused end of the array. *)
Lemma drop_pos_split m : ready m →
  drop (Z.to_nat (pos m)) (buffer m) = remaining m ++ drop (Z.to_nat (size m)) (buffer m).
Proof.
  intros [Hb Hp Hs Hc]. unfold remaining.
  rewrite <-(take_drop (Z.to_nat (size m - pos m)) (drop _ _)) at 1.
  rewrite drop_drop. do 2 f_equal. lia.
Qed.

(** What [parseHeaderAndGetBodyBuffer] does with the unread bytes: they start
    with the header value [n]. *)
Definition parsed_header `{Platform} (m : msg) : outcome (Z * Z) * msg :=
  let n := dec (take 2 (remaining m)) in
  let p := pos m + 2 in
  if bool_decide (length (remaining m) < 2)%nat || (n <? 8) || (15340 <? n)
  then (Exc PacketException, set_pos p m)
  else if NDEBUG || (p + n <=? 15340) then (Val (2, p + n - 2), set_size (p + n) (set_pos p m))
  else (Fault AssertionFailed, set_pos p m).

Lemma header_bound `{Platform} bs : Forall is_byte bs → (2 ≤ length bs)%nat →
  0 ≤ dec (take 2 bs) < 65536.
Proof.
  intros Hbs Hl. pose proof (dec_bound (take 2 bs) (Forall_take _ _ _ Hbs)) as Hd.
  by rewrite length_take, Nat.min_l in Hd by lia.
Qed.

Lemma parse_header_run `{Platform} m : ready m → parseHeaderAndGetBodyBuffer m = parsed_header m.
Proof.
  intros Hm. unfold parseHeaderAndGetBodyBuffer, parsed_header. unfold bind at 1.
  rewrite getU16_run by done. case_decide as Hd.
  2:{ by rewrite bool_decide_true by lia. }
  rewrite bool_decide_false by lia. cbn [orb].
  pose proof (header_bound _ (remaining_bytes m Hm) Hd) as Hn.
  unfold STANDARD_IN_MESSAGE_MAX_BODY_SIZE. set (n := dec _) in *.
  destruct (_ || _) eqn:Hrange; [done|]. apply orb_false_iff in Hrange as [H1 H2].
  apply Z.ltb_ge in H1, H2. destruct Hm as [_ Hp Hs Hc].
  unfold bind at 1. rewrite setRemainingSize_run by (simpl; lia). simpl.
  destruct (NDEBUG || _); [|done].
  unfold getBodyBuffer, assertM, STANDARD_IN_MESSAGE_HEADER_SIZE. run_simpl.
  rewrite (proj2 (Z.ltb_lt _ _)), u32_small by lia. by destruct NDEBUG.
Qed.

(** *** Checksum and decryption *)

Lemma mod8_cases (n : nat) : Z.of_nat n `mod` 8 = 0 → (n `mod` 8 = 0)%nat ∧ (n `mod` 4 = 0)%nat.
Proof.
  intros H. assert (n `mod` 8 = 0)%nat as H8 by (apply Nat2Z.inj; by rewrite Nat2Z.inj_mod).
  split; [done|]. apply Nat.Lcm0.mod_divide in H8 as [k Hk].
  apply Nat.Lcm0.mod_divide. exists (2 * k)%nat. lia.
Qed.

Lemma doChecksum_run `{Platform} m :
  ready m → (4 < length (remaining m))%nat →
  doChecksum m =
    (if dec (take 4 (remaining m)) =? Adler.rfc1950 (drop 4 (remaining m))
     then Val tt else Exc PacketException, set_pos (pos m + 4) m).
Proof.
  intros Hm Hl. pose proof (length_remaining m Hm) as Hlen.
  unfold doChecksum, getU32. unfold bind at 1. rewrite (getNumber_run 4) by done.
  rewrite decide_True by lia. change (Z.of_nat 4) with 4.
  set (m1 := set_pos (pos m + 4) m).
  assert (ready m1) as Hm1 by (apply ready_advance; [done|lia]).
  assert (remaining m1 = drop 4 (remaining m)) as Hr by by apply (remaining_advance m 4).
  assert (length (remaining m1) = length (remaining m) - 4)%nat as Hl1 by by rewrite Hr, length_drop.
  pose proof (length_remaining m1 Hm1) as Hlen1.
  unfold bind at 1. rewrite getRemainingSize_run by done.
  unfold bind at 1. rewrite peek_remaining by done.
  unfold bind at 1, get at 1. unfold bind at 1, lift.
  rewrite drop_pos_split by done.
  assert (i32 (size m1 - pos m1) = size m1 - pos m1) as ->.
  { destruct Hm1. unfold i32. rewrite u32_small by lia. by rewrite (proj2 (Z.ltb_lt _ _)) by lia. }
  rewrite Adler.adler32_ok; cycle 1.
  { apply Forall_app. split; [by apply remaining_bytes|]. by apply Forall_drop, ready_bytes. }
  { rewrite length_app. lia. }
  rewrite <-Hlen1, Nat2Z.id, take_app_length, Hr. by destruct (_ =? _).
Qed.

(** The plaintext [xteaDecrypt] leaves in place of the unread bytes. *)
Definition plaintext `{Platform} (x : Xtea.Xtea) (l : list Z) : list Z :=
  unwords (Xtea.ecb (Xtea.decrypt_block x) (words l)).

Lemma length_plaintext `{Platform} x l : (length l `mod` 4 = 0)%nat →
  length (plaintext x l) = length l.
Proof. intros Hl. unfold plaintext. by rewrite length_unwords, Xtea.length_ecb, <-length_words. Qed.

(** The message after the in-place decryption of its unread bytes. *)
Definition decrypted `{Platform} (x : Xtea.Xtea) (m : msg) : msg :=
  set_buffer (take (Z.to_nat (pos m)) (buffer m) ++ plaintext x (remaining m)
              ++ drop (Z.to_nat (size m)) (buffer m)) m.

Lemma on_words_decrypt `{Platform} x l post :
  (length l `mod` 8 = 0)%nat → Z.of_nat (length l) < 2147483648 → Forall is_byte post →
  on_words (λ ws, Xtea.decrypt x ws (Z.of_nat (length l))) (l ++ post) = Val (plaintext x l ++ post).
Proof.
  intros Hl Hb Hpost. apply Nat.Lcm0.mod_divide in Hl as [k Hk].
  assert (length l `mod` 4 = 0)%nat as H4 by (apply Nat.Lcm0.mod_divide; exists (2 * k)%nat; lia).
  pose proof (length_words l H4) as Hw. unfold on_words.
  assert (Z.of_nat (length l) / 4 = Z.of_nat (length (words l))) as Hd
    by (rewrite Hw, Nat2Z.inj_mul, Z.mul_comm, Z.div_mul; lia).
  rewrite words_app, Xtea.decrypt_run; [|done|lia|exists k; lia|done].
  rewrite unwords_app, length_app, Xtea.length_ecb, <-app_assoc. unfold plaintext. do 2 f_equal.
  replace (4 * _)%nat with (length l + 4 * length (words post))%nat by lia.
  rewrite drop_app_add. apply unwords_words_prefix. done.
Qed.

Section decryption.
Context `{Platform}.

Lemma length_decrypted x m : ready m → (length (remaining m) `mod` 4 = 0)%nat →
  length (buffer (decrypted x m)) = length (buffer m).
Proof.
  intros Hm H4. pose proof (length_remaining m Hm). destruct Hm as [Hb Hp Hs Hc].
  simpl. rewrite !length_app, length_plaintext, length_take, length_drop by done. lia.
Qed.

Lemma ready_decrypted x m : ready m → (length (remaining m) `mod` 4 = 0)%nat →
  ready (decrypted x m).
Proof.
  intros Hm H4. pose proof (length_decrypted x m Hm H4) as Hl. destruct Hm as [Hb Hp Hs Hc].
  split; rewrite ?Hl; try done. simpl. apply Forall_app; split; [by apply Forall_take|].
  apply Forall_app; split; [apply unwords_bytes|by apply Forall_drop].
Qed.

Lemma remaining_decrypted x m : ready m → (length (remaining m) `mod` 4 = 0)%nat →
  remaining (decrypted x m) = plaintext x (remaining m).
Proof.
  intros Hm H4. pose proof (length_remaining m Hm) as Hl. destruct Hm as [Hb Hp Hs Hc].
  unfold remaining at 1. simpl.
  rewrite drop_app_length' by (rewrite length_take; lia).
  by rewrite take_app_length' by (rewrite length_plaintext by done; lia).
Qed.

(** The outcome of [xteaDecrypt] on a message with [l] unread bytes. *)
Definition decrypt_outcome (x : Xtea.Xtea) (m : msg) : outcome unit * msg :=
  let l := remaining m in
  let m' := set_pos (pos m + 2) (decrypted x m) in
  let len := dec (take 2 (plaintext x l)) in
  if negb (Z.of_nat (length l) `mod` 8 =? 0) then (Exc PacketException, m)
  else if Z.of_nat (length l) =? 0 then (Exc PacketException, m')
  else if NDEBUG || (pos m + 2 + len <=? 15340) then (Val tt, set_size (pos m + 2 + len) m')
  else (Fault AssertionFailed, m').

Lemma xteaDecrypt_run x m : ready m → xteaDecrypt x m = decrypt_outcome x m.
Proof.
  intros Hm. pose proof (length_remaining m Hm) as Hl.
  unfold xteaDecrypt, decrypt_outcome. unfold bind at 1. rewrite getRemainingSize_run, <-Hl by done.
  destruct (Z.eqb_spec (Z.of_nat (length (remaining m)) `mod` 8) 0) as [H8|?]; [|done]. cbn [negb].
  destruct (mod8_cases _ H8) as [H8n H4].
  unfold bind at 1. rewrite Hl, peek_remaining by done.
  unfold bind at 1, get at 1. unfold bind at 1, lift. rewrite drop_pos_split, <-Hl by done.
  pose proof (ready_cap m Hm). pose proof (ready_size m Hm). pose proof (ready_pos m Hm).
  rewrite on_words_decrypt; [|done|lia|by apply Forall_drop, ready_bytes].
  unfold bind at 1, modify at 1. fold (decrypted x m).
  pose proof (ready_decrypted x m Hm H4) as Hd. pose proof (remaining_decrypted x m Hm H4) as Hr.
  unfold bind. rewrite getU16_run, Hr, length_plaintext by done.
  pose proof (dec_bound (take 2 (plaintext x (remaining m)))) as Hlen.
  destruct (Z.eqb_spec (Z.of_nat (length (remaining m))) 0).
  { by rewrite decide_False by lia. }
  assert (8 ≤ length (remaining m))%nat.
  { apply Nat.Lcm0.mod_divide in H8n as [k Hk]. lia. }
  rewrite decide_True by lia.
  rewrite length_take, length_plaintext, Nat.min_l in Hlen by (done || lia).
  change (256 ^ Z.of_nat 2) with 65536 in Hlen.
  apply setRemainingSize_run. simpl. specialize (Hlen (Forall_take _ _ _ (unwords_bytes _))). lia.
Qed.
End decryption.

(** *** A message object used again *)

Definition refilled (h : list Z) (m : msg) : msg := set_buffer (h ++ drop 2 (buffer m)) m.

Lemma fill_header_run m h : ready m → 2 ≤ size m → length h = 2%nat →
  fill 0 h m = (Val tt, refilled h m).
Proof.
  intros [Hb Hp Hs Hc] H2 Hh. unfold fill. run_simpl. rewrite write_inside by lia.
  simpl. by rewrite Hh.
Qed.

Lemma ready_refilled m h : ready m → 2 ≤ size m → length h = 2%nat → Forall is_byte h →
  ready (refilled h m).
Proof.
  intros [Hb Hp Hs Hc] H2 Hh Hhb. split; simpl; try done;
    rewrite ?length_app, ?length_drop, ?Hh; try lia.
  apply Forall_app; split; [done|by apply Forall_drop].
Qed.

Lemma remaining_refilled m h : 2 ≤ pos m → length h = 2%nat → remaining (refilled h m) = remaining m.
Proof.
  intros Hp Hh. unfold remaining, refilled. simpl. f_equal.
  rewrite drop_app_ge, drop_drop by lia. f_equal. lia.
Qed.

(** *** In-place replacement of the bytes from the position on *)

Definition splice (out : list Z) (m : msg) : msg :=
  set_buffer (take (Z.to_nat (pos m)) (buffer m) ++ out
              ++ drop (length out) (drop (Z.to_nat (pos m)) (buffer m))) m.

Lemma ready_splice out m : ready m → Forall is_byte out →
  (length out ≤ length (remaining m))%nat → ready (splice out m).
Proof.
  intros Hm Ho Hl. pose proof (length_remaining m Hm). destruct Hm as [Hb Hp Hs Hc].
  split; simpl; rewrite ?length_app, ?length_take, ?length_drop; try lia.
  repeat apply Forall_app_2; auto using Forall_take, Forall_drop.
Qed.

Lemma lookup_splice out m b : ready m → out !! O = Some b →
  (length out ≤ length (remaining m))%nat → buffer (splice out m) !! Z.to_nat (pos m) = Some b.
Proof.
  intros Hm Hb Hl. pose proof (length_remaining m Hm). destruct Hm as [_ Hp Hs _]. simpl.
  rewrite lookup_app_r by (rewrite length_take; lia).
  rewrite length_take, Nat.min_l, Nat.sub_diag by lia. destruct out; [done|]. by simpl in *.
Qed.

(** [setRemainingSize(v)] and [getByte()] after an in-place decryption. *)
Lemma resize_getByte_run `{Platform} out v b m :
  ready m → pos m + 128 ≤ 15340 → Forall is_byte out → length out = 128%nat →
  (128 ≤ length (remaining m))%nat → out !! O = Some b → 0 ≤ v ≤ 128 →
  (setRemainingSize STANDARD_IN_MESSAGE_MAX_BODY_SIZE v ;;; getByte) (splice out m) =
    (if v =? 0 then Exc PacketException else Val b,
     set_pos (pos m + 1) (set_size (pos m + v) (splice out m))).
Proof.
  intros Hm Hp Ho Hlo Hl Hb Hv. pose proof (length_remaining m Hm) as Hlr.
  assert (ready m) as Hm' by done. destruct Hm' as [_ Hpm Hs Hc].
  unfold bind at 1, STANDARD_IN_MESSAGE_MAX_BODY_SIZE.
  rewrite setRemainingSize_run by (simpl; lia). change (pos (splice out m)) with (pos m).
  rewrite (proj2 (Z.leb_le _ _)) by lia. rewrite orb_true_r. unfold getByte, movePos. run_simpl.
  rewrite u32_small by lia.
  destruct (Z.ltb_spec (pos m + v) (pos m + 1)), (Z.eqb_spec v 0); try lia; [done|].
  cbn [set_pos set_size pos buffer]. rewrite u32_small by lia.
  replace (pos m + 1 - 1) with (pos m) by lia. by rewrite (lookup_splice out m b) by (done || lia).
Qed.

Lemma rsaDecrypt_step `{Platform} `{Rsa.OpenSSL} rsa m v out :
  ready m → (128 ≤ length (remaining m))%nat →
  Rsa.RSA_private_decrypt rsa (take 128 (remaining m)) = (v, out) → length out = 128%nat →
  rsaDecrypt (Rsa.decrypt rsa 128) m =
    (if v =? -1 then ret false
     else let! b := setRemainingSize STANDARD_IN_MESSAGE_MAX_BODY_SIZE v ;;; getByte in
          ret (b =? 0)) (splice out m).
Proof.
  intros Hm Hl Hrsa Hout. pose proof (length_remaining m Hm) as Hlr.
  assert (ready m) as Hm' by done. destruct Hm' as [_ Hp Hs Hc].
  unfold rsaDecrypt, rsaDecrypted, peekRawChunckAs. rewrite bind_assoc. unfold bind at 1, get at 1.
  rewrite u32_small by lia. destruct (Z.ltb_spec (size m) (pos m + 128)); [lia|].
  unfold bind at 1, ret at 1. unfold bind at 1, get at 1. unfold bind at 1, lift at 1, Rsa.decrypt.
  rewrite decide_True by (rewrite length_drop; lia).
  assert (take 128 (drop (Z.to_nat (pos m)) (buffer m)) = take 128 (remaining m)) as ->
    by (apply (take_remaining m 128); lia).
  rewrite Hrsa.
  unfold bind at 1, modify at 1. cbn [fst snd]. rewrite <-Hout. fold (splice out m).
  destruct (v =? -1); [done|]. by rewrite bind_assoc.
Qed.

(** A decryption left to the crypto service, of bytes whose decryption is not empty. *)
Lemma rsaDecrypted_returns `{Platform} `{Rsa.OpenSSL} rsa m :
  ready m → (128 ≤ length (remaining m))%nat → pos m + 128 ≤ 15340 →
  (Rsa.RSA_private_decrypt rsa (take 128 (remaining m))).1 ≠ 0 →
  ∃ b m', rsaDecrypted (Rsa.decrypt rsa 128) (pos m) m = (Val b, m').
Proof.
  intros Hm Hl Hp Hv. pose proof (length_remaining m Hm) as Hlr.
  assert (rsaDecrypt (Rsa.decrypt rsa 128) m = rsaDecrypted (Rsa.decrypt rsa 128) (pos m) m) as <-.
  { destruct Hm as [_ Hpm Hs Hc]. unfold rsaDecrypt, peekRawChunckAs, get. unfold bind at 1. unfold bind at 1.
    rewrite u32_small by lia. by destruct (Z.ltb_spec (size m) (pos m + 128)); [lia|]. }
  pose proof (Rsa.private_decrypt_in_place rsa (take 128 (remaining m))) as Hout.
  pose proof (Rsa.private_decrypt_len rsa (take 128 (remaining m))) as Hlen.
  pose proof (Rsa.private_decrypt_bytes rsa (take 128 (remaining m))
    (Forall_take _ _ _ (remaining_bytes m Hm))) as Hb.
  rewrite length_take, Nat.min_l in Hout, Hlen by lia.
  destruct (Rsa.RSA_private_decrypt rsa (take 128 (remaining m))) as [v out] eqn:Hd. simpl in *.
  rewrite (rsaDecrypt_step rsa m v out) by done. destruct (Z.eqb_spec v (-1)); [by eexists _, _|].
  destruct (lookup_lt_is_Some_2 out 0) as [b Hb0]; [lia|].
  erewrite bind_val; [by eexists _, _|]. rewrite (resize_getByte_run out v b) by (done || lia).
  by rewrite (proj2 (Z.eqb_neq _ _)) by done.
Qed.

(** ** Properties *)

Section properties.
Context `{Platform}.

(** C23. The readers implement parsers of the unread bytes: numbers, raw chunks and skips
    of less than 2^31 bytes, strings (16-bit length then that many bytes), the XTEA
    key (four words, in order) and single bytes return exactly what is there and leave
    the rest, throw [PacketException] exactly when the bytes do not suffice, and never
    touch memory outside the array. *)
Theorem readers_implement_parsers :
  (∀ n, Z.of_nat n < 2147483648 → implements (getNumber n) (p_number n)) ∧
  (∀ n, 0 ≤ n < 2147483648 → implements (getStrChunck n) (p_bytes (Z.to_nat n))) ∧
  (∀ n, 0 ≤ n < 2147483648 → implements (skipBytes n) (p_bind (p_bytes (Z.to_nat n)) (λ _, p_ret tt))) ∧
  implements getByte (p_number 1) ∧ implements getString p_string ∧ implements getXtea p_xtea.
Proof. split_and!; auto with prog. Qed.

(** The bounds check of [movePos] wraps: skipping [2^32 - back] bytes moves
    the position [back] bytes backwards and raises nothing, for every [back]
    up to the position. Lengths below 2^31, which is all the callers pass,
    never do that. *)
Theorem skipBytes_wraps m back :
  ready m → 0 < back ≤ pos m →
  skipBytes (4294967296 - back) m = (Val tt, set_pos (pos m - back) m).
Proof.
  intros [Hb Hp Hs Hc] Hback. unfold skipBytes, movePos. run_simpl.
  replace (u32 (pos m + (4294967296 - back))) with (pos m - back).
  - by destruct (Z.ltb_spec (size m) (pos m - back)); [lia|].
  - unfold u32, wrap. change (2 ^ 32) with 4294967296.
    replace (pos m + (4294967296 - back)) with (pos m - back + 1 * 4294967296) by lia.
    rewrite Z_mod_plus_full. symmetry. apply Z.mod_small. lia.
Qed.

(** C39. On a newly constructed message whose header asio has filled in, with
    value [n], the header is parsed as documented: sizes below 8 or above the
    maximum are rejected, any other yields the buffer of exactly the [n] body
    bytes behind the header, all inside the array. But [setRemainingSize]
    compares [pos+bytes], which counts the two header bytes, with the maximum
    {e body} size, so a debug build aborts on the legal sizes 15339 and 15340. *)
Theorem parse_header_fresh bs :
  Forall is_byte bs → Z.of_nat (length bs) = 2 + 15340 →
  let n := dec (take 2 bs) in
  let r := parseHeaderAndGetBodyBuffer (new 2 bs) in
  (n < 8 ∨ 15340 < n → r.1 = Exc PacketException) ∧
  (8 ≤ n ≤ 15338 ∨ 15338 < n ≤ 15340 ∧ NDEBUG = true →
     r.1 = Val (2, n) ∧ ready r.2 ∧ remaining r.2 = take (Z.to_nat n) (drop 2 bs)) ∧
  (15338 < n ≤ 15340 ∧ NDEBUG = false → r.1 = Fault AssertionFailed).
Proof.
  intros Hbs Hlen n r. assert (ready (new 2 bs)) as Hm by (apply ready_new; [done|lia..]).
  assert (remaining (new 2 bs) = take 2 bs) as Hrem by (unfold remaining; simpl; by rewrite drop_0).
  assert (length (take 2 bs) = 2%nat) as Hl by (rewrite length_take; lia).
  unfold r. rewrite parse_header_run by done. unfold parsed_header.
  rewrite Hrem, take_take, Hl. change (2 `min` 2)%nat with 2%nat. fold n. simpl (pos _).
  change (0 + 2) with 2. rewrite bool_decide_false by lia. cbn [orb].
  replace (2 + n - 2) with n by lia.
  destruct (Z.ltb_spec n 8), (Z.ltb_spec 15340 n), (Z.leb_spec (2 + n) 15340);
    cbn [orb]; try lia; destruct NDEBUG; simpl; split_and!; intros;
    try done; try contra_cases.
  all: split_and!; [done| |unfold remaining; simpl; do 2 f_equal; lia].
  all: destruct Hm; split; simpl in *; auto; lia.
Qed.

(** C38. A message object that has been read from ([pos] past the header) parses
    the next header at the old position: the outcome of
    [parseHeaderAndGetBodyBuffer], and the new position and size, are the same
    whatever two bytes asio stores in the header buffer. Nothing resets [pos]
    or [size], and [Connection] receives every message into the same object. *)
Theorem reused_message_ignores_header m h h' :
  ready m → 2 ≤ pos m →
  length h = 2%nat → Forall is_byte h → length h' = 2%nat → Forall is_byte h' →
  let run h := (fill 0 h ;;; parseHeaderAndGetBodyBuffer) m in
  (run h).1 = (run h').1 ∧ pos (run h).2 = pos (run h').2 ∧ size (run h).2 = size (run h').2.
Proof.
  intros Hm Hp Hl Hb Hl' Hb' run. pose proof (ready_pos m Hm).
  assert (∀ k, length k = 2%nat → Forall is_byte k → run k = parsed_header (refilled k m)) as Hrun.
  { intros k Hk Hkb. unfold run.
    rewrite (bind_val _ _ _ _ _ (fill_header_run m k Hm ltac:(lia) Hk)).
    apply parse_header_run, ready_refilled; done || lia. }
  rewrite !Hrun by done. unfold parsed_header. rewrite !remaining_refilled by done.
  unfold refilled. simpl. by repeat case_match.
Qed.

(** [doChecksum] accepts exactly the messages whose next four bytes are the
    checksum of all the bytes behind them, and rejects any other with
    [PacketException]; in both cases the four bytes are consumed. *)
Theorem doChecksum_correct m :
  ready m → (4 < length (remaining m))%nat →
  doChecksum m =
    (if dec (take 4 (remaining m)) =? Adler.rfc1950 (drop 4 (remaining m))
     then Val tt else Exc PacketException, set_pos (pos m + 4) m).
Proof. apply doChecksum_run. Qed.

(** [xteaDecrypt], on every branch: an unread size that is not a multiple
    of 8 is rejected with the message unchanged; otherwise the unread bytes
    and nothing else are replaced by their decryption, the 16-bit length at
    their start is consumed and {e becomes the remaining size as it is}: it is
    compared with nothing but, in debug builds, the maximum body size. *)
Theorem xteaDecrypt_correct x m :
  ready m →
  xteaDecrypt x m = decrypt_outcome x m ∧
  (let b := buffer (xteaDecrypt x m).2 in
   take (Z.to_nat (pos m)) b = take (Z.to_nat (pos m)) (buffer m) ∧
   drop (Z.to_nat (size m)) b = drop (Z.to_nat (size m)) (buffer m) ∧
   length b = length (buffer m)).
Proof.
  intros Hm. rewrite xteaDecrypt_run by done. split; [done|].
  pose proof (length_remaining m Hm) as Hl.
  unfold decrypt_outcome. destruct (Z.eqb_spec (Z.of_nat (length (remaining m)) `mod` 8) 0) as [H8|?]; [|done].
  assert (length (remaining m) `mod` 4 = 0)%nat as H4 by by apply mod8_cases.
  assert (buffer (decrypted x m) =
    take (Z.to_nat (pos m)) (buffer m) ++ plaintext x (remaining m)
      ++ drop (Z.to_nat (size m)) (buffer m)) as Hb by done.
  pose proof (length_decrypted x m Hm H4) as Hlb.
  assert (∀ m', buffer m' = buffer (decrypted x m) →
    take (Z.to_nat (pos m)) (buffer m') = take (Z.to_nat (pos m)) (buffer m) ∧
    drop (Z.to_nat (size m)) (buffer m') = drop (Z.to_nat (size m)) (buffer m) ∧
    length (buffer m') = length (buffer m)) as Hall.
  { intros m' ->. destruct Hm as [_ Hp Hs _]. split_and!; [| |done]; rewrite Hb.
    - by rewrite take_app_length' by (rewrite length_take; lia).
    - rewrite app_assoc. by rewrite drop_app_length'
        by (rewrite length_app, length_take, length_plaintext by done; lia). }
  simpl negb. cbn iota. destruct (_ =? 0); [by apply Hall|]. by destruct (_ || _); apply Hall.
Qed.

(** The length a peer puts inside an encrypted frame is trusted: in a
    release build, when it exceeds the array, [xteaDecrypt] still succeeds,
    the message claims bytes it does not hold, and a later bounds-{e checked}
    read of them goes out of the array instead of throwing. *)
Theorem xteaDecrypt_overread x m :
  NDEBUG = true → ready m → (0 < length (remaining m))%nat →
  Z.of_nat (length (remaining m)) `mod` 8 = 0 →
  let len := dec (take 2 (plaintext x (remaining m))) in
  let cap := Z.of_nat (length (buffer m)) in
  cap < pos m + 2 + len →
  ∃ m', xteaDecrypt x m = (Val tt, m') ∧ size m' = pos m + 2 + len ∧
    (getStrChunck (cap - (pos m + 2) + 1) m').1 = Fault OutOfBounds.
Proof.
  intros Hdebug Hm Hl H8 len cap Hover. rewrite xteaDecrypt_run by done.
  unfold decrypt_outcome. rewrite H8, Z.eqb_refl, Hdebug. cbn [negb orb].
  destruct (Z.eqb_spec (Z.of_nat (length (remaining m))) 0); [lia|].
  eexists. split_and!; [done|done|]. fold len.
  destruct (mod8_cases _ H8) as [_ H4]. pose proof (length_decrypted x m Hm H4) as Hlb.
  pose proof (length_remaining m Hm). destruct Hm as [Hb Hp Hs Hc].
  assert (0 ≤ len < 65536) as Hlen.
  { apply header_bound; [apply unwords_bytes|]. rewrite length_plaintext by done.
    apply Nat.Lcm0.mod_divide in H4 as [k Hk]. lia. }
  set (m' := set_size _ _). unfold getStrChunck, getRawChunckAs, movePos, load. run_simpl.
  change (pos m') with (pos m + 2). change (size m') with (pos m + 2 + len).
  change (buffer m') with (buffer (decrypted x m)).
  rewrite u32_small by lia. destruct (Z.ltb_spec (pos m + 2 + len) (pos m + 2 + (cap - (pos m + 2) + 1))); [lia|].
  simpl. rewrite u32_small by lia. unfold read.
  rewrite decide_False; [done|]. unfold cap in *. rewrite Hlb. lia.
Qed.

(** [rsaDecrypt], on every branch: fewer than 128 unread bytes are rejected
    with nothing changed; otherwise exactly those 128 bytes are decrypted in
    place; on an OpenSSL error the handler gets [false]; on success the
    remaining size becomes the plaintext's and the handler learns whether its
    first byte, which is consumed, is zero. Nothing outside the array is
    touched and the message stays readable. *)
Theorem rsaDecrypt_correct `{Rsa.OpenSSL} rsa m :
  ready m → pos m + 128 ≤ 15340 →
  let r := rsaDecrypt (Rsa.decrypt rsa 128) m in
  let l := remaining m in
  let '(v, out) := Rsa.RSA_private_decrypt rsa (take 128 l) in
  ((length l < 128)%nat → r = (Exc PacketException, m)) ∧
  ((128 ≤ length l)%nat → ready (splice out m) ∧ length out = 128%nat ∧
     (v = -1 → r = (Val false, splice out m)) ∧
     (v = 0 → r.1 = Exc PacketException) ∧
     (0 < v → r = (Val (hd 0 out =? 0), set_pos (pos m + 1) (set_size (pos m + v) (splice out m)))
              ∧ ready r.2)).
Proof.
  intros Hm Hp r l. subst l. pose proof (length_remaining m Hm) as Hlr.
  pose proof (Rsa.private_decrypt_in_place rsa (take 128 (remaining m))) as Hip.
  pose proof (Rsa.private_decrypt_len rsa (take 128 (remaining m))) as Hlen.
  pose proof (Rsa.private_decrypt_bytes rsa _ (Forall_take _ 128 _ (remaining_bytes m Hm))) as Hb.
  destruct (Rsa.RSA_private_decrypt rsa (take 128 (remaining m))) as [v out] eqn:Hrsa. simpl in *.
  assert (ready m) as Hm' by done. destruct Hm' as [_ Hpm Hs Hc]. split.
  { intros Hshort. unfold r, rsaDecrypt, peekRawChunckAs. run_simpl. rewrite u32_small by lia.
    by destruct (Z.ltb_spec (size m) (pos m + 128)); [|lia]. }
  intros Hl. rewrite length_take, Nat.min_l in Hip, Hlen by lia.
  assert (ready (splice out m)) as Hsp by (apply ready_splice; [done|done|lia]).
  destruct out as [|b out'] eqn:Hout; [done|]. rewrite <-Hout in *.
  assert (out !! O = Some b) as Hhd by by rewrite Hout.
  assert (hd 0 out = b) as -> by by rewrite Hout.
  assert (0 ≤ v → r = (if v =? 0 then Exc PacketException else Val (b =? 0),
    set_pos (pos m + 1) (set_size (pos m + v) (splice out m)))) as Hr.
  { intros Hv. unfold r. rewrite (rsaDecrypt_step rsa m v out) by done.
    destruct (Z.eqb_spec v (-1)); [lia|]. unfold bind at 1.
    rewrite (resize_getByte_run out v b) by (done || lia). by destruct (v =? 0). }
  split_and!; [done|done|..]; intros Hv.
  - unfold r. rewrite (rsaDecrypt_step rsa m v out) by done. by rewrite Hv.
  - rewrite Hr by lia. by rewrite Hv.
  - rewrite Hr by lia. destruct (Z.eqb_spec v 0); [lia|]. split; [done|].
    destruct Hsp as [Hb' Hp' Hs' Hc']. split; simpl in *; auto; lia.
Qed.

End properties.

(** ** Concrete instances of the properties *)

Ltac solve_ready := split; [repeat constructor; done|simpl; lia|simpl; lia|simpl; lia].

Lemma readers_implement_parsers_witness :
  let P := x86_64 true in
  ∃ m', getString (mk [2; 0; 104; 105; 9] 0 5) = (Val [104; 105], m') ∧ remaining m' = [9].
Proof.
  intros P. destruct (readers_implement_parsers (H:=P)) as (_ & _ & _ & _ & Hs & _).
  destruct (Hs (mk [2; 0; 104; 105; 9] 0 5)) as (m' & ? & _ & ? & _); [solve_ready|].
  by exists m'.
Defined.

Lemma skipBytes_wraps_witness :
  skipBytes 4294967294 (mk [1; 2; 3] 3 3) = (Val tt, mk [1; 2; 3] 1 3).
Proof. apply (skipBytes_wraps (mk [1; 2; 3] 3 3) 2); [solve_ready|simpl; lia]. Defined.

Lemma parse_header_fresh_witness :
  let P := x86_64 false in
  let bs := [235; 59] ++ replicate (Z.to_nat 15340) 0 in (* 15339, little-endian *)
  (parseHeaderAndGetBodyBuffer (new 2 bs)).1 = Fault AssertionFailed.
Proof.
  intros P bs. apply (parse_header_fresh (H:=P) bs).
  - apply Forall_app; split; [repeat constructor; done|]. apply Forall_replicate. done.
  - reflexivity.
  - assert (dec (take 2 bs) = 15339) as -> by (vm_compute; reflexivity). split; [lia|reflexivity].
Defined.

Lemma reused_message_ignores_header_witness :
  let P := x86_64 true in
  let m := mk ([10; 0] ++ replicate 10 1 ++ replicate 30 0) 6 12 in
  (* the second header says 8 bytes, or 20: no difference *)
  ((fill 0 [8; 0] ;;; parseHeaderAndGetBodyBuffer) m).1
  = ((fill 0 [20; 0] ;;; parseHeaderAndGetBodyBuffer) m).1.
Proof.
  intros P m. apply (reused_message_ignores_header (H:=P) m [8; 0] [20; 0]);
    [solve_ready|simpl; lia|reflexivity|repeat constructor; done|reflexivity|repeat constructor; done].
Defined.

Lemma doChecksum_correct_witness :
  let P := x86_64 true in
  (doChecksum (mk [152; 3; 230; 17; 87; 105; 107; 105; 112; 101; 100; 105; 97] 0 13)).1 = Val tt.
Proof.
  intros P. rewrite (doChecksum_correct (H:=P) (mk [152; 3; 230; 17; 87; 105; 107; 105; 112; 101; 100; 105; 97] 0 13));
    [reflexivity|solve_ready|simpl; lia].
Defined.

(** An XTEA frame under the zero key whose plaintext starts with the length
    0xffff. *)
Definition hostile_frame : list Z := [172; 12; 80; 19; 121; 10; 42; 46].

Lemma xteaDecrypt_correct_witness :
  let P := x86_64 true in
  xteaDecrypt (Xtea.mk 0 0 0 0) (mk ([1; 2] ++ hostile_frame) 2 10) =
    (Val tt, mk ([1; 2] ++ [255; 255; 0; 0; 0; 0; 0; 0]) 4 65539).
Proof.
  intros P. destruct (xteaDecrypt_correct (H:=P) (Xtea.mk 0 0 0 0) (mk ([1; 2] ++ hostile_frame) 2 10)) as [-> _].
  - solve_ready.
  - vm_compute. reflexivity.
Defined.

Lemma xteaDecrypt_overread_witness :
  let P := x86_64 true in
  ∃ m', xteaDecrypt (Xtea.mk 0 0 0 0) (mk ([1; 2] ++ hostile_frame) 2 10) = (Val tt, m') ∧
    size m' = 65539 ∧ (getStrChunck 7 m').1 = Fault OutOfBounds.
Proof.
  intros P. apply (xteaDecrypt_overread (H:=P) (Xtea.mk 0 0 0 0) (mk ([1; 2] ++ hostile_frame) 2 10)).
  - reflexivity.
  - solve_ready.
  - simpl. lia.
  - reflexivity.
  - vm_compute. reflexivity.
Defined.

Lemma rsaDecrypt_correct_witness :
  let P := x86_64 true in let S := Rsa.toy_openssl in
  (rsaDecrypt (Rsa.decrypt (Rsa.mk_key None None None None None) 128)
     (mk (replicate 130 0) 2 130)).1 = Val true.
Proof.
  intros P S.
  pose proof (rsaDecrypt_correct (H:=P) (Rsa.mk_key None None None None None) (mk (replicate 130 0) 2 130)) as Hr.
  destruct Hr as [_ Hr].
  - split; [by apply Forall_replicate|simpl; lia..].
  - simpl. lia.
  - destruct Hr as (_ & _ & _ & _ & Hr); [vm_compute; lia|]. rewrite (proj1 (Hr eq_refl)). reflexivity.
Defined.


End InMessage.
