(* ===== verification/OutMessage.v ===== *)
(** * Outgoing messages (message/basicoutmessage.hpp, standardoutmessage.h/.cpp)

    The growing buffer with room for prefixes in front, the typed writers, and
    the framing of a Tibia packet: length header, XTEA encryption, checksum. *)

From S2P Require Import Prelude Platform Adler Xtea InMessage.

Module OutMessage.

(** [BasicOutMessage]: the vector and [int prefixPos]. *)
Record msg : Type := mk { buffer : list Z; prefixPos : Z }.

Definition set_buffer (b : list Z) (m : msg) : msg := mk b (prefixPos m).
Definition set_prefixPos (p : Z) (m : msg) : msg := mk (buffer m) p.

(** [buffer.size()] *)
Definition vsize (m : msg) : Z := Z.of_nat (length (buffer m)).

Section basic.
Context `{Platform}.

(** [buffer(MAX_PREFIX_SIZE + capacity)] is cut back by [resize]: the capacity
    is only reserved. *)
Definition new (MAX_PREFIX_SIZE capacity : nat) : msg :=
  mk (take MAX_PREFIX_SIZE (replicate (MAX_PREFIX_SIZE + capacity) 0)) (Z.of_nat MAX_PREFIX_SIZE).

Definition getBuffer : prog msg (list Z) :=
  let! m := get in
  match read (buffer m) (prefixPos m) (size_t (vsize m - prefixPos m)) with
  | Some bs => ret bs
  | None => fail OutOfBounds
  end.

Definition getSize : prog msg Z :=
  let! m := get in
  assertM (prefixPos m <=? i32 (vsize m)) ;;;
  ret (size_t (vsize m - prefixPos m)).

(** [addPrefix<T>] for a [T] of [n] bytes. The assertion compares an unsigned
    difference with 0. *)
Definition addPrefix (n : nat) (v : Z) : prog msg unit :=
  let! m := get in
  assertM (0 <=? size_t (prefixPos m - Z.of_nat n)) ;;;
  modify (set_prefixPos (i32 (prefixPos m - Z.of_nat n))) ;;;
  let! m := get in
  match write (buffer m) (prefixPos m) (enc n v) with
  | Some b => modify (set_buffer b)
  | None => fail OutOfBounds
  end.

Definition addByte (v : Z) : prog msg unit :=
  modify (λ m, set_buffer (buffer m ++ [v]) m).

(** [add<T>]: the vector grows by [sizeof(T)] zeros, then the value is stored. *)
Definition add (n : nat) (value : Z) : prog msg unit :=
  let! m := get in
  let pos := vsize m in
  match write (buffer m ++ replicate n 0) pos (enc n value) with
  | Some b => modify (set_buffer b)
  | None => fail OutOfBounds
  end.

Definition addU16 (v : Z) : prog msg unit := add 2 v.
Definition addU32 (v : Z) : prog msg unit := add 4 v.
Definition addU64 (v : Z) : prog msg unit := add 8 v.
(** The argument is the bit pattern of the floating-point number. *)
Definition addFloat (v : Z) : prog msg unit := add 4 v.
Definition addDouble (v : Z) : prog msg unit := add 8 v.

(** [buffer.insert(buffer.end(), first, last)] *)
Definition insert_end (bs : list Z) : prog msg unit :=
  modify (λ m, set_buffer (buffer m ++ bs) m).

(** [add(const std::string&)]: the 16-bit size is a truncation, the whole
    string is inserted. *)
Definition addString (str : list Z) : prog msg unit :=
  let strSize := u16 (Z.of_nat (length str)) in
  add 2 strSize ;;; insert_end str.

(** [add(const char* str, uint16_t strSize)]; [str] is what the pointer may access. *)
Definition addChars (str : list Z) (strSize : Z) : prog msg unit :=
  add 2 strSize ;;;
  match read str 0 strSize with
  | Some bs => insert_end bs
  | None => fail OutOfBounds
  end.

(** [add(const char* str)] on a string literal with the characters [str]. *)
Definition addCString (str : list Z) : prog msg unit :=
  addChars (str ++ [0]) (u16 (Z.of_nat (length str))).

Definition addRaw (raw : list Z) (size : Z) : prog msg unit :=
  match read raw 0 size with
  | Some bs => insert_end bs
  | None => fail OutOfBounds
  end.

Definition addPadding (count value : Z) : prog msg unit :=
  modify (λ m, set_buffer (buffer m ++ replicate (Z.to_nat count) value) m).
End basic.

Section standard.
Context `{Platform}.

Definition STANDARD_OUT_MESSAGE_PREFIX_SIZE : nat := 8.

(** [StandardOutMessage()] and [StandardOutMessage(uint8_t packetType)]. *)
Definition StandardOutMessage : msg := new STANDARD_OUT_MESSAGE_PREFIX_SIZE 1024.
Definition StandardOutMessage_with (packetType : Z) : outcome unit * msg :=
  add 1 packetType StandardOutMessage.

Definition addHeader : prog msg unit :=
  let! n := getSize in addPrefix 2 (u16 n).

Definition xteaEncrypt (xtea : Xtea.Xtea) : prog msg unit :=
  let! n := getSize in
  addPadding (8 - n `mod` 8) 51 ;;;
  let! m := get in
  let! n := getSize in
  let! region := lift (on_words (λ ws, Xtea.encrypt xtea ws n)
                        (drop (Z.to_nat (prefixPos m)) (buffer m))) in
  modify (set_buffer (take (Z.to_nat (prefixPos m)) (buffer m) ++ region)).

(** The second prefix is a [size_t], the type of [getSize()]. *)
Definition encode : prog msg unit :=
  let! m := get in
  let! n := getSize in
  let! sum := lift (Adler.adler32 (drop (Z.to_nat (prefixPos m)) (buffer m)) (i32 n)) in
  addPrefix 4 sum ;;;
  let! n := getSize in
  addPrefix sizeof_size_t n.
End standard.

(** ** Lemmas *)

(** The bytes that will be sent. *)
Definition content (m : msg) : list Z := drop (Z.to_nat (prefixPos m)) (buffer m).

Record wf (m : msg) : Prop := {
  wf_bytes : Forall is_byte (buffer m);
  wf_prefix : 0 ≤ prefixPos m ≤ vsize m;
  wf_cap : vsize m < 2147483648;
}.

Lemma length_content m : wf m → Z.of_nat (length (content m)) = vsize m - prefixPos m.
Proof. intros [Hb Hp Hc]. unfold content, vsize in *. rewrite length_drop. lia. Qed.

Section lemmas.
Context `{Platform}.

Lemma size_t_small x : 0 ≤ x < 4294967296 → size_t x = x.
Proof.
  intros Hx. apply wrap_small. pose proof size_t_at_least.
  assert (2 ^ 32 ≤ 2 ^ (8 * Z.of_nat sizeof_size_t)) by (apply Z.pow_le_mono_r; lia).
  change (2 ^ 32) with 4294967296 in *. lia.
Qed.

Lemma i32_small x : 0 ≤ x < 2147483648 → i32 x = x.
Proof. intros. unfold i32. rewrite u32_small by lia. by rewrite (proj2 (Z.ltb_lt _ _)) by lia. Qed.

Lemma i32_neg x : -2147483648 ≤ x < 0 → i32 x = x.
Proof.
  intros. unfold i32. replace (u32 x) with (x + 4294967296).
  - by destruct (Z.ltb_spec (x + 4294967296) 2147483648); lia.
  - unfold u32, wrap. change (2 ^ 32) with 4294967296.
    rewrite <-(Z_mod_plus_full x 1). rewrite Z.mod_small; lia.
Qed.

Lemma getSize_run m : wf m → getSize m = (Val (Z.of_nat (length (content m))), m).
Proof.
  intros Hm. rewrite length_content by done. destruct Hm as [Hb Hp Hc].
  unfold getSize, assertM. run_simpl. rewrite i32_small by lia.
  rewrite (proj2 (Z.leb_le _ _)) by lia. rewrite size_t_small by lia. by destruct NDEBUG.
Qed.

Lemma getBuffer_run m : wf m → getBuffer m = (Val (content m), m).
Proof.
  intros [Hb Hp Hc]. unfold getBuffer. run_simpl. rewrite size_t_small by lia. unfold vsize in *.
  rewrite read_inside by lia. unfold content. rewrite firstn_all2; [done|].
  rewrite length_drop. lia.
Qed.

(** Growing at the end. *)
Definition appended (bs : list Z) (m : msg) : msg := set_buffer (buffer m ++ bs) m.

Lemma content_appended bs m : wf m → content (appended bs m) = content m ++ bs.
Proof.
  intros [Hb Hp Hc]. unfold content, vsize in *. simpl. by rewrite drop_app_le by lia.
Qed.

Lemma wf_appended bs m : wf m → Forall is_byte bs →
  vsize m + Z.of_nat (length bs) < 2147483648 → wf (appended bs m).
Proof.
  intros [Hb Hp Hc] Hbs Hl. unfold vsize in *. split; unfold vsize; simpl; rewrite ?length_app; try lia.
  by apply Forall_app.
Qed.

Lemma appended_app a b m : appended b (appended a m) = appended (a ++ b) m.
Proof. unfold appended. simpl. by rewrite <-app_assoc. Qed.

Lemma add_run n v m : add n v m = (Val tt, appended (enc n v) m).
Proof.
  unfold add, vsize. run_simpl.
  rewrite write_inside by (rewrite ?length_app, ?length_replicate, ?length_enc; lia).
  rewrite Nat2Z.id, take_app_length, length_enc.
  rewrite drop_ge by (rewrite length_app, length_replicate; lia).
  by rewrite app_nil_r.
Qed.

Lemma addString_run s m :
  addString s m = (Val tt, appended (enc 2 (u16 (Z.of_nat (length s))) ++ s) m).
Proof.
  unfold addString, insert_end. erewrite bind_val by apply add_run.
  unfold modify. by rewrite <-appended_app.
Qed.

Lemma addCString_run s m : Z.of_nat (length s) < 65536 →
  addCString s m = (Val tt, appended (enc 2 (Z.of_nat (length s)) ++ s) m).
Proof.
  intros Hs. unfold addCString, addChars, u16. rewrite wrap_small by (change (2 ^ 16) with 65536; lia).
  erewrite bind_val by apply add_run. rewrite read_inside by (rewrite ?length_app; simpl; lia).
  rewrite Nat2Z.id. change (Z.to_nat 0) with O. rewrite drop_0, take_app_length.
  unfold insert_end, modify. by rewrite <-appended_app.
Qed.

Lemma addPadding_run k v m : addPadding k v m = (Val tt, appended (replicate (Z.to_nat k) v) m).
Proof. done. Qed.

(** Growing at the front. *)
Definition prefixed (n : nat) (v : Z) (m : msg) : msg :=
  mk (take (Z.to_nat (prefixPos m) - n) (buffer m) ++ enc n v ++ content m)
     (prefixPos m - Z.of_nat n).

Lemma content_prefixed n v m : wf m → Z.of_nat n ≤ prefixPos m →
  content (prefixed n v m) = enc n v ++ content m.
Proof.
  intros [Hb Hp Hc] Hn. unfold content at 1. simpl. unfold vsize in *.
  by rewrite drop_app_length' by (rewrite length_take; lia).
Qed.

Lemma wf_prefixed n v m : wf m → Z.of_nat n ≤ prefixPos m → wf (prefixed n v m).
Proof.
  intros Hm Hn. pose proof (length_content m Hm). destruct Hm as [Hb Hp Hc]. unfold vsize in *.
  split; unfold vsize; simpl; rewrite ?length_app, ?length_take, ?length_enc; try lia.
  repeat apply Forall_app_2; auto using Forall_take, enc_bytes. by apply Forall_drop.
Qed.

(** The compiled-in assertion holds always. *)
Lemma addPrefix_run n v m :
  wf m → Z.of_nat n ≤ 64 →
  addPrefix n v m =
    if Z.of_nat n <=? prefixPos m then (Val tt, prefixed n v m)
    else (Fault OutOfBounds, set_prefixPos (prefixPos m - Z.of_nat n) m).
Proof.
  intros [Hb Hp Hc] Hn. unfold addPrefix. unfold bind at 1, get at 1.
  rewrite assertM_true
    by (apply Z.leb_le, wrap_bound; pose proof size_t_at_least; lia).
  run_simpl.
  assert (i32 (prefixPos m - Z.of_nat n) = prefixPos m - Z.of_nat n) as ->.
  { destruct (Z.leb_spec (Z.of_nat n) (prefixPos m)); [apply i32_small|apply i32_neg]; lia. }
  unfold vsize in *. destruct (Z.leb_spec (Z.of_nat n) (prefixPos m)).
  - rewrite write_inside by (rewrite ?length_enc; lia). rewrite length_enc.
    unfold prefixed, content, set_buffer, set_prefixPos. simpl.
    replace (Z.to_nat (prefixPos m - Z.of_nat n) + n)%nat with (Z.to_nat (prefixPos m)) by lia.
    by replace (Z.to_nat (prefixPos m - Z.of_nat n)) with (Z.to_nat (prefixPos m) - n)%nat by lia.
  - unfold write. by rewrite decide_False by lia.
Qed.

Lemma wf_StandardOutMessage : wf StandardOutMessage.
Proof. split; [by repeat constructor|done|done]. Qed.
End lemmas.

(** *** Encryption *)

Definition padding (n : nat) : list Z := replicate (8 - n mod 8) 51.

Definition ciphertext `{Platform} (x : Xtea.Xtea) (l : list Z) : list Z :=
  unwords (Xtea.ecb (Xtea.encrypt_block x) (words l)).

Section encryption.
Context `{Platform}.

Lemma length_padded (l : list Z) : (length (l ++ padding (length l)) `mod` 8 = 0)%nat.
Proof.
  rewrite length_app. unfold padding. rewrite length_replicate.
  pose proof (Nat.mod_upper_bound (length l) 8). pose proof (Nat.div_mod_eq (length l) 8).
  apply Nat.Lcm0.mod_divide. exists (S (length l / 8)). lia.
Qed.

Lemma padded_bytes l : Forall is_byte l → Forall is_byte (l ++ padding (length l)).
Proof. intros. apply Forall_app. split; [done|]. by apply Forall_replicate. Qed.

Lemma length_ciphertext x l : (length l `mod` 4 = 0)%nat → length (ciphertext x l) = length l.
Proof. intros Hl. unfold ciphertext. by rewrite length_unwords, Xtea.length_ecb, <-length_words. Qed.

Lemma plaintext_ciphertext x l : Forall is_byte l → (length l `mod` 4 = 0)%nat →
  InMessage.plaintext x (ciphertext x l) = l.
Proof.
  intros Hb Hl. unfold InMessage.plaintext, ciphertext.
  assert (Forall Xtea.is_word (words l)) as Hw by by apply words_bound.
  rewrite words_unwords by (by apply (Xtea.ecb_words (Xtea.encrypt_block x)); [apply Xtea.block_words_encrypt|]).
  rewrite (Xtea.ecb_inverse (Xtea.encrypt_block x) (Xtea.decrypt_block x) _
    (Xtea.decrypt_encrypt_block x)) by done.
  by apply unwords_words.
Qed.

Lemma on_words_encrypt x l :
  (length l `mod` 8 = 0)%nat → Z.of_nat (length l) < 2147483648 →
  on_words (λ ws, Xtea.encrypt x ws (Z.of_nat (length l))) l = Val (ciphertext x l).
Proof.
  intros Hl Hb. apply Nat.Lcm0.mod_divide in Hl as [k Hk].
  assert (length l `mod` 4 = 0)%nat as H4 by (apply Nat.Lcm0.mod_divide; exists (2 * k)%nat; lia).
  pose proof (length_words l H4) as Hw. unfold on_words.
  assert (Z.of_nat (length l) / 4 = Z.of_nat (length (words l))) as Hd
    by (rewrite Hw, Nat2Z.inj_mul, Z.mul_comm, Z.div_mul; lia).
  pose proof (Xtea.encrypt_run x (words l) [] (Z.of_nat (length l)) Hd) as He.
  rewrite !app_nil_r in He. rewrite He by (lia || exists k; lia).
  rewrite Xtea.length_ecb, drop_ge, app_nil_r by lia. done.
Qed.

(** The message with its content replaced. *)
Definition with_content (l : list Z) (m : msg) : msg :=
  set_buffer (take (Z.to_nat (prefixPos m)) (buffer m) ++ l) m.

Lemma content_with_content l m : wf m → content (with_content l m) = l.
Proof.
  intros [Hb Hp Hc]. unfold content, vsize in *. simpl.
  by rewrite drop_app_length' by (rewrite length_take; lia).
Qed.

Lemma wf_with_content l m : wf m → Forall is_byte l →
  prefixPos m + Z.of_nat (length l) < 2147483648 → wf (with_content l m).
Proof.
  intros [Hb Hp Hc] Hl Hlen. unfold vsize in *.
  split; unfold vsize; simpl; rewrite ?length_app, ?length_take; try lia.
  apply Forall_app; split; [by apply Forall_take|done].
Qed.

Lemma xteaEncrypt_run x m :
  wf m → vsize m + 8 < 2147483648 →
  xteaEncrypt x m =
    (Val tt, with_content (ciphertext x (content m ++ padding (length (content m)))) m).
Proof.
  intros Hm Hcap. unfold xteaEncrypt. unfold bind at 1. rewrite getSize_run by done.
  set (n := length (content m)). set (k := 8 - Z.of_nat n `mod` 8).
  assert (replicate (Z.to_nat k) 51 = padding n) as Hpad.
  { unfold k, padding. f_equal. pose proof (Nat.mod_upper_bound n 8).
    change 8 with (Z.of_nat 8) at 2. rewrite <-Nat2Z.inj_mod. lia. }
  unfold bind at 1. rewrite addPadding_run, Hpad.
  assert (wf (appended (padding n) m)) as Hm'.
  { apply wf_appended; [done|by apply Forall_replicate|]. unfold padding. rewrite length_replicate. lia. }
  unfold bind at 1, get at 1. unfold bind at 1. rewrite getSize_run by done.
  fold (content (appended (padding n) m)). rewrite content_appended by done.
  pose proof (length_content _ Hm') as Hl. rewrite content_appended in Hl by done.
  pose proof (wf_cap _ Hm'). pose proof (wf_prefix _ Hm').
  unfold bind at 1, lift. rewrite on_words_encrypt by (apply length_padded || lia).
  unfold modify, with_content, set_buffer, appended. simpl. destruct Hm as [_ Hp _].
  unfold vsize in Hp. by rewrite take_app_le by lia.
Qed.
End encryption.

(** What [addHeader] and [xteaEncrypt] turn a payload into. *)
Definition framed `{Platform} (payload : list Z) : list Z :=
  let l := enc 2 (Z.of_nat (length payload)) ++ payload in l ++ padding (length l).

Section frames.
Context `{Platform}.

Lemma framed_mod8 p : (length (framed p) `mod` 8 = 0)%nat.
Proof. apply length_padded. Qed.

Lemma framed_mod4 p : (length (framed p) `mod` 4 = 0)%nat.
Proof.
  apply InMessage.mod8_cases. change 8 with (Z.of_nat 8) at 1.
  by rewrite <-Nat2Z.inj_mod, framed_mod8.
Qed.

Lemma framed_bytes p : Forall is_byte p → Forall is_byte (framed p).
Proof. intros. apply padded_bytes, Forall_app. split; [apply enc_bytes|done]. Qed.

Lemma length_framed p :
  (length p + 2 < length (framed p) ≤ length p + 10)%nat.
Proof.
  unfold framed, padding. rewrite !length_app, length_replicate, length_enc.
  pose proof (Nat.mod_upper_bound (2 + length p) 8). lia.
Qed.

(** The header, the payload, and where each is found. *)
Lemma take_framed p : take 2 (framed p) = enc 2 (Z.of_nat (length p)).
Proof.
  unfold framed. rewrite <-app_assoc. by rewrite take_app_length' by by rewrite length_enc.
Qed.

Lemma payload_framed p : take (length p) (drop 2 (framed p)) = p.
Proof.
  unfold framed. rewrite <-app_assoc. rewrite drop_app_length' by by rewrite length_enc.
  apply take_app_length.
Qed.

Lemma addHeader_xteaEncrypt_run x m :
  wf m → 2 ≤ prefixPos m ≤ 8 → Z.of_nat (length (content m)) < 65536 →
  ∃ m', (addHeader ;;; xteaEncrypt x) m = (Val tt, m') ∧ wf m' ∧
        content m' = ciphertext x (framed (content m)).
Proof.
  intros Hm Hp Hl. pose proof (length_content m Hm) as Hlc.
  unfold addHeader. rewrite bind_assoc. unfold bind at 1. rewrite getSize_run by done.
  unfold u16. rewrite wrap_small by (change (2 ^ 16) with 65536; lia).
  unfold bind. rewrite addPrefix_run by (done || lia).
  change (Z.of_nat 2) with 2. rewrite (proj2 (Z.leb_le _ _)) by lia.
  set (m1 := prefixed 2 _ m). assert (wf m1) as Hm1 by (apply wf_prefixed; [done|lia]).
  assert (content m1 = enc 2 (Z.of_nat (length (content m))) ++ content m) as Hc1
    by (apply content_prefixed; [done|lia]).
  pose proof (length_content m1 Hm1) as Hl1. rewrite Hc1, length_app, length_enc in Hl1.
  assert (prefixPos m1 = prefixPos m - 2) as Hp1 by done.
  rewrite xteaEncrypt_run by (done || lia). eexists. split; [done|].
  rewrite content_with_content, Hc1 by done. split; [|done].
  apply wf_with_content; [done|apply unwords_bytes|].
  pose proof (length_framed (content m)) as Hf.
  fold (framed (content m)). rewrite length_ciphertext by apply framed_mod4. lia.
Qed.

(** The receiving side, on the remaining bytes of a message. *)
Lemma decrypt_framed x p i :
  InMessage.ready i → InMessage.remaining i = ciphertext x (framed p) →
  Forall is_byte p → Z.of_nat (length p) < 65536 →
  NDEBUG = true ∨ InMessage.pos i + 2 + Z.of_nat (length p) ≤ 15340 →
  ∃ i', InMessage.xteaDecrypt x i = (Val tt, i') ∧ InMessage.ready i' ∧
        InMessage.remaining i' = p.
Proof.
  intros Hi Hr Hp Hl Hdebug. pose proof (length_framed p) as Hf.
  pose proof (InMessage.length_remaining i Hi) as Hlr.
  rewrite InMessage.xteaDecrypt_run by done. unfold InMessage.decrypt_outcome.
  assert (InMessage.plaintext x (InMessage.remaining i) = framed p) as Hpl.
  { rewrite Hr. apply plaintext_ciphertext; [by apply framed_bytes|apply framed_mod4]. }
  assert (length (InMessage.remaining i) = length (framed p)) as Hlf.
  { rewrite Hr. apply length_ciphertext, framed_mod4. }
  rewrite Hpl, take_framed, dec_enc, Hlf.
  change (256 ^ Z.of_nat 2) with 65536. rewrite (Z.mod_small (Z.of_nat (length p))) by lia.
  change 8 with (Z.of_nat 8). rewrite <-Nat2Z.inj_mod, framed_mod8. cbn [negb Z.eqb Z.of_nat].
  destruct (Z.eqb_spec (Z.of_nat (length (framed p))) 0); [lia|].
  assert (NDEBUG || (InMessage.pos i + 2 + Z.of_nat (length p) <=? 15340) = true) as ->.
  { destruct Hdebug as [->|?]; [done|]. apply orb_true_iff. right. by apply Z.leb_le. }
  assert ((length (InMessage.remaining i) `mod` 4 = 0)%nat) as H4 by (rewrite Hlf; apply framed_mod4).
  pose proof (InMessage.ready_decrypted x i Hi H4) as Hd.
  pose proof (InMessage.remaining_decrypted x i Hi H4) as Hrd. rewrite Hpl in Hrd.
  assert (InMessage.ready (InMessage.set_pos (InMessage.pos i + 2) (InMessage.decrypted x i))) as Hd2
    by (apply (InMessage.ready_advance (InMessage.decrypted x i) 2); [done|simpl; lia]).
  eexists. split; [done|]. split.
  - destruct Hd2 as [Hb Hp2 Hs Hc], Hi as [_ ? ? _]. split; simpl in *; auto; lia.
  - assert (0 ≤ InMessage.pos i) as Hpos by apply Hi.
    rewrite <-(payload_framed p) at 2. rewrite <-Hrd.
    rewrite <-(InMessage.take_drop_remaining (InMessage.decrypted x i) 2 (length p));
      [|done|simpl; lia].
    unfold InMessage.remaining. cbn [InMessage.pos InMessage.size InMessage.buffer
      InMessage.set_pos InMessage.set_size].
    by replace (Z.to_nat (_ - (InMessage.pos i + 2))) with (length p) by lia.
Qed.
End frames.

(** ** Properties *)

Section properties.
Context `{Platform}.

(** C24. The writers append: numbers of every width their bytes, strings their
    16-bit length and characters, padding as many times its fill as asked for, and
    nothing already in the message moves. What they append to a message is read back by
    the readers of [InMessage]: numbers modulo their width, padding as a chunk of its
    fill, and strings below 65536 characters unchanged. A longer string is inserted whole behind a truncated
    length, so the reader gets only its first [length mod 65536] characters
    and is left in the middle of it. *)
Theorem writers_roundtrip m rest :
  wf m →
  (∀ n v, (add n v m).1 = Val tt ∧ ∃ w, content (add n v m).2 = content m ++ w ∧
     InMessage.p_number n (w ++ rest) = Some (v `mod` 256 ^ Z.of_nat n, rest)) ∧
  (∀ s, (addString s m).1 = Val tt ∧ ∃ w, content (addString s m).2 = content m ++ w ∧
     let k := Z.to_nat (u16 (Z.of_nat (length s))) in
     InMessage.p_string (w ++ rest) = Some (take k s, drop k s ++ rest)) ∧
  (∀ s, Z.of_nat (length s) < 65536 → u16 (Z.of_nat (length s)) = Z.of_nat (length s) ∧
     addCString s m = addString s m) ∧
  (∀ count v, 0 ≤ count → (addPadding count v m).1 = Val tt ∧
     let w := replicate (Z.to_nat count) v in
     Z.of_nat (length w) = count ∧ content (addPadding count v m).2 = content m ++ w ∧
     InMessage.p_bytes (Z.to_nat count) (w ++ rest) = Some (w, rest)).
Proof.
  intros Hm. split_and!.
  - intros n v. rewrite add_run. split; [done|]. exists (enc n v). split; [by apply content_appended|].
    unfold InMessage.p_number. rewrite decide_True by (rewrite length_app, length_enc; lia).
    by rewrite take_app_length', drop_app_length', dec_enc by by rewrite length_enc.
  - intros s. rewrite addString_run. split; [done|]. eexists. split; [by apply content_appended|].
    set (k := u16 (Z.of_nat (length s))). unfold InMessage.p_string, InMessage.p_bind, InMessage.p_number.
    rewrite decide_True by (rewrite !length_app, length_enc; lia).
    rewrite <-app_assoc, take_app_length', drop_app_length', dec_enc by by rewrite length_enc.
    change (256 ^ Z.of_nat 2) with 65536.
    pose proof (u16_bound (Z.of_nat (length s))) as Hk. fold k in Hk. rewrite Z.mod_small by done.
    assert (Z.to_nat k ≤ length s)%nat.
    { assert (k ≤ Z.of_nat (length s)); [|lia]. apply Z.mod_le; lia. }
    unfold InMessage.p_bytes. rewrite decide_True by (rewrite length_app; lia).
    by rewrite take_app_le, drop_app_le by done.
  - intros s Hs. assert (u16 (Z.of_nat (length s)) = Z.of_nat (length s)) as Hu.
    { apply wrap_small. change (2 ^ 16) with 65536. lia. }
    split; [done|]. by rewrite addCString_run, addString_run, Hu by done.
  - intros count v Hc. rewrite addPadding_run. split; [done|]. simpl.
    assert (length (replicate (Z.to_nat count) v) = Z.to_nat count) as Hl by apply length_replicate.
    split; [lia|]. split; [by apply content_appended|].
    unfold InMessage.p_bytes. rewrite decide_True by (rewrite length_app; lia).
    by rewrite take_app_length', drop_app_length'.
Qed.

(** A prefix is written in front of the content exactly when there is room
    for it; otherwise the write goes in front of the vector, in debug builds
    too, because the assertion that should prevent it compares an unsigned
    value with zero. *)
Theorem addPrefix_correct n v m :
  wf m → Z.of_nat n ≤ 64 →
  (Z.of_nat n ≤ prefixPos m →
     ∃ m', addPrefix n v m = (Val tt, m') ∧ wf m' ∧ content m' = enc n v ++ content m) ∧
  (prefixPos m < Z.of_nat n → (addPrefix n v m).1 = Fault OutOfBounds).
Proof.
  intros Hm Hn. rewrite addPrefix_run by done.
  split; intros Hp; destruct (Z.leb_spec (Z.of_nat n) (prefixPos m)); try lia; [|done].
  eexists. split; [done|]. split; [by apply wf_prefixed|by apply content_prefixed].
Qed.

(** C40. Sending a packet is always undefined behaviour: on every platform,
    encoding a non-empty message whose length header has been added runs out
    of the 8 prefix bytes, because after the header (2) and the checksum (4)
    the packet size is written as a [size_t] and not in the 2 bytes left. *)
Theorem encode_out_of_bounds m :
  wf m → prefixPos m = 8 - 2 → (0 < length (content m))%nat →
  (sizeof_size_t ≤ 64)%nat →
  (encode m).1 = Fault OutOfBounds.
Proof.
  intros Hm Hp Hl Hsz. pose proof (length_content m Hm) as Hlc.
  assert (wf m) as Hm' by done. destruct Hm' as [Hb _ Hc].
  unfold encode. unfold bind at 1, get at 1. unfold bind at 1. rewrite getSize_run by done.
  unfold bind at 1, lift. fold (content m). rewrite i32_small by lia.
  rewrite Adler.adler32_ok by (lia || by apply Forall_drop).
  unfold bind at 1. rewrite addPrefix_run, Hp by (done || lia). cbn [Z.leb Z.of_nat].
  change (Z.of_nat 4 <=? 8 - 2) with true. cbn iota.
  set (m1 := prefixed 4 _ m). assert (wf m1) as Hm1 by (apply wf_prefixed; [done|lia]).
  unfold bind. rewrite getSize_run by done. rewrite addPrefix_run by (done || lia).
  assert (prefixPos m1 = 2) as -> by (unfold m1; simpl; lia).
  pose proof size_t_at_least. by destruct (Z.leb_spec (Z.of_nat sizeof_size_t) 2); [lia|].
Qed.

(** C5. What [StandardProtocol::send] does to a payload of at most 65535 bytes
    is undone by [StandardInMessage::xteaDecrypt] under the same key: the
    frame is whole XTEA blocks, and from any received message whose unread
    bytes are that frame the unread bytes become the payload again. *)
Theorem frame_roundtrip x m :
  wf m → 2 ≤ prefixPos m ≤ 8 → Z.of_nat (length (content m)) < 65536 →
  ∃ m', (addHeader ;;; xteaEncrypt x) m = (Val tt, m') ∧ wf m' ∧
    (length (content m') `mod` 8 = 0)%nat ∧
    ∀ i, InMessage.ready i → InMessage.remaining i = content m' →
      NDEBUG = true ∨ InMessage.pos i + 2 + Z.of_nat (length (content m)) ≤ 15340 →
      ∃ i', InMessage.xteaDecrypt x i = (Val tt, i') ∧ InMessage.ready i' ∧
            InMessage.remaining i' = content m.
Proof.
  intros Hm Hp Hl. destruct (addHeader_xteaEncrypt_run x m Hm Hp Hl) as (m' & Hrun & Hm' & Hc).
  exists m'. split_and!; [done|done| |].
  - rewrite Hc, length_ciphertext by apply framed_mod4. apply framed_mod8.
  - intros i Hi Hr Hd. eapply decrypt_framed; try done; [by rewrite <-Hc|].
    destruct Hm. by apply Forall_drop.
Qed.
End properties.

(** ** Witnesses *)

(** A message with the two bytes "hi" and all eight prefix bytes free. *)
Definition hi_message : msg := mk (replicate 8 0 ++ [104; 105]) 8.

Lemma wf_hi : wf hi_message.
Proof. split; vm_compute; repeat constructor; discriminate. Qed.

Lemma writers_roundtrip_witness :
  let P := x86_64 false in
  (addString [104; 105] hi_message).1 = Val tt ∧
  addCString [104; 105] hi_message = addString [104; 105] hi_message ∧
  content (addPadding 3 51 hi_message).2 = [104; 105; 51; 51; 51].
Proof.
  intros P. destruct (writers_roundtrip (H:=P) hi_message [] wf_hi) as (_ & Hs & Hc & Hp).
  split; [by apply Hs|]. split; [apply Hc; simpl; lia|]. by apply (Hp 3 51).
Defined.

Lemma addPrefix_correct_witness :
  let P := x86_64 false in
  (∃ m', addPrefix 2 2 hi_message = (Val tt, m') ∧ content m' = [2; 0; 104; 105]) ∧
  (addPrefix 2 2 (mk [104; 105] 0)).1 = Fault OutOfBounds.
Proof.
  intros P. split.
  - destruct (addPrefix_correct (H:=P) 2 2 hi_message wf_hi) as [Hin _]; [lia|].
    destruct Hin as (m' & Hrun & _ & Hc); [simpl; lia|]. exists m'. by rewrite Hrun, Hc.
  - destruct (addPrefix_correct (H:=P) 2 2 (mk [104; 105] 0)) as [_ Hout].
    + split; vm_compute; repeat constructor; discriminate.
    + lia.
    + apply Hout. simpl. lia.
Defined.

Lemma encode_out_of_bounds_witness :
  let P := x86_64 false in
  ((addHeader ;;; encode) hi_message).1 = Fault OutOfBounds.
Proof.
  intros P. assert (addHeader hi_message = (Val tt, mk (replicate 6 0 ++ [2; 0; 104; 105]) 6)) as Hh
    by (vm_compute; reflexivity).
  unfold bind. rewrite Hh.
  apply (encode_out_of_bounds (H:=P) (mk (replicate 6 0 ++ [2; 0; 104; 105]) 6)).
  - split; vm_compute; repeat constructor; discriminate.
  - reflexivity.
  - simpl. lia.
  - vm_compute. lia.
Defined.

Lemma frame_roundtrip_witness :
  let P := x86_64 false in let x := Xtea.mk 1 2 3 4 in
  ∃ m', (addHeader ;;; xteaEncrypt x) hi_message = (Val tt, m') ∧
    (length (content m') `mod` 8 = 0)%nat.
Proof.
  intros P x. destruct (frame_roundtrip (H:=P) x hi_message wf_hi) as (m' & Hrun & _ & Hl & _).
  - simpl. lia.
  - reflexivity.
  - exists m'. exact (conj Hrun Hl).
Defined.

End OutMessage.
