(* ===== verification/MessageTests.v ===== *)
(** * The unit tests of outgoing messages (otservpptest/message/basicoutmessagetest.cpp)

    The typed tests as programs over the model of BasicOutMessage, for the four widths
    and for any results of the random number generator. *)

From S2P Require Import Prelude Platform OutMessage.

Module MessageTests.

(** The test types: a writer and the size of its [ValueType]. *)
Inductive TestType : Type := Byte | U16 | U32 | U64.
Definition valueSize (T : TestType) : nat :=
  match T with Byte => 1 | U16 => 2 | U32 => 4 | U64 => 8 end.

Section tests.
Context `{Platform} (T : TestType).
(** The results of [std::rand], in order; [RAND_MAX] is at most the largest [int]. *)
Context (std_rand : nat → Z).
Abbreviation msg := OutMessage.msg.
Abbreviation test := (prog msg unit).

(** A number converted to the [ValueType]. *)
Definition ValueType (x : Z) : Z := wrap (8 * Z.of_nat (valueSize T)) x.
Definition rand (i : nat) : Z := ValueType (std_rand i).

Definition addFunc (v : Z) : test :=
  match T with
  | Byte => OutMessage.addByte v
  | U16 => OutMessage.addU16 v
  | U32 => OutMessage.addU32 v
  | U64 => OutMessage.addU64 v
  end.

(** [operator<<] and [addPrefix] at the [ValueType]. *)
Definition shift_left (v : Z) : test := OutMessage.add (valueSize T) v.
Definition addPrefix (v : Z) : test := OutMessage.addPrefix (valueSize T) v.

Definition TestMessage : msg := OutMessage.new 100 (Z.to_nat 10000).

Definition expect (b : bool) : test := if b then ret tt else throw (StdException "ASSERT").

Definition checkSize (expected : Z) : test :=
  let! n := OutMessage.getSize in
  expect (expected =? n) ;;;
  let! b := OutMessage.getBuffer in
  expect (expected =? Z.of_nat (length b)).

(** [getBuffer()[i]] *)
Definition getBuffer_at (i : nat) : prog msg Z :=
  let! b := OutMessage.getBuffer in
  match read b (Z.of_nat (i * valueSize T)) (Z.of_nat (valueSize T)) with
  | Some bs => ret (dec bs)
  | None => fail OutOfBounds
  end.
Definition expect_at (i : nat) (v : Z) : test := let! x := getBuffer_at i in expect (v =? x).

Definition size : Z := Z.of_nat (valueSize T).
Definition value : Z := rand 0.
Definition value2 : Z := ValueType (value + size).
Definition value3 : Z := ValueType (value2 / 8).

Definition IsEmptyOnStart : test := checkSize 0.
Definition IncrementsSizeWhenAddingValue : test := addFunc value ;;; checkSize size.
Definition AddsValueWithLeftShiftOperator : test := shift_left value ;;; checkSize size.
Definition IncrementsSizeWhenAddingPrefix : test := addPrefix value ;;; checkSize size.
Definition InsertsIntoBufferAddedValues : test := shift_left value ;;; expect_at 0 value.

Definition PrependedPrefixesToBuffer : test :=
  addPrefix value ;;; addPrefix value2 ;;;
  checkSize (size * 2) ;;;
  expect_at 0 value2 ;;; expect_at 1 value.

(** The vector of [min((int)value, 10000)] random values; a negative count is
    converted to a length that no vector can have. *)
Definition values : list Z := map (λ i, rand (S i)) (seq 0 (Z.to_nat (Z.min (i32 value) 10000))).

Definition AddsRawDataCorrectly : test :=
  (if i32 value <? 0 then throw (StdException "length_error") else ret tt) ;;;
  OutMessage.addRaw (concat (map (enc (valueSize T)) values)) (Z.of_nat (length values) * size) ;;;
  checkSize (Z.of_nat (length values) * size) ;;;
  run_all (λ '(i, v), expect_at i v) (zip (seq 0 (length values)) values).

Definition AddsDataAfterPrefixes : test :=
  shift_left value ;;; addPrefix value2 ;;; shift_left value3 ;;;
  checkSize (size * 3) ;;;
  expect_at 0 value2 ;;; expect_at 1 value ;;; expect_at 2 value3.

(** ** Lemmas *)

(** A message in order whose content is a sequence of values. *)
Definition holds (vs : list Z) (m : msg) : Prop :=
  OutMessage.wf m ∧ OutMessage.content m = concat (map (enc (valueSize T)) vs) ∧
  OutMessage.vsize m ≤ 100 + 8 * Z.of_nat (length vs) ∧
  100 - 8 * Z.of_nat (length vs) ≤ OutMessage.prefixPos m.
Definition in_range (v : Z) : Prop := 0 ≤ v < 2 ^ (8 * size).

Lemma ValueType_range x : in_range (ValueType x).
Proof. unfold in_range, size, ValueType. apply wrap_bound. lia. Qed.

Lemma size_bound : (1 ≤ valueSize T ≤ 8)%nat.
Proof. destruct T; simpl; lia. Qed.

Lemma length_values vs : length (concat (map (enc (valueSize T)) vs)) = (length vs * valueSize T)%nat.
Proof. induction vs; simpl; [done|]. rewrite length_app, length_enc, IHvs. done. Qed.

Lemma holds_TestMessage : holds [] TestMessage.
Proof.
  unfold holds, TestMessage, OutMessage.new, OutMessage.content, OutMessage.vsize.
  rewrite take_replicate, Nat.min_l by lia.
  split; [split|]; simpl; try done; repeat constructor; done.
Qed.

Lemma returns_shift_left vs v : Z.of_nat (length vs) < 100000 →
  returns (holds vs) (shift_left v) (λ _, holds (vs ++ [v])).
Proof.
  intros Hl m (Hm & Hc & Hv & Hp). pose proof size_bound.
  unfold shift_left. rewrite OutMessage.add_run. eexists tt, _. split; [done|].
  split_and!.
  - apply OutMessage.wf_appended; [done|apply enc_bytes|rewrite length_enc; lia].
  - rewrite OutMessage.content_appended, Hc, map_app, concat_app by done. simpl. by rewrite app_nil_r.
  - unfold OutMessage.vsize in *. simpl. rewrite !length_app, length_enc. simpl. lia.
  - rewrite length_app. simpl. lia.
Qed.

Lemma returns_addFunc vs v : in_range v → Z.of_nat (length vs) < 100000 →
  returns (holds vs) (addFunc v) (λ _, holds (vs ++ [v])).
Proof.
  intros Hr Hl. pose proof (returns_shift_left vs v Hl) as Hs.
  assert (∀ m, addFunc v m = shift_left v m) as He; [|intros m Hm; rewrite He; by apply Hs].
  intros m. unfold addFunc, shift_left, in_range, size in *. destruct T; try done.
  simpl valueSize. rewrite OutMessage.add_run, enc_1; [done|]. unfold is_byte. simpl in Hr. lia.
Qed.

Lemma returns_addPrefix vs v : (length vs ≤ 10)%nat →
  returns (holds vs) (addPrefix v) (λ _, holds (v :: vs)).
Proof.
  intros Hl m (Hm & Hc & Hv & Hp). pose proof size_bound.
  unfold addPrefix. rewrite OutMessage.addPrefix_run by (done || lia).
  rewrite (proj2 (Z.leb_le _ _)) by lia. eexists tt, _. split; [done|].
  split_and!.
  - by apply OutMessage.wf_prefixed; [|lia].
  - rewrite OutMessage.content_prefixed, Hc by (done || lia). done.
  - pose proof (OutMessage.length_content m Hm) as Hlen.
    unfold OutMessage.vsize, OutMessage.prefixed in *. simpl. destruct Hm as [_ Hpr _].
    unfold OutMessage.vsize in Hpr. rewrite !length_app, length_take, length_enc. lia.
  - simpl. lia.
Qed.

Lemma returns_EXPECT P b : b = true → returns P (expect b) (λ _, P).
Proof. intros -> m Hm. by exists tt, m. Qed.

Lemma returns_checkSize vs x : x = Z.of_nat (length vs) * size →
  returns (holds vs) (checkSize x) (λ _, holds vs).
Proof.
  intros -> m Hm. exists tt, m. split; [|done]. destruct Hm as (Hm & Hc & _).
  unfold checkSize. rewrite (bind_val _ _ _ _ _ (OutMessage.getSize_run m Hm)).
  assert ((Z.of_nat (length vs) * size =? Z.of_nat (length (OutMessage.content m))) = true) as He
    by (rewrite Hc, length_values; unfold size; apply Z.eqb_eq; lia).
  rewrite He. unfold expect at 1. unfold ret at 1. unfold bind at 1.
  rewrite (bind_val _ _ _ _ _ (OutMessage.getBuffer_run m Hm)). by rewrite He.
Qed.

Lemma take_value vs i v : vs !! i = Some v →
  take (valueSize T) (drop (i * valueSize T) (concat (map (enc (valueSize T)) vs))) = enc (valueSize T) v.
Proof.
  revert i. induction vs as [|x vs IH]; intros [|i] Hi; simpl in *; simplify_eq.
  - rewrite drop_0. by rewrite take_app_length' by by rewrite length_enc.
  - rewrite <-(IH i Hi). rewrite drop_app_ge by (rewrite length_enc; lia). rewrite length_enc.
    do 2 f_equal. lia.
Qed.

Lemma returns_expect_at vs i v : vs !! i = Some v → in_range v →
  returns (holds vs) (expect_at i v) (λ _, holds vs).
Proof.
  intros Hi Hr m Hm. exists tt, m. split; [|done]. destruct Hm as (Hm & Hc & _).
  assert (getBuffer_at i m = (Val v, m)) as He.
  { unfold getBuffer_at. rewrite (bind_val _ _ _ _ _ (OutMessage.getBuffer_run m Hm)).
    rewrite Hc, read_inside, !Nat2Z.id, (take_value vs i v Hi), dec_enc; try lia.
    - rewrite Z.mod_small; [done|]. unfold in_range, size in Hr. rewrite Z.pow_mul_r in Hr by lia. done.
    - rewrite length_values. apply lookup_lt_Some in Hi. nia. }
  unfold expect_at. rewrite (bind_val _ _ _ _ _ He). unfold expect. by rewrite Z.eqb_refl.
Qed.

(** ** The tests pass *)

Lemma returns_values m : holds [] m →
  ∃ m', OutMessage.addRaw (concat (map (enc (valueSize T)) values)) (Z.of_nat (length values) * size) m =
    (Val tt, m') ∧ holds values m'.
Proof.
  intros (Hm & Hc & Hv & Hp). pose proof size_bound.
  assert (Z.of_nat (length values) ≤ 10000) as Hn.
  { unfold values. rewrite length_map, length_seq. lia. }
  unfold OutMessage.addRaw, OutMessage.insert_end, size.
  rewrite read_inside by (rewrite ?length_values; lia).
  rewrite firstn_all2 by (rewrite length_drop, length_values; lia). simpl. rewrite drop_0.
  eexists. split; [done|]. split_and!.
  - apply OutMessage.wf_appended; [done| |rewrite length_values; simpl in *; nia].
    apply Forall_concat, Forall_map, Forall_true. intros. apply enc_bytes.
  - pose proof (OutMessage.content_appended (concat (map (enc (valueSize T)) values)) m Hm) as Ha.
    by rewrite Hc in Ha.
  - unfold OutMessage.vsize in *. simpl in *. rewrite length_app, length_values. nia.
  - simpl in *. lia.
Qed.

Lemma value_positive : 0 ≤ std_rand 0 < 2147483648 → (i32 value <? 0) = false.
Proof.
  intros Hr. pose proof (ValueType_range (std_rand 0)) as [H0 _].
  assert (value ≤ std_rand 0) as Hle.
  { unfold value, rand, ValueType, wrap. apply Z.mod_le; [lia|]. apply Z.pow_pos_nonneg; lia. }
  rewrite OutMessage.i32_small by (unfold value, rand in *; lia). apply Z.ltb_ge. exact H0.
Qed.

(** One statement of a test. *)
Ltac statement :=
  eapply returns_bind; [
    first [ apply returns_shift_left; simpl; lia
          | apply returns_addFunc; [apply ValueType_range|simpl; lia]
          | apply returns_addPrefix; simpl; lia
          | apply returns_checkSize; simpl; lia
          | apply returns_expect_at; [reflexivity|apply ValueType_range] ]
    | intros []; simpl app ].
Ltac last_statement :=
  eapply returns_post; [
    first [ apply returns_checkSize; simpl; lia
          | apply returns_expect_at; [reflexivity|apply ValueType_range] ] | done ].

Lemma passes (m : test) : returns (holds []) m (λ _ _, True) → (m TestMessage).1 = Val tt.
Proof. intros Hm. by destruct (Hm TestMessage holds_TestMessage) as ([] & m' & -> & _). Qed.

(** The tests of BasicOutMessage pass for every width, whatever the random
    numbers: the size of a message counts the values written and the prefixes, and
    its buffer reads back the prefixes, last one first, and then the values in order. *)
Theorem message_tests_pass :
  (∀ i, 0 ≤ std_rand i < 2147483648) →
  (IsEmptyOnStart TestMessage).1 = Val tt ∧
  (IncrementsSizeWhenAddingValue TestMessage).1 = Val tt ∧
  (AddsValueWithLeftShiftOperator TestMessage).1 = Val tt ∧
  (IncrementsSizeWhenAddingPrefix TestMessage).1 = Val tt ∧
  (InsertsIntoBufferAddedValues TestMessage).1 = Val tt ∧
  (PrependedPrefixesToBuffer TestMessage).1 = Val tt ∧
  (AddsRawDataCorrectly TestMessage).1 = Val tt ∧
  (AddsDataAfterPrefixes TestMessage).1 = Val tt.
Proof.
  intros Hrand. repeat (match goal with |- _ ∧ _ => split end); apply passes.
  1-6,8: repeat statement; last_statement.
  intros m Hm. destruct (returns_values m Hm) as (m1 & He & Hm1).
  unfold AddsRawDataCorrectly. rewrite (value_positive (Hrand 0%nat)). unfold ret at 1. unfold bind at 1.
  rewrite (bind_val _ _ _ _ _ He).
  revert m1 Hm1 He. assert (returns (holds values) (checkSize (Z.of_nat (length values) * size) ;;;
    run_all (λ '(i, v), expect_at i v) (zip (seq 0 (length values)) values)) (λ _ _, True)) as Hr;
    [|intros m1 Hm1 _; by apply Hr].
  eapply returns_bind; [by apply returns_checkSize|]. intros [].
  eapply returns_post; [|done]. apply (returns_run_all (λ _, holds values)).
  intros k [i v] Hk. apply lookup_zip_Some in Hk as [Hi Hv].
  apply lookup_seq in Hi as [-> _]. apply returns_expect_at; [done|].
  unfold values in Hv. rewrite list_lookup_fmap in Hv. destruct (_ !! k); [|done].
  injection Hv as <-. apply ValueType_range.
Qed.
End tests.

(** ** Witness *)

Lemma message_tests_pass_witness :
  (AddsRawDataCorrectly (H:=x86_64 true) U16 (λ i, 5 + Z.of_nat i `mod` 100) TestMessage).1 = Val tt ∧
  length (values U16 (λ i, 5 + Z.of_nat i `mod` 100)) = 5%nat.
Proof.
  split; [|reflexivity].
  apply (message_tests_pass (H:=x86_64 true) U16 (λ i, 5 + Z.of_nat i `mod` 100)).
  intros i. pose proof (Z.mod_pos_bound (Z.of_nat i) 100). lia.
Defined.

End MessageTests.
