(* ===== verification/Connection.v ===== *)
(** * Connections (protocol/connection.hpp)

    A connection owns a socket, a strand, two timers, the message it is
    receiving and the queue of messages it has to send. Its functions start
    asynchronous operations; the operating system and the threads of the
    io_service complete them in any order, with any error code. A [world] is the
    connection and everything of it the io_service still holds; [handle] is what
    one completion, or one call from another thread, does to it. *)

From S2P Require Import Prelude Platform InMessage OutMessage.

Module Connection.

(** ** Interfaces *)

(** [boost::system::error_code], as far as the code distinguishes values. *)
Inductive ec : Type := success | operation_aborted | other (value : Z).

#[export] Instance ec_eq_dec : EqDecision ec.
Proof. solve_decision. Defined.

Inductive shutdown_type : Type := shutdown_receive | shutdown_send | shutdown_both.

(** The synchronous socket functions of Boost.Asio that the code calls, in their
    throwing overloads. Their documentation promises no undefined behaviour, that
    [close] closes the descriptor even when it reports an error, that [shutdown]
    does not close it, and that all of them fail on a closed socket. *)
Class Asio : Type := {
  socket : Type;
  is_open : socket → bool;
  shutdown : shutdown_type → prog socket unit;
  close : prog socket unit;
  remote_endpoint : socket → outcome string;
  shutdown_defined t s f : (shutdown t s).1 ≠ Fault f;
  close_defined s f : (close s).1 ≠ Fault f;
  endpoint_defined s f : remote_endpoint s ≠ Fault f;
  close_closes s : is_open (close s).2 = false;
  shutdown_open t s : is_open (shutdown t s).2 = is_open s;
  shutdown_closed t s : is_open s = false → ∃ e, shutdown t s = (Exc e, s);
  endpoint_closed s : is_open s = false → ∃ e, remote_endpoint s = Exc e;
}.

(** [ProtocolTraits]: the message types and what a connection asks of them.
    [fill] is the io_service writing received bytes into the message's buffer. *)
Class Traits : Type := {
  InMsg : Type;
  OutMsg : Type;
  getHeaderBuffer : prog InMsg (Z * Z);
  parseHeaderAndGetBodyBuffer : prog InMsg (Z * Z);
  fill : Z → list Z → prog InMsg unit;
  encode : prog OutMsg unit;
  getBuffer : prog OutMsg (list Z);
}.

(** The default traits: Tibia's standard messages. *)
#[export] Instance standard_traits `{Platform} : Traits := {
  InMsg := InMessage.msg;
  OutMsg := OutMessage.msg;
  getHeaderBuffer := InMessage.getHeaderBuffer InMessage.STANDARD_IN_MESSAGE_HEADER_SIZE;
  parseHeaderAndGetBodyBuffer := InMessage.parseHeaderAndGetBodyBuffer;
  fill := InMessage.fill;
  encode := OutMessage.encode;
  getBuffer := OutMessage.getBuffer;
}.

(** What a connection asks of a protocol object besides handling messages;
    [linked]: the object's own pointer to the connection is set. *)
Class BaseProtocol (P : Type) : Type := {
  connectionLost : prog P unit;
  linked : P → bool;
}.

(** The logging configuration: whether [VLOG(1)] is on. [DLOG] is compiled in
    unless [NDEBUG]; [LOG] always is. *)
Class Logging : Type := { verbose : bool }.

Definition ReadClosed : Z := 1.
Definition WriteClosed : Z := 2.

(** A timer's pending wait: its handler is still waiting for the deadline, or is
    queued with its error code. *)
Inductive wait : Type := Waiting | Due (e : ec).

(** [cancel] and [expires_from_now] abort the waits whose handlers are not queued yet. *)
Definition cancelled (w : wait) : wait :=
  match w with Waiting => Due operation_aborted | d => d end.

(** The handler a read was started with: after the header or after the body, of
    the first message or of a later one ([ProtocolFirstMessageHandler],
    [ProtocolMessageHandler]). *)
Inductive read_body : Type := HeaderRead (first : bool) | BodyRead (first : bool).

(** [AfterSend]: the lambdas of [send] and [sendAndStop]. *)
Inductive after : Type := KeepSending | Stop.

Section world.
Context `{Asio} `{Traits} {P : Type}.

(** Function objects handed to [strand.dispatch]. *)
Inductive call : Type := TrySend (msg : OutMsg) (then_ : after) | DoStop.

(** What happened, oldest first: a message entered the queue; a write was
    started; a write completed; the protocol was given a message. *)
Inductive entry : Type :=
  | Accepted (msg : OutMsg)
  | Started (bytes : list Z)
  | Written (bytes : list Z)
  | Dispatched (first : bool).

(** The members of [Connection] and of its [ConnectionImpl], with what the
    io_service holds for them: the waits of both timers, the reads with the
    buffer they fill, the writes with the bytes they send, and the function
    objects posted to the strand. [protocol]: the pointer is set; [object] is
    the protocol object. [alive], [object_alive]: the connection, the protocol
    object, has not been destroyed. [conn_refs] counts the [shared_ptr]s to the
    connection other than the protocol object's and the write handlers',
    [proto_refs] those to the protocol object other than the connection's.
    [in_strand]: the running code was called by the strand. *)
Record world : Type := mk {
  closeStatus : Z;
  peer : socket;
  readTimer : list wait;
  writeTimer : list wait;
  reads : list (Z * Z * read_body);
  writes : list (list Z * after);
  posted : list call;
  outMsgQueue : list OutMsg;
  protocol : bool;
  inMsg : InMsg;
  alive : bool;
  conn_refs : nat;
  object : P;
  object_alive : bool;
  proto_refs : nat;
  in_strand : bool;
  log : list entry;
}.

Definition set_closeStatus (x : Z) (w : world) : world :=
  mk x (peer w) (readTimer w) (writeTimer w) (reads w) (writes w) (posted w) (outMsgQueue
    w) (protocol w) (inMsg w) (alive w) (conn_refs w) (object w) (object_alive w)
    (proto_refs w) (in_strand w) (log w).
Definition set_peer (x : socket) (w : world) : world :=
  mk (closeStatus w) x (readTimer w) (writeTimer w) (reads w) (writes w) (posted w)
    (outMsgQueue w) (protocol w) (inMsg w) (alive w) (conn_refs w) (object w)
    (object_alive w) (proto_refs w) (in_strand w) (log w).
Definition set_readTimer (x : list wait) (w : world) : world :=
  mk (closeStatus w) (peer w) x (writeTimer w) (reads w) (writes w) (posted w)
    (outMsgQueue w) (protocol w) (inMsg w) (alive w) (conn_refs w) (object w)
    (object_alive w) (proto_refs w) (in_strand w) (log w).
Definition set_writeTimer (x : list wait) (w : world) : world :=
  mk (closeStatus w) (peer w) (readTimer w) x (reads w) (writes w) (posted w) (outMsgQueue
    w) (protocol w) (inMsg w) (alive w) (conn_refs w) (object w) (object_alive w)
    (proto_refs w) (in_strand w) (log w).
Definition set_reads (x : list (Z * Z * read_body)) (w : world) : world :=
  mk (closeStatus w) (peer w) (readTimer w) (writeTimer w) x (writes w) (posted w)
    (outMsgQueue w) (protocol w) (inMsg w) (alive w) (conn_refs w) (object w)
    (object_alive w) (proto_refs w) (in_strand w) (log w).
Definition set_writes (x : list (list Z * after)) (w : world) : world :=
  mk (closeStatus w) (peer w) (readTimer w) (writeTimer w) (reads w) x (posted w)
    (outMsgQueue w) (protocol w) (inMsg w) (alive w) (conn_refs w) (object w)
    (object_alive w) (proto_refs w) (in_strand w) (log w).
Definition set_posted (x : list call) (w : world) : world :=
  mk (closeStatus w) (peer w) (readTimer w) (writeTimer w) (reads w) (writes w) x
    (outMsgQueue w) (protocol w) (inMsg w) (alive w) (conn_refs w) (object w)
    (object_alive w) (proto_refs w) (in_strand w) (log w).
Definition set_outMsgQueue (x : list OutMsg) (w : world) : world :=
  mk (closeStatus w) (peer w) (readTimer w) (writeTimer w) (reads w) (writes w) (posted w)
    x (protocol w) (inMsg w) (alive w) (conn_refs w) (object w) (object_alive w)
    (proto_refs w) (in_strand w) (log w).
Definition set_protocol (x : bool) (w : world) : world :=
  mk (closeStatus w) (peer w) (readTimer w) (writeTimer w) (reads w) (writes w) (posted w)
    (outMsgQueue w) x (inMsg w) (alive w) (conn_refs w) (object w) (object_alive w)
    (proto_refs w) (in_strand w) (log w).
Definition set_inMsg (x : InMsg) (w : world) : world :=
  mk (closeStatus w) (peer w) (readTimer w) (writeTimer w) (reads w) (writes w) (posted w)
    (outMsgQueue w) (protocol w) x (alive w) (conn_refs w) (object w) (object_alive w)
    (proto_refs w) (in_strand w) (log w).
Definition set_alive (x : bool) (w : world) : world :=
  mk (closeStatus w) (peer w) (readTimer w) (writeTimer w) (reads w) (writes w) (posted w)
    (outMsgQueue w) (protocol w) (inMsg w) x (conn_refs w) (object w) (object_alive w)
    (proto_refs w) (in_strand w) (log w).
Definition set_conn_refs (x : nat) (w : world) : world :=
  mk (closeStatus w) (peer w) (readTimer w) (writeTimer w) (reads w) (writes w) (posted w)
    (outMsgQueue w) (protocol w) (inMsg w) (alive w) x (object w) (object_alive w)
    (proto_refs w) (in_strand w) (log w).
Definition set_object (x : P) (w : world) : world :=
  mk (closeStatus w) (peer w) (readTimer w) (writeTimer w) (reads w) (writes w) (posted w)
    (outMsgQueue w) (protocol w) (inMsg w) (alive w) (conn_refs w) x (object_alive w)
    (proto_refs w) (in_strand w) (log w).
Definition set_object_alive (x : bool) (w : world) : world :=
  mk (closeStatus w) (peer w) (readTimer w) (writeTimer w) (reads w) (writes w) (posted w)
    (outMsgQueue w) (protocol w) (inMsg w) (alive w) (conn_refs w) (object w) x
    (proto_refs w) (in_strand w) (log w).
Definition set_proto_refs (x : nat) (w : world) : world :=
  mk (closeStatus w) (peer w) (readTimer w) (writeTimer w) (reads w) (writes w) (posted w)
    (outMsgQueue w) (protocol w) (inMsg w) (alive w) (conn_refs w) (object w)
    (object_alive w) x (in_strand w) (log w).
Definition set_in_strand (x : bool) (w : world) : world :=
  mk (closeStatus w) (peer w) (readTimer w) (writeTimer w) (reads w) (writes w) (posted w)
    (outMsgQueue w) (protocol w) (inMsg w) (alive w) (conn_refs w) (object w)
    (object_alive w) (proto_refs w) x (log w).
Definition set_log (x : list entry) (w : world) : world :=
  mk (closeStatus w) (peer w) (readTimer w) (writeTimer w) (reads w) (writes w) (posted w)
    (outMsgQueue w) (protocol w) (inMsg w) (alive w) (conn_refs w) (object w)
    (object_alive w) (proto_refs w) (in_strand w) x.
End world.
Arguments world {_ _} P.
Arguments call {_}.
Arguments entry {_}.

(** ** The connection *)

Section connection.
Context `{Platform} `{Asio} `{Traits} `{Logging} {P : Type} `{BaseProtocol P}.
Implicit Types w : world P.

Abbreviation io A := (prog (world P) A).

(** ** Lifetime *)

(** Every access to a member goes through [this]. *)
Definition self : io (world P) :=
  let! w := get in if alive w then ret w else fail DanglingReference.

Definition update (f : world P → world P) : io unit :=
  let! _ := self in modify f.

Definition on_peer {A} (m : prog socket A) : io A :=
  let! _ := self in zoom peer set_peer m.
Definition on_inMsg {A} (m : prog InMsg A) : io A :=
  let! _ := self in zoom inMsg set_inMsg m.
Definition on_object {A} (m : prog P A) : io A :=
  let! w := get in
  if object_alive w then zoom object set_object m else fail DanglingReference.

Definition record (e : entry) : io unit := modify (λ w, set_log (log w ++ [e]) w).

(** Some [shared_ptr] to the connection exists. *)
Definition owned w : bool :=
  (0 <? conn_refs w)%nat || (object_alive w && linked (object w))
  || match writes w with [] => false | _ => true end.

Definition cancel_readTimer : io unit :=
  update (λ w, set_readTimer (map cancelled (readTimer w)) w).
Definition cancel_writeTimer : io unit :=
  update (λ w, set_writeTimer (map cancelled (writeTimer w)) w).

Definition isReceiving : io bool :=
  let! w := self in ret (negb (Z.land (Z.lnot (closeStatus w)) ReadClosed =? 0)).

Definition isSendind : io bool :=
  let! w := self in ret (negb (Z.land (Z.lnot (closeStatus w)) WriteClosed =? 0)).

Definition isStopped : io bool :=
  let! w := self in
  ret (negb (Z.land (closeStatus w) (Z.lor ReadClosed WriteClosed) =? 0)).

(** The members are gone, and with the protocol pointer the protocol object,
    unless it has another owner. *)
Definition gone w : world P :=
  set_alive false (set_protocol false
    (set_object_alive (object_alive w && negb (proto_refs w =? 0)%nat) w)).

(** [~Connection]: the destructors of the members abort the pending waits. *)
Definition destroy : io unit :=
  let! stopped := isStopped in
  assertM stopped ;;;
  cancel_readTimer ;;;
  cancel_writeTimer ;;;
  modify gone.

(** After a [shared_ptr] has gone: the last one destroys the connection. *)
Definition release : io unit :=
  let! w := get in if alive w && negb (owned w) then destroy else ret tt.

(** A scope that keeps a [shared_ptr] to the connection in a local or captured
    variable; it is released on every way out of the scope. *)
Definition holding {A} (m : io A) : io A := λ w,
  match m (set_conn_refs (S (conn_refs w)) w) with
  | (Fault f, w1) => (Fault f, set_conn_refs (pred (conn_refs w1)) w1)
  | (r, w1) =>
      match release (set_conn_refs (pred (conn_refs w1)) w1) with
      | (Fault f, w2) => (Fault f, w2)
      | (_, w2) => (r, w2)
      end
  end.

(** ** Members *)

Definition isAlive : io bool :=
  let! stopped := isStopped in
  if stopped then ret false else let! w := self in ret (is_open (peer w)).

Definition getPeerAddress : io string :=
  let! w := self in lift (remote_endpoint (peer w)).

(** The text is not modelled; building it asks the socket for its peer. *)
Definition logInfo : io unit := getPeerAddress ;;; ret tt.
Definition droppingLogInfo : io unit := logInfo.

Definition VLOG (m : io unit) : io unit := if verbose then m else ret tt.
Definition DLOG (m : io unit) : io unit := if NDEBUG then ret tt else m.
(** [DVLOG(1)] *)
Definition DVLOG (m : io unit) : io unit := DLOG (VLOG m).
(** [..._IF(e != operation_aborted)] *)
Definition unless_aborted (e : ec) (m : io unit) : io unit :=
  if decide (e = operation_aborted) then ret tt else m.

(** [protocol.reset()]: the protocol object goes with its last owner, and with
    it its pointer to the connection. *)
Definition reset_protocol : io unit :=
  update (set_protocol false) ;;;
  let! w := get in
  if (proto_refs w =? 0)%nat then modify (set_object_alive false) ;;; release else ret tt.

(** The function object of [stop]. *)
Definition do_stop : io unit :=
  update (set_closeStatus (Z.lor ReadClosed WriteClosed)) ;;;
  VLOG logInfo ;;;
  cancel_readTimer ;;;
  cancel_writeTimer ;;;
  on_peer (shutdown shutdown_both) ;;;
  on_peer close ;;;
  reset_protocol.

Definition waitOnReadTimer : io unit :=
  update (λ w, set_readTimer (readTimer w ++ [Waiting]) w).
Definition waitOnWriteTimer : io unit :=
  update (λ w, set_writeTimer (writeTimer w ++ [Waiting]) w).

(** [expires_from_now] cancels the pending waits. *)
Definition updateReadTimer : io unit := cancel_readTimer ;;; waitOnReadTimer.
Definition updateWriteTimer : io unit := cancel_writeTimer ;;; waitOnWriteTimer.

(** [strand.dispatch]: runs the function object at once inside the strand,
    queues it otherwise. *)
Definition dispatch (c : call) (run : io unit) : io unit :=
  let! w := self in
  if in_strand w then run else modify (λ w, set_posted (posted w ++ [c]) w).

Definition stop : io unit := dispatch DoStop do_stop.

Definition stopReceiving : io unit :=
  update (λ w, set_closeStatus (Z.lor (closeStatus w) ReadClosed) w) ;;;
  on_peer (shutdown shutdown_receive).

Definition stopSending : io unit :=
  update (λ w, set_closeStatus (Z.lor (closeStatus w) WriteClosed) w) ;;;
  on_peer (shutdown shutdown_send).

(** [abort()]: after [connectionLost] the protocol object may have dropped the
    last pointer to the connection. *)
Definition abort : io unit :=
  let! w := self in
  if protocol w then on_object connectionLost ;;; release ;;; stop else fail NullDereference.

(** [abort(const error_code&)] *)
Definition abort_with (e : ec) : io unit := unless_aborted e abort.

(** ** Sending *)

(** [outMsgQueue.front()], changed in place. *)
Definition on_front {A} (m : prog OutMsg A) : io A :=
  let! w := self in
  match outMsgQueue w with
  | [] => fail OutOfBounds
  | msg :: q =>
      let '(r, msg') := m msg in
      modify (set_outMsgQueue (msg' :: q)) ;;; lift r
  end.

(** [outMsgQueue.pop_front()] *)
Definition pop_front : io unit :=
  let! w := self in
  match outMsgQueue w with
  | [] => fail OutOfBounds
  | _ :: q => modify (set_outMsgQueue q)
  end.

(** The [try] around [msg.encode()]; [false] when [abort] has been called. *)
Definition try_encode : io bool :=
  let! encoded := try_catch (on_front encode ;;; ret true) (λ _, ret false) in
  if encoded then ret true else droppingLogInfo ;;; abort ;;; ret false.

(** [sthis] is a local of [doSend] and a capture of the write handler. *)
Definition doSend (then_ : after) : io unit :=
  updateWriteTimer ;;;
  holding
    (let! encoded := try_encode in
     if negb encoded then ret tt else
     let! bytes := on_front getBuffer in
     record (Started bytes) ;;;
     modify (λ w, set_writes (writes w ++ [(bytes, then_)]) w)).

Definition keepSending : io unit :=
  let! w := self in
  match outMsgQueue w with
  | _ :: _ => doSend KeepSending
  | [] => cancel_writeTimer
  end.

(** The function object of [trySendOrEnqueueThen]. *)
Definition try_send (msg : OutMsg) (then_ : after) : io unit :=
  let! sending := isSendind in
  if negb sending then ret tt else
  let! w := self in
  let shallSend := match outMsgQueue w with [] => true | _ => false end in
  modify (set_outMsgQueue (outMsgQueue w ++ [msg])) ;;;
  record (Accepted msg) ;;;
  if shallSend then doSend then_ else ret tt.

Definition trySendOrEnqueueThen (msg : OutMsg) (then_ : after) : io unit :=
  dispatch (TrySend msg then_) (try_send msg then_).

Definition send (msg : OutMsg) : io unit := trySendOrEnqueueThen msg KeepSending.
Definition sendAndStop (msg : OutMsg) : io unit := trySendOrEnqueueThen msg Stop.

(** The write handler. *)
Definition on_written (bytes : list Z) (then_ : after) (e : ec) : io unit :=
  match e with
  | success =>
      DVLOG logInfo ;;;
      pop_front ;;;
      record (Written bytes) ;;;
      match then_ with KeepSending => keepSending | Stop => stop end
  | _ => DLOG (unless_aborted e logInfo) ;;; abort_with e
  end.

(** The handler of both timers. *)
Definition on_timer (e : ec) : io unit :=
  DLOG (unless_aborted e logInfo) ;;; abort_with e.

(** ** Receiving *)

Definition asyncRead (buffer : Z * Z) (body : read_body) : io unit :=
  update (λ w, set_reads (reads w ++ [(buffer, body)]) w).

(** The local [sthis] is not captured by the lambdas, which do not mention it. *)
Definition parseIncomingMessage (first : bool) : io unit :=
  updateReadTimer ;;;
  let! buffer := on_inMsg getHeaderBuffer in
  asyncRead buffer (HeaderRead first).

Definition start : io unit :=
  update (set_protocol true) ;;;
  DVLOG logInfo ;;;
  parseIncomingMessage true.

(** The lambda called when the header has been read. *)
Definition after_header (first : bool) : io unit :=
  updateReadTimer ;;;
  try_catch
    (let! buffer := on_inMsg parseHeaderAndGetBodyBuffer in
     asyncRead buffer (BodyRead first))
    (λ _, droppingLogInfo ;;; abort).

Section handlers.
(** [Protocol::handleFirstMessage] and [Protocol::handleMessage]. *)
Context (handleFirstMessage handleMessage : io unit).

Definition sendInMsg (first : bool) : io unit :=
  let! w := self in
  if protocol w then
    record (Dispatched first) ;;;
    if first then handleFirstMessage else handleMessage
  else fail NullDereference.

(** The lambda called when the body has been read. *)
Definition after_body (first : bool) : io unit :=
  cancel_readTimer ;;;
  DVLOG logInfo ;;;
  let! handled := try_catch (sendInMsg first ;;; ret true) (λ _, ret false) in
  if negb handled then droppingLogInfo ;;; abort else
  let! receiving := isReceiving in
  if receiving then parseIncomingMessage false else ret tt.

(** The read handler of [asyncRead]. *)
Definition on_read (body : read_body) (e : ec) : io unit :=
  match e with
  | success =>
      let! receiving := isReceiving in
      if negb receiving then ret tt else
      DVLOG logInfo ;;;
      match body with
      | HeaderRead first => after_header first
      | BodyRead first => after_body first
      end
  | _ => VLOG (unless_aborted e logInfo) ;;; abort_with e
  end.

(** ** Events *)

(** What the other threads and the operating system do next. *)
Inductive event : Type :=
  | Retain                              (* another thread obtains a pointer *)
  | Drop                                (* and lets one go *)
  | Call (run : call)                   (* a thread outside the strand calls a member *)
  | CallStopReceiving
  | CallStopSending
  | Posted                              (* the strand runs the next function object *)
  | ReadDone (e : ec) (bytes : list Z)
  | WriteDone (e : ec)
  | ReadTimer (i : nat) (fires : bool)  (* the deadline passes; or the handler is called *)
  | WriteTimer (i : nat) (fires : bool).

Definition run_call (c : call) : io unit :=
  match c with TrySend msg then_ => try_send msg then_ | DoStop => do_stop end.

(** Handlers wrapped by the strand. *)
Definition strand (m : io unit) : io unit := λ w,
  let '(r, w') := m (set_in_strand true w) in (r, set_in_strand false w').

(** The received bytes are in the buffer before the handler is called. *)
Definition received (off : Z) (bytes : list Z) : io unit :=
  let! w := get in if alive w then on_inMsg (fill off bytes) else ret tt.

(** A wait whose deadline passes queues its handler; a queued handler is called. *)
Definition timer (tm : world P → list wait) (set_tm : list wait → world P → world P)
    (i : nat) (fires : bool) : io unit :=
  let! w := get in
  match fires, tm w !! i with
  | true, Some Waiting => modify (set_tm (<[i := Due success]> (tm w)))
  | false, Some (Due e) =>
      modify (set_tm (take i (tm w) ++ drop (S i) (tm w))) ;;; strand (on_timer e)
  | _, _ => ret tt
  end.

Definition handle (ev : event) : io unit :=
  match ev with
  | Retain =>
      let! w := get in
      if alive w && owned w then modify (set_conn_refs (S (conn_refs w))) else ret tt
  | Drop =>
      let! w := get in
      if (conn_refs w =? 0)%nat then ret tt
      else modify (set_conn_refs (pred (conn_refs w))) ;;; release
  | Call c =>
      let! w := get in
      if (conn_refs w =? 0)%nat then ret tt else dispatch c (run_call c)
  | CallStopReceiving =>
      let! w := get in if (conn_refs w =? 0)%nat then ret tt else stopReceiving
  | CallStopSending =>
      let! w := get in if (conn_refs w =? 0)%nat then ret tt else stopSending
  | Posted =>
      let! w := get in
      match posted w with
      | [] => ret tt
      | c :: cs => modify (set_posted cs) ;;; strand (run_call c)
      end
  | ReadDone e bytes =>
      let! w := get in
      match reads w with
      | [] => ret tt
      | ((off, n), body) :: rs =>
          modify (set_reads rs) ;;; received off bytes ;;; strand (on_read body e)
      end
  | WriteDone e =>
      let! w := get in
      match writes w with
      | [] => ret tt
      | (bytes, then_) :: ws =>
          holding (modify (set_writes ws) ;;; strand (on_written bytes then_ e))
      end
  | ReadTimer i fires => timer readTimer set_readTimer i fires
  | WriteTimer i fires => timer writeTimer set_writeTimer i fires
  end.

(** A completed read has filled its buffer. *)
Definition possible (ev : event) w : Prop :=
  match ev with
  | ReadDone success bytes =>
      match reads w with
      | ((_, n), _) :: _ => Z.of_nat (length bytes) = n
      | [] => False
      end
  | _ => True
  end.

Definition step w w' : Prop :=
  ∃ ev r, possible ev w ∧ handle ev w = (r, w') ∧ ∀ f, r ≠ Fault f.

(** A connection accepted with the socket [s] for the protocol object [p],
    which alone points to it once [start] has returned. *)
Definition accepted (s : socket) (m : InMsg) (p : P) : world P :=
  mk 0 s [] [] [] [] [] [] false m true 0 p true 0 false [].

Definition started w : Prop :=
  ∃ s m p, start (accepted s m p) = (Val tt, w).
End handlers.
End connection.

(** ** Frame lemmas *)

(** A projection of the world that only the queue, the pending reads and writes
    and the history of events may change. *)
Class Framed `{Asio} `{Traits} {P X : Type} (f : world P → X) : Prop := {
  framed_closeStatus v w : f (set_closeStatus v w) = f w;
  framed_peer v w : f (set_peer v w) = f w;
  framed_readTimer v w : f (set_readTimer v w) = f w;
  framed_writeTimer v w : f (set_writeTimer v w) = f w;
  framed_posted v w : f (set_posted v w) = f w;
  framed_protocol v w : f (set_protocol v w) = f w;
  framed_inMsg v w : f (set_inMsg v w) = f w;
  framed_alive v w : f (set_alive v w) = f w;
  framed_conn_refs v w : f (set_conn_refs v w) = f w;
  framed_object v w : f (set_object v w) = f w;
  framed_object_alive v w : f (set_object_alive v w) = f w;
  framed_proto_refs v w : f (set_proto_refs v w) = f w;
  framed_in_strand v w : f (set_in_strand v w) = f w;
}.

Section frames.
Context `{Platform} `{Asio} `{Traits} `{Logging} {P : Type} `{BaseProtocol P}.
Context {X : Type} (f : world P → X) `{!Framed f}.
Implicit Types w : world P.
Abbreviation io A := (prog (world P) A).

Lemma keeps_self : keeps f self.
Proof. intros w. unfold self. run_simpl. by destruct (alive w). Qed.
Lemma keeps_update g : (∀ w, f (g w) = f w) → keeps f (update g).
Proof. intros Hg. apply keeps_bind; [apply keeps_self|]. intros _. by apply keeps_modify. Qed.
Hint Resolve keeps_self keeps_update : prog.

Lemma keeps_cancel_readTimer : keeps f cancel_readTimer.
Proof. apply keeps_update. intros. apply framed_readTimer. Qed.
Lemma keeps_cancel_writeTimer : keeps f cancel_writeTimer.
Proof. apply keeps_update. intros. apply framed_writeTimer. Qed.
Lemma keeps_on_peer {A} (m : prog socket A) : keeps f (on_peer m).
Proof. apply keeps_bind; auto with prog. intros _. apply keeps_zoom, framed_peer. Qed.
Lemma keeps_on_inMsg {A} (m : prog InMsg A) : keeps f (on_inMsg m).
Proof. apply keeps_bind; auto with prog. intros _. apply keeps_zoom, framed_inMsg. Qed.
Lemma keeps_on_object {A} (m : prog P A) : keeps f (on_object m).
Proof.
  apply keeps_bind; auto with prog. intros w.
  apply keeps_if; auto with prog. apply keeps_zoom, framed_object.
Qed.
Hint Resolve keeps_cancel_readTimer keeps_cancel_writeTimer keeps_on_peer keeps_on_inMsg
  keeps_on_object : prog.

Lemma keeps_assertM c : keeps f (assertM c).
Proof. unfold assertM. auto with prog. Qed.
Hint Resolve keeps_assertM : prog.
Lemma keeps_isReceiving : keeps f isReceiving.
Proof. unfold isReceiving. auto with prog. Qed.
Lemma keeps_isSendind : keeps f isSendind.
Proof. unfold isSendind. auto with prog. Qed.
Lemma keeps_isStopped : keeps f isStopped.
Proof. unfold isStopped. auto with prog. Qed.
Hint Resolve keeps_isReceiving keeps_isSendind keeps_isStopped : prog.
Lemma keeps_isAlive : keeps f isAlive.
Proof. unfold isAlive. auto 6 with prog. Qed.

Lemma keeps_release : keeps f release.
Proof.
  unfold release, destroy. repeat first
    [by auto with prog
    |apply keeps_modify; intros; unfold gone;
     by rewrite framed_alive, framed_protocol, framed_object_alive
    |apply keeps_bind; [|intros] | apply keeps_if].
Qed.
Hint Resolve keeps_release : prog.

Lemma keeps_holding {A} (m : io A) : keeps f m → keeps f (holding m).
Proof.
  intros Hm w. unfold holding. specialize (Hm (set_conn_refs (S (conn_refs w)) w)).
  destruct (m _) as [r w1]; simpl in *. rewrite (framed_conn_refs (f:=f)) in Hm.
  pose proof (keeps_release (set_conn_refs (pred (conn_refs w1)) w1)) as Hr.
  rewrite (framed_conn_refs (f:=f)) in Hr. rewrite <-Hm, <-Hr.
  destruct r; [by destruct (release _) as [[] w2]..|]. by rewrite Hr; apply (framed_conn_refs (f:=f)).
Qed.

Lemma keeps_getPeerAddress : keeps f getPeerAddress.
Proof. unfold getPeerAddress. auto with prog. Qed.
Lemma keeps_logInfo : keeps f logInfo.
Proof. unfold logInfo. apply keeps_bind; auto using keeps_getPeerAddress with prog. Qed.
Lemma keeps_VLOG m : keeps f m → keeps f (VLOG m).
Proof. unfold VLOG. auto with prog. Qed.
Lemma keeps_DLOG m : keeps f m → keeps f (DLOG m).
Proof. unfold DLOG. auto with prog. Qed.
Lemma keeps_DVLOG m : keeps f m → keeps f (DVLOG m).
Proof. intros. by apply keeps_DLOG, keeps_VLOG. Qed.
Lemma keeps_unless_aborted e m : keeps f m → keeps f (unless_aborted e m).
Proof. unfold unless_aborted. destruct (decide _); auto with prog. Qed.
Hint Resolve keeps_logInfo keeps_VLOG keeps_DLOG keeps_DVLOG keeps_unless_aborted : prog.

Lemma keeps_do_stop : keeps f do_stop.
Proof.
  unfold do_stop, reset_protocol. repeat first
    [by auto with prog
    |apply keeps_update; intros; first [apply framed_closeStatus|apply framed_protocol]
    |apply keeps_modify; intros; apply framed_object_alive
    |apply keeps_bind; [|intros] | apply keeps_if].
Qed.

Lemma keeps_dispatch c m : keeps f m → keeps f (dispatch c m).
Proof.
  intros Hm. apply keeps_bind; [by auto with prog|]. intros w. apply keeps_if; [done|].
  apply keeps_modify. intros. apply framed_posted.
Qed.
Lemma keeps_stop : keeps f stop.
Proof. apply keeps_dispatch, keeps_do_stop. Qed.
Hint Resolve keeps_stop : prog.

Lemma keeps_close_half b t :
  keeps f (update (λ w, set_closeStatus (Z.lor (closeStatus w) b) w) ;;; on_peer (shutdown t)).
Proof.
  apply keeps_bind; [|by auto with prog]. apply keeps_update. intros. apply framed_closeStatus.
Qed.
Lemma keeps_stopReceiving : keeps f stopReceiving.
Proof. apply keeps_close_half. Qed.
Lemma keeps_stopSending : keeps f stopSending.
Proof. apply keeps_close_half. Qed.

Lemma keeps_abort : keeps f abort.
Proof.
  unfold abort. repeat first [by auto with prog | apply keeps_bind; [|intros] | apply keeps_if].
Qed.
Hint Resolve keeps_abort : prog.
Lemma keeps_abort_with e : keeps f (abort_with e).
Proof. unfold abort_with. auto with prog. Qed.
Lemma keeps_on_timer e : keeps f (on_timer e).
Proof. unfold on_timer. auto using keeps_abort_with with prog. Qed.
Lemma keeps_updateReadTimer : keeps f updateReadTimer.
Proof.
  apply keeps_bind; [by auto with prog|]. intros. apply keeps_update. intros. apply framed_readTimer.
Qed.
Lemma keeps_updateWriteTimer : keeps f updateWriteTimer.
Proof.
  apply keeps_bind; [by auto with prog|]. intros. apply keeps_update. intros. apply framed_writeTimer.
Qed.
Lemma keeps_strand m : keeps f m → keeps f (strand m).
Proof.
  intros Hm w. unfold strand. specialize (Hm (set_in_strand true w)).
  destruct (m _); simpl in *. by rewrite !(framed_in_strand (f:=f)) in *.
Qed.
Lemma keeps_received off bytes : keeps f (received off bytes).
Proof. unfold received. auto using keeps_on_inMsg with prog. Qed.
End frames.

#[export] Hint Resolve keeps_self keeps_update keeps_cancel_readTimer keeps_cancel_writeTimer
  keeps_on_peer keeps_on_inMsg keeps_on_object keeps_assertM keeps_isReceiving keeps_isSendind
  keeps_isStopped keeps_isAlive keeps_release keeps_holding keeps_getPeerAddress keeps_logInfo
  keeps_VLOG keeps_DLOG keeps_DVLOG keeps_unless_aborted keeps_do_stop keeps_dispatch keeps_stop
  keeps_stopReceiving keeps_stopSending keeps_abort keeps_abort_with keeps_on_timer
  keeps_updateReadTimer keeps_updateWriteTimer keeps_strand keeps_received : prog.

(** ** The queue of outgoing messages *)

Section order.
Context `{Platform} `{Asio} `{Traits} `{Logging} {P : Type} `{BaseProtocol P}.
Implicit Types w : world P.
Abbreviation io A := (prog (world P) A).

(** The messages that entered the queue, the buffers of the writes started and
    of the writes completed, each in order. *)
Definition accepted_of w : list OutMsg :=
  omap (λ e, match e with Accepted m => Some m | _ => None end) (log w).
Definition started_of w : list (list Z) :=
  omap (λ e, match e with Started b => Some b | _ => None end) (log w).
Definition written_of w : list (list Z) :=
  omap (λ e, match e with Written b => Some b | _ => None end) (log w).

Definition tx w := (outMsgQueue w, writes w, accepted_of w, started_of w, written_of w).

#[global] Instance tx_framed : Framed tx.
Proof. by split. Qed.

(** The bytes a message is sent as. *)
Definition encodes (m : OutMsg) (bytes : list Z) : Prop :=
  (encode ;;; getBuffer) m = (Val bytes, ((encode ;;; getBuffer) m).2).

(** Messages are encoded once each, in the order in which they were accepted;
    the queue holds those not written yet. *)
Record common w : Prop := {
  co_len : (length (outMsgQueue w) + length (written_of w) = length (accepted_of w))%nat;
  co_tail : tail (outMsgQueue w) = drop (S (length (written_of w))) (accepted_of w);
  co_enc : Forall2 encodes (take (length (started_of w)) (accepted_of w)) (started_of w);
}.

(** No write is pending and the front of the queue is still as it was accepted. *)
Record idle w : Prop := {
  id_common : common w;
  id_head : outMsgQueue w = drop (length (written_of w)) (accepted_of w);
  id_writes : writes w = [];
  id_started : started_of w = written_of w;
}.

(** At most one write is pending, of the message at the front. *)
Record ordered w : Prop := {
  or_common : common w;
  or_writes : writes w = [] ∧ (∃ b, started_of w = written_of w ++ b ∧ length b ≤ 1)%nat
    ∨ ∃ b t, writes w = [(b, t)] ∧ started_of w = written_of w ++ [b];
  or_empty : outMsgQueue w = [] → idle w;
}.

Lemma idle_ordered w : idle w → ordered w.
Proof.
  intros Hi. destruct Hi as [Hc Hh Hw Hs]. split; [done| |done].
  left. split; [done|]. exists []. rewrite app_nil_r. simpl. auto.
Qed.

(** Both states depend on [tx] only. *)
Lemma idle_tx w w' : tx w' = tx w → idle w → idle w'.
Proof.
  unfold tx. intros Heq [[] Hh Hw Hs]. simplify_eq.
  split; [split|..]; congruence.
Qed.
Lemma ordered_tx w w' : tx w' = tx w → ordered w → ordered w'.
Proof.
  intros Heq [[] Ho He]. split.
  - unfold tx in Heq. simplify_eq. split; congruence.
  - unfold tx in Heq. simplify_eq. destruct Ho as [[? (b & ? & ?)]|(b & t & ? & ?)].
    + left. split; [congruence|]. exists b. split; [congruence|done].
    + right. exists b, t. split; congruence.
  - intros Hq. apply (idle_tx w); [done|]. apply He. unfold tx in Heq. congruence.
Qed.

Lemma keeps_tx_idle {A} (m : io A) : keeps tx m → preserves idle m.
Proof. intros Hm w Hw. by apply (idle_tx w). Qed.
Lemma keeps_tx_ordered {A} (m : io A) : keeps tx m → preserves ordered m.
Proof. intros Hm w Hw. by apply (ordered_tx w). Qed.

(** Changing the front of the queue, which only happens before it is written. *)
Lemma ordered_front w m m' q :
  idle w → outMsgQueue w = m :: q → ordered (set_outMsgQueue (m' :: q) w).
Proof.
  intros [[Hl Ht He] Hh Hw Hs] Hq. split; [split; simpl|simpl|by intros].
  - by rewrite Hq in Hl.
  - by rewrite Hq in Ht.
  - done.
  - left. split; [done|]. exists []. rewrite app_nil_r. simpl. auto.
Qed.

Lemma self_alive w : alive w = true → self w = (Val w, w).
Proof. intros Ha. unfold self. run_simpl. by rewrite Ha. Qed.
Lemma self_dead w : alive w = false → self w = (Fault DanglingReference, w).
Proof. intros Ha. unfold self. run_simpl. by rewrite Ha. Qed.

Lemma self_bind {A} (k : world P → io A) w :
  bind self k w = if alive w then k w w else (Fault DanglingReference, w).
Proof. unfold self. run_simpl. by destruct (alive w). Qed.

(** After a failed [encode] the connection is aborted, which does not touch the
    queue. *)
Definition give_up_send : io bool := droppingLogInfo ;;; abort ;;; ret false.

Lemma give_up_send_spec w : ordered w →
  ordered (give_up_send w).2 ∧ (give_up_send w).1 ≠ Val true.
Proof.
  intros Hw. split.
  - apply (keeps_tx_ordered give_up_send); [|done]. unfold give_up_send, droppingLogInfo.
    auto 6 with prog typeclass_instances.
  - unfold give_up_send, bind, ret. repeat case_match; simplify_eq/=; congruence.
Qed.

Lemma try_encode_spec w : idle w →
  (∃ m m' q, outMsgQueue w = m :: q ∧ encode m = (Val tt, m') ∧ alive w = true ∧
     try_encode w = (Val true, set_outMsgQueue (m' :: q) w)) ∨
  (ordered (try_encode w).2 ∧ (try_encode w).1 ≠ Val true).
Proof.
  intros Hw. pose proof (idle_ordered w Hw) as Ho.
  unfold try_encode, try_catch, on_front, bind. fold give_up_send.
  destruct (alive w) eqn:Ha; [rewrite self_alive by done|by rewrite self_dead; auto].
  destruct (outMsgQueue w) as [|m q] eqn:Hq; [by right|].
  destruct (encode m) as [r m'] eqn:He.
  pose proof (ordered_front w m m' q Hw Hq) as Hf.
  unfold modify, lift, ret. destruct r as [[]|e|x].
  - left. by exists m, m', q.
  - right. fold (give_up_send (set_outMsgQueue (m' :: q) w)).
    change ((let! _ := droppingLogInfo in let! _ := abort in ret false)) with give_up_send.
    by apply give_up_send_spec.
  - by right.
Qed.

Lemma length_started w : idle w → outMsgQueue w ≠ [] →
  (length (written_of w) < length (accepted_of w))%nat.
Proof. intros [[Hl _ _] _ _ _] Hq. destruct (outMsgQueue w); [done|]. simpl in Hl. lia. Qed.

(** Starting the write of the message at the front. *)
Lemma ordered_write w m m' m'' q b t :
  idle w → outMsgQueue w = m :: q → encode m = (Val tt, m') → getBuffer m' = (Val b, m'') →
  ordered (set_writes (writes w ++ [(b, t)])
    (set_log (log w ++ [Started b]) (set_outMsgQueue (m'' :: q) w))).
Proof.
  intros [[Hl Ht He] Hh Hw Hs] Hq Henc Hget.
  assert (accepted_of w !! length (written_of w) = Some m) as Hm.
  { rewrite <-(Nat.add_0_r (length (written_of w))), <-lookup_drop, <-Hh, Hq. done. }
  set (w' := set_writes _ _).
  assert (accepted_of w' = accepted_of w) as Ea.
  { unfold accepted_of, w'. simpl. rewrite omap_app. simpl. by rewrite app_nil_r. }
  assert (started_of w' = started_of w ++ [b]) as Es.
  { unfold started_of, w'. simpl. by rewrite omap_app. }
  assert (written_of w' = written_of w) as Ew.
  { unfold written_of, w'. simpl. rewrite omap_app. simpl. by rewrite app_nil_r. }
  split; [split| |]; rewrite ?Ea, ?Es, ?Ew.
  - unfold w'. simpl. by rewrite Hq in Hl.
  - unfold w'. simpl. by rewrite Hq in Ht.
  - rewrite length_app. simpl. rewrite Nat.add_1_r, Hs in *.
    rewrite (take_S_r _ _ m) by done. apply Forall2_app; [done|].
    constructor; [|done]. unfold encodes, bind. by rewrite Henc, Hget.
  - right. exists b, t. unfold w'. simpl. by rewrite Hw, Hs.
  - unfold w'. simpl. intros [=].
Qed.

(** Sequencing when a program ends in another state than it starts in. *)
Lemma leads_bind {A B} (I J : world P → Prop) (m : io A) (k : A → io B) :
  (∀ w, I w → J (m w).2) → (∀ a, preserves J (k a)) → ∀ w, I w → J (bind m k w).2.
Proof.
  intros Hm Hk w Hw. unfold bind. specialize (Hm w Hw).
  destruct (m w) as [[] w']; simpl in *; auto. by apply Hk.
Qed.
Lemma preserves_then {A B} (I J : world P → Prop) (m : io A) (k : A → io B) :
  preserves I m → (∀ w, I w → J w) → (∀ a w, I w → J (k a w).2) → ∀ w, I w → J (bind m k w).2.
Proof.
  intros Hm HIJ Hk w Hw. unfold bind. specialize (Hm w Hw).
  destruct (m w) as [[] w']; simpl in *; auto.
Qed.

Lemma ordered_write_front then_ w : idle w →
  ordered ((let! encoded := try_encode in
     if negb encoded then ret tt else
     let! bytes := on_front getBuffer in
     record (Started bytes) ;;;
     modify (λ w, set_writes (writes w ++ [(bytes, then_)]) w)) w).2.
Proof.
  intros Hw. destruct (try_encode_spec w Hw) as [(m & m' & q & Hq & He & Ha & Hr)|[Ho Hv]].
  - rewrite (bind_val _ _ _ _ _ Hr). cbn [negb]. unfold on_front, bind.
    rewrite self_alive by done. cbn [outMsgQueue set_outMsgQueue].
    destruct (getBuffer m') as [[b|e|x] m''] eqn:Hg; unfold modify, lift, ret, record; simpl.
    + by apply (ordered_write w m m' m'' q b then_).
    + by apply (ordered_front w m m'' q).
    + by apply (ordered_front w m m'' q).
  - unfold bind at 1. destruct (try_encode w) as [[[]|e|x] w']; simpl in *; done.
Qed.

Lemma holding_ordered {A} (I : world P → Prop) (m : io A) :
  (∀ n w, I w → I (set_conn_refs n w)) → (∀ w, I w → ordered (m w).2) →
  ∀ w, I w → ordered (holding m w).2.
Proof.
  intros HI Hm w Hw. unfold holding.
  specialize (Hm _ (HI (S (conn_refs w)) w Hw)). destruct (m _) as [r w1]; simpl in *.
  assert (ordered (set_conn_refs (pred (conn_refs w1)) w1)) as Hw1 by by apply (ordered_tx w1).
  assert (ordered (release (set_conn_refs (pred (conn_refs w1)) w1)).2) as Hw2
    by by apply (keeps_tx_ordered release); [auto with prog typeclass_instances|].
  destruct r; [..|done]; by destruct (release _) as [[] w2].
Qed.

Lemma doSend_ordered then_ w : idle w → ordered (doSend then_ w).2.
Proof.
  apply preserves_then.
  - apply keeps_tx_idle. auto with prog typeclass_instances.
  - apply idle_ordered.
  - intros _. apply holding_ordered; [|apply ordered_write_front].
    intros n w' Hw'. by apply (idle_tx w').
Qed.

Lemma keepSending_ordered w : idle w → ordered (keepSending w).2.
Proof.
  intros Hw. pose proof (idle_ordered w Hw). unfold keepSending, bind.
  destruct (alive w) eqn:Ha; [rewrite self_alive by done|by rewrite self_dead].
  destruct (outMsgQueue w).
  - apply (keeps_tx_ordered cancel_writeTimer); [auto with prog typeclass_instances|done].
  - by apply doSend_ordered.
Qed.

(** A message enters the queue. *)
Lemma ordered_accept w m : ordered w →
  let w' := set_log (log w ++ [Accepted m]) (set_outMsgQueue (outMsgQueue w ++ [m]) w) in
  ordered w' ∧ (outMsgQueue w = [] → idle w').
Proof.
  intros [[Hl Ht He] Ho Hi] w'.
  assert (accepted_of w' = accepted_of w ++ [m]) as Ea.
  { unfold accepted_of, w'. simpl. by rewrite omap_app. }
  assert (started_of w' = started_of w) as Es.
  { unfold started_of, w'. simpl. rewrite omap_app. simpl. by rewrite app_nil_r. }
  assert (written_of w' = written_of w) as Ew.
  { unfold written_of, w'. simpl. rewrite omap_app. simpl. by rewrite app_nil_r. }
  assert (common w') as Hc.
  { pose proof (Forall2_length _ _ _ He) as Hlen. rewrite length_take in Hlen.
    split; rewrite ?Ea, ?Es, ?Ew.
    - unfold w'. simpl. rewrite !length_app. simpl. lia.
    - unfold w'. simpl. destruct (outMsgQueue w) as [|m0 q] eqn:Hq; simpl in *.
      + rewrite drop_ge; [done|]. rewrite length_app. simpl. lia.
      + rewrite Ht, drop_app_le by (rewrite <-Hl; lia). done.
    - by rewrite take_app_le by lia. }
  assert (outMsgQueue w = [] → idle w') as Hempty.
  { intros Hq. destruct (Hi Hq) as [_ Hh Hw Hs]. split; rewrite ?Ea, ?Es, ?Ew; try done.
    unfold w'. simpl. rewrite Hq in *. simpl in *. by rewrite drop_app_ge, Hl, Nat.sub_diag by lia. }
  split; [|done]. split; [done| |].
  - rewrite Es, Ew. destruct Ho as [[? ?]|?]; [by left|by right].
  - unfold w'. simpl. intros Hq. by destruct (outMsgQueue w).
Qed.

Lemma try_send_ordered m then_ : preserves ordered (try_send m then_).
Proof.
  apply preserves_bind; [apply keeps_tx_ordered; auto with prog typeclass_instances|].
  intros sending. apply preserves_if; [apply preserves_ret|].
  intros w Hw. unfold bind at 1.
  destruct (alive w) eqn:Ha; [rewrite self_alive by done|by rewrite self_dead].
  destruct (ordered_accept w m Hw) as [Ho Hi].
  unfold modify, record, bind. cbn [log set_outMsgQueue].
  destruct (outMsgQueue w) eqn:Hq; [|done]. apply doSend_ordered. by apply Hi.
Qed.

Lemma dispatch_ordered c m : preserves ordered m → preserves ordered (dispatch c m).
Proof.
  intros Hm. apply preserves_bind; [apply keeps_tx_ordered; auto with prog typeclass_instances|].
  intros w. apply preserves_if; [done|]. apply preserves_modify.
  intros w' Hw'. by apply (ordered_tx w').
Qed.

Lemma send_ordered m : preserves ordered (send m).
Proof. apply dispatch_ordered, try_send_ordered. Qed.
Lemma sendAndStop_ordered m : preserves ordered (sendAndStop m).
Proof. apply dispatch_ordered, try_send_ordered. Qed.

(** The write of [b] has completed; its handler has not run yet. *)
Record completing (b : list Z) w : Prop := {
  cm_common : common w;
  cm_writes : writes w = [];
  cm_started : started_of w = written_of w ++ [b];
}.

Lemma completing_tx b w w' : tx w' = tx w → completing b w → completing b w'.
Proof. unfold tx. intros Heq [[] Hw Hs]. simplify_eq. split; [split|..]; congruence. Qed.

Lemma completing_queue b w : completing b w → outMsgQueue w ≠ [].
Proof.
  intros [[Hl Ht He] Hw Hs] Hq. pose proof (Forall2_length _ _ _ He) as Hlen.
  rewrite length_take, Hs, length_app in Hlen. simpl in Hlen. rewrite Hq in Hl. simpl in Hl. lia.
Qed.

Lemma completing_ordered b w : completing b w → ordered w.
Proof.
  intros Hc. pose proof (completing_queue b w Hc). destruct Hc as [Hc Hw Hs].
  split; [done| |by intros]. left. split; [done|]. exists [b]. simpl. auto.
Qed.

Lemma completing_popped b w q m : completing b w → outMsgQueue w = m :: q →
  idle (set_log (log w ++ [Written b]) (set_outMsgQueue q w)).
Proof.
  intros [[Hl Ht He] Hw Hs] Hq. set (w' := set_log _ _).
  assert (accepted_of w' = accepted_of w) as Ea.
  { unfold accepted_of, w'. simpl. rewrite omap_app. simpl. by rewrite app_nil_r. }
  assert (started_of w' = started_of w) as Es.
  { unfold started_of, w'. simpl. rewrite omap_app. simpl. by rewrite app_nil_r. }
  assert (written_of w' = written_of w ++ [b]) as Ew.
  { unfold written_of, w'. simpl. by rewrite omap_app. }
  rewrite Hq in *. simpl in Hl, Ht. rewrite <-(Nat.add_1_r (length (written_of w))) in Ht.
  assert (common w') as Hc'.
  { split; rewrite ?Ea, ?Es, ?Ew; [|change (outMsgQueue w') with q|done].
    - rewrite length_app. unfold w'. simpl. lia.
    - rewrite length_app. simpl. rewrite Ht. destruct (drop _ _) eqn:Hd at 1; simpl;
        rewrite <-Nat.add_1_r, <-drop_drop, Hd; done. }
  split; rewrite ?Ea, ?Es, ?Ew; [done| |done|done].
  rewrite length_app. done.
Qed.

Lemma on_written_ordered b then_ e w : completing b w → ordered (on_written b then_ e w).2.
Proof.
  destruct e as [| |v]; simpl.
  - apply preserves_then.
    + intros w' Hw'. apply (completing_tx b w'); [|done].
      apply keeps_DLOG, keeps_VLOG, keeps_logInfo; apply _.
    + apply completing_ordered.
    + intros _ w' Hw'. unfold pop_front, record. unfold bind at 1. unfold bind at 1.
      pose proof (completing_ordered b w' Hw') as Ho.
      destruct (alive w') eqn:Ha; [rewrite self_alive by done|by rewrite self_dead].
      destruct (outMsgQueue w') as [|m q] eqn:Hq; [done|].
      unfold modify. unfold bind at 1.
      pose proof (completing_popped b w' q m Hw' Hq) as Hi.
      destruct then_; [by apply keepSending_ordered|].
      apply (keeps_tx_ordered stop); [auto with prog typeclass_instances|by apply idle_ordered].
  - intros Hw. apply completing_ordered in Hw. revert w Hw.
    apply keeps_tx_ordered. auto with prog typeclass_instances.
  - intros Hw. apply completing_ordered in Hw. revert w Hw.
    apply keeps_tx_ordered. auto with prog typeclass_instances.
Qed.
End order.

(** ** The interface of the protocol *)

(** What a protocol's handlers do to a connection: they call its public members,
    read and change the message they were given and their own object, and copy
    and drop pointers to it. *)
Section protocol.
Context `{Platform} `{Asio} `{Traits} `{Logging} {P : Type} `{BaseProtocol P}.
Abbreviation io A := (prog (world P) A).

Inductive client : ∀ {A}, io A → Prop :=
  | client_ret {A} (a : A) : client (ret a)
  | client_throw {A} e : client (throw (A:=A) e)
  | client_fail {A} f : client (fail (A:=A) f)
  | client_lift {A} (o : outcome A) : client (lift o)
  | client_get : client get
  | client_bind {A B} (m : io A) (k : A → io B) :
      client m → (∀ a, client (k a)) → client (bind m k)
  | client_try {A} (m : io A) h : client m → (∀ e, client (h e)) → client (try_catch m h)
  | client_object {A} (m : prog P A) : client (on_object m)
  | client_inMsg {A} (m : prog InMsg A) : client (on_inMsg m)
  | client_proto_refs (g : nat → nat) : client (modify (λ w, set_proto_refs (g (proto_refs w)) w))
  | client_object_alive b : client (modify (set_object_alive b))
  | client_in_strand b : client (modify (set_in_strand b))
  | client_release : client release
  | client_isAlive : client isAlive
  | client_getPeerAddress : client getPeerAddress
  | client_stop : client stop
  | client_stopReceiving : client stopReceiving
  | client_stopSending : client stopSending
  | client_send m : client (send m)
  | client_sendAndStop m : client (sendAndStop m).

(** A protocol implementation: its two message handlers. *)
Class Protocol : Type := {
  handleFirstMessage : io unit;
  handleMessage : io unit;
  first_client : client handleFirstMessage;
  message_client : client handleMessage;
}.

Lemma client_ordered {A} (m : io A) : client m → preserves ordered m.
Proof.
  induction 1; auto using send_ordered, sendAndStop_ordered, preserves_bind, preserves_try with prog;
    try (apply keeps_tx_ordered; auto with prog typeclass_instances; done).
Qed.

(** Messages the protocol was given: [true] for [handleFirstMessage]. *)
Definition dispatched_of (w : world P) : list bool :=
  omap (λ e, match e with Dispatched first => Some first | _ => None end) (log w).

Definition rx (w : world P) := (reads w, dispatched_of w).

#[global] Instance rx_framed : Framed rx.
Proof. by split. Qed.

Lemma keeps_record_dispatched first : keeps tx (record (P:=P) (Dispatched first)).
Proof.
  intros w. unfold tx, record, modify, accepted_of, started_of, written_of. simpl.
  rewrite !omap_app. simpl. by rewrite !app_nil_r.
Qed.

Lemma keeps_rx_record e :
  match e with Dispatched _ => False | _ => True end → keeps rx (record (P:=P) e).
Proof.
  intros He w. unfold rx, record, modify, dispatched_of. simpl. rewrite omap_app.
  destruct e; simpl; by rewrite ?app_nil_r.
Qed.

Lemma keeps_rx_on_front {A} (m : prog OutMsg A) : keeps rx (on_front (P:=P) m).
Proof.
  apply keeps_bind; [auto with prog typeclass_instances|]. intros w. destruct (outMsgQueue w).
  - apply keeps_fail.
  - destruct (m _). apply keeps_bind; [by apply keeps_modify|intros; apply keeps_lift].
Qed.

Lemma keeps_rx_doSend then_ : keeps rx (doSend (P:=P) then_).
Proof.
  unfold doSend, try_encode, droppingLogInfo. repeat first
    [apply keeps_rx_on_front | by auto with prog typeclass_instances
    |apply keeps_holding; [apply _|]
    |by apply keeps_rx_record | by apply keeps_modify
    |apply keeps_bind; [|intros] | apply keeps_try; [|intros] | apply keeps_if].
Qed.

Lemma keeps_rx_try_send m then_ : keeps rx (try_send (P:=P) m then_).
Proof.
  unfold try_send. repeat first
    [apply keeps_rx_doSend | by auto with prog typeclass_instances
    |by apply keeps_rx_record | by apply keeps_modify
    |apply keeps_bind; [|intros] | apply keeps_if | case_match].
Qed.

Lemma keeps_rx_on_written b then_ e : keeps rx (on_written (P:=P) b then_ e).
Proof.
  unfold on_written, keepSending, pop_front. destruct e; [|by auto with prog typeclass_instances..].
  repeat first
    [apply keeps_rx_doSend | by auto with prog typeclass_instances
    |by apply keeps_rx_record | by apply keeps_modify
    |apply keeps_bind; [|intros] | case_match].
Qed.

Lemma client_rx {A} (m : io A) : client m → keeps rx m.
Proof.
  induction 1; auto using keeps_bind, keeps_try with prog typeclass_instances;
    try (by apply keeps_modify); try (apply keeps_dispatch; [apply _|apply keeps_rx_try_send]).
Qed.

(** The order of the handlers: the first message once, then the others; one
    read at a time, of the message that comes next. *)
Definition expects_first (r : Z * Z * read_body) : bool :=
  match r.2 with HeaderRead first | BodyRead first => first end.

Definition turn (first : bool) (disp : list bool) : Prop :=
  if first then disp = [] else ∃ n, disp = true :: replicate n false.

Definition chained (w : world P) : Prop :=
  (reads w = [] ∧ ∃ first, turn first (dispatched_of w)) ∨
  ∃ r, reads w = [r] ∧ turn (expects_first r) (dispatched_of w).

Definition no_read (first : bool) (w : world P) : Prop :=
  reads w = [] ∧ turn first (dispatched_of w).

Lemma keeps_rx_chained {A} (m : io A) : keeps rx m → preserves chained m.
Proof. intros Hm w Hw. injection (Hm w) as Hr Hd. unfold chained. by rewrite Hr, Hd. Qed.
Lemma keeps_rx_no_read {A} first (m : io A) : keeps rx m → preserves (no_read first) m.
Proof. intros Hm w Hw. injection (Hm w) as Hr Hd. unfold no_read. by rewrite Hr, Hd. Qed.
Lemma no_read_chained first w : no_read first w → chained w.
Proof. intros []. left. eauto. Qed.

Lemma asyncRead_chained buffer body first w :
  expects_first (buffer, body) = first → no_read first w → chained (asyncRead buffer body w).2.
Proof.
  intros Hf [Hr Ht]. unfold asyncRead, update, bind.
  destruct (alive w) eqn:Ha; [rewrite self_alive by done|rewrite self_dead by done; left; eauto].
  right. exists (buffer, body). simpl. rewrite Hr, Hf. done.
Qed.

Lemma parseIncomingMessage_chained first w :
  no_read first w → chained (parseIncomingMessage first w).2.
Proof.
  apply preserves_then.
  - apply keeps_rx_no_read. auto with prog typeclass_instances.
  - apply no_read_chained.
  - intros _. apply preserves_then.
    + apply keeps_rx_no_read. auto with prog typeclass_instances.
    + apply no_read_chained.
    + intros buffer w'. by apply asyncRead_chained.
Qed.

Lemma after_header_chained first w : no_read first w → chained (after_header first w).2.
Proof.
  apply preserves_then.
  - apply keeps_rx_no_read. auto with prog typeclass_instances.
  - apply no_read_chained.
  - intros _ w' Hw'. unfold try_catch.
    set (m := let! buffer := on_inMsg parseHeaderAndGetBodyBuffer in _).
    assert (chained (m w').2) as Hm.
    { revert w' Hw'. apply preserves_then.
      - apply keeps_rx_no_read. auto with prog typeclass_instances.
      - apply no_read_chained.
      - intros buffer w'. by apply asyncRead_chained. }
    destruct (m w') as [[|e|f] w1]; simpl in *; [done| |done].
    revert w1 Hm. apply keeps_rx_chained. unfold droppingLogInfo.
    auto with prog typeclass_instances.
Qed.

Section dispatching.
Context `{!Protocol}.

Abbreviation sendInMsg := (sendInMsg handleFirstMessage handleMessage).
Abbreviation after_body := (after_body handleFirstMessage handleMessage).
Abbreviation on_read := (on_read handleFirstMessage handleMessage).
Abbreviation handle := (handle handleFirstMessage handleMessage).

Lemma handlers_client (first : bool) :
  client (if first then handleFirstMessage else handleMessage).
Proof. destruct first; [apply first_client|apply message_client]. Qed.

(** The message is handed over in its turn; after it, it is the turn of the
    next one. *)
Lemma sendInMsg_chained first w : no_read first w →
  no_read false (sendInMsg first w).2 ∨
  no_read first (sendInMsg first w).2 ∧ ∃ f, (sendInMsg first w).1 = Fault f.
Proof.
  intros Hw. unfold sendInMsg. rewrite self_bind. destruct (alive w); [|by right; eauto].
  destruct (protocol w); [|by right; eauto]. left.
  unfold record, modify, bind. apply (keeps_rx_no_read false); [apply client_rx, handlers_client|].
  destruct Hw as [Hr Ht]. split; [done|].
  unfold dispatched_of in *. simpl. rewrite omap_app. simpl.
  destruct first; simpl in Ht; [by rewrite Ht; exists 0%nat|].
  destruct Ht as [n ->]. exists (S n). simpl. by rewrite <-replicate_cons_app.
Qed.

Lemma after_body_chained first w : no_read first w → chained (after_body first w).2.
Proof.
  apply preserves_then.
  { apply keeps_rx_no_read. auto with prog typeclass_instances. }
  { apply no_read_chained. }
  intros _. apply preserves_then.
  { apply keeps_rx_no_read. auto with prog typeclass_instances. }
  { apply no_read_chained. }
  intros _ w1 Hw1. unfold bind at 1, try_catch at 1, bind at 1.
  destruct (sendInMsg_chained first w1 Hw1) as [Hn|[Hn [f Hf]]];
    destruct (sendInMsg first w1) as [[a|e|f'] w2]; simpl in *; simplify_eq.
  - revert w2 Hn. apply preserves_then.
    + apply keeps_rx_no_read. auto with prog typeclass_instances.
    + apply no_read_chained.
    + intros receiving w2 Hw2. destruct receiving; [by apply parseIncomingMessage_chained|].
      by apply no_read_chained in Hw2.
  - apply no_read_chained in Hn. revert w2 Hn. apply keeps_rx_chained. unfold droppingLogInfo.
    auto with prog typeclass_instances.
  - by apply no_read_chained in Hn.
  - by apply no_read_chained in Hn.
Qed.

Lemma on_read_chained r e w : no_read (expects_first r) w → chained (on_read r.2 e w).2.
Proof.
  intros Hw. destruct e as [| |v]; simpl.
  - revert w Hw. apply preserves_then.
    { apply keeps_rx_no_read. auto with prog typeclass_instances. }
    { apply no_read_chained. }
    intros receiving w Hw. destruct receiving; cbn [negb]; [|by apply no_read_chained in Hw].
    revert w Hw. apply preserves_then.
    { apply keeps_rx_no_read. auto with prog typeclass_instances. }
    { apply no_read_chained. }
    intros _ w Hw. unfold expects_first in Hw.
    destruct r as [buf [first|first]]; [by apply after_header_chained|by apply after_body_chained].
  - apply no_read_chained in Hw. revert w Hw. apply keeps_rx_chained. auto with prog typeclass_instances.
  - apply no_read_chained in Hw. revert w Hw. apply keeps_rx_chained. auto with prog typeclass_instances.
Qed.

Lemma keeps_timer {X} (f : world P → X) `{!Framed f} tm set_tm i fires :
  (∀ l w, f (set_tm l w) = f w) → keeps f (timer (P:=P) tm set_tm i fires).
Proof.
  intros Hf. apply keeps_bind; [auto with prog|]. intros w.
  destruct fires, (tm w !! i) as [[|e]|]; auto with prog.
Qed.

(** Everything but the completions of reads and writes and the calls. *)
Lemma keeps_bookkeeping {X} (f : world P → X) `{!Framed f} ev :
  match ev with
  | Call _ | Posted | ReadDone _ _ | WriteDone _ => True
  | _ => keeps f (handle ev)
  end.
Proof.
  destruct ev as [| |c| | | |e bytes|e|i fires|i fires]; try done; cbn [Connection.handle].
  - apply keeps_bind; [done|]. intros w. apply keeps_if; [|done].
    apply keeps_modify. intros. apply framed_conn_refs.
  - apply keeps_bind; [done|]. intros w. apply keeps_if; [done|].
    apply keeps_bind; [|by auto with prog]. apply keeps_modify. intros. apply framed_conn_refs.
  - apply keeps_bind; [done|]. intros w. apply keeps_if; [done|by apply keeps_stopReceiving].
  - apply keeps_bind; [done|]. intros w. apply keeps_if; [done|by apply keeps_stopSending].
  - apply keeps_timer; [done|apply framed_readTimer].
  - apply keeps_timer; [done|apply framed_writeTimer].
Qed.

Lemma run_call_ordered c : preserves ordered (run_call (P:=P) c).
Proof.
  destruct c; [apply try_send_ordered|]. by apply keeps_tx_ordered, keeps_do_stop, _.
Qed.

Lemma strand_ordered (I : world P → Prop) (m : io unit) :
  (∀ w, I w → I (set_in_strand true w)) → (∀ w, I w → ordered (m w).2) →
  ∀ w, I w → ordered (strand m w).2.
Proof.
  intros HI Hm w Hw. unfold strand. specialize (Hm _ (HI w Hw)).
  destruct (m _) as [r w1]. by apply (ordered_tx w1).
Qed.

Lemma on_read_ordered body e : preserves ordered (on_read body e).
Proof.
  assert (∀ first, preserves ordered (sendInMsg first)) as Hs.
  { intros first. apply preserves_bind; [apply keeps_tx_ordered; auto with prog typeclass_instances|].
    intros w. apply preserves_if; [|apply preserves_fail].
    apply preserves_bind; [apply keeps_tx_ordered, keeps_record_dispatched|].
    intros _. apply client_ordered, handlers_client. }
  unfold on_read, after_header, after_body, parseIncomingMessage, asyncRead, droppingLogInfo.
  repeat first
    [apply Hs
    |by apply keeps_tx_ordered; auto with prog typeclass_instances
    |apply keeps_tx_ordered, keeps_update; [apply _|done]
    |case_match
    |apply preserves_bind; [|intros] | apply preserves_if | apply preserves_try; [|intros]].
Qed.

Lemma handle_ordered ev : preserves ordered (handle ev).
Proof.
  pose proof (keeps_bookkeeping tx ev) as Hk.
  destruct ev as [| |c| | | |e bytes|e|i fires|i fires]; try by apply keeps_tx_ordered.
  - apply preserves_bind; [auto with prog|]. intros w. apply preserves_if; [apply preserves_ret|].
    apply dispatch_ordered, run_call_ordered.
  - intros w Hw. cbn [Connection.handle]. unfold get, bind at 1.
    destruct (posted w) as [|c cs]; [done|]. unfold modify, bind.
    apply (strand_ordered ordered); [|apply run_call_ordered|by apply (ordered_tx w)].
    intros w' Hw'. by apply (ordered_tx w').
  - intros w Hw. cbn [Connection.handle]. unfold get, bind at 1.
    destruct (reads w) as [|[[off n] body] rs]; [done|].
    apply preserves_bind.
    + apply preserves_modify. intros w' Hw'. by apply (ordered_tx w').
    + intros _. apply preserves_bind; [apply keeps_tx_ordered; auto with prog typeclass_instances|].
      intros _ w1 Hw1. apply (strand_ordered ordered); [|apply on_read_ordered|done].
      intros w' Hw'. by apply (ordered_tx w').
    + done.
  - intros w Hw. cbn [Connection.handle]. unfold get, bind at 1.
    destruct (writes w) as [|[b then_] ws] eqn:Hws; [done|].
    apply (holding_ordered (λ w, completing b (set_writes [] w) ∧ ws = [])).
    + intros k w' []. split; [|done]. by apply (completing_tx b (set_writes [] w')).
    + intros w' [Hw' ->]. unfold modify, bind.
      apply (strand_ordered (completing b)); [|intros w2; apply on_written_ordered|done].
      intros w2. by apply completing_tx.
    + destruct Hw as [Hc [[? ?]|(b' & t' & Heq & Hs)] _]; [congruence|].
      rewrite Hws in Heq. simplify_eq. by destruct Hc.
Qed.

Lemma handle_chained ev : preserves chained (handle ev).
Proof.
  pose proof (keeps_bookkeeping rx ev) as Hk.
  destruct ev as [| |c| | | |e bytes|e|i fires|i fires]; try by apply keeps_rx_chained.
  - apply keeps_rx_chained. apply keeps_bind; [auto with prog|]. intros w.
    apply keeps_if; [auto with prog|]. apply keeps_dispatch; [apply _|].
    destruct c; [apply keeps_rx_try_send|by apply keeps_do_stop, _].
  - apply keeps_rx_chained. apply keeps_bind; [auto with prog|]. intros w.
    destruct (posted w) as [|c cs]; [auto with prog|].
    apply keeps_bind; [by apply keeps_modify|]. intros _. apply keeps_strand; [apply _|].
    destruct c; [apply keeps_rx_try_send|by apply keeps_do_stop, _].
  - intros w Hw. cbn [Connection.handle]. unfold get, bind at 1.
    destruct (reads w) as [|[[off n] body] rs] eqn:Hrs; [done|].
    destruct Hw as [[? ?]|(r & Hr & Ht)]; [congruence|]. rewrite Hrs in Hr. injection Hr as <- ->.
    assert (no_read (expects_first (off, n, body)) (set_reads [] w)) as Hn by done.
    unfold modify. unfold bind at 1. revert Hn. apply preserves_then.
    { apply keeps_rx_no_read. auto with prog typeclass_instances. }
    { apply no_read_chained. }
    intros _ w' Hw'. unfold strand.
    pose proof (on_read_chained (off, n, body) e (set_in_strand true w') Hw') as Hc. simpl in Hc.
    by destruct (on_read body e _).
  - apply keeps_rx_chained. apply keeps_bind; [auto with prog|]. intros w.
    destruct (writes w) as [|[b then_] ws]; [auto with prog|].
    apply keeps_holding; [apply _|]. apply keeps_bind; [by apply keeps_modify|].
    intros _. apply keeps_strand; [apply _|]. apply keeps_rx_on_written.
Qed.

Lemma started_ordered (w : world P) : started w → ordered w.
Proof.
  intros (s & m & p & Hs). assert (ordered (accepted s m p)) as Ho by (apply idle_ordered; done).
  assert (keeps tx (start (P:=P))) as Hk.
  { unfold start, parseIncomingMessage, asyncRead. repeat first
      [by auto with prog typeclass_instances
      |apply keeps_update; [apply _|done] | apply keeps_bind; [|intros]]. }
  apply (keeps_tx_ordered _ Hk) in Ho. by rewrite Hs in Ho.
Qed.

Lemma started_chained (w : world P) : started w → chained w.
Proof.
  intros (s & m & p & Hs). assert (no_read true (accepted s m p)) as Ho by done.
  assert (chained (start (accepted s m p)).2) as Hc.
  { revert Ho. apply preserves_then.
    { apply keeps_rx_no_read. by apply (keeps_update rx). }
    { apply no_read_chained. }
    intros _. apply preserves_then.
    { apply keeps_rx_no_read. auto with prog typeclass_instances. }
    { apply no_read_chained. }
    intros _ w'. apply parseIncomingMessage_chained. }
  by rewrite Hs in Hc.
Qed.
End dispatching.
End protocol.

(** ** Bits of [closeStatus] *)

Lemma land_pow2 x n : 0 ≤ n → (Z.land x (2 ^ n) =? 0) = negb (Z.testbit x n).
Proof.
  intros Hn. destruct (Z.testbit x n) eqn:Hb.
  - apply Z.eqb_neq. intros H0. apply (f_equal (λ y, Z.testbit y n)) in H0.
    by rewrite Z.land_spec, Hb, Z.pow2_bits_true, Z.bits_0 in H0.
  - apply Z.eqb_eq, Z.bits_inj'. intros k Hk. rewrite Z.land_spec, Z.bits_0, Z.pow2_bits_eqb by done.
    destruct (Z.eqb_spec n k) as [->|]; [by rewrite Hb|by rewrite andb_false_r].
Qed.

Lemma land_both x :
  (Z.land x (Z.lor ReadClosed WriteClosed) =? 0) = negb (Z.testbit x 0) && negb (Z.testbit x 1).
Proof.
  rewrite <-(land_pow2 x 0), <-(land_pow2 x 1) by lia. change (2 ^ 0) with ReadClosed.
  change (2 ^ 1) with WriteClosed. rewrite Z.land_lor_distr_r.
  destruct (Z.eqb_spec (Z.land x ReadClosed) 0) as [->|Hr]; [by rewrite Z.lor_0_l|].
  apply Z.eqb_neq. intros [? _]%Z.lor_eq_0_iff. done.
Qed.

(** ** Runs *)

Section runs.
Context `{Platform} `{Asio} `{Traits} `{Logging} {P : Type} `{BaseProtocol P}.
Implicit Types w : world P.
Abbreviation io A := (prog (world P) A).

Lemma isReceiving_run w : alive w = true →
  isReceiving w = (Val (negb (Z.testbit (closeStatus w) 0)), w).
Proof.
  intros Ha. unfold isReceiving. rewrite self_bind, Ha. unfold ret. do 2 f_equal.
  change ReadClosed with (2 ^ 0). rewrite land_pow2, Z.lnot_spec by lia. by rewrite negb_involutive.
Qed.
Lemma isSendind_run w : alive w = true →
  isSendind w = (Val (negb (Z.testbit (closeStatus w) 1)), w).
Proof.
  intros Ha. unfold isSendind. rewrite self_bind, Ha. unfold ret. do 2 f_equal.
  change WriteClosed with (2 ^ 1). rewrite land_pow2, Z.lnot_spec by lia. by rewrite negb_involutive.
Qed.
Lemma isStopped_run w : alive w = true →
  isStopped w = (Val (Z.testbit (closeStatus w) 0 || Z.testbit (closeStatus w) 1), w).
Proof.
  intros Ha. unfold isStopped. rewrite self_bind, Ha. unfold ret. do 2 f_equal.
  rewrite land_both, negb_andb. by rewrite !negb_involutive.
Qed.

Lemma update_run f w : alive w = true → update f w = (Val tt, f w).
Proof. intros Ha. unfold update. by rewrite self_bind, Ha. Qed.

Lemma release_owned w : owned w = true → release w = (Val tt, w).
Proof. intros Ho. unfold release. run_simpl. by rewrite Ho, andb_false_r. Qed.

(** A scope that leaves the connection with an owner just runs its body. *)
Lemma holding_run {A} (m : io A) w r w1 :
  m (set_conn_refs (S (conn_refs w)) w) = (r, w1) →
  owned (set_conn_refs (pred (conn_refs w1)) w1) = true →
  holding m w = (r, set_conn_refs (pred (conn_refs w1)) w1).
Proof. intros Hm Ho. unfold holding. rewrite Hm, release_owned by done. by destruct r. Qed.

Lemma DLOG_off m w : NDEBUG = true → DLOG m w = (Val tt, w).
Proof. intros Hn. unfold DLOG. by rewrite Hn. Qed.

Lemma on_front_run {A} (f : prog OutMsg A) w m q r m' :
  alive w = true → outMsgQueue w = m :: q → f m = (r, m') →
  on_front f w = (r, set_outMsgQueue (m' :: q) w).
Proof. intros Ha Hq Hf. unfold on_front. by rewrite self_bind, Ha, Hq, Hf. Qed.

Lemma try_encode_run w m q m' :
  alive w = true → outMsgQueue w = m :: q → encode m = (Val tt, m') →
  try_encode w = (Val true, set_outMsgQueue (m' :: q) w).
Proof.
  intros Ha Hq He. unfold try_encode, try_catch, bind.
  by rewrite (on_front_run _ w m q (Val tt) m').
Qed.

(** [doSend] when the front message can be encoded. *)
Lemma doSend_run w then_ m q b :
  alive w = true → outMsgQueue w = m :: q → encodes m b →
  ∃ m', doSend then_ w =
    (Val tt, set_writes (writes w ++ [(b, then_)]) (set_log (log w ++ [Started b])
      (set_outMsgQueue (m' :: q)
        (set_writeTimer (map cancelled (writeTimer w) ++ [Waiting]) w)))).
Proof.
  intros Ha Hq He. unfold encodes in He.
  destruct (bind_val_inv _ _ _ _ _ He) as ([] & m1 & Henc & Hget).
  destruct (getBuffer m1) as [r m2] eqn:Hg. injection Hget as -> _.
  exists m2. unfold doSend, updateWriteTimer, cancel_writeTimer, waitOnWriteTimer.
  rewrite !bind_assoc. erewrite bind_val by by apply update_run.
  erewrite bind_val by by apply update_run.
  etrans; [eapply holding_run|].
  - etrans; [by apply bind_val, (try_encode_run _ m q m1)|]. cbn [negb].
    etrans; [by apply bind_val, (on_front_run _ _ m1 q _ m2)|]. done.
  - unfold owned. simpl. destruct (writes w); simpl; by rewrite orb_true_r.
  - reflexivity.
Qed.

(** Writes that complete: the next message is written, until none is left. The
    protocol object keeps the connection alive. *)
Definition kept w : Prop := alive w = true ∧ object_alive w && linked (object w) = true.

Lemma kept_owned w : kept w → owned w = true.
Proof. intros [_ Ho]. unfold owned. by rewrite Ho, orb_true_r. Qed.

Section completions.
Context (first other : io unit) (Hndebug : NDEBUG = true).
Abbreviation handle := (handle first other).

Lemma write_done w b m0 q r w1 :
  kept w → writes w = [(b, KeepSending)] → outMsgQueue w = m0 :: q →
  keepSending (set_log (log w ++ [Written b]) (set_outMsgQueue q (set_in_strand true
    (set_writes [] (set_conn_refs (S (conn_refs w)) w))))) = (r, w1) →
  kept w1 →
  handle (WriteDone success) w =
    (r, set_conn_refs (pred (conn_refs w1)) (set_in_strand false w1)).
Proof.
  intros [Ha Ho] Hw Hq Hk Hk1. cbn [Connection.handle]. unfold get. unfold bind at 1. rewrite Hw.
  apply (holding_run _ _ r (set_in_strand false w1)).
  - unfold modify. unfold bind at 1. unfold strand, on_written, DVLOG.
    rewrite (bind_val _ _ _ _ _ (DLOG_off _ _ Hndebug)).
    unfold pop_front. rewrite bind_assoc, self_bind. simpl. rewrite Ha, Hq.
    unfold modify, record. unfold bind. simpl. rewrite Hk. reflexivity.
  - by apply kept_owned.
Qed.

Lemma write_done_next w b m0 m q b' :
  kept w → writes w = [(b, KeepSending)] → outMsgQueue w = m0 :: m :: q → encodes m b' →
  ∃ w' m', handle (WriteDone success) w = (Val tt, w') ∧ kept w' ∧
    writes w' = [(b', KeepSending)] ∧ outMsgQueue w' = m' :: q ∧
    log w' = log w ++ [Written b; Started b'].
Proof.
  intros Hk Hw Hq He.
  set (w0 := set_log (log w ++ [Written b]) (set_outMsgQueue (m :: q) (set_in_strand true
    (set_writes [] (set_conn_refs (S (conn_refs w)) w))))).
  destruct (doSend_run w0 KeepSending m q b' (proj1 Hk) eq_refl He) as [m' Hs].
  eexists _, m'. split.
  - eapply write_done; [done..| |].
    + unfold keepSending. rewrite self_bind. simpl. rewrite (proj1 Hk). apply Hs.
    + apply Hk.
  - split; [apply Hk|]. simpl. by rewrite <-app_assoc.
Qed.

Lemma write_done_last w b m0 :
  kept w → writes w = [(b, KeepSending)] → outMsgQueue w = [m0] →
  ∃ w', handle (WriteDone success) w = (Val tt, w') ∧ kept w' ∧
    writes w' = [] ∧ outMsgQueue w' = [] ∧ log w' = log w ++ [Written b] ∧
    writeTimer w' = map cancelled (writeTimer w).
Proof.
  intros Hk Hw Hq. eexists. split.
  - eapply write_done; [done..| |].
    + unfold keepSending. rewrite self_bind. simpl. rewrite (proj1 Hk).
      apply update_run, Hk.
    + apply Hk.
  - split; [apply Hk|]. done.
Qed.

Fixpoint drained (b : list Z) (bs : list (list Z)) : list entry :=
  match bs with
  | [] => [Written b]
  | b' :: bs' => [Written b; Started b'] ++ drained b' bs'
  end.

Lemma drain q bs : Forall2 encodes q bs → ∀ w b m0,
  kept w → writes w = [(b, KeepSending)] → outMsgQueue w = m0 :: q →
  ∃ w', run_all handle (replicate (S (length q)) (WriteDone success)) w = (Val tt, w') ∧
    kept w' ∧ writes w' = [] ∧ outMsgQueue w' = [] ∧ log w' = log w ++ drained b bs ∧
    Forall (.≠ Waiting) (writeTimer w').
Proof.
  induction 1 as [|m b' q bs He Hq IH]; intros w b m0 Hk Hw Hmq.
  - destruct (write_done_last w b m0 Hk Hw Hmq) as (w' & Hr & Hk' & Hw' & Hq' & Hl & Ht).
    exists w'. split_and!; try done.
    + cbn [replicate length run_all]. by rewrite (bind_val _ _ _ _ _ Hr).
    + rewrite Ht. apply Forall_map, Forall_true. by intros [].
  - destruct (write_done_next w b m0 m q b' Hk Hw Hmq He) as (w1 & m' & Hr & Hk1 & Hw1 & Hq1 & Hl1).
    destruct (IH w1 b' m' Hk1 Hw1 Hq1) as (w' & Hr' & Hk' & ? & ? & Hl & ?).
    exists w'. split_and!; try done.
    + cbn [replicate length run_all]. by rewrite (bind_val _ _ _ _ _ Hr).
    + rewrite Hl, Hl1, <-app_assoc. done.
Qed.
End completions.

(** ** Receiving a message *)

Lemma on_inMsg_run {A} (f : prog InMsg A) w r m :
  alive w = true → f (inMsg w) = (r, m) → on_inMsg f w = (r, set_inMsg m w).
Proof. intros Ha Hf. unfold on_inMsg. rewrite self_bind, Ha. unfold zoom. by rewrite Hf. Qed.

(** The read timer's waits are aborted and a new one started. *)
Definition renewed w : world P := set_readTimer (map cancelled (readTimer w) ++ [Waiting]) w.

Lemma updateReadTimer_run w : alive w = true → updateReadTimer w = (Val tt, renewed w).
Proof.
  intros Ha. unfold updateReadTimer, cancel_readTimer, waitOnReadTimer.
  erewrite bind_val by by apply update_run. by rewrite update_run.
Qed.

Lemma parseIncomingMessage_run first w m hb :
  alive w = true → getHeaderBuffer (inMsg w) = (Val hb, m) →
  parseIncomingMessage first w =
    (Val tt, set_reads (reads w ++ [(hb, HeaderRead first)]) (set_inMsg m (renewed w))).
Proof.
  intros Ha Hh. unfold parseIncomingMessage.
  rewrite (bind_val _ _ _ _ _ (updateReadTimer_run w Ha)).
  erewrite bind_val by by apply on_inMsg_run. unfold asyncRead. by rewrite update_run.
Qed.

Section receiving.
Context (first other : io unit) (Hndebug : NDEBUG = true).
Abbreviation handle := (handle first other).

(** A completed read, up to the call of its lambda. *)
Lemma read_done w off n body rs bytes m :
  alive w = true → Z.testbit (closeStatus w) 0 = false →
  reads w = ((off, n), body) :: rs → fill off bytes (inMsg w) = (Val tt, m) →
  handle (ReadDone success bytes) w =
    strand (match body with
            | HeaderRead f => after_header f
            | BodyRead f => after_body first other f
            end) (set_inMsg m (set_reads rs w)).
Proof.
  intros Ha Hc Hr Hf. cbn [Connection.handle]. unfold get. unfold bind at 1. rewrite Hr.
  unfold modify. unfold bind at 1. unfold received, get. rewrite bind_assoc.
  unfold bind at 1. simpl. rewrite Ha.
  erewrite bind_val by by apply on_inMsg_run. unfold strand.
  set (w1 := set_in_strand true _). unfold on_read.
  rewrite (bind_val _ _ _ _ _ (isReceiving_run w1 Ha)).
  change (closeStatus w1) with (closeStatus w). rewrite Hc. cbn [negb].
  unfold DVLOG. by rewrite (bind_val _ _ _ _ _ (DLOG_off _ _ Hndebug)).
Qed.

Lemma after_header_run w f off n m1 :
  alive w = true → parseHeaderAndGetBodyBuffer (inMsg w) = (Val (off, n), m1) →
  after_header f w =
    (Val tt, set_reads (reads w ++ [((off, n), BodyRead f)]) (set_inMsg m1 (renewed w))).
Proof.
  intros Ha Hp. unfold after_header. rewrite (bind_val _ _ _ _ _ (updateReadTimer_run w Ha)).
  unfold try_catch. erewrite bind_val by by apply on_inMsg_run.
  unfold asyncRead. by rewrite update_run.
Qed.

(** The world in which the handler of a message is called. *)
Definition delivering (f : bool) (w : world P) : world P :=
  set_log (log w ++ [Dispatched f]) (set_readTimer (map cancelled (readTimer w)) w).

Lemma after_body_run w (f : bool) r w1 :
  alive w = true → protocol w = true →
  (if f then first else other) (delivering f w) = (r, w1) →
  after_body first other f w =
    match r with
    | Val tt =>
        (let! receiving := isReceiving in
         if receiving then parseIncomingMessage false else ret tt) w1
    | Exc _ => bind droppingLogInfo (λ _, abort) w1
    | Fault x => (Fault x, w1)
    end.
Proof.
  intros Ha Hp Hh. unfold after_body, cancel_readTimer.
  erewrite bind_val by by apply update_run.
  unfold DVLOG. rewrite (bind_val _ _ _ _ _ (DLOG_off _ _ Hndebug)).
  unfold try_catch, sendInMsg. unfold bind at 1. unfold bind at 1. rewrite self_bind. simpl.
  rewrite Ha, Hp. unfold record, modify. unfold bind at 1.
  change (set_log _ _) with (delivering f w). rewrite Hh. destruct r as [[]|e|x]; [reflexivity..].
Qed.

(** The two reads of a message whose header is accepted, up to what follows the call
    of the protocol's handler. *)
Lemma receive_run w f off n hdr m1 bo bn m2 body m3 r w3 :
  alive w = true → Z.testbit (closeStatus w) 0 = false → protocol w = true →
  reads w = [((off, n), HeaderRead f)] → fill off hdr (inMsg w) = (Val tt, m1) →
  parseHeaderAndGetBodyBuffer m1 = (Val (bo, bn), m2) → fill bo body m2 = (Val tt, m3) →
  (if f then first else other)
    (delivering f (set_in_strand true (set_inMsg m3 (set_reads [] (renewed w))))) = (r, w3) →
  (handle (ReadDone success hdr) ;;; handle (ReadDone success body)) w =
    strand (λ _, match r with
      | Val tt => (let! receiving := isReceiving in
                   if receiving then parseIncomingMessage false else ret tt) w3
      | Exc _ => (droppingLogInfo ;;; abort) w3
      | Fault x => (Fault x, w3)
      end) w.
Proof.
  intros Ha Hc Hp Hr Hf Hh Hb Hx. unfold bind at 1.
  rewrite (read_done w off n _ [] hdr m1) by done. unfold strand at 1.
  rewrite (after_header_run _ f bo bn m2) by done.
  set (w1 := set_in_strand false _).
  rewrite (read_done w1 bo bn (BodyRead f) [] body m3) by done. unfold strand.
  by rewrite (after_body_run _ f r w3).
Qed.
End receiving.

(** ** Stopping *)

Definition stopped_timers w : world P :=
  set_writeTimer (map cancelled (writeTimer w))
    (set_readTimer (map cancelled (readTimer w)) (set_closeStatus 3 w)).

(** Logging, when it is on, can name the peer. *)
Definition loggable w : Prop := verbose = false ∨ ∃ a, remote_endpoint (peer w) = Val a.

Lemma VLOG_run w : alive w = true → loggable w → VLOG logInfo w = (Val tt, w).
Proof.
  intros Ha Hl. unfold VLOG. destruct verbose eqn:Hv; [|done]. destruct Hl as [?|[a Hl]]; [congruence|].
  unfold logInfo, getPeerAddress. rewrite bind_assoc, self_bind, Ha. unfold lift, bind. by rewrite Hl.
Qed.

(** [do_stop] up to the shutdown of the socket. *)
Lemma do_stop_run w : alive w = true → loggable w →
  do_stop w = (on_peer (shutdown shutdown_both) ;;; on_peer close ;;; reset_protocol) (stopped_timers w).
Proof.
  intros Ha Hl. unfold do_stop. erewrite bind_val by by apply update_run.
  erewrite bind_val by by apply VLOG_run.
  unfold cancel_readTimer, cancel_writeTimer. erewrite bind_val by by apply update_run.
  erewrite bind_val by by apply update_run. done.
Qed.

Definition no_waits w : Prop :=
  Forall (.≠ Waiting) (readTimer w) ∧ Forall (.≠ Waiting) (writeTimer w).

Lemma cancelled_waits l : Forall (.≠ Waiting) (map cancelled l).
Proof. apply Forall_map, Forall_true. by intros []. Qed.

Lemma on_peer_run {A} (f : prog socket A) w r s :
  alive w = true → f (peer w) = (r, s) → on_peer f w = (r, set_peer s w).
Proof. intros Ha Hf. unfold on_peer. rewrite self_bind, Ha. unfold zoom. by rewrite Hf. Qed.

(** The connection after its last owner has let it go. *)
Definition destroyed w : world P :=
  gone (set_writeTimer (map cancelled (writeTimer w))
    (set_readTimer (map cancelled (readTimer w)) w)).

Lemma release_run w : alive w = true → owned w = false →
  release w =
    if NDEBUG || Z.testbit (closeStatus w) 0 || Z.testbit (closeStatus w) 1
    then (Val tt, destroyed w) else (Fault AssertionFailed, w).
Proof.
  intros Ha Ho. unfold release, get. unfold bind at 1. rewrite Ha, Ho. cbn [negb andb].
  unfold destroy. rewrite (bind_val _ _ _ _ _ (isStopped_run w Ha)).
  unfold assertM. rewrite <-orb_assoc. set (stopped := Z.testbit _ 0 || _). clearbody stopped.
  assert ((cancel_readTimer ;;; cancel_writeTimer ;;; modify gone) w = (Val tt, destroyed w)) as Hd.
  { unfold cancel_readTimer, cancel_writeTimer. erewrite bind_val by by apply update_run.
    by erewrite bind_val by by apply update_run. }
  destruct NDEBUG; [exact Hd|]. destruct stopped; [exact Hd|done].
Qed.

Lemma reset_protocol_run w : alive w = true → closeStatus w = 3 → no_waits w →
  ∃ w2, reset_protocol w = (Val tt, w2) ∧ closeStatus w2 = 3 ∧ peer w2 = peer w ∧
    protocol w2 = false ∧ no_waits w2.
Proof.
  intros Ha Hc Hw. unfold reset_protocol. erewrite bind_val by by apply update_run.
  unfold get. unfold bind at 1. destruct (_ =? 0)%nat; [|by eexists].
  unfold modify. unfold bind at 1. set (w1 := set_object_alive false _).
  destruct (owned w1) eqn:Ho; [rewrite release_owned by done; by eexists|].
  rewrite release_run by done. change (closeStatus w1) with (closeStatus w). rewrite Hc, orb_true_r.
  eexists. split_and!; try done. split; apply cancelled_waits.
Qed.

(** Releasing the last pointer inside a member function that goes on. *)
Lemma release_then_stop w : alive w = true → owned w = false → closeStatus w = 0 →
  ((release ;;; stop) w).1 = Fault (if NDEBUG then DanglingReference else AssertionFailed).
Proof.
  intros Ha Ho Hc. unfold bind at 1. rewrite release_run by done. rewrite Hc.
  destruct NDEBUG; [|done]. cbn [orb]. unfold stop, dispatch. by rewrite self_bind.
Qed.

Lemma stop_in_strand w : in_strand w = true → alive w = true → stop w = do_stop w.
Proof. intros Hs Ha. unfold stop, dispatch. by rewrite self_bind, Ha, Hs. Qed.
End runs.

(** ** Properties *)

Section properties.
Context `{Platform} `{Asio} `{Traits} `{Logging} {P : Type} `{BaseProtocol P} `{!Protocol}.
Implicit Types w : world P.
Abbreviation io A := (prog (world P) A).
Abbreviation handle := (handle handleFirstMessage handleMessage).
Abbreviation reachable := (reachable started (step handleFirstMessage handleMessage)).

(** C1. Whatever the operating system, the other threads and the protocol do,
    at most one write is pending, and the buffers handed to the socket are the
    encodings of the accepted messages, each exactly once and in the order in
    which they were accepted; the completed writes are the first of them, and
    behind the message being written the queue holds the rest, untouched. *)
Theorem writes_in_order w : reachable w →
  (length (writes w) ≤ 1)%nat ∧
  Forall2 encodes (take (length (started_of w)) (accepted_of w)) (started_of w) ∧
  written_of w `prefix_of` started_of w ∧
  (length (started_of w) ≤ S (length (written_of w)))%nat ∧
  (writes w ≠ [] → started_of w = written_of w ++ map fst (writes w)) ∧
  tail (outMsgQueue w) = drop (S (length (written_of w))) (accepted_of w).
Proof.
  intros Hr. assert (ordered w) as [[Hl Ht He] Ho _].
  { revert w Hr. apply reachable_inv; [apply started_ordered|].
    intros w w' Hw (ev & r & _ & Hh & _). pose proof (handle_ordered ev w Hw) as Hw'. by rewrite Hh in Hw'. }
  destruct Ho as [[Hw (b & Hs & Hb)]|(b & t & Hw & Hs)]; rewrite Hw, Hs in *; split_and!; simpl; auto.
  all: rewrite ?length_app; simpl; first [lia | by eexists | done].
Qed.

(** C2. At most one read is pending, the protocol's [handleFirstMessage] is
    called at most once, and before every call of [handleMessage]. *)
Theorem first_message_first w : reachable w →
  (length (reads w) ≤ 1)%nat ∧
  (dispatched_of w = [] ∨ ∃ n, dispatched_of w = true :: replicate n false).
Proof.
  intros Hr. assert (chained w) as Hc.
  { revert w Hr. apply reachable_inv; [apply started_chained|].
    intros w w' Hw (ev & r & _ & Hh & _). pose proof (handle_chained ev w Hw) as Hw'. by rewrite Hh in Hw'. }
  destruct Hc as [[-> [[] Ht]]|(r & -> & Ht)]; simpl; auto.
  destruct (expects_first r); auto.
Qed.

(** C4. In a build without assertions, when the write that is pending is one that goes on with
    the queue (it was not started by [sendAndStop]), the protocol object keeps the
    connection alive, and all the messages of the queue can be encoded, the queue empties itself if every write
    succeeds: one completion per message later everything accepted has been written in
    order, no write is pending and the write timer is off. *)
Theorem queue_drains w b m0 q bs :
  NDEBUG = true → kept w → writes w = [(b, KeepSending)] → outMsgQueue w = m0 :: q →
  Forall2 encodes q bs →
  ∃ w', run_all handle (replicate (S (length q)) (WriteDone success)) w = (Val tt, w') ∧
    outMsgQueue w' = [] ∧ writes w' = [] ∧ written_of w' = written_of w ++ b :: bs ∧
    Forall (.≠ Waiting) (writeTimer w').
Proof.
  intros Hn Hk Hw Hq He. destruct (drain handleFirstMessage handleMessage Hn q bs He w b m0 Hk Hw Hq)
    as (w' & Hr & _ & Hw' & Hq' & Hl & Ht).
  exists w'. split_and!; try done. unfold written_of. rewrite Hl, omap_app. f_equal.
  clear. revert b. induction bs as [|b' bs IH]; intros b; [done|]. simpl. f_equal. apply IH.
Qed.

(** [sendAndStop] stops the connection only when it finds the queue empty:
    behind another message it does what [send] does, and nothing else will
    stop the connection. On an empty queue the write it starts ends with [stop]. *)
Theorem sendAndStop_forgets_to_stop w m :
  (outMsgQueue w ≠ [] → try_send m Stop w = try_send m KeepSending w ∧
     (in_strand w = true → sendAndStop m w = send m w)) ∧
  (outMsgQueue w = [] → writes w = [] → alive w = true → Z.testbit (closeStatus w) 1 = false →
     ∀ b, encodes m b → ∃ w', try_send m Stop w = (Val tt, w') ∧ writes w' = [(b, Stop)]).
Proof.
  assert (outMsgQueue w ≠ [] → try_send m Stop w = try_send m KeepSending w) as Hs.
  { intros Hq. unfold try_send. destruct (alive w) eqn:Ha.
    - rewrite !(bind_val _ _ _ _ _ (isSendind_run w Ha)).
      destruct (negb _); [done|]. rewrite !self_bind, Ha. by destruct (outMsgQueue w).
    - unfold isSendind. by rewrite !bind_assoc, !self_bind, Ha. }
  split.
  - intros Hq. split; [by apply Hs|]. intros Hst. unfold sendAndStop, send, trySendOrEnqueueThen, dispatch.
    rewrite !self_bind, Hst. destruct (alive w); auto.
  - intros Hq Hw Ha Hc b He. unfold try_send.
    rewrite (bind_val _ _ _ _ _ (isSendind_run w Ha)), Hc. cbn [negb].
    rewrite self_bind, Ha, Hq. unfold modify, record. unfold bind.
    destruct (doSend_run (set_log (log w ++ [Accepted m]) (set_outMsgQueue [m] w)) Stop m [] b Ha eq_refl He)
      as [m' Hd].
    eexists. split; [exact Hd|]. simpl. by rewrite Hw.
Qed.

(** C3. In a build without assertions, a message is received in two reads, the header and
    the body it announces, into the connection's message. The protocol's handler then runs
    in the strand with the read timer off. If it returns and the connection is
    still receiving, the next header is read; if it throws, or if the header is
    rejected, the connection is dropped ([abort]). *)
Theorem receive_message w f off n hdr m1 :
  NDEBUG = true → alive w = true → Z.testbit (closeStatus w) 0 = false → protocol w = true →
  reads w = [((off, n), HeaderRead f)] → fill off hdr (inMsg w) = (Val tt, m1) →
  (∀ e m2, parseHeaderAndGetBodyBuffer m1 = (Exc e, m2) →
     handle (ReadDone success hdr) w =
       strand (λ _, (droppingLogInfo ;;; abort)
         (set_inMsg m2 (renewed (set_in_strand true (set_reads [] w))))) w) ∧
  (∀ bo bn m2 body m3 r w3,
     parseHeaderAndGetBodyBuffer m1 = (Val (bo, bn), m2) →
     fill bo body m2 = (Val tt, m3) →
     (if f then handleFirstMessage else handleMessage)
       (delivering f (set_in_strand true (set_inMsg m3 (set_reads [] (renewed w))))) = (r, w3) →
     (handle (ReadDone success hdr) ;;; handle (ReadDone success body)) w =
       strand (λ _, match r with
         | Val tt => (let! receiving := isReceiving in
                      if receiving then parseIncomingMessage false else ret tt) w3
         | Exc _ => (droppingLogInfo ;;; abort) w3
         | Fault x => (Fault x, w3)
         end) w).
Proof.
  intros Hn Ha Hc Hp Hr Hf. split.
  - intros e m2 Hh. rewrite (read_done _ _ Hn w off n _ [] hdr m1) by done.
    unfold strand, after_header. set (w1 := set_in_strand true _).
    rewrite (bind_val _ _ _ _ _ (updateReadTimer_run w1 Ha)). unfold try_catch. unfold bind at 1.
    by rewrite (on_inMsg_run _ _ (Exc e) m2).
  - intros bo bn m2 body m3 r w3 Hh Hb Hx.
    by apply (receive_run handleFirstMessage handleMessage Hn w f off n hdr m1 bo bn m2 body m3).
Qed.

(** [isStopped] holds as soon as one direction is closed, not only when both
    are: after [stopReceiving] the connection can still send, but it is stopped
    and not alive. *)
Theorem half_closed_is_stopped w :
  alive w = true →
  ∃ receiving sending, isReceiving w = (Val receiving, w) ∧ isSendind w = (Val sending, w) ∧
    isStopped w = (Val (negb (receiving && sending)), w) ∧
    (closeStatus w = 0 → let w1 := (stopReceiving w).2 in
       isSendind w1 = (Val true, w1) ∧ isStopped w1 = (Val true, w1) ∧
       isAlive w1 = (Val false, w1)).
Proof.
  intros Ha. eexists _, _. split_and!;
    [by apply isReceiving_run|by apply isSendind_run| |].
  - rewrite isStopped_run by done. by rewrite negb_andb, !negb_involutive.
  - intros Hc w1.
    assert (alive w1 = true ∧ closeStatus w1 = 1) as [Ha1 Hc1].
    { unfold w1, stopReceiving. erewrite bind_val by by apply update_run.
      unfold on_peer. rewrite self_bind. simpl. rewrite Ha. unfold zoom. simpl.
      destruct (shutdown _ _). simpl. by rewrite Hc. }
    rewrite isSendind_run, isStopped_run, Hc1 by done. split_and!; [done..|].
    unfold isAlive. by rewrite (bind_val _ _ _ _ _ (isStopped_run w1 Ha1)), Hc1.
Qed.

(** [stop], called in the strand, closes both directions and aborts both
    timers. If the socket can still be shut down it is closed and the protocol
    pointer reset. If not (the peer is gone), the exception leaves [stop] with
    the socket open and the protocol still attached. *)
Theorem stop_correct w :
  in_strand w = true → alive w = true → loggable w →
  let r := stop w in
  closeStatus r.2 = 3 ∧
  Forall (.≠ Waiting) (readTimer r.2) ∧ Forall (.≠ Waiting) (writeTimer r.2) ∧
  (∀ s s', shutdown shutdown_both (peer w) = (Val tt, s) → close s = (Val tt, s') →
     r.1 = Val tt ∧ is_open (peer r.2) = false ∧ protocol r.2 = false) ∧
  (∀ e s, shutdown shutdown_both (peer w) = (Exc e, s) →
     r.1 = Exc e ∧ is_open (peer r.2) = is_open (peer w) ∧ protocol r.2 = protocol w).
Proof.
  intros Hs Ha Hl. rewrite stop_in_strand, do_stop_run by done. set (w0 := stopped_timers w).
  assert (alive w0 = true) as Ha0 by done.
  assert (no_waits w0) as Hw0 by (split; apply cancelled_waits).
  destruct (shutdown shutdown_both (peer w)) as [[[]|e|x] s] eqn:Hsh.
  - rewrite (bind_val _ _ _ _ _ (on_peer_run _ w0 _ _ Ha0 Hsh)).
    destruct (close s) as [[[]|e|x] s'] eqn:Hcl.
    + rewrite (bind_val _ _ _ _ _ (on_peer_run _ (set_peer s w0) _ _ Ha0 Hcl)).
      destruct (reset_protocol_run (set_peer s' (set_peer s w0)))
        as (w2 & -> & Hc & Hp & Hpr & [? ?]); [done..|].
      split_and!; [done..| |].
      * intros ? ? [= <-] Hcl'. rewrite Hcl in Hcl'. injection Hcl' as <-.
        split_and!; [done| |done]. simpl. rewrite Hp. simpl. by pose proof (close_closes s) as Ho; rewrite Hcl in Ho.
      * intros ? ? [=].
    + rewrite (bind_exc _ _ _ _ _ (on_peer_run _ (set_peer s w0) _ _ Ha0 Hcl)).
      destruct Hw0. split_and!; try done. intros ? ? [= <-]. by rewrite Hcl.
    + exfalso. apply (close_defined s x). by rewrite Hcl.
  - rewrite (bind_exc _ _ _ _ _ (on_peer_run _ w0 _ _ Ha0 Hsh)).
    destruct Hw0. split_and!; try done. intros ? ? [= <- <-]. split_and!; try done. simpl.
    pose proof (shutdown_open shutdown_both (peer w)) as Ho. by rewrite Hsh in Ho.
  - exfalso. apply (shutdown_defined shutdown_both (peer w) x). by rewrite Hsh.
Qed.

(** C35. A peer that stays silent until the read timeout makes the program use
    freed memory: only the protocol object points to the connection (no handler
    of the read chain or of a timer keeps a [shared_ptr]), so when the timeout
    handler calls [connectionLost] the connection is destroyed while its own
    [abort] is running. With assertions on, the destructor stops the program,
    because nothing has stopped the connection. *)
Theorem idle_timeout_destroys_connection s m p w :
  start (accepted s m p) = (Val tt, w) → linked p = true → verbose = false →
  (∃ p', connectionLost p = (Val tt, p') ∧ linked p' = false) →
  (∃ a, remote_endpoint s = Val a) →
  ((handle (ReadTimer 0 true) ;;; handle (ReadTimer 0 false)) w).1 =
    Fault (if NDEBUG then DanglingReference else AssertionFailed).
Proof.
  intros Hs Hl Hv (p' & Hlost & Hl') [a Hrem].
  assert (peer w = s ∧ readTimer w = [Waiting] ∧ alive w = true ∧ protocol w = true ∧
    object w = p ∧ object_alive w = true ∧ conn_refs w = 0%nat ∧ writes w = [] ∧ closeStatus w = 0)
    as (Hp & Ht & Ha & Hpr & Ho & Hoa & Hcr & Hw & Hc).
  { revert Hs. unfold start. erewrite bind_val by by apply update_run.
    assert (∀ w0, DVLOG logInfo w0 = (Val tt, w0)) as Hlog
      by (intros; unfold DVLOG, DLOG, VLOG; rewrite Hv; by destruct NDEBUG).
    rewrite (bind_val _ _ _ _ _ (Hlog _)). unfold parseIncomingMessage.
    erewrite bind_val by by apply updateReadTimer_run.
    destruct (getHeaderBuffer m) as [[hb|e|x] m1] eqn:Hh.
    - erewrite bind_val by by apply on_inMsg_run.
      unfold asyncRead. rewrite update_run by done. by intros [= <-].
    - erewrite bind_exc by by apply on_inMsg_run. done.
    - erewrite bind_fault by by apply on_inMsg_run. done. }
  cbn [Connection.handle]. unfold timer, get. unfold bind at 1. unfold bind at 1. rewrite Ht. simpl.
  unfold modify. unfold bind at 1. simpl.
  unfold bind at 1. unfold strand. set (w1 := set_in_strand true _).
  assert (DLOG (unless_aborted success logInfo) w1 = (Val tt, w1)) as Hd.
  { unfold DLOG. destruct NDEBUG; [done|]. unfold unless_aborted. rewrite decide_False by done.
    unfold logInfo, getPeerAddress. rewrite bind_assoc, self_bind. simpl. rewrite Ha.
    unfold lift, bind. simpl. by rewrite Hp, Hrem. }
  unfold on_timer. rewrite (bind_val _ _ _ _ _ Hd).
  unfold abort_with, unless_aborted. rewrite decide_False by done.
  unfold abort. rewrite self_bind. simpl. rewrite Ha, Hpr.
  rewrite (bind_val _ _ _ tt (set_object p' w1)); cycle 1.
  { unfold on_object, get, bind. simpl. rewrite Hoa. unfold zoom. simpl. by rewrite Ho, Hlost. }
  set (w2 := set_object p' w1).
  assert (owned w2 = false) as Hown by (unfold owned; simpl; by rewrite Hcr, Hl', Hw, andb_false_r).
  pose proof (release_then_stop w2 Ha Hown Hc) as Hr. by destruct ((release ;;; stop) w2).
Qed.

(** After [stop] has run the protocol pointer is null, and [abort] follows
    it without a test: a timeout that was already due, or a write or read that
    ends with any error but [operation_aborted], dereferences null. *)
Theorem error_after_stop w e :
  NDEBUG = true → alive w = true → protocol w = false → e ≠ operation_aborted →
  (∀ i, readTimer w !! i = Some (Due e) →
     (handle (ReadTimer i false) w).1 = Fault NullDereference) ∧
  (∀ i, writeTimer w !! i = Some (Due e) →
     (handle (WriteTimer i false) w).1 = Fault NullDereference) ∧
  (e ≠ success → writes w ≠ [] → (handle (WriteDone e) w).1 = Fault NullDereference).
Proof.
  intros Hn Ha Hp He.
  assert (∀ w', alive w' = true → protocol w' = false → (on_timer e w').1 = Fault NullDereference)
    as Habort.
  { intros w' Ha' Hp'. unfold on_timer. rewrite (bind_val _ _ _ _ _ (DLOG_off _ _ Hn)).
    unfold abort_with, unless_aborted. rewrite decide_False by done.
    unfold abort. by rewrite self_bind, Ha', Hp'. }
  cbn [Connection.handle]. split_and!.
  - intros i Hi. unfold timer, get. unfold bind at 1. rewrite Hi. unfold modify, strand, bind at 1.
    set (w' := set_in_strand true _). specialize (Habort w' Ha Hp). by destruct (on_timer e w').
  - intros i Hi. unfold timer, get. unfold bind at 1. rewrite Hi. unfold modify, strand, bind at 1.
    set (w' := set_in_strand true _). specialize (Habort w' Ha Hp). by destruct (on_timer e w').
  - intros Hs Hw. unfold get. unfold bind at 1. destruct (writes w) as [|[b t] ws]; [done|].
    unfold holding, modify, strand. unfold bind at 1.
    set (w' := set_in_strand true _). specialize (Habort w' Ha Hp).
    assert (on_written b t e = on_timer e) as -> by by destruct e.
    by destruct (on_timer e w') as [[] ?].
Qed.
End properties.

(** ** Witnesses *)

(** A concrete system: a socket is whether it is open; a message is its bytes,
    with a two-byte header that announces one byte; the protocol object is its
    pointer to the connection, and answers every message. *)

Definition toy_socket (t : shutdown_type) : prog bool unit := λ s,
  if s then (Val tt, s) else (Exc (StdException "not connected"), s).

Definition toy_asio : Asio.
Proof.
  refine {| socket := bool; is_open s := s; shutdown := toy_socket; close := λ _, (Val tt, false);
    remote_endpoint s := if s then Val "127.0.0.1"%string else Exc (StdException "bad descriptor") |}.
  all: try by intros; repeat match goal with b : bool |- _ => destruct b end.
  all: intros; simplify_eq; by eexists.
Defined.

Definition toy_traits : Traits := {|
  InMsg := list Z; OutMsg := list Z;
  getHeaderBuffer := ret (0, 2);
  parseHeaderAndGetBodyBuffer := λ m,
    match m with 1 :: _ => (Val (2, 1), m) | _ => (Exc PacketException, m) end;
  fill := λ off bs m, (Val tt, take (Z.to_nat off) m ++ bs);
  encode := λ m, (Val tt, Z.of_nat (length m) :: m);
  getBuffer := λ m, (Val m, m);
|}.

Section witnesses.
#[local] Instance witness_platform : Platform := x86_64 true.
#[local] Existing Instances toy_asio toy_traits.
#[local] Instance witness_logging : Logging := {| verbose := false |}.
#[local] Instance witness_base : BaseProtocol bool := {|
  connectionLost := put false; linked := id |}.
#[local] Program Instance witness_protocol : Protocol := {|
  handleFirstMessage := send [7] ;;; send [8; 8]; handleMessage := sendAndStop [9] |}.
Next Obligation. apply client_bind; intros; apply client_send. Qed.
Next Obligation. apply client_sendAndStop. Qed.

Abbreviation handle := (handle handleFirstMessage handleMessage).
Abbreviation reachable := (reachable started (step handleFirstMessage handleMessage)).

(** The connection after [start], and after the events [evs]. *)
Definition fresh : world bool := Eval vm_compute in (start (accepted true [] true)).2.
Definition after_events (evs : list event) : world bool := (run_all handle evs fresh).2.

Lemma fresh_reachable : reachable fresh.
Proof. apply reach_init. by exists true, [], true. Defined.

Lemma event_reachable w ev w' :
  reachable w → possible ev w → handle ev w = (Val tt, w') → reachable w'.
Proof. intros Hw Hp Hh. eapply reach_step; [exact Hw|]. by exists ev, (Val tt). Qed.

(** The first message has arrived and both answers have been accepted. *)
Definition answered : world bool := Eval vm_compute in
  after_events [ReadDone success [1; 0]; ReadDone success [5]].

Lemma answered_reachable : reachable answered.
Proof.
  apply (event_reachable (after_events [ReadDone success [1; 0]]) (ReadDone success [5]));
    [|vm_compute; reflexivity|vm_compute; reflexivity].
  apply (event_reachable fresh (ReadDone success [1; 0]));
    [apply fresh_reachable|vm_compute; reflexivity|vm_compute; reflexivity].
Qed.

Lemma writes_in_order_witness :
  accepted_of answered = [[7]; [8; 8]] ∧ started_of answered = [[1; 7]] ∧
  (length (writes answered) ≤ 1)%nat.
Proof.
  split_and!; [reflexivity|reflexivity|]. apply writes_in_order, answered_reachable.
Defined.

Lemma first_message_first_witness :
  dispatched_of answered = [true] ∧ (length (reads answered) ≤ 1)%nat.
Proof. split; [reflexivity|]. apply first_message_first, answered_reachable. Defined.

Lemma queue_drains_witness :
  ∃ w', run_all handle [WriteDone success; WriteDone success] answered = (Val tt, w') ∧
    written_of w' = [[1; 7]; [2; 8; 8]].
Proof.
  destruct (queue_drains answered [1; 7] [1; 7] [[8; 8]] [[2; 8; 8]]) as (w' & Hr & _ & _ & Hw & _).
  - reflexivity.
  - split; reflexivity.
  - reflexivity.
  - reflexivity.
  - repeat constructor.
  - by exists w'.
Defined.

Lemma sendAndStop_forgets_to_stop_witness :
  try_send [9] Stop answered = try_send [9] KeepSending answered ∧
  ∃ w', try_send [9] Stop fresh = (Val tt, w') ∧ writes w' = [([1; 9], Stop)].
Proof.
  destruct (sendAndStop_forgets_to_stop answered [9]) as [Hs _].
  destruct (sendAndStop_forgets_to_stop fresh [9]) as [_ Hf].
  split; [by apply Hs|]. by apply Hf.
Defined.

Lemma receive_message_witness :
  (handle (ReadDone success [1; 0]) ;;; handle (ReadDone success [5])) fresh = (Val tt, answered) ∧
  (handle (ReadDone success [2; 0]) fresh).1 = Fault DanglingReference.
Proof.
  destruct (receive_message fresh true 0 2 [1; 0] [1; 0]) as [_ Hok]; [done..|].
  destruct (receive_message fresh true 0 2 [2; 0] [2; 0]) as [Hbad _]; [done..|].
  specialize (Hok 2 1 [1; 0] [5] [1; 0; 5] _ _ eq_refl eq_refl (surjective_pairing _)).
  specialize (Hbad PacketException [2; 0] eq_refl).
  split; [rewrite Hok; vm_compute; reflexivity|rewrite Hbad; vm_compute; reflexivity].
Defined.

Lemma half_closed_is_stopped_witness :
  let w := (stopReceiving fresh).2 in
  isSendind w = (Val true, w) ∧ isStopped w = (Val true, w) ∧ isAlive w = (Val false, w).
Proof.
  destruct (half_closed_is_stopped fresh eq_refl) as (_ & _ & _ & _ & _ & Hs). by apply Hs.
Defined.

(** In the strand; and with a socket that has lost its peer. *)
Definition inside : world bool := set_in_strand true fresh.
Definition inside_lost : world bool := set_peer (false : @socket toy_asio) inside.

Lemma stop_correct_witness :
  (stop inside).1 = Val tt ∧ protocol (stop inside).2 = false ∧
  (stop inside_lost).1 ≠ Val tt ∧ protocol (stop inside_lost).2 = true.
Proof.
  assert (∀ w : world bool, loggable w) as Hlog by by left.
  destruct (stop_correct inside eq_refl eq_refl (Hlog _)) as (_ & _ & _ & Hok & _).
  destruct (stop_correct inside_lost eq_refl eq_refl (Hlog _)) as (_ & _ & _ & _ & Hexc).
  destruct (Hok _ _ eq_refl eq_refl) as (? & _ & ?).
  destruct (Hexc _ _ eq_refl) as (He & _ & ?). split_and!; [done..| |done]. by rewrite He.
Defined.

Lemma idle_timeout_destroys_connection_witness :
  ((handle (ReadTimer 0 true) ;;; handle (ReadTimer 0 false)) fresh).1 = Fault DanglingReference.
Proof.
  refine (idle_timeout_destroys_connection (true : @socket toy_asio)
    ([] : @InMsg toy_traits) true fresh _ _ _ _ _); try reflexivity; by eexists.
Defined.

(** Another thread stops the connection when the timeout is already due. *)
Definition overtaken : world bool := Eval vm_compute in
  after_events [Retain; ReadTimer 0 true; Call DoStop; Posted].

Lemma error_after_stop_witness :
  (handle (ReadTimer 0 false) overtaken).1 = Fault NullDereference.
Proof.
  destruct (error_after_stop overtaken success) as (Hr & _); [done..|].
  by apply Hr.
Defined.
End witnesses.
End Connection.
