(* ===== verification/Protocol.v ===== *)
(** * Protocols (protocol/basicprotocol.hpp, standardprotocol.hpp,
      basicloginprotocol.h, accountloginprotocol.h/.cpp, io/account.h)

    A protocol object holds a pointer to its connection and the XTEA key of the
    session. It is given the messages of its connection, checks and decrypts
    them, and answers through the connection. The login protocol decrypts the
    first message with RSA, in the crypto service, and asks two hooks what to
    answer. *)

From S2P Require Import Prelude Platform Adler Xtea Rsa InMessage OutMessage Connection.

Module Protocol.

#[export] Existing Instance Connection.standard_traits.

(** The members of [StandardProtocol]: whether [connection] is set, and [xtea]. *)
Record protocol : Type := mk { connection : bool; xtea : Xtea.Xtea }.

Definition set_connection (c : bool) (p : protocol) : protocol := mk c (xtea p).
Definition set_xtea (x : Xtea.Xtea) (p : protocol) : protocol := mk (connection p) x.

(** [BasicProtocol::detachConnection] and [BasicProtocol::connectionLost]. *)
Definition detachConnection : prog protocol unit := modify (set_connection false).
Definition connectionLost : prog protocol unit := detachConnection.

#[export] Instance base_protocol : Connection.BaseProtocol protocol := {|
  Connection.connectionLost := connectionLost;
  Connection.linked := connection;
|}.

Section basic.
Context `{Platform} `{Connection.Asio} `{Connection.Logging}.
Abbreviation world := (Connection.world protocol).
Abbreviation io A := (prog world A).

(** [connection->m()] *)
Definition conn {A} (m : io A) : io A :=
  let! p := Connection.on_object get in
  if connection p then m else fail NullDereference.

Definition droppingLogInfo : io unit := conn Connection.droppingLogInfo.

Definition handlePacketException : io unit := droppingLogInfo ;;; conn Connection.stop.

(** [WrappedHandler::operator()] around the handler [h]. *)
Definition wrapHandler (h : io unit) : io unit :=
  let! alive := conn Connection.isAlive in
  if alive then
    try_catch h (λ e,
      match e with
      | PacketException => handlePacketException
      | StdException _ => droppingLogInfo ;;; conn Connection.stop
      end)
  else conn Connection.stop.

(** [try{ m } catch(PacketException&){ handlePacketException(); }] *)
Definition catch_packet (m : io unit) : io unit :=
  try_catch m (λ e, match e with PacketException => handlePacketException | _ => throw e end).

Section standard.
Context (onFirstMessage onMessage : io unit).

Definition handleFirstMessage : io unit :=
  catch_packet (Connection.on_inMsg InMessage.doChecksum ;;; onFirstMessage).

Definition handleMessage : io unit :=
  catch_packet
    (Connection.on_inMsg InMessage.doChecksum ;;;
     let! p := Connection.on_object get in
     Connection.on_inMsg (InMessage.xteaDecrypt (xtea p)) ;;;
     onMessage).
End standard.

(** The placeholder [StandardProtocol::onMessage]. *)
Definition onMessage : io unit := assertM false.

Definition setXtea (x : Xtea.Xtea) : io unit := Connection.on_object (modify (set_xtea x)).

Definition getXtea : io Xtea.Xtea :=
  let! p := Connection.on_object get in ret (xtea p).

(** Running the message's own operations on [msg]; yields the changed message. *)
Definition prepared (m : prog OutMessage.msg unit) (msg : OutMessage.msg) : io OutMessage.msg :=
  let '(r, msg') := m msg in lift r ;;; ret msg'.

Definition sendUnencrypted (msg : OutMessage.msg) : io unit :=
  let! msg := prepared OutMessage.addHeader msg in conn (Connection.send msg).

Definition send (msg : OutMessage.msg) : io unit :=
  let! x := getXtea in
  let! msg := prepared (OutMessage.addHeader ;;; OutMessage.xteaEncrypt x) msg in
  conn (Connection.send msg).

Definition sendAndStop (msg : OutMessage.msg) : io unit :=
  let! x := getXtea in
  let! msg := prepared (OutMessage.addHeader ;;; OutMessage.xteaEncrypt x) msg in
  conn (Connection.sendAndStop msg).

(** A [shared_ptr] to the protocol object is copied; it is dropped, and with the
    last one the object and its pointer to the connection go. *)
Definition share : io unit :=
  modify (λ w, Connection.set_proto_refs (S (Connection.proto_refs w)) w).

Definition unshare : io unit :=
  modify (λ w, Connection.set_proto_refs (pred (Connection.proto_refs w)) w) ;;;
  let! w := get in
  if (Connection.proto_refs w =? 0)%nat && negb (Connection.alive w && Connection.protocol w)
  then modify (Connection.set_object_alive false) ;;; Connection.release
  else ret tt.

End basic.

(** ** The login protocol *)

Inductive LoginError : Type :=
  | NoError
  | BadClientVersion
  | IpBanned
  | IpDisabled
  | EmptyCredentials
  | BadCredentials
  | GameNotRunning.

(** [AccountLoginSucceedResult::type]: the message of the day and its number, the
    characters (name, world, address, port), the end of the premium time. *)
Record login_result : Type := mk_result {
  MotdId : Z;
  Motd : list Z;
  CharacterList : list (list Z * list Z * Z * Z);
  PremiumEnd : Z;
}.

(** What the login protocol is configured with and what it calls: the two hooks,
    whose functions are scripts; [boost::lexical_cast] of an integer;
    [boost::algorithm::trim]; and the order in which the compiler evaluates the
    two string arguments of [loadAccount]. [account] is what an [AccountPtr]
    points to. *)
Class LoginEnv : Type := {
  account : Type;
  succeedHook : string → option account → outcome login_result;
  errorHook : LoginError → string → outcome (list Z);
  lexical_cast : Z → list Z;
  trim : list Z → list Z;
  left_to_right : bool;
}.

Definition ErrorByte : Z := 10.
Definition SucceedByte : Z := 20.
Definition CharacterListByte : Z := 100.

Section login.
Context `{Platform} `{Connection.Asio} `{Connection.Logging} `{Rsa.OpenSSL} `{LoginEnv}.
Context (rsa : Rsa.key Rsa.bignum).
Abbreviation world := (Connection.world protocol).
Abbreviation io A := (prog world A).

(** [io::Account::loadAccount] and [loadAccountId]: stubs that return at once and
    drop the handler. *)
Definition io_loadAccount (accName password : list Z) (handler : option account → io unit) :
    io (option account) := ret None.
Definition io_loadAccountId (accName password : list Z) (handler : Z → io unit) : io Z := ret (-1).

Definition validateIpAndVersion : io bool :=
  Connection.on_inMsg (InMessage.skipBytes 3) ;;;
  let! version := Connection.on_inMsg InMessage.getU16 in
  ret true.

(** [checkCredentials]: the trimmed copies are only tested. *)
Definition checkCredentials (accName password : list Z) (handler : LoginError → io unit) : io bool :=
  if (length (trim accName) =? 0)%nat || (length (trim password) =? 0)%nat then
    wrapHandler (handler EmptyCredentials) ;;; ret false
  else ret true.

Definition loadAccount (accName password : list Z)
    (handler : LoginError → option account → io unit) : io unit :=
  let! ok := checkCredentials accName password (λ e, handler e None) in
  if ok then
    io_loadAccount accName password (λ acc,
      wrapHandler (match acc with
                   | Some _ => handler NoError acc
                   | None => handler BadCredentials acc
                   end)) ;;; ret tt
  else ret tt.

Definition loadAccountId (accName password : list Z) (handler : LoginError → Z → io unit) : io unit :=
  let! ok := checkCredentials accName password (λ e, handler e 0) in
  if ok then
    io_loadAccountId accName password (λ accId,
      wrapHandler (if 0 <? accId then handler NoError accId else handler BadCredentials accId)) ;;;
    ret tt
  else ret tt.

(** The lambda [decryptMessageAndSetXta] wraps. *)
Definition decrypted (handler : io unit) (success : bool) : io unit :=
  if success then
    let! x := Connection.on_inMsg InMessage.getXtea in
    setXtea x ;;;
    handler
  else
    droppingLogInfo ;;; conn Connection.stop.

(** What the crypto service runs for a decryption at [off]. *)
Definition rsa_decrypted (handler : io unit) (off : Z) : io unit :=
  let! success := Connection.on_inMsg (InMessage.rsaDecrypted (Rsa.decrypt rsa 128) off) in
  wrapHandler (decrypted handler success).

(** [decryptMessageAndSetXta]. The crypto service runs the decryption inside the
    call when its strand is free; otherwise later, and the caller gets the offset
    the service will use. *)
Definition decryptMessageAndSetXta (free : bool) (handler : io unit) : io (option Z) :=
  let! off := Connection.on_inMsg (InMessage.peekRawChunckAs 128) in
  if free then rsa_decrypted handler off ;;; ret None else ret (Some off).

Definition addCharacter (c : list Z * list Z * Z * Z) : prog OutMessage.msg unit :=
  let '(name, world, ip, port) := c in
  OutMessage.addString name ;;;
  OutMessage.addString world ;;;
  OutMessage.addU32 ip ;;;
  OutMessage.addU16 port.

(** The message [sendCharacterList] builds. *)
Definition characterListMessage (res : login_result) : prog OutMessage.msg unit :=
  OutMessage.add 1 SucceedByte ;;;
  OutMessage.addString (lexical_cast (MotdId res) ++ [10] ++ Motd res) ;;;
  OutMessage.addByte CharacterListByte ;;;
  OutMessage.addByte (u8 (Z.of_nat (length (CharacterList res)))) ;;;
  run_all addCharacter (CharacterList res).

Definition sendCharacterList (acc : option account) : io unit :=
  let! res := try_catch
    (let! ip := conn Connection.getPeerAddress in
     let! res := lift (succeedHook ip acc) in ret (Some res))
    (λ _, droppingLogInfo ;;; conn Connection.stop ;;; ret None) in
  match res with
  | None => ret tt
  | Some res =>
      if 255 <? Z.of_nat (length (CharacterList res)) then
        droppingLogInfo ;;; conn Connection.stop
      else
        let! out := prepared (characterListMessage res) OutMessage.StandardOutMessage in
        sendAndStop out
  end.

(** The call of [sendAndStop] with the error is commented out in the source. *)
Definition closeWithError (error : LoginError) : io unit :=
  let! errorString := try_catch
    (let! ip := conn Connection.getPeerAddress in
     let! s := lift (errorHook error ip) in ret (Some s))
    (λ _, droppingLogInfo ;;; conn Connection.stop ;;; ret None) in
  ret tt.

(** The lambda that [onFirstMessage] gives to [loadAccount]. *)
Definition accountLoaded (e : LoginError) (acc : option account) : io unit :=
  match e with
  | NoError => sendCharacterList acc
  | _ => closeWithError e
  end.

(** The lambda that [onFirstMessage] gives to [decryptMessageAndSetXta]: both
    strings are arguments of one call. *)
Definition readCredentials : io unit :=
  let! a := Connection.on_inMsg InMessage.getString in
  let! b := Connection.on_inMsg InMessage.getString in
  if left_to_right then loadAccount a b accountLoaded else loadAccount b a accountLoaded.

(** The continuation that an accepted message leads to is a parameter, [k]; in
    the program it is [readCredentials]. Its closure keeps the protocol object
    alive until the crypto service is done with it. The error given to
    [closeWithError] is a variable that has not been assigned. *)
Definition onFirstMessage_with (k : io unit) (free : bool) (e : LoginError) : io (option Z) :=
  conn Connection.stopReceiving ;;;
  let! ok := validateIpAndVersion in
  if negb ok then closeWithError e ;;; ret None else
  Connection.on_inMsg (InMessage.skipBytes 12) ;;;
  share ;;;
  try_catch
    (let! pending := decryptMessageAndSetXta free k in
     match pending with Some _ => ret pending | None => unshare ;;; ret None end)
    (λ e, unshare ;;; throw e).

Definition onFirstMessage (free : bool) (e : LoginError) : io (option Z) :=
  onFirstMessage_with readCredentials free e.

(** The crypto service running a decryption that was left to it. *)
Definition crypto_runs (k : io unit) (off : Z) : io unit :=
  try_catch (rsa_decrypted k off) (λ e, unshare ;;; throw e) ;;; unshare.
End login.

(** ** Lemmas *)

Section lemmas.
Context `{Platform} `{Connection.Asio} `{Connection.Logging}.
Implicit Types w : Connection.world protocol.
Abbreviation io A := (prog (Connection.world protocol) A).

(** The protocol object exists and points to its connection. *)
Definition attached w : Prop :=
  Connection.object_alive w = true ∧ connection (Connection.object w) = true.

Lemma conn_run {A} (m : io A) w : attached w → conn m w = m w.
Proof.
  intros [Ho Hc]. destruct w. simpl in *. unfold conn, Connection.on_object, get. unfold bind at 1.
  unfold bind at 1. simpl. rewrite Ho. unfold zoom, Connection.set_object. simpl. by rewrite Hc.
Qed.

Lemma conn_detached {A} (m : io A) w :
  Connection.object_alive w = true → connection (Connection.object w) = false →
  (conn m w).1 = Fault NullDereference.
Proof.
  intros Ho Hc. unfold conn, Connection.on_object, get. unfold bind at 1.
  unfold bind at 1. rewrite Ho. unfold zoom. simpl. by rewrite Hc.
Qed.

Lemma on_object_get_run w : Connection.object_alive w = true →
  Connection.on_object get w = (Val (Connection.object w), w).
Proof.
  intros Ho. destruct w. simpl in *. unfold Connection.on_object, get. unfold bind. simpl. by rewrite Ho.
Qed.

Lemma isAlive_run w : Connection.alive w = true →
  Connection.isAlive w =
    (Val (negb (Z.testbit (Connection.closeStatus w) 0 || Z.testbit (Connection.closeStatus w) 1) &&
          Connection.is_open (Connection.peer w)), w).
Proof.
  intros Ha. unfold Connection.isAlive. rewrite (bind_val _ _ _ _ _ (Connection.isStopped_run w Ha)).
  destruct (_ || _); [done|]. by rewrite Connection.self_bind, Ha.
Qed.

Lemma droppingLogInfo_run w ip : Connection.alive w = true →
  Connection.remote_endpoint (Connection.peer w) = Val ip →
  Connection.droppingLogInfo w = (Val tt, w).
Proof.
  intros Ha Hr. unfold Connection.droppingLogInfo, Connection.logInfo, Connection.getPeerAddress.
  rewrite bind_assoc, Connection.self_bind, Ha. unfold lift, bind. by rewrite Hr.
Qed.

(** Two programs that agree from the state a first one ends in. *)
Lemma bind_agree {A B} (m : io A) (k k' : A → io B) w :
  (∀ a w', m w = (Val a, w') → k a w' = k' a w') → bind m k w = bind m k' w.
Proof. intros Hk. unfold bind. destruct (m w) as [[a| |] w'] eqn:Hm; auto. Qed.

(** ** Handlers are clients of the connection *)

Lemma client_conn {A} (m : io A) : Connection.client m → Connection.client (conn m).
Proof.
  intros Hm. apply Connection.client_bind; [apply Connection.client_object|].
  intros p. destruct (connection p); [done|apply Connection.client_fail].
Qed.

Lemma client_droppingLogInfo : Connection.client Connection.droppingLogInfo.
Proof.
  apply Connection.client_bind; [apply Connection.client_getPeerAddress|].
  intros. apply Connection.client_ret.
Qed.

Lemma client_handlePacketException : Connection.client handlePacketException.
Proof.
  apply Connection.client_bind; [apply client_conn, client_droppingLogInfo|].
  intros. apply client_conn, Connection.client_stop.
Qed.

Lemma client_wrapHandler h : Connection.client h → Connection.client (wrapHandler h).
Proof.
  intros Hh. apply Connection.client_bind; [apply client_conn, Connection.client_isAlive|].
  intros []; [|apply client_conn, Connection.client_stop].
  apply Connection.client_try; [done|]. intros []; [apply client_handlePacketException|].
  apply Connection.client_bind; [apply client_conn, client_droppingLogInfo|].
  intros. apply client_conn, Connection.client_stop.
Qed.

Lemma client_catch_packet m : Connection.client m → Connection.client (catch_packet m).
Proof.
  intros Hm. apply Connection.client_try; [done|].
  intros []; [apply client_handlePacketException|apply Connection.client_throw].
Qed.

Lemma client_prepared m msg : Connection.client (prepared m msg).
Proof.
  unfold prepared. destruct (m msg).
  apply Connection.client_bind; [apply Connection.client_lift|intros; apply Connection.client_ret].
Qed.

Lemma client_send msg : Connection.client (send msg).
Proof.
  apply Connection.client_bind.
  { apply Connection.client_bind; [apply Connection.client_object|intros; apply Connection.client_ret]. }
  intros x. apply Connection.client_bind; [apply client_prepared|].
  intros. apply client_conn, Connection.client_send.
Qed.

Lemma client_sendAndStop msg : Connection.client (sendAndStop msg).
Proof.
  apply Connection.client_bind.
  { apply Connection.client_bind; [apply Connection.client_object|intros; apply Connection.client_ret]. }
  intros x. apply Connection.client_bind; [apply client_prepared|].
  intros. apply client_conn, Connection.client_sendAndStop.
Qed.

Lemma client_handleFirstMessage m :
  Connection.client m → Connection.client (handleFirstMessage m).
Proof.
  intros Hm. apply client_catch_packet, Connection.client_bind; [apply Connection.client_inMsg|done].
Qed.

Lemma client_handleMessage m : Connection.client m → Connection.client (handleMessage m).
Proof.
  intros Hm. apply client_catch_packet, Connection.client_bind; [apply Connection.client_inMsg|].
  intros _. apply Connection.client_bind; [apply Connection.client_object|].
  intros p. apply Connection.client_bind; [apply Connection.client_inMsg|done].
Qed.

(** Any protocol built on [StandardProtocol] from callbacks that use the public
    interface is a protocol for its connection. *)
Definition standard_protocol (onFirst onMsg : io unit)
    (Hf : Connection.client onFirst) (Hm : Connection.client onMsg) : Connection.Protocol := {|
  Connection.handleFirstMessage := handleFirstMessage onFirst;
  Connection.handleMessage := handleMessage onMsg;
  Connection.first_client := client_handleFirstMessage _ Hf;
  Connection.message_client := client_handleMessage _ Hm;
|}.
End lemmas.

(** ** Runs *)

Section runs.
Context `{Platform} `{Connection.Asio} `{Connection.Logging}.
Implicit Types w : Connection.world protocol.
Abbreviation io A := (prog (Connection.world protocol) A).

(** The receiver's world with its message replaced. *)
Abbreviation with_inMsg := Connection.set_inMsg.

Lemma handleMessage_run om w i1 i2 :
  Connection.alive w = true → Connection.object_alive w = true →
  InMessage.doChecksum (Connection.inMsg w) = (Val tt, i1) →
  InMessage.xteaDecrypt (xtea (Connection.object w)) i1 = (Val tt, i2) →
  handleMessage om w = catch_packet om (with_inMsg i2 w).
Proof.
  intros Ha Ho Hc Hx. unfold handleMessage, catch_packet at 1, try_catch.
  erewrite bind_val by by apply Connection.on_inMsg_run.
  erewrite bind_val by by apply on_object_get_run.
  by erewrite bind_val by by apply Connection.on_inMsg_run.
Qed.

(** A message that fails its checksum. *)
Lemma rejected_run (onFirst onMsg : io unit) (f : bool) w i :
  Connection.alive w = true →
  InMessage.doChecksum (Connection.inMsg w) = (Exc PacketException, i) →
  (if f then handleFirstMessage onFirst else handleMessage onMsg) w =
    handlePacketException (with_inMsg i w).
Proof.
  intros Ha Hc. destruct f; unfold handleFirstMessage, handleMessage, catch_packet, try_catch;
    by erewrite bind_exc by by apply Connection.on_inMsg_run.
Qed.

(** The checksum over a message sent by [encode]'s rule. *)
Lemma rfc1950_enc l : dec (enc 4 (Adler.rfc1950 l)) = Adler.rfc1950 l.
Proof.
  rewrite dec_enc. apply Z.mod_small. unfold Adler.rfc1950.
  destruct (Adler.rfc_bound l (1, 0)) as [Ha Hb]; [done..|].
  destruct (fold_left Adler.rfc_step _ _) as [a b]. simpl in *. lia.
Qed.

Lemma checked_run i l :
  InMessage.ready i → InMessage.remaining i = enc 4 (Adler.rfc1950 l) ++ l → (0 < length l)%nat →
  ∃ i', InMessage.doChecksum i = (Val tt, i') ∧ InMessage.ready i' ∧ InMessage.remaining i' = l.
Proof.
  intros Hi Hr Hl. pose proof (InMessage.length_remaining i Hi) as Hlen.
  rewrite Hr, length_app, length_enc in Hlen.
  rewrite InMessage.doChecksum_run by (rewrite ?Hr, ?length_app, ?length_enc; auto; lia).
  rewrite Hr, take_app_length', drop_app_length' by by rewrite length_enc.
  rewrite rfc1950_enc, Z.eqb_refl. eexists. split; [done|].
  split; [apply InMessage.ready_advance; [done|lia]|].
  rewrite InMessage.remaining_advance by done. rewrite Hr.
  by rewrite drop_app_length' by by rewrite length_enc.
Qed.

(** [protocol.reset()] on a stopped connection nobody else points to. *)
Lemma reset_destroys w :
  Connection.alive w = true → Connection.closeStatus w = 3 →
  Connection.conn_refs w = 0%nat → Connection.proto_refs w = 0%nat → Connection.writes w = [] →
  ∃ w', Connection.reset_protocol w = (Val tt, w') ∧ Connection.alive w' = false.
Proof.
  intros Ha Hc Hr Hp Hw. unfold Connection.reset_protocol.
  erewrite bind_val by by apply Connection.update_run.
  unfold get. unfold bind at 1. simpl. rewrite Hp. simpl.
  unfold modify. unfold bind at 1. set (w1 := Connection.set_object_alive false _).
  assert (Connection.owned w1 = false) as Ho by (unfold Connection.owned; simpl; by rewrite Hr, Hw).
  rewrite Connection.release_run by done. simpl. rewrite Hc, orb_true_r. by eexists.
Qed.

Lemma stop_destroys w s s' :
  Connection.in_strand w = true → Connection.alive w = true → Connection.loggable w →
  Connection.shutdown Connection.shutdown_both (Connection.peer w) = (Val tt, s) →
  Connection.close s = (Val tt, s') →
  Connection.conn_refs w = 0%nat → Connection.proto_refs w = 0%nat → Connection.writes w = [] →
  ∃ w', Connection.stop w = (Val tt, w') ∧ Connection.alive w' = false.
Proof.
  intros Hst Ha Hl Hs Hc Hr Hp Hw.
  rewrite Connection.stop_in_strand, Connection.do_stop_run by done.
  set (w0 := Connection.stopped_timers w).
  rewrite (bind_val _ _ _ _ _ (Connection.on_peer_run _ w0 _ _ Ha Hs)).
  rewrite (bind_val _ _ _ _ _ (Connection.on_peer_run _ (Connection.set_peer s w0) _ _ Ha Hc)).
  by apply reset_destroys.
Qed.
End runs.

(** ** Properties *)

Section properties.
Context `{Platform} `{Connection.Asio} `{Connection.Logging}.
Implicit Types w : Connection.world protocol.
Abbreviation io A := (prog (Connection.world protocol) A).

(** C6. What one end sends with [StandardProtocol::send] the other end's
    [StandardProtocol::handleMessage] understands: the connection is given the
    framed, encrypted payload, and a receiver with the same key, whose message
    holds those bytes behind their checksum, calls [onMessage] with exactly the
    payload left to read. *)
Theorem session_roundtrip x m ws wr om :
  OutMessage.wf m → 2 ≤ OutMessage.prefixPos m ≤ 8 →
  Z.of_nat (length (OutMessage.content m)) < 65536 →
  attached ws → xtea (Connection.object ws) = x →
  NDEBUG = true → Connection.alive wr = true → Connection.object_alive wr = true →
  xtea (Connection.object wr) = x → InMessage.ready (Connection.inMsg wr) →
  ∃ m', send m ws = Connection.send m' ws ∧
    OutMessage.content m' = OutMessage.ciphertext x (OutMessage.framed (OutMessage.content m)) ∧
    (InMessage.remaining (Connection.inMsg wr) =
       enc 4 (Adler.rfc1950 (OutMessage.content m')) ++ OutMessage.content m' →
     ∃ i, handleMessage om wr = catch_packet om (Connection.set_inMsg i wr) ∧
       InMessage.ready i ∧ InMessage.remaining i = OutMessage.content m).
Proof.
  intros Hm Hp Hl Hs Hxs Hn Ha Ho Hxr Hi.
  destruct (OutMessage.addHeader_xteaEncrypt_run x m Hm Hp Hl) as (m' & Hrun & _ & Hc).
  exists m'. split_and!; [|done|].
  - unfold send, getXtea. rewrite bind_assoc. erewrite bind_val by (apply on_object_get_run, Hs).
    unfold ret at 1. unfold bind at 1. rewrite Hxs. unfold prepared. rewrite Hrun.
    unfold lift, ret. unfold bind at 1. unfold bind at 1. by apply conn_run.
  - intros Hr. destruct (checked_run _ _ Hi Hr) as (i1 & Hck & Hi1 & Hr1).
    { rewrite Hc, OutMessage.length_ciphertext by apply OutMessage.framed_mod4.
      pose proof (OutMessage.length_framed (OutMessage.content m)). lia. }
    rewrite Hc in Hr1.
    destruct (OutMessage.decrypt_framed x (OutMessage.content m) i1) as (i2 & Hx & Hi2 & Hr2); auto.
    { destruct Hm. by apply Forall_drop. }
    exists i2. split_and!; [|done..]. apply (handleMessage_run om wr i1 i2); [done..|by rewrite Hxr].
Qed.

(** A message with a wrong checksum never reaches the protocol's callbacks:
    the connection is stopped. But the stopped connection held the only pointer
    to the protocol and the protocol the only one to it, so both are destroyed
    while the handler is running, and the connection's own code then asks the
    destroyed object whether it is still receiving. *)
Theorem bad_checksum_use_after_free (onFirst onMsg : io unit) f w i ip s s' :
  NDEBUG = true → Connection.alive w = true → Connection.protocol w = true →
  Connection.in_strand w = true → attached w →
  Connection.conn_refs w = 0%nat → Connection.proto_refs w = 0%nat → Connection.writes w = [] →
  Connection.remote_endpoint (Connection.peer w) = Val ip →
  Connection.shutdown Connection.shutdown_both (Connection.peer w) = (Val tt, s) →
  Connection.close s = (Val tt, s') →
  InMessage.doChecksum (Connection.inMsg w) = (Exc PacketException, i) →
  (Connection.after_body (handleFirstMessage onFirst) (handleMessage onMsg) f w).1 =
    Fault DanglingReference.
Proof.
  intros Hn Ha Hp Hst Hat Hcr Hpr Hw Hre Hsh Hcl Hck.
  set (w1 := @Connection.set_inMsg _ Connection.standard_traits _ i (Connection.delivering f w)).
  destruct (stop_destroys w1 s s') as (w2 & Hstop & Hdead); try done.
  { right. by exists ip. }
  assert ((if f then handleFirstMessage onFirst else handleMessage onMsg)
            (Connection.delivering f w) = (Val tt, w2)) as Hh.
  { rewrite (rejected_run _ _ _ _ i) by done. unfold handlePacketException, droppingLogInfo.
    unfold bind at 1. rewrite conn_run by done. rewrite (droppingLogInfo_run _ ip) by done.
    by rewrite conn_run. }
  rewrite (Connection.after_body_run _ _ Hn w f _ _ Ha Hp Hh).
  unfold Connection.isReceiving. by rewrite bind_assoc, Connection.self_bind, Hdead.
Qed.

(** [WrappedHandler] runs the handler only on a connection that is alive. A
    handler's [PacketException] or other exception stops the connection; a
    connection that is not alive is stopped again without running the handler;
    and after [connectionLost] the wrapper dereferences the null pointer that
    [detachConnection] left. *)
Theorem wrapHandler_correct h w :
  Connection.alive w = true → Connection.object_alive w = true →
  (connection (Connection.object w) = false → (wrapHandler h w).1 = Fault NullDereference) ∧
  (connection (Connection.object w) = true →
   ∃ alive, Connection.isAlive w = (Val alive, w) ∧
   wrapHandler h w =
     if alive then
       match h w with
       | (Exc PacketException, w') => handlePacketException w'
       | (Exc _, w') => bind droppingLogInfo (λ _, conn Connection.stop) w'
       | r => r
       end
     else Connection.stop w).
Proof.
  intros Ha Ho. unfold wrapHandler. split.
  - intros Hc. pose proof (conn_detached Connection.isAlive w Ho Hc) as Hd. unfold bind at 1.
    by destruct (conn Connection.isAlive w) as [[] ?]; simplify_eq/=.
  - intros Hc. eexists. split; [by apply isAlive_run|].
    unfold bind at 1. rewrite conn_run, isAlive_run by done.
    destruct (_ && _); [|by apply conn_run]. unfold try_catch. by destruct (h w) as [[|[]|] w'].
Qed.
End properties.

(** ** The login exchange *)

Section login_lemmas.
Context `{Platform} `{Connection.Asio} `{Connection.Logging} `{Rsa.OpenSSL} `{LoginEnv}.
Context (rsa : Rsa.key Rsa.bignum).
Implicit Types w : Connection.world protocol.
Abbreviation io A := (prog (Connection.world protocol) A).

Lemma conn_val_inv {A} (m : io A) w a w' : conn m w = (Val a, w') → m w = (Val a, w').
Proof.
  destruct w. unfold conn, Connection.on_object, get. unfold bind at 1. unfold bind at 1. simpl.
  destruct object_alive; [|done]. unfold zoom, Connection.set_object. simpl.
  by destruct (connection object).
Qed.

(** The connection no longer receives. *)
Definition read_closed w : Prop := Z.testbit (Connection.closeStatus w) 0 = true.

Lemma read_closed_on_inMsg {A} (m : prog InMessage.msg A) :
  preserves read_closed (Connection.on_inMsg m).
Proof.
  intros w Hw. unfold Connection.on_inMsg. rewrite Connection.self_bind.
  destruct (Connection.alive w); [|done]. unfold zoom. by destruct (m _).
Qed.

Lemma read_closed_wrapHandler h h' w : read_closed w → wrapHandler h w = wrapHandler h' w.
Proof.
  intros Hw. apply bind_agree. intros a w' Hal%conn_val_inv.
  destruct (Connection.alive w) eqn:Ha.
  - rewrite isAlive_run in Hal by done. rewrite Hw in Hal. by injection Hal as <- <-.
  - unfold Connection.isAlive, Connection.isStopped in Hal.
    by rewrite !bind_assoc, Connection.self_bind, Ha in Hal.
Qed.

Lemma read_closed_rsa k k' off w : read_closed w →
  rsa_decrypted rsa k off w = rsa_decrypted rsa k' off w.
Proof.
  intros Hw. apply bind_agree. intros success w' Hd. apply read_closed_wrapHandler.
  pose proof (read_closed_on_inMsg (InMessage.rsaDecrypted (Rsa.decrypt rsa 128) off) w Hw) as Hw'.
  by rewrite Hd in Hw'.
Qed.

Lemma read_closed_decrypt free k k' w : read_closed w →
  decryptMessageAndSetXta rsa free k w = decryptMessageAndSetXta rsa free k' w.
Proof.
  intros Hw. apply bind_agree. intros off w' Hd.
  pose proof (read_closed_on_inMsg (InMessage.peekRawChunckAs 128) w Hw) as Hw'. rewrite Hd in Hw'.
  destruct free; [|done]. unfold bind. by rewrite (read_closed_rsa k k').
Qed.

Lemma stopReceiving_closes w a w' : conn Connection.stopReceiving w = (Val a, w') → read_closed w'.
Proof.
  intros Hs%conn_val_inv. revert Hs. unfold Connection.stopReceiving, Connection.update.
  rewrite bind_assoc, Connection.self_bind. destruct (Connection.alive w) eqn:Ha; [|done].
  unfold modify, Connection.on_peer. unfold bind at 1. rewrite Connection.self_bind. simpl. rewrite Ha.
  unfold zoom. simpl. destruct (Connection.shutdown _ _). intros [= _ <-].
  change (Z.testbit (Z.lor (Connection.closeStatus w) Connection.ReadClosed) 0 = true).
  by rewrite Z.lor_spec, orb_true_r.
Qed.

Lemma validate_keeps_closed : preserves read_closed validateIpAndVersion.
Proof.
  apply preserves_bind; [apply read_closed_on_inMsg|]. intros _.
  apply preserves_bind; [apply read_closed_on_inMsg|]. intros _. apply preserves_ret.
Qed.

Lemma validate_true w ok w' : validateIpAndVersion w = (Val ok, w') → ok = true.
Proof.
  intros (? & w1 & _ & Hv)%bind_val_inv. apply bind_val_inv in Hv as (? & w2 & _ & [= <- _]). done.
Qed.

(** What [onFirstMessage] does before it decrypts, up to the decryption. *)
Definition before_decryption : io unit :=
  conn Connection.stopReceiving ;;;
  validateIpAndVersion ;;;
  Connection.on_inMsg (InMessage.skipBytes 12) ;;;
  share.

Lemma before_decryption_closed w a w' : before_decryption w = (Val a, w') → read_closed w'.
Proof.
  intros (? & w1 & Hs & Hv)%bind_val_inv. apply stopReceiving_closes in Hs.
  apply bind_val_inv in Hv as (? & w2 & Hv & Hk).
  apply (validate_keeps_closed w1) in Hs. rewrite Hv in Hs.
  apply bind_val_inv in Hk as (? & w3 & Hk & Hsh).
  apply (read_closed_on_inMsg (InMessage.skipBytes 12) w2) in Hs. rewrite Hk in Hs.
  injection Hsh as _ <-. apply Hs.
Qed.

Lemma onFirstMessage_before k free e w :
  onFirstMessage_with rsa k free e w =
    (before_decryption ;;;
     try_catch
       (let! pending := decryptMessageAndSetXta rsa free k in
        match pending with Some _ => ret pending | None => unshare ;;; ret None end)
       (λ e, unshare ;;; throw e)) w.
Proof.
  unfold onFirstMessage_with, before_decryption. rewrite bind_assoc. apply bind_agree.
  intros _ w1 _. rewrite bind_assoc. apply bind_agree. intros ok w2 Hok.
  rewrite (validate_true _ _ _ Hok). cbn [negb]. by rewrite bind_assoc.
Qed.

(** What [onFirstMessage] does, and what the crypto service does later, does not
    depend on the continuation. *)
Lemma onFirstMessage_agree k k' free e w :
  onFirstMessage_with rsa k free e w = onFirstMessage_with rsa k' free e w.
Proof.
  rewrite !onFirstMessage_before. apply bind_agree. intros a w' Hb%before_decryption_closed.
  unfold try_catch. unfold bind at 1 3. by rewrite (read_closed_decrypt free k k').
Qed.

Lemma crypto_runs_agree k k' off w :
  read_closed w → crypto_runs rsa k off w = crypto_runs rsa k' off w.
Proof.
  intros Hw. unfold crypto_runs, try_catch. unfold bind at 1 3.
  by rewrite (read_closed_rsa k k').
Qed.

(** A login can not succeed. [onFirstMessage] closes the receiving direction
    first, the RSA handler runs through [wrapHandler], and [wrapHandler] runs
    nothing on a half-closed connection: whatever the message and the keys, and
    whether the crypto service decrypts at once or later, the outcome does not
    depend on the code that would read the credentials and load the account. *)
Theorem login_never_reads_credentials w k k' free e :
  onFirstMessage_with rsa k free e w = onFirstMessage_with rsa k' free e w ∧
  (∀ off w', onFirstMessage_with rsa k false e w = (Val (Some off), w') →
     read_closed w' ∧ crypto_runs rsa k off w' = crypto_runs rsa k' off w').
Proof.
  split; [apply onFirstMessage_agree|].
  intros off w' Hr. rewrite onFirstMessage_before in Hr.
    apply bind_val_inv in Hr as (? & w1 & Hb%before_decryption_closed & Hr).
    assert (read_closed w') as Hw'.
    { pose proof (read_closed_on_inMsg (InMessage.peekRawChunckAs 128) w1 Hb) as Hp.
      revert Hr. unfold try_catch, decryptMessageAndSetXta. rewrite bind_assoc. unfold bind at 1.
      destruct (Connection.on_inMsg _ w1) as [[o| |] w2]; simpl in *.
      - unfold ret, bind. by intros [= _ <-].
      - unfold bind, unshare. intros Hr. repeat case_match; simplify_eq/=.
      - done. }
    split; [done|by apply crypto_runs_agree].
Qed.

(** A rejected login is not answered and not closed: when the error hook
    returns a text, [closeWithError] does nothing with it, and the connection and
    the message queue are as before. *)
Theorem closeWithError_sends_nothing error w ip text :
  attached w → Connection.alive w = true →
  Connection.remote_endpoint (Connection.peer w) = Val ip →
  errorHook error ip = Val text →
  closeWithError error w = (Val tt, w).
Proof.
  intros Hat Ha Hr Hh. unfold closeWithError, try_catch. unfold bind at 1. unfold bind at 1.
  rewrite conn_run by done. unfold Connection.getPeerAddress. rewrite Connection.self_bind, Ha.
  unfold lift. rewrite Hr. unfold bind. by rewrite Hh.
Qed.
End login_lemmas.

(** ** The character list *)

Section character_list.
Context `{Platform} `{LoginEnv}.

(** What a client reads in the message: a parser in the terms of [InMessage]. *)
Definition p_character : InMessage.parser (list Z * list Z * Z * Z) :=
  InMessage.p_bind InMessage.p_string (λ name,
  InMessage.p_bind InMessage.p_string (λ world,
  InMessage.p_bind (InMessage.p_number 4) (λ ip,
  InMessage.p_bind (InMessage.p_number 2) (λ port,
  InMessage.p_ret (name, world, ip, port))))).

Fixpoint p_characters (n : nat) : InMessage.parser (list (list Z * list Z * Z * Z)) :=
  match n with
  | O => InMessage.p_ret []
  | S n' =>
      InMessage.p_bind p_character (λ c,
      InMessage.p_bind (p_characters n') (λ cs, InMessage.p_ret (c :: cs)))
  end.

Definition p_character_list :=
  InMessage.p_bind (InMessage.p_number 1) (λ type,
  InMessage.p_bind InMessage.p_string (λ motd,
  InMessage.p_bind (InMessage.p_number 1) (λ type',
  InMessage.p_bind (InMessage.p_number 1) (λ n,
  InMessage.p_bind (p_characters (Z.to_nat n)) (λ cs,
  InMessage.p_ret (type, motd, type', cs)))))).

Lemma p_number_enc n v rest :
  InMessage.p_number n (enc n v ++ rest) = Some (v `mod` 256 ^ Z.of_nat n, rest).
Proof.
  unfold InMessage.p_number. rewrite decide_True by (rewrite length_app, length_enc; lia).
  by rewrite take_app_length', drop_app_length', dec_enc by by rewrite length_enc.
Qed.

Lemma p_byte_enc v rest : is_byte v → InMessage.p_number 1 (v :: rest) = Some (v, rest).
Proof.
  intros Hv. rewrite <-(app_nil_l rest), app_comm_cons, <-(enc_1 v Hv), p_number_enc.
  do 2 f_equal. by apply Z.mod_small.
Qed.

Definition short (s : list Z) : Prop := Z.of_nat (length s) < 65536 ∧ Forall is_byte s.

Lemma p_string_enc s rest : short s →
  InMessage.p_string (enc 2 (u16 (Z.of_nat (length s))) ++ s ++ rest) = Some (s, rest).
Proof.
  intros [Hs _]. unfold u16. rewrite wrap_small by (change (2 ^ 16) with 65536; lia).
  unfold InMessage.p_string, InMessage.p_bind. rewrite p_number_enc.
  change (256 ^ Z.of_nat 2) with 65536. rewrite Z.mod_small by lia.
  unfold InMessage.p_bytes. rewrite decide_True by (rewrite length_app; lia).
  by rewrite Nat2Z.id, take_app_length, drop_app_length.
Qed.

Definition character_ok (c : list Z * list Z * Z * Z) : Prop :=
  let '(name, world, ip, port) := c in
  short name ∧ short world ∧ 0 ≤ ip < 4294967296 ∧ 0 ≤ port < 65536.

Definition string_bytes (s : list Z) : list Z := enc 2 (u16 (Z.of_nat (length s))) ++ s.

Definition character_bytes (c : list Z * list Z * Z * Z) : list Z :=
  let '(name, world, ip, port) := c in
  string_bytes name ++ string_bytes world ++ enc 4 ip ++ enc 2 port.

Lemma addCharacter_run c m :
  addCharacter c m = (Val tt, OutMessage.appended (character_bytes c) m).
Proof.
  destruct c as [[[name world] ip] port]. unfold addCharacter, OutMessage.addU32, OutMessage.addU16.
  do 2 (erewrite bind_val by apply OutMessage.addString_run).
  erewrite bind_val by apply OutMessage.add_run. rewrite OutMessage.add_run.
  rewrite !OutMessage.appended_app. unfold character_bytes, string_bytes. by rewrite <-!app_assoc.
Qed.

Lemma addCharacters_run cs m :
  run_all addCharacter cs m = (Val tt, OutMessage.appended (concat (map character_bytes cs)) m).
Proof.
  revert m. induction cs as [|c cs IH]; intros m; simpl.
  - unfold ret, OutMessage.appended. rewrite app_nil_r. by destruct m.
  - erewrite bind_val by apply addCharacter_run. by rewrite IH, OutMessage.appended_app.
Qed.

Lemma p_character_bytes c rest : character_ok c → p_character (character_bytes c ++ rest) = Some (c, rest).
Proof.
  destruct c as [[[name world] ip] port]. intros (Hn & Hw & Hi & Hp).
  unfold p_character, character_bytes, string_bytes, InMessage.p_bind. rewrite <-!app_assoc.
  rewrite p_string_enc, p_string_enc, !p_number_enc by done.
  change (256 ^ Z.of_nat 4) with 4294967296. change (256 ^ Z.of_nat 2) with 65536.
  by rewrite !Z.mod_small by lia.
Qed.

Lemma p_characters_bytes cs rest : Forall character_ok cs →
  p_characters (length cs) (concat (map character_bytes cs) ++ rest) = Some (cs, rest).
Proof.
  induction 1 as [|c cs Hc Hcs IH]; [done|]. simpl. unfold InMessage.p_bind at 1.
  rewrite <-app_assoc, p_character_bytes by done. unfold InMessage.p_bind. by rewrite IH.
Qed.

(** The text in front of the list, and the whole payload. *)
Definition motd_text (res : login_result) : list Z := lexical_cast (MotdId res) ++ [10] ++ Motd res.

Definition list_bytes (res : login_result) : list Z :=
  enc 1 SucceedByte ++ string_bytes (motd_text res) ++
  [CharacterListByte; u8 (Z.of_nat (length (CharacterList res)))] ++
  concat (map character_bytes (CharacterList res)).

Lemma characterListMessage_run res m :
  characterListMessage res m = (Val tt, OutMessage.appended (list_bytes res) m).
Proof.
  unfold characterListMessage. fold (motd_text res).
  erewrite bind_val by apply OutMessage.add_run. erewrite bind_val by apply OutMessage.addString_run.
  assert (∀ v m, OutMessage.addByte v m = (Val tt, OutMessage.appended [v] m)) as Hbyte by done.
  do 2 (erewrite bind_val by apply Hbyte). rewrite addCharacters_run, !OutMessage.appended_app.
  unfold list_bytes, string_bytes. by rewrite <-!app_assoc.
Qed.

Definition result_ok (res : login_result) : Prop :=
  short (motd_text res) ∧ Forall character_ok (CharacterList res) ∧
  Z.of_nat (length (CharacterList res)) ≤ 255.

Lemma p_list_bytes res : result_ok res →
  p_character_list (list_bytes res) =
    Some ((SucceedByte, motd_text res, CharacterListByte, CharacterList res), []).
Proof.
  intros (Hm & Hcs & Hlen). unfold list_bytes, string_bytes, p_character_list, InMessage.p_bind.
  rewrite <-!app_assoc, p_number_enc. rewrite p_string_enc by done. simpl app.
  assert (u8 (Z.of_nat (length (CharacterList res))) = Z.of_nat (length (CharacterList res))) as ->.
  { apply wrap_small. change (2 ^ 8) with 256. lia. }
  do 2 rewrite p_byte_enc by (unfold is_byte, CharacterListByte; lia).
  rewrite Nat2Z.id. rewrite <-(app_nil_r (concat _)), p_characters_bytes by done. done.
Qed.

Lemma string_bytes_bytes s : short s → Forall is_byte (string_bytes s).
Proof. intros [_ Hs]. apply Forall_app. split; [apply enc_bytes|done]. Qed.

Lemma list_bytes_bytes res : result_ok res → Forall is_byte (list_bytes res).
Proof.
  intros (Hm & Hcs & Hlen). unfold list_bytes. rewrite !Forall_app. split_and!.
  - apply enc_bytes.
  - by apply string_bytes_bytes.
  - repeat constructor; try done; apply Z.mod_pos_bound; lia.
  - apply Forall_concat, Forall_map. eapply Forall_impl; [exact Hcs|].
    intros [[[name world] ip] port] (Hn & Hw & _). simpl. rewrite !Forall_app.
    split_and!; [by apply string_bytes_bytes..|apply enc_bytes|apply enc_bytes].
Qed.
End character_list.

Section answering.
Context `{Platform} `{Connection.Asio} `{Connection.Logging} `{LoginEnv}.
Implicit Types w : Connection.world protocol.

Lemma sendAndStop_run w m x :
  attached w → xtea (Connection.object w) = x →
  OutMessage.wf m → 2 ≤ OutMessage.prefixPos m ≤ 8 →
  Z.of_nat (length (OutMessage.content m)) < 65536 →
  ∃ m', sendAndStop m w = Connection.sendAndStop m' w ∧
    OutMessage.content m' = OutMessage.ciphertext x (OutMessage.framed (OutMessage.content m)).
Proof.
  intros Hat Hx Hm Hp Hl.
  destruct (OutMessage.addHeader_xteaEncrypt_run x m Hm Hp Hl) as (m' & Hrun & _ & Hc).
  exists m'. split; [|done]. unfold sendAndStop, getXtea. rewrite bind_assoc.
  erewrite bind_val by (apply on_object_get_run, Hat).
  unfold ret at 1. unfold bind at 1. rewrite Hx. unfold prepared. rewrite Hrun.
  unfold lift, ret. unfold bind at 1. unfold bind at 1. by apply conn_run.
Qed.

(** C9. [sendCharacterList] on a live connection whose peer address is known: a hook that
    throws and a list of more than 255 characters stop the connection; with a result
    whose strings are below 65536 characters and whose numbers are in their ranges, and a
    payload below 65536 bytes, the connection is given one message to send and then stop,
    the framed and encrypted payload, and the payload reads back as what the hook
    returned: the message of the day behind its number and a line break, and every
    character with its world, address and port, in order. *)
Theorem sendCharacterList_correct acc w ip :
  attached w → Connection.alive w = true →
  Connection.remote_endpoint (Connection.peer w) = Val ip →
  (∀ x, succeedHook ip acc = Exc x → sendCharacterList acc w = Connection.stop w) ∧
  (∀ res, succeedHook ip acc = Val res → 255 < Z.of_nat (length (CharacterList res)) →
     sendCharacterList acc w = Connection.stop w) ∧
  (∀ res, succeedHook ip acc = Val res → result_ok res →
     Z.of_nat (length (list_bytes res)) < 65536 →
     ∃ m', sendCharacterList acc w = Connection.sendAndStop m' w ∧
       OutMessage.content m' = OutMessage.ciphertext (xtea (Connection.object w))
         (OutMessage.framed (list_bytes res)) ∧
       p_character_list (list_bytes res) =
         Some ((SucceedByte, motd_text res, CharacterListByte, CharacterList res), [])).
Proof.
  intros Hat Ha Hr.
  assert (droppingLogInfo w = (Val tt, w)) as Hlog
    by by (unfold droppingLogInfo; rewrite conn_run by done; apply (droppingLogInfo_run w ip)).
  assert (conn Connection.getPeerAddress w = (Val ip, w)) as Hip.
  { rewrite conn_run by done. unfold Connection.getPeerAddress.
    by rewrite Connection.self_bind, Ha; unfold lift; rewrite Hr. }
  unfold sendCharacterList. split_and!.
  - intros x Hx. unfold bind at 1, try_catch. rewrite (bind_val _ _ _ _ _ Hip).
    unfold lift. unfold bind at 1. rewrite Hx. rewrite (bind_val _ _ _ _ _ Hlog).
    unfold bind. rewrite conn_run by done. by destruct (Connection.stop w) as [[[]|e|f] w'].
  - intros res Hx Hlen. unfold try_catch. unfold bind at 1. rewrite (bind_val _ _ _ _ _ Hip).
    unfold lift. unfold bind at 1. rewrite Hx. simpl.
    rewrite (proj2 (Z.ltb_lt _ _)) by done. rewrite (bind_val _ _ _ _ _ Hlog). by apply conn_run.
  - intros res Hx Hok Hlen. set (m := OutMessage.appended (list_bytes res) OutMessage.StandardOutMessage).
    assert (OutMessage.content m = list_bytes res) as Hc
      by (unfold m; by rewrite OutMessage.content_appended by apply OutMessage.wf_StandardOutMessage).
    destruct (sendAndStop_run w m (xtea (Connection.object w))) as (m' & Hs & Hc'); [exact Hat|reflexivity|..].
    { apply OutMessage.wf_appended; [apply OutMessage.wf_StandardOutMessage|by apply list_bytes_bytes|].
      change (OutMessage.vsize _) with 8. lia. }
    { change (OutMessage.prefixPos m) with 8. lia. }
    { by rewrite Hc. }
    exists m'. split_and!; [|by rewrite <-Hc|by apply p_list_bytes].
    unfold try_catch. unfold bind at 1. rewrite (bind_val _ _ _ _ _ Hip).
    unfold lift. unfold bind at 1. rewrite Hx. simpl.
    destruct Hok as (_ & _ & Hn). rewrite (proj2 (Z.ltb_ge _ _)) by done.
    unfold prepared. rewrite characterListMessage_run. exact Hs.
Qed.
End answering.

(** ** Witnesses *)

Definition toy_login : LoginEnv := {|
  account := unit;
  succeedHook ip acc := Val (mk_result 7 [104; 105] [([97], [98], 16777343, 7172)] 0);
  errorHook e ip := Val [110; 111];
  lexical_cast z := [48 + z `mod` 10];
  trim s := s;
  left_to_right := true;
|}.

Section witnesses.
#[local] Instance witness_platform : Platform := x86_64 true.
#[local] Existing Instances Connection.toy_asio toy_login Rsa.toy_openssl.
#[local] Instance witness_logging : Connection.Logging := {| Connection.verbose := false |}.
Abbreviation world := (Connection.world protocol).

(** A connection inside the strand whose protocol has the key 1, 2, 3, 4 and whose
    message holds the bytes [bs] unread. *)
Definition holding (bs : list Z) : world :=
  Connection.mk 0 (true : @Connection.socket Connection.toy_asio) [] [] [] [] [] [] true
    (InMessage.mk ([0; 0] ++ bs) 2 (2 + Z.of_nat (length bs)) :
      @Connection.InMsg Connection.standard_traits)
    true 0 (mk true (Xtea.mk 1 2 3 4)) true 0 true [].

(** The frame of the payload "hi" and its checksum. *)
Definition hi_frame : list Z := Eval vm_compute in
  OutMessage.content ((OutMessage.addHeader ;;; OutMessage.xteaEncrypt (Xtea.mk 1 2 3 4))
    OutMessage.hi_message).2.
Definition hi_packet : list Z := Eval vm_compute in enc 4 (Adler.rfc1950 hi_frame) ++ hi_frame.

Lemma session_roundtrip_witness :
  ∃ i, handleMessage (ret tt) (holding hi_packet) =
         catch_packet (ret tt) (@Connection.set_inMsg _ Connection.standard_traits _ i (holding hi_packet)) ∧
       InMessage.remaining i = [104; 105].
Proof.
  destruct (session_roundtrip (Xtea.mk 1 2 3 4) OutMessage.hi_message (holding []) (holding hi_packet) (ret tt))
    as (m' & Hs & Hc & Hr).
  - apply OutMessage.wf_hi.
  - simpl. lia.
  - reflexivity.
  - split; reflexivity.
  - reflexivity.
  - reflexivity.
  - reflexivity.
  - reflexivity.
  - reflexivity.
  - split; simpl; [repeat constructor; done|lia..].
  - destruct Hr as (i & Hi & _ & Hr); [rewrite Hc; vm_compute; reflexivity|]. exists i. exact (conj Hi Hr).
Defined.

(** The same packet with one bit of the checksum flipped. *)
Definition bad_packet : list Z := Eval vm_compute in
  match hi_packet with b :: l => Z.lxor b 1 :: l | [] => [] end.

Lemma bad_checksum_use_after_free_witness :
  (Connection.after_body (handleFirstMessage (ret tt)) (handleMessage (ret tt)) false (holding bad_packet)).1 =
    Fault DanglingReference.
Proof.
  apply (bad_checksum_use_after_free (ret tt) (ret tt) false (holding bad_packet)
    (InMessage.set_pos 6 (InMessage.mk ([0; 0] ++ bad_packet) 2 (2 + Z.of_nat (length bad_packet))))
    "127.0.0.1"%string (true : @Connection.socket Connection.toy_asio)
    (false : @Connection.socket Connection.toy_asio));
    first [split; reflexivity | vm_compute; reflexivity].
Defined.

Lemma wrapHandler_correct_witness :
  (wrapHandler (throw PacketException) (holding [])).1 = Val tt ∧
  (wrapHandler (ret tt) (Connection.set_object (mk false (Xtea.mk 1 2 3 4)) (holding []))).1 =
    Fault NullDereference.
Proof.
  destruct (wrapHandler_correct (throw PacketException) (holding []) eq_refl eq_refl) as [_ Hon].
  destruct (wrapHandler_correct (ret tt) (Connection.set_object (mk false (Xtea.mk 1 2 3 4)) (holding []))
    eq_refl eq_refl) as [Hoff _].
  split; [|exact (Hoff eq_refl)]. destruct (Hon eq_refl) as (alive & Ha & Hw).
  rewrite (isAlive_run (holding []) eq_refl) in Ha. injection Ha as <-.
  rewrite Hw. vm_compute. reflexivity.
Defined.

Lemma login_never_reads_credentials_witness :
  let rsa := Rsa.mk_key None None None None None in
  let w := holding (replicate (Z.to_nat 200) 0) in
  onFirstMessage rsa true NoError w = onFirstMessage_with rsa (fail NullDereference) true NoError w ∧
  Connection.closeStatus (onFirstMessage rsa true NoError w).2 = 3.
Proof.
  intros rsa w.
  destruct (login_never_reads_credentials rsa w (readCredentials) (fail NullDereference) true NoError)
    as [He _].
  split; [exact He|vm_compute; reflexivity].
Defined.

Lemma closeWithError_sends_nothing_witness :
  closeWithError BadCredentials (holding []) = (Val tt, holding []).
Proof.
  apply (closeWithError_sends_nothing BadCredentials (holding []) "127.0.0.1"%string [110; 111]);
    try reflexivity. split; reflexivity.
Defined.

Lemma sendCharacterList_correct_witness :
  ∃ m', sendCharacterList None (holding []) = Connection.sendAndStop m' (holding []).
Proof.
  destruct (sendCharacterList_correct None (holding []) "127.0.0.1"%string) as (_ & _ & Hs);
    [split; reflexivity|reflexivity|reflexivity|].
  destruct (Hs _ eq_refl) as (m' & Hm & _).
  - split_and!; [by split; [|repeat constructor; done]| |simpl; lia].
    repeat constructor; try done; simpl; lia.
  - vm_compute. reflexivity.
  - by exists m'.
Defined.
End witnesses.
End Protocol.
