(* ===== verification/Pool.v ===== *)
(** * The pool of database connections (sql/connectionpool.h/.cpp)

    Connections wait in a deque, requests in a queue; both are only touched by
    function objects the pool's strand runs one after the other. A connection
    handed out belongs to a [ConnectionPtr] whose deleter gives it back.

    A request's handler is the last thing the pool's functions call, so what a
    handler does to the pool (asking again, returning its connection, throwing)
    happens after them: it is a later event of the model. *)

From S2P Require Import Prelude.

Module Pool.

Section pool.
(** Connections and request handlers; the errors a connection attempt reports. *)
Context {connection handler error : Type} `{EqDecision connection}.

(** Function objects handed to the strand. *)
Inductive call : Type := CallGet (h : handler) | CallReturn (c : connection).

(** [ConnectControl]: the first error, and the connections whose callback has not
    run (each callback owns a pointer to the control). *)
Record control : Type := mk_control {
  firstError : option error;
  outstanding : list connection;
}.

(** The members of [ConnectionPool] and what is outside: the function objects
    posted to the strand, the [ConnectionPtr]s that exist, the connections
    [connect] has destroyed, and the elements of the deque to which the
    references taken by [connect] are still valid. [asked], [served] and
    [started] record the requests run by the strand, the handlers called, and the
    calls of [connect]'s handler. *)
Record t : Type := mk {
  pool : list connection;
  requestQueue : list handler;
  posted : list call;
  lent : list connection;
  failed : list connection;
  valid : list connection;
  connecting : option control;
  asked : list handler;
  served : list (handler * connection);
  started : list (option error * nat);
}.

Definition set_pool x s := mk x (requestQueue s) (posted s) (lent s) (failed s) (valid s) (connecting s) (asked s) (served s) (started s).
Definition set_requestQueue x s := mk (pool s) x (posted s) (lent s) (failed s) (valid s) (connecting s) (asked s) (served s) (started s).
Definition set_posted x s := mk (pool s) (requestQueue s) x (lent s) (failed s) (valid s) (connecting s) (asked s) (served s) (started s).
Definition set_lent x s := mk (pool s) (requestQueue s) (posted s) x (failed s) (valid s) (connecting s) (asked s) (served s) (started s).
Definition set_failed x s := mk (pool s) (requestQueue s) (posted s) (lent s) x (valid s) (connecting s) (asked s) (served s) (started s).
Definition set_valid x s := mk (pool s) (requestQueue s) (posted s) (lent s) (failed s) x (connecting s) (asked s) (served s) (started s).
Definition set_connecting x s := mk (pool s) (requestQueue s) (posted s) (lent s) (failed s) (valid s) x (asked s) (served s) (started s).
Definition set_asked x s := mk (pool s) (requestQueue s) (posted s) (lent s) (failed s) (valid s) (connecting s) x (served s) (started s).
Definition set_served x s := mk (pool s) (requestQueue s) (posted s) (lent s) (failed s) (valid s) (connecting s) (asked s) x (started s).
Definition set_started x s := mk (pool s) (requestQueue s) (posted s) (lent s) (failed s) (valid s) (connecting s) (asked s) (served s) x.

(** The constructor, with its [connectionNumber] connections. *)
Definition ConnectionPool (conns : list connection) : t := mk conns [] [] [] [] [] None [] [] [].

Definition remove (c : connection) (l : list connection) : list connection :=
  filter (λ c', c' ≠ c) l.

(** [handler(makeConnectionPtr(conn))] *)
Definition makeConnectionPtr (conn : connection) : prog t connection :=
  modify (λ s, set_lent (conn :: lent s) s) ;;; ret conn.

Definition call_handler (h : handler) (conn : connection) : prog t unit :=
  modify (λ s, set_served (served s ++ [(h, conn)]) s).

(** The function object of [getConnection]. Popping the front of the deque
    invalidates the references to that element only. *)
Definition get_connection (h : handler) : prog t unit :=
  modify (λ s, set_asked (asked s ++ [h]) s) ;;;
  let! s := get in
  match pool s with
  | [] => modify (set_requestQueue (requestQueue s ++ [h]))
  | front :: rest =>
      let! conn := makeConnectionPtr front in
      modify (λ s, set_valid (remove front (valid s)) (set_pool rest s)) ;;;
      call_handler h conn
  end.

(** The function object of [returnToPool]. *)
Definition return_to_pool (conn : connection) : prog t unit :=
  let! s := get in
  match requestQueue s with
  | [] => modify (set_pool (pool s ++ [conn]))
  | h :: rest =>
      modify (set_requestQueue rest) ;;;
      let! p := makeConnectionPtr conn in
      call_handler h p
  end.

Definition run_call (c : call) : prog t unit :=
  match c with CallGet h => get_connection h | CallReturn conn => return_to_pool conn end.

(** [strand.dispatch]: at once when the strand is free, else later. *)
Definition dispatch (free : bool) (c : call) : prog t unit :=
  if free then run_call c else modify (λ s, set_posted (posted s ++ [c]) s).

Definition getConnection (free : bool) (h : handler) : prog t unit := dispatch free (CallGet h).
Definition returnToPool (free : bool) (conn : connection) : prog t unit := dispatch free (CallReturn conn).

(** [OnDeleteReturnToPool::operator()], when a [ConnectionPtr] goes out of scope. *)
Definition OnDeleteReturnToPool (free : bool) (conn : connection) : prog t unit :=
  modify (λ s, set_lent (remove conn (lent s)) s) ;;; returnToPool free conn.

(** [connect]: an attempt is started for every connection of the deque. *)
Definition connect : prog t unit :=
  modify (λ s, set_connecting (Some (mk_control None (pool s))) (set_valid (pool s) s)).

(** [pool.erase(find(...))]: at either end only the references to the erased
    element are invalidated, in the middle all of them. *)
Definition index_of (c : connection) (l : list connection) : option nat :=
  fst <$> list_find (λ c', c' = c) l.

Definition erase (conn : connection) : prog t unit :=
  let! s := get in
  if decide (conn ∈ valid s) then
    match index_of conn (pool s) with
    | Some i =>
        let at_end := (i =? 0)%nat || (S i =? length (pool s))%nat in
        modify (λ s, set_failed (conn :: failed s)
          (set_valid (if at_end then remove conn (valid s) else [])
            (set_pool (remove conn (pool s)) s)))
    | None => fail OutOfBounds
    end
  else fail DanglingReference.

(** The callback [connect] gives to the attempt of [conn]. *)
Definition on_connected (conn : connection) (e : option error) : prog t unit :=
  let! s := get in
  match connecting s with
  | None => ret tt
  | Some ctl =>
      (match e with Some _ => erase conn | None => ret tt end) ;;;
      let ctl' := mk_control
        (match firstError ctl with Some e0 => Some e0 | None => e end)
        (remove conn (outstanding ctl)) in
      modify (set_connecting (Some ctl')) ;;;
      let! s := get in
      match outstanding ctl' with
      | [] => modify (set_started (started s ++ [(firstError ctl', length (pool s))]))
      | _ => ret tt
      end
  end.

(** ** Events *)

Inductive event : Type :=
  | Get (free : bool) (h : handler)
  | Delete (free : bool) (conn : connection)
  | Run
  | Connected (conn : connection) (e : option error).

(** A [ConnectionPtr] is deleted once, and a callback runs once. *)
Definition enabled (ev : event) (s : t) : Prop :=
  match ev with
  | Delete _ conn => conn ∈ lent s
  | Connected conn _ => ∃ ctl, connecting s = Some ctl ∧ conn ∈ outstanding ctl
  | _ => True
  end.

Definition handle (ev : event) : prog t unit :=
  match ev with
  | Get free h => getConnection free h
  | Delete free conn => OnDeleteReturnToPool free conn
  | Run =>
      let! s := get in
      match posted s with
      | [] => ret tt
      | c :: cs => modify (set_posted cs) ;;; run_call c
      end
  | Connected conn e => on_connected conn e
  end.

Definition step (s s' : t) : Prop := ∃ ev, enabled ev s ∧ handle ev s = (Val tt, s').

(** ** The invariant *)

(** The connections on their way back. *)
Definition returning (l : list call) : list connection :=
  omap (λ c, match c with CallReturn conn => Some conn | CallGet _ => None end) l.

Definition all (s : t) : list connection :=
  pool s ++ lent s ++ returning (posted s) ++ failed s.

(** Every connection is in exactly one place, [moving] being those the running
    code holds in its variables; requests only wait while no
    connection is idle, and have been served in the order in which they came. *)
Record inv (moving conns : list connection) (s : t) : Prop := {
  inv_all : moving ++ all s ≡ₚ conns;
  inv_idle : pool s = [] ∨ requestQueue s = [];
  inv_fifo : (served s).*1 ++ requestQueue s = asked s;
}.

Definition initial (conns : list connection) (s : t) : Prop :=
  s = ConnectionPool conns ∨ s = (connect (ConnectionPool conns)).2.

(** ** Lemmas *)

Lemma remove_not_in c l : c ∉ l → remove c l = l.
Proof.
  unfold remove. induction l as [|x l IH]; [done|]. intros Hc. apply not_elem_of_cons in Hc as [Hx Hc].
  rewrite filter_cons_True by auto. by rewrite IH.
Qed.

Lemma remove_perm c l : NoDup l → c ∈ l → l ≡ₚ c :: remove c l.
Proof.
  unfold remove. induction 1 as [|x l Hx Hl IH]; intros Hc; [by apply elem_of_nil in Hc|].
  apply elem_of_cons in Hc as [->|Hc].
  - rewrite filter_cons_False by auto. fold (remove x l). by rewrite remove_not_in.
  - rewrite filter_cons_True by (intros ->; done). fold (remove c l). rewrite (IH Hc) at 1. constructor.
Qed.

Lemma inv_nodup moving conns s : NoDup conns → inv moving conns s → NoDup (moving ++ all s).
Proof. intros Hn Hi. by rewrite (inv_all _ _ _ Hi). Qed.

(** [returning] of one more function object. *)
Lemma returning_app l c :
  returning (l ++ [c]) = returning l ++ match c with CallReturn conn => [conn] | CallGet _ => [] end.
Proof. unfold returning. rewrite omap_app. by destruct c. Qed.

Section invariant.
Context (conns : list connection) (Hconns : NoDup conns).

Lemma get_connection_inv h s : inv [] conns s → ∃ s', get_connection h s = (Val tt, s') ∧ inv [] conns s'.
Proof.
  intros [Ha Hi Hf]. unfold get_connection, makeConnectionPtr, call_handler. run_simpl.
  destruct (pool s) as [|front rest] eqn:Hp; simpl; eexists; (split; [done|]); split; simpl.
  - by rewrite <-Ha; unfold all; simpl; rewrite Hp.
  - by left.
  - by rewrite app_assoc, Hf.
  - rewrite <-Ha. unfold all. simpl. rewrite Hp. simpl.
    symmetry. apply Permutation_middle.
  - right. by destruct Hi.
  - destruct Hi as [|Hq]; [done|]. rewrite Hq, app_nil_r in *. rewrite fmap_app. simpl. by rewrite Hf.
Qed.

Lemma return_to_pool_inv c s : inv [c] conns s → ∃ s', return_to_pool c s = (Val tt, s') ∧ inv [] conns s'.
Proof.
  intros [Ha Hi Hf]. unfold return_to_pool, makeConnectionPtr, call_handler. run_simpl.
  destruct (requestQueue s) as [|h rest] eqn:Hq; simpl; eexists; (split; [done|]); split; simpl.
  - rewrite <-Ha. unfold all. simpl. rewrite <-!app_assoc. symmetry. apply Permutation_middle.
  - by right.
  - by rewrite Hq.
  - rewrite <-Ha. unfold all. simpl. symmetry. apply Permutation_middle.
  - left. by destruct Hi.
  - rewrite <-Hf, fmap_app, <-app_assoc. done.
Qed.

Lemma run_call_inv c s :
  inv match c with CallReturn conn => [conn] | CallGet _ => [] end conns s →
  ∃ s', run_call c s = (Val tt, s') ∧ inv [] conns s'.
Proof. destruct c; [apply get_connection_inv|apply return_to_pool_inv]. Qed.

Lemma dispatch_inv free c s :
  inv match c with CallReturn conn => [conn] | CallGet _ => [] end conns s →
  ∃ s', dispatch free c s = (Val tt, s') ∧ inv [] conns s'.
Proof.
  intros Hs. unfold dispatch. destruct free; [by apply run_call_inv|].
  eexists. split; [done|]. destruct Hs as [Ha Hi Hf]. split; [|done|done].
  rewrite <-Ha. unfold all. simpl. rewrite returning_app. destruct c as [h|conn]; [by rewrite app_nil_r|].
  rewrite (Permutation_app_comm (returning _) [conn]). simpl. by rewrite <-!Permutation_middle.
Qed.

Lemma delete_inv free c s : c ∈ lent s → inv [] conns s →
  ∃ s', OnDeleteReturnToPool free c s = (Val tt, s') ∧ inv [] conns s'.
Proof.
  intros Hc Hs. pose proof (inv_nodup _ _ _ Hconns Hs) as Hn. destruct Hs as [Ha Hi Hf].
  unfold OnDeleteReturnToPool. unfold bind at 1. unfold modify at 1.
  apply dispatch_inv. split; [|done|done]. rewrite <-Ha. unfold all. simpl.
  rewrite Permutation_middle. f_equiv. rewrite app_comm_cons. f_equiv. symmetry. apply remove_perm; [|done].
  apply NoDup_app in Hn as (_ & _ & Hn). unfold all in Hn. apply NoDup_app in Hn as (_ & _ & Hn).
  by apply NoDup_app in Hn as (? & _).
Qed.

Lemma erase_inv c s : inv [] conns s →
  inv [] conns (erase c s).2 ∧ connecting (erase c s).2 = connecting s.
Proof.
  intros Hs. pose proof (inv_nodup _ _ _ Hconns Hs) as Hn.
  unfold erase. run_simpl. destruct (decide (c ∈ valid s)); [|done].
  unfold index_of. destruct (list_find _ (pool s)) as [[i c']|] eqn:Hfind; [|done]. simpl.
  apply list_find_Some in Hfind as (Hlook & -> & _). apply list_elem_of_lookup_2 in Hlook.
  unfold all in Hn. simpl in Hn. apply NoDup_app in Hn as (Hn & _).
  destruct Hs as [Ha Hi Hf]. split; [|done]. split; [|simpl|done].
  - rewrite <-Ha. unfold all. simpl. symmetry.
    etrans; [apply Permutation_app_tail, (remove_perm c (pool s) Hn Hlook)|].
    simpl. by rewrite <-!Permutation_middle.
  - destruct Hi as [Hp|?]; [rewrite Hp in Hlook; inversion Hlook|by right].
Qed.

Lemma connected_inv c e : preserves (inv [] conns) (on_connected c e).
Proof.
  intros s' Hs. unfold on_connected. unfold get at 1. unfold bind at 1.
  destruct (connecting s') as [ctl|]; [|done].
  assert (inv [] conns ((match e with Some _ => erase c | None => ret tt end) s').2) as He.
  { destruct e; [|done]. by apply erase_inv. }
  unfold bind at 1. destruct ((match e with Some _ => erase c | None => ret tt end) s') as [[] s1]; [|done..].
  simpl in He. unfold modify, get. unfold bind at 1. unfold bind at 1. simpl.
  destruct (remove c (outstanding ctl)); destruct He as [Ha Hi Hf]; by split.
Qed.

Lemma handle_inv ev s s' : enabled ev s → inv [] conns s → handle ev s = (Val tt, s') → inv [] conns s'.
Proof.
  intros Hen Hs. destruct ev as [free h|free c| |c e]; simpl.
  - destruct (dispatch_inv free (CallGet h) s Hs) as (s1 & Hr & Hi).
    unfold getConnection. rewrite Hr. by intros [= <-].
  - destruct (delete_inv free c s Hen Hs) as (s1 & -> & Hi). by intros [= <-].
  - unfold get. unfold bind at 1. destruct (posted s) as [|c cs] eqn:Hp; [by intros [= <-]|].
    unfold modify. unfold bind at 1. destruct (run_call_inv c (set_posted cs s)) as (s1 & -> & Hi); [|by intros [= <-]].
    destruct Hs as [Ha Hi Hf]. split; [|done|done]. rewrite <-Ha. unfold all. rewrite Hp. simpl.
    unfold returning. destruct c as [h|c]; [done|]. simpl.
    by rewrite <-!Permutation_middle.
  - intros Hr. pose proof (connected_inv c e s Hs) as Hp. by rewrite Hr in Hp.
Qed.
End invariant.

(** ** Connecting *)

Lemma erase_run c s i :
  c ∈ valid s → NoDup (pool s) → pool s !! i = Some c →
  erase c s = (Val tt, set_failed (c :: failed s)
    (set_valid (if (i =? 0)%nat || (S i =? length (pool s))%nat then remove c (valid s) else [])
      (set_pool (remove c (pool s)) s))).
Proof.
  intros Hv Hn Hi. unfold erase. run_simpl. rewrite decide_True by done.
  assert (index_of c (pool s) = Some i) as ->; [|done].
  unfold index_of. rewrite (proj2 (list_find_Some _ _ i c)); [done|]. split_and!; [done|done|].
  intros j y Hj Hlt ->. pose proof (NoDup_lookup _ _ _ _ Hn Hi Hj). lia.
Qed.

Lemma length_remove c l : NoDup l → c ∈ l → S (length (remove c l)) = length l.
Proof. intros Hn Hc. by rewrite (remove_perm c l Hn Hc) at 2. Qed.

Lemma remove_head c l l' : NoDup l → l ≡ₚ c :: l' → remove c l ≡ₚ l'.
Proof.
  intros Hn Hl. apply (Permutation_cons_inv (a:=c)). rewrite <-Hl. symmetry. apply remove_perm; [done|].
  rewrite Hl. by left.
Qed.

Lemma NoDup_remove c l : NoDup l → NoDup (remove c l).
Proof. apply NoDup_filter. Qed.

(** The errors among the results of the attempts. *)
Definition errors (rs : list (connection * option error)) : list error := omap snd rs.

Lemma errors_cons c e rs :
  errors ((c, e) :: rs) = match e with Some x => x :: errors rs | None => errors rs end.
Proof. by destruct e. Qed.

Definition attempts (rs : list (connection * option error)) : prog t unit :=
  run_all (λ '(c, e), handle (Connected c e)) rs.

(** While the attempts in [rs] are outstanding and at most one of them fails. *)
Record attempting (rs : list (connection * option error)) (ctl : control) (s : t) : Prop := {
  at_ctl : connecting s = Some ctl;
  at_nodup : NoDup (outstanding ctl);
  at_out : outstanding ctl ≡ₚ rs.*1;
  at_pool : NoDup (pool s);
  at_fail : ∀ c e, (c, Some e) ∈ rs → c ∈ valid s ∧ c ∈ pool s;
  at_errors : (length (errors rs) ≤ 1)%nat;
}.

Definition merge (e0 : option error) (es : list error) : option error :=
  match e0 with Some e => Some e | None => head es end.

(** One more attempt succeeds, or fails. *)
Lemma attempting_cons c e rs ctl s :
  attempting ((c, e) :: rs) ctl s →
  ∃ s1, (match e with Some _ => erase c | None => ret tt end) s = (Val tt, s1) ∧
    started s1 = started s ∧
    (length (pool s1) = length (pool s) - match e with Some _ => 1 | None => 0 end)%nat ∧
    let ctl' := mk_control (merge (firstError ctl) (errors [(c, e)])) (remove c (outstanding ctl)) in
    attempting rs ctl' (set_connecting (Some ctl') s1).
Proof.
  intros [Hc Hn Ho Hp Hf He].
  assert (remove c (outstanding ctl) ≡ₚ rs.*1) as Hout by by apply remove_head.
  destruct e as [e|].
  - destruct (Hf c e) as [Hv Hin]; [by left|].
    apply list_elem_of_lookup_1 in Hin as Hi. destruct Hi as [i Hi].
    eexists. split; [by apply (erase_run c s i)|]. split; [done|]. split.
    + simpl. pose proof (length_remove c (pool s) Hp Hin). lia.
    + assert (errors rs = []) as Hnil.
      { rewrite errors_cons in He. simpl in He. destruct (errors rs); [done|simpl in He; lia]. }
      assert (∀ c' e', (c', Some e') ∉ rs) as Hnone.
      { intros c' e' Hin'. assert (e' ∈ errors rs) as Hine
          by (apply list_elem_of_omap; by exists (c', Some e')).
        rewrite Hnil in Hine. by inversion Hine. }
      split; simpl; [done|by apply NoDup_remove|done|by apply NoDup_remove| |].
      * intros c' e' Hin'. by destruct (Hnone c' e').
      * change (length (errors rs) ≤ 1)%nat. rewrite Hnil. simpl. lia.
  - eexists. split; [done|]. split; [done|]. split; [lia|].
    split; simpl; [done|by apply NoDup_remove|done|done| |done].
    intros c' e' Hin'. apply (Hf c' e'). by right.
Qed.

Lemma merge_cons e0 (c : connection) e rs :
  merge (merge e0 (errors [(c, e)])) (errors rs) = merge e0 (errors ((c, e) :: rs)).
Proof. by destruct e0, e. Qed.

Lemma attempts_run rs : ∀ ctl s, rs ≠ [] → attempting rs ctl s →
  ∃ s', attempts rs s = (Val tt, s') ∧
    started s' = started s ++
      [(merge (firstError ctl) (errors rs), (length (pool s) - length (errors rs))%nat)].
Proof.
  induction rs as [|[c e] rs IH]; intros ctl s Hne Hs; [done|].
  destruct (attempting_cons c e rs ctl s Hs) as (s1 & Hr & Hst & Hlen & Hs1).
  set (ctl' := mk_control _ _) in Hs1. unfold attempts. cbn [run_all handle].
  unfold bind at 1, on_connected. unfold get at 1. unfold bind at 1. rewrite (at_ctl _ _ _ Hs).
  rewrite (bind_val _ _ _ _ _ Hr).
  assert (mk_control (match firstError ctl with Some e0 => Some e0 | None => e end)
    (remove c (outstanding ctl)) = ctl') as -> by (unfold ctl'; by destruct (firstError ctl), e).
  unfold modify. unfold bind at 1. unfold get. unfold bind at 1.
  set (s2 := set_connecting (Some ctl') s1).
  destruct rs as [|r rs].
  - assert (outstanding ctl' = []) as -> by (apply Permutation_nil_r, (at_out _ _ _ Hs1)).
    simpl. eexists. split; [done|]. simpl. rewrite Hst. do 3 f_equal.
    rewrite Hlen. by destruct e.
  - pose proof (at_out _ _ _ Hs1) as Hout. destruct (outstanding ctl') as [|c0 l] eqn:Ho.
    { apply Permutation_nil_l in Hout. by destruct r. }
    destruct (IH ctl' s2) as (s' & Hr' & Hst'); [done|done|].
    exists s'. split; [exact Hr'|]. rewrite Hst'. unfold s2. simpl started. rewrite Hst.
    do 3 f_equal; [by rewrite <-merge_cons|].
    change (pool (set_connecting (Some ctl') s1)) with (pool s1). rewrite Hlen.
    unfold errors. simpl. destruct e; simpl; lia.
Qed.

(** ** Properties *)

(** C10. Whatever the pool's users and the database do, every connection is in
    exactly one place: idle in the pool, with a user, on its way back, or
    destroyed because it could not be opened. No request waits while a connection
    is idle, and requests are served in the order in which the strand ran them. Apart
    from a failed connection attempt, no operation of the pool fails. *)
Theorem pool_invariant conns s :
  NoDup conns → reachable (initial conns) step s →
  pool s ++ lent s ++ returning (posted s) ++ failed s ≡ₚ conns ∧
  (pool s = [] ∨ requestQueue s = []) ∧
  (served s).*1 ++ requestQueue s = asked s ∧
  (∀ ev, enabled ev s → (∀ c e, ev ≠ Connected c (Some e)) → (handle ev s).1 = Val tt).
Proof.
  intros Hn Hr. assert (inv [] conns s) as Hs.
  { revert s Hr. apply reachable_inv.
    - intros s [->| ->]; split; simpl; rewrite ?app_nil_r; auto; unfold all; simpl; by rewrite ?app_nil_r.
    - intros s s' Hs (ev & He & Hh). by apply (handle_inv conns Hn ev s). }
  pose proof Hs as [Ha Hi Hf]. split_and!; [done..|].
  intros [free h|free c| |c e] He Hev; simpl.
  - unfold getConnection. by destruct (dispatch_inv conns free (CallGet h) s Hs) as (s1 & -> & _).
  - by destruct (delete_inv conns Hn free c s He Hs) as (s1 & -> & _).
  - unfold get. unfold bind at 1. destruct (posted s) as [|c cs]; [done|]. unfold modify. unfold bind at 1.
    destruct c as [h|c]; simpl; unfold get_connection, return_to_pool, makeConnectionPtr, call_handler; run_simpl;
      by repeat case_match.
  - destruct e as [e|]; [by destruct (Hev c e)|]. destruct He as (ctl & Hctl & _).
    unfold on_connected. run_simpl. rewrite Hctl. simpl. by destruct (remove c (outstanding ctl)).
Qed.

(** [connect] calls its handler exactly once, when the last attempt has
    ended, in whatever order they end: with the error of the failed attempt, if
    one failed, and the number of connections that are open. *)
Theorem connect_reports conns rs :
  NoDup conns → rs ≠ [] → rs.*1 ≡ₚ conns → (length (errors rs) ≤ 1)%nat →
  ∃ s', (connect ;;; attempts rs) (ConnectionPool conns) = (Val tt, s') ∧
    started s' = [(head (errors rs), (length conns - length (errors rs))%nat)].
Proof.
  intros Hn Hne Hrs He. unfold bind at 1, connect, modify. simpl.
  set (s0 := set_connecting _ _).
  destruct (attempts_run rs (mk_control None conns) s0 Hne) as (s' & Hr & Hst).
  { split; simpl; try done. intros c e Hin.
    assert (c ∈ conns) by (rewrite <-Hrs; apply list_elem_of_fmap; by exists (c, Some e)). done. }
  exists s'. split; [exact Hr|]. by rewrite Hst.
Qed.

(** A second failed attempt is undefined behaviour when the first one failed
    for a connection that is neither first nor last in the pool: the callbacks
    hold references into the deque, and erasing in its middle invalidates all of
    them. *)
Theorem second_failure_dangles l1 c l2 c' e e' :
  NoDup (l1 ++ c :: l2) → l1 ≠ [] → l2 ≠ [] → c' ∈ l1 ++ l2 →
  ((connect ;;; attempts [(c, Some e); (c', Some e')]) (ConnectionPool (l1 ++ c :: l2))).1
    = Fault DanglingReference.
Proof.
  intros Hn H1 H2 Hc'. unfold bind at 1, connect, modify. simpl pool.
  set (s0 := set_connecting _ _). set (conns := l1 ++ c :: l2).
  assert (conns !! length l1 = Some c) as Hlook by by apply list_lookup_middle.
  unfold attempts. cbn [run_all handle]. unfold bind at 1, on_connected at 1. unfold get at 1. unfold bind at 1.
  change (connecting s0) with (Some (mk_control None conns)). cbn iota beta.
  rewrite (bind_val _ _ _ _ _ (erase_run c s0 (length l1) (list_elem_of_lookup_2 _ _ _ Hlook) Hn Hlook)).
  unfold modify. unfold bind at 1. unfold get. unfold bind at 1.
  rewrite (proj2 (Nat.eqb_neq _ _)) by by destruct l1.
  assert ((S (length l1) =? length (pool s0))%nat = false) as ->.
  { apply Nat.eqb_neq. simpl. rewrite length_app. simpl. destruct l2; [done|]. simpl. lia. }
  simpl. destruct (remove c conns) eqn:Hrem.
  { assert (c' ∈ remove c conns) as Hin; [|rewrite Hrem in Hin; by inversion Hin].
    unfold remove. apply list_elem_of_filter. split.
    - intros ->. apply NoDup_app in Hn as (_ & Hd & Hn). apply elem_of_app in Hc' as [Hc'|Hc'].
      + apply (Hd c Hc'). by left.
      + by apply NoDup_cons in Hn as [].
    - unfold conns. apply elem_of_app in Hc' as [?|?]; apply elem_of_app; [by left|right; by right]. }
  done.
Qed.
End pool.

(** ** Witnesses *)

(** Two connections, three requests, of which the third waits; then the first
    connection comes back. *)
Definition busy : t (connection:=nat) (handler:=nat) (error:=nat) := Eval vm_compute in
  (run_all handle [Get true 10%nat; Get false 11%nat; Run; Get true 12%nat; Delete false 1%nat]
    (ConnectionPool [1%nat; 2%nat])).2.

Lemma busy_reachable : reachable (initial [1%nat; 2%nat]) step busy.
Proof.
  assert (∀ (s s' : t (connection:=nat) (handler:=nat) (error:=nat)) ev,
    reachable (initial [1%nat; 2%nat]) step s → enabled ev s → handle ev s = (Val tt, s') →
    reachable (initial [1%nat; 2%nat]) step s') as Hstep.
  { intros s s' ev Hr He Hh. eapply reach_step; [exact Hr|]. by exists ev. }
  set (run evs := (run_all handle evs
    (ConnectionPool (handler:=nat) (error:=nat) [1%nat; 2%nat])).2).
  apply (Hstep (run [Get true 10%nat; Get false 11%nat; Run; Get true 12%nat]) _ (Delete false 1%nat));
    [|change (1%nat ∈ [2%nat; 1%nat]); set_solver|vm_compute; reflexivity].
  apply (Hstep (run [Get true 10%nat; Get false 11%nat; Run]) _ (Get true 12%nat)); [|exact I|vm_compute; reflexivity].
  apply (Hstep (run [Get true 10%nat; Get false 11%nat]) _ Run); [|exact I|vm_compute; reflexivity].
  apply (Hstep (run [Get true 10%nat]) _ (Get false 11%nat)); [|exact I|vm_compute; reflexivity].
  apply (Hstep (run []) _ (Get true 10%nat)); [|exact I|vm_compute; reflexivity].
  apply reach_init. by left.
Qed.

Lemma pool_invariant_witness :
  (served busy).*1 = [10%nat; 11%nat] ∧ requestQueue busy = [12%nat] ∧
  pool busy ++ lent busy ++ returning (posted busy) ++ failed busy ≡ₚ [1%nat; 2%nat] ∧
  (handle Run busy).1 = Val tt.
Proof.
  destruct (pool_invariant [1%nat; 2%nat] busy) as (Ha & _ & _ & Hok).
  - apply (bool_decide_unpack _). vm_compute. exact I.
  - apply busy_reachable.
  - split_and!; [reflexivity|reflexivity|exact Ha|]. by apply Hok.
Defined.

Lemma connect_reports_witness :
  ∃ s', (connect ;;; attempts [(2%nat, None); (3%nat, Some 7%nat); (1%nat, None)])
          (ConnectionPool (handler:=nat) [1%nat; 2%nat; 3%nat]) = (Val tt, s') ∧
        started s' = [(Some 7%nat, 2%nat)].
Proof.
  apply (connect_reports [1%nat; 2%nat; 3%nat]
    [(2%nat, None); (3%nat, Some 7%nat); (1%nat, None)]).
  - apply (bool_decide_unpack _). vm_compute. exact I.
  - done.
  - exact (Permutation_app_comm [2%nat; 3%nat] [1%nat]).
  - simpl. lia.
Defined.

Lemma second_failure_dangles_witness :
  ((connect ;;; attempts [(2%nat, Some 7%nat); (3%nat, Some 8%nat)])
    (ConnectionPool (handler:=nat) [1%nat; 2%nat; 3%nat])).1 = Fault DanglingReference.
Proof.
  apply (second_failure_dangles [1%nat] 2%nat [3%nat] 3%nat 7%nat 8%nat); [|done|done|].
  - simpl. apply (bool_decide_unpack _). vm_compute. exact I.
  - simpl. right. left.
Defined.
End Pool.
