(* ===== verification/Parallel.v ===== *)
(** * Functions run later and in worker threads (scheduler.hpp)

    [callLater] posts a function to the scheduler's io_service. [callInParallel] posts one
    to the io_service of the [ParallelExecutionService], which as many threads run as the
    machine has processors, and when it has returned posts its callback to the
    scheduler's io_service. The functions may themselves call the scheduler; the threads
    interleave between any two of their accesses to the program's state and calls. *)

From S2P Require Import Prelude.

Module Parallel.

(** ** The executors *)

Section executors.
(** The caller's state, and the functions that the program gives to the scheduler. *)
Context {S F : Type}.

(** A call of the scheduler. *)
Inductive request : Type :=
  | later (f : F)
  | parallel (f : F) (cb : option F).

(** What a function does, one access to the caller's state or one call at a time; it goes
    on according to what it has found. *)
Inductive code : Type :=
  | finish
  | throws (e : exn)
  | act (f : S → S) (k : S → code)
  | call (r : request) (c : code).

Context (code_of : F → code).

(** A function with its callback, if it was given one. *)
Record job : Type := mk_job { fn : F; callback : option F }.

(** What the scheduler's io_service holds. *)
Inductive item : Type :=
  | posted_later (f : F)
  | callback_of (cb : F).
Definition body (i : item) : F := match i with posted_later f | callback_of f => f end.

(** A thread that is running a job: what the function still has to do, and the callback
    that is to be posted after it. *)
Record task : Type := mk_task { job_of : job; rest : code; to_post : option F }.

(** The scheduler's io_service with the function it is running; the other one with what
    its threads are running, their number, and whether it was stopped; the caller's state;
    of the past, the functions that threads were given, have started and have ended, and
    what the scheduler's io_service was given and has started. *)
Record executors : Type := mk_executors {
  main : list item;
  current : option code;
  work : list job;
  running : list task;
  threads : nat;
  stopped : bool;
  caller : S;
  accepted : list job;
  started : list job;
  finished : list job;
  posted : list item;
  called : list item;
}.

Definition set_main m cur p c x := mk_executors m cur (work x) (running x) (threads x) (stopped x)
  (caller x) (accepted x) (started x) (finished x) p c.
Definition set_current y x := set_main (main x) y (posted x) (called x) x.
Definition set_work w a s x := mk_executors (main x) (current x) w (running x) (threads x) (stopped x)
  (caller x) a s (finished x) (posted x) (called x).
Definition set_running r f x := mk_executors (main x) (current x) (work x) r (threads x) (stopped x)
  (caller x) (accepted x) (started x) f (posted x) (called x).
Definition set_stopped y x := mk_executors (main x) (current x) (work x) (running x) (threads x) y
  (caller x) (accepted x) (started x) (finished x) (posted x) (called x).
Definition set_caller y x := mk_executors (main x) (current x) (work x) (running x) (threads x)
  (stopped x) y (accepted x) (started x) (finished x) (posted x) (called x).

Definition by_caller {A} (m : prog S A) : prog executors A := zoom caller set_caller m.

(** [ParallelExecutionService]: the [int] the loop compares with is made of an
    [unsigned]. *)
Definition int_of (n : Z) : Z := (n + 2 ^ 31) `mod` 2 ^ 32 - 2 ^ 31.
Definition ParallelExecutionService (hardware_concurrency : Z) (s : S) : executors :=
  mk_executors [] None [] [] (Z.to_nat (int_of hardware_concurrency)) false s [] [] [] [] [].

(** [~ParallelExecutionService] joins the threads once they have run out of what they
    were running. *)
Definition stop : prog executors unit := modify (set_stopped true).

(** [ioService.post] *)
Definition post_main (i : item) : prog executors unit :=
  modify (λ x, set_main (main x ++ [i]) (current x) (posted x ++ [i]) (called x) x).
Definition callLater (f : F) : prog executors unit := post_main (posted_later f).

(** [ParallelExecutionService::post] of what [callInParallel] makes of its arguments. *)
Definition post (j : job) : prog executors unit :=
  modify (λ x, set_work (work x ++ [j]) (accepted x ++ [j]) (started x) x).
Definition callInParallel (f : F) (cb : option F) : prog executors unit := post (mk_job f cb).

Definition perform (r : request) : prog executors unit :=
  match r with later f => callLater f | parallel f cb => callInParallel f cb end.

(** A thread that is free takes the next function. *)
Definition thread_takes : prog executors unit :=
  let! x := get in
  match work x with
  | j :: rest =>
      if negb (stopped x) && (length (running x) <? threads x)%nat then
        modify (λ x, set_running (running x ++ [mk_task j (code_of (fn j)) (callback j)]) (finished x)
          (set_work rest (accepted x) (started x ++ [j]) x))
      else ret tt
  | [] => ret tt
  end.

(** The [i]-th of the busy threads goes on: with its function, then by posting the
    callback; then it is free. An exception leaves the thread, which ends the program. *)
Definition update_task (i : nat) (c : code) (cb : option F) (t : task) : prog executors unit :=
  modify (λ x, set_running (<[i := mk_task (job_of t) c cb]> (running x)) (finished x) x).
Definition thread_runs (i : nat) : prog executors unit :=
  let! x := get in
  match running x !! i with
  | None => ret tt
  | Some t =>
      match rest t, to_post t with
      | act f k, cb => by_caller (modify f) ;;; update_task i (k (caller x)) cb t
      | call r c, cb => perform r ;;; update_task i c cb t
      | throws e, _ => throw e
      | finish, Some cb => post_main (callback_of cb) ;;; update_task i finish None t
      | finish, None => modify (set_running (delete i (running x)) (finished x ++ [job_of t]))
      end
  end.

(** The scheduler's io_service takes the next function, and goes on with it. An exception
    leaves [run] and the function is gone. *)
Definition main_takes : prog executors unit :=
  let! x := get in
  match current x, main x with
  | None, i :: rest => put (set_main rest (Some (code_of (body i))) (posted x) (called x ++ [i]) x)
  | _, _ => ret tt
  end.
Definition main_runs : prog executors unit :=
  let! x := get in
  match current x with
  | None => ret tt
  | Some (act f k) => by_caller (modify f) ;;; modify (set_current (Some (k (caller x))))
  | Some (call r c) => perform r ;;; modify (set_current (Some c))
  | Some (throws e) => modify (set_current None) ;;; throw e
  | Some finish => modify (set_current None)
  end.

(** [ioService.run_one()] while no thread does anything. *)
Fixpoint run_code (c : code) : prog executors unit :=
  match c with
  | act f k => let! x := get in main_runs ;;; run_code (k (caller x))
  | call r c => main_runs ;;; run_code c
  | throws _ | finish => main_runs
  end.
Definition run_one : prog executors unit :=
  main_takes ;;; let! x := get in match current x with Some c => run_code c | None => ret tt end.

(** What the threads and the io_service do by themselves. *)
Inductive internal : executors → executors → Prop :=
  | i_takes x j l : work x = j :: l → stopped x = false → (length (running x) < threads x)%nat →
      internal x (thread_takes x).2
  | i_runs i t x x' : running x !! i = Some t → thread_runs i x = (Val tt, x') → internal x x'
  | i_main_takes i l x : current x = None → main x = i :: l → internal x (main_takes x).2
  | i_main_runs c x : current x = Some c → internal x (main_runs x).2.

(** The program calls the scheduler at any time, and in the end stops the service. *)
Inductive step : executors → executors → Prop :=
  | s_internal x x' : internal x x' → step x x'
  | s_call r x : step x (perform r x).2
  | s_stop x : step x (stop x).2.

Definition callbacks (l : list item) : list F :=
  omap (λ i, match i with callback_of cb => Some cb | posted_later _ => None end) l.

(** ** Where every function is, and every callback *)

(** A function that has not returned has its callback still to be posted. *)
Definition task_ok (t : task) : Prop :=
  to_post t = callback (job_of t) ∨ rest t = finish ∧ to_post t = None.

Record accounted (x : executors) : Prop := {
  ac_queue : accepted x = started x ++ work x;
  ac_started : started x ≡ₚ map job_of (running x) ++ finished x;
  ac_threads : (length (running x) ≤ threads x)%nat;
  ac_main : posted x = called x ++ main x;
  ac_callbacks : callbacks (posted x) ++ omap to_post (running x) ≡ₚ omap callback (started x);
  ac_tasks : Forall task_ok (running x);
}.

Lemma accounted_perform r x : accounted x → accounted (perform r x).2.
Proof.
  intros [Hq Hs Ht Hm Hc Hk]. destruct r as [f|f cb]; split; simpl; try done.
  - by rewrite Hm, app_assoc.
  - unfold callbacks in *. by rewrite omap_app, app_nil_r.
  - by rewrite Hq, app_assoc.
Qed.

(** Calls of the scheduler leave the threads and the caller's state alone. *)
Lemma perform_run r x : perform r x = (Val tt, (perform r x).2) ∧
  running (perform r x).2 = running x ∧ finished (perform r x).2 = finished x ∧
  current (perform r x).2 = current x ∧ threads (perform r x).2 = threads x ∧
  started (perform r x).2 = started x.
Proof. by destruct r. Qed.

(** A busy thread goes on with the same job. *)
Lemma accounted_update i t c cb x : accounted x → running x !! i = Some t →
  cb = to_post t → rest t ≠ finish → accounted (update_task i c cb t x).2.
Proof.
  intros [Hq Hs Ht Hm Hc Hk] Hi -> Hr.
  assert (task_ok (mk_task (job_of t) c (to_post t))) as Ht'.
  { pose proof (Forall_lookup_1 _ _ _ _ Hk Hi) as [?|[? _]]; [by left|done]. }
  pose proof (lookup_lt_Some _ _ _ Hi) as Hlt.
  rewrite <-(take_drop_middle _ _ _ Hi), map_app in Hs. rewrite <-(take_drop_middle _ _ _ Hi), omap_app in Hc.
  split; simpl; try done.
  - by rewrite (insert_take_drop _ _ _ Hlt), map_app.
  - by rewrite length_insert.
  - by rewrite (insert_take_drop _ _ _ Hlt), omap_app.
  - by apply Forall_insert.
Qed.

Lemma accounted_callback i t cb x : accounted x → running x !! i = Some t →
  rest t = finish → to_post t = Some cb →
  accounted (update_task i finish None t (post_main (callback_of cb) x).2).2.
Proof.
  intros [Hq Hs Ht Hm Hc Hk] Hi Hr Hcb. pose proof (lookup_lt_Some _ _ _ Hi) as Hlt.
  rewrite <-(take_drop_middle _ _ _ Hi), map_app in Hs. rewrite <-(take_drop_middle _ _ _ Hi), omap_app in Hc.
  split; simpl; try done.
  - by rewrite (insert_take_drop _ _ _ Hlt), map_app.
  - by rewrite length_insert.
  - by rewrite Hm, app_assoc.
  - rewrite (insert_take_drop _ _ _ Hlt), omap_app. unfold callbacks in *. rewrite omap_app. simpl in *.
    rewrite Hcb in Hc. rewrite <-Hc. solve_Permutation.
  - apply Forall_insert; [done|by right].
Qed.

Lemma accounted_free i t x : accounted x → running x !! i = Some t → rest t = finish →
  to_post t = None → accounted (set_running (delete i (running x)) (finished x ++ [job_of t]) x).
Proof.
  intros [Hq Hs Ht Hm Hc Hk] Hi Hr Hcb. pose proof (delete_Permutation _ _ _ Hi) as Hp.
  split; simpl; try done.
  - rewrite Hs, (fmap_Permutation job_of _ _ Hp). simpl. solve_Permutation.
  - rewrite length_delete by by eexists. lia.
  - rewrite <-Hc, (omap_Permutation _ _ _ Hp). simpl. by rewrite Hcb.
  - by apply Forall_delete.
Qed.

(** What a step of a busy thread has done. *)
Inductive thread_ran (i : nat) (t : task) (x : executors) : executors → Prop :=
  | ran_act f k : rest t = act f k →
      thread_ran i t x (update_task i (k (caller x)) (to_post t) t (set_caller (f (caller x)) x)).2
  | ran_call r c : rest t = call r c →
      thread_ran i t x (update_task i c (to_post t) t (perform r x).2).2
  | ran_callback cb : rest t = finish → to_post t = Some cb →
      thread_ran i t x (update_task i finish None t (post_main (callback_of cb) x).2).2
  | ran_free : rest t = finish → to_post t = None →
      thread_ran i t x (set_running (delete i (running x)) (finished x ++ [job_of t]) x).

Lemma thread_runs_ran i t x x' : running x !! i = Some t → thread_runs i x = (Val tt, x') →
  thread_ran i t x x'.
Proof.
  intros Hi. unfold thread_runs, get. unfold bind at 1. rewrite Hi.
  destruct (rest t) as [|e|f k|r c] eqn:Er.
  - destruct (to_post t) eqn:Ep; intros [= <-]; [by apply ran_callback|by apply ran_free].
  - done.
  - intros [= <-]. by apply (ran_act _ _ _ f k).
  - rewrite (bind_val _ _ _ _ _ (proj1 (perform_run r x))). intros [= <-]. by apply ran_call.
Qed.

Lemma accounted_caller s x : accounted x → accounted (set_caller s x).
Proof. by intros []. Qed.

Lemma accounted_ran i t x x' : accounted x → running x !! i = Some t → thread_ran i t x x' → accounted x'.
Proof.
  intros Ha Hi Hx. revert Ha Hi. destruct Hx as [f k Er|r c Er|cb Er Ep|Er Ep]; intros Ha Hi.
  - apply accounted_update; [by apply accounted_caller|done|done|by rewrite Er].
  - apply accounted_update; [by apply accounted_perform| |done|by rewrite Er].
    by rewrite (proj1 (proj2 (perform_run r x))).
  - by apply accounted_callback.
  - by apply (accounted_free i t).
Qed.

(** What a step of the scheduler's io_service has done. *)
Inductive main_ran (x : executors) : code → executors → Prop :=
  | main_act f k : main_ran x (act f k) (set_current (Some (k (caller x))) (set_caller (f (caller x)) x))
  | main_call r c : main_ran x (call r c) (set_current (Some c) (perform r x).2)
  | main_throws e : main_ran x (throws e) (set_current None x)
  | main_finish : main_ran x finish (set_current None x).

Lemma main_runs_ran c x : current x = Some c → main_ran x c (main_runs x).2.
Proof.
  intros Hc. unfold main_runs, get. unfold bind at 1. rewrite Hc. destruct c as [|e|f k|r c].
  - apply main_finish.
  - apply main_throws.
  - apply main_act.
  - rewrite (bind_val _ _ _ _ _ (proj1 (perform_run r x))). apply main_call.
Qed.

Lemma accounted_main x c x' : accounted x → main_ran x c x' → accounted x'.
Proof.
  intros Ha Hx. revert Ha. destruct Hx as [f k|r c|e|]; intros Ha.
  - by destruct Ha.
  - by destruct (accounted_perform r x Ha).
  - by destruct Ha.
  - by destruct Ha.
Qed.

Lemma thread_takes_run x j l : work x = j :: l → stopped x = false → (length (running x) < threads x)%nat →
  (thread_takes x).2 = set_running (running x ++ [mk_task j (code_of (fn j)) (callback j)]) (finished x)
    (set_work l (accepted x) (started x ++ [j]) x).
Proof.
  intros Hw Hst Hl. unfold thread_takes, get. unfold bind. by rewrite Hw, Hst, (proj2 (Nat.ltb_lt _ _) Hl).
Qed.

Lemma main_takes_run x i l : current x = None → main x = i :: l →
  (main_takes x).2 = set_main l (Some (code_of (body i))) (posted x) (called x ++ [i]) x.
Proof. intros Hc Hm. unfold main_takes, get. unfold bind. by rewrite Hc, Hm. Qed.

Lemma accounted_internal x x' : accounted x → internal x x' → accounted x'.
Proof.
  intros Ha Hs. revert Ha. destruct Hs as [x j l Hw Hst Hl|i t x x' Hi Hx|i l x Hc Hm|c x Hc]; intros Ha.
  - rewrite (thread_takes_run _ _ _ Hw Hst Hl). destruct Ha as [Hq Hs Ht Hm Hc Hk]. split; simpl; [|..|done| |].
    + by rewrite Hq, Hw, <-app_assoc.
    + rewrite Hs, map_app. simpl. solve_Permutation.
    + rewrite length_app. simpl. lia.
    + rewrite !omap_app, app_assoc, Hc. done.
    + apply Forall_app. split; [done|]. constructor; [by left|done].
  - eapply accounted_ran; [done..|by apply thread_runs_ran].
  - rewrite (main_takes_run _ _ _ Hc Hm). destruct Ha as [Hq Hs Ht Hmain Hcb Hk]. split; simpl; [done|done|done| |done|done].
    by rewrite <-app_assoc, Hmain, Hm.
  - eapply accounted_main; [done|by apply main_runs_ran].
Qed.

Lemma executors_step x x' : accounted x → step x x' → accounted x'.
Proof.
  intros Ha Hs. revert Ha. destruct Hs as [x x' Hi|r x|x]; intros Ha.
  - by eapply accounted_internal.
  - by apply accounted_perform.
  - by destruct Ha.
Qed.

(** The number of threads is what it was, and no function starts without one. *)
Lemma internal_threads x x' : internal x x' → threads x' = threads x ∧
  (threads x = 0%nat → started x' = started x).
Proof.
  intros Hs. destruct Hs as [x j l Hw Hst Hl|i t x x' Hi Hx|i l x Hc Hm|c x Hc].
  - rewrite (thread_takes_run _ _ _ Hw Hst Hl). split; [done|]. intros E. rewrite E in Hl. lia.
  - apply (thread_runs_ran _ _ _ _ Hi) in Hx. destruct Hx as [f k Er|r c Er|cb Er Ep|Er Ep]; try done.
    destruct (perform_run r x) as (_ & _ & _ & _ & E & E'). by simpl; rewrite E, E'.
  - by rewrite (main_takes_run _ _ _ Hc Hm).
  - apply main_runs_ran in Hc. destruct Hc as [f k|r c|e|]; try done.
    destruct (perform_run r x) as (_ & _ & _ & _ & E & E'). by simpl; rewrite E, E'.
Qed.

Context (hardware_concurrency : Z) (s0 : S).
Abbreviation started_with := (λ x, x = ParallelExecutionService hardware_concurrency s0).

Lemma reach_accounted x : reachable started_with step x →
  accounted x ∧ threads x = Z.to_nat (int_of hardware_concurrency) ∧
  (threads x = 0%nat → started x = []).
Proof.
  revert x. apply reachable_inv; [intros x ->; split; [split; [done..|simpl; lia|done|done|constructor]|done]|].
  intros x x' (Ha & Hn & H0) Hs. split; [by eapply executors_step|].
  destruct Hs as [x x' Hi|r x|x]; [|by destruct r|done].
  destruct (internal_threads _ _ Hi) as [-> E]. split; [done|]. intros Ht. by rewrite E, H0.
Qed.

(** C14. Whatever is posted, also by the functions themselves, and however the threads and
    the scheduler's io_service interleave: functions are taken by threads in the order in
    which they were given, each one once; no more of them run at a time than the
    machine has processors; what the scheduler's io_service is given it takes in that
    order. The callbacks that it has been given, with those that busy threads have still to
    post, are those of the functions that have started, each one once; and a thread whose
    function has not returned has its callback still to post. On a machine whose number of
    processors is not known no function is ever run in a thread. *)
Theorem parallel_accounting x : reachable started_with step x →
  accepted x = started x ++ work x ∧ started x ≡ₚ map job_of (running x) ++ finished x ∧
  (length (running x) ≤ Z.to_nat (int_of hardware_concurrency))%nat ∧
  posted x = called x ++ main x ∧
  callbacks (posted x) ++ omap to_post (running x) ≡ₚ omap callback (started x) ∧
  (∀ t, t ∈ running x → rest t ≠ finish → to_post t = callback (job_of t)) ∧
  (hardware_concurrency = 0 → finished x = [] ∧ running x = [] ∧ accepted x = work x).
Proof.
  intros ([Hq Hs Ht Hm Hc Hk] & Hn & H0)%reach_accounted.
  split; [done|]. split; [done|]. split; [by rewrite <-Hn|]. split; [done|]. split; [done|]. split.
  - intros t Hin Hr. by destruct (proj1 (Forall_forall _ _) Hk t Hin) as [?|[? _]].
  - intros E. rewrite E in Hn. specialize (H0 Hn). rewrite H0 in Hs, Hq.
    apply Permutation_nil, app_nil in Hs as [Hr ->]. by apply fmap_nil_inv in Hr.
Qed.

(** ** Everything that was posted runs *)

(** A bound on the steps of each function, those of the functions it posts included. *)
Section weights.
Context (weight : F → nat).

Definition callback_weight (cb : option F) : nat := match cb with Some f => weight f + 3 | None => 0 end.
Definition item_weight (i : item) : nat := weight (body i) + 2.
Definition job_weight (j : job) : nat := weight (fn j) + callback_weight (callback j) + 2.
Definition request_weight (r : request) : nat :=
  match r with
  | later f => item_weight (posted_later f)
  | parallel f cb => job_weight (mk_job f cb)
  end.

Inductive lasts : code → nat → Prop :=
  | lasts_finish n : lasts finish n
  | lasts_throws e n : lasts (throws e) n
  | lasts_act f k n : (∀ s, lasts (k s) n) → lasts (act f k) (1 + n)
  | lasts_call r c n : lasts c n → lasts (call r c) (1 + request_weight r + n).

(** Bounds on what the threads and the io_service still have to do. *)
Definition task_weight (t : task) (n : nat) : Prop :=
  ∃ k, lasts (rest t) k ∧ n = (k + callback_weight (to_post t) + 1)%nat.
Definition current_weight (c : option code) (n : nat) : Prop :=
  match c with Some c => ∃ k, lasts c k ∧ n = (k + 1)%nat | None => n = 0%nat end.
Definition weighs (x : executors) (n : nat) : Prop :=
  ∃ ns m, Forall2 task_weight (running x) ns ∧ current_weight (current x) m ∧
    n = (sum_list ns + m + sum_list_with item_weight (main x) + sum_list_with job_weight (work x))%nat.

Lemma sum_list_app l l' : sum_list (l ++ l') = (sum_list l + sum_list l')%nat.
Proof. apply (sum_list_with_app id). Qed.

Lemma weighs_perform r x n : weighs x n → weighs (perform r x).2 (request_weight r + n).
Proof.
  intros (ns & m & Hr & Hc & ->). exists ns, m.
  destruct r as [f|f cb]; simpl; (split; [done|]; split; [done|]);
    rewrite sum_list_with_app; simpl; lia.
Qed.

(** A thread that goes on weighs less, by more than what it has posted. *)
Lemma weighs_update i t c cb x n d : running x !! i = Some t → weighs x n →
  (∀ j, task_weight t j → ∃ j', task_weight (mk_task (job_of t) c cb) j' ∧ (j' + d < j)%nat) →
  ∃ n', (n' + d < n)%nat ∧ weighs (update_task i c cb t x).2 n'.
Proof.
  intros Hi (ns & m & Hr & Hc & ->) Ht.
  destruct (Forall2_lookup_l _ _ _ _ _ Hr Hi) as (j & Hj & Hw). destruct (Ht j Hw) as (j' & Hw' & Hlt).
  exists (sum_list (<[i:=j']> ns) + m + sum_list_with item_weight (main x) + sum_list_with job_weight (work x))%nat.
  split.
  - rewrite <-(take_drop_middle _ _ _ Hj) at 2.
    rewrite (insert_take_drop _ _ _ (lookup_lt_Some _ _ _ Hj)), !sum_list_app. simpl. lia.
  - exists (<[i:=j']> ns), m. split; [|done]. by apply Forall2_insert.
Qed.

Lemma weighs_ran i t x x' n : running x !! i = Some t → weighs x n → thread_ran i t x x' →
  ∃ n', (n' < n)%nat ∧ weighs x' n'.
Proof.
  intros Hi Hn Hx. revert Hi Hn. destruct Hx as [f k Er|r c Er|cb Er Ep|Er Ep]; intros Hi Hn.
  - destruct (weighs_update i t (k (caller x)) (to_post t) (set_caller (f (caller x)) x) n 0)
      as (n' & Hlt & Hw); [done|exact Hn| |exists n'; split; [lia|done]].
    intros j (k' & Hk & ->). rewrite Er in Hk. inversion Hk as [| |? ? l Hl|]; subst.
    exists (l + callback_weight (to_post t) + 1)%nat. split; [|lia]. exists l. split; [apply Hl|done].
  - destruct (weighs_update i t c (to_post t) (perform r x).2 (request_weight r + n) (request_weight r))
      as (n' & Hlt & Hw); [by rewrite (proj1 (proj2 (perform_run r x)))|by apply weighs_perform| |exists n'; split; [lia|done]].
    intros j (k' & Hk & ->). rewrite Er in Hk. inversion Hk as [| | |? ? l Hl]; subst.
    exists (l + callback_weight (to_post t) + 1)%nat. split; [by exists l|lia].
  - destruct (weighs_update i t finish None (post_main (callback_of cb) x).2 (weight cb + 2 + n) (weight cb + 2))
      as (n' & Hlt & Hw); [done| | |exists n'; split; [lia|done]].
    + destruct Hn as (ns & m & Hr & Hc & ->). exists ns, m. split; [done|]. split; [done|]. simpl.
      rewrite sum_list_with_app. simpl. unfold item_weight. simpl. lia.
    + intros j (k' & Hk & ->). rewrite Ep. exists (0 + 0 + 1)%nat. split; [|simpl; lia].
      exists 0%nat. split; [constructor|done].
  - destruct Hn as (ns & m & Hr & Hc & ->).
    destruct (Forall2_lookup_l _ _ _ _ _ Hr Hi) as (j & Hj & (k & Hk & ->)).
    exists (sum_list (delete i ns) + m + sum_list_with item_weight (main x) + sum_list_with job_weight (work x))%nat.
    split.
    + rewrite <-(take_drop_middle _ _ _ Hj) at 2. rewrite delete_take_drop, !sum_list_app. simpl. lia.
    + exists (delete i ns), m. split; [|done]. by apply Forall2_delete.
Qed.

Lemma weighs_main c x x' n : current x = Some c → weighs x n → main_ran x c x' →
  ∃ n', (n' < n)%nat ∧ weighs x' n'.
Proof.
  intros Hc Hn Hx. destruct Hn as (ns & m & Hr & Hcur & ->). rewrite Hc in Hcur.
  destruct Hcur as (k & Hk & ->). set (q := (sum_list_with item_weight (main x))%nat).
  set (v := (sum_list_with job_weight (work x))%nat).
  destruct Hx as [f g|r c|e|].
  - inversion Hk as [| |? ? l Hl|]; subst. exists (sum_list ns + (l + 1) + q + v)%nat. split; [lia|].
    exists ns, (l + 1)%nat. split; [done|]. split; [|done]. exists l. split; [apply Hl|done].
  - inversion Hk as [| | |? ? l Hl]; subst.
    destruct (weighs_perform r (set_current None x) (sum_list ns + 0 + q + v)) as (ns' & m' & Hr' & Hc' & Hn').
    { by exists ns, 0%nat. }
    destruct (perform_run r (set_current None x)) as (_ & _ & _ & Ecur & _). simpl in Ecur. rewrite Ecur in Hc'.
    simpl in Hc'. subst m'. exists (request_weight r + (sum_list ns + (l + 1) + q + v))%nat. split; [lia|].
    exists ns', (l + 1)%nat. split; [by destruct r|]. split; [by exists l|]. destruct r; simpl in *; lia.
  - exists (sum_list ns + 0 + q + v)%nat. split; [lia|]. by exists ns, 0%nat.
  - exists (sum_list ns + 0 + q + v)%nat. split; [lia|]. by exists ns, 0%nat.
Qed.

Context (Hbound : ∀ f, lasts (code_of f) (weight f)).

Lemma weighs_internal x x' n : weighs x n → internal x x' → ∃ n', (n' < n)%nat ∧ weighs x' n'.
Proof.
  intros Hn Hs. revert Hn. destruct Hs as [x j l Hw Hst Hl|i t x x' Hi Hx|i l x Hc Hm|c x Hc]; intros Hn.
  - rewrite (thread_takes_run _ _ _ Hw Hst Hl). destruct Hn as (ns & m & Hr & Hcur & ->). rewrite Hw.
    set (k := (weight (fn j) + callback_weight (callback j) + 1)%nat).
    exists (sum_list (ns ++ [k]) + m + sum_list_with item_weight (main x) + sum_list_with job_weight l)%nat.
    split; [rewrite sum_list_app; simpl; unfold job_weight, k; lia|].
    exists (ns ++ [k]), m. split; [|done]. apply Forall2_app; [done|]. constructor; [|done].
    exists (weight (fn j)). split; [apply Hbound|done].
  - eapply weighs_ran; [done..|by apply thread_runs_ran].
  - rewrite (main_takes_run _ _ _ Hc Hm). destruct Hn as (ns & m & Hr & Hcur & ->). rewrite Hc in Hcur.
    simpl in Hcur. subst m. rewrite Hm.
    exists (sum_list ns + (weight (body i) + 1) + sum_list_with item_weight l + sum_list_with job_weight (work x))%nat.
    split; [simpl; unfold item_weight; lia|]. exists ns, (weight (body i) + 1)%nat.
    split; [done|]. split; [|done]. exists (weight (body i)). split; [apply Hbound|done].
  - eapply weighs_main; [done..|by apply main_runs_ran].
Qed.

Lemma weighs_step x x' : (∃ n, weighs x n) → step x x' → ∃ n, weighs x' n.
Proof.
  intros [n Hn] Hs. revert Hn. destruct Hs as [x x' Hi|r x|x]; intros Hn.
  - destruct (weighs_internal _ _ _ Hn Hi) as (n' & _ & ?). eauto.
  - eauto using weighs_perform.
  - by exists n.
Qed.

Lemma weighs_ends n x : weighs x n → Acc (flip internal) x.
Proof.
  revert x. induction n as [n IH] using lt_wf_ind. intros x Hn. constructor. intros y Hy.
  destruct (weighs_internal _ _ _ Hn Hy) as (n' & Hlt & Hn'). by apply (IH n').
Qed.
End weights.

(** When nothing more can happen, nothing is left. *)
Lemma stuck x : stopped x = false → (1 ≤ threads x)%nat →
  (∀ t e, t ∈ running x → rest t ≠ throws e) → (∀ x', ¬ internal x x') →
  work x = [] ∧ running x = [] ∧ main x = [] ∧ current x = None.
Proof.
  intros Hst Ht Hthrow Hno.
  assert (running x = []) as Hr.
  { destruct (running x) as [|t ts] eqn:Er; [done|].
    assert (running x !! 0%nat = Some t) as Hi by by rewrite Er.
    assert (∃ x', thread_runs 0 x = (Val tt, x')) as [x' Ex].
    { unfold thread_runs, get. unfold bind at 1. rewrite Hi.
      destruct (rest t) as [|e|f k|r c] eqn:Ec; [by destruct (to_post t); eexists| |by eexists|].
      - by destruct (Hthrow t e); [left|].
      - rewrite (bind_val _ _ _ _ _ (proj1 (perform_run r x))). by eexists. }
    destruct (Hno x'). by apply (i_runs 0 t). }
  assert (current x = None) as Hc.
  { destruct (current x) as [c|] eqn:Ec; [|done]. destruct (Hno (main_runs x).2). by apply (i_main_runs c). }
  split; [|split; [done|split; [|done]]].
  - destruct (work x) as [|j l] eqn:Ew; [done|]. destruct (Hno (thread_takes x).2).
    apply (i_takes x j l); [done|done|]. rewrite Hr. simpl. lia.
  - destruct (main x) as [|i l] eqn:Em; [done|]. destruct (Hno (main_takes x).2). by apply (i_main_takes i l).
Qed.

(** C15. Everything that was posted runs. If there is a bound on what each function does, the
    functions that it posts included, the threads and the scheduler's io_service, left to
    themselves, come to an end. And when nothing more can happen, there being at least one
    processor, the service not being stopped and no thread ended by an exception (which
    ends the program), every function that was given to the threads has run to its end, all
    their callbacks have been called, each one once, and so has everything else that was
    given to the scheduler's io_service, in order. *)
Theorem executors_drain :
  (∀ weight x, (∀ f, lasts weight (code_of f) (weight f)) → reachable started_with step x →
     Acc (flip internal) x) ∧
  ∀ x, reachable started_with step x → stopped x = false → 1 ≤ hardware_concurrency < 2 ^ 31 →
    (∀ t e, t ∈ running x → rest t ≠ throws e) → (∀ x', ¬ internal x x') →
    finished x ≡ₚ accepted x ∧ called x = posted x ∧ current x = None ∧
    callbacks (called x) ≡ₚ omap callback (accepted x).
Proof.
  split.
  - intros weight x Hb Hr. assert (∃ n, weighs weight x n) as [n Hn]; [|by eapply weighs_ends].
    revert x Hr. apply reachable_inv; [|intros x x'; by apply weighs_step].
    intros x ->. exists 0%nat, [], 0%nat. split; [constructor|done].
  - intros x ([Hq Hs _ Hm Hc _] & Hn & _)%reach_accounted Hst Hcpu Hj Hno.
    destruct (stuck x Hst) as (Ew & Er & Em & Ecur); [|done..|].
    { rewrite Hn. unfold int_of. rewrite Z.mod_small by lia. lia. }
    rewrite Ew, app_nil_r in Hq. rewrite Er in Hs, Hc. rewrite Em, app_nil_r in Hm. simpl in *.
    rewrite app_nil_r, Hm in Hc. rewrite Hq. by split_and!.
Qed.

(** [run_one] is what the io_service does when the threads do nothing meanwhile. *)
Lemma main_runs_act x f k : current x = Some (act f k) →
  main_runs x = (Val tt, set_current (Some (k (caller x))) (set_caller (f (caller x)) x)).
Proof. intros Hc. unfold main_runs, get. unfold bind at 1. by rewrite Hc. Qed.
Lemma main_runs_call x r c : current x = Some (call r c) →
  main_runs x = (Val tt, set_current (Some c) (perform r x).2).
Proof.
  intros Hc. unfold main_runs, get. unfold bind at 1. rewrite Hc.
  by rewrite (bind_val _ _ _ _ _ (proj1 (perform_run r x))).
Qed.

Lemma run_code_internal c x : current x = Some c → rtc internal x (run_code c x).2.
Proof.
  revert x. induction c as [|e|f k IH|r c IH]; intros x Hc.
  - apply rtc_once. by apply (i_main_runs finish).
  - apply rtc_once. by apply (i_main_runs (throws e)).
  - eapply rtc_l; [by apply (i_main_runs (act f k))|]. simpl. unfold get. unfold bind at 1.
    rewrite (bind_val _ _ _ _ _ (main_runs_act _ _ _ Hc)), (main_runs_act _ _ _ Hc). by apply IH.
  - eapply rtc_l; [by apply (i_main_runs (call r c))|]. simpl.
    rewrite (bind_val _ _ _ _ _ (main_runs_call _ _ _ Hc)), (main_runs_call _ _ _ Hc). by apply IH.
Qed.

Lemma run_one_internal x : current x = None → rtc internal x (run_one x).2.
Proof.
  intros Hc. unfold run_one. destruct (main x) as [|i l] eqn:Em.
  - assert (main_takes x = (Val tt, x)) as E by by (unfold main_takes, get, bind; rewrite Hc, Em).
    rewrite (bind_val _ _ _ _ _ E). unfold get, bind. by rewrite Hc.
  - eapply rtc_l; [by apply (i_main_takes i l)|].
    assert (main_takes x = (Val tt, (main_takes x).2)) as E.
    { unfold main_takes, get. unfold bind. by rewrite Hc, Em. }
    rewrite (bind_val _ _ _ _ _ E). unfold get. unfold bind at 1.
    assert (current (main_takes x).2 = Some (code_of (body i))) as Ecur.
    { by rewrite (main_takes_run _ _ _ Hc Em). }
    rewrite Ecur. by apply run_code_internal.
Qed.

(** *** Executions *)

(** Moves that are possible, with the state they lead to. *)
Inductive move : Type := takes | runs (i : nat) | io_takes | io_runs | calls (r : request).
Definition make (m : move) (x : executors) : option executors :=
  match m with
  | takes =>
      if negb (length (work x) =? 0)%nat && negb (stopped x) && (length (running x) <? threads x)%nat
      then Some (thread_takes x).2 else None
  | runs i =>
      match running x !! i, thread_runs i x with Some _, (Val _, x') => Some x' | _, _ => None end
  | io_takes => match current x, main x with None, _ :: _ => Some (main_takes x).2 | _, _ => None end
  | io_runs => match current x with Some _ => Some (main_runs x).2 | None => None end
  | calls r => Some (perform r x).2
  end.

Lemma make_step m x x' : make m x = Some x' → step x x'.
Proof.
  destruct m as [|i| | |r]; simpl.
  - destruct (work x) as [|j l] eqn:Ew; [done|]. destruct (stopped x) eqn:Es; [done|].
    destruct (Nat.ltb_spec (length (running x)) (threads x)); [|done]. intros [= <-].
    apply s_internal. by eapply i_takes.
  - destruct (running x !! i) eqn:Ei; [|done]. destruct (thread_runs i x) as [[[]| |] y] eqn:Er; try done.
    intros [= <-]. apply s_internal. by eapply i_runs.
  - destruct (current x) eqn:Ec; [done|]. destruct (main x) eqn:Em; [done|]. intros [= <-].
    apply s_internal. by eapply i_main_takes.
  - destruct (current x) eqn:Ec; [|done]. intros [= <-]. apply s_internal. by eapply i_main_runs.
  - intros [= <-]. apply s_call.
Qed.

Fixpoint moves (l : list move) (x : executors) : option executors :=
  match l with [] => Some x | m :: l => x' ← make m x; moves l x' end.

Lemma moves_reachable init l x x' :
  reachable init step x → moves l x = Some x' → reachable init step x'.
Proof.
  revert x. induction l as [|m l IH]; intros x Hr; simpl; [by intros [= <-]|].
  destruct (make m x) as [y|] eqn:E; [|done]. apply IH. eapply reach_step; [done|by eapply make_step].
Qed.
End executors.

(** ** Witnesses *)

(** Functions that add to a number; the function 1 also gives the threads the function 2,
    with 3 as its callback. *)
Definition toy_code (n : nat) : code (S:=nat) (F:=nat) :=
  act (λ k, k + n)%nat (λ _, if (n =? 1)%nat then call (parallel 2%nat (Some 3%nat)) finish else finish).
Definition toy_weight (n : nat) : nat := if (n =? 1)%nat then 9 else 1.

(** The program gives the function 1 with the callback 10. While its thread has still to
    post that callback, another one runs the function 2 and posts its callback. *)
Definition toy_moves : list (move (F:=nat)) :=
  [calls (parallel 1%nat (Some 10%nat)); takes; runs 0; runs 0; takes; runs 1; runs 1; io_takes].
Definition toy_end : list (move (F:=nat)) :=
  [runs 0; io_runs; runs 1; runs 0; io_runs; io_takes; io_runs; io_runs].
Definition after (l : list move) : executors :=
  default (ParallelExecutionService 2 0%nat) (moves toy_code l (ParallelExecutionService 2 0%nat)).

Abbreviation toy_reachable := (reachable (λ x, x = ParallelExecutionService 2 0%nat) (step toy_code)).

Lemma after_reachable l : is_Some (moves toy_code l (ParallelExecutionService 2 0%nat)) →
  toy_reachable (after l).
Proof.
  intros [x E]. unfold after. rewrite E. eapply moves_reachable; [|exact E]. by apply reach_init.
Qed.

Lemma toy_reached : toy_reachable (after toy_moves).
Proof. apply after_reachable. eexists. vm_compute. reflexivity. Qed.
Lemma toy_drained : toy_reachable (after (toy_moves ++ toy_end)).
Proof. apply after_reachable. eexists. vm_compute. reflexivity. Qed.

(** The callback of the function that ended last has been called first. *)
Lemma parallel_accounting_witness :
  called (after toy_moves) = [callback_of 3%nat] ∧ main (after toy_moves) = [] ∧
  omap to_post (running (after toy_moves)) = [10%nat] ∧
  callbacks (posted (after toy_moves)) ++ omap to_post (running (after toy_moves)) ≡ₚ
    omap callback (started (after toy_moves)).
Proof.
  split; [by vm_compute|]. split; [by vm_compute|]. split; [by vm_compute|].
  destruct (parallel_accounting toy_code 2 0%nat (after toy_moves) toy_reached) as (_ & _ & _ & _ & Hc & _).
  exact Hc.
Defined.

Lemma toy_lasts n : lasts toy_weight (toy_code n) (toy_weight n).
Proof.
  unfold toy_code. unfold toy_weight at 2. destruct (n =? 1)%nat.
  - apply (lasts_act _ _ _ 8). intros _.
    apply (lasts_call toy_weight (parallel 2%nat (Some 3%nat)) finish 0). constructor.
  - apply (lasts_act _ _ _ 0). intros _. constructor.
Qed.

(** Nothing is left at the end. *)
Lemma toy_idle x : work x = [] → running x = [] → current x = None → main x = [] →
  ∀ x', ¬ internal toy_code x x'.
Proof.
  intros Hw Hr Hc Hm x' Hx. revert Hw Hr Hc Hm.
  destruct Hx as [x j l Hw' _ _|i t x x' Hi _|i l x _ Hm'|c x Hc']; intros Hw Hr Hc Hm; try congruence.
  by rewrite Hr in Hi.
Qed.

Lemma executors_drain_witness :
  Acc (flip (internal toy_code)) (after toy_moves) ∧
  caller (after (toy_moves ++ toy_end)) = 16%nat ∧
  finished (after (toy_moves ++ toy_end)) ≡ₚ accepted (after (toy_moves ++ toy_end)).
Proof.
  split; [|split; [by vm_compute|]].
  - apply (proj1 (executors_drain toy_code 2 0%nat) toy_weight _ toy_lasts toy_reached).
  - assert (running (after (toy_moves ++ toy_end)) = []) as Hr by by vm_compute.
    destruct (proj2 (executors_drain toy_code 2 0%nat) (after (toy_moves ++ toy_end)) toy_drained) as [Hp _];
      [by vm_compute|lia|rewrite Hr; by intros t e Ht%elem_of_nil|by apply toy_idle; vm_compute|exact Hp].
Defined.

End Parallel.
