(* ===== verification/Scheduler.v ===== *)
(** * Deferred and repeated tasks (scheduler.hpp)

    A task is a timer and a function. [schedule] copies the function into the
    wait it starts; waits that were pending are completed with
    [operation_aborted]. [IntervalTask] wraps its function in one that schedules
    the next execution first. A pending wait holds a pointer to its task.
    [Scheduler] adapts plain functions to tasks; Parallel has the functions it posts. *)

From S2P Require Import Prelude Connection.

Module Scheduler.

(** The error codes of Boost.Asio, as in [Connection]. *)
Abbreviation ec := Connection.ec.
Abbreviation success := Connection.success.
Abbreviation operation_aborted := Connection.operation_aborted.
#[local] Existing Instance Connection.ec_eq_dec.

Section task.
(** The state captured by the user's function object, and the variables outside the
    task that it uses. *)
Context {C E : Type}.

(** A pending wait of the timer: still waiting, for so many milliseconds, or due
    with an error code; and the copy of the function it will call. *)
Inductive wait : Type :=
  | Waiting (ms : Z) (captured : C)
  | Due (e : ec) (captured : C).

Definition captured (w : wait) : C := match w with Waiting _ c | Due _ c => c end.

(** A task: the members [ms] and [fn] of [IntervalTask], the waits of [timer], the
    calls of the user's function so far with the state each was made in, whether its
    owner still has the pointer it was given, and the outside variables. *)
Record task : Type := mk {
  ms : Z;
  fn : C;
  timer : list wait;
  calls : list (ec * C);
  owned : bool;
  env : E;
}.

Definition set_ms x t := mk x (fn t) (timer t) (calls t) (owned t) (env t).
Definition set_timer x t := mk (ms t) (fn t) x (calls t) (owned t) (env t).
Definition set_calls x t := mk (ms t) (fn t) (timer t) x (owned t) (env t).
Definition set_owned x t := mk (ms t) (fn t) (timer t) (calls t) x (env t).
Definition set_env x t := mk (ms t) (fn t) (timer t) (calls t) (owned t) x.

(** Every wait holds a [shared_ptr] to its task. *)
Definition alive (t : task) : bool := owned t || negb (length (timer t) =? 0)%nat.

(** What a function does to the outside variables. *)
Definition outside {A} (m : prog E A) : prog task A := zoom env set_env m.

Definition is_waiting (w : wait) : bool := match w with Waiting _ _ => true | Due _ _ => false end.

Definition aborted (w : wait) : wait :=
  match w with Waiting _ c => Due operation_aborted c | d => d end.

(** [timer.cancel()], which counts the waits it completes. *)
Definition timer_cancel : prog task nat :=
  let! t := get in
  modify (set_timer (map aborted (timer t))) ;;; ret (length (filter is_waiting (timer t))).

(** [BaseDeferredTask::cancel] *)
Definition cancel : prog task bool :=
  let! n := timer_cancel in ret (0 <? n)%nat.

(** [timer.expires_from_now] cancels pending waits. *)
Definition expiresFromNow (millisec : Z) : prog task unit := timer_cancel ;;; ret tt.

(** [BaseDeferredTask::schedule]: the wait holds a copy of [func]. *)
Definition schedule (millisec : Z) (func : C) : prog task unit :=
  expiresFromNow millisec ;;;
  modify (λ t, set_timer (timer t ++ [Waiting millisec func]) t).

(** [DeferredTask::start] *)
Definition deferred_start (millisec : Z) (func : C) : prog task unit := schedule millisec func.

(** [IntervalTask::reschedule()], [start] and [reschedule(int)]. *)
Definition reschedule : prog task unit := let! t := get in schedule (ms t) (fn t).
Definition start : prog task unit := reschedule.
Definition reschedule_ms (millisec : Z) : prog task unit := modify (set_ms millisec) ;;; reschedule.

Section handlers.
(** The user's function, called on a copy in state [c]: it may call the task's
    functions, throw, and change the state of that copy, which is then dropped. *)
Context (func : C → ec → prog task C).

Definition call (c : C) (e : ec) : prog task unit :=
  modify (λ t, set_calls (calls t ++ [(e, c)]) t) ;;; func c e ;;; ret tt.

(** The function object [IntervalTask] stores: [if(!e || e != operation_aborted)]. *)
Definition interval_fn (c : C) (e : ec) : prog task unit :=
  (if decide (e = success) then reschedule
   else if decide (e = operation_aborted) then ret tt else reschedule) ;;;
  call c e.

(** A function without the second parameter, which the task's pointer is for. *)
Definition unary (f : C → ec → prog E C) (c : C) (e : ec) : prog task C := outside (f c e).

(** What a wait's handler does, for a task of each class. *)
Definition on_wait (interval : bool) (c : C) (e : ec) : prog task unit :=
  if interval then interval_fn c e else call c e.

(** ** Events *)

(** The deadline of a wait passes, or the io_service reports an error for it; a
    handler that is due is called; the owner of the task cancels it, restarts it or
    lets it go. *)
Inductive event : Type :=
  | Complete (i : nat) (e : ec)
  | Handler (i : nat)
  | Cancel
  | Reschedule (millisec : option Z)
  | Release.

Definition handle (interval : bool) (ev : event) : prog task unit :=
  match ev with
  | Complete i e =>
      let! t := get in
      match timer t !! i with
      | Some (Waiting _ c) => modify (set_timer (<[i := Due e c]> (timer t)))
      | _ => ret tt
      end
  | Handler i =>
      let! t := get in
      match timer t !! i with
      | Some (Due e c) =>
          modify (set_timer (take i (timer t) ++ drop (S i) (timer t))) ;;; on_wait interval c e
      | _ => ret tt
      end
  | Cancel => cancel ;;; ret tt
  | Reschedule None => reschedule
  | Reschedule (Some millisec) => reschedule_ms millisec
  | Release => modify (set_owned false)
  end.

Definition step (interval : bool) (t t' : task) : Prop := ∃ ev, (handle interval ev t).2 = t'.

(** [makeIntervalTask] and [makeDeferredTask]. *)
Definition makeIntervalTask (millisec : Z) (func : C) (outside : E) : task :=
  (start (mk millisec func [] [] true outside)).2.
Definition makeDeferredTask (millisec : Z) (func : C) (outside : E) : task :=
  (deferred_start millisec func (mk millisec func [] [] true outside)).2.
End handlers.

(** What a user's function may do with the task it is given. *)
Inductive user : ∀ {A}, prog task A → Prop :=
  | user_ret {A} (a : A) : user (ret a)
  | user_throw {A} e : user (throw (A:=A) e)
  | user_bind {A B} (m : prog task A) (k : A → prog task B) :
      user m → (∀ a, user (k a)) → user (bind m k)
  | user_try {A} (m : prog task A) h : user m → (∀ e, user (h e)) → user (try_catch m h)
  | user_cancel : user cancel
  | user_reschedule : user reschedule
  | user_reschedule_ms n : user (reschedule_ms n)
  | user_outside {A} (m : prog E A) : user (outside m).

(** ** Lemmas *)

Lemma filter_aborted l : filter is_waiting (map aborted l) = [].
Proof. induction l as [|[]]; simpl; done. Qed.

Lemma timer_cancel_run t :
  timer_cancel t = (Val (length (filter is_waiting (timer t))), set_timer (map aborted (timer t)) t).
Proof. done. Qed.

Lemma schedule_run n c t :
  schedule n c t = (Val tt, set_timer (map aborted (timer t) ++ [Waiting n c]) t).
Proof. done. Qed.

Lemma reschedule_run t :
  reschedule t = (Val tt, set_timer (map aborted (timer t) ++ [Waiting (ms t) (fn t)]) t).
Proof. done. Qed.

Lemma captured_aborted w : captured (aborted w) = captured w.
Proof. by destruct w. Qed.

(** The invariant of an interval task: one wait at most is waiting, and every
    copy of the function, called or to be called, is as the task was made with. *)
Record inv (c0 : C) (t : task) : Prop := {
  inv_fn : fn t = c0;
  inv_waiting : (length (filter is_waiting (timer t)) ≤ 1)%nat;
  inv_captured : Forall (λ w, captured w = c0) (timer t);
  inv_calls : Forall (λ x, x.2 = c0) (calls t);
}.

Lemma inv_cancel c0 t : inv c0 t → inv c0 (set_timer (map aborted (timer t)) t).
Proof.
  intros [Hf Hw Hc Hl]. split; simpl; [done|by rewrite filter_aborted; simpl; lia| |done].
  apply Forall_map. eapply Forall_impl; [exact Hc|]. intros w. simpl. by rewrite captured_aborted.
Qed.

Lemma inv_schedule c0 n t : inv c0 t →
  inv c0 (set_timer (map aborted (timer t) ++ [Waiting n c0]) t).
Proof.
  intros Hi. destruct (inv_cancel c0 t Hi) as [Hf Hw Hc Hl]. split; simpl in *; [done| | |done].
  - rewrite filter_app, filter_aborted. simpl. lia.
  - apply Forall_app. split; [done|]. by repeat constructor.
Qed.

Lemma preserves_cancel c0 : preserves (inv c0) cancel.
Proof. intros t Hi. by apply inv_cancel. Qed.

Lemma preserves_reschedule c0 : preserves (inv c0) reschedule.
Proof. intros t Hi. rewrite reschedule_run. simpl. rewrite (inv_fn _ _ Hi). by apply inv_schedule. Qed.

Lemma preserves_reschedule_ms c0 n : preserves (inv c0) (reschedule_ms n).
Proof.
  apply preserves_bind; [|intros; apply preserves_reschedule].
  apply preserves_modify. intros t []. by split.
Qed.

Lemma preserves_outside c0 {A} (m : prog E A) : preserves (inv c0) (outside m).
Proof. intros t []. unfold outside, zoom. destruct (m (env t)). by split. Qed.

Lemma preserves_user c0 {A} (m : prog task A) : user m → preserves (inv c0) m.
Proof.
  induction 1; auto using preserves_cancel, preserves_reschedule, preserves_reschedule_ms,
    preserves_outside with prog.
Qed.

Section interval.
Context (func : C → ec → prog task C) (Hfunc : ∀ c e, user (func c e)).

Lemma preserves_call c0 e : preserves (inv c0) (call func c0 e).
Proof.
  apply preserves_bind.
  - apply preserves_modify. intros t [Hf Hw Hc Hl]. split; simpl; [done..|].
    apply Forall_app. split; [done|]. by repeat constructor.
  - intros _. apply preserves_bind; [by apply preserves_user|intros; apply preserves_ret].
Qed.

Lemma preserves_on_wait interval c0 e : preserves (inv c0) (on_wait func interval c0 e).
Proof.
  unfold on_wait, interval_fn. destruct interval; [|apply preserves_call].
  apply preserves_bind; [|intros; apply preserves_call].
  repeat case_decide; auto using preserves_reschedule with prog.
Qed.

(** Completing or removing a wait. *)
Lemma inv_complete c0 t i n e c : inv c0 t → timer t !! i = Some (Waiting n c) →
  inv c0 (set_timer (<[i := Due e c]> (timer t)) t).
Proof.
  intros [Hf Hw Hc Hl] Hi. split; simpl; [done| | |done].
  - rewrite (insert_take_drop _ i _) by by eapply lookup_lt_Some.
    rewrite <-(take_drop_middle (timer t) i _ Hi) in Hw.
    rewrite filter_app, length_app in *. rewrite filter_cons_False by by intros []. simpl in *. lia.
  - apply Forall_insert; [done|]. by apply (Forall_lookup_1 _ _ i _ Hc) in Hi.
Qed.

Lemma inv_remove c0 t i e c : inv c0 t → timer t !! i = Some (Due e c) →
  c = c0 ∧ inv c0 (set_timer (take i (timer t) ++ drop (S i) (timer t)) t).
Proof.
  intros [Hf Hw Hc Hl] Hi. split; [by apply (Forall_lookup_1 _ _ i _ Hc) in Hi|].
  split; simpl; [done| | |done].
  - rewrite <-(take_drop_middle (timer t) i _ Hi), filter_app in Hw.
    rewrite filter_cons_False in Hw by by intros []. by rewrite filter_app.
  - rewrite <-(take_drop_middle (timer t) i _ Hi) in Hc.
    apply Forall_app in Hc as [? Hc]. apply Forall_app. inversion Hc. done.
Qed.

Lemma scheduler_handle_inv interval c0 ev : preserves (inv c0) (handle func interval ev).
Proof.
  intros t Ht. destruct ev as [i e|i| |[n|]|]; cbn [handle].
  - unfold get. unfold bind at 1. destruct (timer t !! i) as [[n c|e' c]|] eqn:Hi; [|done..].
    by apply (inv_complete c0 t i n e c).
  - unfold get. unfold bind at 1. destruct (timer t !! i) as [[n c|e c]|] eqn:Hi; [done| |done].
    destruct (inv_remove c0 t i e c Ht Hi) as [-> Hr]. unfold modify. unfold bind at 1.
    by apply preserves_on_wait.
  - by apply (preserves_bind (inv c0)); [apply preserves_cancel|intros; apply preserves_ret|].
  - by apply preserves_reschedule_ms.
  - by apply preserves_reschedule.
  - by destruct Ht.
Qed.
End interval.

(** ** Properties *)

(** C11. Whatever an interval task's owner, its function and the io_service do, at
    most one execution is scheduled at a time. Each execution calls a copy of
    the function as it was when the task was made: what a stateful function
    object changes in itself is lost with the copy. *)
Theorem interval_task_invariant func n c0 v t :
  (∀ c e, user (func c e)) →
  reachable (λ t, t = makeIntervalTask n c0 v) (step func true) t →
  (length (filter is_waiting (timer t)) ≤ 1)%nat ∧ Forall (λ x, x.2 = c0) (calls t).
Proof.
  intros Hf Hr. assert (inv c0 t) as [_ Hw _ Hc]; [|done]. revert t Hr. apply reachable_inv.
  - intros t ->. split; simpl; [done|lia|by repeat constructor|done].
  - intros t t' Ht (ev & <-). by apply scheduler_handle_inv.
Qed.

(** An interval task goes on whatever happens in its executions: the next one
    is scheduled before the function is called, so neither an exception thrown
    by the function nor an error reported by the io_service ends it. *)
Theorem interval_goes_on func t e c o :
  timer t = [Due e c] → e ≠ operation_aborted → (∀ t', func c e t' = (o, t')) →
  ∃ t', handle func true (Handler 0) t =
      (match o with Val _ => Val tt | Exc x => Exc x | Fault f => Fault f end, t') ∧
    timer t' = [Waiting (ms t) (fn t)] ∧ calls t' = calls t ++ [(e, c)].
Proof.
  intros Ht He Hf. cbn [handle]. unfold get. unfold bind at 1. rewrite Ht. simpl.
  unfold modify. unfold bind at 1. unfold interval_fn, call.
  assert (∀ t1, (if decide (e = success) then reschedule
    else if decide (e = operation_aborted) then ret tt else reschedule) t1 = reschedule t1) as Hre.
  { intros t1. destruct (decide (e = success)); [done|]. by rewrite decide_False. }
  unfold bind at 1. rewrite Hre, reschedule_run. simpl. unfold modify. unfold bind at 1.
  unfold bind. rewrite Hf. destruct o; (eexists; split; [done|done]).
Qed.

(** [cancel] ends an interval task only if it comes before the deadline: then
    the function is called once more, with [operation_aborted], and nothing is
    scheduled. Once the deadline has passed it returns [false] and the task goes
    on. *)
Theorem cancel_interval func t c o :
  (∀ e t', func c e t' = (Val o, t')) →
  (∀ n, timer t = [Waiting n c] →
     ∃ t1 t2, cancel t = (Val true, t1) ∧ handle func true (Handler 0) t1 = (Val tt, t2) ∧
       timer t2 = [] ∧ calls t2 = calls t ++ [(operation_aborted, c)]) ∧
  (timer t = [Due success c] →
     cancel t = (Val false, t) ∧
     ∃ t2, handle func true (Handler 0) t = (Val tt, t2) ∧
       timer t2 = [Waiting (ms t) (fn t)] ∧ calls t2 = calls t ++ [(success, c)]).
Proof.
  intros Hf. split.
  - intros n Ht. unfold cancel. unfold bind. rewrite timer_cancel_run, Ht. simpl.
    eexists _, _. split; [done|]. split.
    + cbn [handle]. unfold get. unfold bind at 1. simpl. unfold modify. unfold bind at 1.
      unfold interval_fn, call. rewrite decide_False by done. rewrite decide_True by done.
      unfold ret, modify. unfold bind. simpl. by rewrite Hf.
    + done.
  - intros Ht. split.
    + unfold cancel. unfold bind. rewrite timer_cancel_run, Ht. simpl. by destruct t; simplify_eq/=.
    + destruct (interval_goes_on func t success c (Val o)) as (t2 & Hr & Hw & Hc); [done..|].
      by exists t2.
Qed.
(** *** Tasks without an owner *)

(** A wait that is not cancelled. *)
Definition live (w : wait) : bool :=
  match w with Waiting _ _ => true | Due e _ => bool_decide (e ≠ operation_aborted) end.
Definition goes_on (t : task) : Prop := ∃ w, w ∈ timer t ∧ live w = true.

(** None of what the documentation of the class says ends the task: nobody cancels it, the
    io_service reports no error, and no exception is thrown. *)
Definition undisturbed (ev : event) : Prop := ev ≠ Cancel ∧ ∀ i e, ev = Complete i e → e = success.
Definition step_undisturbed func (t t' : task) : Prop :=
  ∃ ev, undisturbed ev ∧ handle func true ev t = (Val tt, t').

Lemma goes_on_reschedule t : goes_on (reschedule t).2.
Proof. rewrite reschedule_run. exists (Waiting (ms t) (fn t)). simpl. set_solver. Qed.

Lemma goes_on_call func c e :
  (∀ c e, preserves goes_on (func c e)) → preserves goes_on (call func c e).
Proof.
  intros Hf. apply preserves_bind; [by apply preserves_modify|]. intros _.
  apply preserves_bind; [apply Hf|auto with prog].
Qed.

Lemma goes_on_complete t i n e c : e ≠ operation_aborted → timer t !! i = Some (Waiting n c) →
  goes_on t → goes_on (set_timer (<[i := Due e c]> (timer t)) t).
Proof.
  intros He Hi _. exists (Due e c). simpl. split; [|by apply bool_decide_true].
  apply list_elem_of_insert. by eapply lookup_lt_Some.
Qed.

Lemma goes_on_handler func t i e c :
  (∀ c e, preserves goes_on (func c e)) → timer t !! i = Some (Due e c) → goes_on t →
  goes_on (interval_fn func c e (set_timer (take i (timer t) ++ drop (S i) (timer t)) t)).2.
Proof.
  intros Hf Hi (w & Hw & Hl). unfold interval_fn.
  destruct (decide (e = operation_aborted)) as [->|He].
  - rewrite decide_False by done. unfold bind at 1. unfold ret. apply goes_on_call; [done|].
    exists w. split; [|done]. simpl. rewrite <-(take_drop_middle _ _ _ Hi) in Hw.
    rewrite elem_of_app, elem_of_cons in Hw. apply elem_of_app.
    destruct Hw as [?|[->|?]]; [by left| |by right]. done.
  - set (t1 := set_timer _ t).
    unfold bind at 1. destruct (decide (e = success)); rewrite reschedule_run; simpl;
      apply goes_on_call; try done; apply (goes_on_reschedule t1).
Qed.

(** C13. As long as nobody cancels it, its function throws nothing and the io_service reports
    no error, an interval task goes on, also when its owner lets it go: there is always an
    execution to come, and the task it belongs to is alive. *)
Theorem interval_task_outlives_owner func n c0 v t :
  (∀ c e, preserves goes_on (func c e)) →
  reachable (λ t, t = makeIntervalTask n c0 v) (step_undisturbed func) t →
  (∃ w, w ∈ timer t ∧ live w = true) ∧ alive t = true.
Proof.
  intros Hf Hr. assert (goes_on t) as Hg.
  { revert t Hr. apply reachable_inv; [intros t ->; apply goes_on_reschedule|].
    intros t t' Ht (ev & [Hc Hab] & Hev). apply (f_equal snd) in Hev. simpl in Hev. subst t'.
    destruct ev as [i e|i| |[m|]|]; cbn [handle]; try done.
    - unfold get. unfold bind at 1. destruct (timer t !! i) as [[m c|e' c]|] eqn:Hi; [|done..].
      apply (goes_on_complete t i m); [|done..]. by rewrite (Hab i e).
    - unfold get. unfold bind at 1. destruct (timer t !! i) as [[m c|e c]|] eqn:Hi; [done| |done].
      unfold modify. unfold bind at 1. by apply goes_on_handler.
    - unfold reschedule_ms, modify. unfold bind. apply goes_on_reschedule.
    - apply goes_on_reschedule. }
  split; [done|]. destruct Hg as (w & Hw & _). unfold alive. destruct (timer t); [by apply elem_of_nil in Hw|].
  by rewrite orb_true_r.
Qed.
End task.

(** ** [Scheduler] *)

Section adapted.
Context {C K S : Type}.

(** [Scheduler::Wrapper]: a plain function as a task; it holds the function object. *)
Definition Wrapper (func : C → prog S C) (c : C) (e : ec) : prog S C :=
  if decide (e = success) then func c
  else if decide (e = operation_aborted) then ret c
  else throw (StdException "system_error").

(** The function object of [callAfterIf] and [callEveryIf] holds [check] and [fn];
    [if(check)] converts the object [check] to a boolean. *)
Definition conditional (check : K → prog S (bool * K)) (fn : C → prog S C) (kc : K * C)
    : prog S (K * C) :=
  let! (b, k) := check kc.1 in
  if b : bool then let! c := fn kc.2 in ret (k, c) else ret (k, kc.2).
End adapted.

Section adapters.
Context {S : Type}.

(** A task whose function is one of the caller's: it may reach the task through a
    pointer it captured. *)
Abbreviation task_of C := (task (C:=C) (E:=S)).

(** A task and the function that its waits call. *)
Definition scheduled (C : Type) : Type := task_of C * (C → ec → prog (task_of C) C).

Definition makeDeferred {C} (millisec : Z) (fn : C → prog (task_of C) C) (c : C) (v : S) : scheduled C :=
  (makeDeferredTask millisec c v, Wrapper fn).
Definition makeInterval {C} (millisec : Z) (fn : C → prog (task_of C) C) (c : C) (v : S) : scheduled C :=
  (makeIntervalTask millisec c v, Wrapper fn).

Definition callAfter {C} (millisec : Z) (fn : C → prog (task_of C) C) (c : C) (v : S) : scheduled C :=
  makeDeferred millisec fn c v.
Definition callAfterIf {C K} (millisec : Z) (check : K → prog (task_of (K * C)) (bool * K)) (k : K)
    (fn : C → prog (task_of (K * C)) C) (c : C) (v : S) : scheduled (K * C) :=
  makeDeferred millisec (conditional check fn) (k, c) v.
Definition callEvery {C} (millisec : Z) (fn : C → prog (task_of C) C) (c : C) (v : S) : scheduled C :=
  makeInterval millisec fn c v.
Definition callEveryIf {C K} (millisec : Z) (check : K → prog (task_of (K * C)) (bool * K)) (k : K)
    (fn : C → prog (task_of (K * C)) C) (c : C) (v : S) : scheduled (K * C) :=
  makeInterval millisec (conditional check fn) (k, c) v.
End adapters.

(** ** Witnesses *)

(** A counter that counts its calls in its own state and throws at the third. *)
Definition counter (c : nat) (e : ec) : prog (task (C:=nat) (E:=unit)) nat :=
  if decide (c = 2%nat) then throw (StdException "third call") else ret (S c).

Lemma counter_user c e : user (counter c e).
Proof. unfold counter. case_decide; constructor. Qed.

Definition ran_twice : task (C:=nat) (E:=unit) := Eval vm_compute in
  (run_all (handle counter true)
    [Complete 0 success; Handler 0; Complete 0 success; Handler 0] (makeIntervalTask 100 0%nat tt)).2.

Lemma interval_task_invariant_witness :
  calls ran_twice = [(success, 0%nat); (success, 0%nat)] ∧
  (length (filter is_waiting (timer ran_twice)) ≤ 1)%nat.
Proof.
  split; [reflexivity|]. apply (interval_task_invariant counter 100 0%nat tt).
  - apply counter_user.
  - set (run evs := (run_all (handle counter true) evs (makeIntervalTask 100 0%nat tt)).2).
    apply (reach_step _ _ (run [Complete 0 success; Handler 0; Complete 0 success]));
      [|by exists (Handler 0)].
    apply (reach_step _ _ (run [Complete 0 success; Handler 0])); [|by exists (Complete 0 success)].
    apply (reach_step _ _ (run [Complete 0 success])); [|by exists (Handler 0)].
    apply (reach_step _ _ (run [])); [|by exists (Complete 0 success)].
    by apply reach_init.
Defined.

(** The owner lets the task go; it is executed twice, and then it throws. *)
Definition released : task (C:=nat) (E:=unit) := Eval vm_compute in
  (run_all (handle counter true) [Release; Complete 0 success; Handler 0] (makeIntervalTask 100 0%nat tt)).2.

Lemma interval_task_outlives_owner_witness :
  owned released = false ∧ calls released = [(success, 0%nat)] ∧ alive released = true.
Proof.
  split; [reflexivity|]. split; [reflexivity|].
  apply (interval_task_outlives_owner counter 100 0%nat tt).
  - intros c e t Ht. unfold counter. by destruct (decide (c = 2%nat)).
  - set (run evs := (run_all (handle counter true) evs (makeIntervalTask 100 0%nat tt)).2).
    apply (reach_step _ _ (run [Release; Complete 0 success])); [|by exists (Handler 0)].
    apply (reach_step _ _ (run [Release])); [|exists (Complete 0 success); split; [|done]; split; [done|by intros i e [= _ <-]]].
    apply (reach_step _ _ (run [])); [|by exists Release].
    by apply reach_init.
Defined.

Lemma interval_goes_on_witness :
  let t := mk 100 2%nat [Due success 2%nat] [] true tt in
  ∃ t', handle counter true (Handler 0) t = (Exc (StdException "third call"), t') ∧
    timer t' = [Waiting 100 2%nat].
Proof.
  intros t. destruct (interval_goes_on counter t success 2%nat (Exc (StdException "third call")))
    as (t' & Hr & Hw & _); [done|done|done|]. by exists t'.
Defined.

Lemma cancel_interval_witness :
  (cancel (mk 100 0%nat [Waiting 100 0%nat] [] true tt)).1 = Val true ∧
  (cancel (mk 100 0%nat [Due success 0%nat] [] true tt)).1 = Val false.
Proof.
  destruct (cancel_interval counter (mk 100 0%nat [Waiting 100 0%nat] [] true tt) 0%nat 1%nat) as [Hw _]; [done|].
  destruct (cancel_interval counter (mk 100 0%nat [Due success 0%nat] [] true tt) 0%nat 1%nat) as [_ Hd]; [done|].
  destruct (Hw 100 eq_refl) as (t1 & t2 & -> & _). destruct (Hd eq_refl) as [-> _]. done.
Defined.
End Scheduler.
