(* ===== verification/SchedulerSpec.v ===== *)
(** * What an interval task promises: a refinement of Scheduler

    The specification is a timer that is armed or not, with the executions whose time
    has come; it knows nothing of waits, of their handlers or of the copies of the
    function. Every behaviour of an [IntervalTask] of the scheduler is one of it. *)

From S2P Require Import Prelude Connection Scheduler.

Module SchedulerSpec.
Import Scheduler.
#[local] Existing Instance Connection.ec_eq_dec.

Section spec.
Context {C E : Type}.
Abbreviation task := (Scheduler.task (C:=C) (E:=E)).
Abbreviation wait := (Scheduler.wait (C:=C)).
Implicit Types t : task.
Implicit Types w : wait.
Implicit Types l : list wait.

(** The interval, the time to wait if the timer is armed, how many executions have
    come due, how many have come due with an error, how often the function was
    called, and the variables it uses. *)
Record timer_spec : Type := mk_spec {
  interval : Z;
  armed : option Z;
  fired : nat;
  failed : nat;
  runs : nat;
  env_ : E;
}.
Implicit Types s : timer_spec.

Definition set_armed x s := mk_spec (interval s) x (fired s) (failed s) (runs s) (env_ s).
Definition set_interval x s := mk_spec x (armed s) (fired s) (failed s) (runs s) (env_ s).
Definition set_due x y s := mk_spec (interval s) (armed s) x y (runs s) (env_ s).
Definition set_runs x s := mk_spec (interval s) (armed s) (fired s) (failed s) x (env_ s).
Definition set_env_ x s := mk_spec (interval s) (armed s) (fired s) (failed s) (runs s) x.

(** ** The operations of the specification *)

Definition disarm : prog timer_spec bool :=
  let! s := get in modify (set_armed None) ;;; ret (bool_decide (is_Some (armed s))).
Definition arm : prog timer_spec unit := modify (λ s, set_armed (Some (interval s)) s).
Definition arm_ms (n : Z) : prog timer_spec unit := modify (set_interval n) ;;; arm.
Definition with_env {A} (m : prog E A) : prog timer_spec A := zoom env_ set_env_ m.

(** An execution arms the timer again and calls the function. *)
Definition execute (f : prog timer_spec C) : prog timer_spec unit :=
  arm ;;; modify (λ s, set_runs (S (runs s)) s) ;;; f ;;; ret tt.

(** What may happen: the time passes, or an error ends the wait; an execution that is
    due takes place, or comes to nothing after an error; the owner acts. *)
Inductive spec_step (f : prog timer_spec C) : timer_spec → timer_spec → Prop :=
  | s_fire s n : armed s = Some n → spec_step f s (set_due (S (fired s)) (failed s) (set_armed None s))
  | s_error s n : armed s = Some n → spec_step f s (set_due (fired s) (S (failed s)) (set_armed None s))
  | s_abort s n : armed s = Some n → spec_step f s (set_armed None s)
  | s_run s n : fired s = S n → spec_step f s (execute f (set_due n (failed s) s)).2
  | s_fail s n : failed s = S n → spec_step f s (arm (set_due (fired s) n s)).2
  | s_disarm s : spec_step f s (disarm s).2
  | s_arm s : spec_step f s (arm s).2
  | s_arm_ms s n : spec_step f s (arm_ms n s).2.

Definition spec_new (n : Z) (v : E) : timer_spec := mk_spec n (Some n) 0 0 0 v.

(** ** The abstraction *)

Definition waiting_ms (w : wait) : option Z :=
  match w with Waiting n _ => Some n | Due _ _ => None end.
Definition is_fired (w : wait) : bool :=
  match w with Due e _ => bool_decide (e = success) | _ => false end.
Definition is_failed (w : wait) : bool :=
  match w with Due e _ => bool_decide (e ≠ success) && bool_decide (e ≠ operation_aborted) | _ => false end.
Definition succeeded (x : ec * C) : bool := bool_decide (x.1 = success).

Definition abs t : timer_spec :=
  mk_spec (ms t) (head (omap waiting_ms (timer t)))
    (length (filter is_fired (timer t))) (length (filter is_failed (timer t)))
    (length (filter succeeded (calls t))) (env t).

(** A program on the task does what the other does on the specification. *)
Class Refines {A} (m : prog task A) (m' : prog timer_spec A) : Prop :=
  refines t : m' (abs t) = ((m t).1, abs (m t).2).

#[export] Instance refines_ret {A} (a : A) : Refines (ret a) (ret a).
Proof. done. Qed.
#[export] Instance refines_throw {A} e : Refines (throw (A:=A) e) (throw e).
Proof. done. Qed.
#[export] Instance refines_bind {A B} (m : prog task A) m' (k : A → prog task B) k' :
  Refines m m' → (∀ a, Refines (k a) (k' a)) → Refines (bind m k) (bind m' k').
Proof.
  intros Hm Hk t. unfold bind. rewrite (refines t).
  destruct (m t) as [[a| |] t1]; simpl; [apply refines|done..].
Qed.
#[export] Instance refines_try {A} (m : prog task A) m' h h' :
  Refines m m' → (∀ e, Refines (h e) (h' e)) → Refines (try_catch m h) (try_catch m' h').
Proof.
  intros Hm Hh t. unfold try_catch. rewrite (refines t).
  destruct (m t) as [[a| |] t1]; simpl; [done|apply refines|done].
Qed.
#[export] Instance refines_if {A} (b : bool) (m n : prog task A) m' n' :
  Refines m m' → Refines n n' → Refines (if b then m else n) (if b then m' else n').
Proof. by destruct b. Qed.
#[export] Instance refines_outside {A} (m : prog E A) : Refines (outside m) (with_env m).
Proof. intros t. unfold with_env, outside, zoom. simpl. by destruct (m (env t)). Qed.

Lemma omap_aborted l : omap waiting_ms (map aborted l) = [].
Proof. induction l as [|[] l IH]; simpl; done. Qed.
Lemma count_aborted (p : wait → bool) l : (∀ w, p (aborted w) = p w) →
  length (filter p (map aborted l)) = length (filter p l).
Proof.
  intros Hp. induction l as [|w l IH]; simpl; [done|].
  rewrite !filter_cons, Hp. by case_decide; simpl; rewrite IH.
Qed.
Lemma fired_aborted w : is_fired (aborted w) = is_fired w.
Proof. by destruct w. Qed.
Lemma failed_aborted w : is_failed (aborted w) = is_failed w.
Proof. by destruct w. Qed.

Lemma waiting_head l : (0 <? length (filter is_waiting l))%nat = bool_decide (is_Some (head (omap waiting_ms l))).
Proof.
  induction l as [|[n c|e c] l IH]; [done|..].
  - by rewrite filter_cons_True.
  - rewrite filter_cons_False by by intros []. exact IH.
Qed.

(** Cancelling every wait, and starting one after that. *)
Lemma abs_cancelled t : abs (Scheduler.set_timer (map aborted (timer t)) t) = set_armed None (abs t).
Proof.
  unfold abs. simpl. rewrite omap_aborted, !count_aborted; auto using fired_aborted, failed_aborted.
Qed.
Lemma abs_scheduled t n c :
  abs (Scheduler.set_timer (map aborted (timer t) ++ [Waiting n c]) t) = set_armed (Some n) (abs t).
Proof.
  unfold abs. simpl. rewrite omap_app, !filter_app, !length_app, omap_aborted. simpl.
  rewrite !count_aborted; auto using fired_aborted, failed_aborted. simpl. by rewrite !Nat.add_0_r.
Qed.

#[export] Instance refines_cancel : Refines cancel disarm.
Proof.
  intros t. unfold cancel, disarm, get. unfold bind. rewrite timer_cancel_run. simpl.
  by rewrite abs_cancelled, waiting_head.
Qed.
#[export] Instance refines_reschedule : Refines reschedule arm.
Proof. intros t. rewrite reschedule_run. simpl. by rewrite abs_scheduled. Qed.
#[export] Instance refines_reschedule_ms n : Refines (reschedule_ms n) (arm_ms n).
Proof.
  intros t. unfold reschedule_ms, arm_ms, modify. unfold bind. rewrite reschedule_run. simpl.
  by rewrite (abs_scheduled (Scheduler.set_ms n t)).
Qed.

(** ** Simulation *)

Lemma omap_waiting l : length (omap waiting_ms l) = length (filter is_waiting l).
Proof.
  induction l as [|[n c|e c] l IH]; [done|..].
  - rewrite filter_cons_True by done. simpl. f_equal. exact IH.
  - rewrite filter_cons_False by by intros []. exact IH.
Qed.

(** The only wait among the others. *)
Lemma abs_middle t l1 w l2 : timer t = l1 ++ w :: l2 →
  abs t = mk_spec (ms t) (head (omap waiting_ms l1 ++ omap waiting_ms [w] ++ omap waiting_ms l2))
    (length (filter is_fired (l1 ++ l2)) + (if is_fired w then 1 else 0))
    (length (filter is_failed (l1 ++ l2)) + (if is_failed w then 1 else 0))
    (length (filter succeeded (calls t))) (env t).
Proof.
  intros El. unfold abs. rewrite El, !omap_app, !filter_app, !filter_cons, !length_app.
  f_equal; [destruct w; simpl; by rewrite ?app_nil_r| |];
    [destruct (is_fired w)|destruct (is_failed w)]; case_decide; simpl in *; first [done|lia].
Qed.

Lemma one_waits l1 n c l2 : (length (filter is_waiting (l1 ++ Waiting n c :: l2)) ≤ 1)%nat →
  omap waiting_ms l1 = [] ∧ omap waiting_ms l2 = [].
Proof.
  rewrite filter_app, filter_cons_True, length_app by done. cbn [length]. rewrite <-!omap_waiting.
  intros Hl. split; apply nil_length_inv; lia.
Qed.

Context (f : C → prog task C) (f' : prog timer_spec C) (c0 : C).
Context (Huser : ∀ c, user (f c)) (Hf : Refines (f c0) f').
#[local] Existing Instance Hf.

Lemma user_Wrapper c e : user (Wrapper f c e).
Proof. unfold Wrapper. repeat case_decide; [done|constructor..]. Qed.

Lemma runs_called (cs : list (ec * C)) e :
  length (filter succeeded (cs ++ [(e, c0)])) =
  (length (filter succeeded cs) + if decide (e = success) then 1 else 0)%nat.
Proof.
  rewrite filter_app, length_app. f_equal. unfold succeeded. case_decide.
  - by rewrite filter_cons_True by by apply bool_decide_pack.
  - by rewrite filter_cons_False by by intros ?%bool_decide_unpack.
Qed.

#[local] Instance refines_called :
  Refines (modify (λ t, Scheduler.set_calls (calls t ++ [(success, c0)]) t))
    (modify (λ s, set_runs (S (runs s)) s)).
Proof.
  intros t. unfold modify. simpl. unfold abs. simpl. by rewrite runs_called, Nat.add_1_r.
Qed.

(** The three outcomes of a wait. *)
Lemma run_refines : Refines (interval_fn (Wrapper f) c0 success) (execute f').
Proof.
  unfold interval_fn, call, Wrapper. rewrite !decide_True by done. unfold execute.
  repeat (apply refines_bind; [apply _|intros _]). apply _.
Qed.

Lemma failure_refines t e : e ≠ success → e ≠ operation_aborted →
  abs (interval_fn (Wrapper f) c0 e t).2 = (arm (abs t)).2.
Proof.
  intros Hs Ha. unfold interval_fn, call, Wrapper. rewrite !decide_False by done.
  unfold bind at 1. rewrite reschedule_run. simpl. unfold arm, modify. simpl. rewrite <-(abs_scheduled t (ms t) (fn t)).
  unfold abs. simpl. by rewrite runs_called, decide_False, Nat.add_0_r by done.
Qed.

Lemma abortion_refines t : abs (interval_fn (Wrapper f) c0 operation_aborted t).2 = abs t.
Proof.
  unfold interval_fn, call, Wrapper. simpl. unfold abs. simpl. by rewrite runs_called, Nat.add_0_r.
Qed.

Lemma simulate_complete t l1 n c l2 e : timer t = l1 ++ Waiting n c :: l2 →
  (length (filter is_waiting (timer t)) ≤ 1)%nat →
  spec_step f' (abs t) (abs (Scheduler.set_timer (l1 ++ Due e c :: l2) t)).
Proof.
  intros El Hw. rewrite El in Hw. destruct (one_waits _ _ _ _ Hw) as [E1 E2].
  rewrite (abs_middle (Scheduler.set_timer _ t) l1 (Due e c) l2), (abs_middle t l1 (Waiting n c) l2) by done.
  rewrite E1, E2. simpl.
  destruct (decide (e = success)) as [->|Hs]; [|destruct (decide (e = operation_aborted)) as [->|Ha]].
  - simpl. rewrite !Nat.add_0_r, Nat.add_1_r. by eapply (s_fire f' (mk_spec _ _ _ _ _ _)).
  - simpl. rewrite !Nat.add_0_r. by eapply (s_abort f' (mk_spec _ _ _ _ _ _)).
  - rewrite !bool_decide_false, !bool_decide_true by done. simpl. rewrite !Nat.add_0_r, Nat.add_1_r.
    by eapply (s_error f' (mk_spec _ _ _ _ _ _)).
Qed.

Lemma simulate_handler t l1 e l2 : timer t = l1 ++ Due e c0 :: l2 →
  let t' := (interval_fn (Wrapper f) c0 e (Scheduler.set_timer (l1 ++ l2) t)).2 in
  abs t' = abs t ∨ spec_step f' (abs t) (abs t').
Proof.
  intros El t'. subst t'. rewrite (abs_middle t l1 (Due e c0) l2) by done. simpl.
  assert (abs (Scheduler.set_timer (l1 ++ l2) t) = mk_spec (ms t)
    (head (omap waiting_ms l1 ++ omap waiting_ms l2)) (length (filter is_fired (l1 ++ l2)))
    (length (filter is_failed (l1 ++ l2))) (length (filter succeeded (calls t))) (env t)) as Ea
    by (unfold abs; simpl; by rewrite omap_app).
  destruct (decide (e = success)) as [->|Hs]; [|destruct (decide (e = operation_aborted)) as [->|Ha]].
  - right. pose proof (run_refines (Scheduler.set_timer (l1 ++ l2) t)) as Hr. simpl. 
    replace (abs _) with (execute f' (abs (Scheduler.set_timer (l1 ++ l2) t))).2 by by rewrite Hr.
    rewrite Nat.add_1_r, Nat.add_0_r, Ea. by eapply (s_run f' (mk_spec _ _ _ _ _ _)).
  - left. rewrite abortion_refines, Ea. simpl. by rewrite !Nat.add_0_r.
  - right. rewrite failure_refines by done. rewrite !bool_decide_false, !bool_decide_true by done. simpl.
    rewrite Nat.add_1_r, Nat.add_0_r, Ea. by eapply (s_fail f' (mk_spec _ _ _ _ _ _)).
Qed.

Lemma simulate t t' : inv c0 t → step (Wrapper f) true t t' →
  abs t' = abs t ∨ spec_step f' (abs t) (abs t').
Proof.
  intros Hi (ev & Hs). destruct ev as [i e|i| |[n|]|]; cbn [handle] in Hs.
  - unfold get in Hs. unfold bind at 1 in Hs. destruct (timer t !! i) as [[n c|e' c]|] eqn:El; subst; [|by left..].
    right. unfold modify. cbn [snd]. rewrite (insert_take_drop _ i (Due e c) (lookup_lt_Some _ _ _ El)).
    eapply simulate_complete; [by rewrite take_drop_middle|apply Hi].
  - unfold get in Hs. unfold bind at 1 in Hs.
    destruct (timer t !! i) as [[n c|e c]|] eqn:El; [by left; subst| |by left; subst].
    destruct (inv_remove c0 t i e c Hi El) as [-> _]. unfold modify in Hs. unfold bind at 1 in Hs. subst.
    apply simulate_handler. by rewrite take_drop_middle.
  - subst. right. assert (abs ((cancel ;;; ret tt) t).2 = (disarm (abs t)).2) as ->; [|apply s_disarm].
    rewrite (refines (m:=cancel) t). unfold bind. by destruct (cancel t) as [[]].
  - subst. right. pose proof (refines (m:=reschedule_ms n) t) as Hr.
    replace (abs (reschedule_ms n t).2) with (arm_ms n (abs t)).2 by by rewrite Hr. apply s_arm_ms.
  - subst. right. pose proof (refines (m:=reschedule) t) as Hr.
    replace (abs (reschedule t).2) with (arm (abs t)).2 by by rewrite Hr. apply s_arm.
  - subst. by left.
Qed.

(** C12. The implementation refines the specification. Whatever happens to an interval
    task whose function is the caller's, in whatever order, is something that may
    happen to a timer that is only armed or not: its waits, their handlers, the
    executions that were cancelled and the copies of the function can not be told from
    the outside. The function may itself cancel and reschedule the task, and throw. *)
Theorem interval_task_refines n v t :
  reachable (λ t, t = makeIntervalTask n c0 v) (step (Wrapper f) true) t →
  reachable (eq (spec_new n v)) (spec_step f') (abs t).
Proof.
  intros Hr. assert (inv c0 t ∧ reachable (eq (spec_new n v)) (spec_step f') (abs t)) as [_ ?]; [|done].
  revert t Hr. apply reachable_inv.
  - intros t ->. split; [|by apply reach_init]. split; simpl; [done|lia|by repeat constructor|done].
  - intros t t' [Hi Ha] Hs. split.
    + destruct Hs as (ev & <-). apply scheduler_handle_inv; [apply user_Wrapper|done].
    + destruct (simulate t t' Hi Hs) as [->|]; [done|by eapply reach_step].
Qed.

End spec.

(** A function that counts its calls outside and cancels its task at the second one. *)
Definition twice (c : nat) : prog (Scheduler.task (C:=nat) (E:=Z)) nat :=
  let! n := outside (modify (λ n, n + 1) ;;; get) in
  if n =? 2 then cancel ;;; ret c else ret c.
Definition twice_spec : prog (timer_spec (E:=Z)) nat :=
  let! n := with_env (modify (λ n, n + 1) ;;; get) in
  if n =? 2 then disarm ;;; ret 0%nat else ret 0%nat.

(** The task has been called twice, and the wait it cancelled is still to be handled. *)
Abbreviation events := [Complete 0 success; Handler 0; Complete 0 success; Handler 0].
Definition called_twice := Eval vm_compute in
  foldl (λ t ev, (handle (Wrapper twice) true ev t).2) (makeIntervalTask 50 0%nat 0) events.

Lemma interval_task_refines_witness :
  abs called_twice = mk_spec 50 None 0 0 2 2 ∧
  reachable (eq (spec_new 50 0)) (spec_step twice_spec) (mk_spec 50 None 0 0 2 2).
Proof.
  split; [reflexivity|]. change (mk_spec 50 None 0 0 2 2) with (abs called_twice).
  apply (interval_task_refines twice twice_spec 0%nat).
  - intros c. apply user_bind; [apply user_outside|intros n].
    destruct (n =? 2); [apply user_bind; [apply user_cancel|intros; apply user_ret]|apply user_ret].
  - unfold twice, twice_spec. apply _.
  - set (run k := foldl (λ t ev, (handle (Wrapper twice) true ev t).2) (makeIntervalTask 50 0%nat 0)
      (take k events)).
    apply (reach_step _ _ (run 3%nat)); [|by exists (Handler 0)].
    apply (reach_step _ _ (run 2%nat)); [|by exists (Complete 0 success)].
    apply (reach_step _ _ (run 1%nat)); [|by exists (Handler 0)].
    apply (reach_step _ _ (run 0%nat)); [|by exists (Complete 0 success)].
    by apply reach_init.
Defined.
End SchedulerSpec.
