(* ===== verification/SchedulerTests.v ===== *)
(** * The unit tests of the scheduler (otservpptest: deferredtasktest.cpp,
    intervaltasktest.cpp, schedulertest.cpp)

    The tests as programs over the model of Scheduler. They pass for each io_service
    that runs the handlers that are due before it waits for a timer, for any
    function object, any times and any number of rounds. *)

From S2P Require Import Prelude Connection Parallel Scheduler.

Module SchedulerTests.

#[local] Existing Instance Connection.ec_eq_dec.
Abbreviation ec := Scheduler.ec.
Abbreviation success := Scheduler.success.
Abbreviation operation_aborted := Scheduler.operation_aborted.

(** Which handler [run_one] runs, given for each wait of the io_service whether it
    still waits: one that is due if there is any, else the one whose deadline comes
    first. *)
Class IoService : Type := {
  pick : list bool → option nat;
  pick_some l : l ≠ [] → is_Some (pick l);
  pick_ready l i : pick l = Some i → l !! i = Some false ∨ (l !! i = Some true ∧ false ∉ l);
}.

(** The variables of the tests: [taskCalled], [taskAborted], [taskCalls], and the
    booleans allocated by [EvaluatesTo]. *)
Record globals : Type := mk_globals {
  taskCalled : bool;
  taskAborted : bool;
  taskCalls : Z;
  bools : list bool;
}.

Definition set_called x g := mk_globals x (taskAborted g) (taskCalls g) (bools g).
Definition set_aborted x g := mk_globals (taskCalled g) x (taskCalls g) (bools g).
Definition set_calls x g := mk_globals (taskCalled g) (taskAborted g) x (bools g).
Definition set_bools x g := mk_globals (taskCalled g) (taskAborted g) (taskCalls g) x.

(** [ASSERT_TRUE] and the others, which end the test. *)
Definition expect {S} (b : bool) : prog S unit :=
  if b then ret tt else throw (StdException "ASSERT").

(** The loops [CALL_TIMES] and [INTERVAL_TIMES]. *)
Definition CALL_TIMES {S} (callIterations : nat) (baseTime : Z) (body : Z → prog S unit) : prog S unit :=
  run_all (λ i, body (baseTime * Z.of_nat i)) (seq 0 callIterations).
Definition INTERVAL_TIMES {S} (intervalIterations : nat) (body : Z → prog S unit) : prog S unit :=
  run_all (λ i, body (Z.of_nat i)) (seq 1 intervalIterations).

(** The functions under test: free functions, function objects that carry a payload
    and [std::function]s, with one parameter or with the task as a second. *)
Inductive arity : Type := Unary | Binary.

Section fixture.
Context `{IoService} {C : Type}.
(** The io_service of a fixture and the task whose waits it holds. *)
Abbreviation fixture := (Scheduler.task (C:=C) (E:=globals)).
Abbreviation test := (prog fixture unit).
Implicit Types t : fixture.

Definition with_arity (a : arity) (taskImpl : ec → prog globals unit) (c : C) (e : ec) : prog fixture C :=
  match a with
  | Unary => Scheduler.unary (λ c e, taskImpl e ;;; ret c) c e
  | Binary => expect true ;;; Scheduler.outside (taskImpl e) ;;; ret c
  end.

Definition set (f : globals → globals) : test := Scheduler.outside (modify f).
Definition expect_that (f : globals → bool) : test :=
  let! t := get in expect (f (Scheduler.env t)).

Section running.
Context (interval : bool) (func : C → ec → prog fixture C).

(** [ioService.run_one()]: the number of handlers that it ran. *)
Definition run_one : prog fixture nat :=
  let! t := get in
  match pick (map Scheduler.is_waiting (Scheduler.timer t)) with
  | None => ret 0%nat
  | Some i =>
      (if default false (Scheduler.is_waiting <$> Scheduler.timer t !! i)
       then Scheduler.handle func interval (Scheduler.Complete i success) else ret tt) ;;;
      Scheduler.handle func interval (Scheduler.Handler i) ;;; ret 1%nat
  end.

Definition runOne : test := let! n := run_one in expect (n =? 1)%nat.
End running.

(** A new task. The tests make one when the io_service holds no wait of another. *)
Definition new_task (make : globals → fixture) : test :=
  let! t := get in
  match Scheduler.timer t with
  | [] => put (make (Scheduler.env t))
  | _ => fail AssertionFailed
  end.

(** The pointer to the task goes out of scope. *)
Definition goes_out_of_scope : test := modify (Scheduler.set_owned false).

(** ** DeferredTaskTest *)

Section deferred.
Context (func : C) (a : arity) (callIterations : nat) (baseTime : Z).

Definition deferred_taskImpl (e : ec) : prog globals unit :=
  if decide (e = success) then modify (set_called true)
  else if decide (e = operation_aborted) then modify (set_aborted true)
  else throw (StdException "system_error").

Definition deferred_runOne : test := runOne false (with_arity a deferred_taskImpl).
Definition deferred_makeTask (callTime : Z) : test :=
  new_task (Scheduler.makeDeferredTask callTime func).

Definition ExecutesTask : test := CALL_TIMES callIterations baseTime (λ callTime,
  set (set_called false) ;;;
  deferred_makeTask callTime ;;; goes_out_of_scope ;;;
  deferred_runOne ;;;
  expect_that taskCalled).

Definition AbortsTaskIfCanceledBeforeDeadline : test := CALL_TIMES callIterations baseTime (λ callTime,
  set (set_aborted false) ;;;
  deferred_makeTask callTime ;;;
  let! c := Scheduler.cancel in expect c ;;;
  deferred_runOne ;;;
  expect_that taskAborted ;;; goes_out_of_scope).

Definition ExecutesTaskIfCanceledAfterDeadline : test := CALL_TIMES callIterations baseTime (λ callTime,
  set (set_called false) ;;;
  deferred_makeTask callTime ;;;
  deferred_runOne ;;;
  let! c := Scheduler.cancel in expect (negb c) ;;;
  expect_that taskCalled ;;; goes_out_of_scope).

Definition ExecutesNewTaskIfStartIsCalledAfterDeadline : test :=
  CALL_TIMES callIterations baseTime (λ callTime,
  set (set_called false) ;;;
  deferred_makeTask callTime ;;;
  deferred_runOne ;;;
  expect_that taskCalled ;;;
  set (set_called false) ;;;
  Scheduler.deferred_start callTime func ;;;
  deferred_runOne ;;;
  expect_that taskCalled ;;; goes_out_of_scope).

Definition ExecutesNewTaskAndAbortsOldIfStartIsCalledBeforeDeadline : test :=
  CALL_TIMES callIterations baseTime (λ callTime,
  set (set_called false ∘ set_aborted false) ;;;
  deferred_makeTask callTime ;;;
  Scheduler.deferred_start callTime func ;;;
  deferred_runOne ;;;
  expect_that taskAborted ;;;
  deferred_runOne ;;;
  expect_that taskCalled ;;; goes_out_of_scope).
End deferred.

(** ** IntervalTaskTest *)

Section interval.
Context (func : C) (a : arity) (callIterations intervalIterations : nat) (baseTime : Z).

Definition interval_taskImpl (e : ec) : prog globals unit :=
  if decide (e = success) then modify (λ g, set_calls (taskCalls g + 1) g)
  else if decide (e = operation_aborted) then modify (set_aborted true)
  else throw (StdException "system_error").

Definition interval_runOne : test := runOne true (with_arity a interval_taskImpl).
Definition interval_makeTask (intervalTime : Z) : test :=
  new_task (Scheduler.makeIntervalTask intervalTime func).

(** [runOne] and the comparison of [taskCalls] with the number of the round. *)
Definition interval_rounds : test := INTERVAL_TIMES intervalIterations (λ interval,
  interval_runOne ;;; expect_that (λ g, interval =? taskCalls g)).

Definition ExecutesInterval : test := CALL_TIMES callIterations baseTime (λ intervalTime,
  set (set_calls 0 ∘ set_aborted false) ;;;
  interval_makeTask intervalTime ;;;
  interval_rounds ;;;
  let! c := Scheduler.cancel in expect c ;;;
  interval_runOne ;;;
  expect_that taskAborted ;;; goes_out_of_scope).

Definition ExecutesIntervalIfItGoesOutOfScope : test :=
  set (set_calls 0) ;;;
  interval_makeTask baseTime ;;; goes_out_of_scope ;;;
  interval_rounds.

Definition CanRescheduleTaskAfterBeingCanceled : test := CALL_TIMES callIterations baseTime (λ intervalTime,
  set (set_calls 0 ∘ set_aborted false) ;;;
  interval_makeTask intervalTime ;;;
  interval_runOne ;;;
  expect_that (λ g, taskCalls g =? 1) ;;;
  Scheduler.cancel ;;;
  interval_runOne ;;;
  expect_that taskAborted ;;;
  set (set_calls 0 ∘ set_aborted false) ;;;
  Scheduler.reschedule ;;;
  interval_rounds ;;;
  Scheduler.cancel ;;;
  interval_runOne ;;;
  expect_that taskAborted ;;; goes_out_of_scope).
End interval.
End fixture.

(** ** SchedulerTest *)

Definition scheduler_taskImpl : prog globals unit :=
  modify (λ g, set_calls (taskCalls g + 1) (set_called true g)).

(** The function under test, with its payload. *)
Definition scheduler_task {C} (c : C) : prog globals C := scheduler_taskImpl ;;; ret c.

(** It, and the conversion of a condition, as functions of a task. *)
Definition task_func {C K} (c : C) : prog (Scheduler.task (C:=K) (E:=globals)) C :=
  Scheduler.outside (scheduler_task c).

(** [EvaluatesTo]: a [shared_ptr] to a boolean, which copies share. *)
Definition EvaluatesTo (v : bool) : prog globals nat :=
  let! g := get in modify (set_bools (bools g ++ [v])) ;;; ret (length (bools g)).
Definition EvaluatesTo_assign (v : nat) (nv : bool) : prog globals unit :=
  modify (λ g, set_bools (<[v := nv]> (bools g)) g).
Definition operator_bool (v : nat) : prog globals (bool * nat) :=
  let! g := get in
  match bools g !! v with Some b => ret (b, v) | None => fail DanglingReference end.

Section posted.
Context {C : Type} (func : C).

(** The function under test as one that is posted. *)
Definition task_code (c : C) : Parallel.code (S:=globals) (F:=C) :=
  Parallel.act (λ g, (scheduler_task c g).2) (λ _, Parallel.finish).

(** The fixture with the scheduler's io_service, which holds posted functions. *)
Definition posted_runOne : prog (Parallel.executors (S:=globals) (F:=C)) unit :=
  let! x := get in
  expect (negb (length (Parallel.main x) =? 0)%nat) ;;; Parallel.run_one task_code.

Definition ExecutesTaskLater : prog (Parallel.executors (S:=globals) (F:=C)) unit :=
  Parallel.by_caller (modify (set_called false)) ;;;
  Parallel.callLater func ;;;
  posted_runOne ;;;
  let! x := get in expect (taskCalled (Parallel.caller x)).
End posted.

Section scheduler.
Context `{IoService} {C : Type} (func : C) (callIterations intervalIterations : nat) (baseTime : Z).

(** The handler of the waits of [callAfterIf] and [callEveryIf]. *)
Definition if_check (v : nat) : prog (Scheduler.task (C:=nat * C) (E:=globals)) (bool * nat) :=
  Scheduler.outside (operator_bool v).
Definition if_func := Scheduler.Wrapper (Scheduler.conditional if_check (task_func (C:=C))).
Definition plain_func := Scheduler.Wrapper (task_func (C:=C) (K:=C)).

Definition ExecutesTaskAfter := CALL_TIMES callIterations baseTime (λ callTime,
  set (set_called false) ;;;
  new_task (λ g, (Scheduler.callAfter callTime task_func func g).1) ;;; goes_out_of_scope ;;;
  runOne false plain_func ;;;
  expect_that taskCalled).

(** [ExecutesTaskAfterIfConditionTrue] and [DoesNotExecutesTaskAfterIfConditionFalse] *)
Definition ExecutesTaskAfterIfCondition (v : bool) := CALL_TIMES callIterations baseTime (λ callTime,
  set (set_called false) ;;;
  let! check := Scheduler.outside (EvaluatesTo v) in
  new_task (λ g, (Scheduler.callAfterIf callTime if_check check task_func func g).1) ;;;
  goes_out_of_scope ;;;
  runOne false if_func ;;;
  expect_that (λ g, eqb (taskCalled g) v)).

Definition scheduler_rounds {K} (f : K → ec → prog _ K) := INTERVAL_TIMES intervalIterations (λ interval,
  runOne true f ;;; expect_that (λ g, interval =? taskCalls g)).

Definition ExecutesTaskEvery := CALL_TIMES callIterations baseTime (λ callTime,
  set (set_calls 0) ;;;
  new_task (λ g, (Scheduler.callEvery callTime task_func func g).1) ;;;
  scheduler_rounds plain_func ;;;
  Scheduler.cancel ;;;
  runOne true plain_func ;;; goes_out_of_scope).

Definition ExecutesTaskEveryIfItGoesOutOfScope :=
  set (set_calls 0) ;;;
  new_task (λ g, (Scheduler.callEvery baseTime task_func func g).1) ;;; goes_out_of_scope ;;;
  scheduler_rounds plain_func.

Definition ExecutesOrNotTaskEveryIfStatefulCondition := CALL_TIMES callIterations baseTime (λ callTime,
  set (set_calls 0) ;;;
  let! condition := Scheduler.outside (EvaluatesTo true) in
  new_task (λ g, (Scheduler.callEveryIf callTime if_check condition task_func func g).1) ;;;
  scheduler_rounds if_func ;;;
  Scheduler.outside (EvaluatesTo_assign condition false) ;;;
  set (set_called false) ;;;
  INTERVAL_TIMES intervalIterations (λ _, runOne true if_func ;;; expect_that (λ g, negb (taskCalled g))) ;;;
  Scheduler.outside (EvaluatesTo_assign condition true) ;;;
  set (set_calls 0) ;;;
  scheduler_rounds if_func ;;;
  Scheduler.cancel ;;;
  runOne true if_func ;;; goes_out_of_scope).
End scheduler.

(** ** Lemmas *)

Lemma returns_bind_val {S A B} P (m : prog S A) (k : A → prog S B) a0 R Q :
  returns P m (λ a s, a = a0 ∧ R s) → returns R (k a0) Q → returns P (bind m k) Q.
Proof.
  intros Hm Hk. eapply returns_bind; [exact Hm|]. intros a s [-> Hs]. by apply Hk.
Qed.

(** The error code a wait is due with, or [None] if it waits. *)
Definition shape {C} (w : Scheduler.wait (C:=C)) : option ec :=
  match w with Scheduler.Waiting _ _ => None | Scheduler.Due e _ => Some e end.
Definition waits (x : option ec) : bool := match x with None => true | Some _ => false end.
Definition cancelled (x : option ec) : option ec := Some (default operation_aborted x).

Lemma pick_first `{IoService} x : pick (map waits [x]) = Some 0%nat ∧
  pick (map waits [Some operation_aborted; None]) = Some 0%nat.
Proof.
  split.
  - destruct (pick_some (map waits [x])) as [i Hi]; [done|]. rewrite Hi.
    destruct (pick_ready _ _ Hi) as [E|[E _]]; by destruct i.
  - destruct (pick_some (map waits [Some operation_aborted; None])) as [i Hi]; [done|]. rewrite Hi.
    destruct (pick_ready _ _ Hi) as [E|[E []]]; destruct i as [|[]]; try done. simpl. set_solver.
Qed.

Section specs.
Context `{IoService} {C : Type} (interval : bool) (func : C → ec → prog (Scheduler.task (C:=C) (E:=globals)) C).
Context (c0 : C).
Abbreviation fixture := (Scheduler.task (C:=C) (E:=globals)).

(** The waits of the task, which all hold copies of [c0], and the variables. *)
Record st (l : list (option ec)) (g : globals) (t : fixture) : Prop := {
  st_fn : Scheduler.fn t = c0;
  st_captured : Forall (λ w, Scheduler.captured w = c0) (Scheduler.timer t);
  st_shape : map shape (Scheduler.timer t) = l;
  st_env : Scheduler.env t = g;
}.

Definition without {A} (i : nat) (l : list A) : list A := take i l ++ drop (S i) l.

(** What a call of the function does to the variables. *)
Definition acts (e : ec) (g g' : globals) : Prop :=
  ∀ t, Scheduler.env t = g → ∃ c, func c0 e t = (Val c, Scheduler.set_env g' t).

(** The waits after the handler of one has run. *)
Definition after (e : ec) (l : list (option ec)) : list (option ec) :=
  if interval && bool_decide (e ≠ operation_aborted) then map cancelled l ++ [None] else l.

Lemma st_delete l g t i : st l g t →
  st (without i l) g (Scheduler.set_timer (without i (Scheduler.timer t)) t).
Proof.
  intros [Hf Hc Hs He]. split; simpl; [done| | |done].
  - apply Forall_app. split; [by apply Forall_take|by apply Forall_drop].
  - unfold without. by rewrite <-Hs, map_app, firstn_map, skipn_map.
Qed.

Lemma st_set_timer l g t x : st l g t → Forall (λ w, Scheduler.captured w = c0) x →
  st (map shape x) g (Scheduler.set_timer x t).
Proof. intros [Hf Hc Hs He] Hx. by split. Qed.

Lemma shape_aborted l : map shape (map (Scheduler.aborted (C:=C)) l) = map cancelled (map shape l).
Proof. induction l as [|[] l IH]; simpl; [done|by rewrite IH..]. Qed.

Lemma st_aborted l g t : st l g t →
  st (map cancelled l) g (Scheduler.set_timer (map Scheduler.aborted (Scheduler.timer t)) t).
Proof.
  intros Ht. rewrite <-(st_shape _ _ _ Ht), <-shape_aborted. eapply st_set_timer; [done|].
  apply Forall_map. eapply Forall_impl; [apply (st_captured _ _ _ Ht)|].
  intros w. simpl. by rewrite Scheduler.captured_aborted.
Qed.

Lemma st_schedule l g t m : st l g t →
  st (map cancelled l ++ [None]) g
    (Scheduler.set_timer (map Scheduler.aborted (Scheduler.timer t) ++ [Scheduler.Waiting m c0]) t).
Proof.
  intros Ht. apply st_aborted in Ht as [Hf Hc Hs He]. split; simpl in *; [done| | |done].
  - apply Forall_app. by repeat constructor.
  - by rewrite map_app, Hs.
Qed.

Lemma returns_handler l g g' i e :
  l !! i = Some (Some e) → acts e g g' →
  returns (st l g) (Scheduler.handle func interval (Scheduler.Handler i))
    (λ a, st (after e (without i l)) g').
Proof.
  intros Hi Ha t Ht. cbn [Scheduler.handle]. unfold get. unfold bind at 1.
  pose proof (st_shape _ _ _ Ht) as Hs. rewrite <-Hs, list_lookup_fmap in Hi.
  destruct (Scheduler.timer t !! i) as [[m c|e' c]|] eqn:Hw; [done| |done]. injection Hi as <-.
  pose proof (Forall_lookup_1 _ _ _ _ (st_captured _ _ _ Ht) Hw) as Hc. simpl in Hc. subst c.
  unfold modify. unfold bind at 1. apply (st_delete _ _ _ i) in Ht. unfold without at 2 in Ht.
  set (t1 := Scheduler.set_timer _ t) in *. clearbody t1. unfold after.
  assert (∀ l t2, st l g t2 → ∃ a t', Scheduler.call func c0 e' t2 = (Val a, t') ∧ st l g' t') as Hcall.
  { intros l' t2 Ht2. unfold Scheduler.call, modify. unfold bind at 1.
    destruct Ht2 as [Hf Hc2 Hs2 He].
    destruct (Ha (Scheduler.set_calls (Scheduler.calls t2 ++ [(e', c0)]) t2) He) as [c Hfn].
    erewrite bind_val by exact Hfn. by eexists _, _. }
  unfold Scheduler.on_wait, Scheduler.interval_fn. destruct interval; simpl; [|by apply Hcall].
  unfold bind at 1.
  assert (st (map cancelled (without i l) ++ [None]) g (Scheduler.reschedule t1).2) as Hr.
  { rewrite Scheduler.reschedule_run. simpl. rewrite (st_fn _ _ _ Ht). by apply st_schedule. }
  destruct (decide (e' = success)) as [->|]; [by apply Hcall|].
  destruct (decide (e' = operation_aborted)) as [->|]; [by apply Hcall|].
  rewrite bool_decide_true by done. by apply Hcall.
Qed.

Lemma returns_runOne l g g' i x :
  pick (map waits l) = Some i → l !! i = Some x → acts (default success x) g g' →
  returns (st l g) (runOne interval func) (λ a t, a = tt ∧ st (after (default success x) (without i l)) g' t).
Proof.
  intros Hp Hi Ha t Ht. unfold runOne, run_one.
  assert (map Scheduler.is_waiting (Scheduler.timer t) = map waits l) as Hw.
  { rewrite <-(st_shape _ _ _ Ht), map_map. apply map_ext. by intros []. }
  assert (∃ t1, (if default false (Scheduler.is_waiting <$> Scheduler.timer t !! i)
    then Scheduler.handle func interval (Scheduler.Complete i success) else ret tt) t = (Val tt, t1) ∧
    st (<[i := Some (default success x)]> l) g t1) as (t1 & E & Ht1).
  { pose proof (st_shape _ _ _ Ht) as Hs. pose proof Hi as Hi2. rewrite <-Hs, list_lookup_fmap in Hi2.
    destruct (Scheduler.timer t !! i) as [[m c|e c]|] eqn:Hl; [| |done]; injection Hi2 as <-; simpl.
    - unfold bind, get. rewrite Hl. eexists. split; [done|].
      rewrite <-Hs. change (Some success) with (shape (Scheduler.Due success c)).
      rewrite <-list_fmap_insert. eapply st_set_timer; [done|].
      apply Forall_insert; [apply Ht|]. apply (Forall_lookup_1 _ _ _ _ (st_captured _ _ _ Ht) Hl).
    - exists t. split; [done|]. simpl in Hi. by rewrite list_insert_id. }
  assert (<[i:=Some (default success x)]> l !! i = Some (Some (default success x))) as Hli
    by (apply list_lookup_insert_eq; by eapply lookup_lt_Some).
  destruct (returns_handler _ g g' i _ Hli Ha t1 Ht1) as (a & t2 & Eh & Ht2).
  exists tt, t2. split.
  - unfold get. unfold bind at 1. unfold bind at 1. rewrite Hw, Hp.
    by rewrite (bind_val _ _ _ _ _ E), (bind_val _ _ _ _ _ Eh).
  - split; [done|]. unfold without in *. by rewrite take_insert_ge, drop_insert_lt in Ht2 by lia.
Qed.
End specs.

Section steps.
Context `{IoService} {C : Type} (c0 : C).
Abbreviation fixture := (Scheduler.task (C:=C) (E:=globals)).
Implicit Types t : fixture.

(** No wait is pending and the variables are [g]. *)
Definition idle (g : globals) t : Prop := Scheduler.timer t = [] ∧ Scheduler.env t = g.

Lemma st_idle g t : st c0 [] g t → idle g t.
Proof. intros [Hf Hc Hs He]. split; [by destruct (Scheduler.timer t)|done]. Qed.

Lemma returns_set l g f : returns (st c0 l g) (set f) (λ a t, a = tt ∧ st c0 l (f g) t).
Proof. intros t [Hf Hc Hs <-]. by eexists _, _. Qed.
Lemma returns_set_idle g f : returns (idle g) (set f) (λ a t, a = tt ∧ idle (f g) t).
Proof. intros t [Hs <-]. by eexists _, _. Qed.

Lemma returns_outside l g g' {A} (m : prog globals A) a : m g = (Val a, g') →
  returns (st c0 l g) (Scheduler.outside m) (λ a' t, a' = a ∧ st c0 l g' t).
Proof.
  intros E t [Hf Hc Hs <-]. unfold Scheduler.outside, zoom. rewrite E. by eexists _, _.
Qed.
Lemma returns_outside_idle g g' {A} (m : prog globals A) a : m g = (Val a, g') →
  returns (idle g) (Scheduler.outside m) (λ a' t, a' = a ∧ idle g' t).
Proof. intros E t [Hs <-]. unfold Scheduler.outside, zoom. rewrite E. by eexists _, _. Qed.

Lemma returns_expect P b : b = true → returns (S:=fixture) P (expect b) (λ a t, a = tt ∧ P t).
Proof. intros -> t Ht. by exists tt, t. Qed.
Lemma returns_expect_that l g f : f g = true →
  returns (st c0 l g) (expect_that f) (λ a t, a = tt ∧ st c0 l g t).
Proof.
  intros E t Ht. exists tt, t. unfold expect_that, expect, get, bind.
  by rewrite (st_env _ _ _ _ Ht), E.
Qed.

Lemma returns_cancel l g :
  returns (st c0 l g) Scheduler.cancel (λ a t, a = existsb waits l ∧ st c0 (map cancelled l) g t).
Proof.
  intros t Ht. eexists _, _. split; [done|]. split; [|by apply st_aborted].
  rewrite <-(st_shape _ _ _ _ Ht). induction (Scheduler.timer t) as [|[] ws IH]; simpl; done.
Qed.

Lemma returns_reschedule l g :
  returns (st c0 l g) Scheduler.reschedule (λ a t, a = tt ∧ st c0 (map cancelled l ++ [None]) g t).
Proof.
  intros t Ht. rewrite Scheduler.reschedule_run. eexists _, _. split; [done|]. split; [done|].
  rewrite (st_fn _ _ _ _ Ht). by apply st_schedule.
Qed.
Lemma returns_start l g n :
  returns (st c0 l g) (Scheduler.deferred_start n c0) (λ a t, a = tt ∧ st c0 (map cancelled l ++ [None]) g t).
Proof.
  intros t Ht. unfold Scheduler.deferred_start. rewrite Scheduler.schedule_run.
  eexists _, _. split; [done|]. split; [done|]. by apply st_schedule.
Qed.

Lemma returns_new_task g make :
  (∀ v, st c0 [None] v (make v)) →
  returns (idle g) (new_task make) (λ a t, a = tt ∧ st c0 [None] g t).
Proof.
  intros Hm t [Ht <-]. unfold new_task, get. unfold bind. rewrite Ht. by eexists _, _.
Qed.
Lemma st_makeDeferredTask n v : st c0 [None] v (Scheduler.makeDeferredTask n c0 v).
Proof. split; try done. by repeat constructor. Qed.
Lemma st_makeIntervalTask n v : st c0 [None] v (Scheduler.makeIntervalTask n c0 v).
Proof. split; try done. by repeat constructor. Qed.

Lemma returns_scope l g : returns (st c0 l g) goes_out_of_scope (λ a t, a = tt ∧ st c0 l g t).
Proof. intros t [Hf Hc Hs He]. by eexists _, _. Qed.

(** The first of the waits the tests have is the one that is run. *)
Lemma returns_run_next interval func g g' x l :
  l = [] ∨ (x = Some operation_aborted ∧ l = [None]) →
  acts func c0 (default success x) g g' →
  returns (st c0 (x :: l) g) (runOne interval func)
    (λ a t, a = tt ∧ st c0 (after interval (default success x) l) g' t).
Proof.
  intros Hl Ha. apply returns_runOne with (i := 0%nat); [|done..].
  destruct (pick_first x) as [H1 H2]. by destruct Hl as [->|[-> ->]].
Qed.

Lemma acts_with_arity a impl e g g' : impl e g = (Val tt, g') → acts (with_arity a impl) c0 e g g'.
Proof.
  intros E t Ht. exists c0. destruct a; unfold with_arity, Scheduler.unary, Scheduler.outside, zoom;
    simpl; unfold bind; simpl; by rewrite Ht, E.
Qed.

(** A test that is a loop passes if each round leaves no wait behind. *)
Lemma CALL_TIMES_passes n b body t :
  (∀ callTime g, returns (idle g) (body callTime) (λ _ t, Scheduler.timer t = [])) →
  Scheduler.timer t = [] → (CALL_TIMES n b body t).1 = Val tt.
Proof.
  intros Hb Ht.
  destruct (returns_run_all (λ _ t, Scheduler.timer t = []) (λ i, body (b * Z.of_nat i)) (seq 0 n))
    with t as ([] & t' & E & _); [|done|unfold CALL_TIMES; by rewrite E].
  intros k x _ t1 Ht1. by apply (Hb _ (Scheduler.env t1)).
Qed.

(** The rounds of an interval task, the variables being [gs i] after [i] of them. *)
Lemma returns_rounds func f (gs : nat → globals) n :
  (∀ i, acts func c0 success (gs i) (gs (S i))) →
  (∀ i, f (Z.of_nat i) (gs i) = true) →
  returns (st c0 [None] (gs 0%nat))
    (INTERVAL_TIMES n (λ i, runOne true func ;;; expect_that (f i)))
    (λ a t, a = tt ∧ st c0 [None] (gs n) t).
Proof.
  intros Ha Hf. eapply returns_conseq.
  - apply (returns_run_all (λ i, st c0 [None] (gs i))). intros i x [-> _]%lookup_seq.
    eapply returns_bind_val; [by apply returns_run_next; [left|apply Ha]|].
    eapply returns_conseq; [by apply returns_expect_that, (Hf (S i))|done|]. by intros a t [_ Ht].
  - done.
  - intros [] t. by rewrite length_seq.
Qed.
End steps.

(** ** The tests pass *)

(** One statement of a test. *)
Ltac statement :=
  eapply returns_bind_val; [
    first
      [ apply returns_set_idle | apply returns_set
      | by apply returns_expect_that | by apply returns_expect
      | apply returns_cancel | apply returns_start | apply returns_reschedule | apply returns_scope
      | apply returns_new_task; intros ?; first [apply st_makeDeferredTask | apply st_makeIntervalTask]
      | by apply returns_run_next; [auto|apply acts_with_arity] ]
  | cbn [map existsb waits cancelled orb andb after default app] ].

(** The last statement of a round: no wait is left. *)
Ltac last_statement :=
  eapply returns_post;
    [first [by apply returns_expect_that | apply returns_scope] | by intros ? ? [_ [? _]%st_idle] ].

(** The tests of DeferredTask pass: a task is executed at its deadline, cancelled
    before it with [operation_aborted], and restarted. *)
Theorem deferred_tests_pass `{IoService} {C} (func : C) a n b t :
  Scheduler.timer t = [] →
  (ExecutesTask func a n b t).1 = Val tt ∧
  (AbortsTaskIfCanceledBeforeDeadline func a n b t).1 = Val tt ∧
  (ExecutesTaskIfCanceledAfterDeadline func a n b t).1 = Val tt ∧
  (ExecutesNewTaskIfStartIsCalledAfterDeadline func a n b t).1 = Val tt ∧
  (ExecutesNewTaskAndAbortsOldIfStartIsCalledBeforeDeadline func a n b t).1 = Val tt.
Proof.
  intros Ht. repeat split; apply CALL_TIMES_passes; try done; intros callTime g;
    unfold deferred_makeTask, deferred_runOne; repeat statement; last_statement.
Qed.

Lemma returns_interval_rounds `{IoService} {C} (c0 : C) a n g :
  returns (st c0 [None] (set_calls 0 g)) (interval_rounds a n)
    (λ x t, x = tt ∧ st c0 [None] (set_calls (Z.of_nat n) g) t).
Proof.
  apply (returns_rounds c0 _ (λ i g, i =? taskCalls g) (λ i, set_calls (Z.of_nat i) g)).
  - intros i. apply acts_with_arity. rewrite Nat2Z.inj_succ. done.
  - intros i. apply Z.eqb_refl.
Qed.

Ltac interval_statement := first
  [ eapply returns_bind_val; [apply returns_interval_rounds|] | statement ].

(** The tests of IntervalTask pass: as many executions as there were deadlines, each
    followed by another until the task is cancelled, also when nobody holds the task,
    and again after it is rescheduled. *)
Theorem interval_tests_pass `{IoService} {C} (func : C) a n k b t :
  Scheduler.timer t = [] →
  (ExecutesInterval func a n k b t).1 = Val tt ∧
  (ExecutesIntervalIfItGoesOutOfScope func a k b t).1 = Val tt ∧
  (CanRescheduleTaskAfterBeingCanceled func a n k b t).1 = Val tt.
Proof.
  intros Ht. split; [|split].
  - apply CALL_TIMES_passes; [|done]. intros ms g. unfold interval_makeTask, interval_runOne.
    repeat interval_statement. last_statement.
  - assert (returns (idle (Scheduler.env t)) (ExecutesIntervalIfItGoesOutOfScope func a k b) (λ _ _, True))
      as Hr; [|destruct (Hr t) as ([] & t' & -> & _); done].
    unfold ExecutesIntervalIfItGoesOutOfScope, interval_makeTask. repeat statement.
    by eapply returns_post; [apply returns_interval_rounds|].
  - apply CALL_TIMES_passes; [|done]. intros ms g. unfold interval_makeTask, interval_runOne.
    repeat interval_statement. last_statement.
Qed.

(** The effect of [taskImpl]. *)
Definition called (g : globals) : globals := set_calls (taskCalls g + 1) (set_called true g).

Section scheduler_specs.
Context `{IoService} {C : Type}.

Lemma acts_plain (c0 : C) g : acts plain_func c0 success g (called g).
Proof. intros t <-. by eexists. Qed.
Lemma acts_plain_aborted (c0 : C) g : acts plain_func c0 operation_aborted g g.
Proof. intros t <-. destruct t. by eexists. Qed.
Lemma acts_if (k : nat) (c0 : C) (v : bool) g : bools g !! k = Some v →
  acts if_func (k, c0) success g (if v then called g else g).
Proof.
  intros Hk t <-. unfold if_func, Scheduler.Wrapper. rewrite decide_True by done.
  unfold Scheduler.conditional, if_check, Scheduler.outside, zoom, operator_bool, get. unfold bind at 1.
  unfold bind at 1. cbn [fst]. rewrite Hk. destruct t, v; by eexists.
Qed.
Lemma acts_if_aborted (k : nat) (c0 : C) g : acts if_func (k, c0) operation_aborted g g.
Proof. intros t <-. destruct t. by eexists. Qed.

(** The rounds of [callEvery] and [callEveryIf]. *)
Lemma returns_scheduler_rounds {K} (c0 : K) func g n :
  taskCalls g = 0 → (∀ g', bools g' = bools g → acts func c0 success g' (called g')) →
  returns (st c0 [None] g) (scheduler_rounds n func)
    (λ x t, x = tt ∧ st c0 [None]
      (set_calls (Z.of_nat n) (set_called (taskCalled g || (0 <? n)%nat) g)) t).
Proof.
  intros H0 Ha. eapply returns_conseq.
  - apply (returns_rounds c0 func (λ i g, i =? taskCalls g)
      (λ i, set_calls (Z.of_nat i) (set_called (taskCalled g || (0 <? i)%nat) g))).
    + intros i. rewrite Nat2Z.inj_succ.
      specialize (Ha (set_calls (Z.of_nat i) (set_called (taskCalled g || (0 <? i)%nat) g)) eq_refl).
      unfold called in Ha. cbn in *. by rewrite orb_true_r.
    + intros i. apply Z.eqb_refl.
  - intros t. rewrite orb_false_r. destruct g. simpl in H0. by subst.
  - done.
Qed.

Lemma returns_silent_rounds {K} (c0 : K) func g n :
  acts func c0 success g g → taskCalled g = false →
  returns (st c0 [None] g)
    (INTERVAL_TIMES n (λ _, runOne true func ;;; expect_that (λ g, negb (taskCalled g))))
    (λ x t, x = tt ∧ st c0 [None] g t).
Proof.
  intros Ha Hc. apply (returns_rounds c0 func (λ _ g, negb (taskCalled g)) (λ _, g)); [done|].
  intros i. by rewrite Hc.
Qed.
End scheduler_specs.

Ltac scheduler_statement := first
  [ eapply returns_bind_val; [by apply returns_outside_idle|]
  | eapply returns_bind_val; [by apply returns_outside|]
  | eapply returns_bind_val; [by apply returns_run_next;
      [auto|first [apply acts_plain | apply acts_plain_aborted | apply acts_if_aborted]]|];
    cbn [map existsb waits cancelled orb andb after default app]
  | statement ].

(** C32. The tests of Scheduler pass: functions are called later, after a time, every so
    often, and only when a condition holds at the time of the call; the condition is
    shared with the code that changes it. *)
Theorem scheduler_tests_pass `{IoService} {C} (func : C) n k b t tk x :
  Scheduler.timer t = [] → Scheduler.timer tk = [] →
  Parallel.main x = [] → Parallel.current x = None →
  (ExecutesTaskLater func x).1 = Val tt ∧
  (ExecutesTaskAfter func n b t).1 = Val tt ∧
  (∀ v, (ExecutesTaskAfterIfCondition func n b v tk).1 = Val tt) ∧
  (ExecutesTaskEvery func n k b t).1 = Val tt ∧
  (ExecutesTaskEveryIfItGoesOutOfScope func k b t).1 = Val tt ∧
  (ExecutesOrNotTaskEveryIfStatefulCondition func n k b tk).1 = Val tt.
Proof.
  intros Ht Htk Hx Hc. split; [|split; [|split; [|split; [|split]]]].
  - destruct x. simpl in *. by subst.
  - apply CALL_TIMES_passes; [|done]. intros ms g. repeat scheduler_statement. last_statement.
  - intros v. apply CALL_TIMES_passes; [|done]. intros ms g. repeat scheduler_statement.
    eapply returns_bind_val; [apply returns_run_next; [auto|by apply acts_if, list_lookup_middle]|].
    eapply returns_post; [apply returns_expect_that; by destruct v|by intros ? ? [_ [? _]%st_idle] ].
  - apply CALL_TIMES_passes; [|done]. intros ms g. do 2 scheduler_statement.
    eapply returns_bind_val; [apply returns_scheduler_rounds; [done|intros; apply acts_plain]|].
    repeat scheduler_statement. last_statement.
  - assert (returns (idle (Scheduler.env t)) (ExecutesTaskEveryIfItGoesOutOfScope func k b) (λ _ _, True))
      as Hr; [|destruct (Hr t) as ([] & t' & -> & _); done].
    unfold ExecutesTaskEveryIfItGoesOutOfScope. do 3 scheduler_statement.
    eapply returns_post; [apply returns_scheduler_rounds; [done|intros; apply acts_plain]|done].
  - apply CALL_TIMES_passes; [|done]. intros ms g. do 3 scheduler_statement.
    assert (∀ l k, (k < length l)%nat → <[k := false]> l !! k = Some false ∧
      <[k := true]> (<[k := false]> l) !! k = Some true) as Hins.
    { intros l i Hi. by rewrite !list_lookup_insert_eq by (rewrite ?length_insert; lia). }
    assert (length (bools g) < length (bools g ++ [true]))%nat as Hlen
      by (rewrite length_app; simpl; lia).
    destruct (Hins _ _ Hlen) as [Hfalse Htrue].
    eapply returns_bind_val; [apply returns_scheduler_rounds; [done|]; intros g' Hg;
      apply acts_if with (v := true); by rewrite Hg; apply list_lookup_middle|].
    repeat scheduler_statement.
    eapply returns_bind_val; [apply returns_silent_rounds; [by apply acts_if with (v := false)|done]|].
    repeat scheduler_statement.
    eapply returns_bind_val; [apply returns_scheduler_rounds; [done|]; intros g' Hg;
      apply acts_if with (v := true); by rewrite Hg|].
    repeat scheduler_statement. last_statement.
Qed.

(** ** Witnesses *)

(** The first wait that is due, else the first. *)
Definition toy_pick (l : list bool) : option nat :=
  match l with
  | [] => None
  | _ => Some (default 0%nat (fst <$> list_find (.= false) l))
  end.

Lemma toy_pick_ready l i : toy_pick l = Some i → l !! i = Some false ∨ (l !! i = Some true ∧ false ∉ l).
Proof.
  destruct l as [|b l]; [done|]. unfold toy_pick.
  destruct (list_find (.= false) (b :: l)) as [[j x]|] eqn:E; intros [= <-].
  - apply list_find_Some in E as (? & -> & _). by left.
  - right. apply list_find_None in E. simpl. split.
    + apply Forall_cons in E as [Hb _]. by destruct b.
    + intros Hin. by apply (proj1 (Forall_forall _ _) E) in Hin.
Qed.

Definition toy_io : IoService.
Proof.
  refine {| pick := toy_pick; pick_ready := toy_pick_ready |}. intros [|b l]; [done|]. intros _. by eexists.
Defined.

(** The fixtures after [SetUp], with the numbers of the test files. *)
Definition SetUp {C} (c : C) : Scheduler.task (C:=C) (E:=globals) :=
  Scheduler.mk 0 c [] [] false (mk_globals false false 0 []).

Lemma deferred_tests_pass_witness :
  (ExecutesNewTaskAndAbortsOldIfStartIsCalledBeforeDeadline (H:=toy_io) 7%nat Binary 3 3 (SetUp 7%nat)).1
    = Val tt.
Proof. by apply (deferred_tests_pass (H:=toy_io) 7%nat Binary 3 3 (SetUp 7%nat)). Defined.

Lemma interval_tests_pass_witness :
  (CanRescheduleTaskAfterBeingCanceled (H:=toy_io) 7%nat Unary 3 3 3 (SetUp 7%nat)).1 = Val tt.
Proof. by apply (interval_tests_pass (H:=toy_io) 7%nat Unary 3 3 3 (SetUp 7%nat)). Defined.

Lemma scheduler_tests_pass_witness :
  (ExecutesOrNotTaskEveryIfStatefulCondition (H:=toy_io) 7%nat 3 3 3 (SetUp (0%nat, 7%nat))).1 = Val tt.
Proof.
  by apply (scheduler_tests_pass (H:=toy_io) 7%nat 3 3 3 (SetUp 7%nat) (SetUp (0%nat, 7%nat))
    (Parallel.ParallelExecutionService 4 (mk_globals false false 0 []))).
Defined.

(** The same by running the test. *)
Example stateful_condition_runs :
  let '(r, t) := ExecutesOrNotTaskEveryIfStatefulCondition (H:=toy_io) 7%nat 3 3 3 (SetUp (0%nat, 7%nat)) in
  r = Val tt ∧ taskCalls (Scheduler.env t) = 3 ∧ bools (Scheduler.env t) = [true; true; true].
Proof. vm_compute. done. Qed.

End SchedulerTests.
