(* ===== verification/Service.v ===== *)
(** * Services (service/service.hpp, servicemanager.h/.cpp)

    The service manager listens on one port per service and hands each accepted
    socket to the service of its port, which makes a connection and a protocol
    object for it. *)

From Stdlib Require Import Sorted.
From S2P Require Import Prelude Platform Connection.

Module Service.

(** [tcp::acceptor]: the synchronous operations of the acceptor of a port, which
    report failure by exceptions. *)
Class Network : Type := {
  net : Type;
  acceptor_open : Z → prog net unit;
  acceptor_reuse_address : Z → prog net unit;
  acceptor_bind : Z → prog net unit;
  acceptor_listen : Z → prog net unit;
}.

(** ** [ServiceManager] *)

Section manager.
Context `{Network} {service socket : Type}.
(** The virtual functions of [Service]: [getPort], and [incomingConnection] on
    what lies outside the manager. *)
Context {W : Type} (getPort : service → Z) (incomingConnection : service → socket → prog W unit).

(** The manager: [serviceMap], a [std::map] and so a list of pairs in ascending
    order of their ports; the ports whose acceptor has a pending [async_accept];
    the network, and the rest of the program. *)
Record manager : Type := mk {
  serviceMap : list (Z * service);
  accepting : list Z;
  network : net;
  outside : W;
}.

Definition set_serviceMap x m := mk x (accepting m) (network m) (outside m).
Definition set_accepting x m := mk (serviceMap m) x (network m) (outside m).
Definition set_network x m := mk (serviceMap m) (accepting m) x (outside m).
Definition set_outside x m := mk (serviceMap m) (accepting m) (network m) x.

(** [std::map::find] and [std::map::insert] of an absent key. *)
Fixpoint map_find (port : Z) (l : list (Z * service)) : option service :=
  match l with
  | [] => None
  | (p, s) :: l' => if p =? port then Some s else map_find port l'
  end.

Fixpoint map_insert (port : Z) (svc : service) (l : list (Z * service)) : list (Z * service) :=
  match l with
  | [] => [(port, svc)]
  | (p, s) :: l' => if port <? p then (port, svc) :: l else (p, s) :: map_insert port svc l'
  end.

(** [registerService]: the service moves into the pair to be inserted. When the
    key is there already the pair, and the service with it, is destroyed before
    the exception's text asks the service for its name. *)
Definition registerService (svc : service) : prog manager unit :=
  let! m := get in
  match map_find (getPort svc) (serviceMap m) with
  | None => modify (set_serviceMap (map_insert (getPort svc) svc (serviceMap m)))
  | Some _ => fail DanglingReference
  end.

Definition on_network (op : prog net unit) : prog manager unit := zoom network set_network op.

(** [async_accept] is started on the acceptor of the port. *)
Definition acceptMore (port : Z) : prog manager unit :=
  modify (λ m, set_accepting (accepting m ++ [port]) m).

Definition start : prog manager unit :=
  let! m := get in
  run_all (λ '(port, svc),
    on_network (acceptor_open port) ;;;
    on_network (acceptor_reuse_address port) ;;;
    on_network (acceptor_bind port) ;;;
    on_network (acceptor_listen port) ;;;
    acceptMore port) (serviceMap m).

(** The handler of [async_accept]. *)
Definition on_accept (port : Z) (svc : service) (e : Connection.ec) (peer : socket) : prog manager unit :=
  match e with
  | Connection.success =>
      zoom outside set_outside (incomingConnection svc peer) ;;;
      acceptMore port
  | _ => throw (StdException "system_error")
  end.

(** The pending accept of a port completes. *)
Definition accepted (port : Z) (e : Connection.ec) (peer : socket) : prog manager unit :=
  let! m := get in
  if decide (port ∈ accepting m) then
    match map_find port (serviceMap m) with
    | Some svc =>
        modify (set_accepting (filter (λ p, p ≠ port) (accepting m))) ;;;
        on_accept port svc e peer
    | None => ret tt
    end
  else ret tt.

(** ** Lemmas *)

Definition sorted (l : list (Z * service)) : Prop := StronglySorted (λ a b, a.1 < b.1) l.

Lemma map_find_insert port svc l q :
  sorted l → map_find port l = None →
  map_find q (map_insert port svc l) = if port =? q then Some svc else map_find q l.
Proof.
  intros Hl. induction Hl as [|[p s] l Hl IH Hp]; intros Hf; simpl in *; [done|].
  destruct (Z.eqb_spec p port) as [|Hne]; [done|].
  destruct (Z.ltb_spec port p); simpl.
  - done.
  - rewrite IH by done. destruct (Z.eqb_spec p q), (Z.eqb_spec port q); try done. lia.
Qed.

Lemma map_insert_Forall (Q : Z * service → Prop) port svc l :
  Q (port, svc) → Forall Q l → Forall Q (map_insert port svc l).
Proof.
  intros Hq. induction 1 as [|[p s] l Hp Hl IH]; simpl; [by repeat constructor|].
  destruct (port <? p); by repeat constructor.
Qed.

Lemma map_insert_sorted port svc l :
  sorted l → map_find port l = None → sorted (map_insert port svc l).
Proof.
  intros Hl. induction Hl as [|[p s] l Hl IH Hp]; intros Hf; simpl in *; [by repeat constructor|].
  destruct (Z.eqb_spec p port) as [|Hne]; [done|]. destruct (Z.ltb_spec port p).
  - constructor; [by constructor|]. constructor; [done|].
    eapply Forall_impl; [exact Hp|]. simpl. lia.
  - constructor; [by apply IH|]. apply map_insert_Forall; [simpl; lia|done].
Qed.

(** The ports on which [start] gets as far as accepting. *)
Lemma start_run (l : list (Z * service)) : ∀ m,
  (∀ port n, port ∈ l.*1 → ∃ n1 n2 n3 n4, acceptor_open port n = (Val tt, n1) ∧
     acceptor_reuse_address port n1 = (Val tt, n2) ∧ acceptor_bind port n2 = (Val tt, n3) ∧
     acceptor_listen port n3 = (Val tt, n4)) →
  ∃ n, run_all (λ '(port, svc),
    on_network (acceptor_open port) ;;;
    on_network (acceptor_reuse_address port) ;;;
    on_network (acceptor_bind port) ;;;
    on_network (acceptor_listen port) ;;;
    acceptMore port) l m =
      (Val tt, set_network n (set_accepting (accepting m ++ l.*1) m)).
Proof.
  induction l as [|[port svc] l IH]; intros m Hop.
  - exists (network m). simpl. unfold ret. rewrite app_nil_r. by destruct m.
  - destruct (Hop port (network m)) as (n1 & n2 & n3 & n4 & H1 & H2 & H3 & H4); [by left|].
    cbn [run_all]. set (m' := set_accepting (accepting m ++ [port]) (set_network n4 m)).
    destruct (IH m') as [n Hn]; [intros p n Hp; apply Hop; by right|].
    exists n. rewrite (bind_val _ _ _ tt m'); cycle 1.
    { unfold on_network, bind, zoom. simpl. by rewrite H1; simpl; rewrite H2; simpl; rewrite H3; simpl; rewrite H4. }
    rewrite Hn. unfold m', set_network, set_accepting. simpl. by rewrite <-app_assoc.
Qed.

Lemma accepted_run port svc e peer m :
  port ∈ accepting m → map_find port (serviceMap m) = Some svc →
  accepted port e peer m =
    on_accept port svc e peer (set_accepting (filter (λ p, p ≠ port) (accepting m)) m).
Proof.
  intros Hin Hf. unfold accepted. unfold get. unfold bind at 1. rewrite decide_True by done.
  by rewrite Hf.
Qed.

(** ** Properties *)

(** Registering a service on a free port adds it to the map and changes
    nothing else. On a port that is taken the program does not get as far as the
    exception it means to throw: the service is gone when its name is asked for. *)
Theorem registerService_correct svc m :
  sorted (serviceMap m) →
  (map_find (getPort svc) (serviceMap m) = None →
     ∃ m', registerService svc m = (Val tt, m') ∧ sorted (serviceMap m') ∧
       (∀ q, map_find q (serviceMap m') =
          if getPort svc =? q then Some svc else map_find q (serviceMap m)) ∧
       accepting m' = accepting m) ∧
  (map_find (getPort svc) (serviceMap m) ≠ None →
     registerService svc m = (Fault DanglingReference, m)).
Proof.
  intros Hs. unfold registerService. run_simpl. split; intros Hf.
  - rewrite Hf. eexists. split; [done|]. split_and!; simpl; [by apply map_insert_sorted| |done].
    intros q. by apply map_find_insert.
  - by destruct (map_find _ _).
Qed.

(** [start] listens on every registered port, in ascending order, with one
    accept pending on each. An accepted socket goes to the service of its port,
    after which the port accepts again; but an accept error, or an exception from
    the service, ends the acceptance of connections on that port for good. *)
Theorem service_accepts m port svc peer e :
  (∀ port n, port ∈ (serviceMap m).*1 → ∃ n1 n2 n3 n4, acceptor_open port n = (Val tt, n1) ∧
     acceptor_reuse_address port n1 = (Val tt, n2) ∧ acceptor_bind port n2 = (Val tt, n3) ∧
     acceptor_listen port n3 = (Val tt, n4)) →
  accepting m = [] → map_find port (serviceMap m) = Some svc → port ∈ (serviceMap m).*1 →
  ∃ m', start m = (Val tt, m') ∧ accepting m' = (serviceMap m).*1 ∧ serviceMap m' = serviceMap m ∧
    let r := accepted port e peer m' in
    (e ≠ Connection.success → (∃ x, r.1 = Exc x) ∧ port ∉ accepting r.2) ∧
    (e = Connection.success →
       match incomingConnection svc peer (outside m) with
       | (Val _, w) => r.1 = Val tt ∧ outside r.2 = w ∧ port ∈ accepting r.2
       | (Exc x, w) => r.1 = Exc x ∧ outside r.2 = w ∧ port ∉ accepting r.2
       | (Fault f, w) => r.1 = Fault f
       end).
Proof.
  intros Hop Hacc Hf Hin. destruct (start_run (serviceMap m) m Hop) as [n Hn].
  eexists. split; [exact Hn|]. rewrite Hacc. simpl. split; [done|]. split; [done|].
  assert (port ∉ filter (λ p, p ≠ port) (serviceMap m).*1) as Hgone by by intros [? _]%list_elem_of_filter.
  rewrite !(accepted_run port svc) by done. split.
  - intros He. destruct e; [done|split; [by eexists|done]..].
  - intros ->. simpl. unfold bind, zoom. simpl.
    destruct (incomingConnection svc peer (outside m)) as [[[]|x|f] w]; simpl; [|by split_and!|done].
    split_and!; [done..|]. apply elem_of_app. right. by left.
Qed.
End manager.

(** ** [BasicService] *)

Section basic.
Context `{Platform} `{Connection.Asio} `{Connection.Traits} `{Connection.Logging} {P : Type}
  `{Connection.BaseProtocol P}.

(** [BasicService::incomingConnection]: the new connection's world. The pure
    virtual [makeProtocol] makes the protocol object; [junk] is the message's
    uninitialised buffer. *)
Definition incomingConnection (makeProtocol : P) (junk : Connection.InMsg) (s : Connection.socket) :
    outcome unit * Connection.world P :=
  Connection.start (Connection.accepted s junk makeProtocol).
End basic.

(** ** Witnesses *)

(** A network where every operation succeeds; services are their ports, and the
    rest of the program counts the sockets it was given. *)
Definition toy_network : Network := {|
  net := unit;
  acceptor_open := λ _, ret tt;
  acceptor_reuse_address := λ _, ret tt;
  acceptor_bind := λ _, ret tt;
  acceptor_listen := λ _, ret tt;
|}.

Section witnesses.
#[local] Existing Instance toy_network.

Definition login_and_game : manager (service:=Z) (W:=nat) :=
  mk [(7171, 7171); (7172, 7172)] [] (tt : @net toy_network) 0%nat.

Lemma registerService_correct_witness :
  (∃ m', registerService id 80 login_and_game = (Val tt, m') ∧ map_find 80 (serviceMap m') = Some 80) ∧
  registerService id 7171 login_and_game = (Fault DanglingReference, login_and_game).
Proof.
  assert (sorted (serviceMap login_and_game)) as Hs by (repeat constructor).
  destruct (registerService_correct id 80 login_and_game Hs) as [Hnew _].
  destruct (registerService_correct id 7171 login_and_game Hs) as [_ Hdup].
  split; [|by apply Hdup]. destruct (Hnew eq_refl) as (m' & Hr & _ & Hf & _).
  exists m'. split; [done|]. by rewrite Hf.
Defined.

Lemma service_accepts_witness :
  let incoming (svc : Z) (s : unit) : prog nat unit := modify S in
  ∃ m', start login_and_game = (Val tt, m') ∧ accepting m' = [7171; 7172] ∧
    outside (accepted incoming 7172 Connection.success tt m').2 = 1%nat.
Proof.
  intros incoming.
  destruct (service_accepts incoming login_and_game 7172 7172 tt Connection.success)
    as (m' & Hr & Ha & _ & _ & Hs).
  - intros port n _. by exists tt, tt, tt, tt; destruct n.
  - done.
  - done.
  - right. left.
  - exists m'. destruct (Hs eq_refl) as (_ & Ho & _). done.
Defined.
End witnesses.
End Service.
