(* ===== verification/LoginServer.v ===== *)
(** * A login server: the composition of Service, Connection and Protocol

    The connections a service makes for the account login protocol: the events of
    each, of the operating system and of the crypto service that decrypts the first
    message, in any order. *)

From S2P Require Import Prelude Platform Adler Xtea Rsa InMessage OutMessage Connection Protocol Service.

Module LoginServer.

#[export] Existing Instances Connection.standard_traits Protocol.base_protocol.

Section server.
Context `{Platform} `{Connection.Asio} `{Connection.Logging} `{Rsa.OpenSSL} `{Protocol.LoginEnv}.
Context (rsa : Rsa.key Rsa.bignum).
Abbreviation world := (Connection.world Protocol.protocol).
Abbreviation io A := (prog world A).
Implicit Types w : world.

(** [AccountLoginProtocol]'s handlers. [k] is what an accepted message leads to;
    [free]: the crypto service's strand runs the decryption inside the call; [e] is the
    value of the variable that has not been assigned. A decryption left to the crypto
    service holds a pointer to the protocol object. *)
Definition handleFirstMessage_with (k : io unit) (free : bool) (e : Protocol.LoginError) : io unit :=
  Protocol.handleFirstMessage (Protocol.onFirstMessage_with rsa k free e ;;; ret tt).
Definition handleFirstMessage : bool → Protocol.LoginError → io unit :=
  handleFirstMessage_with Protocol.readCredentials.
Definition handleMessage : io unit := Protocol.handleMessage Protocol.onMessage.

(** Only the connection, its protocol and the operating system act on a connection:
    the service lets its pointer go when it has started it. *)
Definition internal (ev : Connection.event) : bool :=
  match ev with
  | Connection.Posted | Connection.ReadDone _ _ | Connection.WriteDone _
  | Connection.ReadTimer _ _ | Connection.WriteTimer _ _ => true
  | _ => false
  end.

Inductive step : world → world → Prop :=
  | step_connection ev free e r w w' :
      internal ev = true → Connection.possible ev w →
      Connection.handle (handleFirstMessage free e) handleMessage ev w = (r, w') →
      (∀ f, r ≠ Fault f) → step w w'
  | step_crypto off r w w' :
      Connection.proto_refs w ≠ 0%nat →
      Protocol.crypto_runs rsa Protocol.readCredentials off w = (r, w') →
      (∀ f, r ≠ Fault f) → step w w'.

(** The service was given a socket. *)
Definition accepted w : Prop :=
  ∃ p junk s, Service.incomingConnection p junk s = (Val tt, w).

(** ** Nothing is ever sent *)

Record quiet w : Prop := {
  q_tx : Connection.tx w = ([], [], [], [], []);
  q_posted : Forall (.= Connection.DoStop) (Connection.posted w);
  q_refs : Connection.proto_refs w = 0%nat ∨ Protocol.read_closed w;
}.

Lemma quiet_modify f : (∀ w, quiet w → quiet (f w)) → preserves quiet (modify f).
Proof. apply preserves_modify. Qed.

Lemma quiet_self : preserves quiet (Connection.self (P:=Protocol.protocol)).
Proof. intros w Hw. unfold Connection.self. run_simpl. by destruct (Connection.alive w). Qed.

Lemma quiet_update f : (∀ w, quiet w → quiet (f w)) → preserves quiet (Connection.update f).
Proof. intros Hf. apply preserves_bind; [apply quiet_self|]. intros _. by apply quiet_modify. Qed.

Lemma quiet_zoom {T A} (g : world → T) put' (m : prog T A) :
  (∀ t w, quiet w → quiet (put' t w)) → preserves quiet (zoom g put' m).
Proof. intros Hp w Hw. unfold zoom. destruct (m (g w)). by apply Hp. Qed.

(** Changes of the members that [quiet] does not mention. *)
Ltac unmentioned := by intros; match goal with Hq : quiet _ |- _ => destruct Hq; by split end.

Lemma quiet_on_peer {A} (m : prog Connection.socket A) :
  preserves quiet (Connection.on_peer (P:=Protocol.protocol) m).
Proof. apply preserves_bind; [apply quiet_self|]. intros _. apply quiet_zoom. unmentioned. Qed.
Lemma quiet_on_inMsg {A} (m : prog Connection.InMsg A) :
  preserves quiet (Connection.on_inMsg (P:=Protocol.protocol) m).
Proof. apply preserves_bind; [apply quiet_self|]. intros _. apply quiet_zoom. unmentioned. Qed.
Lemma quiet_on_object {A} (m : prog Protocol.protocol A) : preserves quiet (Connection.on_object m).
Proof.
  apply preserves_bind; [apply preserves_get|]. intros w. apply preserves_if; [|apply preserves_fail].
  apply quiet_zoom. unmentioned.
Qed.
#[local] Hint Resolve quiet_self quiet_on_peer quiet_on_inMsg quiet_on_object : prog.

(** Follows the structure of a program down to its changes of the state. *)
Ltac quiet :=
  repeat first
    [ solve [auto 2 with prog nocore]
    | apply quiet_update; solve [unmentioned]
    | apply quiet_modify; solve [unmentioned]
    | apply preserves_bind; [|intros]
    | apply preserves_try; [|intros]
    | apply preserves_if
    | case_match ].

Lemma quiet_release : preserves quiet (Connection.release (P:=Protocol.protocol)).
Proof.
  unfold Connection.release, Connection.destroy, Connection.isStopped, assertM,
    Connection.cancel_readTimer, Connection.cancel_writeTimer. quiet.
Qed.
#[local] Hint Resolve quiet_release : prog.

Lemma quiet_logInfo : preserves quiet (Connection.logInfo (P:=Protocol.protocol)).
Proof. unfold Connection.logInfo, Connection.getPeerAddress. quiet. Qed.
Lemma quiet_VLOG m : preserves quiet m → preserves quiet (Connection.VLOG (P:=Protocol.protocol) m).
Proof. intros. unfold Connection.VLOG. quiet. Qed.
Lemma quiet_DLOG m : preserves quiet m → preserves quiet (Connection.DLOG (P:=Protocol.protocol) m).
Proof. intros. unfold Connection.DLOG. quiet. Qed.
Lemma quiet_unless e m :
  preserves quiet m → preserves quiet (Connection.unless_aborted (P:=Protocol.protocol) e m).
Proof. intros. unfold Connection.unless_aborted. quiet. Qed.
#[local] Hint Resolve quiet_logInfo quiet_VLOG quiet_DLOG quiet_unless : prog.

Lemma quiet_do_stop : preserves quiet (Connection.do_stop (P:=Protocol.protocol)).
Proof.
  unfold Connection.do_stop, Connection.reset_protocol, Connection.cancel_readTimer,
    Connection.cancel_writeTimer. quiet.
  apply quiet_modify. intros w [Ht Hp Hr]. split; [done..|]. by right.
Qed.
#[local] Hint Resolve quiet_do_stop : prog.

Lemma quiet_stop : preserves quiet (Connection.stop (P:=Protocol.protocol)).
Proof.
  unfold Connection.stop, Connection.dispatch. quiet.
  apply quiet_modify. intros w [Ht Hp Hr]. split; [done| |done]. apply Forall_app. by repeat constructor.
Qed.
#[local] Hint Resolve quiet_stop : prog.

Lemma quiet_abort : preserves quiet (Connection.abort (P:=Protocol.protocol)).
Proof. unfold Connection.abort. quiet. Qed.
#[local] Hint Resolve quiet_abort : prog.
Lemma quiet_abort_with e : preserves quiet (Connection.abort_with (P:=Protocol.protocol) e).
Proof. unfold Connection.abort_with. quiet. Qed.
#[local] Hint Resolve quiet_abort_with : prog.

Lemma quiet_parse first : preserves quiet (Connection.parseIncomingMessage (P:=Protocol.protocol) first).
Proof.
  unfold Connection.parseIncomingMessage, Connection.updateReadTimer, Connection.asyncRead,
    Connection.waitOnReadTimer, Connection.cancel_readTimer. quiet.
Qed.
#[local] Hint Resolve quiet_parse : prog.

(** ** The protocol's handlers *)

Lemma quiet_conn {A} (m : io A) : preserves quiet m → preserves quiet (Protocol.conn m).
Proof. intros. unfold Protocol.conn. quiet. Qed.
#[local] Hint Resolve quiet_conn : prog.

Lemma quiet_isAlive : preserves quiet (Connection.isAlive (P:=Protocol.protocol)).
Proof. unfold Connection.isAlive, Connection.isStopped. quiet. Qed.
Lemma quiet_getPeerAddress : preserves quiet (Connection.getPeerAddress (P:=Protocol.protocol)).
Proof. unfold Connection.getPeerAddress. quiet. Qed.
Lemma quiet_droppingLogInfo : preserves quiet Protocol.droppingLogInfo.
Proof. unfold Protocol.droppingLogInfo, Connection.droppingLogInfo. quiet. Qed.
#[local] Hint Resolve quiet_isAlive quiet_getPeerAddress quiet_droppingLogInfo : prog.

Lemma quiet_handlePacketException : preserves quiet Protocol.handlePacketException.
Proof. unfold Protocol.handlePacketException. quiet. Qed.
#[local] Hint Resolve quiet_handlePacketException : prog.

Lemma quiet_catch_packet m : preserves quiet m → preserves quiet (Protocol.catch_packet m).
Proof. intros. unfold Protocol.catch_packet. quiet. Qed.
Lemma quiet_wrapHandler h : preserves quiet h → preserves quiet (Protocol.wrapHandler h).
Proof. intros. unfold Protocol.wrapHandler. quiet. Qed.
#[local] Hint Resolve quiet_catch_packet quiet_wrapHandler : prog.

Lemma quiet_unshare : preserves quiet Protocol.unshare.
Proof.
  unfold Protocol.unshare. quiet.
  apply quiet_modify. intros w [Ht Hp Hr]. split; [done..|]. simpl. destruct Hr as [->|]; auto.
Qed.
#[local] Hint Resolve quiet_unshare : prog.

(** The decryption with nothing to follow it. *)
Lemma quiet_rsa_decrypted off : preserves quiet (Protocol.rsa_decrypted rsa (ret tt) off).
Proof. unfold Protocol.rsa_decrypted, Protocol.decrypted, Protocol.setXtea. quiet. Qed.
#[local] Hint Resolve quiet_rsa_decrypted : prog.

Lemma quiet_crypto_runs k off w :
  Protocol.read_closed w → quiet w → quiet (Protocol.crypto_runs rsa k off w).2.
Proof.
  intros Hc. rewrite (Protocol.crypto_runs_agree rsa k (ret tt)) by done. revert w Hc.
  assert (preserves quiet (Protocol.crypto_runs rsa (ret tt) off)) as Hq; [|auto].
  unfold Protocol.crypto_runs. quiet.
Qed.

(** [share] follows [stopReceiving], so what it counts is held on a connection that no
    longer receives. *)
Lemma quiet_before_decryption : preserves quiet Protocol.before_decryption.
Proof.
  assert (preserves quiet (Protocol.conn Connection.stopReceiving)) as Hstop.
  { apply quiet_conn. unfold Connection.stopReceiving. apply preserves_bind; [|quiet].
    apply quiet_update. intros w [Ht Hp Hr]. split; [done..|].
    right. change (Z.testbit (Z.lor (Connection.closeStatus w) Connection.ReadClosed) 0 = true).
    by rewrite Z.lor_spec, orb_true_r. }
  assert (∀ A (m : prog Connection.InMsg A),
    preserves (λ w, quiet w ∧ Protocol.read_closed w) (Connection.on_inMsg m)) as Hin.
  { intros A m w [Hq Hc]. split; [by apply quiet_on_inMsg|by apply Protocol.read_closed_on_inMsg]. }
  intros w Hw. unfold Protocol.before_decryption. unfold bind at 1.
  specialize (Hstop w Hw). pose proof (Protocol.stopReceiving_closes w) as Hc.
  destruct (Protocol.conn Connection.stopReceiving w) as [[a|e|f] w1]; [|done..].
  specialize (Hc a w1 eq_refl). revert w1 Hstop Hc. 
  assert (preserves (λ w, quiet w ∧ Protocol.read_closed w) (Protocol.validateIpAndVersion ;;;
    Connection.on_inMsg (InMessage.skipBytes 12) ;;; Protocol.share)) as Hrest.
  { unfold Protocol.validateIpAndVersion, Protocol.share.
    repeat first [apply Hin | apply preserves_ret | apply preserves_bind; [|intros]].
    apply preserves_modify. intros w1 [[Ht Hp Hr] Hc]. split; [|done]. split; [done..|]. by right. }
  intros w1 Hq Hc. by apply Hrest.
Qed.

Lemma quiet_onFirstMessage k free e :
  preserves quiet (Protocol.onFirstMessage_with rsa k free e).
Proof.
  assert (preserves quiet (Protocol.onFirstMessage_with rsa (ret tt) free e)) as Hq.
  { intros w Hw. rewrite Protocol.onFirstMessage_before. revert w Hw.
    apply preserves_bind; [apply quiet_before_decryption|]. intros _.
    unfold Protocol.decryptMessageAndSetXta. quiet. }
  intros w Hw. rewrite (Protocol.onFirstMessage_agree rsa k (ret tt)). by apply Hq.
Qed.
#[local] Hint Resolve quiet_onFirstMessage : prog.

Lemma quiet_handleFirstMessage k free e : preserves quiet (handleFirstMessage_with k free e).
Proof. unfold handleFirstMessage_with, Protocol.handleFirstMessage. quiet. Qed.
Lemma quiet_handleMessage : preserves quiet handleMessage.
Proof. unfold handleMessage, Protocol.handleMessage, Protocol.onMessage, assertM. quiet. Qed.
#[local] Hint Resolve quiet_handleFirstMessage quiet_handleMessage : prog.

(** ** Every step keeps the connection quiet *)

Lemma quiet_dispatched first : preserves quiet (Connection.record (P:=Protocol.protocol)
  (Connection.Dispatched first)).
Proof.
  intros w [Ht Hp Hr]. split; [|done..].
  by rewrite (Connection.keeps_record_dispatched first w).
Qed.
#[local] Hint Resolve quiet_dispatched : prog.

Lemma quiet_strand m : preserves quiet m → preserves quiet (Connection.strand (P:=Protocol.protocol) m).
Proof.
  intros Hm w Hw. unfold Connection.strand. specialize (Hm (Connection.set_in_strand true w)).
  destruct (m _) as [r w']; simpl in *.
  assert (quiet w') as Hq by (apply Hm; unmentioned). unmentioned.
Qed.
#[local] Hint Resolve quiet_strand : prog.

Lemma quiet_on_read free e body ec :
  preserves quiet (Connection.on_read (handleFirstMessage free e) handleMessage body ec).
Proof.
  unfold Connection.on_read, Connection.after_header, Connection.after_body, Connection.sendInMsg,
    Connection.isReceiving, Connection.updateReadTimer, Connection.waitOnReadTimer,
    Connection.cancel_readTimer, Connection.asyncRead, Connection.droppingLogInfo,
    Connection.DVLOG, handleFirstMessage.
  quiet.
Qed.
#[local] Hint Resolve quiet_on_read : prog.

Lemma quiet_on_timer e : preserves quiet (Connection.on_timer (P:=Protocol.protocol) e).
Proof. unfold Connection.on_timer. quiet. Qed.
#[local] Hint Resolve quiet_on_timer : prog.

Lemma quiet_timer tm set_tm i fires :
  (∀ l w, quiet w → quiet (set_tm l w)) →
  preserves quiet (Connection.timer (P:=Protocol.protocol) tm set_tm i fires).
Proof.
  intros Hs. unfold Connection.timer. quiet; by apply quiet_modify; auto.
Qed.

Lemma quiet_handle free e ev : internal ev = true →
  preserves quiet (Connection.handle (handleFirstMessage free e) handleMessage ev).
Proof.
  destruct ev as [| |c| | | |ec bytes|ec|i fires|i fires]; try done; intros _;
    cbn [Connection.handle].
  - intros w Hw. unfold get, bind at 1. pose proof (q_posted w Hw) as Hp.
    destruct (Connection.posted w) as [|c cs]; [done|]. inversion Hp as [|? ? -> Hcs]; subst.
    unfold modify, bind. apply quiet_strand; [apply quiet_do_stop|]. destruct Hw. by split.
  - unfold Connection.received. quiet.
  - intros w Hw. pose proof (q_tx w Hw) as Ht. unfold Connection.tx in Ht.
    injection Ht as _ Ht _ _ _. unfold get, bind at 1. by rewrite Ht.
  - apply quiet_timer. unmentioned.
  - apply quiet_timer. unmentioned.
Qed.

Lemma quiet_start : preserves quiet (Connection.start (P:=Protocol.protocol)).
Proof. unfold Connection.start, Connection.DVLOG. quiet. Qed.

Lemma quiet_step w w' : quiet w → step w w' → quiet w'.
Proof.
  intros Hw Hs. destruct Hs as [ev free e r w0 w1 Hi _ Hh _|off r w0 w1 Hr Hc _].
  - pose proof (quiet_handle free e ev Hi w0 Hw) as Hq. by rewrite Hh in Hq.
  - destruct (q_refs w0 Hw) as [?|Hclosed]; [done|].
    pose proof (quiet_crypto_runs Protocol.readCredentials off w0 Hclosed Hw) as Hq.
    by rewrite Hc in Hq.
Qed.

(** C7. A login server never says anything. Whatever a client sends, whatever OpenSSL,
    the operating system, the hooks and the database answer, and in whatever order the
    events of the connection and of the crypto service come, no message is ever queued
    and no write ever started on a connection the service made for a client. *)
Theorem login_server_is_silent w :
  reachable accepted step w →
  Connection.outMsgQueue w = [] ∧ Connection.writes w = [] ∧
  Connection.accepted_of w = [] ∧ Connection.started_of w = [].
Proof.
  intros Hr. assert (quiet w) as Hq; [|by injection (q_tx w Hq)].
  revert w Hr. apply reachable_inv; [|apply quiet_step].
  intros w (p & junk & s & Hs). unfold Service.incomingConnection in Hs.
  assert (quiet (Connection.accepted s junk p)) as Hq by (split; [done..|by left]).
  apply quiet_start in Hq. by rewrite Hs in Hq.
Qed.

End server.
(** ** A login, step by step *)

Section run.
Context `{Platform} `{Connection.Asio} `{Connection.Logging} `{Rsa.OpenSSL} `{Protocol.LoginEnv}.
Context (rsa : Rsa.key Rsa.bignum).
Context (Hndebug : NDEBUG = true) (Hverbose : Connection.verbose = false).
Abbreviation world := (Connection.world Protocol.protocol).
Abbreviation io A := (prog world A).
Implicit Types (w : world) (i : InMessage.msg).

(** The first message as it is read: its position moves, the rest stays. *)
Lemma ready_at k i : InMessage.ready i → 0 ≤ k ≤ InMessage.size i → InMessage.ready (InMessage.set_pos k i).
Proof. intros [Hb Hp Hs Hc]. by split. Qed.

Lemma length_at k i : InMessage.ready i → 0 ≤ k ≤ InMessage.size i →
  Z.of_nat (length (InMessage.remaining (InMessage.set_pos k i))) = InMessage.size i - k.
Proof. intros Hi Hk. by rewrite InMessage.length_remaining by by apply ready_at. Qed.

Lemma skip_at k n i : InMessage.ready i → 0 ≤ k → 0 ≤ n → k + n ≤ InMessage.size i →
  InMessage.skipBytes n (InMessage.set_pos k i) = (Val tt, InMessage.set_pos (k + n) i).
Proof.
  intros Hi Hk Hn Hs. pose proof (InMessage.ready_size i Hi). pose proof (InMessage.ready_cap i Hi).
  unfold InMessage.skipBytes, InMessage.movePos. run_simpl. rewrite u32_small by lia.
  by destruct (Z.ltb_spec (InMessage.size i) (k + n)); [lia|].
Qed.

Lemma getU16_at k i : InMessage.ready i → 0 ≤ k → k + 2 ≤ InMessage.size i →
  ∃ v, InMessage.getU16 (InMessage.set_pos k i) = (Val v, InMessage.set_pos (k + 2) i).
Proof.
  intros Hi Hk Hs. pose proof (length_at k i Hi).
  rewrite InMessage.getU16_run by (apply ready_at; [done|lia]).
  rewrite decide_True by lia. by eexists.
Qed.

(** A message with a right checksum, in an object whose size is [2 + n]. *)
Record checked (body : list Z) i : Prop := {
  ck_ready : InMessage.ready i;
  ck_pos : InMessage.pos i = 2;
  ck_remaining : InMessage.remaining i = body;
  ck_length : 149 ≤ Z.of_nat (length body) ≤ 15340;
  ck_sum : dec (take 4 body) = Adler.rfc1950 (drop 4 body);
}.

Lemma checked_size body i : checked body i → InMessage.size i = 2 + Z.of_nat (length body).
Proof. intros [Hi Hp <- _ _]. pose proof (InMessage.length_remaining i Hi). lia. Qed.

Lemma doChecksum_checked body i : checked body i →
  InMessage.doChecksum i = (Val tt, InMessage.set_pos 6 i).
Proof.
  intros [Hi Hp Hr Hl Hs]. rewrite InMessage.doChecksum_run by (rewrite ?Hr; done || lia).
  by rewrite Hr, Hs, Z.eqb_refl, Hp.
Qed.

Lemma remaining_23 body i : checked body i →
  InMessage.remaining (InMessage.set_pos 23 i) = drop 21 body.
Proof.
  intros Hc. pose proof (checked_size body i Hc). destruct Hc as [Hi Hp Hr Hl Hs].
  pose proof (InMessage.remaining_advance i 21) as Ha. rewrite Hp, Hr in Ha.
  apply Ha; [done|lia].
Qed.

(** The state before the decryption, from the one with the checksum verified. *)
Definition before w i s1 : world :=
  Connection.set_proto_refs 1 (Connection.set_inMsg (InMessage.set_pos 23 i)
    (Connection.set_peer s1 (Connection.set_closeStatus 1 w))).

Lemma before_decryption_run w body i s1 :
  checked body i → Protocol.attached w → Connection.alive w = true →
  Connection.closeStatus w = 0 → Connection.proto_refs w = 0%nat →
  Connection.shutdown Connection.shutdown_receive (Connection.peer w) = (Val tt, s1) →
  Connection.inMsg w = InMessage.set_pos 6 i →
  Protocol.before_decryption w = (Val tt, before w i s1).
Proof.
  intros Hi Hat Ha Hc Hp Hs Hm. pose proof (checked_size body i Hi). pose proof (ck_ready _ _ Hi).
  pose proof (ck_length _ _ Hi). unfold Protocol.before_decryption.
  unfold bind at 1. rewrite Protocol.conn_run by done. unfold Connection.stopReceiving.
  erewrite bind_val by by apply Connection.update_run. rewrite Hc.
  change (Z.lor 0 Connection.ReadClosed) with 1.
  rewrite (Connection.on_peer_run _ (Connection.set_closeStatus 1 w) _ _ Ha Hs).
  unfold Protocol.validateIpAndVersion. rewrite bind_assoc.
  erewrite bind_val by (apply Connection.on_inMsg_run; [done|]; simpl; rewrite Hm;
    by apply skip_at; lia || done).
  change (6 + 3) with 9. destruct (getU16_at 9 i) as [v Hv]; [done|lia..|].
  rewrite bind_assoc. erewrite bind_val by by apply Connection.on_inMsg_run.
  change (9 + 2) with 11. unfold ret at 1. unfold bind at 1.
  erewrite bind_val by (apply Connection.on_inMsg_run; [done|]; simpl; by apply skip_at; lia || done).
  change (11 + 12) with 23. unfold Protocol.share, modify. simpl. by rewrite Hp.
Qed.

(** The connection is half closed: a wrapped handler stops it. *)
Lemma wrapHandler_closed h w :
  Protocol.attached w → Connection.alive w = true → Connection.closeStatus w = 1 →
  Protocol.wrapHandler h w = Connection.stop w.
Proof.
  intros Hat Ha Hc. unfold Protocol.wrapHandler.
  erewrite bind_val by (rewrite Protocol.conn_run by done; by apply Protocol.isAlive_run).
  rewrite Hc. simpl. by apply Protocol.conn_run.
Qed.

(** The decryption ends with the connection being told to stop. *)
Lemma rsa_decrypted_closed k w body i :
  checked body i → Protocol.attached w → Connection.alive w = true →
  Connection.closeStatus w = 1 → Connection.inMsg w = InMessage.set_pos 23 i →
  (Rsa.RSA_private_decrypt rsa (take 128 (drop 21 body))).1 ≠ 0 →
  ∃ m, Protocol.rsa_decrypted rsa k 23 w =
    Connection.stop (@Connection.set_inMsg _ Connection.standard_traits _ m w).
Proof.
  intros Hi Hat Ha Hc Hm Hrsa. pose proof (checked_size body i Hi). pose proof (ck_length _ _ Hi).
  pose proof (ck_ready _ _ Hi) as Hrd.
  destruct (InMessage.rsaDecrypted_returns rsa (InMessage.set_pos 23 i)) as (b & m & Hd);
    rewrite ?(remaining_23 body); try done; [apply ready_at; [done|lia]|rewrite length_drop; lia|].
  exists m. unfold Protocol.rsa_decrypted.
  erewrite bind_val by (apply Connection.on_inMsg_run; [done|]; rewrite Hm; exact Hd).
  by apply wrapHandler_closed.
Qed.

Lemma unshare_destroys w :
  Connection.alive w = true → Connection.closeStatus w = 3 → Connection.protocol w = false →
  Connection.conn_refs w = 0%nat → Connection.proto_refs w = 1%nat → Connection.writes w = [] →
  ∃ w', Protocol.unshare w = (Val tt, w') ∧ Connection.alive w' = false.
Proof.
  intros Ha Hc Hp Hr Hpr Hw. unfold Protocol.unshare, modify, get. unfold bind at 1. unfold bind at 1.
  simpl. rewrite Hpr, Hp, andb_false_r. simpl. unfold bind at 1.
  set (w1 := Connection.set_object_alive false _).
  assert (Connection.owned w1 = false) as Ho by (unfold Connection.owned; simpl; by rewrite Hr, Hw).
  rewrite Connection.release_run by done. simpl. rewrite Hc, orb_true_r. by eexists.
Qed.

(** [stop] inside the strand while a decryption holds the protocol object. *)
Lemma stop_shared w s2 s3 :
  Connection.in_strand w = true → Connection.alive w = true → Connection.proto_refs w = 1%nat →
  Connection.shutdown Connection.shutdown_both (Connection.peer w) = (Val tt, s2) →
  Connection.close s2 = (Val tt, s3) →
  Connection.stop w = (Val tt, Connection.set_protocol false (Connection.set_peer s3
    (Connection.set_peer s2 (Connection.stopped_timers w)))).
Proof.
  intros Hst Ha Hp Hs Hc. rewrite Connection.stop_in_strand, Connection.do_stop_run by (done || by left).
  set (w0 := Connection.stopped_timers w).
  rewrite (bind_val _ _ _ _ _ (Connection.on_peer_run _ w0 _ _ Ha Hs)).
  rewrite (bind_val _ _ _ _ _ (Connection.on_peer_run _ (Connection.set_peer s2 w0) _ _ Ha Hc)).
  unfold Connection.reset_protocol. erewrite bind_val by by apply Connection.update_run.
  unfold get. unfold bind at 1. simpl. by rewrite Hp.
Qed.

Lemma peek_run w body i :
  checked body i → Connection.alive w = true → Connection.inMsg w = InMessage.set_pos 23 i →
  Connection.on_inMsg (InMessage.peekRawChunckAs 128) w = (Val 23, w).
Proof.
  intros Hi Ha Hm. pose proof (checked_size body i Hi). pose proof (ck_length _ _ Hi).
  rewrite (Connection.on_inMsg_run _ _ (Val 23) (Connection.inMsg w) Ha); [by destruct w|].
  rewrite Hm. unfold InMessage.peekRawChunckAs, get, bind. simpl. rewrite u32_small by lia.
  by destruct (Z.ltb_spec (InMessage.size i) (23 + 128)); [lia|].
Qed.

(** The handler of the first message when the crypto service is busy: it leaves the
    decryption behind. *)
Lemma first_message_busy w body i s1 e :
  checked body i → Protocol.attached w → Connection.alive w = true →
  Connection.closeStatus w = 0 → Connection.proto_refs w = 0%nat →
  Connection.shutdown Connection.shutdown_receive (Connection.peer w) = (Val tt, s1) →
  Connection.inMsg w = i →
  handleFirstMessage rsa false e w = (Val tt, before w i s1).
Proof.
  intros Hi Hat Ha Hc Hp Hs Hm. pose proof (checked_size body i Hi). pose proof (ck_length _ _ Hi).
  unfold handleFirstMessage, handleFirstMessage_with, Protocol.handleFirstMessage,
    Protocol.catch_packet, try_catch.
  erewrite bind_val by (apply Connection.on_inMsg_run; [done|]; rewrite Hm; by eapply doChecksum_checked).
  set (w1 := @Connection.set_inMsg _ Connection.standard_traits _ _ _).
  unfold bind at 1. rewrite Protocol.onFirstMessage_before.
  erewrite bind_val by by apply (before_decryption_run w1 body i s1).
  unfold try_catch, Protocol.decryptMessageAndSetXta. unfold bind at 1.
  by rewrite (bind_val _ _ _ _ _ (peek_run (before w1 i s1) body i Hi Ha eq_refl)).
Qed.

(** The handler of the first message when the crypto service is free: both objects are
    destroyed when it returns. *)
Lemma first_message_free w body i s1 s2 s3 e :
  checked body i → Protocol.attached w → Connection.alive w = true →
  Connection.closeStatus w = 0 → Connection.proto_refs w = 0%nat →
  Connection.conn_refs w = 0%nat → Connection.writes w = [] → Connection.in_strand w = true →
  Connection.shutdown Connection.shutdown_receive (Connection.peer w) = (Val tt, s1) →
  Connection.shutdown Connection.shutdown_both s1 = (Val tt, s2) →
  Connection.close s2 = (Val tt, s3) →
  (Rsa.RSA_private_decrypt rsa (take 128 (drop 21 body))).1 ≠ 0 →
  Connection.inMsg w = i →
  ∃ w', handleFirstMessage rsa true e w = (Val tt, w') ∧ Connection.alive w' = false.
Proof.
  intros Hi Hat Ha Hc Hp Hcr Hw Hst Hs1 Hs2 Hs3 Hrsa Hm.
  pose proof (checked_size body i Hi). pose proof (ck_length _ _ Hi).
  unfold handleFirstMessage, handleFirstMessage_with, Protocol.handleFirstMessage,
    Protocol.catch_packet, try_catch.
  erewrite bind_val by (apply Connection.on_inMsg_run; [done|]; rewrite Hm; by eapply doChecksum_checked).
  set (w1 := @Connection.set_inMsg _ Connection.standard_traits _ _ _).
  unfold bind at 1. rewrite Protocol.onFirstMessage_before.
  erewrite bind_val by by apply (before_decryption_run w1 body i s1).
  set (w2 := before w1 i s1).
  destruct (rsa_decrypted_closed Protocol.readCredentials w2 body i) as [m Hd]; try done.
  rewrite (stop_shared _ s2 s3) in Hd by done. set (w3 := Connection.set_protocol false _) in Hd.
  destruct (unshare_destroys w3) as (w4 & Hu & Hdead); try done.
  exists w4. split; [|done].
  assert ((let! pending := Protocol.decryptMessageAndSetXta rsa true Protocol.readCredentials in
           match pending with Some _ => ret pending | None => Protocol.unshare ;;; ret None end) w2 =
          (Val None, w4)) as Hrun.
  { unfold Protocol.decryptMessageAndSetXta. rewrite bind_assoc.
    rewrite (bind_val _ _ _ _ _ (peek_run w2 body i Hi Ha eq_refl)), bind_assoc.
    rewrite (bind_val _ _ _ _ _ Hd). unfold ret at 1. unfold bind at 1.
    by rewrite (bind_val _ _ _ _ _ Hu). }
  unfold try_catch. by rewrite Hrun.
Qed.

(** The message object after the two reads of a first message. *)
Lemma first_message_received bs hdr body :
  Forall is_byte bs → Z.of_nat (length bs) = 2 + 15340 →
  length hdr = 2%nat → Forall is_byte hdr → Forall is_byte body →
  dec hdr = Z.of_nat (length body) → 149 ≤ Z.of_nat (length body) ≤ 15340 →
  dec (take 4 body) = Adler.rfc1950 (drop 4 body) →
  ∃ m1 m2 i, InMessage.fill 0 hdr (InMessage.new 2 bs) = (Val tt, m1) ∧
    InMessage.parseHeaderAndGetBodyBuffer m1 = (Val (2, Z.of_nat (length body)), m2) ∧
    InMessage.fill 2 body m2 = (Val tt, i) ∧ checked body i.
Proof.
  intros Hbs Hlen Hh Hhb Hbb Hd Hl Hs.
  assert (InMessage.ready (InMessage.new 2 bs)) as Hnew by (apply InMessage.ready_new; [done|lia..]).
  set (m1 := InMessage.refilled hdr (InMessage.new 2 bs)).
  assert (InMessage.ready m1) as Hm1 by by apply InMessage.ready_refilled.
  assert (InMessage.remaining m1 = hdr) as Hr1.
  { unfold InMessage.remaining. simpl. by rewrite drop_0, take_app_length' by done. }
  set (m2 := InMessage.set_size (2 + Z.of_nat (length body)) (InMessage.set_pos 2 m1)).
  set (buf := hdr ++ body ++ drop (2 + length body) bs).
  assert (write (hdr ++ drop 2 bs) 2 body = Some buf) as Hw.
  { rewrite write_inside by (rewrite ?length_app, ?length_drop; lia). unfold buf.
    change (Z.to_nat 2) with 2%nat. rewrite take_app_length', drop_app_ge, drop_drop, Hh by lia.
    do 4 f_equal. lia. }
  set (i := InMessage.mk buf 2 (2 + Z.of_nat (length body))).
  exists m1, m2, i. split_and!.
  - by apply InMessage.fill_header_run.
  - rewrite InMessage.parse_header_run by done. unfold InMessage.parsed_header.
    rewrite Hr1, firstn_all2, Hd by lia. rewrite bool_decide_false by lia.
    destruct (Z.ltb_spec (Z.of_nat (length body)) 8); [lia|].
    destruct (Z.ltb_spec 15340 (Z.of_nat (length body))); [lia|]. simpl. rewrite Hndebug. simpl.
    do 3 f_equal. lia.
  - unfold InMessage.fill, get, bind. change (InMessage.buffer m2) with (hdr ++ drop 2 bs). by rewrite Hw.
  - split; try done.
    + split; simpl; unfold buf; rewrite ?length_app, ?length_drop; try lia.
      repeat apply Forall_app_2; auto using Forall_drop.
    + unfold InMessage.remaining. simpl. unfold buf. rewrite drop_app_length' by done.
      rewrite take_app_length' by lia. done.
Qed.

(** The world of a connection that has been started. *)
Definition ready_to_read p bs s : world :=
  Connection.set_reads [((0, 2), Connection.HeaderRead true)]
    (Connection.renewed (Connection.set_protocol true (Connection.accepted s (InMessage.new 2 bs) p))).

Lemma incomingConnection_run p bs s :
  Service.incomingConnection p (InMessage.new 2 bs : Connection.InMsg) s = (Val tt, ready_to_read p bs s).
Proof.
  unfold Service.incomingConnection, Connection.start. erewrite bind_val by by apply Connection.update_run.
  unfold Connection.DVLOG. rewrite (bind_val _ _ _ _ _ (Connection.DLOG_off _ _ Hndebug)).
  by erewrite Connection.parseIncomingMessage_run.
Qed.

Lemma run_all_two {A} (f : A → io unit) a b w : run_all f [a; b] w = (f a ;;; f b) w.
Proof.
  simpl. unfold bind, ret. destruct (f a w) as [[[]|x|x] w1]; [|done..].
  by destruct (f b w1) as [[[]|x|x] w2].
Qed.

(** The crypto service runs the decryption it was left with, and the strand what that
    posts. *)
Lemma decryption_ends hf hm w body i s2 s3 :
  checked body i → Protocol.attached w → Connection.alive w = true → Connection.protocol w = true →
  Connection.closeStatus w = 1 → Connection.inMsg w = InMessage.set_pos 23 i →
  Connection.conn_refs w = 0%nat → Connection.proto_refs w = 1%nat → Connection.writes w = [] →
  Connection.in_strand w = false → Connection.posted w = [] →
  Connection.shutdown Connection.shutdown_both (Connection.peer w) = (Val tt, s2) →
  Connection.close s2 = (Val tt, s3) →
  (Rsa.RSA_private_decrypt rsa (take 128 (drop 21 body))).1 ≠ 0 →
  ∃ w2 w3, Protocol.crypto_runs rsa Protocol.readCredentials 23 w = (Val tt, w2) ∧
    Connection.handle hf hm Connection.Posted w2 = (Val tt, w3) ∧ Connection.alive w3 = false.
Proof.
  intros Hi Hat Ha Hpr Hc Hm Hcr Hp Hw Hst Hpo Hs2 Hs3 Hrsa.
  destruct (rsa_decrypted_closed Protocol.readCredentials w body i) as [m Hd]; try done.
  set (w1 := @Connection.set_inMsg _ Connection.standard_traits _ m w) in Hd.
  assert (Connection.stop w1 = (Val tt, Connection.set_posted [Connection.DoStop] w1)) as Hstop.
  { unfold Connection.stop, Connection.dispatch. rewrite Connection.self_bind. simpl.
    rewrite Ha, Hst. unfold modify. assert (Connection.posted w1 = []) as -> by done. done. }
  rewrite Hstop in Hd.
  set (w2 := Connection.set_proto_refs 0 (Connection.set_posted [Connection.DoStop] w1)).
  assert (Protocol.crypto_runs rsa Protocol.readCredentials 23 w = (Val tt, w2)) as Hrun.
  { unfold Protocol.crypto_runs, try_catch. unfold bind. rewrite Hd.
    unfold Protocol.unshare, modify, get, bind. simpl. by rewrite Hp, Ha, Hpr. }
  set (w0 := Connection.stopped_timers (Connection.set_in_strand true (Connection.set_posted [] w2))).
  destruct (Protocol.reset_destroys (Connection.set_peer s3 (Connection.set_peer s2 w0))) as (w3 & Hr & Hdead);
    try done.
  exists w2, (Connection.set_in_strand false w3). split_and!; [done| |done].
  cbn [Connection.handle]. unfold get. unfold bind at 1. unfold modify. simpl. unfold bind.
  unfold Connection.strand. rewrite Connection.do_stop_run by (done || by left). fold w0.
  rewrite (bind_val _ _ _ _ _ (Connection.on_peer_run _ w0 _ _ Ha Hs2)).
  rewrite (bind_val _ _ _ _ _ (Connection.on_peer_run _ (Connection.set_peer s2 w0) _ _ Ha Hs3)).
  by rewrite Hr.
Qed.

(** C8. What a correct login attempt comes to, from the accepted socket on. The two
    reads deliver the client's message, whose checksum is right and whose RSA block
    decrypts. When the crypto service is busy, the handler leaves it the decryption; the
    service then finds the connection half closed, since the protocol itself has stopped
    receiving, and posts a stop, which destroys the connection. When the crypto service
    is free it does the same inside the read handler: connection and protocol are
    destroyed there, and the handler then reads a member of the destroyed connection. *)
Theorem login_request_run p bs s hdr body s1 s2 s3 e :
  Protocol.connection p = true →
  Forall is_byte bs → Z.of_nat (length bs) = 2 + 15340 →
  length hdr = 2%nat → Forall is_byte hdr → Forall is_byte body →
  dec hdr = Z.of_nat (length body) → 149 ≤ Z.of_nat (length body) ≤ 15340 →
  dec (take 4 body) = Adler.rfc1950 (drop 4 body) →
  (Rsa.RSA_private_decrypt rsa (take 128 (drop 21 body))).1 ≠ 0 →
  Connection.shutdown Connection.shutdown_receive s = (Val tt, s1) →
  Connection.shutdown Connection.shutdown_both s1 = (Val tt, s2) →
  Connection.close s2 = (Val tt, s3) →
  let run free := Connection.handle (handleFirstMessage rsa free e) handleMessage in
  let request := [Connection.ReadDone Connection.success hdr; Connection.ReadDone Connection.success body] in
  ∃ w0, Service.incomingConnection p (InMessage.new 2 bs : Connection.InMsg) s = (Val tt, w0) ∧
    (run_all (run true) request w0).1 = Fault DanglingReference ∧
    ∃ w1 w2 w3, run_all (run false) request w0 = (Val tt, w1) ∧
      Protocol.crypto_runs rsa Protocol.readCredentials 23 w1 = (Val tt, w2) ∧
      run false Connection.Posted w2 = (Val tt, w3) ∧ Connection.alive w3 = false.
Proof.
  intros Hat Hbs Hlen Hh Hhb Hbb Hd Hl Hck Hrsa Hs1 Hs2 Hs3 run request.
  exists (ready_to_read p bs s). split; [apply incomingConnection_run|].
  set (w0 := ready_to_read p bs s).
  destruct (first_message_received bs hdr body) as (m1 & m2 & i & Hf1 & Hpa & Hf2 & Hi); try done.
  set (w := Connection.delivering true (Connection.set_in_strand true
    (@Connection.set_inMsg _ Connection.standard_traits _ i (Connection.set_reads [] (Connection.renewed w0))))).
  assert (∀ free r w', handleFirstMessage rsa free e w = (r, w') →
    run_all (run free) request w0 = Connection.strand (λ _, match r with
      | Val tt => (let! receiving := Connection.isReceiving in
                   if receiving then Connection.parseIncomingMessage false else ret tt) w'
      | Exc _ => (Connection.droppingLogInfo ;;; Connection.abort) w'
      | Fault x => (Fault x, w')
      end) w0) as Hrun.
  { intros free r w' Hx. unfold request.
    rewrite <-(Connection.receive_run (handleFirstMessage rsa free e) handleMessage Hndebug w0 true 0 2
      hdr m1 2 (Z.of_nat (length body)) m2 body i r w') by done.
    apply run_all_two. }
  split.
  - destruct (first_message_free w body i s1 s2 s3 e) as (w' & Hw & Hdead); try done.
    rewrite (Hrun _ _ _ Hw). unfold Connection.strand, Connection.isReceiving.
    by rewrite bind_assoc, Connection.self_bind, Hdead.
  - pose proof (first_message_busy w body i s1 e) as Hw. rewrite (Hrun false _ _ (Hw Hi
      (conj eq_refl Hat) eq_refl eq_refl eq_refl Hs1 eq_refl)).
    destruct (decryption_ends (handleFirstMessage rsa false e) handleMessage
      (Connection.set_in_strand false (before w i s1)) body i s2 s3) as (w2 & w3 & Hc & Hp & Hdead); try done.
    exists (Connection.set_in_strand false (before w i s1)), w2, w3. by split_and!.
Qed.
End run.

(** ** Witnesses *)

Section witnesses.
#[local] Instance witness_platform : Platform := x86_64 true.
#[local] Existing Instances Connection.toy_asio Protocol.toy_login Rsa.toy_openssl.
#[local] Instance witness_logging : Connection.Logging := {| Connection.verbose := false |}.
Abbreviation world := (Connection.world Protocol.protocol).

Definition no_key : Rsa.key Rsa.bignum := Rsa.mk_key None None None None None.
Definition zeros (n : Z) : list Z := replicate (Z.to_nat n) 0.
Definition junk (n : Z) : @Connection.InMsg Connection.standard_traits := InMessage.new 2 (zeros n).
Definition toy_protocol : Protocol.protocol := Protocol.mk true (Xtea.mk 1 2 3 4).
Definition toy_socket : Connection.socket := (true : @Connection.socket Connection.toy_asio).
Definition closed_socket : Connection.socket := (false : @Connection.socket Connection.toy_asio).

(** A first message of 145 zero bytes behind their checksum. *)
Definition login_body : list Z := Eval vm_compute in enc 4 (Adler.rfc1950 (zeros 145)) ++ zeros 145.

(** The header of the first message has arrived. *)
Abbreviation header_read :=
  (Connection.handle (handleFirstMessage no_key true Protocol.NoError) handleMessage
    (Connection.ReadDone Connection.success [149; 0]) (ready_to_read toy_protocol (zeros 200) toy_socket)).

Lemma login_server_is_silent_witness :
  ∃ w, header_read = (Val tt, w) ∧ Connection.outMsgQueue w = [] ∧ Connection.started_of w = [].
Proof.
  assert (header_read.1 = Val tt) as Hr by (vm_compute; reflexivity).
  destruct header_read as [r w] eqn:E. simpl in Hr. subst r. exists w. split; [reflexivity|].
  destruct (login_server_is_silent no_key w) as (Hq & _ & _ & Hs); [|exact (conj Hq Hs)].
  apply (reach_step _ _ (ready_to_read toy_protocol (zeros 200) toy_socket)).
  - apply reach_init. exists toy_protocol, (junk 200), toy_socket.
    apply incomingConnection_run. reflexivity.
  - eapply step_connection; [..|exact E|discriminate]; reflexivity.
Defined.

Lemma login_request_run_witness :
  ∃ w0, Service.incomingConnection toy_protocol (junk 15342) toy_socket = (Val tt, w0) ∧
    (run_all (Connection.handle (handleFirstMessage no_key true Protocol.NoError) handleMessage)
      [Connection.ReadDone Connection.success [149; 0]; Connection.ReadDone Connection.success login_body]
      w0).1 = Fault DanglingReference.
Proof.
  destruct (login_request_run (H:=witness_platform) (H1:=witness_logging) no_key eq_refl eq_refl toy_protocol (zeros 15342) toy_socket [149; 0]
    login_body toy_socket toy_socket closed_socket Protocol.NoError) as (w0 & Hw & Hf & _).
  - reflexivity.
  - apply Forall_replicate. done.
  - reflexivity.
  - reflexivity.
  - repeat constructor; done.
  - repeat constructor; done.
  - reflexivity.
  - split; vm_compute; discriminate.
  - vm_compute. reflexivity.
  - vm_compute. discriminate.
  - reflexivity.
  - reflexivity.
  - reflexivity.
  - exists w0. by split.
Defined.
End witnesses.
End LoginServer.
