(* ===== verification/Lambda.v ===== *)
(** * Function objects with captures (lambdautil.hpp)

    [lambdaBind] stores its arguments in a function object and passes them to a
    lambda ahead of the arguments of each call; a captured rvalue is passed as an
    rvalue, so the lambda may move from it. [ScopedOperation] runs one function when
    it is made and another when it goes. *)

From S2P Require Import Prelude.

Module Lambda.

(** ** Traits of callable types *)

(** The callable types [function_traits] is specialised for; [T] stands for the
    types of parameters and results. A closure is given by its [operator()]. *)
Inductive callable (T : Type) : Type :=
  | function (ret : T) (args : list T)
  | function_pointer (ret : T) (args : list T)
  | member_pointer (ret : T) (args : list T) (is_const : bool)
  | std_function (f : callable T)
  | reference_to (f : callable T)
  | closure (operator : callable T).
Arguments function {T} ret args.
Arguments function_pointer {T} ret args.
Arguments member_pointer {T} ret args is_const.
Arguments std_function {T} f.
Arguments reference_to {T} f.
Arguments closure {T} operator.

(** [def_arg]: the types of up to three parameters; there is no definition of it
    for none, nor for more than three. *)
Definition def_arg {T} (args : list T) : option (list T) :=
  match args with
  | [_] | [_; _] | [_; _; _] => Some args
  | _ => None
  end.

Record traits (T : Type) : Type := mk_traits { result_type : T; arg_types : list T; arity : nat }.
Arguments mk_traits {T} _ _ _.
Arguments result_type {T} _.
Arguments arg_types {T} _.
Arguments arity {T} _.

(** [function_traits]; [None] where it does not compile. *)
Fixpoint function_traits {T} (c : callable T) : option (traits T) :=
  match c with
  | function ret args | function_pointer ret args | member_pointer ret args _ =>
      l ← def_arg args; Some (mk_traits ret l (length args))
  | std_function f | reference_to f | closure f => function_traits f
  end.

(** ** [Lambda] *)

Section lambda.
Context {V R : Type}.

(** A stored capture: whether [Captures] says it is an lvalue, and its value, or
    [None] once it was moved from. *)
Record capture : Type := mk_capture { lvalue : bool; value : option V }.

(** An argument as the lambda gets it: it can move from an rvalue. *)
Record passed : Type := mk_passed { rvalue : bool; content : option V }.

Record Lambda : Type := mk {
  captures : list capture;
  lambda : list passed → R;
  (** which of its arguments the lambda moves from, when they are rvalues *)
  moves_from : nat → bool;
}.

(** [Lambda::Lambda] and [lambdaBind]: each argument with its value category. *)
Definition lambdaBind (f : list passed → R) (moves : nat → bool) (args : list (bool * V))
    : Lambda :=
  mk (map (λ a, mk_capture a.1 (Some a.2)) args) f moves.

(** [Counter<n, s...>::type] *)
Fixpoint Counter (n : nat) (s : list nat) : list nat :=
  match n with O => s | S n' => Counter n' (n' :: s) end.

(** [std::forward<OriginalTypes>(std::get<seq>(captures))] *)
Definition forward (c : capture) : passed := mk_passed (negb (lvalue c)) (value c).

(** What is left of the captures after the lambda was called with them. *)
Definition after_call (moves : nat → bool) (i : nat) (c : capture) : capture :=
  if negb (lvalue c) && moves i then mk_capture (lvalue c) None else c.

(** [Lambda::call] and [operator()] *)
Definition call (l : Lambda) (seq : list nat) (args : list passed) : R * Lambda :=
  (lambda l (omap (λ i, forward <$> captures l !! i) seq ++ args),
   mk (imap (after_call (moves_from l)) (captures l)) (lambda l) (moves_from l)).

Definition operator_call (l : Lambda) (args : list passed) : R * Lambda :=
  call l (Counter (length (captures l)) []) args.

(** ** The arguments of a call *)

Lemma Counter_seq n s : Counter n s = seq 0 n ++ s.
Proof.
  revert s. induction n as [|n IH]; intros s; [done|].
  cbn [Counter]. by rewrite IH, seq_S, <- app_assoc.
Qed.

Lemma omap_lookup_seq {A B} (f : A → B) (l pre : list A) :
  omap (λ i, f <$> (pre ++ l) !! i) (seq (length pre) (length l)) = map f l.
Proof.
  revert pre. induction l as [|x l IH]; intros pre; [done|]. simpl.
  rewrite lookup_app_r, Nat.sub_diag by lia. simpl. f_equal.
  specialize (IH (pre ++ [x])). rewrite length_app, <- app_assoc in IH. simpl in IH.
  by rewrite Nat.add_1_r in IH.
Qed.

Lemma operator_call_spec l args :
  operator_call l args =
    (lambda l (map forward (captures l) ++ args),
     mk (imap (after_call (moves_from l)) (captures l)) (lambda l) (moves_from l)).
Proof.
  unfold operator_call, call. rewrite Counter_seq, app_nil_r.
  pose proof (omap_lookup_seq forward (captures l) []) as E. simpl in E. by rewrite E.
Qed.

(** A bound lambda is the lambda with its captures put ahead of the arguments
    of the call, in the order they were given. A second call passes the same lvalue
    captures again, and moved-from values for those rvalues the lambda moves from. *)
Theorem lambdaBind_correct (f : list passed → R) moves (binds : list (bool * V)) args args2 :
  let given := map (λ b : bool * V, mk_passed (negb b.1) (Some b.2)) binds in
  let left := imap (λ i (b : bool * V),
    mk_passed (negb b.1) (if negb b.1 && moves i then None else Some b.2)) binds in
  let first := operator_call (lambdaBind f moves binds) args in
  first.1 = f (given ++ args) ∧ (operator_call first.2 args2).1 = f (left ++ args2).
Proof.
  cbv zeta. rewrite !operator_call_spec. simpl. rewrite map_map. split; [done|].
  f_equal. f_equal. apply list_eq. intros i. rewrite list_lookup_fmap, !list_lookup_imap.
  rewrite list_lookup_fmap. destruct (binds !! i) as [[[] v]|]; try done; simpl.
  unfold after_call. simpl. by destruct (moves i).
Qed.

End lambda.

(** ** [ScopedOperation] *)

Section scoped.
Context {S A : Type}.

(** A scope that starts with [ScopedOperation(c, d)]: the constructor runs [c], and
    when that throws there is no object to destroy; the destructor runs [d] when the
    rest of the scope, [body], comes to its end or throws. *)
Definition ScopedOperation (c d : prog S unit) (body : prog S A) : prog S A :=
  c ;;;
  let! r := try_catch body (λ e, d ;;; throw e) in
  d ;;; ret r.

(** The exit function of a [ScopedOperation] runs after the scope, whether that
    ended or threw, and does not run when the entry function threw. *)
Theorem ScopedOperation_correct (c : prog S unit) (d : S → S) (body : prog S A) s :
  ScopedOperation c (modify d) body s =
    match c s with
    | (Val _, s1) =>
        match body s1 with
        | (Fault f, s2) => (Fault f, s2)
        | (r, s2) => (r, d s2)
        end
    | (Exc e, s1) => (Exc e, s1)
    | (Fault f, s1) => (Fault f, s1)
    end.
Proof.
  unfold ScopedOperation, bind, try_catch, modify, throw, ret.
  destruct (c s) as [[] s1]; try done. by destruct (body s1) as [[] s2].
Qed.

End scoped.

End Lambda.
