(* ===== verification/Mysql.v ===== *)
(** * The MySQL service (sql/mysqltypes.hpp, sql/mysqlservice.h, mysqlservice.cpp,
    sql/connection.hpp, sql/error.hpp)

    Prepared statements with tuples of C++ values as parameters and results. The
    MySQL C client is a parameter, the class [Api]; where it stores a fetched
    column is the buffer of the [MYSQL_BIND] array it was given, a [place].
    Templates are functions on the list of column types; [None] is a template
    whose instantiation the compiler refuses. A job runs on a worker thread and
    posts a completion of its handler to the connection's io_service. *)

From S2P Require Import Prelude Platform.

Module Mysql.

(** ** Types (mysqltypes.hpp) *)

Inductive cpp_type : Type :=
  | signed_char | unsigned_char | signed_short | unsigned_short | signed_int
  | unsigned_int | signed_long_long | unsigned_long_long | float_t | double_t
  | std_string.

Inductive enum_field_types : Type :=
  | MYSQL_TYPE_DECIMAL | MYSQL_TYPE_TINY | MYSQL_TYPE_SHORT | MYSQL_TYPE_LONG
  | MYSQL_TYPE_LONGLONG | MYSQL_TYPE_FLOAT | MYSQL_TYPE_DOUBLE | MYSQL_TYPE_STRING
  | MYSQL_TYPE_BLOB | MYSQL_TYPE_NULL.

#[export] Instance cpp_type_eq_dec : EqDecision cpp_type.
Proof. solve_decision. Defined.
#[export] Instance enum_field_types_eq_dec : EqDecision enum_field_types.
Proof. solve_decision. Defined.

(** [CppToSql<T>::SqlT] *)
Definition CppToSql (t : cpp_type) : enum_field_types :=
  match t with
  | signed_char | unsigned_char => MYSQL_TYPE_TINY
  | signed_short | unsigned_short => MYSQL_TYPE_SHORT
  | signed_int | unsigned_int => MYSQL_TYPE_LONG
  | signed_long_long | unsigned_long_long => MYSQL_TYPE_LONGLONG
  | float_t => MYSQL_TYPE_FLOAT
  | double_t => MYSQL_TYPE_DOUBLE
  | std_string => MYSQL_TYPE_STRING
  end.

Definition is_integral (t : cpp_type) : bool :=
  match t with float_t | double_t | std_string => false | _ => true end.
Definition is_unsigned (t : cpp_type) : bool :=
  match t with
  | unsigned_char | unsigned_short | unsigned_int | unsigned_long_long => true
  | _ => false
  end.

(** Values of these types: integers, floating-point numbers by their bits,
    strings by their bytes. [zero] is what value-initialisation gives. *)
Inductive value : Type :=
  | int_v (z : Z)
  | float_v (bits : Z)
  | string_v (s : list Z).

#[export] Instance value_eq_dec : EqDecision value.
Proof. solve_decision. Defined.

Definition zero (t : cpp_type) : value :=
  match t with
  | std_string => string_v []
  | float_t | double_t => float_v 0
  | _ => int_v 0
  end.

(** [Wrapper<T>]: a default-constructed [value] is indeterminate ([None]) unless
    its class initialises it. *)
Record Wrapper : Type := mk_wrapper { wvalue : option value; null : bool }.

Definition Wrapper_default : Wrapper := mk_wrapper None true.
Definition Wrapper_Null : Wrapper := mk_wrapper None true.
Definition Wrapper_of (v : value) : Wrapper := mk_wrapper (Some v) false.
Definition isNull (w : Wrapper) : bool := null w.
Definition wrapper_get (w : Wrapper) : option value := wvalue w.
Definition assign (v : value) (w : Wrapper) : Wrapper := mk_wrapper (Some v) false.
Definition assign_Null (w : Wrapper) : Wrapper := mk_wrapper (wvalue w) true.
Definition to_bool (w : Wrapper) : bool := negb (null w).

(** The element types of a [Row]. *)
Inductive column : Type :=
  | plain (t : cpp_type)
  | wrapped (t : cpp_type)
  | blob.

#[export] Instance column_eq_dec : EqDecision column.
Proof. solve_decision. Defined.

(** The parameters of a statement: each with the type it is declared with. *)
Inductive param : Type :=
  | p_null
  | p_plain (t : cpp_type) (v : value)
  | p_wrapped (t : cpp_type) (w : Wrapper)
  | p_blob (w : Wrapper).

(** Where a buffer points: the [i]-th parameter or its characters, the [i]-th
    field of the tuple the results were bound to, the [i]-th field of the [r]-th
    row of a [RowSet], or the local vector of [storeOneResult]. *)
Inductive place : Type :=
  | param_field (i : nat)
  | param_data (i : nat)
  | bound_field (i : nat)
  | row_field (r i : nat)
  | local_buffer.

#[export] Instance place_eq_dec : EqDecision place.
Proof. solve_decision. Defined.

Record BindOutReg : Type := mk_reg { reg_error : bool; reg_null : bool; reg_length : Z }.

(** [MYSQL_BIND]; the pointers [error], [length] and [is_null] are the index of
    the [BindOutReg] they point into. [memset] leaves no buffer and type 0. *)
Record MYSQL_BIND : Type := mk_bind {
  buffer : option place;
  buffer_length : Z;
  buffer_type : enum_field_types;
  is_unsigned_ : bool;
  out : option nat;
}.

Definition set_buffer x b :=
  mk_bind x (buffer_length b) (buffer_type b) (is_unsigned_ b) (out b).
Definition set_buffer_length x b :=
  mk_bind (buffer b) x (buffer_type b) (is_unsigned_ b) (out b).
Definition set_buffer_type x b :=
  mk_bind (buffer b) (buffer_length b) x (is_unsigned_ b) (out b).
Definition set_is_unsigned x b :=
  mk_bind (buffer b) (buffer_length b) (buffer_type b) x (out b).
Definition set_out x b :=
  mk_bind (buffer b) (buffer_length b) (buffer_type b) (is_unsigned_ b) x.

(** [Bind::Bind], [BindOutHelperBase::BindOutHelperBase] *)
Definition zero_bind : MYSQL_BIND := mk_bind None 0 MYSQL_TYPE_DECIMAL false None.
Definition Bind (size : nat) : list MYSQL_BIND := replicate size zero_bind.
Definition zero_reg : BindOutReg := mk_reg false false 0.
Definition BindOutHelperBase (size : nat) : list BindOutReg := replicate size zero_reg.

(** [bindBuffer] of a value of type [t] that lies at [p]. *)
Definition bindBuffer_scalar (t : cpp_type) (p : place) (b : MYSQL_BIND) : MYSQL_BIND :=
  if is_integral t then set_is_unsigned (is_unsigned t) (set_buffer (Some p) b)
  else set_buffer (Some p) b.
Definition bindBuffer_const_string (i : nat) (s : list Z) (b : MYSQL_BIND) : MYSQL_BIND :=
  set_buffer_length (Z.of_nat (length s)) (set_buffer (Some (param_data i)) b).
Definition bindBuffer_string (b : MYSQL_BIND) : MYSQL_BIND :=
  set_buffer_length 0 (set_buffer None b).

(** [bindBuffer] on a field to be filled. *)
Definition bindBuffer (t : cpp_type) (p : place) (b : MYSQL_BIND) : MYSQL_BIND :=
  match t with std_string => bindBuffer_string b | _ => bindBuffer_scalar t p b end.

(** [bindOne] on the [i]-th parameter. [Wrapper::isNull] is not a [const] member,
    so the overload for a constant wrapper does not compile. A string holds
    characters: a value of another form is not of the type [std_string]. *)
Definition bindOne_param (i : nat) (x : param) (b : MYSQL_BIND) : option MYSQL_BIND :=
  match x with
  | p_null => Some (set_buffer_type MYSQL_TYPE_NULL b)
  | p_plain std_string (string_v s) =>
      Some (bindBuffer_const_string i s (set_buffer_type MYSQL_TYPE_STRING b))
  | p_plain std_string _ => None
  | p_plain t _ => Some (bindBuffer_scalar t (param_field i) (set_buffer_type (CppToSql t) b))
  | p_wrapped _ _ => None
  | p_blob w =>
      match wrapper_get w with
      | Some (string_v s) =>
          Some (bindBuffer_const_string i s (set_buffer_type MYSQL_TYPE_BLOB b))
      | _ => Some (bindBuffer_const_string i [] (set_buffer_type MYSQL_TYPE_BLOB b))
      end
  end.

(** [bindParams<pos>]. The body for [pos > 0] goes on with [bindOne<pos-1>],
    whose first template parameter is a type: there is no such overload. *)
Definition bindParams (pos : Z) (params : list param) (bind : list MYSQL_BIND)
    : option (list MYSQL_BIND) :=
  if pos =? 0 then
    x ← params !! 0%nat; b ← bind !! 0%nat; b' ← bindOne_param 0 x b;
    Some (<[0%nat := b']> bind)
  else None.

(** [BindInHelper<Row<In...>>::BindInHelper] *)
Definition BindInHelper (params : list param) : option (list MYSQL_BIND) :=
  bindParams (Z.of_nat (length params) - 1) params (Bind (length params)).

(** [bindOne] on a field to be filled, and [bindOneResult]. *)
Definition bindOne (c : column) (p : place) (b : MYSQL_BIND) : MYSQL_BIND :=
  match c with
  | plain t | wrapped t => bindBuffer t p (set_buffer_type (CppToSql t) b)
  | blob => bindBuffer_string (set_buffer_type MYSQL_TYPE_BLOB b)
  end.

Definition bindOneResult (c : column) (p : place) (reg : nat) (b : MYSQL_BIND) : MYSQL_BIND :=
  bindOne c p (set_out (Some reg) b).

(** [bindOneResultBuffer]. [Wrapper<T>] is a wrapper with the default second argument,
    which a [Blob] is not: the overload for any type takes it and calls [bindBuffer],
    which has no overload for it. *)
Definition bindOneResultBuffer (c : column) (p : place) : option (MYSQL_BIND → MYSQL_BIND) :=
  match c with
  | plain t | wrapped t => Some (bindBuffer t p)
  | blob => None
  end.

(** [bindResult<pos>] and [bindResultBuffer<pos>] go from the last column to the
    first; [at_] is the place of the [i]-th field of the tuple. *)
Fixpoint bindResult (pos : nat) (cols : list column) (at_ : nat → place)
    (bind : list MYSQL_BIND) : list MYSQL_BIND :=
  let bind' :=
    match cols !! pos with
    | Some c => alter (bindOneResult c (at_ pos) pos) pos bind
    | None => bind
    end in
  match pos with O => bind' | S pos' => bindResult pos' cols at_ bind' end.

Fixpoint bindResultBuffer (pos : nat) (cols : list column) (at_ : nat → place)
    : option (list MYSQL_BIND → list MYSQL_BIND) :=
  c ← cols !! pos;
  f ← bindOneResultBuffer c (at_ pos);
  match pos with
  | O => Some (alter f pos)
  | S pos' => g ← bindResultBuffer pos' cols at_; Some (λ b, g (alter f pos b))
  end.

(** The default value of a field. A default-constructed wrapper is null; its
    value is shown as the zero of the type. *)
Definition field_zero (c : column) : value :=
  match c with plain t | wrapped t => zero t | blob => string_v [] end.
Definition default_row (cols : list column) : list value := map field_zero cols.

(** ** Errors (error.hpp) *)

Inductive category : Type := system_category | mysql_category.
#[export] Instance category_eq_dec : EqDecision category.
Proof. solve_decision. Defined.

(** [boost::system::error_code]: an error when the value is not 0. *)
Record error_code : Type := mk_ec { ec_value : Z; ec_category : category }.
#[export] Instance error_code_eq_dec : EqDecision error_code.
Proof. solve_decision. Defined.
Definition no_error : error_code := mk_ec 0 system_category.
Definition is_error (e : error_code) : bool := negb (ec_value e =? 0).

(** The codes of the MySQL client, from [errmsg.h]. *)
Class Errmsg : Type := {
  CR_UNKNOWN_ERROR : Z;
  CR_SOCKET_CREATE_ERROR : Z;
  CR_CONNECTION_ERROR : Z;
  CR_CONN_HOST_ERROR : Z;
  CR_IPSOCK_ERROR : Z;
  CR_UNKNOWN_HOST : Z;
  CR_SERVER_GONE_ERROR : Z;
  CR_VERSION_ERROR : Z;
  CR_OUT_OF_MEMORY : Z;
  CR_WRONG_HOST_INFO : Z;
  CR_LOCALHOST_CONNECTION : Z;
  CR_TCP_CONNECTION : Z;
  CR_SERVER_HANDSHAKE_ERR : Z;
  CR_SERVER_LOST : Z;
  CR_COMMANDS_OUT_OF_SYNC : Z;
  CR_NAMEDPIPE_CONNECTION : Z;
  CR_NAMEDPIPEWAIT_ERROR : Z;
  CR_NAMEDPIPEOPEN_ERROR : Z;
  CR_NAMEDPIPESETSTATE_ERROR : Z;
  CR_CANT_READ_CHARSET : Z;
  CR_NET_PACKET_TOO_LARGE : Z;
  CR_EMBEDDED_CONNECTION : Z;
  CR_PROBE_SLAVE_STATUS : Z;
  CR_PROBE_SLAVE_HOSTS : Z;
  CR_PROBE_SLAVE_CONNECT : Z;
  CR_PROBE_MASTER_CONNECT : Z;
  CR_SSL_CONNECTION_ERROR : Z;
  CR_MALFORMED_PACKET : Z;
  CR_WRONG_LICENSE : Z;
  CR_NULL_POINTER : Z;
  CR_NO_PREPARE_STMT : Z;
  CR_PARAMS_NOT_BOUND : Z;
  CR_DATA_TRUNCATED : Z;
  CR_NO_PARAMETERS_EXISTS : Z;
  CR_INVALID_PARAMETER_NO : Z;
  CR_INVALID_BUFFER_USE : Z;
  CR_UNSUPPORTED_PARAM_TYPE : Z;
  CR_SHARED_MEMORY_CONNECTION : Z;
  CR_SHARED_MEMORY_CONNECT_REQUEST_ERROR : Z;
  CR_SHARED_MEMORY_CONNECT_ANSWER_ERROR : Z;
  CR_SHARED_MEMORY_CONNECT_FILE_MAP_ERROR : Z;
  CR_SHARED_MEMORY_CONNECT_MAP_ERROR : Z;
  CR_SHARED_MEMORY_FILE_MAP_ERROR : Z;
  CR_SHARED_MEMORY_MAP_ERROR : Z;
  CR_SHARED_MEMORY_EVENT_ERROR : Z;
  CR_SHARED_MEMORY_CONNECT_ABANDONED_ERROR : Z;
  CR_SHARED_MEMORY_CONNECT_SET_ERROR : Z;
  CR_CONN_UNKNOW_PROTOCOL : Z;
  CR_INVALID_CONN_HANDLE : Z;
  CR_SECURE_AUTH : Z;
  CR_FETCH_CANCELED : Z;
  CR_NO_DATA : Z;
  CR_NO_STMT_METADATA : Z;
  CR_NO_RESULT_SET : Z;
  CR_NOT_IMPLEMENTED : Z;
  CR_ERROR_LAST : Z;
}.

(** [sql::Error] *)
Inductive Error : Type :=
  | UnknownError
  | socket_create_error
  | connection_error
  | conn_host_error
  | ipsock_error
  | unknown_host
  | server_gone_error
  | version_error
  | OutOfMemory
  | wrong_host_info
  | localhost_connection
  | tcp_connection
  | server_handshake_err
  | server_lost
  | commands_out_of_sync
  | named_pipe_connection
  | named_pipe_wait_error
  | named_pipe_open_error
  | named_pipe_setstate_error
  | cant_read_charset
  | net_packet_too_large
  | embedded_connection
  | probe_slave_status
  | probe_slave_hosts
  | probe_slave_connect
  | probe_master_connect
  | ssl_connection_error
  | malformed_packet
  | wrong_license
  | null_pointer
  | no_prepare_stmt
  | params_not_bound
  | data_truncated
  | no_parameters_exists
  | invalid_parameter_no
  | invalid_buffer_use
  | unsupported_param_type
  | shared_memory_connection
  | shared_memory_connect_request_error
  | shared_memory_connect_answer_error
  | shared_memory_connect_file_map_error
  | shared_memory_connect_map_error
  | shared_memory_file_map_error
  | shared_memory_map_error
  | shared_memory_event_error
  | shared_memory_connect_abandoned_error
  | shared_memory_connect_set_error
  | conn_unknow_protocol
  | invalid_conn_handle
  | secure_auth
  | fetch_canceled
  | no_data
  | no_stmt_metadata
  | no_result_set
  | not_implemented
  | BadFieldCount
  | ResultIsTooBig.

(** The value of each enumerator. *)
Definition Error_value `{Errmsg} (e : Error) : Z :=
  match e with
  | UnknownError => CR_UNKNOWN_ERROR
  | socket_create_error => CR_SOCKET_CREATE_ERROR
  | connection_error => CR_CONNECTION_ERROR
  | conn_host_error => CR_CONN_HOST_ERROR
  | ipsock_error => CR_IPSOCK_ERROR
  | unknown_host => CR_UNKNOWN_HOST
  | server_gone_error => CR_SERVER_GONE_ERROR
  | version_error => CR_VERSION_ERROR
  | OutOfMemory => CR_OUT_OF_MEMORY
  | wrong_host_info => CR_WRONG_HOST_INFO
  | localhost_connection => CR_LOCALHOST_CONNECTION
  | tcp_connection => CR_TCP_CONNECTION
  | server_handshake_err => CR_SERVER_HANDSHAKE_ERR
  | server_lost => CR_SERVER_LOST
  | commands_out_of_sync => CR_COMMANDS_OUT_OF_SYNC
  | named_pipe_connection => CR_NAMEDPIPE_CONNECTION
  | named_pipe_wait_error => CR_NAMEDPIPEWAIT_ERROR
  | named_pipe_open_error => CR_NAMEDPIPEOPEN_ERROR
  | named_pipe_setstate_error => CR_NAMEDPIPESETSTATE_ERROR
  | cant_read_charset => CR_CANT_READ_CHARSET
  | net_packet_too_large => CR_NET_PACKET_TOO_LARGE
  | embedded_connection => CR_EMBEDDED_CONNECTION
  | probe_slave_status => CR_PROBE_SLAVE_STATUS
  | probe_slave_hosts => CR_PROBE_SLAVE_HOSTS
  | probe_slave_connect => CR_PROBE_SLAVE_CONNECT
  | probe_master_connect => CR_PROBE_MASTER_CONNECT
  | ssl_connection_error => CR_SSL_CONNECTION_ERROR
  | malformed_packet => CR_MALFORMED_PACKET
  | wrong_license => CR_WRONG_LICENSE
  | null_pointer => CR_NULL_POINTER
  | no_prepare_stmt => CR_NO_PREPARE_STMT
  | params_not_bound => CR_PARAMS_NOT_BOUND
  | data_truncated => CR_DATA_TRUNCATED
  | no_parameters_exists => CR_NO_PARAMETERS_EXISTS
  | invalid_parameter_no => CR_INVALID_PARAMETER_NO
  | invalid_buffer_use => CR_INVALID_BUFFER_USE
  | unsupported_param_type => CR_UNSUPPORTED_PARAM_TYPE
  | shared_memory_connection => CR_SHARED_MEMORY_CONNECTION
  | shared_memory_connect_request_error => CR_SHARED_MEMORY_CONNECT_REQUEST_ERROR
  | shared_memory_connect_answer_error => CR_SHARED_MEMORY_CONNECT_ANSWER_ERROR
  | shared_memory_connect_file_map_error => CR_SHARED_MEMORY_CONNECT_FILE_MAP_ERROR
  | shared_memory_connect_map_error => CR_SHARED_MEMORY_CONNECT_MAP_ERROR
  | shared_memory_file_map_error => CR_SHARED_MEMORY_FILE_MAP_ERROR
  | shared_memory_map_error => CR_SHARED_MEMORY_MAP_ERROR
  | shared_memory_event_error => CR_SHARED_MEMORY_EVENT_ERROR
  | shared_memory_connect_abandoned_error => CR_SHARED_MEMORY_CONNECT_ABANDONED_ERROR
  | shared_memory_connect_set_error => CR_SHARED_MEMORY_CONNECT_SET_ERROR
  | conn_unknow_protocol => CR_CONN_UNKNOW_PROTOCOL
  | invalid_conn_handle => CR_INVALID_CONN_HANDLE
  | secure_auth => CR_SECURE_AUTH
  | fetch_canceled => CR_FETCH_CANCELED
  | no_data => CR_NO_DATA
  | no_stmt_metadata => CR_NO_STMT_METADATA
  | no_result_set => CR_NO_RESULT_SET
  | not_implemented => CR_NOT_IMPLEMENTED
  | BadFieldCount => CR_ERROR_LAST + 1
  | ResultIsTooBig => CR_ERROR_LAST + 2
  end.

(** [SqlErrorCategory::message] *)
Definition message (e : Z) : string := "error messages not yet implemented".
Definition category_name : string := "mysql".

(** [getErrorCategory]: one static object. *)
Definition getErrorCategory : category := mysql_category.

(** ** The MySQL client *)

(** A prepared statement is named by its pointer. [Status] numbers are those of
    [mysql_stmt_fetch]; other [int] and [my_bool] results are 0 for success. *)
Abbreviation stmt := nat.

(** What a fetch writes: a register of every bound column, and a value in some of
    the bound buffers. *)
Record fetched : Type := mk_fetched {
  status : Z;
  outs : list BindOutReg;
  writes : list (place * value);
}.

Record endpoint : Type := mk_endpoint { address : string; port : Z }.

(** The functions of the C client the code calls, on the library's state. *)
Class Api : Type := {
  lib : Type;
  MYSQL_DATA_TRUNCATED : Z;
  mysql_init : lib → bool * lib;
  mysql_real_connect : endpoint → string → string → string → Z → lib → bool * lib;
  mysql_close : lib → lib;
  mysql_errno : lib → Z;
  mysql_stmt_init : lib → option stmt * lib;
  mysql_stmt_prepare : stmt → string → lib → Z * lib;
  mysql_stmt_errno : stmt → lib → Z;
  mysql_stmt_bind_param : stmt → list MYSQL_BIND → lib → Z * lib;
  mysql_stmt_execute : stmt → lib → Z * lib;
  mysql_stmt_affected_rows : stmt → lib → Z;
  mysql_stmt_field_count : stmt → lib → Z;
  mysql_stmt_bind_result : stmt → list MYSQL_BIND → lib → Z * lib;
  mysql_stmt_store_result : stmt → lib → Z * lib;
  mysql_stmt_num_rows : stmt → lib → Z;
  mysql_stmt_fetch : stmt → lib → fetched * lib;
  mysql_stmt_fetch_column : stmt → MYSQL_BIND → nat → lib → Z * list Z * lib;
  mysql_stmt_free_result : stmt → lib → lib;
  mysql_stmt_close : stmt → lib → lib;
}.

(** [std::vector<Row>]: its [max_size], a [size_t], and whether there is memory for so
    many rows. [can_allocate]: whether a vector of so many characters can be made,
    and the string that is assigned from it; its constructor throws if not. *)
Class Memory : Type := {
  max_size : Z;
  max_size_bound : max_size < 2 ^ 64;
  can_reserve : Z → bool;
  can_allocate : Z → bool;
}.

(** The arguments a completion carries after the error code. *)
Inductive arg : Type :=
  | rows_arg (n : Z)
  | affected_arg (l : list Z)
  | stmt_arg (s : option stmt).

Inductive handler_kind : Type := counting_handler | vector_handler | unary_handler | other_handler.

(** A posted call of the operation's handler. *)
Record completion : Type := mk_completion { c_error : error_code; c_args : list arg }.

Section service.
Context `{Errmsg} `{Api} `{Memory}.

(** What a job works on: the library, the helper [bindOut] (its binds, its
    registers, the tuple it bound the results to, with the types of its fields),
    the rows of the [RowSet], and the handlers posted. *)
Record world : Type := mk_world {
  client : lib;
  binds : list MYSQL_BIND;
  regs : list BindOutReg;
  bound_row : list value;
  rows : list (list value);
  posted : list completion;
}.

Definition set_client x w := mk_world x (binds w) (regs w) (bound_row w) (rows w) (posted w).
Definition set_binds x w := mk_world (client w) x (regs w) (bound_row w) (rows w) (posted w).
Definition set_regs x w := mk_world (client w) (binds w) x (bound_row w) (rows w) (posted w).
Definition set_bound_row x w := mk_world (client w) (binds w) (regs w) x (rows w) (posted w).
Definition set_rows x w := mk_world (client w) (binds w) (regs w) (bound_row w) x (posted w).
Definition set_posted x w := mk_world (client w) (binds w) (regs w) (bound_row w) (rows w) x.

(** Calls into the library. *)
Definition ask {A} (f : lib → A) : prog world A := λ w, (Val (f (client w)), w).
Definition run {A} (f : lib → A * lib) : prog world A :=
  λ w, let '(a, l) := f (client w) in (Val a, set_client l w).
Definition exec (f : lib → lib) : prog world unit := modify (λ w, set_client (f (client w)) w).

(** A store through a pointer to a result field. *)
Definition write_place (p : place) (v : value) (w : world) : world :=
  match p with
  | bound_field i => set_bound_row (<[i := v]> (bound_row w)) w
  | row_field r i => set_rows (alter (λ row, <[i := v]> row) r (rows w)) w
  | _ => w
  end.

Definition write_all (l : list (place * value)) (w : world) : world :=
  foldl (λ w pv, write_place pv.1 pv.2 w) w l.

(** [::mysql_stmt_fetch(stmt)] *)
Definition fetch (s : stmt) : prog world Z :=
  let! f := run (mysql_stmt_fetch s) in
  modify (λ w, write_all (writes f) (set_regs (outs f) w)) ;;;
  ret (status f).

(** ** Completions (mysqlservice.h) *)

(** What [function_traits] tells of a handler: its second parameter is convertible
    from a number of rows, or from a vector of them, or it has one parameter; any
    other is called with the arguments given. *)
Section handler.
Context (hk : handler_kind).

(** The default argument of the overload of [doPostHandler] the handler selects. *)
Definition with_default (args : list arg) : list arg :=
  match hk, args with
  | counting_handler, [] => [rows_arg 0]
  | vector_handler, [] => [affected_arg []]
  | _, _ => args
  end.

(** [get_io_service().post(lambdaBind(std::move(handler), e, args...))] *)
Definition doPostHandler (e : error_code) (args : list arg) : prog world unit :=
  modify (λ w, set_posted (posted w ++ [mk_completion e (with_default args)]) w).

Definition postHandler (args : list arg) : prog world unit := doPostHandler no_error args.

Definition doPostError (e : Z) (args : list arg) : prog world unit :=
  doPostHandler (mk_ec e getErrorCategory) args.

(** The three sources of a [postError]. [mysql_stmt_errno] reads the statement its
    argument points to. *)
Inductive source : Type := connection_source | stmt_source (s : option stmt) | error_source (e : Error).

Definition postError (src : source) (args : list arg) : prog world unit :=
  match src with
  | connection_source => let! e := ask mysql_errno in doPostError e args
  | stmt_source None => fail NullDereference
  | stmt_source (Some s) => let! e := ask (mysql_stmt_errno s) in doPostError e args
  | error_source e => doPostError (Error_value e) args
  end.

Definition postHandlerOrError (src : source) (e : bool) (args : list arg) : prog world unit :=
  if e then postError src args else postHandler args.

(** ** Storing results (mysqltypes.hpp) *)

(** The tuple [store] fills: the one the buffers were bound to, or row [r]. *)
Inductive target : Type := the_bound | the_row (r : nat).
Definition target_place (t : target) (i : nat) : place :=
  match t with the_bound => bound_field i | the_row r => row_field r i end.

(** [storeOneResult<col>] on a scalar. *)
Definition storeOneResult_scalar (col : nat) : prog world bool :=
  let! w := get in
  let reg := nth col (regs w) zero_reg in
  ret (negb (reg_null reg) && negb (reg_error reg)).

(** [storeOneResult<col>] on a string: what the library wrote starts the buffer,
    a vector of zeros. *)
Definition storeOneResult_string (s : stmt) (t : target) (col : nat) : prog world bool :=
  let! w := get in
  let reg := nth col (regs w) zero_reg in
  if 0 <? reg_length reg then
    if negb (can_allocate (reg_length reg)) then throw (StdException "std::bad_alloc") else
    let buf := replicate (Z.to_nat (reg_length reg)) 0 in
    modify (λ w, set_binds
      (alter (λ b, set_buffer_length (reg_length reg) (set_buffer (Some local_buffer) b))
         col (binds w)) w) ;;;
    let! w := get in
    let! r := run (mysql_stmt_fetch_column s (nth col (binds w) zero_bind) col) in
    if negb (r.1 =? 0) then ret false
    else
      modify (write_place (target_place t col)
                (string_v (take (length buf) (r.2 ++ drop (length r.2) buf)))) ;;;
      ret true
  else ret true.

(** [storeOneResult<col>]: the overload for a wrapper calls [storeOneResult]
    without its first template argument, which cannot be deduced. It does not take a
    [Blob]; the overload for any type does, and stores nothing. *)
Definition storeOneResult (s : stmt) (t : target) (col : nat) (c : column)
    : option (prog world bool) :=
  match c with
  | plain std_string => Some (storeOneResult_string s t col)
  | plain _ | blob => Some (storeOneResult_scalar col)
  | wrapped _ => None
  end.

(** [storeResult<pos>] *)
Fixpoint storeResult (s : stmt) (t : target) (pos : nat) (cols : list column)
    : option (prog world bool) :=
  c ← cols !! pos;
  p ← storeOneResult s t pos c;
  match pos with
  | O => Some p
  | S pos' =>
      q ← storeResult s t pos' cols;
      Some (let! ok := p in if ok : bool then q else ret false)
  end.

(** [BindOutHelper<Row<Out...>>]: constructor and [store]. *)
Definition BindOutHelper_row (cols : list column) : prog world unit :=
  modify (λ w, set_regs (BindOutHelperBase (length cols))
    (set_binds (bindResult (length cols - 1) cols bound_field (Bind (length cols))) w)).

Definition store_row (s : stmt) (cols : list column) : option (prog world bool) :=
  storeResult s the_bound (length cols - 1) cols.

(** [BindOutHelper<RowSet<Out...>>]: the constructor binds the buffers to the
    member [holder], [store] appends a row. *)
Definition BindOutHelper_rowset (cols : list column) : prog world unit :=
  modify (λ w, set_regs (BindOutHelperBase (length cols))
    (set_binds (bindResult (length cols - 1) cols bound_field (Bind (length cols)))
      (set_bound_row (default_row cols) w))).

(** [result.emplace(result.end())], when memory for [room] rows is reserved; a vector that
    is full grows. *)
Definition emplace (room : Z) (cols : list column) : prog world nat :=
  let! w := get in
  let size := Z.of_nat (length (rows w)) in
  if (room <=? size) && negb (can_reserve (size + 1)) then throw (StdException "std::bad_alloc")
  else modify (set_rows (rows w ++ [default_row cols])) ;;; ret (length (rows w)).

(** [store]: the templates are instantiated once, for whatever row. *)
Definition store_rowset (s : stmt) (cols : list column) : option (Z → prog world bool) :=
  _ ← bindResultBuffer (length cols - 1) cols (row_field 0);
  _ ← storeResult s (the_row 0) (length cols - 1) cols;
  Some (λ room,
    let! r := emplace room cols in
    modify (λ w, set_binds
      (default id (bindResultBuffer (length cols - 1) cols (row_field r)) (binds w)) w) ;;;
    default (ret false) (storeResult s (the_row r) (length cols - 1) cols)).

(** ** Running a statement (mysqlservice.h) *)

Definition bindAndExecStmt (s : stmt) (bindIn : list MYSQL_BIND) : prog world bool :=
  let! e := run (mysql_stmt_bind_param s bindIn) in
  if negb (e =? 0) then ret false
  else let! e := run (mysql_stmt_execute s) in ret (e =? 0).

(** [mysql_stmt_bind_result(stmt, bindOut.get())] *)
Definition bind_result (s : stmt) : prog world bool :=
  let! w := get in
  let! e := run (mysql_stmt_bind_result s (binds w)) in ret (negb (e =? 0)).

Definition fetched_row (st : Z) : bool := (st =? 0) || (st =? MYSQL_DATA_TRUNCATED).

(** [bindStmtOutput] of a statement without results. *)
Definition bindStmtOutput_none (s : stmt) : prog world unit :=
  let! n := ask (mysql_stmt_affected_rows s) in postHandler [rows_arg n].

(** [bindStmtOutput(stmt, handler, Row<Out...>* )] *)
Definition bindStmtOutput_row (s : stmt) (cols : list column) : option (prog world unit) :=
  store ← store_row s cols;
  Some (
    BindOutHelper_row cols ;;;
    let! err := bind_result s in
    if err : bool then postError (stmt_source (Some s)) []
    else
      let! st := fetch s in
      if fetched_row st then
        let! ok := store in
        postHandlerOrError (stmt_source (Some s)) (negb ok) [rows_arg 1]
      else postHandlerOrError (stmt_source (Some s)) (st =? 1) []).

(** The loop of [bindStmtOutput(stmt, handler, RowSet<Out...>* )] and the code
    after it. *)
Fixpoint fetch_loop (fuel : nat) (s : stmt) (store : prog world bool) : prog world unit :=
  match fuel with
  | O => fail Diverged
  | S fuel' =>
      let! st := fetch s in
      if fetched_row st then
        let! ok := store in
        if ok : bool then fetch_loop fuel' s store
        else exec (mysql_stmt_free_result s) ;;; postError (stmt_source (Some s)) []
      else
        exec (mysql_stmt_free_result s) ;;;
        postHandlerOrError (stmt_source (Some s)) (st =? 1) []
  end.

Definition store_result (s : stmt) : prog world bool :=
  let! e := run (mysql_stmt_store_result s) in ret (negb (e =? 0)).

Definition bindStmtOutput_rowset (fuel : nat) (s : stmt) (cols : list column)
    : option (prog world unit) :=
  store ← store_rowset s cols;
  Some (
    BindOutHelper_rowset cols ;;;
    let! err := (let! e := bind_result s in if e : bool then ret true else store_result s) in
    if err : bool then postError (stmt_source (Some s)) []
    else
      let! numRows := ask (mysql_stmt_num_rows s) in
      let! w := get in
      let size := Z.of_nat (length (rows w)) in
      if max_size <? u64 (size + numRows) then postError (error_source ResultIsTooBig) []
      else if negb (can_reserve (u64 (size + numRows))) then
        exec (mysql_stmt_free_result s) ;;; postError (error_source OutOfMemory) []
      else fetch_loop fuel s (store (u64 (size + numRows)))).

(** Where the results of [runPrepared] go. *)
Inductive output : Type :=
  | out_row (cols : list column)
  | out_rowset (cols : list column).

Definition out_size (o : output) : nat :=
  match o with out_row cols | out_rowset cols => length cols end.

Definition bindStmtOutput (fuel : nat) (s : stmt) (o : output) : option (prog world unit) :=
  match o with
  | out_row cols => bindStmtOutput_row s cols
  | out_rowset cols => bindStmtOutput_rowset fuel s cols
  end.

(** [bindStmtInput] with a [Row] of parameters. *)
Definition bindStmtInput (s : stmt) (ins : list param) (output : option (prog world unit))
    : option (prog world unit) :=
  bindIn ← BindInHelper ins;
  rest ← output;
  Some (
    let! ok := bindAndExecStmt s bindIn in
    if ok : bool then rest else postError (stmt_source (Some s)) []).

Definition validateStmtParamCount (s : stmt) (o : output) : prog world bool :=
  let! n := ask (mysql_stmt_field_count s) in ret (n =? Z.of_nat (out_size o)).

(** [startExecStmt]: the overload for an input and an output. *)
Definition startExecStmt (fuel : nat) (s : stmt) (ins : list param) (o : output)
    : option (prog world unit) :=
  body ← bindStmtInput s ins (bindStmtOutput fuel s o);
  Some (
    let! ok := validateStmtParamCount s o in
    if ok : bool then body else postError (error_source BadFieldCount) []).

(** The function [prepareQuery] posts. *)
Definition prepare_job (str : string) : prog world unit :=
  let! p := run mysql_stmt_init in
  match p with
  | Some s =>
      let! e := run (mysql_stmt_prepare s str) in
      postHandlerOrError (stmt_source p) (negb (e =? 0)) [stmt_arg p]
  | None => postError (stmt_source p) [stmt_arg p]
  end.

(** The function [connect] posts. *)
Definition connect_job (e : endpoint) (user password schema : string) (flags : Z)
    : prog world unit :=
  let! ok := run (mysql_real_connect e user password schema flags) in
  postHandlerOrError connection_source (negb ok) [].

End handler.
End service.

(** ** What the client library promises *)

(** A column of a fetched row: NULL, a value converted to the type of its buffer,
    or the characters of a string. *)
Inductive cell : Type :=
  | null_cell
  | scalar_cell (v : value)
  | chars_cell (s : list Z).

(** The register of a column after a fetch. Strings are bound with no buffer, so
    the library may flag them as truncated. *)
Definition cell_reg (c : cell) (r : BindOutReg) : Prop :=
  match c with
  | null_cell => reg_null r = true
  | scalar_cell _ => reg_null r = false ∧ reg_error r = false
  | chars_cell s => reg_null r = false ∧ reg_length r = Z.of_nat (length s)
  end.

(** The values stored into the buffers bound, column by column. *)
Definition cell_writes (bufs : list (option place)) (r : list cell) : list (place * value) :=
  omap (λ bc : option place * cell,
    match bc with (Some p, scalar_cell v) => Some (p, v) | _ => None end) (zip bufs r).

(** A statement's result set as the manual describes it: rows still to be fetched,
    the row fetched last, the buffers given to the last [mysql_stmt_bind_result], and
    whether [mysql_stmt_store_result] has brought the whole result to the client. *)
Class CursorState `{Api} : Type := {
  remaining : stmt → lib → list (list cell);
  current : stmt → lib → list cell;
  buffers : stmt → lib → list (option place);
  buffered : stmt → lib → Prop;
}.

(** [mysql_stmt_fetch] succeeds and delivers the row [r]. *)
Definition delivers `{CursorState} (s : stmt) (l : lib) (r : list cell) (l' : lib) : Prop :=
  ∃ f, mysql_stmt_fetch s l = (f, l') ∧ fetched_row (status f) = true ∧
    Forall2 cell_reg r (outs f) ∧ writes f = cell_writes (buffers s l) r ∧
    current s l' = r ∧ buffers s l' = buffers s l.

(** The laws say nothing of a fetch from the network, which may fail. *)
Class Cursor `{CursorState} : Prop := {
  fetch_next s l r rest : buffered s l → remaining s l = r :: rest →
    ∃ l', delivers s l r l' ∧ remaining s l' = rest ∧ buffered s l';
  fetch_end s l : buffered s l → remaining s l = [] →
    ∃ f l', mysql_stmt_fetch s l = (f, l') ∧ fetched_row (status f) = false ∧ status f ≠ 1 ∧
      writes f = [];
  fetch_column s b i l cs : current s l !! i = Some (chars_cell cs) →
    buffer_length b = Z.of_nat (length cs) →
    ∃ l', mysql_stmt_fetch_column s b i l = (0, cs, l') ∧
      remaining s l' = remaining s l ∧ current s l' = current s l ∧ buffers s l' = buffers s l ∧
      (buffered s l → buffered s l');
  bind_ok s b l l' : mysql_stmt_bind_result s b l = (0, l') →
    buffers s l' = map buffer b ∧ remaining s l' = remaining s l;
  store_ok s l l' : mysql_stmt_store_result s l = (0, l') →
    buffers s l' = buffers s l ∧ buffered s l' ∧
    mysql_stmt_num_rows s l' = u64 (Z.of_nat (length (remaining s l')));
}.

(** A row of the types asked for. *)
Definition cell_fits (c : column) (x : cell) : Prop :=
  match c, x with
  | plain std_string, chars_cell _ => True
  | plain std_string, _ => False
  | plain _, scalar_cell _ => True
  | _, _ => False
  end.

(** What [RowSet] holds of a row: its strings, and zeros. *)
Definition rowset_value (c : column) (x : cell) : value :=
  match c, x with
  | plain std_string, chars_cell s => string_v s
  | _, _ => field_zero c
  end.

(** What the fields of a [Row] hold after its row was stored, from what they held
    before: the scalars were written by the fetch; a string that is empty, or
    NULL, is not assigned. *)
Definition assign_scalar (c : column) (x : cell) (old : value) : value :=
  match c, x with
  | plain std_string, _ => old
  | plain _, scalar_cell v => v
  | _, _ => old
  end.
Definition assign_string (c : column) (x : cell) (old : value) : value :=
  match c, x with
  | plain std_string, chars_cell (b :: s) => string_v (b :: s)
  | _, _ => old
  end.
Fixpoint zip3 (f : column → cell → value → value) (cols : list column) (r : list cell)
    (row : list value) : list value :=
  match cols, r, row with
  | c :: cols', x :: r', o :: row' => f c x o :: zip3 f cols' r' row'
  | _, _, _ => row
  end.
Definition row_value (c : column) (x : cell) (old : value) : value :=
  assign_string c x (assign_scalar c x old).

(** The columns the two kinds of results take. *)
Definition is_plain (c : column) : bool := match c with plain _ => true | _ => false end.
Definition is_storable (c : column) : bool := match c with wrapped _ => false | _ => true end.

(** ** Binding *)

Lemma length_bindResult pos cols at_ b : length (bindResult pos cols at_ b) = length b.
Proof.
  revert b. induction pos; intros b; simpl; destruct (cols !! _);
    rewrite ?IHpos, ?length_alter; done.
Qed.

(** Binding changes the columns up to [pos], each by its own type. *)
Lemma lookup_bindResult pos cols at_ b i c x :
  cols !! i = Some c → b !! i = Some x →
  bindResult pos cols at_ b !! i =
    Some (if (i <=? pos)%nat then bindOneResult c (at_ i) i x else x).
Proof.
  intros Hc. revert b x. induction pos as [|pos IH]; intros b x Hb; simpl bindResult.
  - destruct (decide (i = 0)%nat) as [->|].
    + by rewrite Hc, list_lookup_alter_eq, Hb.
    + replace (i <=? 0)%nat with false by (symmetry; apply Nat.leb_gt; lia).
      destruct (cols !! 0%nat); [by rewrite list_lookup_alter_ne by congruence|done].
  - destruct (decide (i = S pos)) as [->|].
    + rewrite Hc. erewrite IH by (by rewrite list_lookup_alter_eq, Hb).
      rewrite (proj2 (Nat.leb_gt _ _)) by lia. by rewrite Nat.leb_refl.
    + assert (alter_or : match cols !! S pos with
        | Some c0 => alter (bindOneResult c0 (at_ (S pos)) (S pos)) (S pos) b
        | None => b end !! i = Some x).
      { destruct (cols !! S pos); [by rewrite list_lookup_alter_ne by congruence|done]. }
      erewrite IH by done. destruct (Nat.leb_spec i pos), (Nat.leb_spec i (S pos)); try done; lia.
Qed.

Definition bound_binds (cols : list column) (at_ : nat → place) : list MYSQL_BIND :=
  imap (λ i c, bindOneResult c (at_ i) i zero_bind) cols.

Lemma bindResult_all cols at_ :
  bindResult (length cols - 1) cols at_ (Bind (length cols)) = bound_binds cols at_.
Proof.
  apply list_eq. intros i. unfold bound_binds. rewrite list_lookup_imap.
  destruct (cols !! i) as [c|] eqn:Hc; simpl.
  - pose proof (lookup_lt_Some _ _ _ Hc).
    erewrite lookup_bindResult; [|done|by apply lookup_replicate_2].
    by rewrite (proj2 (Nat.leb_le _ _)) by lia.
  - apply lookup_ge_None in Hc. apply lookup_ge_None.
    rewrite length_bindResult. unfold Bind. by rewrite length_replicate.
Qed.

(** The buffer a column is bound to. *)
Definition column_buffer (at_ : nat → place) (i : nat) (c : column) : option place :=
  match c with
  | plain std_string | wrapped std_string | blob => None
  | _ => Some (at_ i)
  end.

Lemma buffers_bound cols at_ :
  map buffer (bound_binds cols at_) = imap (column_buffer at_) cols.
Proof.
  apply list_eq. intros i. rewrite list_lookup_fmap. unfold bound_binds.
  rewrite !list_lookup_imap. by destruct (cols !! i) as [[[]|[]|]|].
Qed.

(** ** Which templates are instantiated *)

Section statements.
Context `{Errmsg} `{Api} `{Memory}.

Lemma is_Some_bind {A B} (x : option A) (k : A → option B) :
  is_Some (x ≫= k) ↔ ∃ a, x = Some a ∧ is_Some (k a).
Proof.
  destruct x as [a|]; simpl; [split; [by exists a|by intros (? & [= <-] & ?)]|].
  split; [by intros ?%is_Some_None|by intros (? & ? & ?)].
Qed.

Lemma storeOneResult_storable s t i c :
  is_Some (storeOneResult s t i c) ↔ is_storable c = true.
Proof. destruct c as [[]|[]|]; simpl; split; intros; try done; by apply is_Some_None in H2. Qed.

Lemma storeResult_storable s t pos cols :
  (pos < length cols)%nat →
  is_Some (storeResult s t pos cols) ↔ forallb is_storable (take (S pos) cols) = true.
Proof.
  intros Hlt. revert Hlt. induction pos as [|pos IH]; intros Hlt;
    destruct (lookup_lt_is_Some_2 cols _ Hlt) as [c Hc];
    erewrite take_S_r by done; rewrite forallb_app, andb_true_iff; simpl; rewrite Hc, andb_true_r;
    cbn [mbind option_bind]; rewrite is_Some_bind;
    pose proof (storeOneResult_storable s t) as Hone.
  - rewrite <-(Hone 0%nat). split; [intros (p & -> & _); eauto|intros [_ [p Hp]]; eauto].
  - rewrite <-(Hone (S pos)), <-IH by lia. setoid_rewrite is_Some_bind. split.
    + intros (p & -> & q & -> & _). eauto.
    + intros [[q Hq] [p Hp]]. exists p. split; [done|]. eauto.
Qed.

Lemma bindResultBuffer_plain pos cols at_ :
  (pos < length cols)%nat →
  is_Some (bindResultBuffer pos cols at_) ↔
    forallb (λ c, bool_decide (c ≠ blob)) (take (S pos) cols) = true.
Proof.
  assert (∀ c p, is_Some (bindOneResultBuffer c p) ↔ bool_decide (c ≠ blob) = true) as Hone.
  { intros [|?|] p; simpl; split; intros; try done; by apply is_Some_None in H2. }
  induction pos as [|pos IH]; intros Hlt;
    destruct (lookup_lt_is_Some_2 cols _ Hlt) as [c Hc];
    erewrite take_S_r by done; rewrite forallb_app, andb_true_iff; simpl; rewrite Hc, andb_true_r;
    cbn [mbind option_bind]; rewrite is_Some_bind.
  - rewrite <-(Hone _ (at_ 0%nat)). split; [intros (p & -> & _); eauto|intros [_ [p Hp]]; eauto].
  - rewrite <-(Hone _ (at_ (S pos))), <-IH by lia. setoid_rewrite is_Some_bind. split.
    + intros (p & -> & q & -> & _). eauto.
    + intros [[q Hq] [p Hp]]. exists p. split; [done|]. eauto.
Qed.

Lemma storeResult_none s t cols : cols = [] → storeResult s t (length cols - 1) cols = None.
Proof. by intros ->. Qed.

(** A parameter some overload of [bindOne] takes, with a value of its type. *)
Definition bindable (x : param) : bool :=
  match x with
  | p_null | p_blob _ => true
  | p_plain std_string v => match v with string_v _ => true | _ => false end
  | p_plain _ _ => true
  | p_wrapped _ _ => false
  end.

Definition out_columns (o : output) : list column :=
  match o with out_row cols | out_rowset cols => cols end.

Lemma bindOne_param_bindable i x b : is_Some (bindOne_param i x b) ↔ bindable x = true.
Proof.
  destruct x as [|[] []|t w|[[[]|] ?]]; simpl; split; intros; eauto;
    try done; by apply is_Some_None in H2.
Qed.

Lemma BindInHelper_some ins :
  is_Some (BindInHelper ins) ↔ ∃ x, ins = [x] ∧ bindable x = true.
Proof.
  unfold BindInHelper, bindParams. destruct ins as [|x [|y l]].
  - simpl. split; [by intros ?%is_Some_None|by intros (? & ? & ?)].
  - pose proof (bindOne_param_bindable 0 x zero_bind) as Hx. simpl. split.
    + intros [b Hb]. exists x. split; [done|]. apply Hx.
      destruct (bindOne_param 0 x zero_bind); [eauto|done].
    + intros (? & [= <-] & Hb). apply Hx in Hb as [b Hb]. rewrite Hb. simpl. eauto.
  - rewrite (proj2 (Z.eqb_neq _ _)) by (simpl; lia).
    split; [by intros ?%is_Some_None|by intros (? & ? & ?)].
Qed.

(** The columns that results may have: a [Row] also takes blobs. *)
Definition storable (o : output) : column → bool :=
  match o with out_row _ => is_storable | out_rowset _ => is_plain end.

Lemma storeResult_some s t cols :
  is_Some (storeResult s t (length cols - 1) cols) ↔ cols ≠ [] ∧ forallb is_storable cols = true.
Proof.
  destruct cols as [|c cols].
  - split; [by intros ?%is_Some_None|by intros [? ?]].
  - rewrite storeResult_storable, take_ge by (simpl; lia). split; [done|by intros [_ ?]].
Qed.

Lemma is_plain_storable cols : forallb is_plain cols = true ↔
  forallb (λ c, bool_decide (c ≠ blob)) cols = true ∧ forallb is_storable cols = true.
Proof.
  rewrite !forallb_forall. split.
  - intros Hp. split; intros c Hc; specialize (Hp c Hc); by destruct c.
  - intros [Hb Hst] c Hc. specialize (Hb c Hc). specialize (Hst c Hc). by destruct c.
Qed.

Lemma store_rowset_some s cols :
  is_Some (store_rowset s cols) ↔ cols ≠ [] ∧ forallb is_plain cols = true.
Proof.
  unfold store_rowset. rewrite is_Some_bind. setoid_rewrite is_Some_bind.
  rewrite is_plain_storable. pose proof (storeResult_some s (the_row 0) cols) as Hst.
  destruct (decide (cols = [])) as [->|Hne]; [split; [by intros (? & ? & ?)|by intros [? _]]|].
  pose proof (bindResultBuffer_plain (length cols - 1) cols (row_field 0)) as Hb.
  assert (0 < length cols)%nat by (destruct cols; [done|simpl; lia]).
  rewrite take_ge in Hb by lia. rewrite <-Hb by lia. split.
  - intros (f & E1 & p & E2 & _). split; [done|]. split; [eauto|]. apply Hst. eauto.
  - intros (_ & [f Hf] & Hc). destruct (proj2 Hst) as [p Hp]; [done|]. eauto 7.
Qed.

Lemma bindStmtOutput_some hk fuel s o :
  is_Some (bindStmtOutput hk fuel s o) ↔
  out_columns o ≠ [] ∧ forallb (storable o) (out_columns o) = true.
Proof.
  destruct o as [cols|cols]; simpl; unfold bindStmtOutput_row, bindStmtOutput_rowset,
    store_row; rewrite is_Some_bind.
  - rewrite <-(storeResult_some s the_bound). split; [intros (p & -> & _); eauto|intros [p Hp]; eauto].
  - rewrite <-(store_rowset_some s). split; [intros (p & -> & _); eauto|intros [p Hp]; eauto].
Qed.


(** ** Completions *)

(** A part of an operation that does not complete it, whatever its outcome. *)
Abbreviation silent m := (keeps posted m).

(** An operation that posts one completion when it comes to its end, and has completed
    nothing if it throws or has no defined behaviour. *)
Definition completes (m : prog world unit) : Prop := ∀ w,
  match m w with
  | (Val _, w') => ∃ c, posted w' = posted w ++ [c]
  | (_, w') => posted w' = posted w
  end.

Definition no_throw {A} (m : prog world A) : Prop := ∀ w e, (m w).1 ≠ Exc e.

Lemma completes_bind {A} (m : prog world A) k :
  silent m → (∀ a, completes (k a)) → completes (let! a := m in k a).
Proof.
  intros Hm Hk w. unfold bind. specialize (Hm w).
  destruct (m w) as [[a|e|f] w']; simpl in *; [rewrite <- Hm; apply Hk|done..].
Qed.

Lemma completes_if (b : bool) m n : completes m → completes n → completes (if b then m else n).
Proof. by destruct b. Qed.

Lemma completes_fail f : completes (fail f).
Proof. by intros w. Qed.
Lemma completes_throw e : completes (throw e).
Proof. by intros w. Qed.

Lemma silent_ask {A} (f : lib → A) : silent (ask f).
Proof. done. Qed.
Lemma silent_run {A} (f : lib → A * lib) : silent (run f).
Proof. intros w. unfold run. by destruct (f (client w)). Qed.
Lemma silent_exec f : silent (exec f).
Proof. done. Qed.

Lemma no_throw_ret {A} (a : A) : no_throw (ret a).
Proof. by intros w e. Qed.
Lemma no_throw_get : no_throw get.
Proof. by intros w e. Qed.
Lemma no_throw_modify f : no_throw (modify f).
Proof. by intros w e. Qed.
Lemma no_throw_ask {A} (f : lib → A) : no_throw (ask f).
Proof. by intros w e. Qed.
Lemma no_throw_run {A} (f : lib → A * lib) : no_throw (run f).
Proof. intros w e. unfold run. by destruct (f (client w)). Qed.
Lemma no_throw_exec f : no_throw (exec f).
Proof. by intros w e. Qed.
Lemma no_throw_bind {A B} (m : prog world A) (k : A → prog world B) :
  no_throw m → (∀ a, no_throw (k a)) → no_throw (let! a := m in k a).
Proof.
  intros Hm Hk w e. unfold bind. specialize (Hm w). destruct (m w) as [[a|e'|f] w'].
  - apply Hk.
  - intros [= ->]. by apply (Hm e).
  - done.
Qed.
Lemma no_throw_if {A} (b : bool) (m n : prog world A) :
  no_throw m → no_throw n → no_throw (if b then m else n).
Proof. by destruct b. Qed.

Lemma no_throw_fail {A} f : no_throw (fail (A:=A) f).
Proof. by intros w e. Qed.

Lemma posted_write_all l w : posted (write_all l w) = posted w.
Proof.
  unfold write_all. revert w. induction l as [|[p v] l IH]; intros w; simpl; [done|].
  rewrite IH. by destruct p.
Qed.

#[local] Hint Resolve silent_ask silent_run silent_exec no_throw_ret no_throw_get
  no_throw_modify no_throw_ask no_throw_run no_throw_exec no_throw_bind no_throw_if
  no_throw_fail completes_bind completes_if completes_fail completes_throw : prog.

Lemma silent_fetch s : silent (fetch s).
Proof.
  unfold fetch. apply keeps_bind; [auto with prog|]. intros f.
  apply keeps_bind; [apply keeps_modify; intros; by rewrite posted_write_all|auto with prog].
Qed.
Lemma no_throw_fetch s : no_throw (fetch s).
Proof. unfold fetch. auto 10 with prog. Qed.

(** Memory that does not run out. *)
Definition roomy : Prop := ∀ n, can_reserve n = true ∧ can_allocate n = true.

Lemma silent_storeOneResult s t i c p :
  storeOneResult s t i c = Some p → silent p ∧ (roomy → no_throw p).
Proof.
  intros E. destruct c as [[]|[]|]; simplify_eq/=; (split; [|intros Hroom]); unfold storeOneResult_scalar,
    storeOneResult_string; auto with prog.
  - apply keeps_bind; [auto with prog|]. intros w. apply keeps_if; [|auto with prog].
    apply keeps_if; [auto with prog|].
    apply keeps_bind; [by apply keeps_modify|]. intros _.
    apply keeps_bind; [auto with prog|]. intros w'.
    apply keeps_bind; [auto with prog|]. intros r. apply keeps_if; [auto with prog|].
    apply keeps_bind; [|auto with prog]. apply keeps_modify. intros w2. by destruct t.
  - apply no_throw_bind; [auto with prog|]. intros w. apply no_throw_if; [|auto with prog].
    rewrite (proj2 (Hroom _)). simpl. auto 12 with prog.
Qed.

Lemma silent_storeResult s t pos cols p :
  storeResult s t pos cols = Some p → silent p ∧ (roomy → no_throw p).
Proof.
  revert p. induction pos as [|pos IH]; intros p; simpl; destruct (cols !! _) as [c|]; try done;
    simpl; destruct (storeOneResult s t _ c) eqn:E; try done; simpl;
    apply silent_storeOneResult in E as [??].
  - intros [= <-]. done.
  - destruct (storeResult s t pos cols); [|done]. intros [= <-].
    destruct (IH _ eq_refl). split; [|intros Hroom]; auto with prog.
Qed.

Lemma silent_emplace room cols : silent (emplace room cols) ∧ (roomy → no_throw (emplace room cols)).
Proof.
  unfold emplace. split; [auto 8 with prog|]. intros Hroom.
  apply no_throw_bind; [auto with prog|]. intros w. rewrite (proj1 (Hroom _)), andb_false_r. auto with prog.
Qed.

Lemma silent_store_rowset s cols p :
  store_rowset s cols = Some p → ∀ room, silent (p room) ∧ (roomy → no_throw (p room)).
Proof.
  unfold store_rowset. destruct (bindResultBuffer _ cols (row_field 0)); [|done].
  simpl. destruct (storeResult s (the_row 0) _ cols); [|done].
  intros [= <-] room. destruct (silent_emplace room cols) as [He Ht].
  assert (Hstore : ∀ r, let m := default (ret false) (storeResult s (the_row r) (length cols - 1) cols)
    in silent m ∧ (roomy → no_throw m)).
  { intros r. simpl. destruct (storeResult s (the_row r) _ cols) eqn:E; simpl;
      [by apply silent_storeResult in E|split; auto with prog]. }
  split; [|intros Hroom].
  - apply keeps_bind; [done|]. intros r.
    apply keeps_bind; [by apply keeps_modify|]. intros _. apply Hstore.
  - apply no_throw_bind; [auto|]. intros r.
    apply no_throw_bind; [auto with prog|]. intros _. by apply Hstore.
Qed.

Lemma completes_doPostHandler hk e args : completes (doPostHandler hk e args).
Proof. intros w. by eexists. Qed.

Lemma completes_postError hk src args : completes (postError hk src args).
Proof.
  destruct src as [|[]|]; simpl; unfold doPostError;
    auto using completes_doPostHandler with prog.
Qed.

Lemma completes_postHandlerOrError hk src e args : completes (postHandlerOrError hk src e args).
Proof. destruct e; [apply completes_postError|apply completes_doPostHandler]. Qed.

#[local] Arguments postError : simpl never.
#[local] Arguments postHandlerOrError : simpl never.
#[local] Hint Resolve silent_fetch no_throw_fetch completes_doPostHandler completes_postError
  completes_postHandlerOrError : prog.

Lemma no_throw_postError hk src args : no_throw (postError hk src args).
Proof. destruct src as [|[]|]; unfold postError, doPostError, doPostHandler; auto with prog. Qed.
Lemma no_throw_postHandlerOrError hk src e args : no_throw (postHandlerOrError hk src e args).
Proof. destruct e; [apply no_throw_postError|]. unfold postHandlerOrError, postHandler, doPostHandler. auto with prog. Qed.
#[local] Hint Resolve no_throw_postError no_throw_postHandlerOrError : prog.

(** What the rest of an operation does: it completes it, and throws only if memory runs
    out. *)
Definition ends_well (m : prog world unit) : Prop := completes m ∧ (roomy → no_throw m).

Lemma ends_well_bind {A} (m : prog world A) k :
  silent m → (roomy → no_throw m) → (∀ a, ends_well (k a)) → ends_well (let! a := m in k a).
Proof.
  intros Hm Ht Hk. split; [apply completes_bind; [done|]; intros a; apply Hk|].
  intros Hroom. apply no_throw_bind; [auto|]. intros a. by apply Hk.
Qed.
Lemma ends_well_if (b : bool) m n : ends_well m → ends_well n → ends_well (if b then m else n).
Proof. by destruct b. Qed.
Lemma ends_well_postError hk src args : ends_well (postError hk src args).
Proof. split; auto with prog. Qed.
Lemma ends_well_postHandlerOrError hk src e args : ends_well (postHandlerOrError hk src e args).
Proof. split; auto with prog. Qed.
#[local] Hint Resolve ends_well_bind ends_well_if ends_well_postError ends_well_postHandlerOrError : prog.

Lemma fetch_loop_ends_well hk fuel s store :
  silent store → (roomy → no_throw store) → ends_well (fetch_loop hk fuel s store).
Proof.
  intros Hs Ht. induction fuel as [|fuel IH]; simpl; [split; auto with prog|].
  apply ends_well_bind; [auto with prog..|]. intros st. apply ends_well_if; [|auto 7 with prog].
  apply ends_well_bind; [done..|]. intros []; auto with prog.
Qed.

Lemma bind_result_silent s : silent (bind_result s) ∧ no_throw (bind_result s).
Proof. unfold bind_result. split; auto 7 with prog. Qed.

Lemma bindAndExecStmt_silent s b :
  silent (bindAndExecStmt s b) ∧ no_throw (bindAndExecStmt s b).
Proof. unfold bindAndExecStmt. split; auto 7 with prog. Qed.

Lemma bindStmtOutput_ends_well hk fuel s o p :
  bindStmtOutput hk fuel s o = Some p → ends_well p.
Proof.
  destruct (bind_result_silent s) as [Hs Ht].
  destruct o as [cols|cols]; simpl; unfold bindStmtOutput_row, bindStmtOutput_rowset, store_row.
  - destruct (storeResult s the_bound _ cols) as [store|] eqn:E; [|done].
    apply silent_storeResult in E as [??]. intros [= <-].
    unfold BindOutHelper_row. apply ends_well_bind; [by apply keeps_modify|auto with prog|].
    intros _. apply ends_well_bind; [done|auto|]. intros []; [auto with prog|].
    auto 7 with prog.
  - destruct (store_rowset s cols) as [store|] eqn:E; [|done].
    pose proof (silent_store_rowset _ _ _ E) as Hstore. intros [= <-].
    unfold BindOutHelper_rowset. apply ends_well_bind; [by apply keeps_modify|auto with prog|].
    intros _. apply ends_well_bind.
    + apply keeps_bind; [done|]. intros []; unfold store_result; auto with prog.
    + intros _. apply no_throw_bind; [done|]. intros []; unfold store_result; auto with prog.
    + intros []; [auto with prog|]. repeat (apply ends_well_bind; [auto with prog..|]; intros).
      repeat (apply ends_well_if; [auto with prog|]). by apply fetch_loop_ends_well; apply Hstore.
Qed.

Lemma connect_job_completes hk e user password schema flags :
  completes (connect_job hk e user password schema flags).
Proof. unfold connect_job. auto with prog. Qed.

Lemma prepare_job_completes hk str : completes (prepare_job hk str).
Proof.
  unfold prepare_job. apply completes_bind; [auto with prog..|]. intros []; auto with prog.
Qed.

(** With a handler of an error code and a statement, the completion carries one. *)
Lemma prepare_job_posts str w w' : prepare_job other_handler str w = (Val tt, w') →
  ∃ e p, posted w' = posted w ++ [mk_completion e [stmt_arg p]].
Proof.
  unfold prepare_job, run, ask. run_simpl.
  destruct (mysql_stmt_init (client w)) as [[s|] l]; [|done].
  simpl. destruct (mysql_stmt_prepare s str l) as [e l']. simpl.
  destruct (negb (e =? 0)); simpl; unfold doPostError, doPostHandler, ask; run_simpl;
    intros [= <-]; by eexists _, _.
Qed.

Lemma startExecStmt_ends_well hk fuel s ins o p :
  startExecStmt hk fuel s ins o = Some p → ends_well p.
Proof.
  unfold startExecStmt, bindStmtInput. destruct (BindInHelper ins) as [b|]; [|done].
  destruct (bindStmtOutput hk fuel s o) as [q|] eqn:E; [|done].
  apply bindStmtOutput_ends_well in E. intros [= <-].
  destruct (bindAndExecStmt_silent s b).
  apply ends_well_bind; [unfold validateStmtParamCount; auto with prog..|].
  intros []; [|auto with prog]. apply ends_well_bind; [done|auto|]. intros []; auto with prog.
Qed.
Lemma startExecStmt_completes hk fuel s ins o p :
  startExecStmt hk fuel s ins o = Some p → completes p.
Proof. intros E. by apply startExecStmt_ends_well in E as [? _]. Qed.


(** ** Rows *)

Lemma lookup_zip3 f cols r row i :
  zip3 f cols r row !! i =
    match cols !! i, r !! i, row !! i with
    | Some c, Some x, Some o => Some (f c x o)
    | _, _, _ => row !! i
    end.
Proof.
  revert r row i. induction cols as [|c cols IH]; intros r row i; [by destruct (r !! i)|].
  destruct r as [|x r]; [by simpl; destruct ((c :: cols) !! i)|].
  destruct row as [|o row]; [by simpl; destruct ((c :: cols) !! i), ((x :: r) !! i)|].
  destruct i; simpl; [done|apply IH].
Qed.

Lemma zip3_zip3 f g cols r row :
  zip3 f cols r (zip3 g cols r row) = zip3 (λ c x o, f c x (g c x o)) cols r row.
Proof.
  revert r row. induction cols as [|c cols IH]; intros [|x r] [|o row]; simpl; try done.
  by rewrite IH.
Qed.

(** The strings [storeResult<pos>] assigns. *)
Definition fill1 (cols : list column) (r : list cell) (i : nat) (row : list value) : list value :=
  match cols !! i, r !! i, row !! i with
  | Some c, Some x, Some o => <[i := assign_string c x o]> row
  | _, _, _ => row
  end.
Fixpoint fill (cols : list column) (r : list cell) (pos : nat) (row : list value) : list value :=
  match pos with
  | O => fill1 cols r 0 row
  | S pos' => fill cols r pos' (fill1 cols r pos row)
  end.

Lemma lookup_fill1 cols r j i row :
  fill1 cols r j row !! i =
    match cols !! i, r !! i, row !! i with
    | Some c, Some x, Some o => Some (if (i =? j)%nat then assign_string c x o else o)
    | _, _, _ => row !! i
    end.
Proof.
  unfold fill1. destruct (decide (i = j)) as [->|Hij].
  - rewrite Nat.eqb_refl.
    destruct (cols !! j), (r !! j), (row !! j) eqn:E; try done.
    rewrite list_lookup_insert_eq; [done|by apply lookup_lt_Some in E].
  - rewrite (proj2 (Nat.eqb_neq _ _) Hij).
    assert (E : match cols !! j, r !! j, row !! j with
      | Some c, Some x, Some o => <[j := assign_string c x o]> row | _, _, _ => row end !! i
      = row !! i).
    { destruct (cols !! j), (r !! j), (row !! j); try done. by apply list_lookup_insert_ne. }
    rewrite E. by destruct (cols !! i), (r !! i), (row !! i).
Qed.

Lemma lookup_fill cols r pos i row :
  fill cols r pos row !! i =
    match cols !! i, r !! i, row !! i with
    | Some c, Some x, Some o => Some (if (i <=? pos)%nat then assign_string c x o else o)
    | _, _, _ => row !! i
    end.
Proof.
  revert row. induction pos as [|pos IH]; intros row; simpl fill.
  - rewrite lookup_fill1. destruct (cols !! i), (r !! i), (row !! i); try done. by destruct i.
  - rewrite IH, lookup_fill1. destruct (cols !! i), (r !! i), (row !! i); try done.
    destruct (Nat.eqb_spec i (S pos)), (Nat.leb_spec i pos), (Nat.leb_spec i (S pos)); try done; lia.
Qed.

Lemma fill_all cols r row :
  fill cols r (length cols - 1) row = zip3 assign_string cols r row.
Proof.
  apply list_eq. intros i. rewrite lookup_fill, lookup_zip3.
  destruct (cols !! i) eqn:E, (r !! i), (row !! i); try done.
  apply lookup_lt_Some in E. by rewrite (proj2 (Nat.leb_le _ _)) by lia.
Qed.

Lemma zip3_default cols r :
  Forall2 cell_fits cols r →
  zip3 assign_string cols r (default_row cols) = zip_with rowset_value cols r.
Proof.
  induction 1 as [|c x cols r Hc _ IH]; [done|]. simpl. f_equal; [|apply IH].
  by destruct c as [[]|[]|], x as [| |[]].
Qed.

(** An update of the tuple a [store] fills. *)
Definition upd (t : target) (f : list value → list value) (w : world) : world :=
  match t with
  | the_bound => set_bound_row (f (bound_row w)) w
  | the_row k => set_rows (alter f k (rows w)) w
  end.

(** ** Reading results *)

Section cursor.
Context `{!CursorState} `{!Cursor}.

(** The library has not moved to another row. *)
Definition same_row (s : stmt) (l l' : lib) : Prop :=
  remaining s l' = remaining s l ∧ current s l' = current s l ∧ buffers s l' = buffers s l ∧
  (buffered s l → buffered s l').

Lemma same_row_refl s l : same_row s l l.
Proof. by split_and!. Qed.
Lemma same_row_trans s l l' l'' : same_row s l l' → same_row s l' l'' → same_row s l l''.
Proof. unfold same_row. intros; destruct_and!; split_and!; try congruence; auto. Qed.

Lemma upd_id t f w :
  (∀ row, f row = row) → upd t f w = w.
Proof.
  intros Hf. destruct t as [|k]; simpl; [rewrite Hf; by destruct w|].
  replace (alter f k (rows w)) with (rows w); [by destruct w|].
  apply list_eq. intros i. destruct (decide (i = k)) as [->|].
  - rewrite list_lookup_alter_eq. by destruct (rows w !! k); simpl; rewrite ?Hf.
  - by rewrite list_lookup_alter_ne by congruence.
Qed.

Lemma upd_upd t f g w : upd t f (upd t g w) = upd t (f ∘ g) w.
Proof.
  destruct t as [|k]; simpl; [done|]. unfold set_rows. simpl. f_equal.
  apply list_eq. intros i. destruct (decide (i = k)) as [->|].
  - rewrite !list_lookup_alter_eq. by destruct (rows w !! k).
  - by rewrite !list_lookup_alter_ne by congruence.
Qed.

Lemma upd_ext t f g w : (∀ row, f row = g row) → upd t f w = upd t g w.
Proof.
  intros Hf. destruct t; simpl; [by rewrite Hf|].
  f_equal. apply list_alter_ext; auto.
Qed.

(** There is memory for the characters of a cell. *)
Definition roomy_cell (x : cell) : Prop :=
  match x with
  | chars_cell cs => cs = [] ∨ can_allocate (Z.of_nat (length cs)) = true
  | _ => True
  end.

(** What [storeOneResult] needs to know of the row fetched last. *)
Record on_row (s : stmt) (cols : list column) (r : list cell) (w : world) : Prop := {
  row_fits : Forall2 cell_fits cols r;
  row_memory : Forall roomy_cell r;
  row_current : current s (client w) = r;
  row_regs : Forall2 cell_reg r (regs w);
  row_binds : length (binds w) = length cols;
}.

Lemma on_row_upd s cols r t f l b w :
  on_row s cols r w → same_row s (client w) l → length b = length (binds w) →
  on_row s cols r (upd t f (set_client l (set_binds b w))).
Proof.
  intros [? ? Hc ? ?] (_ & Hl & _) Hb. split; destruct t; simpl in *; congruence.
Qed.

(** [w'] is [w] after [f] on the target, the library being on the same row. *)
Definition stored (s : stmt) (t : target) (f : list value → list value) (w w' : world) : Prop :=
  ∃ l b, w' = upd t f (set_client l (set_binds b w)) ∧ same_row s (client w) l ∧
    length b = length (binds w).

Lemma stored_trans s t f g w w' w'' :
  stored s t f w w' → stored s t g w' w'' → stored s t (g ∘ f) w w''.
Proof.
  intros (l & b & -> & Hl & Hb) (l' & b' & -> & Hl' & Hb').
  assert (client (upd t f (set_client l (set_binds b w))) = l) as E by (by destruct t).
  assert (length (binds (upd t f (set_client l (set_binds b w)))) = length b) as E'
    by (by destruct t).
  rewrite E in Hl'. exists l', b'. split_and!; [|by eapply same_row_trans|congruence].
  rewrite <- upd_upd. by destruct t.
Qed.

Lemma stored_same s t f w :
  (∀ row, f row = row) → stored s t f w w.
Proof.
  intros Hf. exists (client w), (binds w).
  split_and!; [rewrite upd_id by done; by destruct w|apply same_row_refl|done].
Qed.

Lemma on_row_stored s cols r t f w w' :
  on_row s cols r w → stored s t f w w' → on_row s cols r w'.
Proof. intros Hw (l & b & -> & Hl & Hb). by apply on_row_upd. Qed.

Lemma fill1_same cols r i c x row :
  cols !! i = Some c → r !! i = Some x → (∀ o, assign_string c x o = o) →
  fill1 cols r i row = row.
Proof.
  intros Hc Hx Ho. unfold fill1. rewrite Hc, Hx. destruct (row !! i) eqn:E; [|done].
  rewrite Ho. by apply list_insert_id.
Qed.

Lemma storeOneResult_string_done s t cols r i b cs w :
  on_row s cols r w → cols !! i = Some (plain std_string) → r !! i = Some (chars_cell (b :: cs)) →
  ∃ w', storeOneResult_string s t i w = (Val true, w') ∧ stored s t (fill1 cols r i) w w'.
Proof.
  intros [Hfit Hmem Hcur Hreg Hbind] Hc Hx.
  assert (can_allocate (Z.of_nat (S (length cs))) = true) as Hroom
    by by destruct (Forall_lookup_1 _ _ _ _ Hmem Hx).
  destruct (Forall2_lookup_l _ _ _ _ _ Hreg Hx) as (reg & Hr & Hnull & Hlen).
  pose proof (lookup_lt_Some _ _ _ Hc) as Hi. rewrite <- Hbind in Hi.
  destruct (lookup_lt_is_Some_2 _ _ Hi) as [b0 Hb0].
  unfold storeOneResult_string. run_simpl.
  rewrite (nth_lookup_Some _ _ zero_reg _ Hr), Hlen. simpl length. rewrite Hroom. simpl.
  destruct (fetch_column s (set_buffer_length (Z.of_nat (S (length cs)))
    (set_buffer (Some local_buffer) b0)) i (client w) (b :: cs)) as (l' & E & Hview);
    [by rewrite Hcur|done|].
  unfold run. simpl. erewrite nth_lookup_Some by (rewrite list_lookup_alter_eq, Hb0; done).
  cbn [Nat.add Z.of_nat Pos.of_succ_nat] in *. rewrite E. simpl.
  eexists. split; [reflexivity|].
  eexists l', _. split_and!; [|done|by rewrite length_alter].
  replace (Z.to_nat _) with (S (length cs)) by lia.
  rewrite length_replicate. simpl. rewrite skipn_all2 by (rewrite length_replicate; lia).
  rewrite app_nil_r, firstn_all.
  assert (Hins : ∀ row, <[i := string_v (b :: cs)]> row = fill1 cols r i row).
  { intros row. unfold fill1. rewrite Hc, Hx. destruct (row !! i) eqn:Eo; [done|].
    apply list_insert_ge. by apply lookup_ge_None. }
  destruct t as [|k]; simpl; [by rewrite Hins|].
  f_equal. by apply list_alter_ext.
Qed.

Lemma storeOneResult_done s t cols r i c x p w :
  on_row s cols r w → cols !! i = Some c → r !! i = Some x →
  storeOneResult s t i c = Some p →
  ∃ w', p w = (Val true, w') ∧ stored s t (fill1 cols r i) w w'.
Proof.
  intros Hw Hc Hx Hp. pose proof Hw as [Hfit _ _ Hreg _].
  pose proof (Forall2_lookup_lr _ _ _ _ _ _ Hfit Hc Hx) as Hcx.
  destruct (Forall2_lookup_l _ _ _ _ _ Hreg Hx) as (reg & Hr & Hok).
  destruct (decide (c = plain std_string)) as [->|Hne].
  - destruct x as [| |[|b cs]]; try done; simplify_eq/=.
    + exists w. split; [|apply stored_same; intros; by eapply fill1_same].
      unfold storeOneResult_string. run_simpl. rewrite (nth_lookup_Some _ _ _ _ Hr).
      destruct Hok as [_ ->]. done.
    + by eapply storeOneResult_string_done.
  - assert (p = storeOneResult_scalar i) as -> by (by destruct c as [[]|[]|]; simplify_eq/=).
    exists w. split.
    + unfold storeOneResult_scalar. run_simpl. rewrite (nth_lookup_Some _ _ _ _ Hr).
      destruct c as [[]|[]|], x; simpl in *; destruct_and?; try done; destruct reg; simpl in *; by subst.
    + apply stored_same. intros. eapply fill1_same; [done..|].
      intros. by destruct c as [[]|[]|], x as [| |[]].
Qed.

Lemma storeResult_done s t cols r pos p w :
  on_row s cols r w → storeResult s t pos cols = Some p →
  ∃ w', p w = (Val true, w') ∧ stored s t (fill cols r pos) w w'.
Proof.
  revert p w. induction pos as [|pos IH]; intros p w Hw; simpl;
    destruct (cols !! _) as [c|] eqn:Hc; try done; simpl;
    destruct (storeOneResult s t _ c) as [one|] eqn:Eone; try done; simpl;
    destruct (Forall2_lookup_l _ _ _ _ _ (row_fits _ _ _ _ Hw) Hc) as (x & Hx & _);
    destruct (storeOneResult_done _ _ _ _ _ _ _ _ _ Hw Hc Hx Eone) as (w1 & E1 & H1').
  - intros [= <-]. eauto.
  - destruct (storeResult s t pos cols) as [q|] eqn:Eq; [|done]. intros [= <-].
    destruct (IH q w1) as (w2 & E2 & H2'); [by eapply on_row_stored|done|].
    exists w2. split; [by erewrite bind_val by done|]. by eapply stored_trans.
Qed.

(** The buffers are those of the tuple the results were bound to. *)
Definition bound_to_tuple (cols : list column) (s : stmt) (l : lib) : Prop :=
  buffers s l = imap (column_buffer bound_field) cols.

Lemma length_zip3 f cols r row : length (zip3 f cols r row) = length row.
Proof. revert r row. induction cols; intros [] []; simpl; auto. Qed.

Lemma write_all_bound_gen cols r k w pre post :
  bound_row w = pre ++ post → length pre = k → length post = length cols →
  Forall2 cell_fits cols r →
  write_all (cell_writes (imap (λ i c, column_buffer bound_field (k + i)%nat c) cols) r) w
  = set_bound_row (pre ++ zip3 assign_scalar cols r post) w.
Proof.
  intros Hb Hk Hp Hfit. revert k w pre post Hb Hk Hp.
  induction Hfit as [|c x cols r Hc _ IH]; intros k w pre [|o post] Hb Hk Hp; try done.
  { simpl. destruct w; simpl in *; by rewrite Hb. }
  assert (Hfun : imap (λ i c, column_buffer bound_field (k + i)%nat c) (c :: cols)
    = column_buffer bound_field k c
      :: imap (λ i c, column_buffer bound_field (S k + i)%nat c) cols).
  { simpl. rewrite Nat.add_0_r. f_equal. apply imap_ext. intros. simpl. by rewrite Nat.add_succ_r. }
  rewrite Hfun. clear Hfun.
  assert (Hstep : write_all (cell_writes [column_buffer bound_field k c] [x]) w
    = set_bound_row ((pre ++ [assign_scalar c x o]) ++ post) w).
  { rewrite <- app_assoc. simpl.
    assert (Hins : ∀ v, <[k := v]> (bound_row w) = pre ++ v :: post).
    { intros v. rewrite Hb, insert_app_r_alt by lia. by rewrite Hk, Nat.sub_diag. }
    destruct c as [[]|[]|], x; simpl in *; try done; unfold write_all; simpl;
      try (by rewrite Hins); destruct w; simpl in *; by rewrite Hb. }
  replace (cell_writes (column_buffer bound_field k c :: _) (x :: r))
    with (cell_writes [column_buffer bound_field k c] [x] ++
      cell_writes (imap (λ i c, column_buffer bound_field (S k + i)%nat c) cols) r)
    by (unfold cell_writes; simpl; by destruct (column_buffer bound_field k c), x).
  unfold write_all in *. rewrite foldl_app, Hstep.
  rewrite (IH (S k) _ (pre ++ [assign_scalar c x o]) post); simpl.
  - rewrite <- app_assoc. by destruct w.
  - done.
  - rewrite length_app. simpl. lia.
  - simpl in Hp. lia.
Qed.

Lemma write_all_bound cols r w :
  Forall2 cell_fits cols r → length (bound_row w) = length cols →
  write_all (cell_writes (imap (column_buffer bound_field) cols) r) w
  = set_bound_row (zip3 assign_scalar cols r (bound_row w)) w.
Proof. intros Hfit Hl. by apply (write_all_bound_gen cols r 0 w [] (bound_row w)). Qed.

Lemma fetch_done s cols r l w :
  delivers s (client w) r l → Forall2 cell_fits cols r → Forall roomy_cell r →
  bound_to_tuple cols s (client w) → length (binds w) = length cols →
  length (bound_row w) = length cols →
  ∃ st rs, fetch s w = (Val st,
      set_bound_row (zip3 assign_scalar cols r (bound_row w)) (set_regs rs (set_client l w))) ∧
    fetched_row st = true ∧ bound_to_tuple cols s l ∧
    on_row s cols r
      (set_bound_row (zip3 assign_scalar cols r (bound_row w)) (set_regs rs (set_client l w))).
Proof.
  intros (f & Ef & Hst & Hregs & Hw & Hcur & Hbuf') Hfit Hmem Hbuf Hlen Hrow.
  exists (status f), (outs f). unfold bound_to_tuple in *. split_and!.
  - unfold fetch. erewrite bind_val by (unfold run; by rewrite Ef).
    run_simpl. rewrite Hw, Hbuf, write_all_bound by done. done.
  - done.
  - congruence.
  - by split.
Qed.

(** What the loop relies on between two fetches. *)
Record ready (cols : list column) (s : stmt) (w : world) : Prop := {
  ready_buffered : buffered s (client w);
  ready_buffers : bound_to_tuple cols s (client w);
  ready_binds : length (binds w) = length cols;
  ready_row : length (bound_row w) = length cols;
}.

Lemma length_bindResultBuffer pos cols at_ f b :
  bindResultBuffer pos cols at_ = Some f → length (f b) = length b.
Proof.
  revert f b. induction pos as [|pos IH]; intros f b; simpl; destruct (cols !! _) as [c|]; try done;
    simpl; destruct (bindOneResultBuffer c _); try done; simpl.
  - intros [= <-]. by rewrite length_alter.
  - destruct (bindResultBuffer pos cols at_) as [g|]; [|done]. intros [= <-].
    by rewrite IH, length_alter.
Qed.

(** The vector has room for one row more. *)
Definition has_room (room : Z) (w : world) : Prop := Z.of_nat (length (rows w)) < room.

Lemma store_rowset_done s cols r p room w :
  on_row s cols r w → store_rowset s cols = Some p → has_room room w →
  ∃ w', p room w = (Val true, w') ∧ rows w' = rows w ++ [zip_with rowset_value cols r] ∧
    posted w' = posted w ∧ bound_row w' = bound_row w ∧ length (binds w') = length (binds w) ∧
    same_row s (client w) (client w').
Proof.
  intros Hw Hp Hroom. pose proof (proj1 (store_rowset_some s cols) (mk_is_Some _ _ Hp)) as [Hne Hplain].
  unfold store_rowset in Hp. destruct (bindResultBuffer _ cols (row_field 0)) as [f0|]; [|done].
  simpl in Hp. destruct (storeResult s (the_row 0) _ cols) as [p0|]; simplify_eq/=.
  apply is_plain_storable in Hplain as [Hblob Hst].
  assert (0 < length cols)%nat by (destruct cols; [done|simpl; lia]).
  destruct (proj2 (bindResultBuffer_plain (length cols - 1) cols (row_field (length (rows w)))
    ltac:(lia))) as [f Ef]; [by rewrite take_ge by lia|].
  destruct (proj2 (storeResult_some s (the_row (length (rows w))) cols) (conj Hne Hst)) as [q Eq].
  set (w1 := set_binds (f (binds w)) (set_rows (rows w ++ [default_row cols]) w)).
  assert (Hw1 : on_row s cols r w1).
  { destruct Hw. split; try done. simpl. by rewrite (length_bindResultBuffer _ _ _ _ _ Ef). }
  destruct (storeResult_done _ _ _ _ _ _ _ Hw1 Eq) as (w2 & E2 & l & b & -> & Hl & Hb).
  eexists. split.
  { unfold emplace. run_simpl. rewrite (proj2 (Z.leb_gt _ _) Hroom). simpl. rewrite Ef, Eq. exact E2. }
  simpl. split_and!; try done.
  - rewrite alter_last, fill_all, zip3_default by apply Hw. done.
  - simpl in Hb. by rewrite (length_bindResultBuffer _ _ _ _ _ Ef) in Hb.
Qed.

Lemma fetch_loop_done hk fuel s cols R store room w :
  store_rowset s cols = Some store → ready cols s w →
  remaining s (client w) = R → Forall (Forall2 cell_fits cols) R → Forall (Forall roomy_cell) R →
  Z.of_nat (length (rows w) + length R) ≤ room → (length R < fuel)%nat →
  ∃ w', fetch_loop hk fuel s (store room) w = (Val tt, w') ∧
    rows w' = rows w ++ map (zip_with rowset_value cols) R ∧
    posted w' = posted w ++ [mk_completion no_error (with_default hk [])].
Proof.
  intros Hstore Hready HR Hfit. revert fuel w Hready HR.
  induction Hfit as [|r R Hr _ IH]; intros [|fuel] w [Hbd Hb Hlen Hrow] HR Hmem Hroom Hfuel;
    simpl in Hfuel; try lia.
  - destruct (fetch_end s (client w) Hbd HR) as (f & l & Ef & Hst & Hone & Hw).
    eexists. split.
    + simpl. erewrite bind_val.
      2:{ unfold fetch. erewrite bind_val by (unfold run; by rewrite Ef).
          run_simpl. by rewrite Hw. }
      rewrite Hst. rewrite (proj2 (Z.eqb_neq _ _) Hone). reflexivity.
    + simpl. by rewrite app_nil_r.
  - inversion Hmem as [|? ? Hm HmR]; subst. simpl in Hroom.
    destruct (fetch_next s (client w) r R Hbd HR) as (l & Hd & Hrest & Hbd').
    destruct (fetch_done s cols r l w Hd Hr Hm Hb Hlen Hrow) as (st & rs & Ef & Hst & Hbuf & Hon).
    destruct (store_rowset_done _ _ _ _ room _ Hon Hstore)
      as (w2 & E2 & Hrows & Hposted & Hbound & Hbinds & Hrem & _ & Hbuf2 & Hbd2);
      [unfold has_room; simpl; lia|].
    simpl in *. destruct (IH fuel w2) as (w' & Ew' & Hrows' & Hposted').
    + split; [auto|unfold bound_to_tuple in *; congruence|congruence|].
      rewrite Hbound, length_zip3. done.
    + congruence.
    + done.
    + rewrite Hrows, length_app. simpl. lia.
    + lia.
    + exists w'. split; [|split].
      * erewrite bind_val by exact Ef. rewrite Hst. by erewrite bind_val by exact E2.
      * rewrite Hrows', Hrows. simpl. by rewrite <- app_assoc.
      * by rewrite Hposted', Hposted.
Qed.

(** There is memory for the rows of a result besides [n] that are there. *)
Definition result_fits (n : nat) (R : list (list cell)) : Prop :=
  Z.of_nat (n + length R) ≤ max_size ∧ can_reserve (Z.of_nat (n + length R)) = true ∧
  Forall (Forall roomy_cell) R.

Lemma rowset_run hk fuel s cols p w l1 l2 :
  bindStmtOutput_rowset hk fuel s cols = Some p →
  mysql_stmt_bind_result s (bound_binds cols bound_field) (client w) = (0, l1) →
  mysql_stmt_store_result s l1 = (0, l2) →
  result_fits (length (rows w)) (remaining s l2) →
  Forall (Forall2 cell_fits cols) (remaining s l2) →
  (length (remaining s l2) < fuel)%nat →
  ∃ w', p w = (Val tt, w') ∧
    rows w' = rows w ++ map (zip_with rowset_value cols) (remaining s l2) ∧
    posted w' = posted w ++ [mk_completion no_error (with_default hk [])].
Proof.
  intros Hp E1 E2 (Hmax & Hres & Hmem) Hfit Hfuel. unfold bindStmtOutput_rowset in Hp.
  destruct (store_rowset s cols) as [store|] eqn:Es; [|done]. simplify_eq/=.
  destruct (bind_ok s _ _ _ E1) as [Hb1 _]. destruct (store_ok s _ _ E2) as (Hb2 & Hbd & Hn).
  set (w1 := set_client l2 (set_regs (BindOutHelperBase (length cols))
    (set_binds (bound_binds cols bound_field) (set_bound_row (default_row cols) w)))).
  assert (u64 (Z.of_nat (length (rows w)) + mysql_stmt_num_rows s l2) =
    Z.of_nat (length (rows w) + length (remaining s l2))) as Hsum.
  { pose proof max_size_bound. rewrite Hn. unfold u64, wrap in *.
    rewrite Zplus_mod_idemp_r, Z.mod_small by lia. lia. }
  destruct (fetch_loop_done hk fuel s cols (remaining s l2) store
    (Z.of_nat (length (rows w) + length (remaining s l2))) w1 Es) as (w' & Ew & Hrows & Hposted);
    [|reflexivity|done..|].
  - split; simpl.
    + done.
    + unfold bound_to_tuple. by rewrite Hb2, Hb1, buffers_bound.
    + unfold bound_binds. by rewrite length_imap.
    + unfold default_row. by rewrite length_map.
  - exists w'. split; [|done].
    unfold BindOutHelper_rowset, bind_result, store_result. rewrite bindResult_all.
    unfold run, ask. run_simpl. rewrite E1. simpl. rewrite E2. simpl.
    rewrite Hsum, (proj2 (Z.ltb_ge _ _) Hmax), Hres. exact Ew.
Qed.

(** C16. A statement executed and its result set buffered, when no row has a NULL and every
    cell has the type of its column, and there is memory for them: [runPrepared] into a
    [RowSet] appends one row for every row of the result, in order, and completes
    without error; the loop ends once all are fetched. But the rows have only
    their strings: the buffers of the other columns stay those of [holder], which
    no row is copied from, so every number of every row is 0. *)
Theorem rowset_result hk fuel s cols p w l1 l2 :
  bindStmtOutput_rowset hk fuel s cols = Some p →
  mysql_stmt_bind_result s (bound_binds cols bound_field) (client w) = (0, l1) →
  mysql_stmt_store_result s l1 = (0, l2) →
  result_fits (length (rows w)) (remaining s l2) →
  Forall (Forall2 cell_fits cols) (remaining s l2) →
  (length (remaining s l2) < fuel)%nat →
  ∃ w', p w = (Val tt, w') ∧
    rows w' = rows w ++ map (zip_with rowset_value cols) (remaining s l2) ∧
    posted w' = posted w ++ [mk_completion no_error (with_default hk [])].
Proof. exact (rowset_run hk fuel s cols p w l1 l2). Qed.

(** C29. A statement executed into a [Row] of plain columns, when binding succeeds, the
    library delivers a row without NULL whose cells have the types of the columns, and
    there is memory for its strings: [runPrepared] stores the row and completes without
    error, with one row. The numbers are the columns' values, and so is every string
    that is not empty; an empty one leaves the field as it was. *)
Theorem row_result hk s cols p w l1 l2 r :
  bindStmtOutput_row hk s cols = Some p → length (bound_row w) = length cols →
  mysql_stmt_bind_result s (bound_binds cols bound_field) (client w) = (0, l1) →
  delivers s l1 r l2 → Forall2 cell_fits cols r → Forall roomy_cell r →
  ∃ w', p w = (Val tt, w') ∧ bound_row w' = zip3 row_value cols r (bound_row w) ∧
    rows w' = rows w ∧
    posted w' = posted w ++ [mk_completion no_error (with_default hk [rows_arg 1])].
Proof.
  intros Hp Hlen E1 Hr Hfit Hmem. unfold bindStmtOutput_row, store_row in Hp.
  destruct (storeResult s the_bound (length cols - 1) cols) as [store|] eqn:Es; [|done].
  simplify_eq/=. destruct (bind_ok s _ _ _ E1) as [Hb1 _].
  set (w1 := set_client l1 (set_regs (BindOutHelperBase (length cols))
    (set_binds (bound_binds cols bound_field) w))).
  destruct (fetch_done s cols r l2 w1) as (st & rs & Ef & Hst & _ & Hon); try done.
  - unfold bound_to_tuple. simpl. by rewrite Hb1, buffers_bound.
  - simpl. unfold bound_binds. by rewrite length_imap.
  - destruct (storeResult_done _ _ _ _ _ _ _ Hon Es) as (w2 & E2 & l' & b & -> & _).
    eexists. split; [|split; [|split]].
    + unfold BindOutHelper_row, bind_result. rewrite bindResult_all.
      unfold run. run_simpl. rewrite E1. simpl. fold w1. rewrite Ef, Hst, E2. reflexivity.
    + simpl. by rewrite fill_all, zip3_zip3.
    + done.
    + done.
Qed.

End cursor.

(** A NULL in the last column of a [Row], when that column is a number, makes
    [store] fail; no function of the library has failed, so the error code the
    handler gets is 0, which reads as success, with one row. *)
Theorem null_column_reported_as_success hk s cols t p w l1 l2 f reg :
  bindStmtOutput_row hk s (cols ++ [plain t]) = Some p → t ≠ std_string →
  mysql_stmt_bind_result s (bound_binds (cols ++ [plain t]) bound_field) (client w) = (0, l1) →
  mysql_stmt_fetch s l1 = (f, l2) → fetched_row (status f) = true →
  outs f !! length cols = Some reg → reg_null reg = true →
  mysql_stmt_errno s l2 = 0 →
  ∃ w' e, p w = (Val tt, w') ∧ is_error e = false ∧
    posted w' = posted w ++ [mk_completion e (with_default hk [rows_arg 1])].
Proof.
  intros Hp Ht E1 Ef Hst Hreg Hnull Herr. unfold bindStmtOutput_row, store_row in Hp.
  destruct (storeResult s the_bound _ (cols ++ [plain t])) as [store|] eqn:Es; [|done].
  simplify_eq/=.
  assert (Hstore : ∀ w, regs w = outs f → store w = (Val false, w)).
  { intros w1 Hw1. rewrite length_app, Nat.add_sub in Es.
    assert (Hscalar : storeOneResult s the_bound (length cols) (plain t)
      = Some (storeOneResult_scalar (length cols))) by (by destruct t).
    assert (Hone : storeOneResult_scalar (length cols) w1 = (Val false, w1)).
    { unfold storeOneResult_scalar. run_simpl. by rewrite Hw1, (nth_lookup_Some _ _ _ _ Hreg), Hnull. }
    assert (Hlook : (cols ++ [plain t]) !! length cols = Some (plain t)).
    { by rewrite lookup_app_r, Nat.sub_diag by lia. }
    destruct (length cols) as [|n]; cbn [storeResult] in Es; rewrite Hlook in Es;
      unfold mbind, option_bind in Es; rewrite Hscalar in Es; [by simplify_eq|].
    destruct (storeResult s the_bound n _); simplify_eq/=. unfold bind. by rewrite Hone. }
  eexists _, (mk_ec 0 mysql_category). split; [|split; [done|]].
  - unfold BindOutHelper_row, bind_result. rewrite bindResult_all.
    unfold fetch, run. run_simpl. rewrite E1. simpl. rewrite Ef. simpl.
    rewrite Hst. rewrite Hstore.
    2:{ clear. generalize (writes f). unfold write_all.
        assert (∀ l w0, regs w0 = outs f → regs (foldl (λ w pv, write_place pv.1 pv.2 w) w0 l) = outs f) as Hg.
        { induction l as [|[[] v] l IH]; intros w0 Hw0; simpl; [done|by apply IH..]. }
        intros l. by apply Hg. }
    unfold postHandlerOrError. simpl. unfold postError, ask. run_simpl.
    assert (Hc : ∀ l w0, client (write_all l w0) = client w0).
    { unfold write_all. induction l as [|[[] v] l IH]; intros w0; simpl; [done|by rewrite IH..]. }
    rewrite Hc. simpl. rewrite Herr. reflexivity.
  - simpl. by rewrite posted_write_all.
Qed.

(** When [mysql_stmt_init] is out of memory and returns no statement,
    [prepareQuery] asks that statement for its error: a null pointer is
    dereferenced, and the handler is never called. *)
Theorem prepare_without_statement hk str w l :
  mysql_stmt_init (client w) = (None, l) →
  prepare_job hk str w = (Fault NullDereference, set_client l w).
Proof. intros E. unfold prepare_job, bind, run. by rewrite E. Qed.

End statements.

(** ** The service and its threads (mysqlservice.cpp) *)

Section threads.
Context `{Platform} `{Errmsg} `{Api} `{Memory}.

(** A function posted to [workIoService], with the tuple and the rows its
    operation was given to fill. *)
Record job : Type := mk_job {
  j_row : list value;
  j_rows : list (list value);
  j_run : prog world unit;
}.

(** A connection object: its id and the thread that holds the other copy of its
    [threadEndFlag]. *)
Record connection : Type := mk_connection { connId : Z; thread : nat }.

(** The members of [Service]: threads that were started are numbered; [running]
    are those whose loop goes on. [io] is the connection's io_service. *)
Record service : Type := mk_service {
  s_client : lib;
  connIdFactory : Z;
  started : nat;
  threadPool : list nat;
  running : list nat;
  connections : list connection;
  work : list job;
  stopped : bool;
  io : list completion;
}.

Definition set_s_client x s := mk_service x (connIdFactory s) (started s) (threadPool s)
  (running s) (connections s) (work s) (stopped s) (io s).
Definition set_connIdFactory x s := mk_service (s_client s) x (started s) (threadPool s)
  (running s) (connections s) (work s) (stopped s) (io s).
Definition set_threads n pool r s := mk_service (s_client s) (connIdFactory s) n pool
  r (connections s) (work s) (stopped s) (io s).
Definition set_connections x s := mk_service (s_client s) (connIdFactory s) (started s)
  (threadPool s) (running s) x (work s) (stopped s) (io s).
Definition set_work x s := mk_service (s_client s) (connIdFactory s) (started s) (threadPool s)
  (running s) (connections s) x (stopped s) (io s).
Definition set_stopped x s := mk_service (s_client s) (connIdFactory s) (started s) (threadPool s)
  (running s) (connections s) (work s) x (io s).
Definition set_io x s := mk_service (s_client s) (connIdFactory s) (started s) (threadPool s)
  (running s) (connections s) (work s) (stopped s) x.

(** [Service::Service] *)
Definition new_service (l : lib) : service := mk_service l 1 0 [] [] [] [] false [].

(** [Service::initMySql]: runs [mysql_library_init] on its first call; a non-zero
    result is thrown, and leaves the call to be tried again. *)
Definition initMySql (library_init : lib → Z * lib) (initialised : bool) : prog lib bool :=
  if initialised then ret true
  else λ l, let '(e, l') := library_init l in
    if negb (e =? 0) then (Exc (StdException "std::bad_alloc"), l') else (Val true, l').

(** An [atomic_int] wraps around. *)
Definition atomic_int (x : Z) : Z := (x + 2 ^ 31) `mod` 2 ^ 32 - 2 ^ 31.

(** [Service::construct] *)
Definition construct : prog service connection :=
  let! s := get in
  let '(ok, l) := mysql_init (s_client s) in
  modify (set_s_client l) ;;;
  if negb ok then throw (StdException "std::bad_alloc")
  else
    let! s := get in
    let t := started s in
    let c := mk_connection (connIdFactory s) t in
    modify (λ s, set_connIdFactory (atomic_int (connIdFactory s + 1)) s) ;;;
    modify (λ s, set_threads (S t) (threadPool s ++ [t]) (running s ++ [t]) s) ;;;
    modify (λ s, set_connections (connections s ++ [c]) s) ;;;
    ret c.

Definition getId (c : connection) : Z := connId c.

(** [Service::destroy], after which the object [threadEndFlag] is gone. *)
Definition destroy (c : connection) : prog service unit :=
  modify (λ s, set_s_client (mysql_close (s_client s)) s) ;;;
  modify (λ s, set_connections (filter (λ d, thread d ≠ thread c) (connections s)) s).

(** [workIoService.post] *)
Definition post (j : job) : prog service unit := modify (λ s, set_work (work s ++ [j]) s).

(** [Service::connect], [prepareQuery] and [runPrepared]; [executeQuery] posts a
    function that does nothing. [mysql_of] reads [stmt_->mysql]: the thread that
    numbers the connection. *)
Definition connect hk e user password schema flags : prog service unit :=
  post (mk_job [] [] (connect_job hk e user password schema flags)).
Definition prepareQuery hk str : prog service unit := post (mk_job [] [] (prepare_job hk str)).
Definition executeQuery : prog service unit := post (mk_job [] [] (ret tt)).
Definition runPrepared (mysql_of : stmt → nat) hk fuel (c : connection) (s : stmt)
    (ins : list param) (o : output) (row : list value) (rows : list (list value))
    : option (prog service unit) :=
  p ← startExecStmt hk fuel s ins o;
  Some (assertM (bool_decide (thread c = mysql_of s)) ;;; post (mk_job row rows p)).

(** ** [BasicConnection] (sql/connection.hpp)

    An object of the service: [basic_io_object] constructs and destroys it; its
    operations forward to the service with the object's implementation. *)

Definition BasicConnection : prog service connection := construct.
Definition BasicConnection_destroy (c : connection) : prog service unit := destroy c.
Definition BasicConnection_getId (c : connection) : Z := getId c.
Definition BasicConnection_connect hk (c : connection) e user password schema (flags : Z)
    : prog service unit := connect hk e user password schema flags.
Definition BasicConnection_executeQuery (c : connection) : prog service unit := executeQuery.
Definition BasicConnection_prepareQuery hk (c : connection) str : prog service unit :=
  prepareQuery hk str.
Definition BasicConnection_runPrepared_row (mysql_of : stmt → nat) hk fuel (c : connection)
    (s : stmt) (ins : list param) (cols : list column) row : option (prog service unit) :=
  runPrepared mysql_of hk fuel c s ins (out_row cols) row [].
Definition BasicConnection_runPrepared_rowset (mysql_of : stmt → nat) hk fuel (c : connection)
    (s : stmt) (ins : list param) (cols : list column) rows : option (prog service unit) :=
  runPrepared mysql_of hk fuel c s ins (out_rowset cols) [] rows.

(** [terminated.unique()]: the connection object is gone. *)
Definition unique (t : nat) (s : service) : bool :=
  negb (existsb (λ c, (thread c =? t)%nat) (connections s)).

(** What a job works on when it starts. *)
Definition job_world (j : job) (l : lib) : world := mk_world l [] [] (j_row j) (j_rows j) [].

(** [run_one] on the thread [t]: [None] while it waits for a function to run, or
    whether it ran one. An exception stops the program ([LOG(FATAL)]). *)
Definition run_one : prog service (option bool) :=
  let! s := get in
  if stopped s then ret (Some false)
  else match work s with
  | [] => ret None
  | j :: rest =>
      modify (set_work rest) ;;;
      let '(r, w) := j_run j (job_world j (s_client s)) in
      modify (set_s_client (client w)) ;;;
      modify (λ s, set_io (io s ++ posted w) s) ;;;
      match r with
      | Val _ => ret (Some true)
      | Exc _ => fail AssertionFailed
      | Fault f => fail f
      end
  end.

(** After the loop: the thread leaves the pool, unless the service is stopping. *)
Definition thread_ends (t : nat) : prog service unit :=
  modify (λ s, set_threads (started s)
    (if stopped s then threadPool s else filter (λ u, u ≠ t) (threadPool s))
    (filter (λ u, u ≠ t) (running s)) s).

(** The function each thread runs, from one [run_one] to the next. *)
Definition worker (t : nat) : prog service unit :=
  let! r := run_one in
  let! s := get in
  match r with
  | None => ret tt
  | Some false => thread_ends t
  | Some true => if unique t s then thread_ends t else ret tt
  end.

(** [Service::shutdown_service]: [join_all] waits until every thread ended. *)
Definition shutdown_service : prog service unit :=
  modify (set_stopped true) ;;;
  let! s := get in run_all worker (running s).

(** What happens to a service. *)
Inductive step : service → service → Prop :=
  | step_construct s s' r : construct s = (r, s') → step s s'
  | step_destroy c s s' : c ∈ connections s → destroy c s = (Val tt, s') → step s s'
  | step_post j s s' : post j s = (Val tt, s') → step s s'
  | step_worker t s s' : t ∈ running s → worker t s = (Val tt, s') → step s s'
  | step_shutdown s s' : shutdown_service s = (Val tt, s') → step s s'.

Definition initial (s : service) : Prop := ∃ l, s = new_service l.

(** ** The threads serve the connections *)

Record threads_ok (s : service) : Prop := {
  running_nodup : NoDup (running s);
  running_started : Forall (λ t, t < started s)%nat (running s);
  connections_nodup : NoDup (map thread (connections s));
  connections_started : Forall (λ t, t < started s)%nat (map thread (connections s));
  connections_run : stopped s = false → ∀ c, c ∈ connections s → thread c ∈ running s;
  pool_is_running : stopped s = false → threadPool s = running s;
}.

Lemma threads_ok_construct : preserves threads_ok construct.
Proof.
  intros s [H1' H2' H3' H4' H5' H6']. unfold construct. run_simpl.
  destruct (mysql_init (s_client s)) as [[] l]; simpl; [|by split].
  split; simpl.
  - apply NoDup_app. split_and!; [done| |apply NoDup_singleton].
    intros t Ht ->%list_elem_of_singleton. pose proof (proj1 (Forall_forall _ _) H2' _ Ht). simpl in *. lia.
  - apply Forall_app. split; [|by constructor; [lia|]]. eapply Forall_impl; [done|]. simpl. lia.
  - rewrite map_app. apply NoDup_app. split_and!; [done| |apply NoDup_singleton].
    intros t Ht ->%list_elem_of_singleton. pose proof (proj1 (Forall_forall _ _) H4' _ Ht). simpl in *. lia.
  - rewrite map_app. apply Forall_app. split; [|by constructor; [simpl; lia|]].
    eapply Forall_impl; [done|]. simpl. lia.
  - intros Hs c [Hc| ->%list_elem_of_singleton]%elem_of_app; apply elem_of_app; [left; auto|].
    right. by apply list_elem_of_singleton.
  - intros Hs. by rewrite H6'.
Qed.

Lemma map_filter_sublist {A B} (f : A → B) (P : A → Prop) `{!∀ x, Decision (P x)} l :
  map f (filter P l) `sublist_of` map f l.
Proof.
  induction l as [|x l IH]; [done|]. rewrite filter_cons. case_decide; simpl;
    by constructor.
Qed.

Lemma threads_ok_destroy c : preserves threads_ok (destroy c).
Proof.
  intros s [H1' H2' H3' H4' H5' H6']. unfold destroy. run_simpl. split; simpl; try done.
  - eapply sublist_NoDup; [exact H3'|apply map_filter_sublist].
  - apply Forall_forall. intros t Ht. apply (proj1 (Forall_forall _ _) H4').
    eapply elem_of_sublist; [exact Ht|apply map_filter_sublist].
  - intros Hs d [_ Hd]%list_elem_of_filter. auto.
Qed.

(** A job leaves the threads and the connections alone. *)
Definition threads_of (s : service) :=
  (started s, threadPool s, running s, connections s, stopped s).

Lemma run_one_keeps : keeps threads_of run_one.
Proof.
  unfold run_one. apply keeps_bind; [auto with prog|]. intros s.
  apply keeps_if; [auto with prog|]. destruct (work s) as [|j rest]; [auto with prog|].
  apply keeps_bind; [by apply keeps_modify|]. intros _.
  destruct (j_run j _) as [r w].
  apply keeps_bind; [by apply keeps_modify|]. intros _.
  apply keeps_bind; [by apply keeps_modify|]. intros _.
  destruct r; auto with prog.
Qed.

Lemma threads_ok_of s s' : threads_of s' = threads_of s → threads_ok s → threads_ok s'.
Proof. unfold threads_of. intros [= E1 E2 E3 E4 E5] []. split; rewrite ?E1, ?E2, ?E3, ?E4, ?E5; done. Qed.

Lemma threads_ok_run_one : preserves threads_ok run_one.
Proof. intros s Hs. eapply threads_ok_of; [apply run_one_keeps|done]. Qed.

Lemma unique_spec t s : unique t s = true ↔ ∀ c, c ∈ connections s → thread c ≠ t.
Proof.
  unfold unique. rewrite negb_true_iff. split.
  - intros He c Hc <-. revert He. apply not_false_iff_true, existsb_exists.
    exists c. split; [by apply list_elem_of_In|apply Nat.eqb_refl].
  - intros Hc. apply not_true_iff_false. intros (c & Hin & E)%existsb_exists.
    apply Nat.eqb_eq in E. by apply (Hc c); [apply list_elem_of_In|].
Qed.

Lemma threads_ok_ends t s :
  threads_ok s → stopped s = true ∨ unique t s = true → threads_ok (thread_ends t s).2.
Proof.
  intros [H1' H2' H3' H4' H5' H6'] Ht. unfold thread_ends. run_simpl. split; simpl; try done.
  - by apply NoDup_filter.
  - apply Forall_forall. intros u [_ Hu]%list_elem_of_filter.
    by apply (proj1 (Forall_forall _ _) H2').
  - intros Hs c Hc. apply list_elem_of_filter. split; [|auto].
    destruct Ht as [Ht|Ht]; [congruence|]. by eapply unique_spec in Ht.
  - intros Hs. by rewrite Hs, H6'.
Qed.

Lemma run_one_stopped s s' : run_one s = (Val (Some false), s') → stopped s' = true.
Proof.
  unfold run_one. run_simpl. destruct (stopped s) eqn:E; [by intros [= <-]|].
  destruct (work s) as [|j rest]; [done|]. simpl.
  destruct (j_run j _) as [[] w]; simpl; done.
Qed.

Lemma threads_ok_worker t : preserves threads_ok (worker t).
Proof.
  intros s Hs. unfold worker, bind at 1. pose proof (threads_ok_run_one s Hs) as Hs1.
  destruct (run_one s) as [[r|e|f] s1] eqn:E; simpl in *; [|done..].
  unfold bind, get. destruct r as [[]|]; [|apply threads_ok_ends|]; try done.
  - destruct (unique t s1) eqn:Eu; [apply threads_ok_ends; auto|done].
  - left. by eapply run_one_stopped.
Qed.

Lemma threads_ok_shutdown : preserves threads_ok shutdown_service.
Proof.
  unfold shutdown_service. apply preserves_bind.
  - intros s [H1' H2' H3' H4' H5' H6']. by split.
  - intros _. apply preserves_bind; [auto with prog|]. intros s.
    apply preserves_run_all, threads_ok_worker.
Qed.

Lemma threads_ok_step s s' : threads_ok s → step s s' → threads_ok s'.
Proof.
  intros Hs Hstep. destruct Hstep as [s s' r E|c s s' Hc E|j s s' E|t s s' Ht E|s s' E];
    apply (f_equal snd) in E; simpl in E; subst.
  - by apply threads_ok_construct.
  - by apply threads_ok_destroy.
  - by apply (threads_ok_of s).
  - by apply threads_ok_worker.
  - by apply threads_ok_shutdown.
Qed.

Lemma threads_ok_reachable s : reachable initial step s → threads_ok s.
Proof.
  apply reachable_inv; [|apply threads_ok_step].
  intros s0 [l ->]. split; simpl; try done; try constructor.
  intros _ c Hc. by apply not_elem_of_nil in Hc.
Qed.

(** C27. Until the service is shut down every connection has a running thread of
    its own, so there are at least as many threads as connections; and when a
    thread whose connection is gone has run a job it ends. *)
Theorem threads_serve_connections s :
  reachable initial step s → stopped s = false →
  (∀ c, c ∈ connections s → thread c ∈ running s) ∧
  (length (connections s) ≤ length (running s))%nat ∧
  (∀ t s', t ∈ running s → (∀ c, c ∈ connections s → (thread c ≠ t)) → work s ≠ [] →
     worker t s = (Val tt, s') → (t ∉ running s') ∧ connections s' = connections s).
Proof.
  intros Hr Hs. apply threads_ok_reachable in Hr. destruct Hr as [H1' H2' H3' H4' H5' H6'].
  split_and!; [auto| |].
  - rewrite <- (length_map thread). apply submseteq_length, NoDup_submseteq; [done|].
    intros t Ht. apply list_elem_of_fmap in Ht as (c & -> & Hc). auto.
  - intros t s' Ht Hu Hw. unfold worker, bind at 1.
    pose proof (run_one_keeps s) as Hk.
    destruct (run_one s) as [[r|e|f] s1] eqn:E; simpl in *; [|done..].
    unfold threads_of in Hk. injection Hk as Es Ep Er Ec Est.
    assert (Hun : unique t s1 = true) by (apply unique_spec; by rewrite Ec).
    assert (r = Some true) as ->.
    { revert E. unfold run_one. run_simpl. rewrite Hs. destruct (work s); [done|]. simpl.
      destruct (j_run j _) as [[] w]; simpl; by intros [= <- _]. }
    unfold bind, get. rewrite Hun. unfold thread_ends, modify. intros [= <-]. simpl. split; [|done].
    by intros [? _]%list_elem_of_filter.
Qed.

End threads.

(** ** A client library for the witnesses *)

Definition toy_errmsg : Errmsg := {|
  CR_UNKNOWN_ERROR := 2000;
  CR_SOCKET_CREATE_ERROR := 2001;
  CR_CONNECTION_ERROR := 2002;
  CR_CONN_HOST_ERROR := 2003;
  CR_IPSOCK_ERROR := 2004;
  CR_UNKNOWN_HOST := 2005;
  CR_SERVER_GONE_ERROR := 2006;
  CR_VERSION_ERROR := 2007;
  CR_OUT_OF_MEMORY := 2008;
  CR_WRONG_HOST_INFO := 2009;
  CR_LOCALHOST_CONNECTION := 2010;
  CR_TCP_CONNECTION := 2011;
  CR_SERVER_HANDSHAKE_ERR := 2012;
  CR_SERVER_LOST := 2013;
  CR_COMMANDS_OUT_OF_SYNC := 2014;
  CR_NAMEDPIPE_CONNECTION := 2015;
  CR_NAMEDPIPEWAIT_ERROR := 2016;
  CR_NAMEDPIPEOPEN_ERROR := 2017;
  CR_NAMEDPIPESETSTATE_ERROR := 2018;
  CR_CANT_READ_CHARSET := 2019;
  CR_NET_PACKET_TOO_LARGE := 2020;
  CR_EMBEDDED_CONNECTION := 2021;
  CR_PROBE_SLAVE_STATUS := 2022;
  CR_PROBE_SLAVE_HOSTS := 2023;
  CR_PROBE_SLAVE_CONNECT := 2024;
  CR_PROBE_MASTER_CONNECT := 2025;
  CR_SSL_CONNECTION_ERROR := 2026;
  CR_MALFORMED_PACKET := 2027;
  CR_WRONG_LICENSE := 2028;
  CR_NULL_POINTER := 2029;
  CR_NO_PREPARE_STMT := 2030;
  CR_PARAMS_NOT_BOUND := 2031;
  CR_DATA_TRUNCATED := 2032;
  CR_NO_PARAMETERS_EXISTS := 2033;
  CR_INVALID_PARAMETER_NO := 2034;
  CR_INVALID_BUFFER_USE := 2035;
  CR_UNSUPPORTED_PARAM_TYPE := 2036;
  CR_SHARED_MEMORY_CONNECTION := 2037;
  CR_SHARED_MEMORY_CONNECT_REQUEST_ERROR := 2038;
  CR_SHARED_MEMORY_CONNECT_ANSWER_ERROR := 2039;
  CR_SHARED_MEMORY_CONNECT_FILE_MAP_ERROR := 2040;
  CR_SHARED_MEMORY_CONNECT_MAP_ERROR := 2041;
  CR_SHARED_MEMORY_FILE_MAP_ERROR := 2042;
  CR_SHARED_MEMORY_MAP_ERROR := 2043;
  CR_SHARED_MEMORY_EVENT_ERROR := 2044;
  CR_SHARED_MEMORY_CONNECT_ABANDONED_ERROR := 2045;
  CR_SHARED_MEMORY_CONNECT_SET_ERROR := 2046;
  CR_CONN_UNKNOW_PROTOCOL := 2047;
  CR_INVALID_CONN_HANDLE := 2048;
  CR_SECURE_AUTH := 2049;
  CR_FETCH_CANCELED := 2050;
  CR_NO_DATA := 2051;
  CR_NO_STMT_METADATA := 2052;
  CR_NO_RESULT_SET := 2053;
  CR_NOT_IMPLEMENTED := 2054;
  CR_ERROR_LAST := 2099
|}.

Record toy_lib : Type := mk_toy {
  toy_rows : list (list cell);
  toy_current : list cell;
  toy_buffers : list (option place);
  toy_buffered : bool;
  toy_statements : bool;
}.

Definition toy_reg (c : cell) : BindOutReg :=
  match c with
  | null_cell => mk_reg false true 0
  | scalar_cell _ => mk_reg false false 4
  | chars_cell s => mk_reg true false (Z.of_nat (length s))
  end.

(** One result set, served row by row; when it is not buffered, the connection is lost
    after the first row. It has no memory for statements if its last field says so. *)
Definition toy_api_of (field_count : Z) : Api := {|
  lib := toy_lib;
  MYSQL_DATA_TRUNCATED := 101;
  mysql_init := λ l, (true, l);
  mysql_real_connect := λ _ _ _ _ _ l, (true, l);
  mysql_close := id;
  mysql_errno := λ _, 0;
  mysql_stmt_init := λ l, (if toy_statements l then Some 0%nat else None, l);
  mysql_stmt_prepare := λ _ _ l, (0, l);
  mysql_stmt_errno := λ _ _, 0;
  mysql_stmt_bind_param := λ _ _ l, (0, l);
  mysql_stmt_execute := λ _ l, (0, l);
  mysql_stmt_affected_rows := λ _ _, 0;
  mysql_stmt_field_count := λ _ _, field_count;
  mysql_stmt_bind_result := λ _ b l,
    (0, mk_toy (toy_rows l) (toy_current l) (map buffer b) (toy_buffered l) (toy_statements l));
  mysql_stmt_store_result := λ _ l,
    (0, mk_toy (toy_rows l) (toy_current l) (toy_buffers l) true (toy_statements l));
  mysql_stmt_num_rows := λ _ l, u64 (Z.of_nat (length (toy_rows l)));
  mysql_stmt_fetch := λ _ l,
    match toy_rows l with
    | [] => (mk_fetched (if toy_buffered l then 100 else 1) [] [], l)
    | r :: rest =>
        (mk_fetched 0 (map toy_reg r) (cell_writes (toy_buffers l) r),
         mk_toy (if toy_buffered l then rest else []) r (toy_buffers l) (toy_buffered l)
           (toy_statements l))
    end;
  mysql_stmt_fetch_column := λ _ _ i l,
    match toy_current l !! i with
    | Some (chars_cell cs) => (0, cs, l)
    | _ => (1, [], l)
    end;
  mysql_stmt_free_result := λ _ l, l;
  mysql_stmt_close := λ _ l, l;
|}.

Definition toy_api : Api := toy_api_of 2.

Lemma toy_max_size_bound : 2 ^ 60 < 2 ^ 64.
Proof. reflexivity. Qed.
Definition toy_memory : Memory := {|
  max_size := 2 ^ 60; max_size_bound := toy_max_size_bound;
  can_reserve := λ _, true; can_allocate := λ n, n <? 2 ^ 30;
|}.

#[local] Existing Instances toy_errmsg toy_api toy_memory.

Lemma toy_regs r : Forall2 cell_reg r (map toy_reg r).
Proof. induction r as [|[] r IH]; simpl; constructor; done. Qed.

Definition toy_cursor_state_of (n : Z) : CursorState (H:=toy_api_of n) := {|
  remaining := λ _, toy_rows : lib (Api:=toy_api_of n) → _;
  current := λ _, toy_current : lib (Api:=toy_api_of n) → _;
  buffers := λ _, toy_buffers : lib (Api:=toy_api_of n) → _;
  buffered := λ _ l, toy_buffered l = true;
|}.

Lemma toy_cursor_of (n : Z) : Cursor (H:=toy_api_of n) (H0:=toy_cursor_state_of n).
Proof.
  constructor.
  - intros s l r rest Hb E. simpl in *. exists (mk_toy rest r (toy_buffers l) true (toy_statements l)).
    split; [|done]. unfold delivers. simpl. rewrite E, Hb. eexists. split_and!; try done. apply toy_regs.
  - intros s l Hb E. simpl in *. rewrite E, Hb. by eexists _, _.
  - intros s b i l cs E _. simpl in *. rewrite E. by exists l.
  - intros s b l l' [= <-]. done.
  - intros s l l' [= <-]. done.
Qed.
Definition toy_cursor_state : CursorState := toy_cursor_state_of 2.
#[local] Existing Instance toy_cursor_state.
Lemma toy_cursor : Cursor.
Proof. apply (toy_cursor_of 2). Qed.
#[local] Existing Instance toy_cursor.

(** A world at the start of a job, with the given results, row and rows. *)
Definition toy_world (rs : list (list cell)) (row : list value) (rows : list (list value)) : world :=
  mk_world (mk_toy rs [] [] false true) [] [] row rows [].

Definition toy_columns : list column := [plain std_string; plain signed_int].
Definition toy_row1 : list cell := [chars_cell [97; 98]; scalar_cell (int_v 5)].
Definition toy_row2 : list cell := [chars_cell []; scalar_cell (int_v 7)].

Lemma toy_fits : Forall (Forall2 cell_fits toy_columns) [toy_row1; toy_row2].
Proof. repeat constructor. Qed.

(** Both rows arrive, with 0 for 5 and for 7. *)
Lemma rowset_result_witness :
  ∃ p w', bindStmtOutput_rowset counting_handler 3 0 toy_columns = Some p ∧
    p (toy_world [toy_row1; toy_row2] [] []) = (Val tt, w') ∧
    rows w' = [[string_v [97; 98]; int_v 0]; [string_v []; int_v 0]] ∧
    posted w' = [mk_completion no_error [rows_arg 0]].
Proof.
  eexists.
  destruct (rowset_result counting_handler 3 0 toy_columns _
    (toy_world [toy_row1; toy_row2] [] []) _ _ eq_refl eq_refl eq_refl)
    as (w' & E & Hrows & Hposted).
  - split; [by vm_compute|]. split; [reflexivity|]. repeat (first [right; reflexivity | constructor]).
  - apply toy_fits.
  - simpl. lia.
  - exists w'. split; [reflexivity|]. split; [exact E|]. split; [exact Hrows|exact Hposted].
Defined.

(** A [Row] gets the number; its string, being empty, keeps the old content. *)
Lemma row_result_witness :
  ∃ p w', bindStmtOutput_row counting_handler 0 toy_columns = Some p ∧
    p (toy_world [toy_row2] [string_v [120]; int_v 0] []) = (Val tt, w') ∧
    bound_row w' = [string_v [120]; int_v 7] ∧
    posted w' = [mk_completion no_error [rows_arg 1]].
Proof.
  eexists.
  destruct (row_result counting_handler 0 toy_columns _
    (toy_world [toy_row2] [string_v [120]; int_v 0] []) _
    (mk_toy [] toy_row2 [None; Some (bound_field 1)] false true) toy_row2 eq_refl eq_refl eq_refl)
    as (w' & E & Hrow & _ & Hposted).
  - eexists. split; [reflexivity|]. split_and!; try done. apply toy_regs.
  - repeat constructor.
  - repeat (first [right; reflexivity | constructor]).
  - exists w'. split; [reflexivity|]. split; [exact E|]. split; [exact Hrow|exact Hposted].
Defined.

Lemma null_column_reported_as_success_witness :
  ∃ p w' e, bindStmtOutput_row counting_handler 0 toy_columns = Some p ∧
    p (toy_world [[chars_cell []; null_cell]] [string_v []; int_v 0] []) = (Val tt, w') ∧
    is_error e = false ∧ posted w' = [mk_completion e [rows_arg 1]].
Proof.
  eexists.
  destruct (null_column_reported_as_success counting_handler 0 [plain std_string] signed_int _
    (toy_world [[chars_cell []; null_cell]] [string_v []; int_v 0] []) _ _ _ (mk_reg false true 0)
    eq_refl ltac:(discriminate) eq_refl eq_refl eq_refl eq_refl eq_refl eq_refl)
    as (w' & e & E & He & Hposted).
  exists w', e. split; [reflexivity|]. split; [exact E|]. split; [exact He|exact Hposted].
Defined.

Definition toy_no_statement : world := mk_world (mk_toy [] [] [] false false) [] [] [] [] [].

Lemma prepare_without_statement_witness :
  (prepare_job other_handler "SELECT 1" toy_no_statement).1 = Fault NullDereference.
Proof.
  by rewrite (prepare_without_statement other_handler "SELECT 1" toy_no_statement
    (client toy_no_statement) eq_refl).
Defined.


(** A string too long for the memory: the function throws and the handler is never called. *)
Example storing_throws :
  let w := toy_world [[chars_cell []; scalar_cell (int_v 7)]] [] [] in
  let w := set_regs [mk_reg true false (2 ^ 40); zero_reg] w in
  (storeOneResult_string 0 the_bound 0 w).1 = Exc (StdException "std::bad_alloc").
Proof. reflexivity. Qed.

(** A [Blob] in a [Row] compiles, and leaves its field as it was. *)
Example blob_is_not_stored :
  is_Some (store_row 0 [blob]) ∧ store_rowset 0 [blob] = None ∧
  storeOneResult 0 the_bound 0 blob = Some (storeOneResult_scalar 0).
Proof. split; [by eexists|done]. Qed.

(** Two connections; the first is destroyed and its thread runs a job. *)
Lemma threads_serve_connections_witness :
  ∃ s, reachable initial step s ∧ stopped s = false ∧ length (connections s) = 1%nat ∧
    running s = [0; 1]%nat ∧
    (length (connections s) ≤ length (running s))%nat.
Proof.
  set (s0 := new_service (client (toy_world [] [] []))).
  set (s1 := (construct s0).2). set (s2 := (construct s1).2).
  set (s3 := (destroy (mk_connection 1 0) s2).2). set (s4 := (executeQuery s3).2).
  exists s4.
  assert (Hr : reachable initial step s4).
  { apply reach_step with s3; [|by eapply step_post].
    apply reach_step with s2; [|eapply step_destroy; [|reflexivity];
      change (mk_connection 1 0 ∈ [mk_connection 1 0; mk_connection 2 1]); left].
    apply reach_step with s1; [|eapply step_construct, surjective_pairing].
    apply reach_step with s0; [|eapply step_construct, surjective_pairing].
    apply reach_init. by eexists. }
  split; [exact Hr|]. split; [reflexivity|]. split; [reflexivity|]. split; [reflexivity|].
  apply (threads_serve_connections s4 Hr eq_refl).
Defined.

End Mysql.
