(* ===== verification/Main.v ===== *)
(** * The main program (otservpp.cpp)

    [work] connects to a database, prepares a statement, runs it and prints the rows it
    gave, each step in the handler of the one before: the composition of a
    [sql::Connection] of Mysql, whose threads run the operations, with the io_service
    that runs their handlers. *)

From S2P Require Import Prelude Platform Mysql.

Module Main.
Import Mysql.

(** What is inserted into [cout]. *)
Inductive item : Type :=
  | text (s : string)
  | code (e : error_code)
  | number (n : Z)
  | chars (l : list Z)
  | endl.

(** The handlers given to [connect], [prepareQuery] and [runPrepared]; the last one holds
    a copy of the statement. *)
Inductive handler : Type :=
  | on_connect
  | on_prepare
  | on_run (s : stmt).

Section program.
Context `{Platform} `{Errmsg} `{Api} `{Memory}.
(** The connection a statement belongs to and the number of its parameters; the
    capacity of a vector; the fuel of the loop over the rows of a result. *)
Context (mysql_of : stmt → nat) (mysql_stmt_param_count : stmt → lib → Z).
Context (capacity : list (list value) → Z) (fuel : nat).

(** The service and the connection of [conn], the vector [*out], the handlers of the
    operations that are under way in the order they were started, and what was
    printed. *)
Record state : Type := mk_state {
  svc : service;
  conn : connection;
  rows_out : list (list value);
  handlers : list handler;
  printed : list item;
}.
Definition set_svc x m := mk_state x (conn m) (rows_out m) (handlers m) (printed m).
Definition set_rows_out x m := mk_state (svc m) (conn m) x (handlers m) (printed m).
Definition set_handlers x m := mk_state (svc m) (conn m) (rows_out m) x (printed m).
Definition set_printed x m := mk_state (svc m) (conn m) (rows_out m) (handlers m) x.

Definition cout (l : list item) : prog state unit :=
  modify (λ m, set_printed (printed m ++ l) m).

(** An operation on [conn] with its handler. *)
Definition operation (h : handler) (m : prog service unit) : prog state unit :=
  modify (λ m, set_handlers (handlers m ++ [h]) m) ;;; zoom svc set_svc m.

(** The last [PreparedHandle] of a statement is destroyed. *)
Definition StmtDeleter (s : stmt) : prog state unit :=
  modify (λ m, set_svc (set_s_client (mysql_stmt_close s (s_client (svc m))) (svc m)) m).

Definition query : string := "SELECT password FROM accounts WHERE LENGTH(name) > ?".
Definition in_ : list param := [p_plain signed_int (int_v 3)].
Definition out_ : list column := [plain std_string].
Definition loopback : endpoint := mk_endpoint "127.0.0.1" 3306.

(** The handler of [runPrepared] and its destruction. *)
Definition print_row (pass : list value) : list item :=
  match pass with string_v l :: _ => [text "  "; chars l; endl] | _ => [] end.

Definition run_handler (s : stmt) (e : error_code) : prog state unit :=
  (if is_error e then cout [text "exec error "; code e; endl]
   else
     let! m := get in
     cout [text "QUERY EXECUTED count: "; number (capacity (rows_out m)); text "  passwords: "; endl] ;;;
     cout (concat (map print_row (rows_out m)))) ;;;
  StmtDeleter s.

(** [conn.runPrepared(stmt, *in, *out, ...)] with a new vector; this instance of the
    template compiles: [runPrepared_compiles]. *)
Definition runPrepared_in_out (c : connection) (s : stmt) : prog service unit :=
  default (ret tt) (BasicConnection_runPrepared_rowset mysql_of unary_handler fuel c s in_ out_ []).

(** The handler of [prepareQuery]. *)
Definition prepare_handler (e : error_code) (s : option stmt) : prog state unit :=
  if is_error e then
    cout [text "prep error: "; code e; endl] ;;;
    match s with Some s => StmtDeleter s | None => ret tt end
  else
    match s with
    | None => fail NullDereference
    | Some s =>
        let! m := get in
        cout [text "QUERY PREPARED args: "; number (mysql_stmt_param_count s (s_client (svc m))); endl] ;;;
        operation (on_run s) (runPrepared_in_out (conn m) s)
    end.

(** The handler of [connect]. *)
Definition connect_handler (e : error_code) : prog state unit :=
  if is_error e then cout [text "error "; code e; endl]
  else
    cout [text "connected"; endl] ;;;
    let! m := get in
    operation on_prepare (BasicConnection_prepareQuery other_handler (conn m) query).

(** The handler called with the arguments of a completion. *)
Definition call (h : handler) (c : completion) : prog state unit :=
  match h, c_args c with
  | on_connect, _ => connect_handler (c_error c)
  | on_prepare, [stmt_arg s] => prepare_handler (c_error c) s
  | on_prepare, _ => ret tt
  | on_run s, _ => run_handler s (c_error c)
  end.

(** [work()] as far as [svc.run()]. *)
Definition work : prog service state :=
  let! conn := BasicConnection in
  BasicConnection_connect unary_handler conn loopback "root" "7deabrilde2021" "otservpp" 0 ;;;
  let! s := get in
  ret (mk_state s conn [] [on_connect] []).

(** [svc.run()] takes one completion: operations of the one connection complete in the
    order they were started. It never returns, since there is [w]. *)
Definition run_one_handler : prog state unit :=
  let! m := get in
  match io (svc m), handlers m with
  | c :: rest, h :: hs =>
      modify (set_svc (set_io rest (svc m))) ;;; modify (set_handlers hs) ;;; call h c
  | _, _ => ret tt
  end.

(** A thread of the service runs an operation, which fills its rows. *)
Definition thread_step (t : nat) : prog state unit :=
  let! m := get in
  zoom svc set_svc (worker t) ;;;
  match Mysql.work (svc m) with
  | j :: _ => if stopped (svc m) then ret tt
              else modify (set_rows_out (rows (j_run j (job_world j (s_client (svc m)))).2))
  | [] => ret tt
  end.

Inductive step : state → state → Prop :=
  | step_thread t m m' : t ∈ running (svc m) → thread_step t m = (Val tt, m') → step m m'
  | step_handler m m' : run_one_handler m = (Val tt, m') → step m m'.

Definition initial (m : state) : Prop :=
  ∃ l s', work (new_service l) = (Val m, s').

(** ** One operation at a time *)

Definition connected : list item := [text "connected"; endl].
Definition prepared (n : Z) : list item := [text "QUERY PREPARED args: "; number n; endl].
Definition executed (n : Z) (passwords : list (list value)) : list item :=
  [text "QUERY EXECUTED count: "; number n; text "  passwords: "; endl] ++ concat (map print_row passwords).

(** What is printed while an operation is under way, and at the end. *)
Inductive transcript : list handler → list item → Prop :=
  | connecting : transcript [on_connect] []
  | not_connected e : is_error e = true → transcript [] [text "error "; code e; endl]
  | preparing : transcript [on_prepare] connected
  | not_prepared e : is_error e = true →
      transcript [] (connected ++ [text "prep error: "; code e; endl])
  | running_ s n : transcript [on_run s] (connected ++ prepared n)
  | not_run e n : is_error e = true →
      transcript [] (connected ++ prepared n ++ [text "exec error "; code e; endl])
  | complete n c l : transcript [] (connected ++ prepared n ++ executed c l).

(** An operation waits for a thread, or its handler waits to be called. *)
Definition does (h : handler) (j : job) : Prop :=
  completes (j_run j) ∧ (h = on_prepare → j_run j = prepare_job other_handler query).
Definition fits (h : handler) (c : completion) : Prop :=
  h = on_prepare → ∃ p, c_args c = [stmt_arg p].

Inductive under_way : list handler → list job → list completion → Prop :=
  | nothing : under_way [] [] []
  | waits_for_thread h j : does h j → under_way [h] [j] []
  | waits_for_handler h c : fits h c → under_way [h] [] [c].

Record orderly (m : state) : Prop := {
  o_printed : transcript (handlers m) (printed m);
  o_under_way : under_way (handlers m) (Mysql.work (svc m)) (io (svc m));
}.

Lemma orderly_work l m s' : work (new_service l) = (Val m, s') → orderly m.
Proof.
  unfold work, BasicConnection, construct. run_simpl. destruct (mysql_init l) as [[] l1]; simpl; [|done].
  intros [= <- <-]. split; simpl; constructor. split; [apply connect_job_completes|done].
Qed.

(** A thread either finds nothing to do or runs the operation, whose handler is posted. *)
Lemma under_way_thread hs t s s' : under_way hs (Mysql.work s) (io s) →
  worker t s = (Val tt, s') → under_way hs (Mysql.work s') (io s').
Proof.
  intros Hu. unfold worker, run_one, thread_ends. run_simpl.
  destruct (stopped s); simpl; [by intros [= <-]|].
  destruct (Mysql.work s) as [|j rest] eqn:Ew; simpl.
  { intros [= <-]. by rewrite Ew. }
  inversion Hu as [|h j' [Hc Hp] E1 E2 E3|]; subst.
  specialize (Hc (job_world j (s_client s))). pose proof (prepare_job_posts query (job_world j (s_client s))) as Hpp.
  destruct (j_run j _) as [[[]| |] w] eqn:Ej; simpl; [|done|done].
  destruct Hc as [c Hc]. rewrite Hc. simpl.
  assert (fits h c).
  { intros ->. rewrite (Hp eq_refl) in Ej. destruct (Hpp w Ej) as (e & p & E). rewrite E in Hc.
    simpl in Hc. simplify_eq. by exists p. }
  destruct (unique t _); intros [= <-]; simpl; rewrite <-E3; by constructor.
Qed.

Lemma orderly_thread t m m' : orderly m → thread_step t m = (Val tt, m') → orderly m'.
Proof.
  intros [Ht Hu]. unfold thread_step, zoom. run_simpl.
  destruct (worker t (svc m)) as [[[]| |] s] eqn:E; simpl; [|done|done].
  intros Hm. apply (under_way_thread _ _ _ _ Hu) in E.
  assert (handlers m' = handlers m ∧ printed m' = printed m ∧ svc m' = s) as (E1 & E2 & E3).
  { destruct (Mysql.work (svc m)); [|destruct (stopped (svc m))]; by simplify_eq/=. }
  split; by rewrite E1, ?E2, ?E3.
Qed.

(** The statement of the program is one of those that compile. *)
Definition exec_job (s : stmt) : prog world unit :=
  default (ret tt) (startExecStmt unary_handler fuel s in_ (out_rowset out_)).
Lemma exec_job_some s : startExecStmt unary_handler fuel s in_ (out_rowset out_) = Some (exec_job s).
Proof. reflexivity. Qed.
Lemma runPrepared_compiles c s :
  BasicConnection_runPrepared_rowset mysql_of unary_handler fuel c s in_ out_ [] =
    Some (assertM (bool_decide (thread c = mysql_of s)) ;;; post (mk_job [] [] (exec_job s))).
Proof. reflexivity. Qed.
Lemma runPrepared_posts c s : runPrepared_in_out c s =
  (assertM (bool_decide (thread c = mysql_of s)) ;;; post (mk_job [] [] (exec_job s))).
Proof. unfold runPrepared_in_out. by rewrite runPrepared_compiles. Qed.
#[local] Opaque exec_job runPrepared_in_out.

Lemma orderly_handler m m' : orderly m → run_one_handler m = (Val tt, m') → orderly m'.
Proof.
  destruct m as [[l f n pool run cs wk st ios] c out hs pr]. intros [Ht Hu].
  unfold run_one_handler, get. unfold bind at 1. simpl in *.
  inversion Hu as [|h j Hd|h [e args] Hf]; subst.
  1: by intros [= <-]. 1: by intros [= <-].
  unfold set_handlers, modify, set_svc, set_io. unfold bind at 1. unfold bind at 1. simpl.
  inversion Ht; subst; simpl.
  - unfold connect_handler. destruct (is_error e) eqn:He; unfold cout, operation, zoom; run_simpl; intros [= <-].
    + split; simpl; [by constructor|constructor].
    + split; simpl; [constructor|]. constructor. split; [apply prepare_job_completes|done].
  - destruct (Hf eq_refl) as [p Hp]. simpl in Hp. rewrite Hp. unfold prepare_handler.
    destruct (is_error e) eqn:He; destruct p as [s|]; unfold cout, operation, StmtDeleter, zoom, assertM.
    + run_simpl. intros [= <-]. split; simpl; [by constructor|constructor].
    + run_simpl. intros [= <-]. split; simpl; [by constructor|constructor].
    + run_simpl. rewrite runPrepared_posts. unfold assertM. run_simpl.
      destruct NDEBUG, (bool_decide (thread c = mysql_of s)); simpl.
      all: try (intros [= <-]; split; simpl; [constructor|]; constructor; split; [|done];
        eapply startExecStmt_completes, exec_job_some).
      done.
    + done.
  - unfold run_handler, cout, StmtDeleter. destruct (is_error e) eqn:He; run_simpl; intros [= <-].
    + split; [by apply (not_run e n0)|constructor].
    + split; [by apply (complete n0)|constructor].
Qed.

(** C18. The program uses its connection as [BasicConnection] asks: however the threads
    and the io_service interleave, and whatever the database answers, at most one
    operation of the connection is under way, and what is printed is one of the
    transcripts: it goes on with the next operation only after the one before has
    succeeded, and stops with one line about the first error. *)
Theorem one_operation_at_a_time l m0 s0 m :
  work (new_service l) = (Val m0, s0) → reachable (eq m0) step m →
  transcript (handlers m) (printed m) ∧
  (length (Mysql.work (svc m)) + length (io (svc m)))%nat = length (handlers m) ∧
  (length (handlers m) ≤ 1)%nat.
Proof.
  intros E Hr. assert (orderly m) as [Ht Hu].
  { revert m Hr. apply reachable_inv; [intros ? <-; by eapply orderly_work|].
    intros a b Ha Hs. revert Ha. destruct Hs; eauto using orderly_thread, orderly_handler. }
  split; [done|]. destruct Hu; simpl; lia.
Qed.

(** ** The rows are printed *)

Context `{!CursorState} `{!Cursor}.

(** The database accepts the connection and the statement [s], which gives the
    [passwords], for which there is memory; [lp] is the library when the statement is prepared and [l'] when its
    result is there. *)
Record serves (l lp l' : lib) (s : stmt) (passwords : list (list Z)) : Prop := {
  sv_connection : mysql_of s = 0%nat;
  sv_fuel : (length passwords < fuel)%nat;
  sv_prepares : ∃ l1 l2 l3,
    mysql_init l = (true, l1) ∧
    mysql_real_connect loopback "root" "7deabrilde2021" "otservpp" 0 l1 = (true, l2) ∧
    mysql_stmt_init l2 = (Some s, l3) ∧ mysql_stmt_prepare s query l3 = (0, lp);
  sv_executes : ∃ l5 l6 l7,
    mysql_stmt_field_count s lp = 1 ∧
    mysql_stmt_bind_param s (default [] (BindInHelper in_)) lp = (0, l5) ∧
    mysql_stmt_execute s l5 = (0, l6) ∧
    mysql_stmt_bind_result s (bound_binds out_ bound_field) l6 = (0, l7) ∧
    mysql_stmt_store_result s l7 = (0, l');
  sv_rows : remaining s l' = map (λ p, [chars_cell p]) passwords;
  sv_memory : result_fits 0 (map (λ p, [chars_cell p]) passwords);
}.

(** The only thing that can happen in [a] leads to [b], where more has been printed. *)
Definition goes (a b : state) : Prop :=
  running (svc a) = [0%nat] ∧ (∃ x, printed b = printed a ++ x) ∧
  (thread_step 0 a = (Val tt, b) ∧ run_one_handler a = (Val tt, a) ∨
   thread_step 0 a = (Val tt, a) ∧ run_one_handler a = (Val tt, b)).

Lemma goes_step a b m : goes a b → step a m → m = a ∨ m = b.
Proof.
  intros Hab Hs. revert Hab. destruct Hs as [t a m Ht Hs|a m Hs]; intros (Hr & _ & Hd).
  - rewrite Hr in Ht. apply list_elem_of_singleton in Ht as ->.
    destruct Hd as [[E _]|[E _]]; rewrite E in Hs; simplify_eq; auto.
  - destruct Hd as [[_ E]|[_ E]]; rewrite E in Hs; simplify_eq; auto.
Qed.

Lemma goes_is_step a b : goes a b → step a b.
Proof.
  intros (Hr & _ & [[Hs _]|[_ Hs]]); [eapply step_thread; [|done]; rewrite Hr; by left|by apply step_handler].
Qed.

Lemma goes_prefix a b : rtc goes a b → printed a `prefix_of` printed b.
Proof.
  induction 1 as [|a b c (_ & [x E] & _) _ IH]; [done|]. etrans; [|exact IH]. rewrite E. by eexists.
Qed.

Lemma goes_on a b m : rtc goes a b → goes b b → step a m → rtc goes m b.
Proof.
  intros Hr Hb Hs. destruct Hr as [|a a' b Ha Hr].
  - destruct (goes_step _ _ _ Hb Hs); by subst.
  - destruct (goes_step _ _ _ Ha Hs); subst; [by econstructor|done].
Qed.

(** States of the program with the one connection it makes. *)
Definition at_ (l : lib) (jobs : list job) (ios : list completion) out hs pr : state :=
  mk_state (mk_service l 2 1 [0%nat] [0%nat] [mk_connection 1 0] jobs false ios)
    (mk_connection 1 0) out hs pr.

Lemma goes_thread l j w out h pr : j_run j (job_world j l) = (Val tt, w) →
  goes (at_ l [j] [] out [h] pr) (at_ (client w) [] (posted w) (rows w) [h] pr).
Proof.
  intros E. split; [done|]. split; [by exists []; rewrite app_nil_r|left]. split; [|done].
  unfold thread_step, zoom, worker, run_one, at_. run_simpl. by rewrite E.
Qed.

Lemma goes_handler l c out h pr l' jobs hs x :
  call h c (at_ l [] [] out [] pr) = (Val tt, at_ l' jobs [] out hs (pr ++ x)) →
  goes (at_ l [] [c] out [h] pr) (at_ l' jobs [] out hs (pr ++ x)).
Proof.
  intros E. split; [done|]. split; [by exists x|right]. split; [done|exact E].
Qed.

Lemma goes_end l out pr : goes (at_ l [] [] out [] pr) (at_ l [] [] out [] pr).
Proof. split; [done|]. split; [by exists []; rewrite app_nil_r|by left]. Qed.

Lemma print_rows passwords :
  concat (map print_row (map (λ p, [string_v p]) passwords)) =
  concat (map (λ p, [text "  "; chars p; endl]) passwords).
Proof. by rewrite map_map. Qed.

#[local] Transparent exec_job.
Lemma exec_job_run l lp l' s passwords : serves l lp l' s passwords →
  ∃ w, exec_job s (job_world (mk_job [] [] (exec_job s)) lp) = (Val tt, w) ∧
    rows w = map (λ p, [string_v p]) passwords ∧ posted w = [mk_completion no_error []].
Proof.
  intros [_ Hf _ (l5 & l6 & l7 & Hn & Hb & He & Hr & Hs) Hrem Hmem].
  destruct (bindStmtOutput_rowset unary_handler fuel s out_) as [p|] eqn:Ep; [|done].
  destruct (rowset_run unary_handler fuel s out_ p (job_world (mk_job [] [] (exec_job s)) l6) l7 l' Ep)
    as (w & Ew & Hrows & Hposted); [done|done|by rewrite Hrem| |by rewrite Hrem, length_map|].
  { rewrite Hrem. apply Forall_map, Forall_true. intros x. by repeat constructor. }
  exists w. rewrite Hrows, Hposted, Hrem. split; [|split; [|done]].
  - unfold exec_job, startExecStmt, bindStmtInput. simpl in Hb. unfold bindStmtOutput. rewrite Ep. simpl.
    unfold validateStmtParamCount, bindAndExecStmt, ask, run. run_simpl. rewrite Hn. simpl. rewrite Hb. simpl.
    rewrite He. exact Ew.
  - simpl. rewrite map_map. done.
Qed.
#[local] Opaque exec_job.

(** C17. When the database accepts the connection and the statement, and there is memory
    for its result, the program prints
    that it is connected, the number of parameters, and every password of the result,
    once and in order; however the threads and the io_service interleave, it gets there
    from wherever it is, having printed a part of that, and then waits for ever with
    the statement closed. *)
Theorem work_prints_passwords l lp l' s passwords : serves l lp l' s passwords →
  ∃ m0 s0 final, work (new_service l) = (Val m0, s0) ∧
    printed final = connected ++ prepared (mysql_stmt_param_count s lp) ++
      [text "QUERY EXECUTED count: "; number (capacity (map (λ p, [string_v p]) passwords));
       text "  passwords: "; endl] ++
      concat (map (λ p, [text "  "; chars p; endl]) passwords) ∧
    handlers final = [] ∧ (∃ l'', s_client (svc final) = mysql_stmt_close s l'') ∧
    (∀ m, step final m → m = final) ∧
    ∀ m, reachable (eq m0) step m → rtc step m final ∧ printed m `prefix_of` printed final.
Proof.
  intros Hsv. destruct (exec_job_run _ _ _ _ _ Hsv) as (w & Ew & Hrows & Hposted).
  destruct Hsv as [Hc _ (l1 & l2 & l3 & E1 & E2 & E3 & E4) _ _ _].
  set (m0 := at_ l1 [mk_job [] [] (connect_job unary_handler loopback "root" "7deabrilde2021" "otservpp" 0)]
    [] [] [on_connect] []).
  set (final := at_ (mysql_stmt_close s (client w)) [] [] (rows w) []
    ((connected ++ prepared (mysql_stmt_param_count s lp)) ++ executed (capacity (rows w)) (rows w))).
  assert (goes final final) as Hf by apply goes_end.
  assert (rtc goes m0 final) as Hg.
  { eapply rtc_l; [apply goes_thread; simpl; unfold connect_job, run; run_simpl; rewrite E2; reflexivity|].
    eapply rtc_l; [eapply (goes_handler _ _ _ _ _ _ _ _ connected); reflexivity|].
    eapply rtc_l; [apply goes_thread; simpl; unfold prepare_job, run; run_simpl; rewrite E3; simpl; rewrite E4;
      reflexivity|].
    eapply rtc_l; [eapply (goes_handler _ _ _ _ _ _ _ _ (prepared (mysql_stmt_param_count s lp)))|].
    { simpl. unfold prepare_handler. simpl. unfold operation, cout, zoom. run_simpl.
      rewrite runPrepared_posts, Hc. unfold assertM. run_simpl. by destruct NDEBUG. }
    eapply rtc_l; [apply goes_thread, Ew|]. rewrite Hposted.
    eapply rtc_l; [eapply (goes_handler _ _ _ _ _ _ _ _ (executed (capacity (rows w)) (rows w)))|].
    { simpl. unfold run_handler, cout, StmtDeleter. run_simpl. reflexivity. }
    apply rtc_refl. }
  exists m0, (svc m0), final. split; [unfold work, BasicConnection, construct; run_simpl; by rewrite E1|].
  split; [by rewrite <-print_rows, <-Hrows|].
  split; [done|]. split; [by eexists|].
  split; [intros m Hm; by destruct (goes_step _ _ _ Hf Hm)|].
  intros m Hm. assert (rtc goes m final) as Hr.
  { revert m Hm. apply reachable_inv; [by intros ? <-|]. eauto using goes_on. }
  split; [|by apply goes_prefix]. eapply rtc_subrel; [|exact Hr]. apply goes_is_step.
Qed.

End program.

(** Two passwords, the second one empty. *)
Abbreviation toy_passwords := [[112; 119]; []].
Abbreviation toy_start := (mk_toy (map (λ p, [chars_cell p]) toy_passwords) [] [] false true).

#[local] Instance toy_platform : Platform := x86_64 false.
#[local] Existing Instances toy_errmsg toy_memory.

Lemma toy_memory_fits : result_fits 0 (map (λ p, [chars_cell p]) toy_passwords).
Proof.
  split; [by vm_compute|]. split; [reflexivity|]. repeat (first [right; reflexivity | constructor]).
Qed.

Lemma work_prints_passwords_witness :
  let _ := toy_api_of 1 in
  ∃ m0 s0 final, work (new_service (toy_start : lib)) = (Val m0, s0) ∧
    printed final = [text "connected"; endl; text "QUERY PREPARED args: "; number 1; endl;
      text "QUERY EXECUTED count: "; number 2; text "  passwords: "; endl;
      text "  "; chars [112; 119]; endl; text "  "; chars []; endl].
Proof.
  intros Api1.
  destruct (work_prints_passwords (H1:=toy_api_of 1) (H3:=toy_cursor_state_of 1) (H4:=toy_cursor_of 1) (λ _, 0%nat) (λ _ _, 1) (λ l, Z.of_nat (length l)) 3
    toy_start toy_start (mk_toy (map (λ p, [chars_cell p]) toy_passwords) [] [None] true true) 0%nat toy_passwords)
    as (m0 & s0 & final & E & Hp & _).
  - split; [done|simpl; lia|by eexists _, _, _| |done|exact toy_memory_fits].
    by eexists _, _, _.
  - by exists m0, s0, final.
Defined.

(** The thread has made the connection; its handler has not run yet. *)
Lemma one_operation_at_a_time_witness :
  let _ := toy_api_of 1 in
  ∃ m0 s0 m, work (new_service (toy_start : lib)) = (Val m0, s0) ∧
    length (io (svc m)) = 1%nat ∧ transcript (handlers m) (printed m) ∧
    (length (Mysql.work (svc m)) + length (io (svc m)))%nat = length (handlers m) ∧
    (length (handlers m) ≤ 1)%nat.
Proof.
  intros Api1.
  set (j := mk_job [] [] (connect_job unary_handler loopback "root" "7deabrilde2021" "otservpp" 0)).
  set (m0 := at_ (toy_start : @lib (toy_api_of 1)) [j] [] [] [on_connect] []).
  set (m := at_ (toy_start : @lib (toy_api_of 1)) [] [mk_completion no_error []] [] [on_connect] []).
  exists m0, (svc m0), m. split; [reflexivity|]. split; [reflexivity|].
  apply (one_operation_at_a_time (H1:=toy_api_of 1) (λ _, 0%nat) (λ _ _, 1) (λ l, Z.of_nat (length l)) 3
    toy_start m0 (svc m0) m eq_refl).
  apply reach_step with m0; [by apply reach_init|]. by apply (step_thread _ _ _ _ 0); [left|].
Defined.

End Main.
