(* ===== verification/Hook.v ===== *)
(** * Hooks and their implementation by Lua functions (hook/hook.hpp, script/)

    A hook wraps a callable. A script hook calls a Lua function and converts what
    it returns: a value, or a table that is turned into a tuple with the help of a
    tuple of keys of the same shape. Lua and luabind are the class [Lua]. Templates
    are functions on the types; [None] is an instantiation that does not compile. *)

From stdpp Require Import pretty.
From S2P Require Import Prelude.

#[local] Set Warnings "-register-all,-clear-no-such-hyp".

Module Hook.

(** ** Exceptions (exception.hpp, script/scriptexcep.hpp) *)

(** The [error_info] attached to an [otservpp::Exception]; attaching one again
    replaces the value. *)
Record info : Type := mk_info {
  InvalidArgument : option string;
  TranslationKey : option string;
  ValueTranslation : option string;
}.

Definition add_key (k : string) (i : info) : info :=
  mk_info (InvalidArgument i) (Some k) (ValueTranslation i).
Definition add_translation (s : string) (i : info) : info :=
  mk_info (InvalidArgument i) (TranslationKey i) (Some s).

(** A result: a value, an [otservpp::Exception], an exception of another class,
    or undefined behaviour. *)
Inductive res (A : Type) : Type :=
  | Ok (a : A)
  | Throw (i : info)
  | Foreign (what : string)
  | Undefined.
Arguments Ok {A} a.
Arguments Throw {A} i.
Arguments Foreign {A} what.
Arguments Undefined {A}.

Definition rbind {A B} (m : res A) (k : A → res B) : res B :=
  match m with
  | Ok a => k a
  | Throw i => Throw i
  | Foreign w => Foreign w
  | Undefined => Undefined
  end.
Definition catch {A} (m : res A) (h : info → res A) : res A :=
  match m with Throw i => h i | r => r end.

Declare Scope res_scope.
Delimit Scope res_scope with res.
Notation "'let?' x := m 'in' k" := (rbind m (λ x, k))
  (at level 10, x pattern, m at level 100, k at level 200) : res_scope.
#[local] Open Scope res_scope.

(** ** Lua *)

(** Objects as luabind gives them: their Lua type, the fields of a table by string
    key and its elements in the order of an iteration, conversion to a C++ type
    ([cast_failed] with its message), calls. [stack_top] is
    [lua_tostring(L, -1)] for the object's interpreter. *)
Class Lua : Type := {
  object : Type;
  ctype : Type;
  cvalue : Type;
  lua_type : object → Z;
  LUA_TTABLE : Z;
  LUA_TFUNCTION : Z;
  lua_typename : Z → string;
  index : object → string → object;
  elements : object → list object;
  object_cast : ctype → object → string + cvalue;
  stack_top : object → option string;
  invalid_object : object;
  call_function : object → list cvalue → res object;
}.

Section lua.
Context `{Lua}.

(** [objectCast<T>] *)
Definition objectCast (t : ctype) (o : object) : res cvalue :=
  match object_cast t o with
  | inr v => Ok v
  | inl what =>
      match stack_top o with
      | Some top =>
          Throw (mk_info (Some ("[from objectCast] " +:+ what +:+ "  " +:+ top)) None None)
      | None => Undefined
      end
  end.

(** [isAnyOfType]: with several types it goes on with [isAnyOf], which does not
    exist. *)
Definition isAnyOfType_int (given : Z) (types : list Z) : option bool :=
  match types with
  | [expected] => Some (given =? expected)%Z
  | _ => None
  end.
Definition isAnyOfType (o : object) (types : list Z) : option bool :=
  isAnyOfType_int (lua_type o) types.

(** [concatTypes(L, types...)] and [concatTypes(obj)] *)
Fixpoint concatTypes (types : list Z) : option string :=
  match types with
  | [] => None
  | [t] => Some (lua_typename t)
  | t :: rest => s ← concatTypes rest; Some (lua_typename t +:+ ", " +:+ s)
  end.
Definition concatTypes_object (o : object) : string := lua_typename (lua_type o).

Definition isTable (o : object) : option bool := isAnyOfType o [LUA_TTABLE].

(** [expectAnyOf] *)
Definition expectAnyOf (o : object) (types : list Z) : option (res unit) :=
  ok ← isAnyOfType o types;
  s ← concatTypes types;
  Some (
    if ok : bool then Ok ()
    else Throw (mk_info (Some ("value of type [" +:+ s +:+ "] expected; given value is of type ["
                               +:+ concatTypes_object o +:+ "]")) None None)).

Definition expectFunction (o : object) : option (res unit) := expectAnyOf o [LUA_TFUNCTION].

(** [expectTable]: with one type [expectAnyOf] compiles. *)
Definition expectTable (o : object) : res unit :=
  match expectAnyOf o [LUA_TTABLE] with Some r => r | None => Undefined end.

(** ** Tables to tuples (script/hook/object2tuple.hpp) *)

(** The types of tuple elements: a convertible type, a vector of one, a vector of
    tuples. *)
Inductive rty : Type :=
  | single (t : ctype)
  | vector (t : ctype)
  | tuples (ts : list rty).

(** Their keys: a string, or a pair of one with the keys of an inner tuple. *)
Inductive key : Type :=
  | k_plain (s : string)
  | k_pair (s : string) (ks : list key).

(** The values of tuple elements. *)
Inductive val : Type :=
  | v_single (v : cvalue)
  | v_tuples (l : list (list val)).

Definition extractKey (k : key) : string :=
  match k with k_plain s | k_pair s _ => s end.

(** [KeyRecorder] and [IndexKeyRecorder]: the key in use and what its parent and
    index convert to. *)
Record recorder : Type := mk_recorder { parent : option string; rkey : key }.

Definition KeyRecorder (k : key) : recorder := mk_recorder None k.
Definition next_recorder (r : recorder) (k : key) : recorder := mk_recorder (parent r) k.

(** [operator std::string] of both. *)
Definition to_string (r : recorder) : string :=
  match parent r with
  | None => extractKey (rkey r)
  | Some p => p +:+ "." +:+ extractKey (rkey r)
  end.

Definition indexToString (i : nat) : string := "[" +:+ pretty (Z.of_nat i) +:+ "]".

Definition IndexKeyRecorder (r : recorder) (k : key) (i : nat) : recorder :=
  mk_recorder (Some (to_string r +:+ indexToString i)) k.

Definition expectTableAndAppendKey (o : object) (r : recorder) : res unit :=
  catch (expectTable o) (λ i, Throw (add_key (to_string r) i)).

(** [put] on an element of a type, given the recorder of its key and the table. *)
Definition putter : Type := recorder → option (object → res val).

(** [put] of a single element. *)
Definition put_single (t : ctype) : putter := λ r,
  match rkey r with
  | k_plain s => Some (λ table,
      catch (let? v := objectCast t (index table s) in Ok (v_single v))
        (λ i, Throw (add_key (to_string r) i)))
  | k_pair _ _ => None
  end.

(** [put] of a vector of convertible elements adds a string to a recorder, for
    which there is no operator. *)
Definition put_vector (t : ctype) : putter := λ _, None.

(** [fill<pos>]: the elements are put from position [pos] down to the first. *)
Fixpoint fill (pos : nat) (ps : list putter) (ks : list key) (r : recorder)
    : option (object → res (list val)) :=
  p ← ps !! pos;
  put ← p r;
  match pos with
  | O => Some (λ table, let? v := put table in Ok [v])
  | S pos' =>
      k ← ks !! pos';
      rest ← fill pos' ps ks (next_recorder r k);
      Some (λ table, let? v := put table in let? vs := rest table in Ok (vs ++ [v]))
  end.

(** The loop over the elements of a table, [i] being the index of the first. *)
Fixpoint put_elements (body : nat → object → res (list val)) (i : nat) (l : list object)
    : res (list (list val)) :=
  match l with
  | [] => Ok []
  | o :: l' =>
      let? t := body i o in
      let? ts := put_elements body (S i) l' in
      Ok (t :: ts)
  end.

(** [put] of a vector of tuples, whose elements have the putters [ps]. The
    template is instantiated once, whatever the index. *)
Definition put_tuples (ps : list putter) : putter := λ r,
  match rkey r with
  | k_plain _ => None
  | k_pair s ks =>
      k ← ks !! (length ps - 1)%nat;
      _ ← fill (length ps - 1) ps ks (IndexKeyRecorder r k 0);
      Some (λ table,
        let inner := index table s in
        let? _ := expectTableAndAppendKey inner r in
        let? l := put_elements (λ i o,
          let child := IndexKeyRecorder r k i in
          let? _ := expectTableAndAppendKey o child in
          match fill (length ps - 1) ps ks child with
          | Some f => f o
          | None => Undefined
          end) 1 (elements inner) in
        Ok (v_tuples l))
  end.

Fixpoint put (t : rty) : putter :=
  match t with
  | single c => put_single c
  | vector c => put_vector c
  | tuples ts => put_tuples (map put ts)
  end.

(** [ObjectToTuple::translate]: the first recorder has the last of the keys, the
    first position is the last of the result. *)
Definition translate (ts : list rty) (ks : list key) : option (object → res (list val)) :=
  k ← ks !! (length ks - 1)%nat;
  f ← fill (length ts - 1) (map put ts) ks (KeyRecorder k);
  Some (λ o, let? _ := expectTable o in f o).

Definition getHumanReadableFormat : string := ">>error<<".

(** ** Script hooks (script/hook/hook.hpp, script/hook/hookutil.hpp) *)

(** A [BaseBasicHook]: the function it was hooked to, and the lines it logged. *)
Record script_hook : Type := mk_hook { func : object; logged : list string }.

Definition new_hook : script_hook := mk_hook invalid_object [].

(** [hookUp] and [unhook], with the virtual [attach] and [detach] of the class
    derived from it. *)
Definition hookUp (attach : script_hook → script_hook) (f : object) (h : script_hook)
    : script_hook := attach (mk_hook f (logged h)).
Definition unhook (detach : script_hook → script_hook) (h : script_hook) : script_hook :=
  mk_hook invalid_object (logged (detach h)).

Definition getScriptFunction (h : script_hook) : object := func h.

Definition callScriptFunction (h : script_hook) (args : list cvalue) : res object :=
  call_function (func h) args.

Definition newline : string := String (Ascii.ascii_of_nat 10) EmptyString.
Definition quote : string := String (Ascii.ascii_of_nat 34) EmptyString.

Definition log_message (i : info) : string :=
  "in execution of script hook " +:+ quote +:+ "<todo>" +:+ quote +:+ newline +:+
  default "" (ValueTranslation i) +:+ default "" (InvalidArgument i).

(** [BaseBasicHook::operator()], given the [translate] of the derived class. *)
Definition operator_call {A} (translate : object → res A) (h : script_hook) (args : list cvalue)
    : res A * script_hook :=
  let r := let? o := callScriptFunction h args in translate o in
  match r with
  | Throw i => (Throw i, mk_hook (func h) (logged h ++ [log_message i]))
  | _ => (r, h)
  end.

(** [BasicHook::translate] *)
Definition BasicHook_translate (t : ctype) (o : object) : res cvalue := objectCast t o.

(** [HookKeys]: the keys, and [v] for a pair key. *)
Definition HookKeys (ks : list key) : object → list key := λ _, ks.
Definition v (vkey : string) (ekey : list string) : key := k_pair vkey (map k_plain ekey).

Definition structure_message (i : info) : string :=
  "expected a return value with the following the structure " +:+ newline +:+ quote +:+
  getHumanReadableFormat +:+
  match TranslationKey i with
  | Some k => quote +:+ newline +:+ "error at key " +:+ quote +:+ k +:+ quote +:+ " "
  | None => ""
  end.

(** [BasicKeyedHook::translate] *)
Definition BasicKeyedHook_translate (ts : list rty) (ks : list key)
    : option (object → res (list val)) :=
  f ← translate ts ks;
  Some (λ o, catch (f (o : object)) (λ i, Throw (add_translation (structure_message i) i))).

Definition BasicKeyedHook_call (ts : list rty) (ks : list key)
    : option (script_hook → list cvalue → res (list val) * script_hook) :=
  f ← BasicKeyedHook_translate ts ks; Some (operator_call f).

(** ** What a translated table looks like *)

(** A row whose fields, one for each predicate, are described by the keys. *)
Fixpoint fields (ms : list (key → object → val → Prop)) (ks : list key) (o : object)
    (row : list val) : Prop :=
  match ms, row with
  | [], [] => True
  | m :: ms', x :: row' =>
      match ks with
      | k :: ks' => m k o x ∧ fields ms' ks' o row'
      | [] => False
      end
  | _, _ => False
  end.

(** The field [k] of the table [o] has the value [x] of the type [t]. *)
Fixpoint matches (t : rty) (k : key) (o : object) (x : val) : Prop :=
  match t, k, x with
  | single c, k_plain s, v_single y => object_cast c (index o s) = inr y
  | tuples ts, k_pair s ks, v_tuples l =>
      lua_type (index o s) = LUA_TTABLE ∧
      Forall2 (λ e row, lua_type e = LUA_TTABLE ∧ fields (map matches ts) ks e row)
        (elements (index o s)) l
  | _, _, _ => False
  end.

(** [path] leads from the table [o] to something that is not of the type asked for:
    a value that cannot be converted or a field that is no table; an element that is
    no table is named by the last of its keys. *)
Fixpoint names_bad (t : rty) (r : recorder) (o : object) (path : string) : Prop :=
  match t, rkey r with
  | single c, k_plain s =>
      path = to_string r ∧ ∃ what, object_cast c (index o s) = inl what
  | tuples ts, k_pair s ks =>
      (path = to_string r ∧ lua_type (index o s) ≠ LUA_TTABLE) ∨
      ∃ j e, elements (index o s) !! j = Some e ∧
        ((lua_type e ≠ LUA_TTABLE ∧ ∃ k, ks !! (length ts - 1)%nat = Some k ∧
            path = to_string (IndexKeyRecorder r k (S j))) ∨
         ∃ i k n, ks !! i = Some k ∧ map names_bad ts !! i = Some n ∧
           n (IndexKeyRecorder r k (S j)) e path)
  | _, _ => False
  end.

(** Induction on types through the types of inner tuples. *)
Lemma rty_nested_ind (P : rty → Prop) :
  (∀ c, P (single c)) → (∀ c, P (vector c)) → (∀ ts, Forall P ts → P (tuples ts)) → ∀ t, P t.
Proof.
  intros H1 H2 H3. fix go 1. intros [c|c|ts]; [apply H1|apply H2|].
  apply H3. induction ts as [|t ts IH]; constructor; [apply go|exact IH].
Qed.

(** A putter that stores exactly the values that match, whose exceptions name what
    does not, and that compiles or not by the type of the key alone. *)
Record correct (p : putter) (m : key → object → val → Prop)
    (n : recorder → object → string → Prop) : Prop := {
  stores r f : p r = Some f → ∀ o x, f o = Ok x ↔ m (rkey r) o x;
  reports r f : p r = Some f → ∀ o i, f o = Throw i → ∃ path, TranslationKey i = Some path ∧ n r o path;
  compiles r r' : rkey r = rkey r' → is_Some (p r) → is_Some (p r');
}.

Lemma expectTable_ok o u : expectTable o = Ok u ↔ lua_type o = LUA_TTABLE.
Proof.
  unfold expectTable, expectAnyOf. simpl. destruct u.
  destruct (Z.eqb_spec (lua_type o) LUA_TTABLE); split; done.
Qed.

Lemma expectTable_throw o :
  lua_type o ≠ LUA_TTABLE → ∃ i, expectTable o = Throw i ∧ TranslationKey i = None.
Proof.
  intros Ho. unfold expectTable, expectAnyOf. simpl.
  destruct (Z.eqb_spec (lua_type o) LUA_TTABLE); [done|]. by eexists.
Qed.

Lemma expect_key_ok o r u : expectTableAndAppendKey o r = Ok u ↔ lua_type o = LUA_TTABLE.
Proof.
  unfold expectTableAndAppendKey. rewrite <- (expectTable_ok o u).
  by destruct (expectTable o).
Qed.

Lemma expect_key_cases o r :
  (lua_type o = LUA_TTABLE ∧ expectTableAndAppendKey o r = Ok ()) ∨
  (lua_type o ≠ LUA_TTABLE ∧ ∃ i, expectTableAndAppendKey o r = Throw i ∧
     TranslationKey i = Some (to_string r)).
Proof.
  destruct (decide (lua_type o = LUA_TTABLE)) as [Ho|Ho].
  - left. split; [done|]. by apply expect_key_ok.
  - right. split; [done|]. unfold expectTableAndAppendKey.
    destruct (expectTable_throw o Ho) as (i & -> & _). by eexists.
Qed.

Lemma correct_single c : correct (put_single c) (matches (single c)) (names_bad (single c)).
Proof.
  split; unfold put_single; intros r f; simpl;
    [..|intros ->; destruct (rkey f); [by eauto|by intros ?%is_Some_None]];
    destruct (rkey r) as [s|]; try done; intros [= <-]; unfold objectCast.
  - intros o x. destruct (object_cast c (index o s)) as [what|y] eqn:E; simpl.
    + destruct (stack_top _); simpl; split; try done; by destruct x.
    + destruct x; split; try done; intros; simplify_eq; done.
  - intros o i. destruct (object_cast c (index o s)) as [what|y] eqn:E; simpl; [|done].
    destruct (stack_top _); simpl; [|done]. intros [= <-]. simpl. eauto.
Qed.

Lemma fields_snoc ms m ks o row x :
  fields (ms ++ [m]) ks o (row ++ [x]) ↔
  fields ms ks o row ∧ ∃ k, ks !! length ms = Some k ∧ m k o x.
Proof.
  revert ks row. induction ms as [|m0 ms IH]; intros ks row.
  - destruct row as [|y row]; simpl.
    + destruct ks; simpl; [naive_solver|]. split; [|naive_solver].
      intros [? _]. split; [done|eauto].
    + destruct ks; [by split; [|intros [[] ?]]|].
      by destruct row; simpl; split; [intros [? []]|intros [[] ?]|intros [? []]|intros [[] ?]].
  - destruct row as [|y row]; simpl.
    + destruct ks; [by split; [|intros [[] ?]]|].
      by destruct ms; simpl; split; [intros [? []]|intros [[] ?]|intros [? []]|intros [[] ?]].
    + destruct ks as [|k ks]; simpl; [naive_solver|]. rewrite IH. naive_solver.
Qed.

Lemma fields_length ms ks o row : fields ms ks o row → length row = length ms.
Proof.
  revert ks row. induction ms as [|m ms IH]; intros ks [|x row]; simpl; try done.
  destruct ks; [done|]. intros [_ Hr]. f_equal. by eapply IH.
Qed.

(** The elements put by [fill<pos>], and the keys its exceptions name. *)
Lemma fill_correct ps ms ns pos ks r f k :
  Forall3 correct ps ms ns → ks !! pos = Some k → rkey r = k →
  fill pos ps ks r = Some f →
  (∀ o row, f o = Ok row ↔ fields (take (S pos) ms) ks o row) ∧
  (∀ o i, f o = Throw i → ∃ j k n path, ks !! j = Some k ∧ ns !! j = Some n ∧
     TranslationKey i = Some path ∧ n (next_recorder r k) o path).
Proof.
  intros Hall. revert r f k. induction pos as [|pos IH]; intros r f k Hk Hr; simpl;
    destruct (ps !! _) as [p|] eqn:Hp; try done; simpl; destruct (p r) as [put0|] eqn:Eput; try done;
    simpl; destruct (Forall3_lookup_l _ _ _ _ _ _ Hall Hp) as (m & n & Hm & Hn & [Hst Hre _]);
    erewrite take_S_r by done; subst k.
  - intros [= <-]. simpl. split.
    + intros o row. specialize (Hst _ _ Eput o). destruct ks as [|k0 ks]; [done|].
      simplify_eq/=. destruct row as [|x row]; simpl.
      * split; [|done]. destruct (put0 o); done.
      * rewrite <- Hst. destruct (put0 o) as [y|?|?|]; simpl; [|split; [done|by intros [??]]..].
        split; [by intros [= <- <-]|]. intros [[= <-] Hf]. by destruct row.
    + intros o i Hi. destruct (Hre _ _ Eput o i) as (path & Hpath & Hbad).
      { by destruct (put0 o); simplify_eq/=. }
      exists 0%nat, (rkey r), n, path. split_and!; try done. by destruct r.
  - destruct (ks !! pos) as [k'|] eqn:Hk'; [|done]. simpl.
    destruct (fill pos ps ks (next_recorder r k')) as [rest|] eqn:Erest; [|done]. intros [= <-].
    destruct (IH (next_recorder r k') _ k' eq_refl eq_refl Erest) as [Hrest Hbad]. split.
    + intros o row. specialize (Hst _ _ Eput o). specialize (Hrest o).
      assert (Hlen : length (take (S pos) ms) = S pos).
      { rewrite length_take. apply lookup_lt_Some in Hm. lia. }
      split.
      * intros Hok. destruct (put0 o) as [x|?|?|] eqn:E; simpl in Hok; try done.
        destruct (rest o) as [xs|?|?|] eqn:E2; simplify_eq/=.
        apply fields_snoc. split; [by apply Hrest|]. rewrite Hlen. exists (rkey r).
        split; [done|by apply Hst].
      * intros Hf. destruct row as [|x row _] using rev_ind.
        { apply fields_length in Hf. rewrite length_app, Hlen in Hf. simpl in Hf. lia. }
        apply fields_snoc in Hf as (Hrow & k & Hk2 & Hx). rewrite Hlen, Hk in Hk2. simplify_eq.
        apply Hst in Hx. apply Hrest in Hrow. by rewrite Hx, Hrow.
    + intros o i Hi. destruct (put0 o) as [x|?|?|] eqn:E; simplify_eq/=.
      * destruct (rest o) as [xs|?|?|] eqn:E2; simplify_eq/=.
        destruct (Hbad o i E2) as (j & k & n' & path & Hj & Hn' & Hpath & Hb).
        by exists j, k, n', path.
      * destruct (Hre _ _ Eput o i E) as (path & Hpath & Hb).
        exists (S pos), (rkey r), n, path. split_and!; try done. by destruct r.
Qed.

Lemma correct_vector c : correct (put_vector c) (matches (vector c)) (names_bad (vector c)).
Proof. split; [done..|]. by intros r r' _ ?%is_Some_None. Qed.

Lemma put_elements_ok body i l rows :
  put_elements body i l = Ok rows ↔
  length rows = length l ∧
  ∀ j o row, l !! j = Some o → rows !! j = Some row → body (i + j)%nat o = Ok row.
Proof.
  revert i rows. induction l as [|o l IH]; intros i rows; simpl.
  - destruct rows; simpl; split; try done. by intros [? _].
  - destruct rows as [|row rows]; simpl.
    + split; [|by intros [? _]]. destruct (body i o); simpl; try done.
      by destruct (put_elements body (S i) l).
    + transitivity (body i o = Ok row ∧ put_elements body (S i) l = Ok rows).
      { destruct (body i o); simpl; [|split; [done|by intros [??]]..].
        destruct (put_elements body (S i) l); simpl; [|split; [done|by intros [??]]..].
        split; [by intros [= <- <-]|by intros [[= <-] [= <-]]]. }
      rewrite IH. split.
      * intros (Hb & Hlen & Hall). split; [by rewrite Hlen|].
        intros [|j] o' row' Ho Hrow; simplify_eq/=; [by rewrite Nat.add_0_r|].
        rewrite <- Nat.add_succ_comm. eauto.
      * intros [Hlen Hall]. split_and!; [|lia|].
        -- rewrite <- (Nat.add_0_r i). by apply (Hall 0%nat).
        -- intros j o' row' Ho Hrow. rewrite Nat.add_succ_comm. by apply (Hall (S j)).
Qed.

Lemma put_elements_throw body i l x :
  put_elements body i l = Throw x → ∃ j o, l !! j = Some o ∧ body (i + j)%nat o = Throw x.
Proof.
  revert i. induction l as [|o l IH]; intros i; simpl; [done|].
  destruct (body i o) eqn:E; simpl; try done.
  - destruct (put_elements body (S i) l) eqn:E2; simpl; try done. intros [= ->].
    destruct (IH _ E2) as (j & o' & Ho & Hb). exists (S j), o'. split; [done|].
    by rewrite <- Nat.add_succ_comm.
  - intros [= ->]. exists 0%nat, o. by rewrite Nat.add_0_r.
Qed.

(** An element of a table that is to hold tuples. *)
Definition put_element (ps : list putter) (ks : list key) (k : key) (r : recorder) (i : nat)
    (o : object) : res (list val) :=
  let child := IndexKeyRecorder r k i in
  let? _ := expectTableAndAppendKey o child in
  match fill (length ps - 1) ps ks child with
  | Some f => f o
  | None => Undefined
  end.

Lemma fill_compiles ps ms ns pos ks r r' :
  Forall3 correct ps ms ns → rkey r = rkey r' →
  is_Some (fill pos ps ks r) → is_Some (fill pos ps ks r').
Proof.
  intros Hall. revert r r'. induction pos as [|pos IH]; intros r r' Hr; simpl;
    destruct (ps !! _) as [p|] eqn:Hp; simpl; try done;
    destruct (Forall3_lookup_l _ _ _ _ _ _ Hall Hp) as (m & n & _ & _ & [_ _ Hc]);
    intros [f Hf]; destruct (p r) as [g|] eqn:E; try done; simpl in Hf;
    destruct (Hc _ _ Hr (mk_is_Some _ _ E)) as [g' ->]; simpl; [eauto|].
  destruct (ks !! pos) as [k|]; [|done]. simpl in *.
  destruct (fill pos ps ks (next_recorder r k)) eqn:E2; [|done].
  destruct (IH (next_recorder r k) (next_recorder r' k) eq_refl (mk_is_Some _ _ E2)) as [g2 ->].
  simpl. eauto.
Qed.

Section inner.
Context (ts : list rty).
Context (Hts : Forall (λ t, correct (put t) (matches t) (names_bad t)) ts).

Lemma inner_correct : Forall3 correct (map put ts) (map matches ts) (map names_bad ts).
Proof. induction Hts; simpl; constructor; auto. Qed.

Abbreviation last := (length (map put ts) - 1)%nat.

(** What the putter of a vector of tuples does, when it compiles. *)
Lemma put_tuples_some r g :
  put (tuples ts) r = Some g → ∃ s ks k, rkey r = k_pair s ks ∧ ks !! last = Some k ∧ ts ≠ [] ∧
    (∀ i, is_Some (fill last (map put ts) ks (IndexKeyRecorder r k i))) ∧
    g = λ table,
      let? _ := expectTableAndAppendKey (index table s) r in
      let? l := put_elements (put_element (map put ts) ks k r) 1 (elements (index table s)) in
      Ok (v_tuples l).
Proof.
  cbn [put]. unfold put_tuples. destruct (rkey r) as [|s ks]; [done|].
  destruct (ks !! last) as [k|] eqn:Hk; [|done]. simpl.
  destruct (fill last (map put ts) ks (IndexKeyRecorder r k 0)) as [f0|] eqn:E; [|done].
  intros [= <-]. exists s, ks, k. split_and!; try done.
  - intros E0. by rewrite E0 in E.
  - intros i. by eapply fill_compiles; [apply inner_correct| |by rewrite E].
Qed.

Lemma put_element_correct r s ks k i f o :
  rkey r = k_pair s ks → ks !! last = Some k → ts ≠ [] →
  fill last (map put ts) ks (IndexKeyRecorder r k i) = Some f →
  (∀ row, put_element (map put ts) ks k r i o = Ok row ↔
    lua_type o = LUA_TTABLE ∧ fields (map matches ts) ks o row) ∧
  (∀ x, put_element (map put ts) ks k r i o = Throw x → ∃ path, TranslationKey x = Some path ∧
    ((lua_type o ≠ LUA_TTABLE ∧ path = to_string (IndexKeyRecorder r k i)) ∨
     ∃ j k' m, ks !! j = Some k' ∧ map names_bad ts !! j = Some m ∧
       m (IndexKeyRecorder r k' i) o path)).
Proof.
  intros Hr Hk Hne Hf.
  destruct (fill_correct _ _ _ last ks (IndexKeyRecorder r k i) f k inner_correct Hk eq_refl Hf)
    as [Hok Hbad].
  rewrite take_ge in Hok by (rewrite !length_map; destruct ts; simpl in *; [done|lia]).
  unfold put_element. rewrite Hf.
  destruct (expect_key_cases o (IndexKeyRecorder r k i)) as [[Ho ->]|(Ho & x & -> & Hx)]; simpl.
  - split; [intros row; rewrite Hok; tauto|].
    intros x Hx. destruct (Hbad o x Hx) as (j & k' & m & path & Hj & Hm & Hp & Hb).
    exists path. split; [done|]. right. by exists j, k', m.
  - split; [intros row; split; [done|by intros [? _]]|].
    intros y [= <-]. eauto.
Qed.

Lemma tuples_stores r g :
  put (tuples ts) r = Some g → ∀ o x, g o = Ok x ↔ matches (tuples ts) (rkey r) o x.
Proof.
  intros Hg o x. destruct (put_tuples_some r g Hg) as (s & ks & k & Hr & Hk & Hne & Hc & ->).
  rewrite Hr. cbn [matches].
  destruct (expect_key_cases (index o s) r) as [[Ho ->]|(Ho & y & -> & _)]; simpl;
    [|split; [done|]; destruct x; [done|by intros [? _]]].
  destruct x as [|l].
  { split; [|done]. by destruct (put_elements _ _ _). }
  transitivity (put_elements (put_element (map put ts) ks k r) 1 (elements (index o s)) = Ok l).
  { destruct (put_elements _ _ _); simpl; split; congruence. }
  rewrite put_elements_ok. split.
  - intros [Hlen Hb]. split; [done|]. apply Forall2_same_length_lookup. split; [done|].
    intros j e row He Hrow. destruct (Hc (1 + j)%nat) as [f Hf].
    by apply (put_element_correct r s ks k (1 + j)%nat f), Hb.
  - intros [_ Hb]. split; [by symmetry; eapply Forall2_length|].
    intros j e row He Hrow. destruct (Hc (1 + j)%nat) as [f Hf].
    apply (put_element_correct r s ks k (1 + j)%nat f); try done. by eapply Forall2_lookup_lr in Hb.
Qed.

Lemma tuples_reports r g :
  put (tuples ts) r = Some g → ∀ o x, g o = Throw x →
  ∃ path, TranslationKey x = Some path ∧ names_bad (tuples ts) r o path.
Proof.
  intros Hg o x. destruct (put_tuples_some r g Hg) as (s & ks & k & Hr & Hk & Hne & Hc & ->).
  cbn [names_bad]. rewrite Hr.
  destruct (expect_key_cases (index o s) r) as [[Ho ->]|(Ho & y & -> & Hy)]; simpl.
  - destruct (put_elements _ _ _) eqn:E; simpl; try done. intros [= ->].
    apply put_elements_throw in E as (j & e & He & E). destruct (Hc (1 + j)%nat) as [f Hf].
    destruct (put_element_correct r s ks k (1 + j)%nat f e Hr Hk Hne Hf) as [_ Hbad].
    destruct (Hbad x E) as (path & Hp & Hwhy). exists path. split; [done|]. right.
    exists j, e. split; [done|]. rewrite length_map in Hk.
    destruct Hwhy as [[Hno ->]|Hdeep]; [left|right]; eauto.
  - intros [= <-]. eauto.
Qed.

Lemma correct_tuples : correct (put (tuples ts)) (matches (tuples ts)) (names_bad (tuples ts)).
Proof.
  split; [apply tuples_stores|apply tuples_reports|].
  intros r r' Hrr [g Hg]. destruct (put_tuples_some r g Hg) as (s & ks & k & Hr & Hk & Hne & Hc & _).
  cbn [put]. unfold put_tuples. rewrite <- Hrr, Hr, Hk. simpl.
  destruct (fill_compiles _ _ _ last ks (IndexKeyRecorder r k 0) (IndexKeyRecorder r' k 0)
    inner_correct eq_refl (Hc 0%nat)) as [g' ->].
  simpl. eauto.
Qed.
End inner.

Lemma put_correct t : correct (put t) (matches t) (names_bad t).
Proof.
  induction t as [c|c|ts IH] using rty_nested_ind;
    [apply correct_single|apply correct_vector|by apply correct_tuples].
Qed.

Lemma all_correct ts : Forall3 correct (map put ts) (map matches ts) (map names_bad ts).
Proof. apply inner_correct, Forall_forall. intros t _. apply put_correct. Qed.

(** The rows a table has, and the keys named when it has none. *)
Lemma translate_rows ts ks f o row :
  translate ts ks = Some f → length ks = length ts →
  f o = Ok row ↔ lua_type o = LUA_TTABLE ∧ fields (map matches ts) ks o row.
Proof.
  unfold translate. intros Hf Hlen. destruct (ks !! _) as [k|] eqn:Hk; [|done]. simpl in Hf.
  destruct (fill _ _ ks (KeyRecorder k)) as [g|] eqn:Hg; [|done]. simplify_eq/=.
  rewrite Hlen in Hk.
  destruct (fill_correct _ _ _ _ ks (KeyRecorder k) g k (all_correct ts) Hk eq_refl Hg) as [Hok _].
  rewrite take_ge in Hok by (rewrite length_map; apply lookup_lt_Some in Hk; lia).
  rewrite <- Hok, <- (expectTable_ok o ()). destruct (expectTable o) as [[]|?|?|]; simpl; [tauto|..];
    split; try done; by intros [? _].
Qed.

Lemma translate_throws ts ks f o i :
  translate ts ks = Some f → length ks = length ts → f o = Throw i →
  (lua_type o ≠ LUA_TTABLE ∧ TranslationKey i = None) ∨
  ∃ j t k path, TranslationKey i = Some path ∧ ks !! j = Some k ∧ ts !! j = Some t ∧
    names_bad t (KeyRecorder k) o path.
Proof.
  unfold translate. intros Hf Hlen. destruct (ks !! _) as [k|] eqn:Hk; [|done]. simpl in Hf.
  destruct (fill _ _ ks (KeyRecorder k)) as [g|] eqn:Hg; [|done]. simplify_eq/=.
  rewrite Hlen in Hk.
  destruct (fill_correct _ _ _ _ ks (KeyRecorder k) g k (all_correct ts) Hk eq_refl Hg) as [_ Hbad].
  destruct (decide (lua_type o = LUA_TTABLE)) as [Ho|Ho].
  - rewrite (proj2 (expectTable_ok o ()) Ho). simpl. intros Hthrow. right.
    destruct (Hbad o i Hthrow) as (j & k' & n & path & Hj & Hn & Hp & Hb).
    rewrite list_lookup_fmap in Hn. destruct (ts !! j) as [t|] eqn:Ht; simplify_eq/=.
    by exists j, t, k', path.
  - destruct (expectTable_throw o Ho) as (i' & -> & Hi). simpl. intros [= <-]. eauto.
Qed.

(** A translation answers with a tuple or a script exception, unless a conversion
    fails while there is no string on top of the interpreter's stack. *)
Definition answers {A} (r : res A) : Prop :=
  match r with
  | Foreign _ => False
  | Undefined => ∃ o, stack_top o = None
  | _ => True
  end.

Lemma answers_bind {A B} (m : res A) (k : A → res B) :
  answers m → (∀ x, m = Ok x → answers (k x)) → answers (let? x := m in k x).
Proof. destruct m; simpl; auto. Qed.

Lemma answers_expect_key o r : answers (expectTableAndAppendKey o r).
Proof. by destruct (expect_key_cases o r) as [[_ ->]|(_ & i & -> & _)]. Qed.

Lemma answers_fill pos (ps : list putter) ks r f :
  Forall (λ p, ∀ r f, p r = Some f → ∀ o, answers (f o)) ps →
  fill pos ps ks r = Some f → ∀ o, answers (f o).
Proof.
  intros Hps. revert r f. induction pos as [|pos IH]; intros r f; simpl;
    destruct (ps !! _) as [p|] eqn:Hp; try done; simpl;
    pose proof (proj1 (Forall_lookup _ ps) Hps _ _ Hp) as Hput; destruct (p r) as [g|] eqn:Hg; try done; simpl.
  - intros [= <-] o. apply answers_bind; [by eapply Hput|done].
  - destruct (ks !! pos) as [k|]; [|done]. simpl.
    destruct (fill pos ps ks (next_recorder r k)) as [rest|] eqn:Hrest; [|done].
    intros [= <-] o. apply answers_bind; [by eapply Hput|]. intros x _.
    apply answers_bind; [by eapply IH|done].
Qed.

Lemma answers_put_elements body i l :
  (∀ i o, answers (body i o)) → answers (put_elements body i l).
Proof.
  intros Hb. revert i. induction l as [|o l IH]; intros i; simpl; [done|].
  apply answers_bind; [apply Hb|]. intros x _. apply answers_bind; [apply IH|done].
Qed.

Lemma answers_put t r f : put t r = Some f → ∀ o, answers (f o).
Proof.
  revert r f. induction t as [c|c|ts IH] using rty_nested_ind; intros r f.
  - simpl. unfold put_single, objectCast. destruct (rkey r) as [s|]; [|done].
    intros [= <-] o. destruct (object_cast _ _); simpl; [|done].
    destruct (stack_top _) eqn:E; simpl; eauto.
  - done.
  - intros Hf o.
    destruct (put_tuples_some ts ltac:(apply Forall_forall; intros; apply put_correct) r f Hf)
      as (s & ks & k & _ & _ & _ & Hc & ->).
    apply answers_bind; [apply answers_expect_key|]. intros _ _.
    apply answers_bind; [|done]. apply answers_put_elements. intros i e.
    unfold put_element. apply answers_bind; [apply answers_expect_key|]. intros _ _.
    destruct (Hc i) as [g Hg]. rewrite Hg. eapply answers_fill; [|exact Hg].
    by apply Forall_map.
Qed.

Lemma translate_answers ts ks f : translate ts ks = Some f → ∀ o, answers (f o).
Proof.
  unfold translate. destruct (ks !! _) as [k|]; [|done]. simpl.
  destruct (fill _ _ ks (KeyRecorder k)) as [g|] eqn:Hg; [|done]. intros [= <-] o.
  apply answers_bind.
  - destruct (decide (lua_type o = LUA_TTABLE)) as [Ho|Ho].
    + by rewrite (proj2 (expectTable_ok o ()) Ho).
    + by destruct (expectTable_throw o Ho) as (i & -> & _).
  - intros _ _. eapply answers_fill; [|exact Hg].
    apply Forall_map, Forall_forall. intros t _. apply answers_put.
Qed.

(** C20. With keys that mirror the types, [ObjectToTuple::translate] returns exactly
    the tuples the object describes: the object is a table; every field is found
    under its key and converts to its type; a vector of tuples has a tuple for every
    element of its table, in order, each a table of that shape. *)
Theorem translate_correct ts ks f o row :
  translate ts ks = Some f → length ks = length ts →
  f o = Ok row ↔ lua_type o = LUA_TTABLE ∧ fields (map matches ts) ks o row.
Proof. apply translate_rows. Qed.

(** C28. When [ObjectToTuple::translate] throws a script exception, either the object
    is not a table and the exception names no key, or the key it names is the path to
    a part of the table that is not what the types ask for. *)
Theorem translate_error ts ks f o i :
  translate ts ks = Some f → length ks = length ts → f o = Throw i →
  (lua_type o ≠ LUA_TTABLE ∧ TranslationKey i = None) ∨
  ∃ j t k path, TranslationKey i = Some path ∧ ks !! j = Some k ∧ ts !! j = Some t ∧
    names_bad t (KeyRecorder k) o path.
Proof. apply translate_throws. Qed.

(** C30. What a call of a keyed script hook comes to, by what the call of its Lua
    function comes to. A result that describes a tuple for the keys is returned as
    that tuple, and nothing is logged. Any other result is thrown as a script
    exception, logged once: the log says that a structure was expected (the text of
    the structure is the constant of [getHumanReadableFormat]) and names the key of
    a part that is not what the types ask for, or no key when the result is no
    table. The behaviour is undefined only when that of the call is, or when an
    interpreter's stack has no string on top, which the text of a failed conversion is
    made of. A script exception of the call itself is thrown as it is, logged once;
    exceptions of other classes pass unlogged. The hook stays hooked to its function. *)
Theorem keyed_hook_call ts ks c h args r h' :
  BasicKeyedHook_call ts ks = Some c → length ks = length ts → c h args = (r, h') →
  func h' = func h ∧
  match call_function (func h) args with
  | Ok o =>
      (∀ row, r = Ok row ↔ lua_type o = LUA_TTABLE ∧ fields (map matches ts) ks o row) ∧
      match r with
      | Ok _ => logged h' = logged h
      | Throw i =>
          logged h' = logged h ++ [log_message i] ∧ ValueTranslation i = Some (structure_message i) ∧
          ((lua_type o ≠ LUA_TTABLE ∧ TranslationKey i = None) ∨
           ∃ j t k path, TranslationKey i = Some path ∧ ks !! j = Some k ∧ ts !! j = Some t ∧
             names_bad t (KeyRecorder k) o path)
      | Foreign _ => False
      | Undefined => ∃ o', stack_top o' = None
      end
  | Throw i => r = Throw i ∧ logged h' = logged h ++ [log_message i]
  | Foreign what => r = Foreign what ∧ logged h' = logged h
  | Undefined => r = Undefined
  end.
Proof.
  unfold BasicKeyedHook_call, BasicKeyedHook_translate. intros Hc Hlen Hcall.
  destruct (translate ts ks) as [f|] eqn:Hf; [|done]. simplify_eq/=.
  unfold operator_call, callScriptFunction in Hcall.
  destruct (call_function (func h) args) as [o|i|w|] eqn:Eo; simplify_eq/=; [|done..].
  pose proof (λ row, translate_rows ts ks f o row Hf Hlen) as Hrows.
  pose proof (translate_answers ts ks f Hf o) as Hans.
  destruct (f o) as [row|i|w|] eqn:Ef; simplify_eq/=.
  - done.
  - pose proof (translate_throws ts ks f o i Hf Hlen Ef) as Hbad.
    split_and!; try done. intros row. rewrite <- Hrows. by split.
  - done.
  - split_and!; try done.
Qed.

(** A hook forgets its function when it is unhooked, and [hookUp] sets it, whatever
    [attach] and [detach] do that leave it alone. *)
Lemma hook_lifecycle attach detach f h :
  (∀ h, func (attach h) = func h) →
  func (hookUp attach f h) = f ∧ func (unhook detach (hookUp attach f h)) = invalid_object.
Proof. intros Ha. unfold hookUp, unhook. simpl. by rewrite Ha. Qed.

(** ** The login hook (script/hook/loginprotocolhooks.h, hook/loginprotocolhooks.hpp) *)

(** [AccountLoginSuccedKeys]; [AccountLoginSucceedResult::type], from the C++ types
    of its numbers and strings. *)
Definition AccountLoginSuccedKeys : list key :=
  [k_plain "motd"; v "characters" ["name"; "world"; "ip"; "port"]; k_plain "premiumEnd"].

Definition AccountLoginSucceedResult (int64 str uint32 uint16 int : ctype) : list rty :=
  [single int64; single str; tuples [single str; single str; single uint32; single uint16]; single int].

(** The keys lack one for the number of the message of the day, so the positions of
    keys and elements do not match and the hook cannot be instantiated. *)
Lemma AccountLoginSucced_does_not_compile i64 str u32 u16 i :
  translate (AccountLoginSucceedResult i64 str u32 u16 i) AccountLoginSuccedKeys = None.
Proof. done. Qed.

End lua.

(** ** Hooks of the server (hook/hook.hpp) *)

(** [Hook<R(P...)>] holds a [std::function]; one made from an empty function throws
    [bad_function_call] when it is called. *)
Section cpp_hook.
Context {P R : Type}.

Record cpp_hook : Type := mk_cpp_hook { hook : option (P → res R) }.

Definition cpp_hook_of (h : option (P → res R)) : cpp_hook := mk_cpp_hook h.
Definition cpp_hook_assign (h : option (P → res R)) (_ : cpp_hook) : cpp_hook := mk_cpp_hook h.
Definition cpp_hook_call (h : cpp_hook) (args : P) : res R :=
  match hook h with Some f => f args | None => Foreign "bad_function_call" end.

End cpp_hook.

(** ** Witnesses *)

(** Lua values: numbers, strings, and tables with named fields and elements. *)
Inductive lua_value : Type :=
  | L_nil
  | L_number (z : Z)
  | L_string (s : string)
  | L_table (named : list (string * lua_value)) (seq : list lua_value).

Fixpoint field_of (k : string) (l : list (string * lua_value)) : lua_value :=
  match l with
  | [] => L_nil
  | (k', x) :: l' => if String.eqb k k' then x else field_of k l'
  end.

Definition toy_lua : Lua := {|
  object := lua_value;
  ctype := bool;
  cvalue := Z + string;
  lua_type := λ o, match o with L_nil => 0 | L_number _ => 3 | L_string _ => 4 | L_table _ _ => 5 end%Z;
  LUA_TTABLE := 5%Z;
  LUA_TFUNCTION := 6%Z;
  lua_typename := λ t, if (t =? 5)%Z then "table" else "other";
  index := λ o k, match o with L_table named _ => field_of k named | _ => L_nil end;
  elements := λ o, match o with L_table _ seq => seq | _ => [] end;
  object_cast := λ t o, match t, o with
    | true, L_number z => inr (inl z)
    | false, L_string s => inr (inr s)
    | _, _ => inl "cast failed" end;
  stack_top := λ _, Some "top";
  invalid_object := L_nil;
  call_function := λ f _, Ok f;
|}.

#[local] Existing Instance toy_lua.

(** A tuple of a string, a vector of (string, number) and a number, with the keys of
    the test in hooktest.cpp. *)
Definition toy_types : list rty := [single false; tuples [single false; single true]; single true].
Definition toy_keys : list key := [k_plain "str"; v "tuples" ["str"; "num"]; k_plain "num"].
Definition toy_inner (s : string) (n : lua_value) : lua_value :=
  L_table [("str", L_string s); ("num", n)] [].
Definition toy_object (second : lua_value) : object :=
  L_table [("str", L_string "<"); ("num", L_number (-999));
           ("tuples", L_table [] [toy_inner "inner" (L_number 2); toy_inner "inner2" second])] [].
Definition toy_row : list val :=
  [v_single (inr "<");
   v_tuples [[v_single (inr "inner"); v_single (inl 2%Z)];
             [v_single (inr "inner2"); v_single (inl 3%Z)]];
   v_single (inl (-999)%Z)].

Lemma translate_correct_witness :
  ∃ f, translate toy_types toy_keys = Some f ∧ f (toy_object (L_number 3)) = Ok toy_row ∧
    fields (map matches toy_types) toy_keys (toy_object (L_number 3)) toy_row.
Proof.
  eexists. split; [reflexivity|]. split; [vm_compute; reflexivity|].
  eapply (translate_correct toy_types toy_keys _ (toy_object (L_number 3)) toy_row eq_refl eq_refl).
  vm_compute. reflexivity.
Defined.

(** The second element has a string for its number: the exception names
    [tuples[2].num]. *)
Definition toy_info : info := mk_info (Some "[from objectCast] cast failed  top") (Some "tuples[2].num") None.

Lemma translate_error_witness :
  ∃ f, translate toy_types toy_keys = Some f ∧ f (toy_object (L_string "x")) = Throw toy_info ∧
    ∃ j t k path, TranslationKey toy_info = Some path ∧ toy_keys !! j = Some k ∧
      toy_types !! j = Some t ∧ names_bad t (KeyRecorder k) (toy_object (L_string "x")) path.
Proof.
  eexists. split; [reflexivity|]. split; [vm_compute; reflexivity|].
  destruct (translate_error toy_types toy_keys _ (toy_object (L_string "x")) toy_info eq_refl eq_refl)
    as [[_ H]|H]; [vm_compute; reflexivity|discriminate H|exact H].
Defined.

(** The same element makes the hook throw and log once. *)
Lemma keyed_hook_call_witness :
  ∃ c i h', BasicKeyedHook_call toy_types toy_keys = Some c ∧
    c (mk_hook (toy_object (L_string "x")) []) [] = (Throw i, h') ∧
    func h' = toy_object (L_string "x") ∧ logged h' = [log_message i] ∧
    ValueTranslation i = Some (structure_message i) ∧ TranslationKey i = Some "tuples[2].num" ∧
    ∀ row, ¬ fields (map matches toy_types) toy_keys (toy_object (L_string "x")) row.
Proof.
  eexists _, _, _. split; [reflexivity|]. split; [vm_compute; reflexivity|].
  destruct (keyed_hook_call toy_types toy_keys _ (mk_hook (toy_object (L_string "x")) []) [] _ _
    eq_refl eq_refl ltac:(vm_compute; reflexivity)) as [Hf [Hrows [Hl [Hs _]]]].
  split; [exact Hf|]. split; [exact Hl|]. split; [exact Hs|]. split; [reflexivity|].
  intros row Hrow. assert (Ht : lua_type (toy_object (L_string "x")) = LUA_TTABLE) by reflexivity.
  discriminate (proj2 (Hrows row) (conj Ht Hrow)).
Defined.

End Hook.
