(* ===== verification/HookTests.v ===== *)
(** * The unit tests of the hooks (otservpptest/script/hooktest.cpp)

    The three tests, on the hooks of Hook and any interpreter that does to strings,
    numbers, tables and calls what Lua does. *)

From stdpp Require Import pretty.
From S2P Require Import Prelude Hook.

Module HookTests.
Import Hook.

(** Lua with luabind as the tests use it: values pushed and cast back, tables made of
    named fields, tables made of elements. *)
Class Values `{Lua} : Type := {
  string_type : ctype;
  int_type : ctype;
  object_type : ctype;
  of_string : string → cvalue;
  of_int : Z → cvalue;
  of_object : object → cvalue;
  push : cvalue → object;
  table : list (string * object) → object;
  sequence : list object → object;
  tostring : cvalue → string;
  cast_string s : object_cast string_type (push (of_string s)) = inr (of_string s);
  cast_int z : object_cast int_type (push (of_int z)) = inr (of_int z);
  cast_object o : object_cast object_type o = inr (of_object o);
  push_object o : push (of_object o) = o;
  type_table l : lua_type (table l) = LUA_TTABLE;
  type_sequence l : lua_type (sequence l) = LUA_TTABLE;
  index_table l k o : (list_to_map l : gmap string object) !! k = Some o → index (table l) k = o;
  elements_sequence l : elements (sequence l) = l;
  tostring_int z : tostring (of_int z) = pretty z;
}.

(** The functions of the tests' scripts: their text, and what they return. *)
Inductive script `{Lua} : Type :=
  | trivial
  | tuple
  | vectorTuple (object1 object2 : object).

Definition tuple_table `{Values} (s : string) (n : Z) (o : object) : object :=
  table [("str", push (of_string s)); ("num", push (of_int n)); ("obj", o)].

Definition returned `{Values} (f : script) (args : list cvalue) : object :=
  match f, args with
  | trivial, [a; b] => push (of_string (tostring a +:+ tostring b))
  | tuple, [a; b; c] => table [("str", push a); ("num", push b); ("obj", push c)]
  | vectorTuple object1 object2, [] =>
      table [("str", push (of_string "<"));
             ("tuples", sequence [tuple_table "inner" 2 object1; tuple_table "inner2" 3 object2]);
             ("num", push (of_int (-999)))]
  | _, _ => invalid_object
  end.

(** [luaL_dostring] of a script, and the global it defines. *)
Class Interpreter `{Values} : Type := {
  global : script → object;
  call_global f args : call_function (global f) args = Ok (returned f args);
}.

Section tests.
Context `{Interpreter}.

(** [hookUp] and [unhook] call [attach] and [detach], which these hooks do not override. *)
Definition hooked_to (f : object) : script_hook := hookUp id f new_hook.

(** [SimpleHook(s)], [TupleHook(s)] and [TupleVectorHook(s)]: a copy of the hook, called. *)
Definition Hook_of {R} (call : script_hook → list cvalue → res R * script_hook) (s : script_hook)
    : cpp_hook (P:=list cvalue) (R:=R) := cpp_hook_of (Some (λ args, (call s args).1)).

Definition ScriptedSimpleHook : script_hook → list cvalue → res cvalue * script_hook :=
  operator_call (BasicHook_translate string_type).

Definition TupleResult : list rty := [single string_type; single int_type; single object_type].
Definition ScriptedTupleKeys : list key := [k_plain "str"; k_plain "num"; k_plain "obj"].
Definition ScriptedTupleHook := BasicKeyedHook_call TupleResult ScriptedTupleKeys.

Definition TupleVectorResult : list rty := [single string_type; tuples TupleResult; single int_type].
Definition ScriptedTupleVectorKeys : list key :=
  [k_plain "str"; v "tuples" ["str"; "num"; "obj"]; k_plain "num"].
Definition ScriptedTupleVectorHook := BasicKeyedHook_call TupleVectorResult ScriptedTupleVectorKeys.

Definition ReturnsTrivialValue : Prop :=
  cpp_hook_call (Hook_of ScriptedSimpleHook (hooked_to (global trivial))) [of_int 9; of_int 1] =
    Ok (of_string "91").
Definition TranslatesLuaTableIntoTuple (obj : object) : Prop :=
  ∃ call, ScriptedTupleHook = Some call ∧
    cpp_hook_call (Hook_of call (hooked_to (global tuple))) [of_string "test"; of_int 13; of_object obj] =
      Ok [v_single (of_string "test"); v_single (of_int 13); v_single (of_object obj)].
Definition TranslatesLuaTableIntoVectorTuple (obj1 obj2 : object) : Prop :=
  ∃ call, ScriptedTupleVectorHook = Some call ∧
    cpp_hook_call (Hook_of call (hooked_to (global (vectorTuple obj1 obj2)))) [] =
      Ok [v_single (of_string "<");
          v_tuples [[v_single (of_string "inner"); v_single (of_int 2); v_single (of_object obj1)];
                    [v_single (of_string "inner2"); v_single (of_int 3); v_single (of_object obj2)]];
          v_single (of_int (-999))].

(** ** They pass *)

Lemma expectTable_type o : lua_type o = LUA_TTABLE → expectTable o = Ok tt.
Proof.
  intros E. unfold expectTable, expectAnyOf, isAnyOfType. simpl. by rewrite E, Z.eqb_refl.
Qed.

(** Runs a translation of tables. *)
Ltac run_translation :=
  simpl; unfold objectCast, expectTableAndAppendKey;
  repeat (first
    [ rewrite expectTable_type by apply type_table | rewrite expectTable_type by apply type_sequence
    | rewrite elements_sequence | rewrite push_object
    | rewrite cast_string | rewrite cast_int | rewrite cast_object
    | erewrite index_table by reflexivity ]; simpl);
  try reflexivity.

(** C34. The tests of the hooks pass: a hook of a trivial type returns the string the
    script made of its arguments; a keyed hook translates the table of the script into
    the tuple, and a table of tables into a vector of tuples, field by field. *)
Theorem hook_tests_pass (object1 object2 : object) :
  ReturnsTrivialValue ∧ TranslatesLuaTableIntoTuple object1 ∧
  TranslatesLuaTableIntoVectorTuple object1 object2.
Proof.
  split; [|split].
  - unfold ReturnsTrivialValue, cpp_hook_call. simpl. unfold ScriptedSimpleHook, operator_call, callScriptFunction, hooked_to, hookUp.
    simpl. rewrite call_global. simpl. unfold BasicHook_translate, objectCast. rewrite !tostring_int, cast_string.
    done.
  - eexists. split; [reflexivity|]. unfold cpp_hook_call. simpl. unfold ScriptedSimpleHook, operator_call, callScriptFunction, hooked_to, hookUp.
    simpl. rewrite call_global. unfold returned, tuple_table. run_translation.
  - eexists. split; [reflexivity|]. unfold cpp_hook_call. simpl.
    unfold ScriptedSimpleHook, operator_call, callScriptFunction, hooked_to, hookUp.
    simpl. rewrite call_global. unfold returned, tuple_table. run_translation.
Qed.

End tests.

(** ** A toy interpreter *)

Inductive toy_value : Type :=
  | L_nil
  | L_number (z : Z)
  | L_string (s : string)
  | L_table (named : list (string * toy_value)) (seq : list toy_value)
  | L_trivial
  | L_tuple
  | L_vectorTuple (o1 o2 : toy_value).

Inductive toy_cvalue : Type := C_int (z : Z) | C_string (s : string) | C_object (o : toy_value).

Definition toy_push (x : toy_cvalue) : toy_value :=
  match x with C_int z => L_number z | C_string s => L_string s | C_object o => o end.
Definition toy_tostring (x : toy_cvalue) : string :=
  match x with C_int z => pretty z | C_string s => s | C_object _ => "table" end.
Definition toy_tuple (s n o : toy_value) : toy_value := L_table [("str", s); ("num", n); ("obj", o)] [].
Definition toy_call (f : toy_value) (args : list toy_cvalue) : toy_value :=
  match f, args with
  | L_trivial, [a; b] => L_string (toy_tostring a +:+ toy_tostring b)
  | L_tuple, [a; b; c] => toy_tuple (toy_push a) (toy_push b) (toy_push c)
  | L_vectorTuple o1 o2, [] => L_table [("str", L_string "<");
      ("tuples", L_table [] [toy_tuple (L_string "inner") (L_number 2) o1;
                             toy_tuple (L_string "inner2") (L_number 3) o2]);
      ("num", L_number (-999))] []
  | _, _ => L_nil
  end.

#[local] Instance toy_lua : Lua := {|
  object := toy_value;
  ctype := nat;
  cvalue := toy_cvalue;
  lua_type := λ o, match o with L_table _ _ => 5 | L_nil => 0 | _ => 6 end;
  LUA_TTABLE := 5;
  LUA_TFUNCTION := 6;
  lua_typename := λ _, "type";
  index := λ o k, match o with
    | L_table named _ => default L_nil ((list_to_map named : gmap string toy_value) !! k) | _ => L_nil end;
  elements := λ o, match o with L_table _ seq => seq | _ => [] end;
  object_cast := λ t o, match t, o with
    | 0%nat, L_string s => inr (C_string s)
    | 1%nat, L_number z => inr (C_int z)
    | 2%nat, o => inr (C_object o)
    | _, _ => inl "cast failed" end;
  stack_top := λ _, None;
  invalid_object := L_nil;
  call_function := λ f args, Ok (toy_call f args);
|}.

#[local] Instance toy_values : Values.
Proof.
  refine {| string_type := 0%nat : ctype; int_type := 1%nat : ctype; object_type := 2%nat : ctype;
    of_string := C_string : string → cvalue; of_int := C_int : Z → cvalue; of_object := C_object;
    push := toy_push; table := λ l, L_table l []; sequence := L_table []; tostring := toy_tostring |};
    try done.
  intros l k o E. simpl in *. by rewrite E.
Defined.

#[local] Instance toy_interpreter : Interpreter.
Proof.
  refine {| global := λ f, match f with trivial => L_trivial | tuple => L_tuple
    | vectorTuple o1 o2 => L_vectorTuple o1 o2 end |}.
  by intros [] [|? [|? [|? []]]].
Defined.

Lemma hook_tests_pass_witness :
  ReturnsTrivialValue ∧ TranslatesLuaTableIntoTuple (L_table [] []) ∧
  TranslatesLuaTableIntoVectorTuple (L_table [] []) (L_number 7).
Proof. exact (hook_tests_pass (L_table [] []) (L_number 7)). Defined.

End HookTests.
