(* ===== verification/Adapter.v ===== *)
(** * Adapters that expose C++ to Lua (script/adapter/, script/adapterset.hpp,
    script/static_adapter/)

    An adapter has the name of what it adapts and a function that registers it with
    a Lua state. An [AdapterSet] holds at most one adapter of each name. *)

From S2P Require Import Prelude Platform.

Module Adapter.

(** What an adapter adds to a Lua state: global functions, classes, their methods. *)
Inductive registration : Type :=
  | lua_function (name : string)
  | lua_class (name : string)
  | lua_method (cls name : string).

#[export] Instance registration_eq_dec : EqDecision registration.
Proof. solve_decision. Defined.

Section adapters.
(** The C++ objects that adapters and the functions they register refer to. *)
Context {T : Type}.

(** A Lua state as adapters change it: what they registered, and those objects. *)
Abbreviation lua_state := (list registration * T)%type.

(** [Adapter], [BasicAdapter] *)
Record adapter : Type := mk_adapter { getAdaptee : string; apply1 : prog lua_state unit }.

(** [Adapter::operator==], [AdapterPtrEquality]; [AdapterPtrHash] hashes the same
    string. *)
Definition equal (a b : adapter) : bool := String.eqb (getAdaptee a) (getAdaptee b).

(** [TypeAdapter] and [GlobalInstanceAdapter], from [typeid(Adaptee).name()]. *)
Definition TypeAdapter (type_name : string) (f : prog lua_state unit) : adapter :=
  mk_adapter type_name f.
Definition GlobalInstanceAdapter (type_name instanceName : string) (f : prog lua_state unit)
    : adapter := mk_adapter (type_name +:+ "_G-" +:+ instanceName) f.

(** [module(L)[...]] *)
Definition module_ (l : list registration) : prog lua_state unit := modify (λ s, (s.1 ++ l, s.2)).

(** [SchedulerAdapter], [DeferredTaskAdapter] and [IntervalTaskAdapter] *)
Definition SchedulerAdapter_apply : prog lua_state unit :=
  module_ [lua_function "callAfter"; lua_function "callEvery"].
Definition SchedulerAdapter (scheduler_type : string) : adapter :=
  GlobalInstanceAdapter scheduler_type "[callAfter(), callEvery()]" SchedulerAdapter_apply.

Definition DeferredTaskAdapter (type_name : string) : adapter :=
  TypeAdapter type_name (module_ [lua_class "DeferredTask"; lua_method "DeferredTask" "cancel"]).

Definition IntervalTaskAdapter (type_name : string) : adapter :=
  TypeAdapter type_name (module_
    [lua_class "IntervalTask"; lua_method "IntervalTask" "cancel";
     lua_method "IntervalTask" "reschedule"; lua_method "IntervalTask" "reschedule"]).

(** An [unordered_set]; the list is in the order an iteration takes. *)
Abbreviation AdapterSet := (list adapter).

(** [insert], which says whether it took place; a new element may come anywhere in
    the iteration order: [at_]. *)
Definition insert (at_ : nat) (a : adapter) (s : AdapterSet) : bool * AdapterSet :=
  if existsb (equal a) s then (false, s) else (true, take at_ s ++ a :: drop at_ s).

(** [StaticAdapters::insert] *)
Definition static_insert `{Platform} (at_ : nat) (a : adapter) : prog AdapterSet bool :=
  let! s := get in
  let '(insertionTookPlace, s') := insert at_ a s in
  put s' ;;; assertM insertionTookPlace ;;; ret true.

Definition getAll : prog AdapterSet AdapterSet := get.

(** [apply(adapters, L)] *)
Definition apply (adapters : AdapterSet) : prog lua_state unit := run_all apply1 adapters.

(** ** One adapter of each name *)

Definition insert_all (l : list (nat * adapter)) : AdapterSet :=
  foldl (λ s p, (insert p.1 p.2 s).2) [] l.

Lemma equal_spec a b : equal a b = true ↔ getAdaptee a = getAdaptee b.
Proof. apply String.eqb_eq. Qed.

Lemma existsb_equal a s : existsb (equal a) s = true ↔ getAdaptee a ∈ map getAdaptee s.
Proof.
  rewrite existsb_exists, list_elem_of_fmap. split.
  - intros (b & Hb & E%equal_spec). exists b. split; [done|by apply list_elem_of_In].
  - intros (b & E & Hb). exists b. split; [by apply list_elem_of_In|by apply equal_spec].
Qed.

Lemma insert_perm at_ a s :
  (insert at_ a s).2 ≡ₚ if existsb (equal a) s then s else a :: s.
Proof.
  unfold insert. destruct (existsb _ _); simpl; [done|].
  rewrite <- Permutation_middle. by rewrite take_drop.
Qed.

(** The first adapter of a name in a list. *)
Definition first_named (n : string) (l : list adapter) : option adapter :=
  snd <$> list_find (λ a, getAdaptee a = n) l.

Lemma list_find_app_first (P : adapter → Prop) `{!∀ a, Decision (P a)} l1 l2 :
  snd <$> list_find P (l1 ++ l2) =
    match snd <$> list_find P l1 with Some a => Some a | None => snd <$> list_find P l2 end.
Proof.
  induction l1 as [|a l1 IH]; simpl; [done|]. destruct (decide (P a)); [done|].
  rewrite <- !option_fmap_compose. simpl.
  assert (E : ∀ l, snd <$> list_find P l = (snd ∘ prod_map S id) <$> list_find P l :> option adapter)
    by (intros l; by destruct (list_find P l) as [[]|]).
  rewrite <- !E. apply IH.
Qed.

(** However adapters are inserted into a set, no two of it have the same
    adaptee, and the one it keeps for a name is the first that was inserted; every
    adaptee inserted is there. *)
Theorem insert_all_correct (l : list (nat * adapter)) :
  NoDup (map getAdaptee (insert_all l)) ∧
  ∀ a, a ∈ insert_all l ↔ first_named (getAdaptee a) (map snd l) = Some a.
Proof.
  induction l as [|[n b] l [Hnd Hin]] using rev_ind; [split; [constructor|]; intros a; split;
    [by intros ?%elem_of_nil|done]|].
  unfold insert_all in *. rewrite foldl_app. simpl.
  set (s := foldl _ [] l) in *. pose proof (insert_perm n b s) as Hp.
  rewrite map_app. unfold first_named in *. simpl.
  assert (Hb : existsb (equal b) s = true ↔ first_named (getAdaptee b) (map snd l) ≠ None).
  { rewrite existsb_equal, list_elem_of_fmap. unfold first_named. split.
    - intros (a & E & Ha). apply Hin in Ha. rewrite E. by rewrite Ha.
    - intros Hne. destruct (list_find _ (map snd l)) as [[i a]|] eqn:E; [|done].
      pose proof E as E2. apply list_find_Some in E2 as (_ & Hname & _).
      exists a. split; [done|]. apply Hin. by rewrite Hname, E. }
  split.
  - rewrite Hp. destruct (existsb (equal b) s) eqn:E; [done|]. simpl. constructor; [|done].
    rewrite <- existsb_equal. by rewrite E.
  - intros a. rewrite Hp, list_find_app_first. simpl.
    destruct (existsb (equal b) s) eqn:E.
    + rewrite Hin. destruct (decide (getAdaptee b = getAdaptee a)) as [En|En]; simpl.
      * pose proof (proj1 Hb eq_refl) as Hne. unfold first_named in Hne. rewrite En in Hne.
        by destruct (snd <$> list_find _ (map snd l)).
      * by destruct (snd <$> list_find _ (map snd l)).
    + assert (Hnone : snd <$> list_find (λ a0, getAdaptee a0 = getAdaptee b) (map snd l) = None).
      { destruct (snd <$> list_find _ (map snd l)) eqn:E2; [|done].
        assert (false = true); [|done]. apply (proj2 Hb). unfold first_named. by rewrite E2. }
      rewrite elem_of_cons, Hin.
      destruct (decide (getAdaptee b = getAdaptee a)) as [En|En]; simpl.
      * rewrite <- En, Hnone. split; [intros [->|?]; congruence|intros [= ->]; auto].
      * split.
        -- intros [Ha|Ha]; [by destruct En; rewrite Ha|by rewrite Ha].
        -- intros Hx. right. case_match; simplify_eq/=; done.
Qed.

End adapters.
End Adapter.
