(* ===== verification/AdapterTests.v ===== *)
(** * The unit tests of adapters (otservpptest/script/adaptersettest.cpp,
    luatestenviroment.cpp)

    The tests of adapter sets, for every iteration order of the sets and whatever other
    static adapters the program registers, and the driver that runs every script of a
    directory. *)

From stdpp Require Import sorting.
From S2P Require Import Prelude Platform Adapter.

Module AdapterTests.
Import Adapter.

(** A failed [ASSERT_TRUE] leaves the test. *)
Definition expect {S} (b : bool) : prog S unit :=
  if b then ret tt else throw (StdException "assertion failed").

(** ** adaptersettest.cpp *)

(** The variables of the tests; [bools] are those a test has a reference to. *)
Record globals : Type := mk_globals { adapter1Ran : bool; adapter2Ran : bool; bools : list bool }.
Definition set_adapter1Ran x g := mk_globals x (adapter2Ran g) (bools g).
Definition set_adapter2Ran x g := mk_globals (adapter1Ran g) x (bools g).
Definition set_bools x g := mk_globals (adapter1Ran g) (adapter2Ran g) x.

Abbreviation adapter := (Adapter.adapter (T:=globals)).
Abbreviation lua_state := (list registration * globals)%type.

(** Code that works on the variables. *)
Definition on_globals {A} (m : prog globals A) : prog lua_state A :=
  zoom snd (λ g s, (s.1, g)) m.

Section tests.
(** [typeid(dummy1).name()], [typeid(dummy2).name()], [typeid(void()).name()] *)
Context (dummy1 dummy2 function_type : string).

Definition TestAdapter1 : adapter := TypeAdapter dummy1 (on_globals (modify (set_adapter1Ran true))).
Definition TestAdapter2 : adapter := TypeAdapter dummy2 (on_globals (modify (set_adapter2Ran true))).

(** [FunctionAdapter(b)] with a reference to a variable: it registers a function that
    negates it. *)
Definition FunctionAdapter (b : nat) : adapter :=
  GlobalInstanceAdapter function_type "testFunc" (module_ [lua_function "testFunc"]).
Definition testFunc (b : nat) : prog globals unit := modify (λ g, set_bools (alter negb b (bools g)) g).

(** [luaL_dostring(L, 'testFunc()')] when [FunctionAdapter(b)] is the adapter that
    registered it; without one the call is an error that the code ignores. *)
Definition dostring_testFunc (b : nat) : prog lua_state unit :=
  let! s := get in
  if decide (lua_function "testFunc" ∈ s.1) then on_globals (testFunc b) else ret tt.

Definition SetUp (g : globals) : lua_state := ([], mk_globals false false (bools g)).

Definition AppliesTypeStaticAdapters (getAll : list adapter) : prog lua_state unit :=
  apply getAll ;;;
  let! s := get in
  expect (adapter1Ran s.2) ;;; expect (adapter2Ran s.2).

Definition AppliesGlobalInstanceAdapters (at_ : nat) : prog lua_state unit :=
  let! s := get in
  let flag := length (bools s.2) in
  on_globals (modify (λ g, set_bools (bools g ++ [false]) g)) ;;;
  let adapters := (insert at_ (FunctionAdapter flag) []).2 in
  apply adapters ;;;
  dostring_testFunc flag ;;;
  (let! s := get in expect (default false (bools s.2 !! flag))) ;;;
  dostring_testFunc flag ;;;
  let! s := get in expect (negb (default true (bools s.2 !! flag))).

Definition DoesNotAllowDuplicatedAdapters (dummy at1 at2 : nat) : prog lua_state unit :=
  let first := insert at1 (FunctionAdapter dummy) [] in
  expect first.1 ;;;
  expect (negb (insert at2 (FunctionAdapter dummy) first.2).1).

(** ** They pass *)

(** A static adapter of the program: it leaves the variables of the tests alone. *)
Definition stateless (a : adapter) : Prop := ∀ s, ∃ r, apply1 a s = (Val tt, (r, s.2)).

Lemma apply_statics l : Forall (λ a, a = TestAdapter1 ∨ a = TestAdapter2 ∨ stateless a) l → ∀ s,
  ∃ s', apply l s = (Val tt, s') ∧
    (adapter1Ran s.2 = true ∨ TestAdapter1 ∈ l → adapter1Ran s'.2 = true) ∧
    (adapter2Ran s.2 = true ∨ TestAdapter2 ∈ l → adapter2Ran s'.2 = true).
Proof.
  induction 1 as [|a l Ha Hl IH]; intros s.
  { exists s. split; [done|]. split; by intros [?|?%elem_of_nil]. }
  assert (∃ s1, apply1 a s = (Val tt, s1) ∧
    (adapter1Ran s.2 = true ∨ a = TestAdapter1 → adapter1Ran s1.2 = true) ∧
    (adapter2Ran s.2 = true ∨ a = TestAdapter2 → adapter2Ran s1.2 = true)) as (s1 & E & H1 & H2).
  { assert (∃ s1, apply1 a s = (Val tt, s1) ∧ (adapter1Ran s.2 = true → adapter1Ran s1.2 = true) ∧
      (adapter2Ran s.2 = true → adapter2Ran s1.2 = true)) as (s1 & E & H1 & H2).
    { destruct Ha as [->|[->|Ha]]; [by eexists..|]. destruct (Ha s) as [r E]. by exists (r, s.2). }
    exists s1. split; [done|]. split; intros [?| ->]; auto; by injection E as <-. }
  destruct (IH s1) as (s' & E' & H1' & H2'). exists s'. unfold apply in *. simpl.
  split; [by rewrite (bind_val _ _ _ _ _ E)|].
  setoid_rewrite elem_of_cons. split; intros [Hs|[Hs|Hs]]; subst; eauto.
Qed.

Lemma first_named_unique (a : adapter) l : a ∈ l → (∀ b, b ∈ l → getAdaptee b = getAdaptee a → b = a) →
  first_named (getAdaptee a) l = Some a.
Proof.
  intros Ha Hu. unfold first_named.
  destruct (list_find (λ b : adapter, getAdaptee b = getAdaptee a) l) as [[i b]|] eqn:E; simpl.
  - apply list_find_Some in E as (Hi & Hn & _). f_equal. apply Hu; [by eapply list_elem_of_lookup_2|done].
  - apply list_find_None in E. by destruct (proj1 (Forall_forall _ _) E a Ha).
Qed.

Lemma insert_all_elem (l : list (nat * adapter)) a : a ∈ insert_all l → a ∈ l.*2.
Proof.
  intros Ha%insert_all_correct. unfold first_named in Ha.
  destruct (list_find _ _) as [[i b]|] eqn:E; simplify_eq/=.
  apply list_find_Some in E as (Hi & _). by eapply list_elem_of_lookup_2.
Qed.

Lemma statics_ran l : Forall (λ a, a = TestAdapter1 ∨ a = TestAdapter2 ∨ stateless a) l →
  TestAdapter1 ∈ l → TestAdapter2 ∈ l → ∀ s, (AppliesTypeStaticAdapters l s).1 = Val tt.
Proof.
  intros Hl H1 H2 s. destruct (apply_statics l Hl s) as (s' & E & Hr1 & Hr2).
  unfold AppliesTypeStaticAdapters. rewrite (bind_val _ _ _ _ _ E). unfold get, bind.
  by rewrite Hr1, Hr2 by auto.
Qed.

Lemma function_adapter_runs at_ s : (AppliesGlobalInstanceAdapters at_ s).1 = Val tt.
Proof.
  destruct s as [r g]. unfold AppliesGlobalInstanceAdapters, dostring_testFunc, on_globals, zoom, insert, apply.
  simpl. rewrite take_nil, drop_nil. simpl. run_simpl.
  destruct (decide (lua_function "testFunc" ∈ r ++ [lua_function "testFunc"])) as [Hin|[]];
    [|apply elem_of_app; right; by left].
  simpl. rewrite alter_last, lookup_app_r, Nat.sub_diag by done. simpl.
  rewrite decide_True by done. simpl. rewrite alter_last, lookup_app_r, Nat.sub_diag by done. done.
Qed.

Context (Hnames : dummy1 ≠ dummy2).

(** The tests of adapter sets pass. However the static adapters of the program were
    inserted into the set, whatever its order of iteration, and whatever others there are
    that leave the variables of the test alone and have other names, applying the set
    applies both adapters of the test. A function an adapter has registered runs
    in Lua each time it is called. A second adapter with the same adaptee is not
    inserted. *)
Theorem adapter_tests_pass (statics : list (nat * adapter)) g b at1 at2 :
  Forall (λ a, a = TestAdapter1 ∨ a = TestAdapter2 ∨
    stateless a ∧ getAdaptee a ≠ dummy1 ∧ getAdaptee a ≠ dummy2) statics.*2 →
  TestAdapter1 ∈ statics.*2 → TestAdapter2 ∈ statics.*2 →
  (AppliesTypeStaticAdapters (insert_all statics) (SetUp g)).1 = Val tt ∧
  (AppliesGlobalInstanceAdapters at1 (SetUp g)).1 = Val tt ∧
  (DoesNotAllowDuplicatedAdapters b at1 at2 (SetUp g)).1 = Val tt.
Proof.
  intros Hall H1 H2. rewrite Forall_forall in Hall. split; [|split; [apply function_adapter_runs|]].
  - apply statics_ran.
    + apply Forall_forall. intros a Ha%insert_all_elem. destruct (Hall a Ha) as [?|[?|[? _]]]; auto.
    + apply insert_all_correct, first_named_unique; [done|]. intros b' Hb Hn.
      by destruct (Hall b' Hb) as [->|[->|(_ & ? & _)]].
    + apply insert_all_correct, first_named_unique; [done|]. intros b' Hb Hn.
      by destruct (Hall b' Hb) as [->|[->|(_ & _ & ?)]].
  - unfold DoesNotAllowDuplicatedAdapters, insert. simpl. rewrite take_nil, drop_nil. simpl.
    unfold equal. rewrite String.eqb_refl. done.
Qed.
End tests.

(** ** luatestenviroment.cpp *)

(** What [directory_iterator] tells of an entry. *)
Record entry : Type := mk_entry { is_regular_file : bool; filename : string }.

Section driver.
(** The state of Lua and of the io_service. [loadfile] and [pcall] are true when they
    failed; [is_luabind_error] says which exceptions are caught. *)
Context {W : Type} (extension : string → string).
Context (loadfile : string → prog W bool) (pcall : prog W bool) (ioService_run : prog W unit).
Context (is_luabind_error : exn → bool).

(** That state, how many failures were added, and the files that were loaded. *)
Record run_state : Type := mk_run { lua : W; failures : nat; loaded : list string }.
Definition in_lua {A} (m : prog W A) : prog run_state A :=
  zoom lua (λ w r, mk_run w (failures r) (loaded r)) m.
Definition ADD_FAILURE : prog run_state unit :=
  modify (λ r, mk_run (lua r) (S (failures r)) (loaded r)).

(** [script.filename().string().front()]; [45] is a hyphen. *)
Definition front (name : string) : option Ascii.ascii := String.get 0 name.
Definition is_script (e : entry) : bool :=
  is_regular_file e && String.eqb (extension (filename e)) ".lua" &&
  negb (bool_decide (front (filename e) = Some (Ascii.ascii_of_nat 45))).

(** The paths are all in one directory, and [std::sort] compares their last parts. *)
Definition path_le (a b : string) : Prop := String.leb a b = true.
#[export] Instance path_le_dec a b : Decision (path_le a b) := decide (String.leb a b = true).
Definition scripts (entries : list entry) : list string :=
  merge_sort path_le (map filename (filter is_script entries)).

Definition run_script (path : string) : prog run_state unit :=
  modify (λ r, mk_run (lua r) (failures r) (loaded r ++ [path])) ;;;
  (let! bad := in_lua (loadfile path) in if bad : bool then ADD_FAILURE else ret tt) ;;;
  (let! bad := in_lua pcall in if bad : bool then ADD_FAILURE else ret tt).

Definition TestAllScripts (entries : list entry) : prog run_state unit :=
  try_catch (run_all run_script (scripts entries) ;;; in_lua ioService_run)
    (λ e, if is_luabind_error e then ADD_FAILURE else throw e).

#[export] Instance path_le_total : Total path_le.
Proof. intros a b. unfold path_le. destruct (String.leb_total a b); auto. Qed.

Lemma run_scripts l r : (∀ path w, ∃ w', loadfile path w = (Val false, w')) →
  (∀ w, ∃ w', pcall w = (Val false, w')) →
  ∃ w', run_all run_script l r = (Val tt, mk_run w' (failures r) (loaded r ++ l)).
Proof.
  intros Hl Hp. revert r. induction l as [|f l IH]; intros r; [exists (lua r); destruct r; simpl; by rewrite app_nil_r|].
  simpl. assert (∃ w, run_script f r = (Val tt, mk_run w (failures r) (loaded r ++ [f]))) as [w E].
  { destruct (Hl f (lua r)) as [w1 E1], (Hp w1) as [w2 E2]. exists w2.
    unfold run_script, in_lua, zoom, modify. unfold bind. simpl. rewrite E1. simpl. by rewrite E2. }
  rewrite (bind_val _ _ _ _ _ E). destruct (IH (mk_run w (failures r) (loaded r ++ [f]))) as [w' E'].
  exists w'. rewrite E'. simpl. by rewrite <-app_assoc.
Qed.

(** Every script of the directory is run, once, in the order of their names, whatever the
    order in which the directory is listed; if none fails the test adds no failure. *)
Theorem all_scripts_run entries r : (∀ path w, ∃ w', loadfile path w = (Val false, w')) →
  (∀ w, ∃ w', pcall w = (Val false, w')) → (∀ w, ∃ w', ioService_run w = (Val tt, w')) →
  ∃ w' l, TestAllScripts entries r = (Val tt, mk_run w' (failures r) (loaded r ++ l)) ∧
    Sorted path_le l ∧ l ≡ₚ map filename (filter is_script entries).
Proof.
  intros Hl Hp Hio. destruct (run_scripts (scripts entries) r Hl Hp) as [w E].
  destruct (Hio w) as [w' Ew]. exists w', (scripts entries). split; [|split].
  - unfold TestAllScripts, try_catch. rewrite (bind_val _ _ _ _ _ E). unfold in_lua, zoom. simpl. by rewrite Ew.
  - apply Sorted_merge_sort, _.
  - apply merge_sort_Permutation.
Qed.
End driver.

(** ** Witnesses *)

(** Both adapters of the test and one of the program, in two orders of insertion. *)
Definition toy_statics : list (nat * adapter) :=
  [(0%nat, TestAdapter2 "dummy2"); (1%nat, DeferredTaskAdapter "task"); (0%nat, TestAdapter1 "dummy1")].

Lemma adapter_tests_pass_witness :
  (AppliesTypeStaticAdapters (insert_all toy_statics) (SetUp (mk_globals true true []))).1 = Val tt ∧
  (AppliesGlobalInstanceAdapters "f" 3 (SetUp (mk_globals true true []))).1 = Val tt ∧
  (DoesNotAllowDuplicatedAdapters "f" 0 3 1 (SetUp (mk_globals true true []))).1 = Val tt.
Proof.
  apply (adapter_tests_pass "dummy1" "dummy2" "f" ltac:(discriminate) toy_statics _ 0%nat 3%nat 1%nat).
  - apply Forall_cons. split; [by right; left|]. apply Forall_cons. split.
    + right. right. split; [intros s; by eexists|by split].
    + apply Forall_cons. split; [by left|constructor].
  - right. right. left.
  - left.
Defined.

End AdapterTests.
