(* ===== verification/ScriptTasks.v ===== *)
(** * Scheduled tasks in scripts: the composition of Adapter and Scheduler

    The functions that the adapters of the scheduler register with Lua
    (script/adapter/scheduler.cpp, script/static_adapter/schedulertask.cpp), on the
    tasks of Scheduler: what a script gets from [callAfter] and [callEvery] and may do
    with it, and the examples of their documentation. *)

From S2P Require Import Prelude Platform Connection Scheduler Adapter SchedulerTests.

Module ScriptTasks.

#[local] Existing Instances Connection.ec_eq_dec Adapter.registration_eq_dec.
Abbreviation success := Scheduler.success.
Abbreviation operation_aborted := Scheduler.operation_aborted.

Section script.
(** Lua functions and Lua's state. [call_function] runs a function, which may
    call the methods of a task it has a reference to and may raise an error. *)
Context {object L : Type}.
Abbreviation task := (Scheduler.task (C:=object) (E:=L)).
Context (call_function : object → prog task unit).

(** [ [func]{ call_function<void>(func); } ] *)
Definition call_void (func : object) : prog task object := call_function func ;;; ret func.

(** The functions that [SchedulerAdapter::apply] defines. *)
Definition callAfter (ms : Z) (func : object) (l : L) : Scheduler.scheduled object :=
  Scheduler.callAfter ms call_void func l.
Definition callEvery (ms : Z) (func : object) (l : L) : Scheduler.scheduled object :=
  Scheduler.callEvery ms call_void func l.

(** A global function called by its name: whether the task it makes is an
    [IntervalTask], and the task. Without the registration the name is nil. *)
Definition global_call (s : list Adapter.registration) (name : string) (ms : Z) (func : object) (l : L)
    : option (bool * Scheduler.scheduled object) :=
  if decide (Adapter.lua_function name ∈ s) then
    if String.eqb name "callAfter" then Some (false, callAfter ms func l)
    else if String.eqb name "callEvery" then Some (true, callEvery ms func l)
    else None
  else None.

(** A method of a task called by its name: luabind chooses the overload by the
    arguments. *)
Definition method_call (s : list Adapter.registration) (interval : bool) (name : string) (args : list Z)
    : option (prog task (option bool)) :=
  let cls := if interval then "IntervalTask"%string else "DeferredTask"%string in
  if decide (Adapter.lua_method cls name ∈ s) then
    match String.eqb name "cancel", String.eqb name "reschedule", args with
    | true, _, [] => Some (let! b := Scheduler.cancel in ret (Some b))
    | _, true, [] => Some (Scheduler.reschedule ;;; ret None)
    | _, true, [ms] => Some (Scheduler.reschedule_ms ms ;;; ret None)
    | _, _, _ => None
    end
  else None.

(** The handler of the waits of both kinds of task. *)
Definition handler : object → Scheduler.ec → prog task object := Scheduler.Wrapper call_void.
Definition handle (interval : bool) : Scheduler.event → prog task unit :=
  Scheduler.handle handler interval.
End script.

(** A Lua state to which the adapters of the scheduler have been applied. *)
Definition scripting_state (scheduler_t deferred_t interval_t : string) : list Adapter.registration :=
  (Adapter.apply [Adapter.DeferredTaskAdapter deferred_t; Adapter.IntervalTaskAdapter interval_t;
                  Adapter.SchedulerAdapter scheduler_t] ([], tt)).2.1.

(** ** Lemmas *)

Section lemmas.
Context {object L : Type} (call_function : object → prog (Scheduler.task (C:=object) (E:=L)) unit).
Abbreviation task := (Scheduler.task (C:=object) (E:=L)).
Implicit Types t : task.

(** A cancelled execution comes to nothing. *)
Lemma aborted_run interval t c :
  Scheduler.timer t = [Scheduler.Due operation_aborted c] →
  handle call_function interval (Scheduler.Handler 0) t =
    (Val tt, Scheduler.set_calls (Scheduler.calls t ++ [(operation_aborted, c)])
               (Scheduler.set_timer [] t)).
Proof. intros Ht. destruct t. simpl in Ht. subst. by destruct interval. Qed.

(** [cancel] when no wait is pending. *)
Lemma cancel_idle t : Forall (λ w, Scheduler.is_waiting w = false) (Scheduler.timer t) →
  Scheduler.cancel t = (Val false, t).
Proof.
  intros Ht. unfold Scheduler.cancel. unfold bind. rewrite Scheduler.timer_cancel_run.
  assert (map Scheduler.aborted (Scheduler.timer t) = Scheduler.timer t) as Hm.
  { induction Ht as [|[] ws Hw Hws IH]; [done|done|]. simpl. by rewrite IH. }
  rewrite <-Hm at 1. rewrite Scheduler.filter_aborted, Hm.
  by destruct t.
Qed.

(** The deadline of the only wait passes and its handler runs. *)
Lemma deadline_run interval t n c :
  Scheduler.timer t = [Scheduler.Waiting n c] →
  (handle call_function interval (Scheduler.Complete 0 success) ;;;
   handle call_function interval (Scheduler.Handler 0)) t =
  (call_void call_function c ;;; ret tt)
    (Scheduler.set_calls (Scheduler.calls t ++ [(success, c)])
      (Scheduler.set_timer (if interval then [Scheduler.Waiting (Scheduler.ms t) (Scheduler.fn t)] else []) t)).
Proof. intros Ht. destruct t. simpl in Ht. subst. by destruct interval. Qed.
End lemmas.

(** ** Properties *)

Section properties.
Context {object L : Type} (call_function : object → prog (Scheduler.task (C:=object) (E:=L)) unit).
Context (scheduler_t deferred_t interval_t : string).
Abbreviation task := (Scheduler.task (C:=object) (E:=L)).
Implicit Types t : task.
Abbreviation lua := (scripting_state scheduler_t deferred_t interval_t).

(** The wait of a task the script has just made. *)
Record fresh (interval : bool) (ms : Z) (func : object) (l : L) t : Prop := {
  fr_timer : Scheduler.timer t = [Scheduler.Waiting ms func];
  fr_ms : Scheduler.ms t = ms;
  fr_fn : Scheduler.fn t = func;
  fr_env : Scheduler.env t = l;
}.

Lemma global_call_fresh (interval : bool) ms func l :
  ∃ t, global_call call_function lua (if interval then "callEvery" else "callAfter") ms func l =
    Some (interval, (t, handler call_function)) ∧ fresh interval ms func l t.
Proof. destruct interval; (eexists; split; [reflexivity|by split]). Qed.

(** The examples of the documentation of the script functions do what it says. A
    task that is cancelled before its time returns [true] and its function is never
    called, and cancelling it again does nothing. A function called at an interval that
    cancels its own task is called once. A task rescheduled with another interval drops
    the execution that was pending, and its function is called when the new interval
    has passed. *)
Theorem documented_usage ms func l :
  (∀ interval : bool, ∃ t f, global_call call_function lua (if interval then "callEvery" else "callAfter")
      ms func l = Some (interval, (t, f)) ∧
    ∃ cancel t1 t2, method_call lua interval "cancel" [] = Some cancel ∧ cancel t = (Val (Some true), t1) ∧
      handle call_function interval (Scheduler.Handler 0) t1 = (Val tt, t2) ∧
      Scheduler.timer t2 = [] ∧ Scheduler.env t2 = l ∧ cancel t2 = (Val (Some false), t2)) ∧
  (∀ print, (∀ t, call_function func t =
      (Scheduler.outside (modify print) ;;; Scheduler.cancel ;;; ret tt) t) →
    ∃ t f t1 t2, global_call call_function lua "callEvery" ms func l = Some (true, (t, f)) ∧
      (handle call_function true (Scheduler.Complete 0 success) ;;;
       handle call_function true (Scheduler.Handler 0)) t = (Val tt, t1) ∧
      handle call_function true (Scheduler.Handler 0) t1 = (Val tt, t2) ∧
      Scheduler.timer t2 = [] ∧ Scheduler.env t2 = print l) ∧
  (∀ newInterval, ∃ t f reschedule t1 t2,
    global_call call_function lua "callEvery" ms func l = Some (true, (t, f)) ∧
    method_call lua true "reschedule" [newInterval] = Some reschedule ∧
    reschedule t = (Val None, t1) ∧
    handle call_function true (Scheduler.Handler 0) t1 = (Val tt, t2) ∧
    Scheduler.env t2 = l ∧ Scheduler.timer t2 = [Scheduler.Waiting newInterval func]).
Proof.
  split; [|split].
  - intros interval. destruct (global_call_fresh interval ms func l) as (t & -> & [Ht Hm Hf He]).
    eexists t, _. split; [reflexivity|]. destruct t. simpl in *. subst. destruct interval; eexists _, _, _; (split; [reflexivity|]);
      (split; [reflexivity|]); (split; [reflexivity|done]).
  - intros print Hcall. destruct (global_call_fresh true ms func l) as (t & E & [Ht Hm Hf He]).
    simpl in E. rewrite E. pose proof (deadline_run call_function true t ms func Ht) as Hr.
    destruct t. simpl in *. subst. eexists _, _, _, _. split; [reflexivity|]. rewrite Hr.
    unfold call_void. unfold bind at 1. unfold bind at 1. rewrite Hcall.
    split; [reflexivity|]. split; [reflexivity|done].
  - intros newInterval. destruct (global_call_fresh true ms func l) as (t & E & [Ht Hm Hf He]).
    simpl in E. rewrite E. destruct t. simpl in *. subst.
    eexists _, _, _, _, _. split; [reflexivity|]. split; [reflexivity|]. split; [reflexivity|]. done.
Qed.
End properties.

(** [callEvery(1000, function() print("yep") task:cancel() end)] *)
Definition yep (_ : unit) : prog (Scheduler.task (C:=unit) (E:=Z)) unit :=
  Scheduler.outside (modify (λ lines, lines + 1)) ;;; Scheduler.cancel ;;; ret tt.

Lemma documented_usage_witness :
  ∃ t f t1 t2, global_call yep (scripting_state "s" "d" "i") "callEvery" 1000 tt 0 = Some (true, (t, f)) ∧
    (handle yep true (Scheduler.Complete 0 success) ;;; handle yep true (Scheduler.Handler 0)) t = (Val tt, t1) ∧
    handle yep true (Scheduler.Handler 0) t1 = (Val tt, t2) ∧
    Scheduler.timer t2 = [] ∧ Scheduler.env t2 = 1.
Proof.
  by apply (proj1 (proj2 (documented_usage yep "s" "d" "i" 1000 tt 0)) (λ lines, lines + 1)).
Defined.

(** *** A task that counts and cancels itself *)

Section counting.
Context {object : Type} (N : Z).
Abbreviation task := (Scheduler.task (C:=object) (E:=Z)).

(** [if count == N then return assert(interval:cancel()) end count = count+1] *)
Definition count_to (func : object) : prog task unit :=
  let! t := get in
  if Scheduler.env t =? N then
    let! b := Scheduler.cancel in
    if b : bool then ret tt else throw (StdException "assertion failed!")
  else Scheduler.outside (modify (λ count, count + 1)).

Definition round : prog task unit :=
  handle count_to true (Scheduler.Complete 0 success) ;;; handle count_to true (Scheduler.Handler 0).

Definition counting ms func (count : Z) (t : task) : Prop := fresh true ms func count t.

Lemma round_counts ms func count : count ≠ N →
  returns (counting ms func count) round (λ _, counting ms func (count + 1)).
Proof.
  intros Hc t [Ht Hm Hf He]. exists tt. unfold round.
  rewrite (deadline_run count_to true t ms func Ht). destruct t. simpl in *. subst.
  unfold call_void, count_to, get. unfold bind at 1. unfold bind at 1. unfold bind at 1. simpl.
  rewrite (proj2 (Z.eqb_neq _ _) Hc). by eexists.
Qed.

Lemma rounds_count ms func k : ∀ count, count + Z.of_nat k = N →
  returns (counting ms func count) (run_all (λ _, round) (seq 0 k)) (λ _, counting ms func N).
Proof.
  intros count Hk. set (I i := counting ms func (count + Z.of_nat i)).
  apply (returns_conseq _ (I 0%nat) _ _ (λ _, I (length (seq 0 k)))).
  - apply returns_run_all. intros i x [-> Hi]%lookup_seq. eapply returns_post; [apply round_counts; lia|].
    intros [] t. unfold I. by rewrite Nat2Z.inj_succ, <-Z.add_1_r, Z.add_assoc.
  - intros t. unfold I. by rewrite Z.add_0_r.
  - intros [] t. unfold I. by rewrite length_seq, Hk.
Qed.

(** C33. An interval task may cancel itself: with a function that counts its calls from 1
    and cancels the task when it has counted to [N], the deadlines pass [N] times, the
    cancellation succeeds, the function is not called again and no wait is left. *)
Theorem interval_cancels_itself ms func l scheduler_t deferred_t interval_t :
  1 ≤ N → l = 1 →
  ∃ t f t1 t2, global_call count_to (scripting_state scheduler_t deferred_t interval_t)
      "callEvery" ms func l = Some (true, (t, f)) ∧
    run_all (λ _, round) (seq 0 (Z.to_nat N)) t = (Val tt, t1) ∧
    handle count_to true (Scheduler.Handler 0) t1 = (Val tt, t2) ∧
    Scheduler.env t2 = N ∧ Scheduler.timer t2 = [].
Proof.
  intros HN ->. destruct (global_call_fresh count_to scheduler_t deferred_t interval_t true ms func 1)
    as (t & E & Ht). simpl in E. rewrite E.
  destruct (rounds_count ms func (Z.to_nat (N - 1)) 1) with t as ([] & t1 & Hr & Ht1); [lia|done|].
  assert (∃ t2, round t1 = (Val tt, t2) ∧ Scheduler.timer t2 = [Scheduler.Due operation_aborted func] ∧
    Scheduler.env t2 = N) as (t2 & Hr2 & Ht2 & He2).
  { destruct Ht1 as [Htm Hm Hf He]. unfold round.
    rewrite (deadline_run count_to true t1 ms func Htm). clear Hr. destruct t1. simpl in *. subst.
    unfold call_void, count_to, get. unfold bind at 1. unfold bind at 1. unfold bind at 1. simpl.
    rewrite Z.eqb_refl. by eexists. }
  eexists t, _, t2, _. split; [reflexivity|]. split; [|split; [by apply aborted_run|done]].
  replace (Z.to_nat N) with (Z.to_nat (N - 1) + 1)%nat by lia.
  rewrite seq_app, run_all_app, (bind_val _ _ _ _ _ Hr). simpl. unfold bind. by rewrite Hr2.
Qed.
End counting.

Lemma interval_cancels_itself_witness :
  1 ≤ 3 ∧ ∃ t f t1 t2, global_call (count_to (object:=nat) 3) (scripting_state "s" "d" "i")
      "callEvery" 50 0%nat 1 = Some (true, (t, f)) ∧
    run_all (λ _, round 3) (seq 0 (Z.to_nat 3)) t = (Val tt, t1) ∧
    handle (count_to 3) true (Scheduler.Handler 0) t1 = (Val tt, t2) ∧
    Scheduler.env t2 = 3 ∧ Scheduler.timer t2 = [].
Proof. split; [lia|]. by apply interval_cancels_itself; [lia|]. Defined.

End ScriptTasks.
