(* ===== verification/AmyError.v ===== *)
(** * Error codes of the MySQL connector library (lib/amy/error.hpp)

    The errors of the MySQL client and those of the library, with their messages.
    A message that is not there is undefined behaviour: [None]. *)

From S2P Require Import Prelude Mysql.

Module AmyError.

(** [error::client_errors] *)
Inductive client_errors : Type :=
  | unknown_error
  | socket_create_error
  | connection_error
  | conn_host_error
  | ipsock_error
  | unknown_host
  | server_gone_error
  | version_error
  | out_of_memory
  | wrong_host_info
  | localhost_connection
  | tcp_connection
  | server_handshake_err
  | server_lost
  | commands_out_of_sync
  | named_pipe_connection
  | named_pipe_wait_error
  | named_pipe_open_error
  | named_pipe_setstate_error
  | cant_read_charset
  | net_packet_too_large
  | embedded_connection
  | probe_slave_status
  | probe_slave_hosts
  | probe_slave_connect
  | probe_master_connect
  | ssl_connection_error
  | malformed_packet
  | wrong_license
  | null_pointer
  | no_prepare_stmt
  | params_not_bound
  | data_truncated
  | no_parameters_exists
  | invalid_parameter_no
  | invalid_buffer_use
  | unsupported_param_type
  | shared_memory_connection
  | shared_memory_connect_request_error
  | shared_memory_connect_answer_error
  | shared_memory_connect_file_map_error
  | shared_memory_connect_map_error
  | shared_memory_file_map_error
  | shared_memory_map_error
  | shared_memory_event_error
  | shared_memory_connect_abandoned_error
  | shared_memory_connect_set_error
  | conn_unknow_protocol
  | invalid_conn_handle
  | secure_auth
  | fetch_canceled
  | no_data
  | no_stmt_metadata
  | no_result_set
  | not_implemented.

(** [error::misc_errors] *)
Inductive misc_errors : Type :=
  | initialization_error
  | not_initialized
  | no_more_results
  | null_field_value
  | autocommit_setting_error
  | commit_error
  | rollback_error
  | unknown.

Definition misc_value (e : misc_errors) : Z :=
  match e with
  | initialization_error => 1
  | not_initialized => 2
  | no_more_results => 3
  | null_field_value => 4
  | autocommit_setting_error => 5
  | commit_error => 6
  | rollback_error => 7
  | unknown => 8
  end.

(** The categories of the error codes in use: the system's and the two of this
    library. *)
Inductive category : Type := system_category | client_category | misc_category.
#[export] Instance category_eq_dec : EqDecision category.
Proof. solve_decision. Defined.

Record error_code : Type := mk_ec { value : Z; cat : category }.
#[export] Instance error_code_eq_dec : EqDecision error_code.
Proof. solve_decision. Defined.

Definition no_error : error_code := mk_ec 0 system_category.
Definition is_error (e : error_code) : bool := negb (value e =? 0).

(** [make_error_code(misc_errors)] *)
Definition make_misc (e : misc_errors) : error_code := mk_ec (misc_value e) misc_category.

(** [misc_category::message]: the bound of the check is [unknown_error], which is
    the first of the client's errors, and not [unknown]. *)
Definition misc_messages : list string :=
  [""; "Failed to initialize MySQL handle"; "Connection handle not initialized";
   "No more result sets"; "Field value is NULL"; "Failed to set autocommit mode";
   "Failed to commit"; "Failed to rollback"; "Unknown error"].

Section errors.
Context `{Mysql.Errmsg}.

Definition client_value (e : client_errors) : Z :=
  match e with
  | unknown_error => Mysql.CR_UNKNOWN_ERROR
  | socket_create_error => Mysql.CR_SOCKET_CREATE_ERROR
  | connection_error => Mysql.CR_CONNECTION_ERROR
  | conn_host_error => Mysql.CR_CONN_HOST_ERROR
  | ipsock_error => Mysql.CR_IPSOCK_ERROR
  | unknown_host => Mysql.CR_UNKNOWN_HOST
  | server_gone_error => Mysql.CR_SERVER_GONE_ERROR
  | version_error => Mysql.CR_VERSION_ERROR
  | out_of_memory => Mysql.CR_OUT_OF_MEMORY
  | wrong_host_info => Mysql.CR_WRONG_HOST_INFO
  | localhost_connection => Mysql.CR_LOCALHOST_CONNECTION
  | tcp_connection => Mysql.CR_TCP_CONNECTION
  | server_handshake_err => Mysql.CR_SERVER_HANDSHAKE_ERR
  | server_lost => Mysql.CR_SERVER_LOST
  | commands_out_of_sync => Mysql.CR_COMMANDS_OUT_OF_SYNC
  | named_pipe_connection => Mysql.CR_NAMEDPIPE_CONNECTION
  | named_pipe_wait_error => Mysql.CR_NAMEDPIPEWAIT_ERROR
  | named_pipe_open_error => Mysql.CR_NAMEDPIPEOPEN_ERROR
  | named_pipe_setstate_error => Mysql.CR_NAMEDPIPESETSTATE_ERROR
  | cant_read_charset => Mysql.CR_CANT_READ_CHARSET
  | net_packet_too_large => Mysql.CR_NET_PACKET_TOO_LARGE
  | embedded_connection => Mysql.CR_EMBEDDED_CONNECTION
  | probe_slave_status => Mysql.CR_PROBE_SLAVE_STATUS
  | probe_slave_hosts => Mysql.CR_PROBE_SLAVE_HOSTS
  | probe_slave_connect => Mysql.CR_PROBE_SLAVE_CONNECT
  | probe_master_connect => Mysql.CR_PROBE_MASTER_CONNECT
  | ssl_connection_error => Mysql.CR_SSL_CONNECTION_ERROR
  | malformed_packet => Mysql.CR_MALFORMED_PACKET
  | wrong_license => Mysql.CR_WRONG_LICENSE
  | null_pointer => Mysql.CR_NULL_POINTER
  | no_prepare_stmt => Mysql.CR_NO_PREPARE_STMT
  | params_not_bound => Mysql.CR_PARAMS_NOT_BOUND
  | data_truncated => Mysql.CR_DATA_TRUNCATED
  | no_parameters_exists => Mysql.CR_NO_PARAMETERS_EXISTS
  | invalid_parameter_no => Mysql.CR_INVALID_PARAMETER_NO
  | invalid_buffer_use => Mysql.CR_INVALID_BUFFER_USE
  | unsupported_param_type => Mysql.CR_UNSUPPORTED_PARAM_TYPE
  | shared_memory_connection => Mysql.CR_SHARED_MEMORY_CONNECTION
  | shared_memory_connect_request_error => Mysql.CR_SHARED_MEMORY_CONNECT_REQUEST_ERROR
  | shared_memory_connect_answer_error => Mysql.CR_SHARED_MEMORY_CONNECT_ANSWER_ERROR
  | shared_memory_connect_file_map_error => Mysql.CR_SHARED_MEMORY_CONNECT_FILE_MAP_ERROR
  | shared_memory_connect_map_error => Mysql.CR_SHARED_MEMORY_CONNECT_MAP_ERROR
  | shared_memory_file_map_error => Mysql.CR_SHARED_MEMORY_FILE_MAP_ERROR
  | shared_memory_map_error => Mysql.CR_SHARED_MEMORY_MAP_ERROR
  | shared_memory_event_error => Mysql.CR_SHARED_MEMORY_EVENT_ERROR
  | shared_memory_connect_abandoned_error => Mysql.CR_SHARED_MEMORY_CONNECT_ABANDONED_ERROR
  | shared_memory_connect_set_error => Mysql.CR_SHARED_MEMORY_CONNECT_SET_ERROR
  | conn_unknow_protocol => Mysql.CR_CONN_UNKNOW_PROTOCOL
  | invalid_conn_handle => Mysql.CR_INVALID_CONN_HANDLE
  | secure_auth => Mysql.CR_SECURE_AUTH
  | fetch_canceled => Mysql.CR_FETCH_CANCELED
  | no_data => Mysql.CR_NO_DATA
  | no_stmt_metadata => Mysql.CR_NO_STMT_METADATA
  | no_result_set => Mysql.CR_NO_RESULT_SET
  | not_implemented => Mysql.CR_NOT_IMPLEMENTED
  end.

(** [make_error_code(client_errors)] *)
Definition make_client (e : client_errors) : error_code := mk_ec (client_value e) client_category.

Definition client_text (e : client_errors) : string :=
  match e with
  | unknown_error => "Unknown MySQL error"
  | socket_create_error => "Can't create UNIX socket"
  | connection_error => "Can't connect to local MySQL server through socket"
  | conn_host_error => "Can't connect to MySQL server"
  | ipsock_error => "Can't create TCP/IP socket"
  | unknown_host => "Unknown MySQL server host"
  | server_gone_error => "MySQL server has gone away"
  | version_error => "Protocol mismatch"
  | out_of_memory => "MySQL client ran out of memory"
  | wrong_host_info => "Wrong host info"
  | localhost_connection => "Localhost via UNIX socket"
  | tcp_connection => "TCP/IP connection failed"
  | server_handshake_err => "Error in server handshake"
  | server_lost => "Lost connection to MySQL server during query"
  | commands_out_of_sync => "Commands out of sync; you can't run this command now"
  | named_pipe_connection => "Named pipe connection failed"
  | named_pipe_wait_error => "Can't wait for named pipe to host"
  | named_pipe_open_error => "Can't open named pipe to host"
  | named_pipe_setstate_error => "Can't set state of named pipe to host"
  | cant_read_charset => "Can't initialize character set"
  | net_packet_too_large => "Got packet bigger than 'max_allowed_packet' bytes"
  | embedded_connection => "Embedded server"
  | probe_slave_status => "Error on SHOW SLAVE STATUS"
  | probe_slave_hosts => "Error on SHOW SLAVE HOSTS"
  | probe_slave_connect => "Error connecting to slave"
  | probe_master_connect => "Error connecting to master"
  | ssl_connection_error => "SSL connection error"
  | malformed_packet => "Malformed packet"
  | wrong_license => "This client library has wrong license"
  | null_pointer => "Invalid use of null pointer"
  | no_prepare_stmt => "Statement not prepared"
  | params_not_bound => "No data supplied for parameters in prepared statement"
  | data_truncated => "Data truncated"
  | no_parameters_exists => "No parameters exist in the statement"
  | invalid_parameter_no => "Invalid parameter number"
  | invalid_buffer_use => "Can't send long data for non-string/non-binary data types"
  | unsupported_param_type => "Using unsupported buffer type"
  | shared_memory_connection => "Shared memory connection failed"
  | shared_memory_connect_request_error => "Can't open shared memory; client could not create request event"
  | shared_memory_connect_answer_error => "Can't open shared memory; no answer event received from server"
  | shared_memory_connect_file_map_error => "Can't open shared memory; server could not allocate file mapping"
  | shared_memory_connect_map_error => "Can't open shared memory; server could not get pointer to file mapping"
  | shared_memory_file_map_error => "Can't open shared memory; client could not allocate file mapping"
  | shared_memory_map_error => "Can't open shared memory; client could not get pointer to file mapping"
  | shared_memory_event_error => "Can't open shared memory; client could not create event"
  | shared_memory_connect_abandoned_error => "Can't open shared memory; no answer from server"
  | shared_memory_connect_set_error => "Can't open shared memory; cannot send request event to server"
  | conn_unknow_protocol => "Wrong or unknown protocol"
  | invalid_conn_handle => "Invalid connection handle"
  | secure_auth => "Connection using old (pre-4.1.1) authentication protocol refused (client option 'secure_auth' enabled)"
  | fetch_canceled => "Row retrieval was canceled by mysql_stmt_close() call"
  | no_data => "Attempt to read column without prior row fetch"
  | no_stmt_metadata => "Prepared statement contains no metadata"
  | no_result_set => "Attempt to read a row while there is no result set associated with the statement"
  | not_implemented => "This feature is not implemented yet"
  end.

Definition all_client_errors : list client_errors :=
  [unknown_error; socket_create_error; connection_error;
   conn_host_error; ipsock_error; unknown_host;
   server_gone_error; version_error; out_of_memory;
   wrong_host_info; localhost_connection; tcp_connection;
   server_handshake_err; server_lost; commands_out_of_sync;
   named_pipe_connection; named_pipe_wait_error; named_pipe_open_error;
   named_pipe_setstate_error; cant_read_charset; net_packet_too_large;
   embedded_connection; probe_slave_status; probe_slave_hosts;
   probe_slave_connect; probe_master_connect; ssl_connection_error;
   malformed_packet; wrong_license; null_pointer;
   no_prepare_stmt; params_not_bound; data_truncated;
   no_parameters_exists; invalid_parameter_no; invalid_buffer_use;
   unsupported_param_type; shared_memory_connection; shared_memory_connect_request_error;
   shared_memory_connect_answer_error; shared_memory_connect_file_map_error; shared_memory_connect_map_error;
   shared_memory_file_map_error; shared_memory_map_error; shared_memory_event_error;
   shared_memory_connect_abandoned_error; shared_memory_connect_set_error; conn_unknow_protocol;
   invalid_conn_handle; secure_auth; fetch_canceled;
   no_data; no_stmt_metadata; no_result_set;
   not_implemented].

(** [client_category::message]: a value that is no case of the [switch] leaves the
    function without returning a string. *)
Definition client_message (v : Z) : option string :=
  client_text <$> find (λ e, client_value e =? v) all_client_errors.

Definition misc_message (v : Z) : option string :=
  if (v <? 0) || (client_value unknown_error <=? v) then misc_messages !! Z.to_nat (misc_value unknown)
  else misc_messages !! Z.to_nat v.

Lemma all_client_errors_all e : e ∈ all_client_errors.
Proof. unfold all_client_errors. by destruct e; repeat constructor. Qed.

(** Both categories have a message for their own errors: when the client's codes
    are distinct the one of a client error is its text, and each of the library's
    errors has its text; but a code above the library's errors and below the
    client's reads past the end of the table of messages, and a code that is not a
    client error leaves [client_category::message] without a value. *)
Theorem messages :
  (∀ e, (∀ e', client_value e' = client_value e → e' = e) →
     client_message (client_value e) = Some (client_text e)) ∧
  (∀ e, misc_value unknown < client_value unknown_error → is_Some (misc_message (misc_value e))) ∧
  (∀ v, misc_message v = None ↔ misc_value unknown < v < client_value unknown_error) ∧
  (∀ v, client_message v = None ↔ ∀ e, client_value e ≠ v).
Proof.
  split; [|split; [|split]].
  - intros e He. unfold client_message.
    destruct (find _ all_client_errors) as [e'|] eqn:E.
    + apply find_some in E as [_ E%Z.eqb_eq]. by rewrite (He e' E).
    + pose proof (find_none _ _ E e (proj1 (list_elem_of_In _ _) (all_client_errors_all e))) as Hn.
      simpl in Hn. by rewrite Z.eqb_refl in Hn.
  - intros e He. unfold misc_message.
    destruct (_ || _); [by eexists|]. destruct e; by eexists.
  - intros v. unfold misc_message. destruct (Z.ltb_spec v 0), (Z.leb_spec (client_value unknown_error) v);
      simpl; try (split; [done|simpl in *; lia]).
    rewrite lookup_ge_None. simpl in *. lia.
  - intros v. unfold client_message. split.
    + intros Hn e He. destruct (find _ all_client_errors) eqn:E; [done|].
      pose proof (find_none _ _ E e (proj1 (list_elem_of_In _ _) (all_client_errors_all e))) as Hf.
      simpl in Hf. by rewrite He, Z.eqb_refl in Hf.
    + intros Hne. destruct (find _ all_client_errors) as [e|] eqn:E; [|done].
      apply find_some in E as [_ E%Z.eqb_eq]. by destruct (Hne e).
Qed.

End errors.

#[local] Existing Instance Mysql.toy_errmsg.

(** With the client's codes from 2000 on, 9 has no message in the library's
    category, and neither has 9 in the client's. *)
Lemma messages_witness :
  misc_message 9 = None ∧ client_message 9 = None ∧
  client_message 2006 = Some "MySQL server has gone away".
Proof.
  destruct messages as (_ & _ & Hm & Hc). split; [|split].
  - apply Hm. vm_compute. by split.
  - apply Hc. intros e. by destruct e.
  - reflexivity.
Defined.

End AmyError.
