(* ===== verification/Amy.v ===== *)
(** * The asynchronous MySQL connector library (lib/amy)

    The service runs queries on one worker thread and posts the completions of the
    handlers to the application's io_service. The MySQL C client is the class [Api];
    the functions of detail/mysql_ops.hpp turn its errors into error codes. A
    [MYSQL_RES] is named by its pointer. *)

From S2P Require Import Prelude Platform AmyError.

Module Amy.

Import AmyError.

Abbreviation result := nat.

(** A row: the fields' values, or NULL. A field's metadata: its name and flags. *)
Abbreviation cells := (list (option string)).
Record field_type : Type := mk_field { field_name : string; field_flags : Z }.

(** [auth_info] *)
Record auth_info : Type := mk_auth { user : string; password : option string }.
Definition auth_info_default : auth_info := mk_auth "" None.
Definition auth_info_user (u : string) : auth_info := mk_auth u None.
Definition set_user (u : string) (a : auth_info) : auth_info := mk_auth u (password a).
Definition set_password (p : string) (a : auth_info) : auth_info := mk_auth (user a) (Some p).
Definition clear_password (a : auth_info) : auth_info := mk_auth (user a) None.

(** [endpoint_traits]: host, port and unix socket, a null pointer being [None]. *)
Inductive endpoint : Type :=
  | null_endpoint
  | tcp_endpoint (address : string) (port : Z)
  | local_endpoint (path : string).
Definition host (e : endpoint) : option string :=
  match e with tcp_endpoint a _ => Some a | _ => None end.
Definition port (e : endpoint) : Z := match e with tcp_endpoint _ p => p | _ => 0 end.
Definition unix_socket (e : endpoint) : option string :=
  match e with local_endpoint p => Some p | _ => None end.

(** The functions of the client that are called, on its state. Results that are
    pointers are [None] or [false] when null; other results are not 0 on failure. *)
Class Api : Type := {
  lib : Type;
  client_multi_results : Z;
  client_multi_statements : Z;
  mysql_errno : lib → Z;
  mysql_error : lib → string;
  mysql_init : lib → bool * lib;
  mysql_real_connect : option string → string → option string → string → Z → option string → Z →
    lib → bool * lib;
  mysql_real_query : string → lib → Z * lib;
  mysql_more_results : lib → bool;
  mysql_field_count : lib → Z;
  mysql_next_result : lib → Z * lib;
  mysql_store_result : lib → option result * lib;
  mysql_free_result : result → lib → lib;
  mysql_num_rows : result → lib → Z;
  mysql_num_fields : result → lib → Z;
  mysql_fetch_field : result → lib → option field_type * lib;
  mysql_fetch_row : result → lib → option cells * lib;
  mysql_autocommit : bool → lib → bool * lib;
  mysql_commit : lib → bool * lib;
  mysql_rollback : lib → bool * lib;
  mysql_affected_rows : lib → Z;
  mysql_options : Z → string → lib → Z * lib;
  mysql_close : lib → lib;
}.

(** [result_set]: the native result it watches, its rows and its fields, which
    [assign] drops when it fails. *)
Record result_set : Type := mk_result_set {
  watched : option result;
  values : option (list cells);
  fields_info : option (list field_type);
}.

(** [result_set::result_set] and [empty_set] *)
Definition empty_set : result_set := mk_result_set None (Some []) (Some []).

(** [mysql_service::implementation]: the token is named by a number, as is the
    token a handler holds a weak pointer to. *)
Record implementation : Type := mk_impl {
  flags : Z;
  initialized : bool;
  first_result_stored : bool;
  last_result : option result;
  cancelation_token : nat;
}.

Definition set_flags x i :=
  mk_impl x (initialized i) (first_result_stored i) (last_result i) (cancelation_token i).
Definition set_initialized x i :=
  mk_impl (flags i) x (first_result_stored i) (last_result i) (cancelation_token i).
Definition set_first_result_stored x i :=
  mk_impl (flags i) (initialized i) x (last_result i) (cancelation_token i).
Definition set_last_result x i :=
  mk_impl (flags i) (initialized i) (first_result_stored i) x (cancelation_token i).
Definition set_cancelation_token x i :=
  mk_impl (flags i) (initialized i) (first_result_stored i) (last_result i) x.

(** [implementation::implementation] *)
Definition new_implementation (token : nat) : implementation := mk_impl 0 false false None token.

(** A function posted to the worker thread: the operation, the token it holds, and
    which handler it will complete. *)
Inductive operation : Type :=
  | connect_handler (e : endpoint) (auth : auth_info) (database : string) (client_flags : Z)
  | query_handler (stmt : string)
  | store_result_handler.

Record job : Type := mk_job { op : operation; token : nat; handler : nat }.

(** A posted call of a handler, with a result set for [async_store_result]. *)
Record completion : Type := mk_completion {
  c_handler : nat;
  c_error : error_code;
  c_result : option result_set;
}.

Section amy.
Context `{Api}.

(** The client library, the connection's implementation, the tokens made so far,
    whether the service has its io_service and its thread, the functions posted to
    that thread, the completions posted to the application. *)
Record world : Type := mk_world {
  client : lib;
  impl : implementation;
  tokens : nat;
  work_io_service : bool;
  work_thread : bool;
  jobs : list job;
  posted : list completion;
}.

Definition set_client x w := mk_world x (impl w) (tokens w) (work_io_service w) (work_thread w)
  (jobs w) (posted w).
Definition set_impl x w := mk_world (client w) x (tokens w) (work_io_service w) (work_thread w)
  (jobs w) (posted w).
Definition set_tokens x w := mk_world (client w) (impl w) x (work_io_service w) (work_thread w)
  (jobs w) (posted w).
Definition set_work x y w := mk_world (client w) (impl w) (tokens w) x y (jobs w) (posted w).
Definition set_jobs x w := mk_world (client w) (impl w) (tokens w) (work_io_service w)
  (work_thread w) x (posted w).
Definition set_posted x w := mk_world (client w) (impl w) (tokens w) (work_io_service w)
  (work_thread w) (jobs w) x.

Definition ask {A} (f : lib → A) : prog world A := λ w, (Val (f (client w)), w).
Definition run {A} (f : lib → A * lib) : prog world A :=
  λ w, let '(a, l) := f (client w) in (Val a, set_client l w).
Definition exec (f : lib → lib) : prog world unit := modify (λ w, set_client (f (client w)) w).
Definition update (f : implementation → implementation) : prog world unit :=
  modify (λ w, set_impl (f (impl w)) w).

(** ** detail/mysql_ops.hpp *)

(** [error_wrapper]: the error code after a call is the client's. *)
Definition error_wrapper {A} (call : prog world A) : prog world (A * error_code) :=
  let! a := call in
  let! e := ask mysql_errno in ret (a, mk_ec e client_category).

Definition ops_mysql_init : prog world (bool * error_code) :=
  let! ok := run mysql_init in
  ret (ok, if ok : bool then no_error else make_misc initialization_error).

Definition ops_mysql_real_connect (e : endpoint) (a : auth_info) (database : string) (f : Z)
    : prog world error_code :=
  let! r := error_wrapper (run (mysql_real_connect (host e) (user a) (password a) database (port e)
                                  (unix_socket e) f)) in
  ret r.2.

Definition ops_mysql_real_query (stmt : string) : prog world error_code :=
  let! r := error_wrapper (run (mysql_real_query stmt)) in ret r.2.
Definition ops_mysql_store_result : prog world (option result * error_code) :=
  error_wrapper (run mysql_store_result).
Definition ops_mysql_next_result : prog world error_code :=
  let! r := error_wrapper (run mysql_next_result) in ret r.2.
Definition ops_mysql_fetch_row (r : result) : prog world (option cells * error_code) :=
  error_wrapper (run (mysql_fetch_row r)).
Definition ops_mysql_options (option : Z) (arg : string) : prog world error_code :=
  let! r := error_wrapper (run (mysql_options option arg)) in ret r.2.

Definition ops_failing (f : lib → bool * lib) (e : misc_errors) : prog world error_code :=
  let! bad := run f in ret (if bad : bool then make_misc e else no_error).
Definition ops_mysql_autocommit (mode : bool) : prog world error_code :=
  ops_failing (mysql_autocommit mode) autocommit_setting_error.
Definition ops_mysql_commit : prog world error_code := ops_failing mysql_commit commit_error.
Definition ops_mysql_rollback : prog world error_code := ops_failing mysql_rollback rollback_error.

(** [detail::throw_error] *)
Definition throw_error (e : error_code) : prog world unit :=
  if is_error e then
    let! what := ask mysql_error in
    throw (StdException (if decide (cat e = client_category) then what else ""))
  else ret tt.

(** ** [mysql_service::implementation] *)

(** [free_result]: the deleter frees the native result. *)
Definition free_result : prog world unit :=
  let! w := get in
  match last_result (impl w) with
  | Some r => exec (mysql_free_result r)
  | None => ret tt
  end ;;;
  update (set_last_result None).

(** [cancel]: a fresh token; the old one expires. *)
Definition cancel : prog world unit :=
  let! w := get in
  modify (set_tokens (S (tokens w))) ;;; update (set_cancelation_token (tokens w)).

(** [implementation::close] *)
Definition impl_close : prog world unit :=
  let! w := get in
  (if initialized (impl w) then exec mysql_close ;;; update (set_initialized false) else ret tt) ;;;
  update (set_first_result_stored false) ;;; free_result ;;; cancel.

(** ** [mysql_service] *)

Definition is_open (w : world) : bool := initialized (impl w).

Definition error_message (e : error_code) (message : string) : prog world string :=
  let! n := ask mysql_errno in
  if (value e) `mod` 2 ^ 32 =? n then ask mysql_error else ret message.

Definition open : prog world error_code :=
  let! w := get in
  if is_open w then ret no_error
  else
    let! r := ops_mysql_init in
    update (set_initialized r.1) ;;; ret r.2.

Definition close : prog world unit := let! w := get in if is_open w then impl_close else ret tt.
Definition destroy : prog world unit := close.

Definition start_work_thread : prog world unit :=
  modify (λ w, set_work (work_io_service w) true w).

(** [connect], with [open] first if need be. *)
Definition connect_open (e : endpoint) (a : auth_info) (database : string) (f : Z)
    : prog world error_code :=
  let! ec := ops_mysql_real_connect e a database f in
  update (set_flags f) ;;; ret ec.

Definition connect (e : endpoint) (a : auth_info) (database : string) (f : Z)
    : prog world error_code :=
  let! w := get in
  if is_open w then connect_open e a database f
  else
    let! ec := open in
    if is_error ec then ret ec else connect_open e a database f.

(** [get_io_service().post(boost::bind(handler, ...))] *)
Definition complete (h : nat) (e : error_code) (r : option result_set) : prog world unit :=
  modify (λ w, set_posted (posted w ++ [mk_completion h e r]) w).

(** Posting to the worker: [handler_base] takes the token of the moment. *)
Definition post_work (o : operation) (h : nat) : prog world unit :=
  let! w := get in
  if work_io_service w then
    start_work_thread ;;;
    modify (λ w, set_jobs (jobs w ++ [mk_job o (cancelation_token (impl w)) h]) w)
  else ret tt.

Definition async_connect (e : endpoint) (a : auth_info) (database : string) (f : Z) (h : nat)
    : prog world unit :=
  let! w := get in
  if is_open w then post_work (connect_handler e a database f) h
  else
    let! ec := open in
    if is_error ec then complete h ec None else post_work (connect_handler e a database f) h.

(** What [query] and [query_handler] do once they may. *)
Definition do_query (stmt : string) : prog world error_code :=
  free_result ;;; update (set_first_result_stored false) ;;; ops_mysql_real_query stmt.

Definition query (stmt : string) : prog world error_code :=
  let! w := get in
  if is_open w then do_query stmt else ret (make_misc not_initialized).

Definition async_query (stmt : string) (h : nat) : prog world unit :=
  let! w := get in
  if is_open w then post_work (query_handler stmt) h
  else complete h (make_misc not_initialized) None.

Definition has_more_results (w : world) : bool :=
  if is_open w then
    let multi_results :=
      negb (Z.land (flags (impl w)) (Z.lor client_multi_results client_multi_statements) =? 0) in
    if multi_results then negb (first_result_stored (impl w)) || mysql_more_results (client w)
    else negb (first_result_stored (impl w)) && negb (mysql_field_count (client w) =? 0)
  else false.

(** The loops of [result_set::assign]. *)
Fixpoint fetch_fields (fuel : nat) (r : result) : prog world (list field_type) :=
  match fuel with
  | O => fail Diverged
  | S fuel' =>
      let! f := run (mysql_fetch_field r) in
      match f with
      | None => ret []
      | Some x => let! l := fetch_fields fuel' r in ret (x :: l)
      end
  end.

Fixpoint fetch_rows (fuel : nat) (r : result) : prog world (list cells * error_code) :=
  match fuel with
  | O => fail Diverged
  | S fuel' =>
      let! f := ops_mysql_fetch_row r in
      match f.1 with
      | None => ret ([], f.2)
      | Some x => let! l := fetch_rows fuel' r in ret (x :: l.1, l.2)
      end
  end.

(** [result_set::assign] on a new object, given the error code it is passed. *)
Definition assign (fuel : nat) (rs : option result) (e : error_code)
    : prog world (result_set * error_code) :=
  match rs with
  | None => ret (empty_set, e)
  | Some r =>
      let! n := ask (mysql_num_rows r) in
      if n =? 0 then ret (mk_result_set (Some r) (Some []) (Some []), e)
      else
        let! infos := fetch_fields fuel r in
        let! rows := fetch_rows fuel r in
        if is_error rows.2 then ret (mk_result_set None None None, rows.2)
        else ret (mk_result_set (Some r) (Some rows.1) (Some infos), rows.2)
  end.

(** The end of [store_result]: the result of the statement is stored. *)
Definition store_current (fuel : nat) : prog world (result_set * error_code) :=
  let! r := ops_mysql_store_result in
  free_result ;;; update (set_last_result r.1) ;;; assign fuel r.1 r.2.

(** [mysql_service::store_result], with what the caller's error code held before: it is not
    cleared, and when it was an error the first result is not stored. *)
Definition store_result (ec : error_code) (fuel : nat) : prog world (result_set * error_code) :=
  let! w := get in
  let! e :=
    (if first_result_stored (impl w) then
       free_result ;;;
       let! w := get in
       if has_more_results w then ops_mysql_next_result else ret (make_misc no_more_results)
     else update (set_first_result_stored true) ;;; ret ec) in
  if is_error e then ret (empty_set, e) else store_current fuel.

Definition async_store_result (h : nat) : prog world unit :=
  let! w := get in
  if is_open w then post_work store_result_handler h
  else complete h (make_misc not_initialized) (Some empty_set).

(** [store_result_handler::operator()]: for a further result it calls
    [mysql_store_result], where [store_result] calls [mysql_next_result]. *)
Definition store_result_job (fuel : nat) : prog world (result_set * error_code) :=
  let! w := get in
  let! e :=
    (if first_result_stored (impl w) then
       free_result ;;;
       let! w := get in
       if has_more_results w then let! r := ops_mysql_store_result in ret r.2
       else ret (make_misc no_more_results)
     else update (set_first_result_stored true) ;;; ret no_error) in
  if is_error e then ret (empty_set, e) else store_current fuel.

(** [boost::asio::error::operation_aborted], [ECANCELED] on Linux. *)
Definition operation_aborted : error_code := mk_ec 125 system_category.

(** The functions run by the worker thread: [connect_handler], [query_handler] and
    [store_result_handler]. *)
Definition run_job (fuel : nat) (j : job) : prog world unit :=
  let! w := get in
  if negb (token j =? cancelation_token (impl w))%nat then
    complete (handler j) operation_aborted
      (match op j with store_result_handler => Some empty_set | _ => None end)
  else
    match op j with
    | connect_handler e a database f =>
        let! ec := connect_open e a database f in complete (handler j) ec None
    | query_handler stmt => let! ec := do_query stmt in complete (handler j) ec None
    | store_result_handler =>
        let! r := store_result_job fuel in complete (handler j) r.2 (Some r.1)
    end.

(** One turn of the worker thread. *)
Definition worker (fuel : nat) : prog world unit :=
  let! w := get in
  match jobs w with
  | [] => ret tt
  | j :: rest => modify (set_jobs rest) ;;; run_job fuel j
  end.

Definition autocommit (mode : bool) : prog world error_code := ops_mysql_autocommit mode.

Definition commit : prog world error_code :=
  let! w := get in if is_open w then ops_mysql_commit else ret (make_misc not_initialized).
Definition rollback : prog world error_code :=
  let! w := get in if is_open w then ops_mysql_rollback else ret (make_misc not_initialized).
Definition affected_rows : prog world Z := ask mysql_affected_rows.

(** [set_option]: the error of a closed connection is overwritten by the call. *)
Definition set_option (option : Z) (data : string) : prog world error_code :=
  ops_mysql_options option data.

(** [shutdown_service]: the thread is stopped and joined; what it has not run is
    dropped with the io_service. *)
Definition shutdown_service : prog world unit :=
  modify (set_work false false) ;;; modify (set_jobs []).

(** ** [basic_connector] (basic_connector.hpp)

    The operations forward to the service; those without an error code throw. *)

Definition or_throw {A} (m : prog world (A * error_code)) : prog world A :=
  let! r := m in throw_error r.2 ;;; ret r.1.
Definition connector_check (m : prog world error_code) : prog world unit :=
  let! e := m in throw_error e.

Definition connector_open : prog world unit := connector_check open.
Definition connector_connect e a database f : prog world unit :=
  connector_check (connect e a database f).
Definition connector_query stmt : prog world unit := connector_check (query stmt).
Definition connector_store_result (fuel : nat) : prog world result_set := or_throw (store_result no_error fuel).
Definition connector_autocommit mode : prog world unit := connector_check (autocommit mode).
Definition connector_commit : prog world unit := connector_check commit.
Definition connector_rollback : prog world unit := connector_check rollback.

(** [set_option(option, ec)] throws what it should return, and then ends without a
    value. [set_option(option)] calls it with one argument more than it has. *)
Definition connector_set_option_ec (opt : Z) (data : string) : prog world error_code :=
  let! e := set_option opt data in throw_error e ;;; fail MissingReturn.
Definition connector_set_option (opt : Z) (data : string) : option (prog world unit) := None.

(** ** [execute] (execute.hpp, detail/execute_handler.hpp) *)

Definition execute_ec (stmt : string) : prog world (Z * error_code) :=
  let! e := query stmt in
  if is_error e then ret (0, e) else let! n := affected_rows in ret (n, e).
Definition execute (stmt : string) : prog world Z := or_throw (execute_ec stmt).

(** [execute_handler::operator()]: the arguments of the user's handler. *)
Definition execute_handler (e : error_code) : prog world (error_code * Z) :=
  let! n := (if is_error e then affected_rows else ret 0) in ret (e, n).

(** [async_execute] is [async_query] with a handler that calls the user's; [deliver]
    is a posted completion run by the application. *)
Definition async_execute (stmt : string) (h : nat) : prog world unit := async_query stmt h.
Definition deliver (c : completion) : prog world (nat * error_code * Z) :=
  let! r := execute_handler (c_error c) in ret (c_handler c, r.1, r.2).

(** ** [basic_scoped_transaction] *)

(** The constructor, [commit] with an error code, and the destructor, which must not
    throw; the state is the member [committed_]. *)
Definition transaction_begin : prog world bool := connector_autocommit false ;;; ret false.
Definition transaction_commit : prog world bool := connector_commit ;;; ret true.
Definition transaction_commit_ec (committed : bool) : prog world (bool * error_code) :=
  let! e := commit in ret (is_error e, e).
Definition transaction_rollback (committed : bool) : prog world bool :=
  connector_rollback ;;; ret committed.
Definition transaction_rollback_ec (committed : bool) : prog world (bool * error_code) :=
  let! e := rollback in ret (committed, e).
Definition transaction_end (committed : bool) : prog world unit :=
  (if committed then ret tt else let! e := rollback in ret tt) ;;;
  try_catch (connector_autocommit true) (λ _, fail AssertionFailed).

(** ** [basic_results_iterator] *)

(** The iterator's result set and whether it is at its end. *)
Record iterator : Type := mk_iterator { current_result : result_set; at_end : bool }.

Definition end_iterator : iterator := mk_iterator empty_set true.

Definition connector_has_more : prog world bool := let! w := get in ret (has_more_results w).

Definition make_iterator (fuel : nat) : prog world iterator :=
  let! w := get in
  if is_open w && has_more_results w then
    let! rs := connector_store_result fuel in
    let! more := connector_has_more in
    ret (mk_iterator rs more)
  else ret end_iterator.

Definition increment (fuel : nat) (it : iterator) : prog world iterator :=
  let! more := connector_has_more in
  if more : bool then let! rs := connector_store_result fuel in ret (mk_iterator rs (at_end it))
  else ret (mk_iterator (current_result it) true).

(** The results a loop over the iterator sees. *)
Fixpoint iterate (turns fuel : nat) (it : iterator) : prog world (list result_set) :=
  match turns with
  | O => fail Diverged
  | S turns' =>
      if at_end it then ret []
      else
        let! it' := increment fuel it in
        let! l := iterate turns' fuel it' in ret (current_result it :: l)
  end.

Definition all_results (turns fuel : nat) : prog world (list result_set) :=
  let! it := make_iterator fuel in iterate turns fuel it.

(** The loop a client writes with [store_result] and [has_more_results]. *)
Fixpoint store_all (turns fuel : nat) : prog world (list result_set) :=
  match turns with
  | O => fail Diverged
  | S turns' =>
      let! more := connector_has_more in
      if more : bool then
        let! rs := connector_store_result fuel in
        let! l := store_all turns' fuel in ret (rs :: l)
      else ret []
  end.

End amy.

(** ** Transactions and statements *)

Section operations.
Context `{Api}.

Lemma ops_failing_run f e w :
  ops_failing f e w =
    (Val (if (f (client w)).1 then make_misc e else no_error), set_client (f (client w)).2 w).
Proof. unfold ops_failing, bind, run. by destruct (f (client w)). Qed.

Lemma transaction_end_client c w :
  initialized (impl w) = true →
  client (transaction_end c w).2 =
    (mysql_autocommit true (if c then client w else (mysql_rollback (client w)).2)).2.
Proof.
  intros Ho.
  assert (Hauto : ∀ w, client (try_catch (connector_autocommit true) (λ _, fail AssertionFailed) w).2
    = (mysql_autocommit true (client w)).2).
  { intros w0. unfold connector_autocommit, connector_check, autocommit, ops_mysql_autocommit,
      try_catch.
    erewrite bind_val by apply ops_failing_run.
    by destruct (mysql_autocommit true (client w0)) as [[] l]. }
  unfold transaction_end. destruct c.
  - erewrite bind_val by done. apply Hauto.
  - erewrite bind_val.
    2:{ unfold rollback, ops_mysql_rollback, is_open. erewrite bind_val; [reflexivity|].
        erewrite bind_val by done. rewrite Ho. apply ops_failing_run. }
    apply Hauto.
Qed.

(** A transaction committed with an error code takes the outcome the wrong way
    round: after a successful commit its destructor rolls back, and after a failed
    one it does not. *)
Theorem scoped_transaction_inverted c w :
  initialized (impl w) = true →
  let commits := mysql_commit (client w) in
  let rolled := mysql_rollback commits.2 in
  client ((let! r := transaction_commit_ec c in transaction_end r.1) w).2 =
    (mysql_autocommit true (if commits.1 then commits.2 else rolled.2)).2.
Proof.
  intros Ho. cbv zeta. unfold transaction_commit_ec, commit, is_open.
  erewrite bind_val.
  2:{ erewrite bind_val; [reflexivity|]. erewrite bind_val by done. rewrite Ho.
      apply ops_failing_run. }
  rewrite transaction_end_client by done. simpl. by destruct (mysql_commit (client w)).1.
Qed.

(** [execute] returns the affected rows of a statement that succeeded; the handler
    of [async_execute] is told 0 then, and the count only after an error. *)
Lemma execute_handler_inverted e w :
  execute_handler e w = (Val (e, if is_error e then mysql_affected_rows (client w) else 0), w).
Proof. unfold execute_handler. by destruct (is_error e). Qed.

(** ** Every handler is called once *)

(** What an operation does to the handlers: [h] is its own. *)
Definition handlers (w : world) : list nat := map c_handler (posted w) ++ map handler (jobs w).

(** An operation that neither posts nor queues a handler. *)
Abbreviation silent m := (keeps (λ w, (posted w, jobs w, work_io_service w)) m).

Lemma amy_silent_ask {A} (f : lib → A) : silent (ask f).
Proof. done. Qed.
Lemma amy_silent_run {A} (f : lib → A * lib) : silent (run f).
Proof. intros w. unfold run. by destruct (f (client w)). Qed.
Lemma amy_silent_exec f : silent (exec f).
Proof. done. Qed.
Lemma silent_update f : silent (update f).
Proof. done. Qed.
#[local] Hint Resolve amy_silent_ask amy_silent_run amy_silent_exec silent_update : prog.

Lemma silent_wrapper {A} (m : prog world A) : silent m → silent (error_wrapper m).
Proof. intros Hm. unfold error_wrapper. auto with prog. Qed.
#[local] Hint Resolve silent_wrapper : prog.

Lemma silent_ops_query stmt : silent (ops_mysql_real_query stmt).
Proof. unfold ops_mysql_real_query. auto with prog. Qed.
Lemma silent_ops_store : silent ops_mysql_store_result.
Proof. unfold ops_mysql_store_result. auto with prog. Qed.
Lemma silent_ops_next : silent ops_mysql_next_result.
Proof. unfold ops_mysql_next_result. auto with prog. Qed.
Lemma silent_ops_row r : silent (ops_mysql_fetch_row r).
Proof. unfold ops_mysql_fetch_row. auto with prog. Qed.
Lemma silent_failing f e : silent (ops_failing f e).
Proof. unfold ops_failing. auto with prog. Qed.
Lemma silent_throw_error e : silent (throw_error e).
Proof. unfold throw_error. auto with prog. Qed.
#[local] Hint Resolve silent_ops_query silent_ops_store silent_ops_next silent_ops_row
  silent_failing silent_throw_error : prog.

Lemma silent_free_result : silent free_result.
Proof.
  unfold free_result. apply keeps_bind; [auto with prog|]. intros w.
  destruct (last_result (impl w)); auto with prog.
Qed.
#[local] Hint Resolve silent_free_result : prog.

Lemma silent_connect_open e a d f : silent (connect_open e a d f).
Proof. unfold connect_open, ops_mysql_real_connect. auto with prog. Qed.
Lemma silent_open : silent open.
Proof. unfold open, ops_mysql_init. auto 7 with prog. Qed.
Lemma silent_do_query stmt : silent (do_query stmt).
Proof. unfold do_query. auto with prog. Qed.
Lemma silent_fields fuel r : silent (fetch_fields fuel r).
Proof.
  induction fuel as [|fuel IH]; simpl; [auto with prog|].
  apply keeps_bind; [auto with prog|]. intros []; auto with prog.
Qed.
Lemma silent_rows fuel r : silent (fetch_rows fuel r).
Proof.
  induction fuel as [|fuel IH]; simpl; [auto with prog|].
  apply keeps_bind; [auto with prog|]. intros [[x|] e]; simpl; [|auto with prog].
  apply keeps_bind; auto with prog.
Qed.
#[local] Hint Resolve silent_connect_open silent_open silent_do_query silent_fields silent_rows : prog.

Lemma silent_store_current fuel : silent (store_current fuel).
Proof.
  unfold store_current, assign. apply keeps_bind; [auto with prog|]. intros [[] ?]; simpl;
    auto 12 with prog.
Qed.
#[local] Hint Resolve silent_store_current : prog.

Lemma silent_store_result ec fuel : silent (store_result ec fuel).
Proof. unfold store_result. auto 12 with prog. Qed.
Lemma silent_store_result_job fuel : silent (store_result_job fuel).
Proof. unfold store_result_job. auto 12 with prog. Qed.
#[local] Hint Resolve silent_store_result silent_store_result_job : prog.

(** Calls of the application that complete no handler. *)
Inductive synchronous : prog world unit → Prop :=
  | sync_open : synchronous (open ;;; ret tt)
  | sync_connect e a d f : synchronous (connect e a d f ;;; ret tt)
  | sync_query s : synchronous (query s ;;; ret tt)
  | sync_store ec fuel : synchronous (store_result ec fuel ;;; ret tt)
  | sync_autocommit b : synchronous (autocommit b ;;; ret tt)
  | sync_commit : synchronous (commit ;;; ret tt)
  | sync_rollback : synchronous (rollback ;;; ret tt)
  | sync_close : synchronous close
  | sync_cancel : synchronous cancel.

Lemma synchronous_silent m : synchronous m → silent m.
Proof.
  assert (Hcancel : silent cancel).
  { unfold cancel. apply keeps_bind; [auto with prog|]. intros w.
    apply keeps_bind; [by apply keeps_modify|auto with prog]. }
  intros []; try (apply keeps_bind; [|auto with prog]); auto with prog.
  - unfold connect. auto 7 with prog.
  - unfold query. auto 7 with prog.
  - unfold autocommit, ops_mysql_autocommit. auto with prog.
  - unfold commit, ops_mysql_commit. auto with prog.
  - unfold rollback, ops_mysql_rollback. auto with prog.
  - unfold close, impl_close. auto 12 with prog.
Qed.

(** Steps of the application and of the worker thread, with the handlers given to
    asynchronous operations so far. *)
Inductive step : list nat * world → list nat * world → Prop :=
  | step_async_connect e a d f h s w r w' :
      async_connect e a d f h w = (r, w') → step (s, w) (s ++ [h], w')
  | step_async_query stmt h s w r w' : async_query stmt h w = (r, w') → step (s, w) (s ++ [h], w')
  | step_async_store h s w r w' : async_store_result h w = (r, w') → step (s, w) (s ++ [h], w')
  | step_sync m s w r w' : synchronous m → m w = (r, w') → step (s, w) (s, w')
  | step_work fuel s w w' : worker fuel w = (Val tt, w') → step (s, w) (s, w').

Definition initial (sw : list nat * world) : Prop :=
  sw.1 = [] ∧ posted sw.2 = [] ∧ jobs sw.2 = [] ∧ work_io_service sw.2 = true ∧
  (cancelation_token (impl sw.2) < tokens sw.2)%nat.

Definition accounted (sw : list nat * world) : Prop :=
  work_io_service sw.2 = true ∧ handlers sw.2 ≡ₚ sw.1.

Lemma accounted_complete s w h e r :
  accounted (s, w) → accounted (s ++ [h], (complete h e r w).2).
Proof.
  intros [Hio Hp]. split; [done|]. unfold handlers in *. simpl in *.
  rewrite map_app, <- Hp. simpl. solve_Permutation.
Qed.

Lemma accounted_post s w o h : accounted (s, w) → accounted (s ++ [h], (post_work o h w).2).
Proof.
  intros [Hio Hp]. unfold post_work, start_work_thread. run_simpl. simpl in Hio. rewrite Hio. simpl.
  split; [done|]. unfold handlers in *. simpl in *. rewrite map_app, <- Hp. simpl.
  by rewrite app_assoc.
Qed.

Lemma accounted_silent {A} s w (m : prog world A) : silent m → accounted (s, w) → accounted (s, (m w).2).
Proof.
  intros Hm [Hio Hp]. specialize (Hm w). simpl in Hm. injection Hm as E1 E2 E3.
  split; simpl in *; [congruence|]. unfold handlers in *. by rewrite E1, E2.
Qed.

(** A job completes its handler. *)
Lemma run_job_completes fuel j w w' :
  run_job fuel j w = (Val tt, w') →
  jobs w' = jobs w ∧ work_io_service w' = work_io_service w ∧
  ∃ c, posted w' = posted w ++ [c] ∧ c_handler c = handler j ∧
    (token j ≠ cancelation_token (impl w) → c_error c = operation_aborted).
Proof.
  unfold run_job, get. unfold bind at 1.
  destruct (Nat.eqb_spec (token j) (cancelation_token (impl w))) as [Ht|Ht]; simpl.
  - assert (Hgo : ∀ A (m : prog world A) (k : A → error_code * option result_set), silent m →
      (let! x := m in complete (handler j) (k x).1 (k x).2) w = (Val tt, w') →
      jobs w' = jobs w ∧ work_io_service w' = work_io_service w ∧
      ∃ c, posted w' = posted w ++ [c] ∧ c_handler c = handler j ∧
        (token j ≠ cancelation_token (impl w) → c_error c = operation_aborted)).
    { intros A m k Hm. specialize (Hm w). unfold bind.
      destruct (m w) as [[x|?|?] w1]; try done. simpl in Hm. injection Hm as E1 E2 E3.
      unfold complete, modify. intros [= <-]. simpl. rewrite E1, E2, E3.
      split_and!; try done. by eexists. }
    destruct (op j) as [e a d f|stmt|].
    + apply (Hgo _ _ (λ ec, (ec, None))). auto with prog.
    + apply (Hgo _ _ (λ ec, (ec, None))). auto with prog.
    + apply (Hgo _ _ (λ r, (r.2, Some r.1))). auto with prog.
  - unfold complete, modify. intros [= <-]. simpl. split_and!; try done. by eexists.
Qed.

Lemma accounted_step sw sw' : accounted sw → step sw sw' → accounted sw'.
Proof.
  intros Hacc Hstep. destruct Hstep as [e a d f h s w r w' E|stmt h s w r w' E|h s w r w' E
    |m s w r w' Hm E|fuel s w w' E5]; try (apply (f_equal snd) in E; simpl in E; subst w').
  - unfold async_connect, get. unfold bind at 1. destruct (is_open w); [by apply accounted_post|].
    pose proof (accounted_silent _ _ _ silent_open Hacc) as Ho. unfold bind.
    assert (Hval : ∃ ec w1, open w = (Val ec, w1)).
    { unfold open, get, ops_mysql_init, run. run_simpl. destruct (is_open w); [eauto|].
      destruct (mysql_init (client w)). simpl. eauto. }
    destruct Hval as (ec & w1 & E). rewrite E in *. simpl in Ho.
    destruct (is_error ec); [by apply accounted_complete|by apply accounted_post].
  - unfold async_query, get. unfold bind. destruct (is_open w);
      [by apply accounted_post|by apply accounted_complete].
  - unfold async_store_result, get. unfold bind. destruct (is_open w);
      [by apply accounted_post|by apply accounted_complete].
  - apply accounted_silent; [by apply synchronous_silent|done].
  - unfold worker, get in E5. unfold bind at 1 in E5. destruct (jobs w) as [|j rest] eqn:Ej;
      [injection E5 as <-; exact Hacc|]. unfold bind, modify in E5.
    apply run_job_completes in E5 as (Hj & Hio & c & Hp & Hc & _). simpl in *.
    destruct Hacc as [Hio' Hperm]. split; simpl in *; [congruence|].
    unfold handlers in *. rewrite Hp, Hj, map_app, <- Hperm, Ej. simpl. rewrite Hc.
    solve_Permutation.
Qed.

(** *** Cancellation *)

(** The token was made after the first [n] of them, and after those of the queued functions
    or with them. *)
Definition token_from (n : nat) (w : world) : Prop :=
  (n ≤ cancelation_token (impl w) < tokens w)%nat ∧
  Forall (λ j, token j ≤ cancelation_token (impl w))%nat (jobs w).

Section tokens.
Context (n : nat).
Abbreviation ageing m := (preserves (token_from n) m).

Lemma ageing_ask {A} (f : lib → A) : ageing (ask f).
Proof. by intros w. Qed.
Lemma ageing_run {A} (f : lib → A * lib) : ageing (run f).
Proof. intros w Hw. unfold run. by destruct (f (client w)). Qed.
Lemma ageing_exec f : ageing (exec f).
Proof. by intros w. Qed.
Lemma ageing_update f : (∀ i, cancelation_token (f i) = cancelation_token i) → ageing (update f).
Proof. intros Hf w. unfold token_from. simpl. by rewrite Hf. Qed.
#[local] Hint Extern 0 (∀ i, cancelation_token _ = cancelation_token i) => (intros; reflexivity) : prog.
#[local] Hint Resolve ageing_ask ageing_run ageing_exec ageing_update : prog.

Lemma ageing_wrapper {A} (m : prog world A) : ageing m → ageing (error_wrapper m).
Proof. intros Hm. unfold error_wrapper. auto with prog. Qed.
#[local] Hint Resolve ageing_wrapper : prog.

Lemma ageing_free_result : ageing free_result.
Proof.
  unfold free_result. apply preserves_bind; [auto with prog|]. intros w.
  destruct (last_result (impl w)); auto with prog.
Qed.
Lemma ageing_cancel : ageing cancel.
Proof.
  intros w [Hn Hj]. split; simpl; [lia|]. eapply Forall_impl; [exact Hj|]. simpl. lia.
Qed.
#[local] Hint Resolve ageing_free_result ageing_cancel : prog.

Lemma ageing_open : ageing open.
Proof. unfold open, ops_mysql_init. auto 7 with prog. Qed.
Lemma ageing_connect_open e a d f : ageing (connect_open e a d f).
Proof. unfold connect_open, ops_mysql_real_connect. auto with prog. Qed.
Lemma ageing_do_query stmt : ageing (do_query stmt).
Proof. unfold do_query, ops_mysql_real_query. auto 7 with prog. Qed.
Lemma ageing_fields fuel r : ageing (fetch_fields fuel r).
Proof.
  induction fuel as [|fuel IH]; simpl; [auto with prog|].
  apply preserves_bind; [auto with prog|]. intros []; auto with prog.
Qed.
Lemma ageing_rows fuel r : ageing (fetch_rows fuel r).
Proof.
  induction fuel as [|fuel IH]; simpl; [auto with prog|].
  apply preserves_bind; [unfold ops_mysql_fetch_row; auto with prog|]. intros [[x|] e]; simpl; [|auto with prog].
  apply preserves_bind; auto with prog.
Qed.
#[local] Hint Resolve ageing_open ageing_connect_open ageing_do_query ageing_fields ageing_rows : prog.

Lemma ageing_store_current fuel : ageing (store_current fuel).
Proof.
  unfold store_current, assign, ops_mysql_store_result, throw_error.
  apply preserves_bind; [auto with prog|]. intros [[] ?]; simpl; auto 12 with prog.
Qed.
#[local] Hint Resolve ageing_store_current : prog.

Lemma ageing_synchronous m : synchronous m → ageing m.
Proof.
  intros []; [..|apply ageing_cancel]; try (apply preserves_bind; [|auto with prog]);
    unfold connect, query, store_result, ops_mysql_next_result, autocommit, ops_mysql_autocommit,
      commit, ops_mysql_commit, rollback, ops_mysql_rollback, ops_failing, close, impl_close;
    auto 14 with prog.
Qed.

Lemma ageing_post o h : ageing (post_work o h).
Proof.
  intros w Hw. unfold post_work, start_work_thread. run_simpl. destruct (work_io_service w); [|done].
  destruct Hw as [Hn Hj]. split; [done|]. apply Forall_app. split; [done|]. by constructor.
Qed.
Lemma ageing_complete h e r : ageing (complete h e r).
Proof. by intros w. Qed.
#[local] Hint Resolve ageing_post ageing_complete : prog.

Lemma ageing_run_job fuel j : ageing (run_job fuel j).
Proof.
  unfold run_job. apply preserves_bind; [auto with prog|]. intros w.
  apply preserves_if; [auto with prog|].
  destruct (op j); unfold store_result_job, ops_mysql_store_result; auto 14 with prog.
Qed.
#[local] Hint Resolve ageing_run_job : prog.

Lemma ageing_step s w s' w' : step (s, w) (s', w') → token_from n w → token_from n w'.
Proof.
  intros Hs. inversion Hs as [e a d f h ? ? r ? E|stmt h ? ? r ? E|h ? ? r ? E|m ? ? r ? Hm E|fuel ? ? ? E];
    subst; apply (f_equal snd) in E; simpl in E; subst w'; clear Hs.
  - revert w. unfold async_connect. apply preserves_bind; auto 7 with prog.
  - revert w. unfold async_query. apply preserves_bind; auto 7 with prog.
  - revert w. unfold async_store_result. apply preserves_bind; auto 7 with prog.
  - by apply ageing_synchronous.
  - intros [Hn Hj]. unfold worker, get. unfold bind at 1. destruct (jobs w) as [|j rest] eqn:Ej;
      [split; simpl; [done|rewrite Ej; constructor]|]. apply ageing_run_job. split; [done|]. by inversion Hj.
Qed.
End tokens.

Lemma reachable_tokens s w : reachable initial step (s, w) → token_from 0 w.
Proof.
  intros Hr. change (token_from 0 (s, w).2). revert Hr. generalize (s, w). apply reachable_inv.
  - intros [s0 w0] (_ & _ & Hj & _ & Ht). simpl in *. split; [lia|]. by rewrite Hj.
  - intros [s0 w0] [s1 w1] Hw Hs. by eapply ageing_step.
Qed.

(** [cancel] and [close] make a token, which all the functions that are queued lack. *)
Lemma expires m w : m = cancel ∨ m = close ∧ is_open w = true → token_from 0 w →
  token_from (S (cancelation_token (impl w))) (m w).2.
Proof.
  assert (∀ n w, token_from n w → token_from (S n) (cancel w).2) as Hcancel.
  { intros n v [Hn Hj]. split; simpl; [lia|]. eapply Forall_impl; [exact Hj|]. simpl. lia. }
  intros Hm [Hn Hj]. assert (token_from (cancelation_token (impl w)) w) as Hw by (split; [lia|done]).
  destruct Hm as [->|[-> Ho]]; [by apply Hcancel|].
  assert (∃ l, (close w).2 = (cancel (set_impl (set_last_result None (set_first_result_stored false
    (set_initialized false (impl w)))) (set_client l w))).2) as [l ->]; [|by apply Hcancel].
  unfold close, is_open in *. unfold impl_close, free_result, exec, update, cancel. run_simpl. rewrite !Ho. run_simpl.
  destruct (last_result (impl w)); by eexists.
Qed.

Lemma token_from_rtc n sw sw' : rtc step sw sw' → token_from n sw.2 → token_from n sw'.2.
Proof.
  induction 1 as [|[s w] [s' w'] sw'' Hs _ IH]; [done|]. intros Hw. by eapply IH, ageing_step.
Qed.

(** C21. However the application's calls and the worker thread alternate, as long as
    the service is not shut down, every handler passed to an asynchronous operation
    has been posted once or is the handler of one queued function. Once the application
    has called [cancel], or [close] on a connection that is open, every function that was
    queued then completes with [operation_aborted], whenever the thread comes to it and
    whatever was called in between, and does nothing with the connection. *)
Theorem handlers_called_once s w :
  reachable initial step (s, w) →
  map c_handler (posted w) ++ map handler (jobs w) ≡ₚ s ∧
  (∀ m j s' w' fuel, m = cancel ∨ m = close ∧ is_open w = true → j ∈ jobs w →
     rtc step (s, (m w).2) (s', w') →
     ∃ r, run_job fuel j w' =
       (Val tt, set_posted (posted w' ++ [mk_completion (handler j) operation_aborted r]) w')).
Proof.
  intros Hr. split.
  - assert (Ha : accounted (s, w)); [|apply Ha].
    revert Hr. apply reachable_inv; [|apply accounted_step].
    intros [s0 w0] (Hs & Hp & Hj & Hio & _). split; [done|]. unfold handlers. simpl in *.
    by rewrite Hs, Hp, Hj.
  - intros m j s' w' fuel Hm Hj Hrtc. pose proof (reachable_tokens s w Hr) as Hw.
    pose proof (token_from_rtc _ _ _ Hrtc (expires m w Hm Hw)) as [Hn _]. simpl in Hn.
    destruct Hw as [_ Hjs]. pose proof (proj1 (Forall_forall _ _) Hjs j Hj) as Hle. simpl in Hle.
    unfold run_job, get. unfold bind at 1. rewrite (proj2 (Nat.eqb_neq _ _)) by lia. simpl.
    unfold complete, modify. by eexists.
Qed.

(** An error that the caller's error code still holds is taken for one of [store_result],
    and the first result is skipped. *)
Lemma stale_error_skips_result ec fuel w : is_error ec = true → first_result_stored (impl w) = false →
  store_result ec fuel w = (Val (empty_set, ec), set_impl (set_first_result_stored true (impl w)) w).
Proof. intros He Hf. unfold store_result, update. run_simpl. rewrite Hf. simpl. by rewrite He. Qed.

(** [async_execute] run to its end: the user's handler gets the number of rows when the
    statement failed, and 0 when it did not, where [execute] returns it. *)
Lemma async_execute_inverted fuel stmt h w :
  is_open w = true → work_io_service w = true → jobs w = [] → posted w = [] →
  ∃ w1 w2 c e, async_execute stmt h w = (Val tt, w1) ∧ worker fuel w1 = (Val tt, w2) ∧
    posted w2 = [c] ∧ c_error c = e ∧
    deliver c w2 =
      (Val (h, e, if is_error e then mysql_affected_rows (client w2) else 0), w2).
Proof.
  intros Ho Hio Hj Hp.
  set (w1 := set_jobs [mk_job (query_handler stmt) (cancelation_token (impl w)) h]
    (set_work true true w)).
  assert (E1 : async_execute stmt h w = (Val tt, w1)).
  { unfold async_execute, async_query, post_work, start_work_thread. run_simpl. rewrite Ho, Hio.
    simpl. by rewrite Hio, Hj. }
  assert (Eq : ∃ e v, do_query stmt (set_jobs [] w1) = (Val e, v)).
  { unfold do_query, free_result, update, exec, ops_mysql_real_query, error_wrapper, run, ask.
    run_simpl. destruct (last_result (impl w)); simpl;
      match goal with |- context [mysql_real_query stmt ?l] =>
        destruct (mysql_real_query stmt l) end; simpl; eauto. }
  destruct Eq as (e & v & Eq).
  pose proof (silent_do_query stmt (set_jobs [] w1)) as Hs. rewrite Eq in Hs. simpl in Hs.
  injection Hs as Hpv _ _.
  exists w1, (complete h e None v).2, (mk_completion h e None), e.
  split; [done|]. split; [|split; [|split; [done|]]].
  - assert (Ej : run_job fuel (mk_job (query_handler stmt) (cancelation_token (impl w)) h)
      (set_jobs [] w1) = complete h e None v).
    { unfold run_job. erewrite bind_val by reflexivity. simpl. rewrite Nat.eqb_refl. simpl.
      by erewrite bind_val by exact Eq. }
    exact Ej.
  - simpl. by rewrite Hpv, Hp.
  - unfold deliver. erewrite bind_val by apply execute_handler_inverted. reflexivity.
Qed.

End operations.

(** ** What the client library promises of results *)

Record table : Type := mk_table { t_fields : list field_type; t_rows : list cells }.

(** The result of the statement that may be stored, those after it, and what is left
    to fetch of a stored one, as the manual describes them. *)
Class Results `{Api} : Type := {
  ready : lib → option table;
  rest : lib → list table;
  fields_left : result → lib → list field_type;
  rows_left : result → lib → list cells;
  same_queue l l' : Prop := ready l' = ready l ∧ rest l' = rest l;
  store_ready l t : ready l = Some t →
    ∃ r l', mysql_store_result l = (Some r, l') ∧ mysql_errno l' = 0 ∧ ready l' = None ∧
      rest l' = rest l ∧ fields_left r l' = t_fields t ∧ rows_left r l' = t_rows t ∧
      mysql_num_rows r l' = Z.of_nat (length (t_rows t));
  store_nothing l : ready l = None → ∃ l', mysql_store_result l = (None, l') ∧ same_queue l l';
  more_results_rest l : mysql_more_results l = negb (bool_decide (rest l = []));
  next_result_rest l t ts : rest l = t :: ts →
    ∃ l', mysql_next_result l = (0, l') ∧ mysql_errno l' = 0 ∧ ready l' = Some t ∧ rest l' = ts;
  free_result_queue r l : same_queue l (mysql_free_result r l);
  fetch_field_next r l : ∃ l', mysql_fetch_field r l = (head (fields_left r l), l') ∧
    fields_left r l' = tail (fields_left r l) ∧ rows_left r l' = rows_left r l ∧ same_queue l l';
  fetch_row_next r l : ∃ l', mysql_fetch_row r l = (head (rows_left r l), l') ∧
    mysql_errno l' = 0 ∧ rows_left r l' = tail (rows_left r l) ∧
    fields_left r l' = fields_left r l ∧ same_queue l l';
}.

Section results.
Context `{Results}.

(** The result set made of a stored table. *)
Definition set_of (r : result) (t : table) : result_set :=
  mk_result_set (Some r) (Some (t_rows t)) (Some (match t_rows t with [] => [] | _ => t_fields t end)).

Lemma same_queue_trans l l' l'' : same_queue l l' → same_queue l' l'' → same_queue l l''.
Proof. intros [??] [??]. split; congruence. Qed.

Lemma fetch_fields_done fuel r w :
  (length (fields_left r (client w)) < fuel)%nat →
  ∃ l, fetch_fields fuel r w = (Val (fields_left r (client w)), set_client l w) ∧
    same_queue (client w) l ∧ rows_left r l = rows_left r (client w).
Proof.
  revert w. induction fuel as [|fuel IH]; intros w Hf; [lia|]. cbn [fetch_fields].
  destruct (fetch_field_next r (client w)) as (l1 & E & Hleft & Hrows & Hq).
  erewrite bind_val by (unfold run; by rewrite E).
  destruct (fields_left r (client w)) as [|x xs] eqn:Efs; simpl in *.
  - exists l1. by split_and!.
  - destruct (IH (set_client l1 w)) as (l2 & E2 & Hq2 & Hrows2); [simpl; rewrite Hleft; lia|].
    exists l2. split_and!.
    + erewrite bind_val by exact E2. simpl. by rewrite Hleft.
    + by eapply same_queue_trans.
    + simpl in Hrows2. congruence.
Qed.

Lemma fetch_rows_done fuel r w :
  (length (rows_left r (client w)) < fuel)%nat →
  ∃ l e, fetch_rows fuel r w = (Val (rows_left r (client w), e), set_client l w) ∧
    value e = 0 ∧ same_queue (client w) l.
Proof.
  revert w. induction fuel as [|fuel IH]; intros w Hf; [lia|]. cbn [fetch_rows].
  destruct (fetch_row_next r (client w)) as (l1 & E & Herr & Hleft & Hfs & Hq).
  assert (Eop : ops_mysql_fetch_row r w
    = (Val (head (rows_left r (client w)), mk_ec 0 client_category), set_client l1 w)).
  { unfold ops_mysql_fetch_row, error_wrapper, run, ask. run_simpl. rewrite E. simpl.
    by rewrite Herr. }
  erewrite bind_val by exact Eop. simpl.
  destruct (rows_left r (client w)) as [|x xs] eqn:Ers; simpl in *.
  - exists l1, (mk_ec 0 client_category). by split_and!.
  - destruct (IH (set_client l1 w)) as (l2 & e & E2 & He & Hq2); [simpl; rewrite Hleft; lia|].
    exists l2, e. split_and!; [|done|by eapply same_queue_trans].
    erewrite bind_val by exact E2. simpl. by rewrite Hleft.
Qed.

Lemma assign_done fuel r t e w :
  fields_left r (client w) = t_fields t → rows_left r (client w) = t_rows t →
  mysql_num_rows r (client w) = Z.of_nat (length (t_rows t)) → value e = 0 →
  (length (t_fields t) < fuel)%nat → (length (t_rows t) < fuel)%nat →
  ∃ l e', assign fuel (Some r) e w = (Val (set_of r t, e'), set_client l w) ∧
    value e' = 0 ∧ same_queue (client w) l.
Proof.
  intros Hf Hr Hn He Hfuel Hfuel'. unfold assign. erewrite bind_val by done. rewrite Hn.
  unfold set_of. destruct (t_rows t) as [|x xs] eqn:Et; simpl.
  - exists (client w), e. split_and!; [by destruct w|done|by split].
  - destruct (fetch_fields_done fuel r w) as (l1 & E1 & Hq1 & Hr1); [by rewrite Hf|].
    destruct (fetch_rows_done fuel r (set_client l1 w)) as (l2 & e2 & E2 & He2 & Hq2);
      [simpl; by rewrite Hr1, Hr|].
    exists l2, e2. erewrite bind_val by exact E1. erewrite bind_val by exact E2. simpl.
    unfold is_error. rewrite He2. simpl in *. rewrite Hr1, Hr, Hf. split_and!; try done.
    by eapply same_queue_trans.
Qed.

Lemma free_nothing w : last_result (impl w) = None → free_result w = (Val tt, w).
Proof.
  intros Hl. unfold free_result, update. run_simpl. rewrite Hl.
  unfold set_impl, set_last_result. destruct w as [? [] ? ? ? ? ?]; simpl in *. by subst.
Qed.

Lemma free_result_done w :
  ∃ l, free_result w = (Val tt, set_impl (set_last_result None (impl w)) (set_client l w)) ∧
    same_queue (client w) l.
Proof.
  unfold free_result, update, exec. run_simpl. destruct (last_result (impl w)) as [r|].
  - eexists. split; [reflexivity|]. apply free_result_queue.
  - exists (client w). split; [by destruct w|by split].
Qed.

Lemma store_current_done fuel t w :
  ready (client w) = Some t → last_result (impl w) = None →
  (length (t_fields t) < fuel)%nat → (length (t_rows t) < fuel)%nat →
  ∃ r l e, store_current fuel w = (Val (set_of r t, e),
      set_impl (set_last_result (Some r) (impl w)) (set_client l w)) ∧
    value e = 0 ∧ ready l = None ∧ rest l = rest (client w).
Proof.
  intros Hready Hlast Hf Hf'.
  destruct (store_ready _ _ Hready) as (r & l & E & Herr & Hnone & Hrest & Hfs & Hrows & Hnum).
  assert (Eop : ops_mysql_store_result w
    = (Val (Some r, mk_ec 0 client_category), set_client l w)).
  { unfold ops_mysql_store_result, error_wrapper, run, ask. run_simpl. rewrite E. simpl.
    by rewrite Herr. }
  destruct (assign_done fuel r t (mk_ec 0 client_category)
    (set_impl (set_last_result (Some r) (impl w)) (set_client l w))) as (l2 & e & E2 & He & Hq);
    try done.
  exists r, l2, e. split.
  - unfold store_current. erewrite bind_val by exact Eop. simpl.
    erewrite bind_val by (by apply free_nothing). exact E2.
  - split; [done|]. destruct Hq as [-> ->]. done.
Qed.

(** The connection is open and was made for several results. *)
Definition open_multi (w : world) : Prop :=
  initialized (impl w) = true ∧
  Z.land (flags (impl w)) (Z.lor client_multi_results client_multi_statements) ≠ 0.

(** A statement was executed: its first result is to be stored, the rest follow. *)
Record queried (w : world) (t : table) (ts : list table) : Prop := {
  q_open : open_multi w;
  q_first : first_result_stored (impl w) = false;
  q_last : last_result (impl w) = None;
  q_ready : ready (client w) = Some t;
  q_rest : rest (client w) = ts;
}.

(** Some of its results were stored, the rest follow. *)
Record between (w : world) (ts : list table) : Prop := {
  b_open : open_multi w;
  b_first : first_result_stored (impl w) = true;
  b_ready : ready (client w) = None;
  b_rest : rest (client w) = ts;
}.

Lemma has_more_multi w :
  open_multi w → has_more_results w =
    negb (first_result_stored (impl w)) || negb (bool_decide (rest (client w) = [])).
Proof.
  intros [Ho Hf]. unfold has_more_results, is_open. rewrite Ho.
  rewrite (proj2 (Z.eqb_neq _ _) Hf). simpl. by rewrite more_results_rest.
Qed.

(** Result tables small enough for the fuel of [assign]. *)
Definition fits (fuel : nat) (t : table) : Prop :=
  (length (t_fields t) < fuel)%nat ∧ (length (t_rows t) < fuel)%nat.

Lemma connector_store_val fuel w rs e w' :
  store_result no_error fuel w = (Val (rs, e), w') → value e = 0 →
  connector_store_result fuel w = (Val rs, w').
Proof.
  intros E He. unfold connector_store_result, or_throw. erewrite bind_val by exact E.
  unfold throw_error, is_error. simpl. by rewrite He.
Qed.

Lemma store_first fuel w t ts :
  queried w t ts → fits fuel t →
  ∃ r w', connector_store_result fuel w = (Val (set_of r t), w') ∧ between w' ts ∧
    last_result (impl w') = Some r.
Proof.
  intros [[Ho Hm] Hfirst Hlast Hready Hrest] [Hf1 Hf2].
  set (w1 := set_impl (set_first_result_stored true (impl w)) w).
  destruct (store_current_done fuel t w1) as (r & l & e & E & He & Hn & Hr); try done.
  eexists r, _. split; [|split].
  - eapply connector_store_val; [|exact He]. unfold store_result, update. run_simpl.
    rewrite Hfirst. simpl. exact E.
  - split; simpl; try done. rewrite Hr. exact Hrest.
  - done.
Qed.

Lemma store_next fuel w t ts :
  between w (t :: ts) → fits fuel t →
  ∃ r w', connector_store_result fuel w = (Val (set_of r t), w') ∧ between w' ts ∧
    last_result (impl w') = Some r.
Proof.
  intros [[Ho Hm] Hfirst Hready Hrest] [Hf1 Hf2].
  destruct (free_result_done w) as (l1 & E1 & Hq1 & Hq2).
  set (w1 := set_impl (set_last_result None (impl w)) (set_client l1 w)) in *.
  destruct (next_result_rest l1 t ts) as (l2 & E2 & Herr & Hr2 & Hrest2); [congruence|].
  destruct (store_current_done fuel t (set_client l2 w1)) as (r & l & e & E & He & Hn & Hr); try done.
  eexists r, _. split; [|split].
  - eapply connector_store_val; [|exact He]. unfold store_result.
    erewrite bind_val by done. rewrite Hfirst.
    erewrite bind_val.
    2:{ erewrite bind_val by exact E1. erewrite bind_val by done.
        rewrite has_more_multi by done. simpl. rewrite Hq2, Hrest, orb_true_r.
        unfold ops_mysql_next_result, error_wrapper, run, ask. run_simpl. rewrite E2. simpl.
        rewrite Herr. reflexivity. }
    exact E.
  - split; simpl; try done. rewrite Hr. exact Hrest2.
  - done.
Qed.

Lemma store_rest fuel turns w ts :
  between w ts → Forall (fits fuel) ts → (length ts < turns)%nat →
  ∃ rs w', store_all turns fuel w = (Val (zip_with set_of rs ts), w') ∧
    length rs = length ts ∧ between w' [].
Proof.
  intros Hb Hfit. revert turns w Hb.
  induction Hfit as [|t ts Ht _ IH]; intros [|turns] w Hb Hturns; simpl in Hturns; try lia;
    cbn [store_all]; pose proof Hb as [Ho Hfirst _ Hrest];
    (erewrite bind_val by (unfold connector_has_more; erewrite bind_val by done; reflexivity));
    rewrite has_more_multi, Hfirst, Hrest by done; simpl.
  - by exists [], w.
  - destruct (store_next fuel w t ts Hb Ht) as (r & w1 & E1 & Hb1 & _).
    destruct (IH turns w1 Hb1) as (rs & w2 & E2 & Hlen & Hb2); [lia|].
    exists (r :: rs), w2. erewrite bind_val by exact E1. erewrite bind_val by exact E2.
    simpl. by rewrite Hlen.
Qed.

(** C31. After a statement with several results, storing results while there are more
    returns each of them once, in order and without an error, and ends. *)
Theorem store_all_results fuel turns w t ts :
  queried w t ts → fits fuel t → Forall (fits fuel) ts → (S (length ts) < turns)%nat →
  ∃ r rs w', store_all turns fuel w = (Val (set_of r t :: zip_with set_of rs ts), w') ∧
    length rs = length ts ∧ has_more_results w' = false.
Proof.
  intros Hq Ht Hts Hturns. destruct turns as [|turns]; [lia|]. cbn [store_all].
  pose proof (q_open _ _ _ Hq) as Ho. pose proof (q_first _ _ _ Hq) as Hfirst.
  erewrite bind_val by (unfold connector_has_more; erewrite bind_val by done; reflexivity).
  rewrite has_more_multi, Hfirst by done. simpl.
  destruct (store_first fuel w t ts Hq Ht) as (r & w1 & E1 & Hb & _).
  destruct (store_rest fuel turns w1 ts Hb Hts) as (rs & w2 & E2 & Hlen & [Ho2 Hf2 _ Hr2]); [lia|].
  exists r, rs, w2. erewrite bind_val by exact E1. erewrite bind_val by exact E2.
  split; [done|]. split; [done|]. by rewrite has_more_multi, Hf2, Hr2.
Qed.

(** A loop over [basic_results_iterator] sees the result of a statement that has
    one; when there are more it sees none at all, because the constructor puts the
    iterator at its end if results remain after the first. *)
Theorem results_iterator fuel turns w t ts :
  queried w t ts → fits fuel t → (2 ≤ turns)%nat →
  ∃ r w', all_results turns fuel w =
    (Val (match ts with [] => [set_of r t] | _ => [] end), w').
Proof.
  intros Hq Ht Hturns. destruct turns as [|[|turns]]; [lia..|].
  pose proof (q_open _ _ _ Hq) as Ho. pose proof (q_first _ _ _ Hq) as Hfirst.
  destruct (store_first fuel w t ts Hq Ht) as (r & w1 & E1 & [Ho1 Hf1 _ Hr1] & _).
  exists r, w1. unfold all_results, make_iterator.
  erewrite bind_val.
  2:{ erewrite bind_val by done. unfold is_open. rewrite (proj1 Ho), has_more_multi, Hfirst by done.
      simpl. erewrite bind_val by exact E1.
      erewrite bind_val by (unfold connector_has_more; erewrite bind_val by done; reflexivity).
      rewrite has_more_multi, Hf1, Hr1 by done. reflexivity. }
  destruct ts as [|t' ts]; simpl; [|done].
  unfold increment, connector_has_more. run_simpl.
  rewrite has_more_multi, Hf1, Hr1 by done. done.
Qed.

(** [async_store_result] never gets past the first result of a statement: its
    job stores the current result again instead of asking for the next, so the
    handler gets an empty set and the results that follow stay where they are. *)
Theorem async_store_result_stuck fuel w ts h j :
  between w ts → ts ≠ [] → op j = store_result_handler → handler j = h →
  token j = cancelation_token (impl w) →
  ∃ w' e, run_job fuel j w = (Val tt, w') ∧ rest (client w') = ts ∧ ready (client w') = None ∧
    posted w' = posted w ++ [mk_completion h e (Some empty_set)].
Proof.
  intros [[Ho Hm] Hfirst Hready Hrest] Hts Hop Hh Htok.
  destruct (free_result_done w) as (l1 & E1 & Hq1 & Hq2).
  set (w1 := set_impl (set_last_result None (impl w)) (set_client l1 w)) in *.
  destruct (store_nothing l1) as (l2 & E2 & Hn2 & Hr2); [congruence|].
  destruct (store_nothing l2) as (l3 & E3 & Hn3 & Hr3); [congruence|].
  assert (Eop : ∀ v l l', mysql_store_result l = (None, l') →
    ops_mysql_store_result (set_client l v)
    = (Val (None, mk_ec (mysql_errno l') client_category), set_client l' v)).
  { intros v l l' E. unfold ops_mysql_store_result, error_wrapper, run, ask. run_simpl.
    rewrite E. done. }
  assert (Hjob : ∃ w' e, store_result_job fuel w = (Val (empty_set, e), w') ∧
    rest (client w') = ts ∧ ready (client w') = None ∧ posted w' = posted w).
  { unfold store_result_job. erewrite bind_val by done. rewrite Hfirst.
    erewrite bind_val.
    2:{ erewrite bind_val by exact E1. erewrite bind_val by done.
        rewrite has_more_multi by done. simpl. rewrite Hq2, Hrest.
        rewrite bool_decide_eq_false_2 by done. rewrite orb_true_r.
        erewrite bind_val by exact (Eop (set_impl (set_last_result None (impl w)) w) l1 l2 E2).
        reflexivity. }
    destruct (is_error _).
    - eexists _, _. split; [reflexivity|]. simpl. split_and!; congruence.
    - unfold store_current.
      erewrite bind_val by exact (Eop (set_impl (set_last_result None (impl w)) w) l2 l3 E3).
      erewrite bind_val by (by apply free_nothing).
      eexists _, _. split; [reflexivity|]. simpl. split_and!; congruence. }
  destruct Hjob as (w' & e & E & Hr' & Hn' & Hp').
  eexists _, e. split; [|split; [|split]].
  - unfold run_job. erewrite bind_val by done. rewrite Htok, Nat.eqb_refl. simpl. rewrite Hop.
    erewrite bind_val by exact E. reflexivity.
  - exact Hr'.
  - exact Hn'.
  - simpl. by rewrite Hp', Hh.
Qed.

End results.

(** ** A client library for the witnesses *)

(** The result to be stored, those after it, the stored ones with what is left to
    fetch of them, and the statements and transaction calls made. *)
Record toy_lib : Type := mk_toy {
  toy_ready : option table;
  toy_rest : list table;
  toy_stored : list (list field_type * list cells * Z);
  toy_calls : list string;
}.

Definition toy_log (c : string) (l : toy_lib) : toy_lib :=
  mk_toy (toy_ready l) (toy_rest l) (toy_stored l) (toy_calls l ++ [c]).
Definition toy_with_stored x (l : toy_lib) : toy_lib :=
  mk_toy (toy_ready l) (toy_rest l) x (toy_calls l).
Definition toy_at (r : nat) (l : toy_lib) : list field_type * list cells * Z :=
  nth r (toy_stored l) ([], [], 0).

Definition toy_api : Api := {|
  lib := toy_lib;
  client_multi_results := 2 ^ 17;
  client_multi_statements := 2 ^ 16;
  mysql_errno := λ _, 0;
  mysql_error := λ _, "";
  mysql_init := λ l, (true, l);
  mysql_real_connect := λ _ _ _ _ _ _ _ l, (true, l);
  mysql_real_query := λ q l, (0, toy_log q l);
  mysql_more_results := λ l, negb (bool_decide (toy_rest l = []));
  mysql_field_count := λ _, 1;
  mysql_next_result := λ l, match toy_rest l with
    | [] => (-1, l)
    | t :: ts => (0, mk_toy (Some t) ts (toy_stored l) (toy_calls l)) end;
  mysql_store_result := λ l, match toy_ready l with
    | None => (None, l)
    | Some t => (Some (length (toy_stored l)),
        mk_toy None (toy_rest l)
          (toy_stored l ++ [(t_fields t, t_rows t, Z.of_nat (length (t_rows t)))]) (toy_calls l)) end;
  mysql_free_result := λ _ l, l;
  mysql_num_rows := λ r l, (toy_at r l).2;
  mysql_num_fields := λ r l, Z.of_nat (length (toy_at r l).1.1);
  mysql_fetch_field := λ r l, (head (toy_at r l).1.1,
    toy_with_stored (alter (λ x, (tail x.1.1, x.1.2, x.2)) r (toy_stored l)) l);
  mysql_fetch_row := λ r l, (head (toy_at r l).1.2,
    toy_with_stored (alter (λ x, (x.1.1, tail x.1.2, x.2)) r (toy_stored l)) l);
  mysql_autocommit := λ b l, (false, toy_log (if b then "autocommit on" else "autocommit off") l);
  mysql_commit := λ l, (false, toy_log "commit" l);
  mysql_rollback := λ l, (false, toy_log "rollback" l);
  mysql_affected_rows := λ _, 0;
  mysql_options := λ _ _ l, (0, l);
  mysql_close := λ l, l;
|}.

#[local] Existing Instance toy_api.

Lemma toy_at_alter f r l :
  toy_at r (toy_with_stored (alter f r (toy_stored l)) l) =
    (if (r <? length (toy_stored l))%nat then f (toy_at r l) else toy_at r l).
Proof.
  unfold toy_at. simpl. destruct (Nat.ltb_spec r (length (toy_stored l))) as [Hr|Hr].
  - destruct (lookup_lt_is_Some_2 _ _ Hr) as [x Hx].
    rewrite (nth_lookup_Some _ _ _ x Hx). apply nth_lookup_Some.
    by rewrite list_lookup_alter_eq, Hx.
  - rewrite !nth_overflow by (rewrite ?length_alter; lia). done.
Qed.

Lemma toy_at_none r l : (length (toy_stored l) ≤ r)%nat → toy_at r l = ([], [], 0).
Proof. apply nth_overflow. Qed.

Definition toy_results : Results.
Proof.
  refine {| ready := toy_ready; rest := toy_rest; fields_left := λ r l, (toy_at r l).1.1;
            rows_left := λ r l, (toy_at r l).1.2 |}.
  - intros l t E. simpl. rewrite E. eexists _, _. split; [reflexivity|].
    unfold toy_at. simpl. by rewrite nth_middle.
  - intros l E. simpl. rewrite E. exists l. by split.
  - intros l. reflexivity.
  - intros l t ts E. simpl. rewrite E. eexists. by split_and!.
  - by split.
  - intros r l. eexists. split; [reflexivity|]. rewrite toy_at_alter.
    destruct (Nat.ltb_spec r (length (toy_stored l))) as [Hr|Hr]; [by split_and!|].
    by rewrite toy_at_none.
  - intros r l. eexists. split; [reflexivity|]. split; [done|]. rewrite toy_at_alter.
    destruct (Nat.ltb_spec r (length (toy_stored l))) as [Hr|Hr]; [by split_and!|].
    by rewrite toy_at_none.
Defined.
#[local] Existing Instance toy_results.

Definition toy_table (s : string) : table := mk_table [mk_field "name" 0] [[Some s]; [None]].

(** An open connection with several results, before any was stored. *)
Definition toy_world (first : bool) (ready : option table) (ts : list table) : world :=
  mk_world (mk_toy ready ts [] []) (mk_impl (2 ^ 17) true first None 0) 1 true false [] [].

Lemma toy_queried ts : queried (toy_world false (Some (toy_table "a")) ts) (toy_table "a") ts.
Proof. split; try reflexivity. split; [reflexivity|discriminate]. Qed.

Lemma toy_result_fits s : fits 3 (toy_table s).
Proof. unfold fits. simpl. lia. Qed.

Lemma store_all_results_witness :
  ∃ r rs w', store_all 4 3 (toy_world false (Some (toy_table "a")) [toy_table "b"]) =
    (Val (set_of r (toy_table "a") :: zip_with set_of rs [toy_table "b"]), w') ∧
    length rs = 1%nat ∧ has_more_results w' = false.
Proof.
  apply (store_all_results 3 4 (toy_world false (Some (toy_table "a")) [toy_table "b"])).
  - apply toy_queried.
  - apply toy_result_fits.
  - repeat constructor; apply toy_result_fits.
  - simpl. lia.
Defined.

Lemma results_iterator_witness :
  ∃ r w', all_results 2 3 (toy_world false (Some (toy_table "a")) [toy_table "b"]) =
    (Val (match [toy_table "b"] with [] => [set_of r (toy_table "a")] | _ => [] end), w').
Proof.
  apply (results_iterator 3 2 (toy_world false (Some (toy_table "a")) [toy_table "b"])
    (toy_table "a") [toy_table "b"]); [apply toy_queried|apply toy_result_fits|lia].
Defined.

Lemma async_store_result_stuck_witness :
  ∃ w' e, run_job 3 (mk_job store_result_handler 0 7) (toy_world true None [toy_table "b"])
    = (Val tt, w') ∧ rest (client w') = [toy_table "b"] ∧ ready (client w') = None ∧
    posted w' = [mk_completion 7 e (Some empty_set)].
Proof.
  apply (async_store_result_stuck 3 (toy_world true None [toy_table "b"]) [toy_table "b"] 7
    (mk_job store_result_handler 0 7)); try reflexivity; [|discriminate].
  split; try reflexivity. split; [reflexivity|discriminate].
Defined.

Lemma scoped_transaction_inverted_witness :
  toy_calls (client ((let! r := transaction_commit_ec false in transaction_end r.1)
    (toy_world false None [])).2) = ["commit"; "rollback"; "autocommit on"].
Proof.
  rewrite (scoped_transaction_inverted false (toy_world false None []) eq_refl). reflexivity.
Defined.

(** A query queued, cancelled, and run: its handler is called once. *)
Lemma handlers_called_once_witness :
  let w0 := toy_world false None [] in
  let w1 := (async_query "SELECT 1" 5 w0).2 in
  let w2 := (cancel w1).2 in
  let w3 := (worker 3 w2).2 in
  map c_handler (posted w3) ++ map handler (jobs w3) ≡ₚ [5%nat] ∧
  map c_error (posted w3) = [operation_aborted] ∧
  ∃ r, run_job 3 (mk_job (query_handler "SELECT 1") 0 5) w2 =
    (Val tt, set_posted (posted w2 ++ [mk_completion 5 operation_aborted r]) w2).
Proof.
  intros w0 w1 w2 w3.
  assert (Hr1 : reachable initial step ([5%nat], w1)).
  { apply reach_step with ([], w0); [|by eapply (step_async_query "SELECT 1" 5 [])].
    apply reach_init. split_and!; try done. simpl. lia. }
  assert (Hr : reachable initial step ([5%nat], w3)).
  { apply reach_step with ([5%nat], w2); [|by apply (step_work 3)].
    apply reach_step with ([5%nat], w1); [done|by eapply (step_sync cancel); [constructor|]]. }
  split; [apply (handlers_called_once [5%nat] w3 Hr)|]. split; [reflexivity|].
  apply (proj2 (handlers_called_once [5%nat] w1 Hr1) cancel (mk_job (query_handler "SELECT 1") 0 5)
    [5%nat] w2 3%nat); [by left|left|done].
Defined.

End Amy.
