(* ===== verification/AmyConnect.v ===== *)
(** * Connecting with named arguments, options, and the client library's life
    (lib/amy/connect.hpp, detail/mysql_option.hpp, detail/mysql_lib_init.hpp) *)

From S2P Require Import Prelude AmyError Amy.

Module AmyConnect.
Import AmyError Amy.

(** ** connect.hpp *)

(** [default_flags] (client_flags.hpp) *)
Definition default_flags : Z := 0.

(** What a call of the named functions binds: an argument that is not given takes its
    default. [handler] names a function of the application. *)
Record arguments : Type := mk_arguments {
  endpoint_ : option endpoint;
  auth_ : option auth_info;
  database_ : option string;
  flags_ : option Z;
  handler_ : option nat;
}.
Definition no_arguments : arguments := mk_arguments None None None None None.
Definition the_endpoint (a : arguments) : endpoint := default null_endpoint (endpoint_ a).
Definition the_auth (a : arguments) : auth_info := default auth_info_default (auth_ a).
Definition the_database (a : arguments) : string := default "" (database_ a).
Definition the_flags (a : arguments) : Z := default default_flags (flags_ a).

Section connect.
Context `{Api}.
(** The name of [ignore_connect_event], whose body is empty. *)
Context (ignore_connect_event : nat).

(** [detail::connect], [detail::async_connect] *)
Definition detail_connect (e : endpoint) (a : auth_info) (database : string) (f : Z) : prog world unit :=
  connector_connect e a database f.
Definition detail_connect_ec (e : endpoint) (a : auth_info) (database : string) (f : Z)
    : prog world error_code := Amy.connect e a database f.
Definition detail_async_connect (e : endpoint) (a : auth_info) (database : string) (f : Z) (h : nat)
    : prog world unit := Amy.async_connect e a database f h.

Definition connect (a : arguments) : prog world unit :=
  detail_connect (the_endpoint a) (the_auth a) (the_database a) (the_flags a).
Definition async_connect (a : arguments) : prog world unit :=
  detail_async_connect (the_endpoint a) (the_auth a) (the_database a) (the_flags a)
    (default ignore_connect_event (handler_ a)).

(** A closed connector is opened and connected with one call of the library, with null
    pointers, empty strings and 0 for what was not named; it stays open with the flags asked
    for when the library refuses, and what the library says is thrown. *)
Theorem named_connect a w l1 ok l2 :
  is_open w = false → mysql_init (client w) = (true, l1) →
  mysql_real_connect (endpoint_ a ≫= host) (default "" (user <$> auth_ a)) (auth_ a ≫= password)
    (default "" (database_ a)) (default 0 (port <$> endpoint_ a)) (endpoint_ a ≫= unix_socket)
    (default 0 (flags_ a)) l1 = (ok, l2) →
  connect a w =
    (if mysql_errno l2 =? 0 then Val tt else Exc (StdException (mysql_error l2)),
     set_impl (set_flags (the_flags a) (set_initialized true (impl w))) (set_client l2 w)).
Proof.
  intros Ho Hi Hc. unfold connect, detail_connect, connector_connect, connector_check, Amy.connect, get.
  unfold bind at 1. unfold bind at 1. rewrite Ho. unfold open, ops_mysql_init, run, get.
  repeat unfold bind at 1. rewrite Ho. rewrite Hi. simpl.
  unfold connect_open, ops_mysql_real_connect, error_wrapper, run, ask. run_simpl.
  assert (mysql_real_connect (host (the_endpoint a)) (user (the_auth a)) (password (the_auth a))
    (the_database a) (port (the_endpoint a)) (unix_socket (the_endpoint a)) (the_flags a) l1 = (ok, l2)) as ->.
  { rewrite <-Hc. unfold the_endpoint, the_auth, the_database, the_flags.
    by destruct (endpoint_ a), (auth_ a), (database_ a), (flags_ a). }
  simpl. unfold throw_error, ask, is_error. run_simpl.
  by destruct (mysql_errno l2 =? 0).
Qed.
End connect.

(** ** detail/mysql_option.hpp *)

(** The classes of options, each with the number of its option. *)
Inductive mysql_option : Type :=
  | unsigned_integer (Option : Z) (value_ : Z)
  | char_sequence (Option : Z) (value_ : string)
  | boolean (Option : Z) (value_ : Z)
  | switcher (Option : Z).

Definition unsigned_integer_default (Option : Z) : mysql_option := unsigned_integer Option 0.
Definition char_sequence_default (Option : Z) : mysql_option := char_sequence Option "".
Definition boolean_default (Option : Z) : mysql_option := boolean Option 0.
Definition boolean_of (Option : Z) (value : bool) : mysql_option :=
  boolean Option (if value then 1 else 0).

Definition option_ (o : mysql_option) : Z :=
  match o with
  | unsigned_integer n _ | char_sequence n _ | boolean n _ | switcher n => n
  end.

(** [data]: a null pointer, or a pointer to characters; [None] when it does not compile. *)
Definition data (o : mysql_option) : option (option string) :=
  match o with
  | unsigned_integer _ _ => None
  | char_sequence _ s => Some (Some s)
  | boolean _ b => Some (Some (String (Ascii.ascii_of_nat (Z.to_nat b)) EmptyString))
  | switcher _ => Some None
  end.

(** ** detail/mysql_lib_init.hpp *)

Section mysql_lib_init.
(** The result of [mysql_library_init] when it is called for the [n]-th time, from 0. *)
Context (mysql_library_init : nat → Z).

(** The static [init]: the result of the one [do_init] once it is made, and the pointers
    to it, its own and those of the [mysql_lib_init] objects; the calls of the library. *)
Record process : Type := mk_process {
  init : option Z;
  refs : nat;
  inits : nat;
  ends : nat;
  objects : nat;
}.
Definition start : process := mk_process None 0 0 0 0.

(** [do_init::do_init] *)
Definition do_init : prog process Z :=
  let! p := get in
  put (mk_process (init p) (refs p) (S (inits p)) (ends p) (objects p)) ;;;
  ret (mysql_library_init (inits p)).

(** The last pointer to the [do_init] goes. *)
Definition drop_ref : prog process unit :=
  modify (λ p, mk_process (init p) (refs p - 1) (inits p)
    (if decide (refs p = 1%nat) then S (ends p) else ends p) (objects p)).

(** [do_init::instance]: the initialisation of [init] takes place on the first call; a
    result that is not 0 is thrown on every call. *)
Definition instance : prog process unit :=
  (let! p := get in
   match init p with
   | Some _ => ret tt
   | None => let! r := do_init in
             modify (λ p, mk_process (Some r) 1 (inits p) (ends p) (objects p))
   end) ;;;
  let! p := get in
  match init p with
  | Some 0 => modify (λ p, mk_process (init p) (S (refs p)) (inits p) (ends p) (objects p))
  | _ => throw (StdException "mysql_library_init()")
  end.

(** [mysql_lib_init::mysql_lib_init] and the destructor. *)
Definition mysql_lib_init : prog process unit :=
  instance ;;; modify (λ p, mk_process (init p) (refs p) (inits p) (ends p) (S (objects p))).
Definition mysql_lib_init_destroy : prog process unit :=
  modify (λ p, mk_process (init p) (refs p) (inits p) (ends p) (objects p - 1)) ;;; drop_ref.

(** Objects are made, or not, and destroyed while the program runs. *)
Inductive step : process → process → Prop :=
  | s_construct p : step p (mysql_lib_init p).2
  | s_destroy p : objects p ≠ 0%nat → step p (mysql_lib_init_destroy p).2.

(** The end of the program destroys the static. *)
Definition exit_ : prog process unit :=
  let! p := get in match init p with Some _ => drop_ref | None => ret tt end.

Record consistent (p : process) : Prop := {
  co_init : init p = None ∧ inits p = 0%nat ∧ refs p = 0%nat ∧ objects p = 0%nat ∨
            init p = Some (mysql_library_init 0) ∧ inits p = 1%nat ∧ refs p = S (objects p) ∧
            (mysql_library_init 0 ≠ 0 → objects p = 0%nat);
  co_ends : ends p = 0%nat;
}.

Lemma consistent_construct p : consistent p →
  consistent (mysql_lib_init p).2 ∧ init (mysql_lib_init p).2 = Some (mysql_library_init 0) ∧
  (mysql_lib_init p).1 = if mysql_library_init 0 =? 0 then Val tt
                         else Exc (StdException "mysql_library_init()").
Proof.
  intros [Hi He]. destruct p as [i r n e o]. simpl in *. subst.
  unfold mysql_lib_init, instance, do_init.
  destruct Hi as [(-> & -> & -> & ->)|(-> & -> & -> & Ho)]; run_simpl;
    destruct (mysql_library_init 0) eqn:E; simpl; rewrite ?E;
    (split; [split; simpl; [right; rewrite ?E; repeat split; auto; done|done]|done]).
Qed.

Lemma consistent_destroy p : objects p ≠ 0%nat → consistent p → consistent (mysql_lib_init_destroy p).2.
Proof.
  intros Ho [Hi He]. destruct p as [i r n e o]. simpl in *. subst.
  destruct Hi as [(-> & -> & -> & ->)|(-> & -> & -> & Hz)]; [done|].
  split; simpl; [|by rewrite decide_False by lia].
  right. repeat split; [lia|]. intros Hne. specialize (Hz Hne). lia.
Qed.

(** C22. The client library is initialised once and ended once, however many objects ask for
    it: no object calls for nothing, the first one calls [mysql_library_init] and no other
    one does, and all are told the same, also when it failed, which is never tried again;
    [mysql_library_end] is called when the program ends and not before. *)
Theorem library_initialised_once p : reachable (eq start) step p →
  (inits p ≤ 1)%nat ∧ (objects p ≠ 0%nat → inits p = 1%nat) ∧ ends p = 0%nat ∧
  (mysql_lib_init p).1 = (if mysql_library_init 0 =? 0 then Val tt
                          else Exc (StdException "mysql_library_init()")) ∧
  inits (mysql_lib_init p).2 = 1%nat ∧
  (objects p = 0%nat → ends (exit_ p).2 = inits p).
Proof.
  intros Hr. assert (consistent p) as Hc.
  { revert p Hr. apply reachable_inv; [intros p <-; split; [by left|done]|].
    intros p p' Hp Hs. revert Hp. destruct Hs as [q|q Ho]; intros Hp;
      [apply (consistent_construct q Hp)|by apply consistent_destroy]. }
  destruct (consistent_construct p Hc) as ([[Hi'|Hi'] _] & Hin & Hv); [by destruct Hi' as [E _]; rewrite E in Hin|].
  destruct Hc as [Hi He]. split; [destruct Hi as [(_ & -> & _)|(_ & -> & _)]; lia|].
  split; [intros Ho; by destruct Hi as [(_ & _ & _ & ?)|(_ & ? & _)]|].
  split; [done|]. split; [done|]. split; [by destruct Hi' as (_ & ? & _)|].
  intros Ho. unfold exit_, drop_ref. run_simpl.
  destruct Hi as [(E & -> & _)|(E & -> & Hrefs & _)]; rewrite E; [done|]. simpl.
  by rewrite Hrefs, Ho, He.
Qed.
End mysql_lib_init.

(** Three objects are made and one is destroyed. *)
Lemma library_initialised_once_witness :
  let p := (mysql_lib_init_destroy (mysql_lib_init (λ _, 0) (mysql_lib_init (λ _, 0)
    (mysql_lib_init (λ _, 0) start).2).2).2).2 in
  objects p = 2%nat ∧ inits p = 1%nat ∧ ends p = 0%nat.
Proof.
  intros p. split; [reflexivity|].
  destruct (library_initialised_once (λ _, 0) p) as (_ & Hi & He & _).
  - eapply reach_step; [|by apply s_destroy]. do 3 (eapply reach_step; [|apply s_construct]). by apply reach_init.
  - split; [by apply Hi|exact He].
Defined.

End AmyConnect.
