(* ===== verification/AmyRows.v ===== *)
(** * Reading result sets (lib/amy/result_set.hpp, row.hpp, field.hpp,
    detail/value_cast.hpp, field_info.hpp)

    A result set watches the native result the connection holds; its rows and
    fields point into it. The conversions of boost are the class [Casts]. *)

From Stdlib Require Import Ascii DecimalString DecimalZ.
From stdpp Require Import strings.
From S2P Require Import Prelude Platform AmyError Amy.

Module AmyRows.

Import Amy.

(** ** Conversions of a field's text (detail/value_cast.hpp) *)

(** The types of sql_types.hpp by what [value_cast] does: the typedefs of integers have
    a width and a sign, those of [std::string] are one type. Floating-point types are
    left out. *)
Inductive sql_type : Type :=
  | sql_tinyint (signed : bool)
  | sql_integer (bits : Z) (signed : bool)
  | sql_text
  | sql_bool
  | sql_datetime
  | sql_time.

Inductive sql_value : Type :=
  | v_number (n : Z)
  | v_text (s : string)
  | v_bool (b : bool)
  | v_time_point (ticks : Z)
  | v_duration (ticks : Z).

(** The range of an integer type. *)
Definition int_min (bits : Z) (signed : bool) : Z := if signed then - 2 ^ (bits - 1) else 0.
Definition int_max (bits : Z) (signed : bool) : Z :=
  if signed then 2 ^ (bits - 1) - 1 else 2 ^ bits - 1.
Definition in_range (bits : Z) (signed : bool) (n : Z) : bool :=
  (int_min bits signed <=? n) && (n <=? int_max bits signed).

(** [boost::lexical_cast] to an integer type, [None] when it throws, and the reading of
    a [ptime] and of a [time_duration] from a stream with the formats given. *)
Class Casts : Type := {
  lexical_cast : Z → bool → string → option Z;
  read_ptime : string → Z;
  read_duration : string → Z;
}.

Definition space (c : ascii) : bool :=
  match nat_of_ascii c with 9%nat | 10%nat | 11%nat | 12%nat | 13%nat | 32%nat => true | _ => false end.

Fixpoint skipws (s : string) : string :=
  match s with String c s' => if space c then skipws s' else s | _ => s end.

(** [in >> std::boolalpha >> v]: "true" gives [true]; since C++11 anything that is
    neither "true" nor "false" gives [false]. *)
Definition read_boolalpha (s : string) : bool := String.prefix "true" (skipws s).

Definition bad_lexical_cast {S A} : prog S A := throw (StdException "bad_lexical_cast").
Definition bad_numeric_cast {S A} : prog S A := throw (StdException "bad_numeric_cast").

(** [boost::numeric_cast] to [int8_t] or [uint8_t]. *)
Definition numeric_cast {S} (bits : Z) (signed : bool) (n : Z) : prog S Z :=
  if in_range bits signed n then ret n else bad_numeric_cast.

Definition or_bad_lexical_cast {S} (n : option Z) : prog S Z :=
  match n with Some n => ret n | None => bad_lexical_cast end.

(** [value_cast<sql_time>]: the sign is taken off and put back. *)
Definition cast_time `{Casts} (s : string) : Z :=
  match s with
  | String "-" rest => 0 - read_duration rest
  | _ => read_duration s
  end.

Definition value_cast `{Casts} {S} (t : sql_type) (s : string) : prog S sql_value :=
  match t with
  | sql_tinyint signed =>
      let! n := or_bad_lexical_cast (lexical_cast 32 true s) in
      let! n := numeric_cast 8 signed n in ret (v_number n)
  | sql_integer bits signed =>
      let! n := or_bad_lexical_cast (lexical_cast bits signed s) in ret (v_number n)
  | sql_text => ret (v_text s)
  | sql_bool => ret (v_bool (read_boolalpha s))
  | sql_datetime => ret (v_time_point (read_ptime s))
  | sql_time => ret (v_duration (cast_time s))
  end.

(** ** Metadata of fields (field_info.hpp), while the native result is alive *)

(** The flags of mysql.h. *)
Class FieldFlags : Type := {
  NOT_NULL_FLAG : Z;
  PRI_KEY_FLAG : Z;
  UNIQUE_KEY_FLAG : Z;
  MULTIPLE_KEY_FLAG : Z;
  UNSIGNED_FLAG : Z;
  ZEROFILL_FLAG : Z;
  BINARY_FLAG : Z;
  AUTO_INCREMENT_FLAG : Z;
  NO_DEFAULT_VALUE_FLAG : Z;
}.

Section field_info.
Context `{FieldFlags}.

Definition has_flag (flag : Z) (f : field_type) : bool := negb (Z.land (field_flags f) flag =? 0).

Definition name (f : field_type) : string := field_name f.
Definition is_nullable (f : field_type) : bool := negb (has_flag NOT_NULL_FLAG f).
Definition is_primary_key : field_type → bool := has_flag PRI_KEY_FLAG.
Definition is_unique_key : field_type → bool := has_flag UNIQUE_KEY_FLAG.
Definition is_multiple_key : field_type → bool := has_flag MULTIPLE_KEY_FLAG.
Definition is_unsigned : field_type → bool := has_flag UNSIGNED_FLAG.
Definition is_zerofill : field_type → bool := has_flag ZEROFILL_FLAG.
Definition is_binary : field_type → bool := has_flag BINARY_FLAG.
Definition is_auto_increment : field_type → bool := has_flag AUTO_INCREMENT_FLAG.
Definition has_default_value (f : field_type) : bool :=
  is_nullable f || is_auto_increment f || negb (has_flag NO_DEFAULT_VALUE_FLAG f).
End field_info.

(** ** Result sets, rows and fields *)

Section reading.
Context `{Platform} `{Api} `{Casts}.

(** The native result is gone once the connection stored another or freed it. *)
Definition expired (rs : result_set) (w : world) : bool :=
  match watched rs with
  | Some r => negb (bool_decide (last_result (impl w) = Some r))
  | None => true
  end.

Definition size (rs : result_set) : prog world Z :=
  let! w := get in
  match watched rs with
  | Some r => if expired rs w then ret 0 else ask (mysql_num_rows r)
  | None => ret 0
  end.
Definition empty (rs : result_set) : prog world bool :=
  let! w := get in
  let! n := size rs in ret (expired rs w || (n =? 0)).

(** Memory of the native result, which pointers into it may no longer reach. *)
Definition in_result {A} (rs : result_set) (a : A) : prog world A :=
  let! w := get in if expired rs w then fail DanglingReference else ret a.

(** [std::vector::at] of a signed index: a negative one is a [size_type] beyond every
    vector's size. *)
Definition lookup_at {A} (l : list A) (i : Z) : option A :=
  if 0 <=? i then l !! Z.to_nat i else None.
Definition vector_at {A} (l : list A) (i : Z) : prog world A :=
  match lookup_at l i with Some a => ret a | None => throw (StdException "out_of_range") end.

(** A member that [assign] dropped when it failed. *)
Definition deref {A} (p : option A) : prog world A :=
  match p with Some a => ret a | None => fail NullDereference end.

(** [rs[i]], [rs.at(i)]; [rs.fields_info()]; the rows from [begin] to [end]. *)
Definition result_at (rs : result_set) (i : Z) : prog world cells :=
  let! w := get in
  assertM (negb (expired rs w)) ;;;
  let! l := deref (values rs) in vector_at l i.
Definition result_fields_info (rs : result_set) : prog world (list field_type) :=
  let! w := get in
  assertM (negb (expired rs w)) ;;; deref (fields_info rs).
Definition result_range (rs : result_set) : prog world (list cells) := deref (values rs).

(** [field::as]. A string made of a null pointer is undefined behaviour. *)
Definition field_as (rs : result_set) (t : sql_type) (f : option string) : prog world sql_value :=
  assertM (match f with Some _ => true | None => false end) ;;;
  let! s := deref f in
  let! s := in_result rs s in value_cast t s.

(** [rs[i][j].as<T>()] *)
Definition read_field (rs : result_set) (t : sql_type) (i j : Z) : prog world sql_value :=
  let! row := result_at rs i in
  let! f := vector_at row j in field_as rs t f.

(** [row::size] asks the native result. *)
Definition row_size (rs : result_set) : prog world Z :=
  let! r := deref (watched rs) in
  let! _ := in_result rs tt in
  let! n := ask (mysql_num_fields r) in ret (u32 n).

(** [operator<<] of a field, which stops at a zero byte, and of a row. *)
Fixpoint c_string (s : string) : string :=
  match s with
  | String c s' => if decide (c = Ascii.zero) then EmptyString else String c (c_string s')
  | EmptyString => EmptyString
  end.
Definition print_field (rs : result_set) (f : option string) : prog world string :=
  match f with
  | None => ret "null"%string
  | Some s => let! s := in_result rs s in ret (c_string s)
  end.
Fixpoint print_fields (rs : result_set) (row : cells) (indices : list nat) : prog world string :=
  match indices with
  | [] => ret EmptyString
  | i :: rest =>
      let! f := vector_at row (Z.of_nat i) in
      let! a := print_field rs f in
      let! b := print_fields rs row rest in ret (a +:+ " " +:+ b)
  end.
Definition print_row (rs : result_set) (row : cells) : prog world string :=
  let! n := row_size rs in print_fields rs row (seq 0 (Z.to_nat n)).

(** ** Lemmas *)

Lemma in_result_alive {A} rs (a : A) w :
  expired rs w = false → in_result rs a w = (Val a, w).
Proof. unfold in_result. run_simpl. by intros ->. Qed.

Lemma in_result_expired {A} rs (a : A) w :
  expired rs w = true → in_result rs a w = (Fault DanglingReference, w).
Proof. unfold in_result. run_simpl. by intros ->. Qed.

Lemma assertM_false {S A} (k : prog S A) s :
  NDEBUG = false → (assertM false ;;; k) s = (Fault AssertionFailed, s).
Proof. intros E. unfold assertM. by rewrite E. Qed.

Lemma assertM_off {S A} c (k : prog S A) s : NDEBUG = true → (assertM c ;;; k) s = k s.
Proof. intros E. unfold assertM. by rewrite E. Qed.

(** Reading a field of a result set whose native result is alive. *)
Definition field_result (t : sql_type) (rows : list cells) (i j : Z) : prog world sql_value :=
  match lookup_at rows i with
  | None => throw (StdException "out_of_range")
  | Some row =>
      match lookup_at row j with
      | None => throw (StdException "out_of_range")
      | Some None => fail (if NDEBUG then NullDereference else AssertionFailed)
      | Some (Some s) => value_cast t s
      end
  end.

Lemma read_field_alive rs rows t i j w :
  expired rs w = false → values rs = Some rows →
  read_field rs t i j w = field_result t rows i j w.
Proof.
  intros He Hv. unfold read_field, result_at, field_result. unfold bind at 1, bind at 1, get.
  rewrite assertM_true by (by rewrite He). rewrite Hv. unfold deref at 1, vector_at at 1.
  unfold bind at 1, ret at 1. destruct (lookup_at rows i) as [row|]; [|done].
  unfold ret, vector_at. unfold bind at 1. destruct (lookup_at row j) as [[s|]|]; [|shelve|done].
  - unfold ret at 1, field_as. rewrite assertM_true by done. unfold deref, bind at 1, ret at 1.
    by erewrite bind_val by (by apply in_result_alive).
  Unshelve. unfold ret at 1, field_as. destruct NDEBUG eqn:En.
  + by rewrite assertM_off.
  + by rewrite assertM_false.
Qed.

Lemma read_field_expired rs rows t i j w row s :
  expired rs w = true → values rs = Some rows → lookup_at rows i = Some row →
  lookup_at row j = Some (Some s) →
  (read_field rs t i j w).1 = Fault (if NDEBUG then DanglingReference else AssertionFailed).
Proof.
  intros He Hv Hi Hj. unfold read_field, result_at. unfold bind at 1, bind at 1, get.
  rewrite He. simpl. destruct NDEBUG eqn:En.
  - rewrite assertM_off by done. rewrite Hv. unfold deref at 1, vector_at at 1.
    unfold bind at 1, ret at 1. rewrite Hi. unfold ret, vector_at. unfold bind at 1. rewrite Hj.
    unfold ret at 1, field_as. rewrite assertM_true by done. unfold deref, bind at 1, ret at 1.
    by erewrite bind_fault by (by apply in_result_expired).
  - by rewrite assertM_false.
Qed.
End reading.

(** ** The life of a result *)

Section life.
Context `{Platform} `{Casts} `{Results}.

Lemma query_frees stmt w :
  initialized (impl w) = true → last_result (impl (query stmt w).2) = None.
Proof.
  intros Ho. unfold query, is_open. run_simpl. rewrite Ho. unfold do_query.
  assert (Hk : ∀ v, keeps (λ w, last_result (impl w)) (ops_mysql_real_query stmt) ∧
    last_result (impl (free_result v).2) = None).
  { intros v. split.
    - intros u. unfold ops_mysql_real_query, error_wrapper, run, ask. run_simpl.
      by destruct (mysql_real_query stmt (client u)).
    - unfold free_result, exec, update. run_simpl. by destruct (last_result (impl v)). }
  unfold bind. pose proof (proj2 (Hk w)) as Hf.
  destruct (free_result w) as [[] w1]; simpl in *; try done. by rewrite (proj1 (Hk w1)).
Qed.

Lemma expired_query stmt rs w :
  initialized (impl w) = true → expired rs (query stmt w).2 = true.
Proof.
  intros Ho. unfold expired. destruct (watched rs); [|done]. by rewrite query_frees.
Qed.

(** C37. The rows of a stored result read as what the server sent: every field as its
    text converts, a NULL as a failed assertion, or a null pointer where assertions
    are off, an index outside as [out_of_range]. They last until the next query:
    after it the same access is a failed assertion, or reads freed memory. *)
Theorem rows_last_until_next_query fuel w t ts :
  queried w t ts → fits fuel t →
  ∃ rs w1, connector_store_result fuel w = (Val rs, w1) ∧
    (∀ ty i j, read_field rs ty i j w1 = field_result ty (t_rows t) i j w1) ∧
    ∀ stmt ty i j row s, lookup_at (t_rows t) i = Some row → lookup_at row j = Some (Some s) →
      (read_field rs ty i j (query stmt w1).2).1 =
        Fault (if NDEBUG then DanglingReference else AssertionFailed).
Proof.
  intros Hq Hf. destruct (store_first fuel w t ts Hq Hf) as (r & w1 & E & [[Ho _] _ _ _] & Hlast).
  exists (set_of r t), w1. split; [done|]. split.
  - intros ty i j. apply read_field_alive; [|done]. unfold expired. simpl.
    by rewrite bool_decide_eq_true_2.
  - intros stmt ty i j row s Hi Hj.
    by apply (read_field_expired _ (t_rows t) _ _ _ _ row s); [apply expired_query| | |].
Qed.
End life.

(** ** Numbers as text *)

(** The decimal text the server sends for a number. *)
Definition decimal (n : Z) : string := NilZero.string_of_int (Z.to_int n).

(** What boost documents of [lexical_cast]: the text of a number is read back by
    every type that has it, and what is read is of the type. *)
Class CastLaws `{Casts} : Prop := {
  lexical_decimal bits signed n :
    in_range bits signed n = true → lexical_cast bits signed (decimal n) = Some n;
  lexical_range bits signed s n :
    lexical_cast bits signed s = Some n → in_range bits signed n = true;
}.

(** The width and the sign of an integer type. *)
Definition integer_type (t : sql_type) : option (Z * bool) :=
  match t with
  | sql_tinyint signed => Some (8, signed)
  | sql_integer bits signed => Some (bits, signed)
  | _ => None
  end.

Section numbers.
Context `{CastLaws} {S : Type}.

Lemma tinyint_in_int signed n : in_range 8 signed n = true → in_range 32 true n = true.
Proof.
  unfold in_range, int_min, int_max. rewrite !andb_true_iff, !Z.leb_le.
  destruct signed; simpl; lia.
Qed.

(** The text of a number of an integer type reads back as the number; whatever is read
    is of the type; a number that fits [int] and not the tiny type is refused. *)
Lemma numbers_read_back t bits signed n (s : S) :
  integer_type t = Some (bits, signed) →
  (in_range bits signed n = true → value_cast t (decimal n) s = (Val (v_number n), s)) ∧
  (∀ text v s', value_cast t text s = (Val v, s') →
     ∃ m, v = v_number m ∧ in_range bits signed m = true) ∧
  (t = sql_tinyint signed → in_range 8 signed n = false → in_range 32 true n = true →
     (value_cast t (decimal n) s).1 = Exc (StdException "bad_numeric_cast")).
Proof.
  destruct t as [sg|b sg| | | |]; try done; intros [= <- <-]; simpl; split_and!.
  - intros Hr. rewrite lexical_decimal by (by eapply tinyint_in_int).
    unfold numeric_cast. run_simpl. by rewrite Hr.
  - intros text v s'. destruct (lexical_cast 32 true text) as [m|]; [|done].
    unfold numeric_cast. run_simpl. destruct (in_range 8 sg m) eqn:E; [|done].
    intros [= <- <-]. eauto.
  - intros _ Hout Hin. rewrite lexical_decimal by done. unfold numeric_cast. run_simpl.
    by rewrite Hout.
  - intros Hr. by rewrite lexical_decimal.
  - intros text v s'. destruct (lexical_cast b sg text) as [m|] eqn:E; [|done].
    intros [= <- <-]. apply lexical_range in E. eauto.
  - done.
Qed.

(** MySQL has no booleans but numbers: read as [sql_bool], every one is [false]. *)
Lemma numbers_are_false n (s : S) : value_cast sql_bool (decimal n) s = (Val (v_bool false), s).
Proof.
  unfold value_cast, decimal, read_boolalpha.
  destruct (Z.to_int n) as [d|d]; [|done]. by destruct d.
Qed.
End numbers.

(** ** A conversion and a result for the witnesses *)

Definition toy_casts : Casts := {|
  lexical_cast := λ bits signed s,
    match NilZero.int_of_string s with
    | Some d => if in_range bits signed (Z.of_int d) then Some (Z.of_int d) else None
    | None => None
    end;
  read_ptime := λ _, 0;
  read_duration := λ _, 0;
|}.
#[local] Existing Instance toy_casts.

Lemma toy_cast_laws : CastLaws.
Proof.
  split.
  - intros bits signed n Hr. simpl. unfold decimal.
    rewrite NilZero.isi; [by rewrite of_to, Hr| |]; destruct n; simpl; try done.
    all: destruct (Pos.to_uint p) eqn:E; try done.
    all: by destruct (DecimalPos.Unsigned.to_uint_nonnil p).
  - intros bits signed s n. simpl. destruct (NilZero.int_of_string s) as [d|]; [|done].
    destruct (in_range bits signed (Z.of_int d)) eqn:E; [|done]. by intros [= <-].
Qed.

#[local] Existing Instance toy_cast_laws.
#[local] Existing Instance Amy.toy_api.
#[local] Existing Instance Amy.toy_results.
#[local] Instance toy_platform : Platform := x86_64 true.

(** A stored number is read; after the next query the access reads freed memory. *)
Lemma rows_last_until_next_query_witness :
  ∃ rs w1,
    connector_store_result 3 (toy_world false (Some (toy_table "42")) []) = (Val rs, w1) ∧
    (read_field rs (sql_tinyint true) 0 0 w1).1 = Val (v_number 42) ∧
    (read_field rs sql_text 1 0 w1).1 = Fault NullDereference ∧
    (read_field rs sql_text 0 1 w1).1 = Exc (StdException "out_of_range") ∧
    (read_field rs sql_text 0 0 (query "SELECT 2" w1).2).1 = Fault DanglingReference.
Proof.
  assert (Hq0 : queried (toy_world false (Some (toy_table "42")) []) (toy_table "42") []).
  { split; try reflexivity. split; [reflexivity|discriminate]. }
  destruct (rows_last_until_next_query 3 (toy_world false (Some (toy_table "42")) [])
    (toy_table "42") [] Hq0 (toy_result_fits "42")) as (rs & w1 & E & Hread & Hq).
  exists rs, w1. rewrite !Hread. split_and!; try reflexivity; [exact E|].
  by apply (Hq "SELECT 2" sql_text 0 0 [Some "42"] "42").
Defined.

Example numbers_read_back_tinyint :
  (value_cast (sql_tinyint true) (decimal 200) tt).1 = Exc (StdException "bad_numeric_cast") ∧
  (value_cast (sql_tinyint false) (decimal 200) tt).1 = Val (v_number 200) ∧
  (value_cast (sql_integer 16 true) "twelve" tt).1 = Exc (StdException "bad_lexical_cast") ∧
  (value_cast sql_bool "1" tt).1 = Val (v_bool false).
Proof. by split_and!. Qed.

End AmyRows.
